(* ===== verification/_CoqProject ===== *)
-Q . S2P
Prelude.v
Bytes.v
CxxLib.v
RequestParser.v
ResponseSerializer.v
HashTable.v
HashMapSpec.v
HashStack.v
Heap.v
AVL.v
ZSet.v
EntryManager.v
CommandProcessor.v
StringService.v
Connection.v
Server.v
Service.v
Socket.v
Program.v
RaftLog.v
Raft.v
RaftElection.v
RaftCluster.v
RaftReplication.v
DList.v
CountMin.v
Memory.v
NearestQueue.v
MaxQueue.v
Bruteforce.v
VisitedList.v
Wp.v
Hnsw.v
HnswRep.v
HnswSearch.v
HnswHeuristic.v
HnswGraph.v
HnswDescent.v
HnswIndex.v
HnswInsert.v
HnswMarks.v
HnswUpdate.v
HnswFile.v
HnswSample.v
HnswSave.v
HnswSpec.v
HnswReplace.v
HnswStore.v
HnswKnn.v
HnswCheck.v
SkipList.v
ThreadPool.v
LockFreeAVL.v
LockFreeClients.v
LockFreeCoherent.v
Spaces.v
