(* ===== verification/Prelude.v ===== *)
(** * VectorDB: a verification development of the key-value server

    The repository is a networked key-value store with sorted sets and expiry times,
    the data structures it is built from, and a Raft library for its planned
    replication.  This library models the code as it is written and proves what it
    does, the places where it does not do what it means to included.

    ** The program and the files that model it

    A request travels from the event loop to the data structures and back:

    - [Server] (server.hpp, socket.hpp): one thread that accepts connections, polls
      them and serves the ready ones; the file descriptors the process owns.
    - [Socket] (socket.hpp, [initialize] of server.hpp): moving and releasing a
      descriptor, and setting up the listening socket.
    - [Program] (main.cpp): the arguments, the thread pool's start, the set-up, the
      loop and the interrupt that ends it.
    - [Connection] (connection.hpp): [process_io], the text protocol the server runs,
      and the framed protocol ([handle_request], [handle_response]) nothing calls.
    - [RequestParser], [ResponseSerializer] (request_parser.hpp,
      response_serializer.hpp, common.hpp): the framed request and the tagged reply.
    - [CommandProcessor] (command_processor.hpp): dispatch and one definition per
      command.  [StringService] and [Service] have its theory together with what is
      below and above it: the string commands over all keys, and the event loop from
      the bytes a client sends to the bytes it gets.
    - [EntryManager] (entry_manager.hpp): keys to entries, and expiry times.
    - [HashTable], [HashMapSpec], [HashStack] (dsa/hashtable.hpp): the chained table and
      the map that resizes incrementally from one table to another.
    - [Heap] (dsa/heap.hpp): the binary heap of expiry times, whose items write their
      position through a pointer.
    - [AVL] (dsa/avl_locking.hpp): the balanced tree.  [ZSet] (dsa/zset.hpp): sorted
      sets over a map and a tree, the tree through the interface [OrderedMap].
    - [RaftLog], [Raft] (raft/raft.hpp): the replicated log and the server with every
      handler; [RaftElection], [RaftCluster] and [RaftReplication] have their theory:
      what the handlers do to roles, a cluster as a step relation, and the log, the
      commit index and the state machine.
    - [DList] (dsa/list.hpp): the intrusive list over a store of nodes.  [SkipList]
      (dsa/skiplist.hpp): the lock-based skip list as one thread runs it.  [LockFreeAVL]
      (dsa/avl_lockfree.hpp): the tree of compare-and-swap loops, as programs over atomic
      actions that run alone or interleaved with others; [LockFreeClients] interleaves them
      over one memory, [LockFreeCoherent] over values that are only coherent.  [ThreadPool]
      (dsa/thread_pool.hpp): the pool as a step relation over its threads, with the holder
      of its mutex, sleeping threads and notifications.  [CountMin]
      (cache/CountMinSketch.cpp): the sketch of packed 4-bit counters.
    - [Memory], [NearestQueue], [Bruteforce], [VisitedList] (hnsw/hnsw_scratch): blocks of
      memory and binary files, the queue of nearest candidates, the brute-force index over
      its block of memory with the interface of hnswlib.hpp, and the pool of visited lists.
      [Spaces] (space_l2.hpp, space_ip.hpp): the distances.
    - The graph index (hnsw_core.hpp): [Hnsw] has its state, bytes at addresses, and its
      operations, [HnswFile] those on the index as a whole; they use priority queues
      through the interface [MaxQueue].  [HnswRep] relates the bytes to a list of elements
      and has a rule in the style of [Wp] for every access; [HnswSearch], [HnswHeuristic],
      [HnswGraph], [HnswDescent], [HnswInsert] and [HnswUpdate] prove the rules of the
      operations over it, [HnswIndex] the invariant and the constructor, [HnswMarks] the
      deletion marks, [HnswSave] the index file, [HnswKnn] the search for neighbours, [HnswCheck] the
      check of the links.  [HnswSpec], [HnswReplace] and [HnswStore] have what the others
      promise to a caller: one operation, the public [addPoint] with the reuse of deleted
      places, and sequences of calls; [HnswSample] is an index of three elements to run
      them on.

    [Prelude] (this file), [Bytes] and [CxxLib] hold what the others share: the monad,
    mutexes, machine integers, little-endian bytes, and the parts of the C++ standard
    library the source uses ([std::stoll], [std::tolower], [operator>>]).

    ** How the code is modelled

    A call is a function in the monad [M S A] over the state of its object; its
    [outcome] says whether it returns, throws, deadlocks ([Stuck]), runs into
    undefined behaviour, or fails an assertion.  Objects that are shared or pointed to
    (entries, items of the heap, nodes of the list, Raft peers) live in a store and
    are named by locations, so that dangling pointers show.  A mutex is the list of
    modes in which the one modelled thread holds it.  What a second acquisition by the
    same thread does is a [LockPolicy]: a theorem about a deadlock assumes
    [std::shared_mutex], one about the result of an operation that re-acquires assumes
    that the platform lets it.  Integers are [Z] with the wrap-around of their width
    where the code can reach it.  Doubles are their binary64 images, compared by a
    parameter; [std::stod] is a parameter.  Time, random numbers, addresses of new
    objects and the answers of the operating system are arguments; so are the contents of
    memory before it is written ([stale], [uninit]), the counter an overflowing shift
    leaves and the seeds of the sketch, and the numbers a skip list draws for its levels.

    Recursion that the source does not bound has fuel, and a theorem that a loop
    returns says how much is enough: the number of buckets for a migration, the height
    for a sift, the number of unapplied entries for [raft_apply_all], the number of keys
    for a search in the skip list or in the lock-free tree, the number of elements for
    the loops over the graph: a search expands an element once, and a walk gets closer
    with every step.

    ** What is shown

    Each statement names what it asks of the calls; the comments before the theorems spell
    it out, and the restrictions are those the code has.

    - Every container refines its mathematical counterpart: the tree a finite map; the
      hash map one as long as no key is inserted twice and, before it grows - which it
      never survives with [std::shared_mutex] - a list of pairs with the newest first
      whatever is inserted; the sorted set a map of scores, but for additions, which hang
      with [std::shared_mutex]; the heap a multiset that drains in order; the Raft log a
      list, for indices that are still in it; the intrusive list a list; the skip list a
      set of keys below the greatest, while levels are drawn 1, whose nodes its destructor
      all frees.
    - The brute-force index finds the [K] nearest vectors of those it accepted last, for
      unfiltered queries and [K] up to their number, also after it is saved and loaded;
      the sketch never counts below the truth while its counters hold it, and the lemmas
      say what it answers once they overflow; a visited list comes from the pool with
      nothing visited.  Byte distances are exact up to the dimension where [int] overflows.
    - The graph index stays well formed - every link leads to another element of its level,
      none twice, the labels and the entry are right - under additions, updates, the reuse
      of deleted places, deletion marks, resizing, saving and loading, and sequences of
      calls answer as a finite map from labels to vectors with a mark.  An index of the
      constructor takes new labels but no updates, since [efConstruction_] stays 0.
      The search of a layer leaves no closer neighbour of what it has found, and the
      heuristic, the links it is used for and the walk down the levels do what the paper
      says.  A file that is cut short is rejected.
    - GET, SET, DEL, EXISTS and FLUSHALL answer as a list of pairs - SET hides an older
      value, DEL uncovers it - and no value leaks.  The service does: while clients send
      only these, ill-formed or unknown requests, and no SET beside 32 values, then however
      they connect, send, close and fail, each is written the replies of one list of pairs
      to its commands in order, and the loop holds exactly the clients' descriptors; [main]
      ends with status 0 after that, or with status 1, nothing written and its descriptors
      closed, when its arguments, the threads or the socket are not in order.  The commands
      on sorted sets and expiry times are modelled, and what they do is in lemmas of
      [CommandProcessor] and [EntryManager]; they are not part of the service, since ZADD
      and the deletion of a key with an expiry time hang.  Requests and replies round-trip;
      bytes are sent once and in order.
    - Invariants hold over all sequences of operations: balance, heap order and back
      pointers, open descriptors, Raft's indices and its committed entries.
    - A cluster of the Raft servers never has two leaders in one term, whatever the
      network does, and the leader commits on a response only what a majority has.
    - Once the thread pool is stopped no thread sleeps for good: the [notify_all] that
      follows the store to [stop] wakes every sleeper, and all threads and calls end.
    - The lock-free tree is a finite map to one thread, and a coherent one to threads that
      look up keys and set present ones, whatever the interleaving and the values that
      coherence lets them read (an atomic one under sequential consistency); it loses keys
      when an insertion meets a rotation, or a compare-and-swap fails spuriously.
    - Errors are theorems as well: [std::shared_mutex] acquired twice (a loaded map, a
      ZADD, the deletion of a key with an expiry time) never returns, one such command
      stops the whole server, removed keys can come back after a resize, expiry times
      are reported for the wrong key, a late heartbeat cuts a Raft log, the graph index as
      its constructor makes it cannot update an element.

    ** What is not modelled

    Text printed to the console, the logger (logging.hpp) and the tests.
    Weak memory, but for the values of the lock-free tree ([LockFreeCoherent]): there a load
    can read any value that coherence allows, and the theorem holds for whatever the
    acquire and release orders leave; what threads that insert or delete can see under
    these orders is left out.  Threads are interleaved in [ThreadPool] and [LockFreeAVL];
    the server is one thread, and the data structures with mutexes, [SkipList] included,
    are run by one, and so is the graph index, of whose mutexes only the link locks are in
    the model.  hnsw_core.hpp does not compile as it is, and [Hnsw] says how it is read:
    [searchBaseLayerST], which it calls and nobody defines, is a parameter of the two
    searches, the level [getRandomLevel] draws (from doubles) an argument.  Distances are
    integers.  dsa/hnsw.hpp is commented out in full. *)

From stdpp Require Export base tactics option list gmap strings fin_maps.
From Stdlib Require Export ZArith Lia.

Open Scope Z_scope.

(** ** Outcomes of a C++ call

    A call either returns, throws, never comes back from a mutex that its own
    thread holds, runs into undefined behaviour, fails an [assert], or (for the
    loops the source does not bound) exhausts the fuel given to the model. *)

(** The exceptions the modelled code throws or lets through. *)
Inductive exn : Type :=
| out_of_range (what : string)
| runtime_error (what : string)
| invalid_argument (what : string).

#[export] Instance exn_eq_dec : EqDecision exn.
Proof. solve_decision. Defined.

Inductive outcome (S A : Type) : Type :=
| Done (a : A) (s : S)
| Throw (e : exn) (s : S)
| Stuck
| Undef
| AssertFail
| NoFuel.

Arguments Done {S A} _ _.
Arguments Throw {S A} _ _.
Arguments Stuck {S A}.
Arguments Undef {S A}.
Arguments AssertFail {S A}.
Arguments NoFuel {S A}.

(** The state monad over outcomes; [x ← m; k] and [m ;; k] are stdpp's. *)
Definition M (S A : Type) : Type := S → outcome S A.

#[export] Instance M_ret {S} : MRet (M S) := λ A a s, Done a s.
#[export] Instance M_bind {S} : MBind (M S) := λ A B f m s,
  match m s with
  | Done a s' => f a s'
  | Throw e s' => Throw e s'
  | Stuck => Stuck
  | Undef => Undef
      | AssertFail => AssertFail
  | NoFuel => NoFuel
  end.

Definition get {S} : M S S := λ s, Done s s.
Definition put {S} (s' : S) : M S unit := λ _, Done tt s'.
Definition modify {S} (f : S → S) : M S unit := λ s, Done tt (f s).
Definition throw {S A} (e : exn) : M S A := λ s, Throw e s.
Definition undef {S A} : M S A := λ _, Undef.
Definition stuck {S A} : M S A := λ _, Stuck.

(** [assert(b)] with assertions enabled. *)
Definition assert_ {S} (b : bool) : M S unit := λ s, if b then Done tt s else AssertFail.

(** Running a computation on a component of the state. *)
Definition zoom {S T A} (getT : S → T) (setT : T → S → S) (m : M T A) : M S A := λ s,
  match m (getT s) with
  | Done a t => Done a (setT t s)
  | Throw e t => Throw e (setT t s)
  | Stuck => Stuck
  | Undef => Undef
      | AssertFail => AssertFail
  | NoFuel => NoFuel
  end.

(** ** Mutexes

    [std::shared_mutex] is not recursive: the C++ standard leaves the
    behaviour undefined when the owning thread acquires it again.  The model is
    of one thread, so a mutex is the list of modes in which that thread holds
    it, innermost first.  What a conflicting second acquisition does is the one
    platform-dependent choice, a [LockPolicy]: under [std_shared_mutex] it never
    returns (libc++ blocks; libstdc++ raises EDEADLK, which the [noexcept]
    accessors turn into termination), under [reentrant] it is granted, as with
    a recursive mutex.  Shared over shared is granted by both: glibc and libc++
    grant it when no writer waits, and here there is none. *)
Inductive lock_mode : Type := Sh | Un.

#[export] Instance lock_mode_eq_dec : EqDecision lock_mode.
Proof. solve_decision. Defined.

Class LockPolicy := { relock_allowed : bool }.

Definition std_shared_mutex : LockPolicy := {| relock_allowed := false |}.
Definition reentrant : LockPolicy := {| relock_allowed := true |}.

Abbreviation mutex := (list lock_mode).

Definition conflicts (md : lock_mode) (held : mutex) : bool :=
  match md with
  | Sh => bool_decide (Un ∈ held)
  | Un => bool_decide (held ≠ [])
  end.

(** A state that contains a mutex. *)
Class HasMutex (S : Type) := {
  mtx : S → mutex;
  set_mtx : mutex → S → S;
}.

Section Locks.
Context {LP : LockPolicy} {S : Type} `{HasMutex S}.

Definition acquire (md : lock_mode) : M S unit := λ s,
  if conflicts md (mtx s) && negb relock_allowed then Stuck
  else Done tt (set_mtx (md :: mtx s) s).

Definition release : M S unit := λ s, Done tt (set_mtx (tail (mtx s)) s).

(** The scope of a [std::unique_lock] or [std::shared_lock]: released on return
    and on an exception. *)
Definition guarded {A} (md : lock_mode) (body : M S A) : M S A := λ s,
  match acquire md s with
  | Done _ s1 =>
      match body s1 with
      | Done a s2 => Done a (set_mtx (tail (mtx s2)) s2)
      | Throw e s2 => Throw e (set_mtx (tail (mtx s2)) s2)
      | Stuck => Stuck
      | Undef => Undef
      | AssertFail => AssertFail
      | NoFuel => NoFuel
      end
  | Throw e s1 => Throw e s1
  | Stuck => Stuck
  | Undef => Undef
      | AssertFail => AssertFail
  | NoFuel => NoFuel
  end.
End Locks.

(** The address of an object that outlives a call. *)
Abbreviation loc := positive.

(** ** Machine integers

    An integer of the source is a [Z]; [wrapu w] is the value kept in an
    unsigned [w]-bit object and [wraps w] the two's complement one. *)
Definition wrapu (w z : Z) : Z := z mod 2 ^ w.
Definition wraps (w z : Z) : Z := (z + 2 ^ (w - 1)) mod 2 ^ w - 2 ^ (w - 1).

Definition u32_max : Z := 2 ^ 32 - 1.
Definition u64_max : Z := 2 ^ 64 - 1.
Definition i64_min : Z := - 2 ^ 63.
Definition i64_max : Z := 2 ^ 63 - 1.

(** [static_cast<size_t>(-1)]. *)
Definition npos : Z := u64_max.

Lemma wrapu_range w z : 0 ≤ w → 0 ≤ wrapu w z < 2 ^ w.
Proof. intros. unfold wrapu. apply Z.mod_pos_bound. lia. Qed.

Lemma wrapu_small w z : 0 ≤ z < 2 ^ w → wrapu w z = z.
Proof. apply Z.mod_small. Qed.

Lemma wraps_range w z : 0 < w → - 2 ^ (w - 1) ≤ wraps w z < 2 ^ (w - 1).
Proof.
  intros Hw. unfold wraps.
  assert (2 ^ w = 2 * 2 ^ (w - 1)) as Hp.
  { rewrite <- Z.pow_succ_r by lia. f_equal. lia. }
  pose proof (Z.mod_pos_bound (z + 2 ^ (w - 1)) (2 ^ w)). lia.
Qed.

Lemma wraps_small w z : 0 < w → - 2 ^ (w - 1) ≤ z < 2 ^ (w - 1) → wraps w z = z.
Proof.
  intros Hw Hz. unfold wraps.
  assert (2 ^ w = 2 * 2 ^ (w - 1)) as Hp.
  { rewrite <- Z.pow_succ_r by lia. f_equal. lia. }
  rewrite Z.mod_small; lia.
Qed.

(** ** Automation *)

Create HintDb vdb.
#[export] Hint Resolve wrapu_range wraps_range : vdb.
Create Rewrite HintDb vdb_rew.
#[export] Hint Rewrite wrapu_small wraps_small using lia : vdb_rew.

(** Boolean tests on integers in the goal or the context become propositions. *)
Ltac destr_bools :=
  repeat match goal with
  | |- context [Z.ltb ?a ?b] => destruct (Z.ltb_spec a b)
  | |- context [Z.leb ?a ?b] => destruct (Z.leb_spec a b)
  | |- context [Z.eqb ?a ?b] => destruct (Z.eqb_spec a b)
  | |- context [Nat.ltb ?a ?b] => destruct (Nat.ltb_spec a b)
  | |- context [Nat.leb ?a ?b] => destruct (Nat.leb_spec a b)
  | |- context [Nat.eqb ?a ?b] => destruct (Nat.eqb_spec a b)
  | H : context [Z.ltb ?a ?b] |- _ => destruct (Z.ltb_spec a b)
  | H : context [Z.leb ?a ?b] |- _ => destruct (Z.leb_spec a b)
  | H : context [Z.eqb ?a ?b] |- _ => destruct (Z.eqb_spec a b)
  | H : context [Nat.ltb ?a ?b] |- _ => destruct (Nat.ltb_spec a b)
  | H : context [Nat.leb ?a ?b] |- _ => destruct (Nat.leb_spec a b)
  | H : context [Nat.eqb ?a ?b] |- _ => destruct (Nat.eqb_spec a b)
  end.

(** Computing through the monad. *)
Ltac munfold :=
  unfold mbind, M_bind, mret, M_ret, get, put, modify, throw, undef, stuck in *;
  cbn beta iota zeta in *.

(** ** Lemmas on the monad and on guards *)
Lemma bind_ret {S A B} (a : A) (f : A → M S B) : (mret a : M S A) ≫= f = f a.
Proof. reflexivity. Qed.
#[export] Hint Rewrite @bind_ret : vdb_rew.

Lemma bind_Done {S A B} (m : M S A) (f : A → M S B) s a s' :
  m s = Done a s' → (m ≫= f) s = f a s'.
Proof. intros H. unfold mbind, M_bind. by rewrite H. Qed.

Lemma bind_Stuck {S A B} (m : M S A) (f : A → M S B) s :
  m s = Stuck → (m ≫= f) s = Stuck.
Proof. intros H. unfold mbind, M_bind. by rewrite H. Qed.

Lemma bind_Throw {S A B} (m : M S A) (f : A → M S B) s e s' :
  m s = Throw e s' → (m ≫= f) s = Throw e s'.
Proof. intros H. unfold mbind, M_bind. by rewrite H. Qed.

Lemma bind_get {S B} (f : S → M S B) s : (get ≫= f) s = f s s.
Proof. reflexivity. Qed.

Lemma bind_assoc {S A B C} (m : M S A) (f : A → M S B) (g : B → M S C) s :
  ((m ≫= f) ≫= g) s = (m ≫= (λ a, f a ≫= g)) s.
Proof. unfold mbind, M_bind. by destruct (m s). Qed.

Lemma conflicts_nil md : conflicts md [] = false.
Proof. by destruct md. Qed.

Lemma conflicts_under_unique md held : conflicts md (Un :: held) = true.
Proof.
  destruct md; unfold conflicts; apply bool_decide_eq_true_2.
  - set_solver.
  - done.
Qed.

Section GuardLemmas.
Context {LP : LockPolicy} {S : Type} `{HasMutex S}.

(** A free mutex is granted under every policy. *)
Lemma guarded_free {A} md (body : M S A) s :
  mtx s = [] →
  guarded md body s =
  match body (set_mtx [md] s) with
  | Done a s2 => Done a (set_mtx (tail (mtx s2)) s2)
  | Throw e s2 => Throw e (set_mtx (tail (mtx s2)) s2)
  | Stuck => Stuck
  | Undef => Undef
      | AssertFail => AssertFail
  | NoFuel => NoFuel
  end.
Proof.
  intros Hfree. unfold guarded, acquire.
  rewrite Hfree, conflicts_nil. done.
Qed.

(** A mutex held in unique mode by the same thread is never granted again
    unless the platform allows it. *)
Lemma guarded_relock {A} md (body : M S A) s held :
  mtx s = Un :: held → relock_allowed = false → guarded md body s = Stuck.
Proof.
  intros Hheld Hpol. unfold guarded, acquire.
  by rewrite Hheld, conflicts_under_unique, Hpol.
Qed.

Lemma guarded_allowed {A} md (body : M S A) s :
  relock_allowed = true →
  guarded md body s =
  match body (set_mtx (md :: mtx s) s) with
  | Done a s2 => Done a (set_mtx (tail (mtx s2)) s2)
  | Throw e s2 => Throw e (set_mtx (tail (mtx s2)) s2)
  | Stuck => Stuck
  | Undef => Undef
      | AssertFail => AssertFail
  | NoFuel => NoFuel
  end.
Proof.
  intros Hpol. unfold guarded, acquire. rewrite Hpol, andb_false_r. done.
Qed.

(** A shared acquisition is refused only over a unique one. *)
Lemma guarded_shared {A} (body : M S A) s :
  relock_allowed = true ∨ Un ∉ mtx s →
  guarded Sh body s =
  match body (set_mtx (Sh :: mtx s) s) with
  | Done a s2 => Done a (set_mtx (tail (mtx s2)) s2)
  | Throw e s2 => Throw e (set_mtx (tail (mtx s2)) s2)
  | Stuck => Stuck
  | Undef => Undef
  | AssertFail => AssertFail
  | NoFuel => NoFuel
  end.
Proof.
  intros Hpol. unfold guarded, acquire, conflicts.
  destruct Hpol as [->|Hn]; [by rewrite andb_false_r|].
  by rewrite bool_decide_eq_false_2.
Qed.
End GuardLemmas.

(** ** Computations that relate the states before and after

    [keeps R m]: when [m] returns, the state after it is related to the one before.
    For a preorder this is proved along the structure of [m], by the tactic
    [keep_step] and the hints of [keeps]. *)
Definition keeps {S A} (R : S → S → Prop) (m : M S A) : Prop :=
  ∀ s a s', m s = Done a s' → R s s'.

Create HintDb keeps.

Section Keeps.
Context {S : Type} (R : S → S → Prop) `{!PreOrder R}.

Lemma keeps_ret {A} (a : A) : keeps R (mret a).
Proof. intros s b s' [= _ <-]. reflexivity. Qed.

Lemma keeps_get : keeps R get.
Proof. intros s b s' [= _ <-]. reflexivity. Qed.

Lemma keeps_undef {A} : keeps R (undef : M S A).
Proof. done. Qed.

Lemma keeps_assert b : keeps R (assert_ b).
Proof. unfold assert_. intros s a s'. destruct b; [|done]. intros [= _ <-]. reflexivity. Qed.

Lemma keeps_modify f : (∀ s, R s (f s)) → keeps R (modify f).
Proof. intros Hf s a s' [= _ <-]. apply Hf. Qed.

Lemma keeps_bind {A B} (m : M S A) (f : A → M S B) :
  keeps R m → (∀ a, keeps R (f a)) → keeps R (m ≫= f).
Proof.
  intros Hm Hf s b s'. unfold mbind, M_bind. destruct (m s) as [a s1| | | | |] eqn:E; try done.
  intros Hrun. etrans; [by eapply Hm|by eapply Hf].
Qed.

End Keeps.

#[export] Hint Resolve keeps_ret keeps_get keeps_undef keeps_assert : keeps.

(** One step along the computation. *)
Ltac keep_step :=
  lazymatch goal with
  | |- ∀ _, _ => intro
  | |- keeps _ (match ?x with _ => _ end) => destruct x
  | |- keeps _ (_ ≫= _) => first [solve [eauto with keeps] | apply keeps_bind; [typeclasses eauto| |]]
  | |- keeps _ _ => solve [eauto with keeps]
  end.
