(* ===== verification/Bytes.v ===== *)
(** Bytes, byte buffers and the object representation of integers.

    [std::vector<uint8_t>] is [list byte]; [std::string] is [string], whose
    bytes are [bytes_of_string].  The target is little-endian, as the
    unconditional [__builtin_bswap32] of request_parser.hpp presumes. *)

From S2P Require Export Prelude.
From Stdlib Require Export Init.Byte.
From Stdlib Require Strings.Byte Strings.Ascii Strings.String.

Definition byte_val (b : byte) : Z := Z.of_N (Strings.Byte.to_N b).

(** [static_cast<uint8_t>(z)]. *)
Definition to_byte (z : Z) : byte :=
  match Strings.Byte.of_N (Z.to_N (wrapu 8 z)) with Some b => b | None => x00 end.

Definition bytes_of_string (s : string) : list byte := String.list_byte_of_string s.
Definition string_of_bytes (l : list byte) : string := String.string_of_list_byte l.

(** The [n] bytes of the object representation of [z], least significant first. *)
Fixpoint le_bytes (n : nat) (z : Z) : list byte :=
  match n with
  | O => []
  | S n' => to_byte z :: le_bytes n' (Z.shiftr z 8)
  end.

Fixpoint le_val (l : list byte) : Z :=
  match l with
  | [] => 0
  | b :: l' => byte_val b + 256 * le_val l'
  end.

(** Network byte order. *)
Definition be_bytes (n : nat) (z : Z) : list byte := rev (le_bytes n z).

(** [std::memcpy] of [n] bytes from offset [pos]: undefined out of bounds. *)
Definition read_bytes (n : nat) (pos : nat) (l : list byte) : option (list byte) :=
  if (pos + n <=? length l)%nat then Some (take n (drop pos l)) else None.

(** [__builtin_bswap32]. *)
Definition bswap32 (z : Z) : Z := le_val (rev (le_bytes 4 z)).

(** ** Lemmas *)

Lemma byte_val_range b : 0 ≤ byte_val b < 256.
Proof.
  unfold byte_val. pose proof (Strings.Byte.to_N_bounded b) as H.
  apply N2Z.inj_le in H. lia.
Qed.
#[export] Hint Resolve byte_val_range : vdb.

Lemma byte_val_to_byte z : byte_val (to_byte z) = wrapu 8 z.
Proof.
  unfold byte_val, to_byte.
  pose proof (wrapu_range 8 z ltac:(lia)) as Hr. change (2 ^ 8) with 256 in Hr.
  destruct (Strings.Byte.of_N _) as [b|] eqn:Hb.
  - apply Strings.Byte.to_of_N in Hb. rewrite Hb. lia.
  - apply Strings.Byte.of_N_None_iff in Hb. lia.
Qed.

Lemma to_byte_byte_val b : to_byte (byte_val b) = b.
Proof.
  unfold to_byte. pose proof (byte_val_range b).
  rewrite wrapu_small by (change (2 ^ 8) with 256; lia).
  unfold byte_val. rewrite N2Z.id. by rewrite Strings.Byte.of_to_N.
Qed.

Lemma byte_val_inj b1 b2 : byte_val b1 = byte_val b2 → b1 = b2.
Proof. intros H. rewrite <- (to_byte_byte_val b1), H. apply to_byte_byte_val. Qed.

Lemma length_le_bytes n z : length (le_bytes n z) = n.
Proof. revert z. induction n as [|n IH]; intros z; simpl; [done|by rewrite IH]. Qed.

Lemma length_be_bytes n z : length (be_bytes n z) = n.
Proof. unfold be_bytes. rewrite length_rev. apply length_le_bytes. Qed.

Lemma le_val_range l : 0 ≤ le_val l < 2 ^ (8 * Z.of_nat (length l)).
Proof.
  induction l as [|b l IH]; simpl; [done|].
  pose proof (byte_val_range b).
  replace (8 * Z.of_nat (S (length l))) with (8 + 8 * Z.of_nat (length l)) by lia.
  rewrite Z.pow_add_r by lia. change (2 ^ 8) with 256. lia.
Qed.

Lemma le_val_le_bytes n z : le_val (le_bytes n z) = wrapu (8 * Z.of_nat n) z.
Proof.
  revert z. induction n as [|n IH]; intros z; simpl.
  - unfold wrapu. by rewrite Z.mod_1_r.
  - rewrite IH, byte_val_to_byte. unfold wrapu.
    replace (8 * Z.of_nat (S n)) with (8 + 8 * Z.of_nat n) by lia.
    rewrite Z.pow_add_r by lia. change (2 ^ 8) with 256.
    rewrite Z.shiftr_div_pow2 by lia. change (2 ^ 8) with 256.
    rewrite Z.rem_mul_r by lia. done.
Qed.

Lemma le_bytes_le_val l : le_bytes (length l) (le_val l) = l.
Proof.
  induction l as [|b l IH]; simpl; [done|].
  pose proof (byte_val_range b).
  rewrite Z.shiftr_div_pow2 by lia. change (2 ^ 8) with 256.
  f_equal.
  - apply byte_val_inj. rewrite byte_val_to_byte. unfold wrapu. change (2 ^ 8) with 256.
    rewrite Z.mul_comm, Z.mod_add by lia. apply Z.mod_small. lia.
  - rewrite Z.mul_comm, Z.div_add by lia. rewrite Z.div_small by lia. done.
Qed.

Lemma le_val_inj l1 l2 : length l1 = length l2 → le_val l1 = le_val l2 → l1 = l2.
Proof.
  intros Hl Hv. rewrite <- (le_bytes_le_val l1), <- (le_bytes_le_val l2).
  by rewrite Hl, Hv.
Qed.

(** Loading four bytes and swapping them reads network byte order. *)
Lemma bswap32_le_val l : length l = 4%nat → bswap32 (le_val l) = le_val (rev l).
Proof. intros Hl. unfold bswap32. rewrite <- Hl. by rewrite le_bytes_le_val. Qed.

Lemma bswap32_range z : 0 ≤ bswap32 z < 2 ^ 32.
Proof.
  unfold bswap32. pose proof (le_val_range (rev (le_bytes 4 z))) as H.
  by rewrite length_rev, length_le_bytes in H.
Qed.

Lemma le_val_rev_be_bytes n z :
  0 ≤ z < 2 ^ (8 * Z.of_nat n) → le_val (rev (be_bytes n z)) = z.
Proof.
  intros Hz. unfold be_bytes. rewrite rev_involutive, le_val_le_bytes.
  by apply wrapu_small.
Qed.

Lemma be_bytes_le_val_rev l n : length l = n → be_bytes n (le_val (rev l)) = l.
Proof.
  intros <-. unfold be_bytes.
  rewrite <- (length_rev l), le_bytes_le_val. apply rev_involutive.
Qed.

Lemma read_bytes_Some n pos l :
  (pos + n ≤ length l)%nat → read_bytes n pos l = Some (take n (drop pos l)).
Proof. intros H. unfold read_bytes. destr_bools; [done|lia]. Qed.

Lemma read_bytes_length n pos l r : read_bytes n pos l = Some r → length r = n.
Proof.
  unfold read_bytes. destr_bools; [|done]. intros [= <-].
  rewrite length_take, length_drop. lia.
Qed.

Lemma string_of_bytes_of_string s : string_of_bytes (bytes_of_string s) = s.
Proof. apply String.string_of_list_byte_of_string. Qed.

Lemma bytes_of_string_of_bytes l : bytes_of_string (string_of_bytes l) = l.
Proof. apply String.list_byte_of_string_of_list_byte. Qed.
#[export] Hint Rewrite string_of_bytes_of_string bytes_of_string_of_bytes
  length_le_bytes length_be_bytes : vdb_rew.
