(* ===== verification/CxxLib.v ===== *)
(** The parts of the C++ standard library whose results the program computes
    with: [std::isspace], [std::tolower], [std::to_string], [std::stoll] and
    word extraction from a [std::istringstream], in the "C" locale. *)

From S2P Require Import Prelude Bytes.

Definition isspace (b : byte) : bool :=
  let c := byte_val b in (c =? 32) || ((9 <=? c) && (c <=? 13)).

Definition isdigit (b : byte) : bool :=
  let c := byte_val b in (48 <=? c) && (c <=? 57).

Definition tolower (b : byte) : byte :=
  let c := byte_val b in
  if (65 <=? c) && (c <=? 90) then to_byte (c + 32) else b.

Definition to_lower (s : string) : string :=
  string_of_bytes (map tolower (bytes_of_string s)).

Definition digit_char (d : Z) : byte := to_byte (48 + d).

(** The decimal digits of [n], in front of [acc]; [fuel] bounds their number. *)
Fixpoint dec_digits (fuel : nat) (n : Z) (acc : list byte) : list byte :=
  match fuel with
  | O => acc
  | S fuel' =>
      if n <? 10 then digit_char n :: acc
      else dec_digits fuel' (n / 10) (digit_char (n mod 10) :: acc)
  end.

(** [std::to_string] of a 64-bit integer: at most twenty digits. *)
Definition to_string (v : Z) : list byte :=
  if v <? 0 then x2d :: dec_digits 20 (- v) [] else dec_digits 20 v [].

Fixpoint skip_space (l : list byte) : list byte :=
  match l with
  | b :: l' => if isspace b then skip_space l' else l
  | [] => []
  end.

(** The longest prefix of digits: its value in front of [acc], how many there
    are, and what is left. *)
Fixpoint scan_digits (l : list byte) (acc : Z) (n : nat) : Z * nat * list byte :=
  match l with
  | b :: l' =>
      if isdigit b then scan_digits l' (10 * acc + (byte_val b - 48)) (S n)
      else (acc, n, l)
  | [] => (acc, n, [])
  end.

(** An optional sign. *)
Definition split_sign (l : list byte) : bool * list byte :=
  match l with
  | b :: rest =>
      if byte_val b =? 45 then (true, rest)
      else if byte_val b =? 43 then (false, rest) else (false, l)
  | [] => (false, [])
  end.

Inductive sto_error : Type := sto_invalid_argument | sto_out_of_range.

(** [std::stoll(str, &pos)]: the value and the number of characters consumed. *)
Definition stoll (str : list byte) : sto_error + (Z * nat) :=
  let '(neg, body) := split_sign (skip_space str) in
  let '(v, n, rest) := scan_digits body 0 0 in
  if (n =? 0)%nat then inl sto_invalid_argument
  else
    let v := if neg : bool then - v else v in
    if (i64_min <=? v) && (v <=? i64_max)
    then inr (v, (length str - length rest)%nat)
    else inl sto_out_of_range.

(** The words [iss >> word] extracts one after the other. *)
Fixpoint split_words (l : list byte) (cur : list byte) : list (list byte) :=
  match l with
  | [] => match cur with [] => [] | _ => [rev cur] end
  | b :: l' =>
      if isspace b then
        match cur with [] => split_words l' [] | _ => rev cur :: split_words l' [] end
      else split_words l' (b :: cur)
  end.

Definition istream_words (s : list byte) : list string :=
  map string_of_bytes (split_words s []).

(** ** Lemmas *)

Lemma digit_char_val d : 0 ≤ d < 10 → byte_val (digit_char d) = 48 + d.
Proof.
  intros Hd. unfold digit_char. rewrite byte_val_to_byte.
  apply wrapu_small. change (2 ^ 8) with 256. lia.
Qed.

Lemma isdigit_digit_char d : 0 ≤ d < 10 → isdigit (digit_char d) = true.
Proof. intros Hd. unfold isdigit. rewrite digit_char_val by done. destr_bools; lia || done. Qed.

Lemma isspace_digit_char d : 0 ≤ d < 10 → isspace (digit_char d) = false.
Proof. intros Hd. unfold isspace. rewrite digit_char_val by done. destr_bools; lia || done. Qed.

Lemma split_sign_digit d l :
  0 ≤ d < 10 → split_sign (digit_char d :: l) = (false, digit_char d :: l).
Proof.
  intros Hd. unfold split_sign. rewrite digit_char_val by done.
  by rewrite !(proj2 (Z.eqb_neq _ _)) by lia.
Qed.

Lemma dec_digits_app fuel n acc :
  dec_digits fuel n acc = dec_digits fuel n [] ++ acc.
Proof.
  revert n acc. induction fuel as [|fuel IH]; intros n acc; simpl; [done|].
  destruct (n <? 10); [done|].
  rewrite IH, (IH _ [_]). by rewrite <- app_assoc.
Qed.

(** The digits are the number: scanning them back gives [n], whatever follows. *)
Lemma scan_dec_digits fuel n acc k rest :
  0 ≤ n < 10 ^ Z.of_nat fuel → (0 < fuel)%nat →
  ∃ m, (0 < m)%nat ∧ length (dec_digits fuel n []) = m ∧
    scan_digits (dec_digits fuel n [] ++ rest) acc k =
    scan_digits rest (acc * 10 ^ Z.of_nat m + n) (k + m).
Proof.
  revert n acc k rest. induction fuel as [|fuel IH]; intros n acc k rest Hn Hf; [lia|].
  cbn [dec_digits]. destruct (Z.ltb_spec n 10) as [Hs|Hb].
  - exists 1%nat. split; [lia|]. split; [done|].
    cbn [app scan_digits]. rewrite isdigit_digit_char, digit_char_val by lia.
    f_equal; [|lia]. change (10 ^ Z.of_nat 1) with 10. lia.
  - rewrite dec_digits_app.
    assert (0 ≤ n / 10 < 10 ^ Z.of_nat fuel) as Hq.
    { rewrite Nat2Z.inj_succ, Z.pow_succ_r in Hn by lia.
      split; [apply Z.div_pos; lia|apply Z.div_lt_upper_bound; lia]. }
    assert (0 < fuel)%nat as Hf'.
    { destruct fuel; [|lia]. change (10 ^ Z.of_nat 0) with 1 in Hq.
      pose proof (Z.div_le_lower_bound n 10 1). lia. }
    destruct (IH (n / 10) acc k ([digit_char (n mod 10)] ++ rest) Hq Hf')
      as (m & Hm & Hlen & Hscan).
    exists (m + 1)%nat. rewrite length_app, Hlen. split; [lia|]. split; [done|].
    rewrite <- app_assoc, Hscan. cbn [app scan_digits].
    pose proof (Z.mod_pos_bound n 10 ltac:(lia)).
    rewrite isdigit_digit_char, digit_char_val by lia.
    f_equal; [|lia]. rewrite Nat2Z.inj_add, Z.pow_add_r by lia.
    change (10 ^ Z.of_nat 1) with 10. pose proof (Z.div_mod n 10). lia.
Qed.

Lemma dec_digits_head fuel n :
  0 ≤ n < 10 ^ Z.of_nat fuel → (0 < fuel)%nat →
  ∃ d l, dec_digits fuel n [] = digit_char d :: l ∧ 0 ≤ d < 10.
Proof.
  revert n. induction fuel as [|fuel IH]; intros n Hn Hf; [lia|].
  cbn [dec_digits]. destruct (Z.ltb_spec n 10) as [Hs|Hb]; [eauto with lia|].
  rewrite Nat2Z.inj_succ, Z.pow_succ_r in Hn by lia.
  destruct fuel as [|fuel].
  { change (10 ^ Z.of_nat 0) with 1 in Hn. lia. }
  destruct (IH (n / 10)) as (d & l & Heq & Hd); [|lia|].
  { split; [apply Z.div_pos; lia|apply Z.div_lt_upper_bound; lia]. }
  rewrite dec_digits_app, Heq. by eexists d, _.
Qed.

(** [std::stoll] reads back what [std::to_string] wrote, to its end. *)
Lemma stoll_to_string v :
  i64_min ≤ v ≤ i64_max → stoll (to_string v) = inr (v, length (to_string v)).
Proof.
  unfold i64_min, i64_max. intros Hv. unfold to_string.
  assert (∀ n, 0 ≤ n ≤ 2 ^ 63 → 0 ≤ n < 10 ^ Z.of_nat 20) as H20.
  { intros n. change (10 ^ Z.of_nat 20) with 100000000000000000000.
    change (2 ^ 63) with 9223372036854775808. lia. }
  destruct (Z.ltb_spec v 0) as [Hneg|Hpos].
  - destruct (scan_dec_digits 20 (- v) 0 0 []) as (m & Hm & Hlen & Hscan); [apply H20; lia|lia|].
    rewrite app_nil_r in Hscan. unfold stoll.
    change (skip_space (x2d :: dec_digits 20 (- v) [])) with (x2d :: dec_digits 20 (- v) []).
    change (split_sign (x2d :: dec_digits 20 (- v) [])) with (true, dec_digits 20 (- v) []).
    cbv beta iota. rewrite Hscan. cbn [scan_digits].
    rewrite (proj2 (Nat.eqb_neq _ _)) by lia.
    unfold i64_min, i64_max.
    replace (- (0 * 10 ^ Z.of_nat m + - v)) with v by lia.
    rewrite (proj2 (Z.leb_le _ _)), (proj2 (Z.leb_le _ _)) by lia.
    cbn [andb]. by rewrite Nat.sub_0_r.
  - destruct (scan_dec_digits 20 v 0 0 []) as (m & Hm & Hlen & Hscan); [apply H20; lia|lia|].
    destruct (dec_digits_head 20 v) as (d & l & Heq & Hd); [apply H20; lia|lia|].
    rewrite app_nil_r, Heq in Hscan. unfold stoll. rewrite Heq.
    cbn [skip_space]. rewrite isspace_digit_char by done.
    rewrite split_sign_digit by done. cbv beta iota. rewrite Hscan. cbn [scan_digits].
    rewrite (proj2 (Nat.eqb_neq _ _)) by lia.
    unfold i64_min, i64_max.
    replace (0 * 10 ^ Z.of_nat m + v) with v by lia.
    rewrite (proj2 (Z.leb_le _ _)), (proj2 (Z.leb_le _ _)) by lia.
    cbn [andb]. by rewrite Nat.sub_0_r.
Qed.

Lemma byte_val_x x : byte_val (tolower x) = byte_val x ∨ byte_val (tolower x) = byte_val x + 32.
Proof.
  unfold tolower. destruct (_ && _) eqn:E; [|by left]. right.
  apply andb_true_iff in E as [E1%Z.leb_le E2%Z.leb_le].
  rewrite byte_val_to_byte. apply wrapu_small. change (2 ^ 8) with 256. lia.
Qed.

Lemma tolower_idemp b : tolower (tolower b) = tolower b.
Proof.
  apply byte_val_inj. unfold tolower at 1.
  destruct (_ && _) eqn:E; [|done].
  apply andb_true_iff in E as [E1%Z.leb_le E2%Z.leb_le].
  revert E1 E2. unfold tolower. destruct (_ && _) eqn:F.
  - apply andb_true_iff in F as [F1%Z.leb_le F2%Z.leb_le].
    rewrite byte_val_to_byte, wrapu_small by (change (2 ^ 8) with 256; lia). lia.
  - intros E1 E2. apply andb_false_iff in F as [F%Z.leb_gt|F%Z.leb_gt]; lia.
Qed.

Lemma to_lower_idemp s : to_lower (to_lower s) = to_lower s.
Proof.
  unfold to_lower. rewrite bytes_of_string_of_bytes, map_map. f_equal.
  apply map_ext. apply tolower_idemp.
Qed.
