(* ===== verification/RequestParser.v ===== *)
(** The length-prefixed request parser (request_parser.hpp).

    [parse] follows the pointer walk of [RequestParser::parse]: [pos] and
    [end_] are offsets from [data.data()], a [std::memcpy] is [read_bytes] and
    is undefined outside the span.  [encode_request] is the format that the
    comment of the function documents. *)

From S2P Require Import Prelude Bytes.

(** [std::errc] values the parser returns. *)
Inductive errc : Type := message_size | bad_message.

#[export] Instance errc_eq_dec : EqDecision errc.
Proof. solve_decision. Defined.

(** [Result<T>], i.e. [std::expected<T, std::error_code>]. *)
Definition Result (A : Type) : Type := errc + A.

(** [std::memcpy] of a [uint32_t] out of the span. *)
Definition load_u32 (data : list byte) (pos : nat) : M unit Z :=
  match read_bytes 4 pos data with
  | Some bs => mret (le_val bs)
  | None => undef
  end.

(** The bytes behind [std::string(pos, n)]. *)
Definition load_string (data : list byte) (pos : nat) (n : Z) : M unit string :=
  match read_bytes (Z.to_nat n) pos data with
  | Some bs => mret (string_of_bytes bs)
  | None => undef
  end.

(** The [while (pos < end)] loop. *)
Fixpoint parse_loop (fuel : nat) (data : list byte) (pos end_ : nat) (cmd : list string)
  : M unit (Result (list string)) :=
  match fuel with
  | O => λ _, NoFuel
  | S fuel' =>
      if (pos <? end_)%nat then
        if Z.of_nat (end_ - pos) <? 4 then mret (inl bad_message)
        else
          raw ← load_u32 data pos;
          let pos := (pos + 4)%nat in
          let str_len := bswap32 raw in
          if wrapu 32 (Z.of_nat (end_ - pos)) <? str_len then mret (inl bad_message)
          else
            s ← load_string data pos str_len;
            parse_loop fuel' data (pos + Z.to_nat str_len) end_ (cmd ++ [s])
      else mret (inr cmd)
  end.

(** Every iteration consumes at least the four bytes of a length, so one more
    step than there are bytes is enough fuel. *)
Definition parse (data : list byte) : M unit (Result (list string)) :=
  if Z.of_nat (length data) <? 4 then mret (inl message_size)
  else
    raw ← load_u32 data 0;
    let len := bswap32 raw in
    if Z.of_nat (length data) <? 4 + len then mret (inl message_size)
    else parse_loop (S (length data)) data 4 (4 + Z.to_nat len) [].

(** ** The documented format *)

Definition encode_string (s : string) : list byte :=
  be_bytes 4 (Z.of_nat (length (bytes_of_string s))) ++ bytes_of_string s.

Definition encode_payload (cmd : list string) : list byte := concat (map encode_string cmd).

Definition encode_request (cmd : list string) : list byte :=
  be_bytes 4 (Z.of_nat (length (encode_payload cmd))) ++ encode_payload cmd.

(** A command whose lengths all fit a [uint32_t]. *)
Definition encodable (cmd : list string) : Prop :=
  Z.of_nat (length (encode_payload cmd)) ≤ u32_max.

(** ** Lemmas *)

Lemma length_encode_string s :
  length (encode_string s) = (4 + length (bytes_of_string s))%nat.
Proof. unfold encode_string. by rewrite length_app, length_be_bytes. Qed.

Lemma encode_payload_cons s cmd :
  encode_payload (s :: cmd) = encode_string s ++ encode_payload cmd.
Proof. done. Qed.

Lemma encodable_cons s cmd :
  encodable (s :: cmd) →
  Z.of_nat (length (bytes_of_string s)) ≤ u32_max ∧ encodable cmd.
Proof.
  unfold encodable. rewrite encode_payload_cons, length_app, length_encode_string. lia.
Qed.

Lemma read_bytes_mid pre l post n :
  (n ≤ length l)%nat →
  read_bytes n (length pre) (pre ++ l ++ post) = Some (take n l).
Proof.
  intros Hn. rewrite read_bytes_Some by (rewrite !length_app; lia).
  rewrite drop_app_length. by rewrite take_app_le by lia.
Qed.

(** A word read with [memcpy] and swapped is the network-order value. *)
Lemma load_u32_mid pre l post :
  (4 ≤ length l)%nat →
  load_u32 (pre ++ l ++ post) (length pre) = mret (le_val (take 4 l)).
Proof. intros Hl. unfold load_u32. by rewrite read_bytes_mid. Qed.

Lemma load_string_mid pre l post n :
  (Z.to_nat n ≤ length l)%nat →
  load_string (pre ++ l ++ post) (length pre) n = mret (string_of_bytes (take (Z.to_nat n) l)).
Proof. intros Hl. unfold load_string. by rewrite read_bytes_mid. Qed.

Lemma bswap32_take4 l :
  (4 ≤ length l)%nat → bswap32 (le_val (take 4 l)) = le_val (rev (take 4 l)).
Proof. intros Hl. apply bswap32_le_val. rewrite length_take. lia. Qed.

(** One turn of the loop on the unread slice [l] of the payload. *)
Lemma parse_loop_step fuel pre l post cmd :
  (4 ≤ length l)%nat → Z.of_nat (length l) < 2 ^ 32 →
  let n := le_val (rev (take 4 l)) in
  parse_loop (S fuel) (pre ++ l ++ post) (length pre) (length pre + length l) cmd =
  if Z.of_nat (length l) - 4 <? n then mret (inl bad_message)
  else
    let s := take (Z.to_nat n) (drop 4 l) in
    let pre' := pre ++ take (4 + Z.to_nat n) l in
    let l' := drop (4 + Z.to_nat n) l in
    parse_loop fuel (pre' ++ l' ++ post) (length pre') (length pre' + length l')
      (cmd ++ [string_of_bytes s]).
Proof.
  intros Hl Hmax n. cbn [parse_loop].
  rewrite (proj2 (Nat.ltb_lt _ _)) by lia.
  rewrite (proj2 (Z.ltb_ge _ _)) by lia.
  rewrite load_u32_mid by done. rewrite bind_ret. cbv zeta.
  rewrite bswap32_take4 by done. fold n.
  rewrite wrapu_small by lia.
  replace (Z.of_nat (length pre + length l - (length pre + 4)))
    with (Z.of_nat (length l) - 4) by lia.
  pose proof (le_val_range (rev (take 4 l))) as Hn. fold n in Hn.
  destruct (Z.ltb_spec (Z.of_nat (length l) - 4) n) as [|Hfit]; [done|].
  assert (pre ++ l ++ post = (pre ++ take 4 l) ++ drop 4 l ++ post) as Heq.
  { rewrite <- app_assoc, (app_assoc (take 4 l)), take_drop. done. }
  replace (length pre + 4)%nat with (length (pre ++ take 4 l))
    by (rewrite length_app, length_take; lia).
  rewrite Heq, load_string_mid by (rewrite length_drop; lia).
  rewrite bind_ret, <- Heq.
  rewrite <- (app_assoc pre (take _ l)), (app_assoc (take _ l)), take_drop.
  f_equal; rewrite !length_app, ?length_take, ?length_drop; lia.
Qed.

(** The length at the start of an encoded command is that of its first word. *)
Lemma encoded_length l s cs' :
  l = encode_payload (s :: cs') → Z.of_nat (length l) < 2 ^ 32 → Z.to_nat (le_val (rev (take 4 l))) = length (bytes_of_string s).
Proof.
  intros Hl Hmax. rewrite Hl, encode_payload_cons. unfold encode_string.
  rewrite <- app_assoc, take_app_length' by (by rewrite length_be_bytes).
  rewrite Hl, encode_payload_cons, length_app, length_encode_string in Hmax. rewrite le_val_rev_be_bytes; lia.
Qed.

(** One word of the encoding, and the rest. *)
Lemma encoded_step l cmd cs (n := le_val (rev (take 4 l))) :
  (4 ≤ length l)%nat → Z.of_nat (length l) < 2 ^ 32 → 0 ≤ n ≤ Z.of_nat (length l) - 4 →
  (∃ cs', cs = (cmd ++ [string_of_bytes (take (Z.to_nat n) (drop 4 l))]) ++ cs' ∧ drop (4 + Z.to_nat n) l = encode_payload cs') ↔
  ∃ cs', cs = cmd ++ cs' ∧ l = encode_payload cs'.
Proof.
  intros Hge Hmax Hn. split.
  - intros (cs' & -> & Hd). eexists (_ :: cs'). split; [by rewrite <- app_assoc|].
    rewrite encode_payload_cons, <- Hd. unfold encode_string.
    rewrite bytes_of_string_of_bytes, length_take, length_drop.
    replace (Z.of_nat (Z.to_nat n `min` (length l - 4))) with n by lia. unfold n at 1.
    rewrite be_bytes_le_val_rev by (rewrite length_take; lia).
    rewrite <- drop_drop, <- app_assoc, !take_drop. done.
  - intros ([|s cs'] & -> & Hl); [rewrite Hl in Hge; cbn in Hge; lia|].
    pose proof (encoded_length l s cs' Hl Hmax) as Hlen. fold n in Hlen. exists cs'. rewrite Hlen, Hl, encode_payload_cons.
    unfold encode_string. rewrite <- !app_assoc, <- drop_drop.
    rewrite !(drop_app_length' (be_bytes 4 _)) by (by rewrite length_be_bytes).
    rewrite take_app_length, drop_app_length, string_of_bytes_of_string. done.
Qed.

(** The slice [l] is accepted exactly when it is the encoding of a command. *)
Lemma parse_loop_spec fuel pre l post cmd :
  (length l < fuel)%nat → Z.of_nat (length l) < 2 ^ 32 →
  ∃ r, parse_loop fuel (pre ++ l ++ post) (length pre) (length pre + length l) cmd
         = mret r ∧
    ∀ cs, r = inr cs ↔ ∃ cs', cs = cmd ++ cs' ∧ l = encode_payload cs'.
Proof.
  revert pre l cmd. induction fuel as [|fuel IH]; intros pre l cmd Hf Hmax; [lia|].
  destruct (decide (length l = 0%nat)) as [Hz|Hnz].
  { apply nil_length_inv in Hz. subst l. exists (inr cmd).
    split; [cbn [parse_loop length]; by rewrite Nat.add_0_r, Nat.ltb_irrefl|].
    intros cs. split.
    - intros [= <-]. exists []. by rewrite app_nil_r.
    - intros ([|s cs'] & -> & He); [by rewrite app_nil_r|].
      apply (f_equal length) in He.
      cbn [length] in He. rewrite encode_payload_cons, length_app, length_encode_string in He. lia. }
  destruct (decide (length l < 4)%nat) as [Hs|Hge].
  { exists (inl bad_message). split.
    - cbn [parse_loop]. rewrite (proj2 (Nat.ltb_lt _ _)) by lia.
      by rewrite (proj2 (Z.ltb_lt _ _)) by lia.
    - intros cs. split; [done|]. intros ([|s cs'] & _ & ->); [done|].
      rewrite encode_payload_cons, length_app, length_encode_string in Hs. lia. }
  rewrite parse_loop_step by lia. cbv zeta.
  set (n := le_val (rev (take 4 l))).
  pose proof (le_val_range (rev (take 4 l))) as Hn. fold n in Hn.
  destruct (Z.ltb_spec (Z.of_nat (length l) - 4) n) as [Hbig|Hfit].
  { exists (inl bad_message). split; [done|]. intros cs. split; [done|].
    intros ([|s cs'] & _ & Hl); [by subst l|].
    pose proof (encoded_length l s cs' Hl Hmax) as Henc. fold n in Henc.
    rewrite Hl, encode_payload_cons, length_app, length_encode_string in Hbig. lia. }
  destruct (IH (pre ++ take (4 + Z.to_nat n) l) (drop (4 + Z.to_nat n) l)
    (cmd ++ [string_of_bytes (take (Z.to_nat n) (drop 4 l))])) as (r & Hr & Hspec);
    [rewrite length_drop; lia..|].
  exists r. split; [exact Hr|]. intros cs. rewrite Hspec. by apply encoded_step; [lia| |lia].
Qed.

(** The loop reports framing errors only as [bad_message]. *)
Lemma parse_loop_not_size fuel data pos end_ cmd :
  parse_loop fuel data pos end_ cmd ≠ mret (inl message_size).
Proof.
  intros H. apply (f_equal (λ f, f tt)) in H. revert pos cmd H.
  induction fuel as [|fuel IH]; intros pos cmd H; [done|].
  cbn [parse_loop] in H. unfold load_u32, load_string in H.
  destruct (pos <? end_)%nat; [|done].
  destruct (Z.of_nat (end_ - pos) <? 4); [done|].
  destruct (read_bytes 4 pos data) as [raw|]; [rewrite bind_ret in H|done].
  destruct (wrapu 32 _ <? _); [done|].
  destruct (read_bytes _ (pos + 4) data) as [bs|]; [rewrite bind_ret in H|done].
  by eapply IH.
Qed.

(** The length announced by the first four bytes. *)
Definition announced (data : list byte) : Z := le_val (rev (take 4 data)).

Lemma announced_range data : (4 ≤ length data)%nat → 0 ≤ announced data < 2 ^ 32.
Proof.
  intros Hl. unfold announced. pose proof (le_val_range (rev (take 4 data))) as H.
  rewrite length_rev, length_take in H. by rewrite Nat.min_l in H by lia.
Qed.

Lemma announced_encode cmd rest :
  encodable cmd →
  announced (encode_request cmd ++ rest) = Z.of_nat (length (encode_payload cmd)).
Proof.
  intros He. unfold announced, encode_request, encodable, u32_max in *.
  rewrite <- app_assoc, take_app_length' by (by rewrite length_be_bytes).
  apply le_val_rev_be_bytes. lia.
Qed.

(** A frame of the wire format: header, payload of the announced length, rest. *)
Lemma frame_split data :
  (4 ≤ length data)%nat → 4 + announced data ≤ Z.of_nat (length data) →
  let n := Z.to_nat (announced data) in
  data = take 4 data ++ take n (drop 4 data) ++ drop n (drop 4 data) ∧
  length (take n (drop 4 data)) = n.
Proof.
  intros Hl Hn n. split; [by rewrite !take_drop|].
  rewrite length_take, length_drop. lia.
Qed.

Lemma parse_unfold data :
  (4 ≤ length data)%nat →
  parse data =
  if Z.of_nat (length data) <? 4 + announced data then mret (inl message_size)
  else parse_loop (S (length data)) data 4 (4 + Z.to_nat (announced data)) [].
Proof.
  intros Hl. unfold parse, load_u32, read_bytes.
  rewrite (proj2 (Z.ltb_ge _ _)) by lia. rewrite (proj2 (Nat.leb_le _ _)) by lia.
  rewrite bind_ret, drop_0. cbv zeta. by rewrite bswap32_take4.
Qed.

(** What [parse] does with every buffer. *)
Lemma parse_spec data :
  ∃ r, parse data tt = Done r tt ∧
    (∀ cmd, r = inr cmd ↔
       encodable cmd ∧ ∃ rest, data = encode_request cmd ++ rest) ∧
    (r = inl message_size ↔
       (length data < 4)%nat ∨ Z.of_nat (length data) < 4 + announced data).
Proof.
  destruct (decide (length data < 4)%nat) as [Hs|Hge].
  { exists (inl message_size). split; [|split; [|split; by auto]].
    - unfold parse. by rewrite (proj2 (Z.ltb_lt _ _)) by lia.
    - intros cmd. split; [done|]. intros (_ & rest & ->).
      unfold encode_request in Hs. rewrite !length_app, length_be_bytes in Hs. lia. }
  rewrite parse_unfold by lia. pose proof (announced_range data ltac:(lia)) as Ha.
  destruct (Z.ltb_spec (Z.of_nat (length data)) (4 + announced data)) as [Hshort|Hok].
  { exists (inl message_size). split; [done|split; [|split; by auto]].
    intros cmd. split; [done|]. intros (Henc & rest & ->).
    rewrite announced_encode in Hshort by done. unfold encode_request in Hshort.
    rewrite !length_app, length_be_bytes in Hshort. lia. }
  destruct (frame_split data) as [Hd Hn]; [lia..|].
  set (n := Z.to_nat (announced data)) in *.
  destruct (parse_loop_spec (S (length data)) (take 4 data) (take n (drop 4 data))
    (drop n (drop 4 data)) []) as (r & Hr & Hspec); [lia..|].
  rewrite <- Hd, Hn, length_take, (Nat.min_l 4) in Hr by lia.
  exists r. split; [by rewrite Hr|]. split.
  - intros cmd. rewrite Hspec. split.
    + intros (cs & -> & Hp). unfold encodable, encode_request. rewrite app_nil_l in *.
      rewrite <- Hp, Hn. split; [unfold u32_max; lia|].
      exists (drop n (drop 4 data)). subst n. rewrite Z2Nat.id by lia.
      unfold announced at 1. rewrite be_bytes_le_val_rev by (rewrite length_take; lia).
      by rewrite <- app_assoc.
    + intros (Henc & rest & ->). exists cmd. split; [done|]. subst n.
      rewrite announced_encode by done. rewrite Nat2Z.id. unfold encode_request.
      rewrite <- app_assoc, drop_app_length' by (by rewrite length_be_bytes).
      by rewrite take_app_length.
  - split; [|lia]. intros ->. exfalso.
    clear Hspec. revert Hr. apply parse_loop_not_size.
Qed.

(** ** Properties *)

(** C29: parsing never reads outside the span and always returns; it returns a
    command exactly when the data starts with the documented encoding of that
    command (whose total length fits the 32-bit header), and the
    [message_size] error exactly when the announced frame is not complete. *)
Theorem parse_exact data :
  ∃ r, parse data tt = Done r tt ∧
    (∀ cmd, r = inr cmd ↔
       encodable cmd ∧ ∃ rest, data = encode_request cmd ++ rest) ∧
    (r = inl message_size ↔
       (length data < 4)%nat ∨ Z.of_nat (length data) < 4 + announced data).
Proof. apply parse_spec. Qed.
