(* ===== verification/ResponseSerializer.v ===== *)
(** The response format (response_serializer.hpp, SerializationType of common.hpp).

    Every [serialize_*] appends to the response buffer.  A [double] is carried
    as its binary64 image, the integer that [std::memcpy] sees.  The readers
    ([deserialize_*]) are the ones the tests use; their unchecked reads are
    undefined beyond the buffer. *)

From S2P Require Import Prelude Bytes CxxLib.

(** [enum class SerializationType : uint8_t]. *)
Inductive SerializationType : Type := Nil | Error | String | Integer | Double.

#[export] Instance SerializationType_eq_dec : EqDecision SerializationType.
Proof. solve_decision. Defined.

Definition SerializationType_val (t : SerializationType) : Z :=
  match t with Nil => 0 | Error => 1 | String => 2 | Integer => 3 | Double => 4 end.

Definition tag_byte (t : SerializationType) : byte := to_byte (SerializationType_val t).

(** The C++ types the templates distinguish. *)
Inductive cxx_type : Type :=
| ty_char | ty_schar | ty_uchar
| ty_integral (* every other type with [std::is_integral_v] *)
| ty_floating
| ty_string | ty_string_view
| ty_other.

Definition is_integral (t : cxx_type) : bool :=
  match t with ty_char | ty_schar | ty_uchar | ty_integral => true | _ => false end.

Definition is_character (t : cxx_type) : bool :=
  match t with ty_char | ty_schar | ty_uchar => true | _ => false end.

(** [get_serialization_type<T>()]. *)
Definition get_serialization_type (t : cxx_type) : SerializationType :=
  if is_integral t && negb (is_character t) then Integer
  else match t with
       | ty_floating => Double
       | ty_string | ty_string_view => String
       | _ => Nil
       end.

Definition append_data (n : nat) (buffer : list byte) (data : Z) : list byte :=
  buffer ++ le_bytes n data.

Definition serialize_nil (buffer : list byte) : list byte := buffer ++ [tag_byte Nil].

Definition serialize_error (buffer : list byte) (code : Z) (msg : list byte) : list byte :=
  let buffer := buffer ++ [tag_byte Error] in
  let buffer := append_data 4 buffer code in
  let buffer := append_data 4 buffer (wrapu 32 (Z.of_nat (length msg))) in
  buffer ++ msg.

Definition serialize_string (buffer : list byte) (str : list byte) : list byte :=
  let buffer := buffer ++ [tag_byte String] in
  let buffer := append_data 4 buffer (wrapu 32 (Z.of_nat (length str))) in
  buffer ++ str.

Definition serialize_integer (buffer : list byte) (value : Z) : list byte :=
  let buffer := buffer ++ [tag_byte Integer] in
  buffer ++ (to_string value ++ [x0d; x0a]).

Definition serialize_double (buffer : list byte) (value : Z) : list byte :=
  append_data 8 (buffer ++ [tag_byte Double]) value.

(** A value together with the template argument [serialize] deduces for it. *)
Inductive cxx_value : Type :=
| v_char (t : cxx_type) (c : Z)
| v_integral (z : Z)
| v_floating (image : Z)
| v_string (s : list byte)
| v_string_view (s : list byte)
| v_other.

Definition type_of (v : cxx_value) : cxx_type :=
  match v with
  | v_char t _ => t
  | v_integral _ => ty_integral
  | v_floating _ => ty_floating
  | v_string _ => ty_string
  | v_string_view _ => ty_string_view
  | v_other => ty_other
  end.

(** [serialize<T>]: the branch is chosen by the type alone. *)
Definition serialize (buffer : list byte) (data : cxx_value) : list byte :=
  match get_serialization_type (type_of data), data with
  | Integer, (v_integral z | v_char _ z) => serialize_integer buffer (wraps 64 z)
  | Double, v_floating d => serialize_double buffer d
  | String, (v_string s | v_string_view s) => serialize_string buffer s
  | _, _ => serialize_nil buffer
  end.

(** ** Readers *)

(** [std::memcpy] of [n] bytes from [buffer.data() + pos]. *)
Definition load (n : nat) (buffer : list byte) (pos : nat) : M unit Z :=
  match read_bytes n pos buffer with
  | Some bs => mret (le_val bs)
  | None => undef
  end.

(** [std::string(buffer.begin() + pos, buffer.begin() + pos + n)]. *)
Definition sub_string (buffer : list byte) (pos : nat) (n : Z) : M unit (list byte) :=
  match read_bytes (Z.to_nat n) pos buffer with
  | Some bs => mret bs
  | None => undef
  end.

Definition has_tag (t : SerializationType) (buffer : list byte) : bool :=
  match buffer with
  | [] => false
  | b :: _ => byte_val b =? SerializationType_val t
  end.

Definition deserialize_string (buffer : list byte) : M unit (list byte) :=
  if negb (has_tag String buffer) then mret []
  else
    size ← load 4 buffer 1;
    sub_string buffer 5 size.

Definition deserialize_nil (buffer : list byte) : bool := has_tag Nil buffer.

Definition deserialize_integer (buffer : list byte) : M unit Z :=
  if negb (has_tag Integer buffer) then mret (-1)
  else
    value ← load 8 buffer 1;
    mret (wraps 64 value).

(** ["No error"]. *)
Definition no_error : list byte := bytes_of_string "No error".

Definition deserialize_error (buffer : list byte) : M unit (list byte) :=
  if negb (has_tag Error buffer) then mret no_error
  else
    size ← load 4 buffer 5;
    sub_string buffer 9 size.

(** ** Lemmas *)

Lemma byte_val_tag t : byte_val (tag_byte t) = SerializationType_val t.
Proof. by destruct t. Qed.

Lemma has_tag_app t u l : has_tag t (tag_byte u :: l) = bool_decide (t = u).
Proof. by destruct t, u. Qed.

Lemma load_at n pre z post :
  0 ≤ z < 2 ^ (8 * Z.of_nat n) →
  load n (pre ++ le_bytes n z ++ post) (length pre) = mret z.
Proof.
  intros Hz. unfold load. rewrite read_bytes_Some.
  - rewrite drop_app_length, take_app_length' by (by rewrite length_le_bytes).
    by rewrite le_val_le_bytes, wrapu_small.
  - rewrite !length_app, length_le_bytes. lia.
Qed.

Lemma sub_string_at pre s post n :
  n = Z.of_nat (length s) → sub_string (pre ++ s ++ post) (length pre) n = mret s.
Proof.
  intros ->. unfold sub_string. rewrite Nat2Z.id, read_bytes_Some.
  - by rewrite drop_app_length, take_app_length.
  - rewrite !length_app. lia.
Qed.

Lemma serialize_string_shape s :
  serialize_string [] s
  = [tag_byte String] ++ le_bytes 4 (wrapu 32 (Z.of_nat (length s))) ++ s.
Proof. unfold serialize_string, append_data. by rewrite <- app_assoc. Qed.

Lemma serialize_error_shape code msg :
  serialize_error [] code msg
  = ([tag_byte Error] ++ le_bytes 4 code)
    ++ le_bytes 4 (wrapu 32 (Z.of_nat (length msg))) ++ msg.
Proof. unfold serialize_error, append_data. by rewrite <- !app_assoc. Qed.

(** Serializers only append, so a response can hold several replies. *)
Lemma serialize_appends buffer v : serialize buffer v = buffer ++ serialize [] v.
Proof.
  assert (∀ b s, serialize_string b s = b ++ serialize_string [] s) as Hs.
  { intros. unfold serialize_string, append_data. by rewrite <- !app_assoc. }
  assert (∀ b z, serialize_integer b z = b ++ serialize_integer [] z) as Hi.
  { intros. unfold serialize_integer. by rewrite <- !app_assoc. }
  assert (∀ b z, serialize_double b z = b ++ serialize_double [] z) as Hd.
  { intros. unfold serialize_double, append_data. by rewrite <- !app_assoc. }
  unfold serialize. destruct (get_serialization_type _), v; auto.
Qed.

(** ** Properties *)

(** C30: a string reply and the message of an error reply, when their length fits the
    32-bit length field, are read back exactly whatever follows them in the buffer, and a
    nil reply is recognised, and neither of the other two is taken for one. *)
Theorem reply_roundtrip s code rest :
  Z.of_nat (length s) ≤ u32_max →
  deserialize_string (serialize_string [] s ++ rest) tt = Done s tt ∧
  deserialize_error (serialize_error [] code s ++ rest) tt = Done s tt ∧
  deserialize_nil (serialize_nil [] ++ rest) = true ∧
  deserialize_nil (serialize_string [] s ++ rest) = false ∧
  deserialize_nil (serialize_error [] code s ++ rest) = false.
Proof.
  unfold u32_max. intros Hs. split_and!.
  - rewrite serialize_string_shape, <- !app_assoc.
    unfold deserialize_string. cbn [app]. rewrite has_tag_app, bool_decide_eq_true_2 by done.
    cbn [negb]. change (tag_byte String :: ?l) with ([tag_byte String] ++ l).
    rewrite (load_at 4 [_]) by apply wrapu_range, Z.leb_le, eq_refl.
    rewrite bind_ret, app_assoc, wrapu_small by lia.
    replace 5%nat with (length ([tag_byte String] ++ le_bytes 4 (Z.of_nat (length s))))
      by (by rewrite length_app, length_le_bytes).
    by rewrite sub_string_at.
  - rewrite serialize_error_shape, <- !app_assoc.
    unfold deserialize_error. cbn [app]. rewrite has_tag_app, bool_decide_eq_true_2 by done.
    cbn [negb]. change (tag_byte Error :: ?l) with ([tag_byte Error] ++ l).
    rewrite app_assoc.
    replace 5%nat with (length ([tag_byte Error] ++ le_bytes 4 code))
      by (by rewrite length_app, length_le_bytes).
    rewrite load_at by apply wrapu_range, Z.leb_le, eq_refl.
    rewrite bind_ret, (app_assoc _ (le_bytes 4 (wrapu _ _))), wrapu_small by lia.
    replace 9%nat with (length (([tag_byte Error] ++ le_bytes 4 code)
      ++ le_bytes 4 (Z.of_nat (length s)))) by (by rewrite !length_app, !length_le_bytes).
    by rewrite sub_string_at.
  - done.
  - by rewrite serialize_string_shape.
  - by rewrite serialize_error_shape.
Qed.

Lemma reply_roundtrip_witness :
  deserialize_string (serialize_string [] (bytes_of_string "OK") ++ []) tt
    = Done (bytes_of_string "OK") tt.
Proof. apply (reply_roundtrip (bytes_of_string "OK") 0 []). vm_compute. discriminate. Defined.

(** An integer reply is decimal text, not the eight raw bytes the reader
    expects: the text itself reads back with [stoll], but [deserialize_integer]
    runs past the end of every reply of at most five characters. *)
Theorem integer_reply_mismatch v :
  i64_min ≤ v ≤ i64_max →
  serialize_integer [] v = tag_byte Integer :: to_string v ++ [x0d; x0a] ∧
  stoll (to_string v) = inr (v, length (to_string v)) ∧
  ((length (to_string v) ≤ 5)%nat → deserialize_integer (serialize_integer [] v) tt = Undef).
Proof.
  intros Hv. split; [done|]. split; [by apply stoll_to_string|].
  intros Hlen. unfold deserialize_integer, serialize_integer. cbn [app].
  rewrite has_tag_app, bool_decide_eq_true_2 by done. cbn [negb].
  unfold load, read_bytes. rewrite (proj2 (Nat.leb_gt _ _)); [done|].
  cbn [length]. rewrite length_app. cbn [length]. lia.
Qed.

Lemma integer_reply_mismatch_witness :
  deserialize_integer (serialize_integer [] 1) tt = Undef.
Proof. apply (integer_reply_mismatch 1); vm_compute; repeat constructor; discriminate. Defined.
