(* ===== verification/HashTable.v ===== *)
(** The hash map of the key space (src/dsa/hashtable.hpp): FNV-1a, the chained
    table [HTable] and the incrementally resizing [HMap].

    A bucket is the list of its nodes, head first.  The per-bucket mutexes are
    never nested and are left out; [map_mutex_] is the model's, because
    [HMap::insert] still holds it when it calls [start_resize]. *)

From S2P Require Import Prelude Bytes.

(** ** FNV-1a *)

Definition INITIAL : Z := 0xCBF29CE484222325.
Definition MULTIPLIER : Z := 0x100000001B3.

(** [hash = (hash ^ byte) * MULTIPLIER] on [uint64_t]. *)
Definition fnv_step (hash : Z) (b : byte) : Z :=
  wrapu 64 (Z.lxor hash (byte_val b) * MULTIPLIER).

(** The unrolled loop [for (; i + 4 <= len; i += 4)]: the hash and what is left. *)
Fixpoint hash_loop4 (l : list byte) (hash : Z) : Z * list byte :=
  match l with
  | b0 :: b1 :: b2 :: b3 :: l' =>
      let hash := fnv_step hash b0 in
      let hash := fnv_step hash b1 in
      let hash := fnv_step hash b2 in
      let hash := fnv_step hash b3 in
      hash_loop4 l' hash
  | _ => (hash, l)
  end.

(** The remainder loop [for (; i < len; i++)]. *)
Fixpoint hash_loop1 (l : list byte) (hash : Z) : Z :=
  match l with
  | b :: l' => hash_loop1 l' (fnv_step hash b)
  | [] => hash
  end.

Definition hash_bytes (l : list byte) : Z :=
  let '(hash, rest) := hash_loop4 l INITIAL in hash_loop1 rest hash.

(** [hash_key<K>]: the overloads for the key types the template accepts. *)
Class HashKey (K : Type) := hash_key : K → Z.
#[export] Instance hash_key_string : HashKey string := λ s, hash_bytes (bytes_of_string s).
#[export] Instance hash_key_bytes : HashKey (list byte) := hash_bytes.
(** [std::is_integral_v<K>], for the 64-bit integers. *)
#[export] Instance hash_key_integral : HashKey Z := λ z, hash_bytes (le_bytes 8 z).

(** The published FNV-1a, one byte at a time. *)
Definition fnv1a (l : list byte) : Z := fold_left fnv_step l INITIAL.

(** ** HTable *)

Definition k_min_cap : Z := 4.

(** [std::bit_ceil] and [std::has_single_bit]. *)
Definition bit_ceil (n : Z) : Z := 2 ^ Z.log2_up n.
Definition has_single_bit (n : Z) : bool := (0 <? n) && (n =? 2 ^ Z.log2 n).

Record HNode (K V : Type) := mkHNode { key_ : K; value_ : V; hcode_ : Z }.
Arguments mkHNode {K V}. Arguments key_ {K V}. Arguments value_ {K V}. Arguments hcode_ {K V}.

Record HTable (K V : Type) := mkHTable {
  buckets_ : list (list (HNode K V));
  mask_ : Z;
  size_ : Z;
}.
Arguments mkHTable {K V}. Arguments buckets_ {K V}. Arguments mask_ {K V}. Arguments size_ {K V}.

Module HTable.
Section HTable.
Context {K V : Type} `{EqDecision K} `{HashKey K}.
Implicit Types t : HTable K V.

(** The members before any constructor body runs. *)
Definition blank : HTable K V := mkHTable [] 0 0.

Definition initialize (capacity : Z) : M (HTable K V) unit :=
  assert_ (has_single_bit capacity) ;;
  let capacity := Z.max capacity k_min_cap in
  modify (λ t, mkHTable (resize (Z.to_nat capacity) [] (buckets_ t)) (capacity - 1) 0).

(** [explicit HTable(size_t initial_size)]. *)
Definition construct (initial_size : Z) : M (HTable K V) unit :=
  put blank ;;
  if 0 <? initial_size then initialize (bit_ceil initial_size) else mret tt.

(** [buckets_[pos]]: undefined outside the vector. *)
Definition bucket (pos : nat) : M (HTable K V) (list (HNode K V)) :=
  t ← get;
  match buckets_ t !! pos with Some chain => mret chain | None => undef end.

Definition set_bucket (pos : nat) (chain : list (HNode K V)) (size : Z) : M (HTable K V) unit :=
  modify (λ t, mkHTable (<[pos := chain]> (buckets_ t)) (mask_ t) size).

Definition slot (mask : Z) (hash : Z) : nat := Z.to_nat (Z.land hash mask).

Definition insert (key : K) (value : V) : M (HTable K V) unit :=
  t ← get;
  (match buckets_ t with [] => initialize k_min_cap | _ => mret tt end) ;;
  t ← get;
  let hash := hash_key key in
  let pos := slot (mask_ t) hash in
  chain ← bucket pos;
  set_bucket pos (mkHNode key value hash :: chain) (wrapu 64 (size_ t + 1)).

(** The search of [lookup] along a chain. *)
Fixpoint chain_find (key : K) (chain : list (HNode K V)) : option (HNode K V) :=
  match chain with
  | [] => None
  | n :: rest => if decide (key_ n = key) then Some n else chain_find key rest
  end.

Definition lookup (key : K) : M (HTable K V) (option V) :=
  t ← get;
  match buckets_ t with
  | [] => mret None
  | _ =>
      chain ← bucket (slot (mask_ t) (hash_key key));
      mret (value_ <$> chain_find key chain)
  end.

(** The unlinking walk of [remove]: the removed node and the chain without it. *)
Fixpoint chain_remove (key : K) (chain : list (HNode K V))
  : option (HNode K V * list (HNode K V)) :=
  match chain with
  | [] => None
  | n :: rest =>
      if decide (key_ n = key) then Some (n, rest)
      else match chain_remove key rest with
           | Some (x, rest') => Some (x, n :: rest')
           | None => None
           end
  end.

Definition remove (key : K) : M (HTable K V) (option V) :=
  t ← get;
  match buckets_ t with
  | [] => mret None
  | _ =>
      let pos := slot (mask_ t) (hash_key key) in
      chain ← bucket pos;
      match chain_remove key chain with
      | Some (n, chain') =>
          set_bucket pos chain' (wrapu 64 (size_ t - 1)) ;;
          mret (Some (value_ n))
      | None => mret None
      end
  end.

(** [while (pos < buckets_.size() && !buckets_[pos]) pos++]. *)
Fixpoint first_nonempty (bs : list (list (HNode K V))) (pos : nat) : nat :=
  match bs with
  | [] :: bs' => first_nonempty bs' (S pos)
  | _ => pos
  end.

(** [steal_first_node(pos)]: the node and the advanced [pos]. *)
Definition steal_first_node (pos : nat) : M (HTable K V) (option (HNode K V) * nat) :=
  t ← get;
  let pos := first_nonempty (drop pos (buckets_ t)) pos in
  if (length (buckets_ t) <=? pos)%nat then mret (None, pos)
  else
    chain ← bucket pos;
    match chain with
    | n :: rest => set_bucket pos rest (wrapu 64 (size_ t - 1)) ;; mret (Some n, pos)
    | [] => undef
    end.

Definition size (t : HTable K V) : Z := size_ t.
Definition capacity (t : HTable K V) : Z := wrapu 64 (mask_ t + 1).
Definition empty (t : HTable K V) : bool := size_ t =? 0.
Definition clear (t : HTable K V) : HTable K V := mkHTable [] 0 0.

(** The defaulted move: the source keeps its [mask_] and [size_]. *)
Definition move (t : HTable K V) : HTable K V * HTable K V :=
  (t, mkHTable [] (mask_ t) (size_ t)).
End HTable.
End HTable.

(** ** HMap *)

Record HMap (K V : Type) := mkHMap {
  primary_table_ : HTable K V;
  temporary_table_ : option (HTable K V);
  resizing_pos_ : nat;
  map_mutex_ : mutex;
}.
Arguments mkHMap {K V}. Arguments primary_table_ {K V}. Arguments temporary_table_ {K V}.
Arguments resizing_pos_ {K V}. Arguments map_mutex_ {K V}.

#[export] Instance HMap_mutex {K V} : HasMutex (HMap K V) := {|
  mtx := map_mutex_;
  set_mtx := λ l m, mkHMap (primary_table_ m) (temporary_table_ m) (resizing_pos_ m) l;
|}.

Module HMap.
Section HMap.
Context {LP : LockPolicy} {K V : Type} `{EqDecision K} `{HashKey K}.
Implicit Types m : HMap K V.

Definition max_work : nat := 15.
Definition k_max_load_factor : Z := 8.

(** [HMap() = default]. *)
Definition new : HMap K V := mkHMap HTable.blank None 0 [].

Definition set_primary (t : HTable K V) m : HMap K V :=
  mkHMap t (temporary_table_ m) (resizing_pos_ m) (map_mutex_ m).
Definition set_temporary (t : option (HTable K V)) m : HMap K V :=
  mkHMap (primary_table_ m) t (resizing_pos_ m) (map_mutex_ m).
Definition set_pos (pos : nat) m : HMap K V :=
  mkHMap (primary_table_ m) (temporary_table_ m) pos (map_mutex_ m).

Definition on_primary {A} (c : M (HTable K V) A) : M (HMap K V) A :=
  zoom primary_table_ set_primary c.

(** [temporary_table_->...]: dereferencing a disengaged optional is undefined. *)
Definition on_temporary {A} (c : M (HTable K V) A) : M (HMap K V) A := λ m,
  match temporary_table_ m with
  | None => Undef
  | Some t => zoom (λ _, t) (λ t', set_temporary (Some t')) c m
  end.

(** The loop of [help_resize].  Every second turn moves a node, so [max_work]
    moves need at most [2 * max_work + 1] turns. *)
Fixpoint migrate (fuel : nat) (work_done : nat) : M (HMap K V) unit :=
  match fuel with
  | O => λ _, NoFuel
  | S fuel' =>
      m ← get;
      match temporary_table_ m with
      | None => undef
      | Some t =>
          if (work_done <? max_work)%nat && negb (HTable.empty t) then
            r ← on_temporary (HTable.steal_first_node (resizing_pos_ m));
            let '(node, pos) := r in
            modify (set_pos pos) ;;
            work_done ←
              match node with
              | Some n => on_primary (HTable.insert (key_ n) (value_ n)) ;; mret (S work_done)
              | None => modify (set_pos (S pos)) ;; mret work_done
              end;
            m ← get;
            (if HTable.capacity t <=? Z.of_nat (resizing_pos_ m)
             then modify (set_pos 0) else mret tt) ;;
            migrate fuel' work_done
          else mret tt
      end
  end.

Definition migrate_fuel : nat := 2 * max_work + 1.

Definition help_resize : M (HMap K V) unit :=
  m ← get;
  match temporary_table_ m with
  | None => mret tt
  | Some _ =>
      guarded Un (
        migrate migrate_fuel 0 ;;
        m ← get;
        match temporary_table_ m with
        | None => undef
        | Some t =>
            if HTable.empty t then modify (set_temporary None) ;; modify (set_pos 0)
            else mret tt
        end)
  end.

Definition start_resize : M (HMap K V) unit :=
  guarded Un (
    m ← get;
    assert_ (match temporary_table_ m with None => true | Some _ => false end) ;;
    let new_capacity := wrapu 64 (HTable.capacity (primary_table_ m) * 2) in
    let '(moved, source) := HTable.move (primary_table_ m) in
    modify (set_temporary (Some moved)) ;;
    modify (set_primary source) ;;
    on_primary (HTable.construct new_capacity) ;;
    modify (set_pos 0)).

(** [load_factor >= k_max_load_factor]: the quotient of a [size_t] below 2^53 by
    a power of two is exact as a [double]. *)
Definition overloaded (t : HTable K V) : bool :=
  k_max_load_factor * HTable.capacity t <=? HTable.size t.

(** The first half of [insert]: a fresh table for an empty map, and growth. *)
Definition prepare_insert : M (HMap K V) unit :=
  m ← get;
  (if HTable.empty (primary_table_ m)
   then on_primary (HTable.construct k_min_cap) else mret tt) ;;
  m ← get;
  if overloaded (primary_table_ m) then start_resize else mret tt.

Definition insert (key : K) (value : V) : M (HMap K V) unit :=
  guarded Un (prepare_insert ;; on_primary (HTable.insert key value)) ;;
  help_resize.

(** [find] returns a pointer to the value; its callers only read through it
    before the next call, so the value is returned. *)
Definition find (key : K) : M (HMap K V) (option V) :=
  help_resize ;;
  r ← guarded Sh (on_primary (HTable.lookup key));
  match r with
  | Some v => mret (Some v)
  | None =>
      m ← get;
      match temporary_table_ m with
      | Some _ => on_temporary (HTable.lookup key)
      | None => mret None
      end
  end.

Definition remove (key : K) : M (HMap K V) (option V) :=
  help_resize ;;
  guarded Un (
    r ← on_primary (HTable.remove key);
    match r with
    | Some v => mret (Some v)
    | None =>
        m ← get;
        match temporary_table_ m with
        | Some _ => on_temporary (HTable.remove key)
        | None => mret None
        end
    end).

Definition steal_first_node (pos : nat) : M (HMap K V) (option (HNode K V) * nat) :=
  guarded Un (
    m ← get;
    match temporary_table_ m with
    | None => mret (None, pos)
    | Some _ => on_temporary (HTable.steal_first_node pos)
    end).

Definition size m : Z :=
  wrapu 64 (HTable.size (primary_table_ m)
            + match temporary_table_ m with Some t => HTable.size t | None => 0 end).

Definition empty m : bool := size m =? 0.

Definition clear : M (HMap K V) unit :=
  modify (λ m, set_primary (HTable.clear (primary_table_ m)) m) ;;
  modify (set_temporary None) ;;
  modify (set_pos 0).

(** The move constructor: the mutex is not moved and the position is copied. *)
Definition move m : HMap K V * HMap K V :=
  let '(p, p') := HTable.move (primary_table_ m) in
  let '(t, t') := match temporary_table_ m with
                  | Some t => let '(t, t') := HTable.move t in (Some t, Some t')
                  | None => (None, None)
                  end in
  (mkHMap p t (resizing_pos_ m) [], mkHMap p' t' (resizing_pos_ m) (map_mutex_ m)).
End HMap.
End HMap.

(** SET a twice, then remove a: the first value is there again. *)
Example duplicate_keys_stack :
  match (HMap.insert (LP := std_shared_mutex) "a"%string 1%nat ;;
         HMap.insert (LP := std_shared_mutex) "a"%string 2%nat ;;
         x ← HMap.find (LP := std_shared_mutex) "a"%string;
         _ ← HMap.remove (LP := std_shared_mutex) "a"%string;
         y ← HMap.find (LP := std_shared_mutex) "a"%string; mret (x, y)) HMap.new with
  | Done r _ => r = (Some 2%nat, Some 1%nat)
  | _ => False
  end.
Proof. vm_compute. reflexivity. Qed.

(** ** Lemmas on FNV-1a *)

Lemma hash_loop1_fold l h : hash_loop1 l h = fold_left fnv_step l h.
Proof. revert h. induction l as [|b l IH]; intros h; simpl; auto. Qed.

Lemma hash_loops_fold n l h :
  (length l ≤ n)%nat →
  (let '(h', rest) := hash_loop4 l h in hash_loop1 rest h') = fold_left fnv_step l h.
Proof.
  revert l h. induction n as [|n IH]; intros l h Hl.
  - destruct l; simpl in *; [done|lia].
  - destruct l as [|b0 [|b1 [|b2 [|b3 l]]]]; try apply hash_loop1_fold.
    cbn [hash_loop4]. rewrite IH by (simpl in Hl; lia). done.
Qed.

(** ** Lemmas on HTable *)
Section HTableLemmas.
Context {K V : Type} `{EqDecision K} `{HashKey K}.
Implicit Types (t : HTable K V) (chain : list (HNode K V)).

(** The values stored under a key in one bucket, newest first. *)
Definition chain_versions chain (k : K) : list V :=
  value_ <$> filter (λ n, key_ n = k) chain.

Definition versions t (k : K) : list V :=
  chain_versions (default [] (buckets_ t !! HTable.slot (mask_ t) (hash_key k))) k.

Definition total t : nat := length (concat (buckets_ t)).

(** The well-formedness invariant: not yet initialised, or a power of two of at
    least four buckets, each node hashed to its bucket, the size exact. *)
Record table_ok t : Prop := {
  ok_shape : (buckets_ t = [] ∧ mask_ t = 0) ∨
    ∃ n, 2 ≤ n ≤ 60 ∧ mask_ t = 2 ^ n - 1 ∧ Z.of_nat (length (buckets_ t)) = 2 ^ n;
  ok_size : size_ t = Z.of_nat (total t);
  ok_nodes : ∀ i chain node, buckets_ t !! i = Some chain → node ∈ chain →
    hcode_ node = hash_key (key_ node) ∧ HTable.slot (mask_ t) (hash_key (key_ node)) = i;
}.

Lemma slot_bound n h :
  0 ≤ n → (HTable.slot (2 ^ n - 1) h < Z.to_nat (2 ^ n))%nat.
Proof.
  intros Hn. unfold HTable.slot.
  replace (2 ^ n - 1) with (Z.ones n) by (rewrite Z.ones_equiv; lia).
  rewrite Z.land_ones by done.
  pose proof (Z.mod_pos_bound h (2 ^ n) ltac:(lia)). lia.
Qed.

Lemma table_ok_bucket t k :
  table_ok t → buckets_ t ≠ [] →
  ∃ chain, buckets_ t !! HTable.slot (mask_ t) (hash_key k) = Some chain.
Proof.
  intros Hok Hne. apply lookup_lt_is_Some_2.
  destruct (ok_shape _ Hok) as [[? _]|(n & Hn & -> & Hlen)]; [done|].
  pose proof (slot_bound n (hash_key k) ltac:(lia)). lia.
Qed.

Lemma blank_ok : table_ok (HTable.blank : HTable K V).
Proof. split; [by left|done|]. intros i chain node Hi. by destruct i. Qed.

Lemma versions_blank k : versions (HTable.blank : HTable K V) k = [].
Proof. done. Qed.

(** The capacity of an initialised table. *)
Lemma capacity_buckets t :
  table_ok t → buckets_ t ≠ [] → HTable.capacity t = Z.of_nat (length (buckets_ t)).
Proof.
  intros Hok Hne. unfold HTable.capacity.
  destruct (ok_shape _ Hok) as [[? _]|(n & Hn & -> & ->)]; [done|].
  rewrite wrapu_small; [lia|].
  assert (2 ^ n ≤ 2 ^ 60) by (apply Z.pow_le_mono_r; lia). lia.
Qed.

Lemma total_zero t : total t = 0%nat → ∀ i chain, buckets_ t !! i = Some chain → chain = [].
Proof.
  unfold total. intros Hz%nil_length_inv i chain Hi.
  apply list_elem_of_lookup_2 in Hi. apply list_elem_of_In in Hi.
  destruct chain as [|x chain]; [done|]. exfalso.
  assert (In x (concat (buckets_ t))) as Hx by (apply in_concat; eexists; split; [done|by left]).
  by rewrite Hz in Hx.
Qed.

Lemma concat_insert_length (bs : list (list (HNode K V))) i c c' :
  bs !! i = Some c →
  (length (concat (<[i := c']> bs)) + length c = length (concat bs) + length c')%nat.
Proof.
  revert i. induction bs as [|b bs IH]; intros [|i] Hi; simplify_eq/=.
  - rewrite !length_app. lia.
  - rewrite !length_app. specialize (IH _ Hi). lia.
Qed.

Lemma elem_le_total t i chain :
  buckets_ t !! i = Some chain → (length chain ≤ total t)%nat.
Proof.
  intros Hi. unfold total. pose proof (concat_insert_length _ i chain [] Hi). simpl in *. lia.
Qed.

(** Replacing the bucket at a slot, the one way the table's contents change. *)
Lemma set_bucket_ok t i chain chain' size :
  table_ok t → buckets_ t !! i = Some chain →
  (∀ node, node ∈ chain' →
     hcode_ node = hash_key (key_ node) ∧ HTable.slot (mask_ t) (hash_key (key_ node)) = i) →
  size = size_ t + Z.of_nat (length chain') - Z.of_nat (length chain) →
  table_ok (mkHTable (<[i := chain']> (buckets_ t)) (mask_ t) size).
Proof.
  intros Hok Hi Hnodes Hsize. split; cbn.
  - rewrite length_insert. destruct (ok_shape _ Hok) as [[Hb ?]|?]; [|by right].
    by rewrite Hb in Hi.
  - unfold total. cbn. pose proof (concat_insert_length _ i chain chain' Hi) as Hc.
    pose proof (ok_size _ Hok) as Hs. unfold total in Hs. lia.
  - intros j c node Hj Hin. destruct (decide (i = j)) as [->|Hne].
    + rewrite list_lookup_insert_eq in Hj by (by eapply lookup_lt_Some). simplify_eq. by apply Hnodes.
    + rewrite list_lookup_insert_ne in Hj by done. by eapply ok_nodes.
Qed.

Lemma set_bucket_versions t i chain chain' size k :
  buckets_ t !! i = Some chain →
  versions (mkHTable (<[i := chain']> (buckets_ t)) (mask_ t) size) k =
  if decide (HTable.slot (mask_ t) (hash_key k) = i)
  then chain_versions chain' k else versions t k.
Proof.
  intros Hi. unfold versions. cbn. case_decide as Hk.
  - rewrite Hk, list_lookup_insert_eq by (by eapply lookup_lt_Some). done.
  - by rewrite list_lookup_insert_ne.
Qed.

Lemma chain_versions_cons n chain k :
  chain_versions (n :: chain) k =
  if decide (key_ n = k) then value_ n :: chain_versions chain k else chain_versions chain k.
Proof. unfold chain_versions. rewrite filter_cons. by case_decide. Qed.

Lemma chain_find_spec k chain :
  value_ <$> HTable.chain_find k chain = head (chain_versions chain k).
Proof.
  induction chain as [|n chain IH]; [done|].
  rewrite chain_versions_cons. simpl. by case_decide.
Qed.

Lemma chain_remove_spec k chain :
  match HTable.chain_remove k chain with
  | None => chain_versions chain k = []
  | Some (n, rest) =>
      chain_versions chain k = value_ n :: chain_versions rest k ∧
      (∀ k', k' ≠ k → chain_versions rest k' = chain_versions chain k') ∧
      length chain = S (length rest) ∧ rest ⊆ chain
  end.
Proof.
  induction chain as [|n chain IH]; [done|]. simpl.
  rewrite chain_versions_cons. case_decide as Hk.
  - split; [done|]. split; [|split; [done|intros y Hy; by right]].
    intros k' Hk'. rewrite chain_versions_cons. case_decide; congruence.
  - destruct (HTable.chain_remove k chain) as [[x rest]|]; [|done].
    destruct IH as (Hv & Hother & Hlen & Hsub).
    split; [|split; [|split]].
    + rewrite chain_versions_cons. by rewrite decide_False by done.
    + intros k' Hk'. rewrite !chain_versions_cons, Hother by done. done.
    + simpl. lia.
    + intros y [->|Hy]%elem_of_cons; [by left|right; by apply Hsub].
Qed.

(** *** Specifications of the operations *)

Lemma has_single_bit_pow n : 0 ≤ n → has_single_bit (2 ^ n) = true.
Proof.
  intros Hn. unfold has_single_bit. rewrite Z.log2_pow2 by done.
  rewrite (proj2 (Z.ltb_lt _ _)) by lia. by rewrite Z.eqb_refl.
Qed.

Lemma concat_replicate_nil n : concat (replicate n ([] : list (HNode K V))) = [].
Proof. by induction n. Qed.

Lemma initialize_spec n t :
  buckets_ t = [] → 2 ≤ n ≤ 60 →
  ∃ t', HTable.initialize (2 ^ n) t = Done tt t' ∧ table_ok t' ∧
    HTable.capacity t' = 2 ^ n ∧ size_ t' = 0 ∧ buckets_ t' ≠ [] ∧ ∀ k, versions t' k = [].
Proof.
  intros Hb Hn. unfold HTable.initialize, assert_.
  rewrite has_single_bit_pow by lia. eexists. split; [done|].
  assert (2 ^ 2 ≤ 2 ^ n ≤ 2 ^ 60) as Hp by (split; apply Z.pow_le_mono_r; lia).
  change (2 ^ 2) with 4 in Hp. unfold k_min_cap. rewrite Z.max_l by lia.
  rewrite Hb, resize_nil.
  set (bs := replicate (Z.to_nat (2 ^ n)) []).
  assert (table_ok (mkHTable bs (2 ^ n - 1) 0)) as Hok.
  { split; cbn.
    - right. exists n. split; [done|split; [done|]].
      unfold bs. rewrite length_replicate. lia.
    - unfold total, bs. cbn. by rewrite concat_replicate_nil.
    - intros i chain node Hi Hin. unfold bs in Hi.
      apply lookup_replicate in Hi as [-> _]. set_solver. }
  assert (bs ≠ []) as Hne.
  { unfold bs. intros Hz%(f_equal length). rewrite length_replicate in Hz. simpl in Hz. lia. }
  split; [done|]. split; [|split; [done|split; [done|]]].
  - rewrite capacity_buckets by done. unfold bs. cbn. rewrite length_replicate. lia.
  - intros k. unfold versions, bs. cbn.
    destruct (replicate _ _ !! _) as [c|] eqn:Hc; [|done].
    by apply lookup_replicate in Hc as [-> _].
Qed.

Lemma construct_spec n t :
  2 ≤ n ≤ 60 →
  ∃ t', HTable.construct (2 ^ n) t = Done tt t' ∧ table_ok t' ∧
    HTable.capacity t' = 2 ^ n ∧ size_ t' = 0 ∧ buckets_ t' ≠ [] ∧ ∀ k, versions t' k = [].
Proof.
  intros Hn. unfold HTable.construct.
  rewrite (proj2 (Z.ltb_lt _ _)) by lia.
  unfold bit_ceil. rewrite Z.log2_up_pow2 by lia.
  by apply initialize_spec.
Qed.

Lemma insert_init t k v :
  table_ok t → buckets_ t ≠ [] → size_ t < 2 ^ 60 →
  ∃ t', HTable.insert k v t = Done tt t' ∧ table_ok t' ∧
    size_ t' = size_ t + 1 ∧ HTable.capacity t' = HTable.capacity t ∧ buckets_ t' ≠ [] ∧
    ∀ k', versions t' k' = if decide (k' = k) then v :: versions t k else versions t k'.
Proof.
  intros Hok Hne Hsz.
  destruct (table_ok_bucket t k Hok Hne) as [chain Hchain].
  pose proof (ok_size _ Hok) as Hs.
  eexists. split.
  { unfold HTable.insert, HTable.bucket. munfold.
    destruct (buckets_ t) as [|b bs] eqn:Hb; [done|]. rewrite <- Hb in *.
    cbn. rewrite Hchain. reflexivity. }
  rewrite wrapu_small by lia.
  split; [|split; [done|split; [done|split]]].
  - apply (set_bucket_ok _ _ chain); try done; [|simpl; lia].
    intros node [->|Hin]%elem_of_cons; [done|]. by eapply ok_nodes.
  - cbn. intros Hz. apply (f_equal length) in Hz. rewrite length_insert in Hz.
    by destruct (buckets_ t).
  - intros k'. rewrite (set_bucket_versions _ _ chain) by done.
    rewrite chain_versions_cons. cbn.
    assert (versions t k = chain_versions chain k) as Hk by (unfold versions; by rewrite Hchain).
    destruct (decide (k' = k)) as [->|Hkk].
    + by rewrite !decide_True, Hk by done.
    + rewrite (decide_False (P := k = k')) by done. case_decide as Hslot; [|done].
      unfold versions. by rewrite Hslot, Hchain.
Qed.

(** [HTable::insert]: pushes a version, initialising an empty table first. *)
Lemma insert_spec t k v :
  table_ok t → size_ t < 2 ^ 60 →
  ∃ t', HTable.insert k v t = Done tt t' ∧ table_ok t' ∧
    size_ t' = size_ t + 1 ∧
    HTable.capacity t' = (if decide (buckets_ t = []) then 4 else HTable.capacity t) ∧
    ∀ k', versions t' k' = if decide (k' = k) then v :: versions t k else versions t k'.
Proof.
  intros Hok Hsz. destruct (decide (buckets_ t = [])) as [Hb|Hne].
  - destruct (initialize_spec 2 t Hb ltac:(lia)) as (t1 & Hi & Hok1 & Hc1 & Hs1 & Hne1 & Hv1).
    change (2 ^ 2) with 4 in *.
    destruct (insert_init t1 k v Hok1 Hne1) as (t' & Hins & Hok' & Hs' & Hc' & _ & Hv'); [lia|].
    assert (size_ t = 0) as Hz by (rewrite (ok_size _ Hok); unfold total; by rewrite Hb).
    exists t'. split; [|split; [done|split; [lia|split; [lia|]]]].
    + rewrite <- Hins. unfold HTable.insert. munfold. rewrite Hb. unfold k_min_cap. rewrite Hi.
      cbn. by destruct (buckets_ t1) eqn:E.
    + intros k'. rewrite Hv'. unfold versions at 3 4. rewrite !Hv1, Hb. by case_decide.
  - destruct (insert_init t k v Hok Hne Hsz) as (t' & ? & ? & ? & ? & _ & ?). eauto 10.
Qed.

Lemma lookup_spec t k :
  table_ok t → HTable.lookup k t = Done (head (versions t k)) t.
Proof.
  intros Hok. unfold HTable.lookup, HTable.bucket. munfold.
  destruct (buckets_ t) as [|b bs] eqn:Hb; [unfold versions; by rewrite Hb|].
  destruct (table_ok_bucket t k Hok) as [chain Hchain]; [by rewrite Hb|].
  rewrite Hchain. unfold versions. rewrite Hchain. cbn. by rewrite chain_find_spec.
Qed.

(** [HTable::remove]: pops the newest version. *)
Lemma remove_spec t k :
  table_ok t → size_ t < 2 ^ 60 →
  ∃ t', HTable.remove k t = Done (head (versions t k)) t' ∧ table_ok t' ∧
    HTable.capacity t' = HTable.capacity t ∧ (buckets_ t' = [] ↔ buckets_ t = []) ∧
    size_ t' = size_ t - (if decide (versions t k = []) then 0 else 1) ∧
    ∀ k', versions t' k' = if decide (k' = k) then tail (versions t k) else versions t k'.
Proof.
  intros Hok Hsz. unfold HTable.remove, HTable.bucket. munfold.
  destruct (buckets_ t) as [|b bs] eqn:Hb.
  { assert (∀ k', versions t k' = []) as Hv0 by (intros; unfold versions; by rewrite Hb).
    exists t. rewrite Hv0.
    split; [done|split; [done|split; [done|split; [by rewrite Hb|split]]]].
    - rewrite decide_True by done. lia.
    - intros k'. rewrite Hv0. by case_decide. }
  destruct (table_ok_bucket t k Hok) as [chain Hchain]; [by rewrite Hb|].
  rewrite <- Hb in *. rewrite Hchain. cbn.
  assert (versions t k = chain_versions chain k) as Hk by (unfold versions; by rewrite Hchain).
  pose proof (chain_remove_spec k chain) as Hrem.
  destruct (HTable.chain_remove k chain) as [[n rest]|]; cycle 1.
  { exists t. rewrite Hk, Hrem. cbn. split; [done|].
    split; [done|split; [done|split; [done|]]]. rewrite decide_True by done. split; [lia|].
    intros k'. case_decide; [subst; by rewrite Hk, Hrem|done]. }
  destruct Hrem as (Hv & Hother & Hlen & Hsub).
  pose proof (elem_le_total t _ chain Hchain) as Hle. pose proof (ok_size _ Hok) as Hs.
  unfold HTable.set_bucket. munfold. rewrite Hk, Hv. cbn.
  eexists. split; [done|]. rewrite wrapu_small by lia. split; [|split; [done|split; [|split]]].
  - apply (set_bucket_ok _ _ chain); try done; [|simpl; lia].
    intros node Hin. by eapply ok_nodes; [..|apply Hsub].
  - cbn. by rewrite <- !length_zero_iff_nil, length_insert.
  - cbn. by rewrite decide_False.
  - intros k'. rewrite (set_bucket_versions _ _ chain) by done.
    destruct (decide (k' = k)) as [->|Hkk]; [by rewrite decide_True|].
    case_decide as Hslot; [|done]. rewrite Hother by done.
    unfold versions. by rewrite Hslot, Hchain.
Qed.

Lemma first_nonempty_spec (bs : list (list (HNode K V))) pos :
  let p := HTable.first_nonempty bs pos in
  (pos ≤ p ≤ pos + length bs)%nat ∧
  (∀ i c, bs !! i = Some c → (pos + i < p)%nat → c = []) ∧
  (∀ c, bs !! (p - pos)%nat = Some c → c ≠ []).
Proof.
  revert pos. induction bs as [|[|n c] bs IH]; intros pos; simpl.
  - split; [lia|]. split; intros; by simplify_eq.
  - destruct (IH (S pos)) as (Hp & Hbefore & Hat). split; [lia|]. split.
    + intros [|i] c Hi Hlt; simplify_eq/=; [done|]. eapply Hbefore; [done|lia].
    + intros c Hc. apply Hat.
      replace (HTable.first_nonempty bs (S pos) - pos)%nat
        with (S (HTable.first_nonempty bs (S pos) - S pos)) in Hc by lia. done.
  - rewrite Nat.sub_diag. split; [lia|]. split.
    + intros i c' Hi Hlt. lia.
    + intros c' [= <-]. done.
Qed.

(** [HTable::steal_first_node]: either there is no node at or after [pos], or
    the newest version of some key is taken out. *)
Lemma steal_spec t pos :
  table_ok t → size_ t < 2 ^ 60 →
  (∃ pos', HTable.steal_first_node pos t = Done (None, pos') t ∧
     (length (buckets_ t) ≤ pos')%nat ∧ (pos = 0%nat → size_ t = 0)) ∨
  (∃ n pos' t', HTable.steal_first_node pos t = Done (Some n, pos') t' ∧ table_ok t' ∧
     HTable.capacity t' = HTable.capacity t ∧ buckets_ t' ≠ [] ∧ size_ t' = size_ t - 1 ∧
     ∀ k, versions t k =
       if decide (k = key_ n) then value_ n :: versions t' k else versions t' k).
Proof.
  intros Hok Hsz. unfold HTable.steal_first_node, HTable.bucket, HTable.set_bucket. munfold.
  destruct (first_nonempty_spec (drop pos (buckets_ t)) pos) as (Hp & Hbefore & Hat).
  set (p := HTable.first_nonempty (drop pos (buckets_ t)) pos) in *.
  rewrite length_drop in Hp.
  destruct (Nat.leb_spec (length (buckets_ t)) p) as [Hge|Hlt].
  { left. exists p. split; [done|]. split; [done|]. intros ->.
    rewrite drop_0 in Hbefore.
    rewrite (ok_size _ Hok). unfold total.
    assert (∀ (bs : list (list (HNode K V))), (∀ i c, bs !! i = Some c → c = []) →
      concat bs = []) as Hall.
    { induction bs as [|c bs IH]; intros Hbs; [done|]. simpl.
      rewrite (Hbs 0%nat c eq_refl). apply IH. intros i c' Hi. by apply (Hbs (S i)). }
    rewrite Hall; [done|]. intros i c Hi. eapply Hbefore; [done|].
    apply lookup_lt_Some in Hi. lia. }
  right. destruct (lookup_lt_is_Some_2 (buckets_ t) p Hlt) as [chain Hchain].
  rewrite lookup_drop in Hat. replace (pos + (p - pos))%nat with p in Hat by lia.
  rewrite Hchain. specialize (Hat _ Hchain).
  destruct chain as [|n rest]; [done|]. cbn.
  destruct (ok_nodes _ Hok p _ n Hchain ltac:(by left)) as [_ Hslot].
  pose proof (elem_le_total t _ _ Hchain) as Hle. pose proof (ok_size _ Hok) as Hs.
  simpl in Hle. rewrite wrapu_small by lia.
  eexists n, p, _. split; [done|]. split; [|split; [done|split; [|split; [done|]]]].
  - apply (set_bucket_ok _ _ (n :: rest)); try done; [|simpl; lia].
    intros node Hin. by eapply ok_nodes; [..|by right].
  - cbn. rewrite <- length_zero_iff_nil, length_insert. lia.
  - intros k. rewrite (set_bucket_versions _ _ (n :: rest)) by done.
    destruct (decide (k = key_ n)) as [->|Hk].
    + rewrite decide_True by done. unfold versions. rewrite Hslot, Hchain. cbn [from_option id].
      rewrite chain_versions_cons. by rewrite decide_True.
    + case_decide as Hks; [|done]. unfold versions. rewrite Hks, Hchain. cbn [from_option id].
      rewrite chain_versions_cons. by rewrite decide_False.
Qed.
End HTableLemmas.

Create HintDb vdb_table.
#[export] Hint Resolve blank_ok : vdb_table.

(** ** Lemmas on HMap *)
Section HMapLemmas.
Context {LP : LockPolicy} {K V : Type} `{EqDecision K} `{HashKey K}.
Implicit Types m : HMap K V.

(** All versions of a key: the new table's before the one being drained. *)
Definition map_versions m (k : K) : list V :=
  versions (primary_table_ m) k
  ++ match temporary_table_ m with Some t => versions t k | None => [] end.

Definition temp_size m : Z :=
  match temporary_table_ m with Some t => size_ t | None => 0 end.

Definition map_total m : Z := size_ (primary_table_ m) + temp_size m.

(** The invariant between calls.  While a table is drained the new one is not
    empty, and the weighted count keeps its load below the threshold, so that
    [start_resize] is never entered twice. *)
Record map_ok m : Prop := {
  mok_primary : table_ok (primary_table_ m);
  mok_temporary : ∀ t, temporary_table_ m = Some t →
    table_ok t ∧ 1 ≤ size_ (primary_table_ m) ∧
    15 * size_ (primary_table_ m) + 16 * size_ t
      ≤ 64 * HTable.capacity (primary_table_ m);
  mok_load : temporary_table_ m = None → buckets_ (primary_table_ m) ≠ [] →
    size_ (primary_table_ m) ≤ 8 * HTable.capacity (primary_table_ m);
}.

Lemma size_nonneg (t : HTable K V) : table_ok t → 0 ≤ size_ t.
Proof. intros Hok. rewrite (ok_size _ Hok). lia. Qed.

Lemma size_pos_buckets (t : HTable K V) : table_ok t → 1 ≤ size_ t → buckets_ t ≠ [].
Proof.
  intros Hok Hs Hb. rewrite (ok_size _ Hok) in Hs. unfold total in Hs.
  rewrite Hb in Hs. simpl in Hs. lia.
Qed.

Lemma new_ok : map_ok (HMap.new : HMap K V).
Proof. split; [apply blank_ok|done|done]. Qed.

Lemma on_primary_Done {A} (c : M (HTable K V) A) m a t :
  c (primary_table_ m) = Done a t → HMap.on_primary c m = Done a (HMap.set_primary t m).
Proof. intros Hc. unfold HMap.on_primary, zoom. by rewrite Hc. Qed.

Lemma on_temporary_Done {A} (c : M (HTable K V) A) m a t t' :
  temporary_table_ m = Some t → c t = Done a t' →
  HMap.on_temporary c m = Done a (HMap.set_temporary (Some t') m).
Proof. intros Ht Hc. unfold HMap.on_temporary, zoom. by rewrite Ht, Hc. Qed.

(** The draining loop: it moves [j] nodes, keeps every version of every key,
    and stops only when the old table is empty or the quota is used up. *)
Lemma migrate_spec fuel w m t :
  temporary_table_ m = Some t → table_ok t →
  table_ok (primary_table_ m) → buckets_ (primary_table_ m) ≠ [] →
  map_total m < 2 ^ 60 → (w ≤ HMap.max_work)%nat →
  (2 * (HMap.max_work - w) + 1 ≤ fuel)%nat ∨
  (resizing_pos_ m = 0%nat ∧ (w < HMap.max_work)%nat ∧ 0 < size_ t ∧
   (2 * (HMap.max_work - w) ≤ fuel)%nat) →
  ∃ m' t' (j : nat), HMap.migrate fuel w m = Done tt m' ∧
    temporary_table_ m' = Some t' ∧ table_ok t' ∧ table_ok (primary_table_ m') ∧
    map_mutex_ m' = map_mutex_ m ∧
    HTable.capacity (primary_table_ m') = HTable.capacity (primary_table_ m) ∧
    size_ (primary_table_ m') = size_ (primary_table_ m) + Z.of_nat j ∧
    size_ t' = size_ t - Z.of_nat j ∧ (w + j ≤ HMap.max_work)%nat ∧
    (size_ t' = 0 ∨ (w + j = HMap.max_work)%nat) ∧
    ∀ k, map_versions m' k ≡ₚ map_versions m k.
Proof.
  revert w m t. induction fuel as [|fuel IH]; intros w m t Ht Hokt Hokp Hne Htot Hw Hfuel.
  { exfalso. destruct Hfuel as [|(_ & ? & _ & ?)]; lia. }
  cbn [HMap.migrate]. rewrite (bind_Done _ _ _ m m) by done. rewrite Ht.
  pose proof (size_nonneg t Hokt) as Hsz. unfold HTable.empty.
  assert (size_ t < 2 ^ 60 ∧ size_ (primary_table_ m) < 2 ^ 60) as [Hst Hsp].
  { unfold map_total, temp_size in Htot. rewrite Ht in Htot.
    pose proof (size_nonneg _ Hokp). lia. }
  destruct (Nat.ltb_spec w HMap.max_work) as [Hlt|Hge]; cycle 1.
  { exists m, t, 0%nat. cbn. repeat (split; [done || lia|]). done. }
  destruct (Z.eqb_spec (size_ t) 0) as [Hz|Hnz].
  { exists m, t, 0%nat. cbn. repeat (split; [done || lia|]). done. }
  cbn [andb negb].
  destruct (steal_spec t (resizing_pos_ m) Hokt Hst)
    as [(pos' & Hsteal & Hpos' & Hzero)|(n & pos' & t1 & Hsteal & Hok1 & Hcap1 & Hne1 & Hs1 & Hv1)].
  - (* nothing at or after the position: it is reset *)
    assert (resizing_pos_ m ≠ 0%nat) as Hp0 by (intros Hp; by apply Hnz, Hzero).
    rewrite (bind_Done _ _ _ _ _ (on_temporary_Done _ _ _ _ _ Ht Hsteal)). munfold.
    assert (HTable.capacity t ≤ Z.of_nat (S pos')) as Hcap.
    { rewrite capacity_buckets; [lia|done|]. apply size_pos_buckets; [done|lia]. }
    cbn [resizing_pos_ HMap.set_pos HMap.set_temporary].
    rewrite (proj2 (Z.leb_le _ _) Hcap).
    destruct Hfuel as [Hfuel|(? & _)]; [|done].
    destruct (IH w (HMap.set_pos 0 m) t) as (m' & t' & j & Hrun & Hrest); try done; [right; cbn [resizing_pos_ HMap.set_pos]; lia|].
    exists m', t', j. split; [|done]. rewrite <- Hrun. unfold HMap.set_pos, HMap.set_temporary. cbn.
    by rewrite Ht.
  - (* a node is moved *)
    rewrite (bind_Done _ _ _ _ _ (on_temporary_Done _ _ _ _ _ Ht Hsteal)). munfold.
    destruct (insert_init (primary_table_ m) (key_ n) (value_ n) Hokp Hne Hsp)
      as (p1 & Hins & Hokp1 & Hsp1 & Hcp1 & Hne2 & Hvp1).
    unfold HMap.on_primary at 1, zoom. cbn. rewrite Hins.
    set (m1 := HMap.set_primary p1 (HMap.set_pos pos' (HMap.set_temporary (Some t1) m))).
    set (m2 := if HTable.capacity t <=? Z.of_nat pos' then HMap.set_pos 0 m1 else m1).
    assert (temporary_table_ m2 = Some t1 ∧ primary_table_ m2 = p1 ∧
      map_mutex_ m2 = map_mutex_ m) as (Ht2 & Hp2 & Hmx2) by (unfold m2; by case_match).
    destruct (IH (S w) m2 t1) as (m' & t' & j & Hrun & Htemp' & Hokt' & Hokp' & Hmx' & Hcp' &
      Hsp' & Hst' & Hj & Hdone & Hperm); rewrite ?Hp2; try done.
    { unfold map_total, temp_size in *. rewrite Ht2, Hp2. rewrite Ht in Htot. lia. }
    { left. destruct Hfuel as [|(_ & _ & _ & ?)]; lia. }
    exists m', t', (S j). rewrite Hp2 in *. rewrite Hmx2 in *.
    split; [|repeat (split; [done || lia|])].
    { rewrite <- Hrun. unfold m2. by destruct (_ <=? _). }
    intros k. rewrite (Hperm k). unfold map_versions. rewrite Ht2, Hp2, Ht, Hvp1, Hv1.
    case_decide as Hk; [subst k|done]. simpl. apply Permutation_middle.
Qed.

Lemma capacity_lower (t : HTable K V) : table_ok t → buckets_ t ≠ [] → 4 ≤ HTable.capacity t.
Proof.
  intros Hok Hne. rewrite capacity_buckets by done.
  destruct (ok_shape _ Hok) as [[? _]|(n & Hn & _ & ->)]; [done|].
  assert (2 ^ 2 ≤ 2 ^ n) by (apply Z.pow_le_mono_r; lia). change (2 ^ 2) with 4 in *. lia.
Qed.

Lemma capacity_pow (t : HTable K V) :
  table_ok t → buckets_ t ≠ [] → ∃ n, 2 ≤ n ≤ 60 ∧ HTable.capacity t = 2 ^ n.
Proof.
  intros Hok Hne. rewrite capacity_buckets by done.
  destruct (ok_shape _ Hok) as [[? _]|(n & Hn & _ & ->)]; [done|eauto].
Qed.

(** The invariant with one insertion's slack, as it holds inside [insert]. *)
Record map_pre m : Prop := {
  mpre_primary : table_ok (primary_table_ m);
  mpre_temporary : ∀ t, temporary_table_ m = Some t →
    table_ok t ∧ 1 ≤ size_ (primary_table_ m) ∧
    15 * size_ (primary_table_ m) + 16 * size_ t
      ≤ 64 * HTable.capacity (primary_table_ m) + 15;
  mpre_load : temporary_table_ m = None → buckets_ (primary_table_ m) ≠ [] →
    size_ (primary_table_ m) ≤ 8 * HTable.capacity (primary_table_ m);
}.

Lemma map_ok_pre m : map_ok m → map_pre m.
Proof.
  intros [Hp Ht Hl]. split; [done| |done].
  intros t Htt. destruct (Ht t Htt) as (? & ? & ?). split_and!; [done|done|lia].
Qed.

(** [help_resize] under a free mutex: at most [max_work] nodes move, nothing is
    lost, and the invariant is re-established. *)
Lemma help_resize_spec m :
  map_pre m → map_mutex_ m = [] → map_total m < 2 ^ 60 →
  ∃ m', HMap.help_resize m = Done tt m' ∧ map_ok m' ∧ map_mutex_ m' = [] ∧
    map_total m' = map_total m ∧
    (∀ k, map_versions m' k ≡ₚ map_versions m k) ∧
    (temporary_table_ m = None → m' = m) ∧
    (temporary_table_ m' = None ∨ 16 ≤ size_ (primary_table_ m')) ∧
    (∀ t, temporary_table_ m = Some t →
       HTable.capacity (primary_table_ m') = HTable.capacity (primary_table_ m)).
Proof.
  intros [Hp Ht Hl] Hmx Htot. unfold HMap.help_resize.
  rewrite (bind_Done _ _ _ m m) by done.
  destruct (temporary_table_ m) as [t|] eqn:Etemp; cycle 1.
  { exists m. split; [done|]. split; [split; [done|by rewrite Etemp|by auto]|].
    split_and!; try done. by left. }
  destruct (Ht t eq_refl) as (Hokt & Hsp & Hw).
  pose proof (size_pos_buckets _ Hp Hsp) as Hne.
  pose proof (capacity_lower _ Hp Hne) as Hcap.
  rewrite guarded_free by done. cbn [mtx set_mtx HMap_mutex].
  set (m0 := mkHMap _ _ _ [Un]).
  destruct (migrate_spec HMap.migrate_fuel 0 m0 t) as (m1 & t1 & j & Hrun & Ht1 & Hokt1 & Hokp1 &
    Hmx1 & Hc1 & Hs1 & Hst1 & Hj & Hdone & Hperm); try done.
  { unfold HMap.max_work. lia. }
  { left. vm_compute. lia. }
  rewrite (bind_Done _ _ _ _ _ Hrun). munfold. rewrite Ht1. unfold HTable.empty.
  assert (map_total m = size_ (primary_table_ m) + size_ t) as Etot
    by (unfold map_total, temp_size; by rewrite Etemp).
  assert (∀ k, map_versions m0 k = map_versions m k) as Hv0 by done.
  cbn [primary_table_ m0] in *.
  destruct (Z.eqb_spec (size_ t1) 0) as [Hz|Hnz].
  - eexists. split; [reflexivity|]. cbn. rewrite Hmx1. cbn.
    split; [split; cbn; [done|done|intros _ _; lia]|].
    split; [done|]. split; [rewrite Etot; unfold map_total, temp_size; cbn; lia|].
    split; [|split; [done|split; [by left|by intros]]].
    intros k. rewrite <- Hv0, <- Hperm. unfold map_versions. cbn. rewrite Ht1.
    rewrite (ok_size _ Hokt1) in Hz.
    assert (versions t1 k = []) as ->; [|done].
    unfold versions. destruct (buckets_ t1 !! _) as [c|] eqn:Ec; [|done].
    by rewrite (total_zero t1 ltac:(lia) _ _ Ec).
  - destruct Hdone as [?|Hj15]; [done|]. unfold HMap.max_work in *.
    eexists. split; [reflexivity|]. cbn. rewrite Hmx1. cbn.
    split; [split; cbn; [done| |by rewrite Ht1]|].
    { intros t2 Ht2. rewrite Ht1 in Ht2. simplify_eq. split_and!; [done|lia|]. rewrite Hc1. lia. }
    split; [done|]. split; [rewrite Etot; unfold map_total, temp_size; cbn; rewrite Ht1; lia|].
    split; [|split; [done|split; [right; lia|by intros]]].
    intros k. by rewrite <- Hv0, <- Hperm.
Qed.

(** Whether the next [insert] has to start a resize. *)
Definition must_grow m : bool :=
  negb (HTable.empty (primary_table_ m)) && HMap.overloaded (primary_table_ m).

Lemma must_grow_true m :
  map_ok m → must_grow m = true →
  buckets_ (primary_table_ m) ≠ [] ∧ temporary_table_ m = None ∧
  size_ (primary_table_ m) = 8 * HTable.capacity (primary_table_ m).
Proof.
  intros Hok Hgrow. pose proof (mok_primary _ Hok) as Hp. pose proof (size_nonneg _ Hp) as Hs.
  apply andb_true_iff in Hgrow as [Hne0%negb_true_iff%Z.eqb_neq Hload%Z.leb_le].
  unfold HTable.size, HMap.k_max_load_factor in *.
  assert (buckets_ (primary_table_ m) ≠ []) as Hne by (apply size_pos_buckets; [done|lia]).
  pose proof (capacity_lower _ Hp Hne) as Hcap.
  assert (temporary_table_ m = None) as Htemp.
  { destruct (temporary_table_ m) as [t|] eqn:E; [|done].
    destruct (mok_temporary _ Hok t E) as (Hokt & _ & Hw).
    pose proof (size_nonneg _ Hokt). lia. }
  pose proof (mok_load _ Hok Htemp Hne). split_and!; [done|done|lia].
Qed.

(** [start_resize] with [map_mutex_] already held by [insert]. *)
Lemma start_resize_spec m :
  map_ok m → must_grow m = true → map_total m < 2 ^ 60 →
  relock_allowed = true → map_mutex_ m = [Un] →
  ∃ p, HMap.start_resize m
         = Done tt (mkHMap p (Some (primary_table_ m)) 0 [Un]) ∧
    table_ok p ∧ HTable.capacity p = 2 * HTable.capacity (primary_table_ m) ∧
    size_ p = 0 ∧ buckets_ p ≠ [] ∧ ∀ k, versions p k = [].
Proof.
  intros Hok Hgrow Htot Hpol Hmx. pose proof (mok_primary _ Hok) as Hp.
  destruct (must_grow_true m Hok Hgrow) as (Hne & Htemp & Hload).
  destruct (capacity_pow _ Hp Hne) as (n & Hn & Hcap).
  unfold map_total, temp_size in Htot. rewrite Htemp in Htot.
  assert (n + 1 ≤ 60) as Hn1.
  { destruct (Z.le_gt_cases 58 n) as [Hbig|]; [|lia]. exfalso.
    assert (2 ^ 58 ≤ 2 ^ n) by (apply Z.pow_le_mono_r; lia).
    change (2 ^ 58) with 288230376151711744 in *. change (2 ^ 60) with 1152921504606846976 in *. lia. }
  destruct (construct_spec (n + 1) (mkHTable ([] : list (list (HNode K V)))
    (mask_ (primary_table_ m)) (size_ (primary_table_ m))))
    as (p & Hcons & Hokp & Hcp & Hsp & Hnep & Hvp); [lia|].
  exists p. split; [|split; [done|split; [|done]]].
  - unfold HMap.start_resize. rewrite guarded_allowed by done. munfold.
    cbn [set_mtx mtx HMap_mutex temporary_table_ primary_table_]. rewrite Htemp, Hmx.
    unfold assert_, HTable.move. cbn. unfold HMap.on_primary, zoom. cbn.
    replace (wrapu 64 (HTable.capacity (primary_table_ m) * 2)) with (2 ^ (n + 1)).
    + rewrite Hcons. done.
    + rewrite Hcap, Z.pow_add_r by lia. change (2 ^ 1) with 2. rewrite wrapu_small; [done|].
      assert (2 ^ n ≤ 2 ^ 60) by (apply Z.pow_le_mono_r; lia). lia.
  - rewrite Hcp, Hcap, Z.pow_add_r by lia. lia.
Qed.

(** What [prepare_insert] leaves behind: the same versions, and room for one. *)
Record prepared m m1 : Prop := {
  pr_mutex : map_mutex_ m1 = map_mutex_ m;
  pr_primary : table_ok (primary_table_ m1);
  pr_total : map_total m1 = map_total m;
  pr_versions : ∀ k, map_versions m1 k = map_versions m k;
  pr_temp : must_grow m = false → temporary_table_ m1 = temporary_table_ m;
  pr_some : ∀ t, temporary_table_ m1 = Some t → table_ok t ∧
    15 * size_ (primary_table_ m1) + 16 * size_ t ≤ 64 * HTable.capacity (primary_table_ m1);
  pr_init : buckets_ (primary_table_ m1) ≠ [];
  pr_room : temporary_table_ m1 = None →
    size_ (primary_table_ m1) + 1 ≤ 8 * HTable.capacity (primary_table_ m1);
}.

Lemma prepare_empty m :
  map_ok m → size_ (primary_table_ m) = 0 →
  ∃ m1, HMap.prepare_insert m = Done tt m1 ∧ prepared m m1.
Proof.
  intros Hok Hz. pose proof (mok_primary _ Hok) as Hp.
  assert (temporary_table_ m = None) as Htemp.
  { destruct (temporary_table_ m) as [t|] eqn:E; [|done].
    destruct (mok_temporary _ Hok t E). lia. }
  destruct (construct_spec 2 (primary_table_ m)) as (p & Hcons & Hokp & Hcp & Hsp & Hnep & Hvp); [lia|].
  change (2 ^ 2) with 4 in *.
  exists (HMap.set_primary p m). split.
  - unfold HMap.prepare_insert. munfold. unfold HTable.empty. rewrite Hz. cbn [Z.eqb].
    rewrite (on_primary_Done _ m tt p) by done. unfold HMap.overloaded, HTable.size.
    cbn [primary_table_ HMap.set_primary]. by rewrite Hcp, Hsp.
  - split; cbn; try done; rewrite ?Htemp; try done.
    + unfold map_total, temp_size. cbn [primary_table_ temporary_table_ HMap.set_primary].
      rewrite Htemp. lia.
    + intros k. unfold map_versions. cbn. rewrite Hvp, Htemp.
      assert (versions (primary_table_ m) k = []) as ->; [|done].
      unfold versions. destruct (_ !! _) as [c|] eqn:Ec; [|done].
      rewrite (ok_size _ Hp) in Hz.
      assert (total (primary_table_ m) = 0%nat) as Htz by lia.
      by rewrite (total_zero _ Htz _ _ Ec).
    + lia.
Qed.

Lemma prepare_grow m :
  map_ok m → must_grow m = true → map_total m < 2 ^ 60 →
  relock_allowed = true → map_mutex_ m = [Un] →
  ∃ m1, HMap.prepare_insert m = Done tt m1 ∧ prepared m m1.
Proof.
  intros Hok Hgrow Htot Hpol Hmx.
  destruct (must_grow_true m Hok Hgrow) as (Hne & Htemp & Hload).
  destruct (start_resize_spec m) as (p & Hres & Hokp & Hcp & Hsp & Hnep & Hvp); try done.
  pose proof (mok_primary _ Hok) as Hp. pose proof (capacity_lower _ Hp Hne).
  eexists. split.
  - unfold HMap.prepare_insert. munfold. unfold must_grow in Hgrow.
    apply andb_true_iff in Hgrow as [->%negb_true_iff Hover]. by rewrite Hover.
  - split; cbn; try done.
    + unfold map_total, temp_size. cbn [primary_table_ temporary_table_].
      rewrite Htemp. lia.
    + intros k. unfold map_versions. cbn. rewrite Hvp, Htemp. by rewrite app_nil_r.
    + by rewrite Hgrow.
    + intros t [= <-]. split; [done|]. lia.
Qed.

Lemma prepare_keep m :
  map_ok m → size_ (primary_table_ m) ≠ 0 → must_grow m = false →
  ∃ m1, HMap.prepare_insert m = Done tt m1 ∧ prepared m m1.
Proof.
  intros Hok Hnz Hgrow. pose proof (mok_primary _ Hok) as Hp.
  pose proof (size_nonneg _ Hp). unfold must_grow, HTable.empty in Hgrow.
  rewrite (proj2 (Z.eqb_neq _ _)) in Hgrow by done. cbn in Hgrow.
  exists m. split.
  - unfold HMap.prepare_insert. munfold. unfold HTable.empty.
    rewrite (proj2 (Z.eqb_neq _ _)) by done. by rewrite Hgrow.
  - split; try done.
    + intros t Ht. destruct (mok_temporary _ Hok t Ht) as (? & _ & ?). done.
    + apply size_pos_buckets; [done|lia].
    + intros _. unfold HMap.overloaded, HTable.size, HMap.k_max_load_factor in Hgrow.
      apply Z.leb_gt in Hgrow. lia.
Qed.

Lemma prepare_spec m :
  map_ok m → map_total m < 2 ^ 60 → map_mutex_ m = [Un] →
  relock_allowed = true ∨ must_grow m = false →
  ∃ m1, HMap.prepare_insert m = Done tt m1 ∧ prepared m m1.
Proof.
  intros Hok Htot Hmx Hpol. destruct (must_grow m) eqn:Hgrow.
  - destruct Hpol; [|done]. by apply prepare_grow.
  - destruct (decide (size_ (primary_table_ m) = 0)); [by apply prepare_empty|by apply prepare_keep].
Qed.

(** Changing only the mutex changes none of the observations. *)
Lemma map_ok_mutex m l : map_ok m → map_ok (set_mtx l m).
Proof. by intros [? ? ?]. Qed.

(** [HMap::insert]: one more version of the key, in front of the others. *)
Lemma map_insert_spec m k v :
  map_ok m → map_mutex_ m = [] → map_total m < 2 ^ 60 - 1 →
  relock_allowed = true ∨ must_grow m = false →
  ∃ m', HMap.insert k v m = Done tt m' ∧ map_ok m' ∧ map_mutex_ m' = [] ∧
    map_total m' = map_total m + 1 ∧
    (∀ k', map_versions m' k' ≡ₚ
       if decide (k' = k) then v :: map_versions m k else map_versions m k') ∧
    (must_grow m = false → temporary_table_ m = None →
     temporary_table_ m' = None ∧
     ∀ k', map_versions m' k' =
       if decide (k' = k) then v :: map_versions m k else map_versions m k').
Proof.
  intros Hok Hmx Htot Hpol.
  assert (map_total m < 2 ^ 60) as Htot60 by lia.
  destruct (prepare_spec (set_mtx [Un] m) (map_ok_mutex m [Un] Hok) Htot60 eq_refl Hpol)
    as (m1 & Hprep & Hpr).
  pose proof (pr_total _ _ Hpr) as Htot1. unfold map_total, temp_size in Htot1.
  assert (0 ≤ temp_size m1) as Ht1.
  { unfold temp_size. destruct (temporary_table_ m1) as [t|] eqn:E; [|lia].
    apply size_nonneg. by apply (pr_some _ _ Hpr). }
  unfold temp_size in Ht1. unfold map_total, temp_size in Htot.
  pose proof (size_nonneg _ (pr_primary _ _ Hpr)) as Hs1.
  cbn [primary_table_ temporary_table_ set_mtx HMap_mutex] in Htot1.
  destruct (insert_init (primary_table_ m1) k v) as (p & Hins & Hokp & Hsp & Hcp & Hnep & Hvp);
    [apply Hpr|apply Hpr|lia|].
  set (m2 := mkHMap p (temporary_table_ m1) (resizing_pos_ m1) []).
  assert (map_pre m2) as Hpre.
  { split; [done| |].
    - intros t Ht. destruct (pr_some _ _ Hpr t Ht) as [? ?]. cbn. split_and!; [done|lia|lia].
    - intros Ht _. cbn. pose proof (pr_room _ _ Hpr Ht). lia. }
  assert (map_total m2 = map_total m + 1) as Htot2
    by (unfold map_total, temp_size; cbn; lia).
  destruct (help_resize_spec m2) as (m' & Hrun & Hok' & Hmx' & Htot' & Hperm & Hsame & _ & _);
    [done|done|rewrite Htot2; unfold map_total, temp_size; lia|].
  assert (∀ k', map_versions m2 k' =
    if decide (k' = k) then v :: map_versions m k else map_versions m k') as Hv2.
  { intros k'. pose proof (pr_versions _ _ Hpr) as Hv. unfold map_versions in *.
    cbn [primary_table_ temporary_table_ set_mtx HMap_mutex m2] in Hv |- *.
    rewrite Hvp. case_decide; subst; by rewrite <- Hv. }
  exists m'. split.
  { assert (guarded Un (HMap.prepare_insert ;; HMap.on_primary (HTable.insert k v)) m
        = Done tt m2) as Hlocked.
    { rewrite guarded_free by exact Hmx. rewrite (bind_Done _ _ _ _ _ Hprep).
      rewrite (on_primary_Done _ _ _ _ Hins).
      cbn [mtx set_mtx HMap_mutex HMap.set_primary map_mutex_].
      by rewrite (pr_mutex _ _ Hpr). }
    unfold HMap.insert. by rewrite (bind_Done _ _ _ _ _ Hlocked). }
  split; [done|split; [done|split; [lia|split]]].
  - intros k'. by rewrite Hperm, Hv2.
  - intros Hg Htemp. pose proof (pr_temp _ _ Hpr Hg) as Ht2.
    assert (m' = m2) as -> by (apply Hsame; cbn; rewrite Ht2; done).
    split; [cbn; by rewrite Ht2|]. apply Hv2.
Qed.

(** Growth needs [map_mutex_] a second time. *)
Lemma map_insert_stuck m k v :
  map_ok m → map_mutex_ m = [] → must_grow m = true → relock_allowed = false →
  HMap.insert k v m = Stuck.
Proof.
  intros Hok Hmx Hgrow Hpol. unfold HMap.insert. apply bind_Stuck.
  rewrite guarded_free by exact Hmx. unfold HMap.prepare_insert. munfold.
  unfold must_grow in Hgrow. cbn [primary_table_ set_mtx HMap_mutex].
  apply andb_true_iff in Hgrow as [->%negb_true_iff Hover].
  cbn [primary_table_ set_mtx HMap_mutex]. rewrite Hover.
  unfold HMap.start_resize. by rewrite (guarded_relock _ _ _ []).
Qed.

(** [HMap::find]: the newest version that draining leaves in front. *)
Lemma map_find_spec m k :
  map_ok m → map_mutex_ m = [] → map_total m < 2 ^ 60 →
  ∃ m', HMap.find k m = Done (head (map_versions m' k)) m' ∧ map_ok m' ∧
    map_mutex_ m' = [] ∧ map_total m' = map_total m ∧
    (∀ k', map_versions m' k' ≡ₚ map_versions m k') ∧
    (temporary_table_ m = None → m' = m).
Proof.
  intros Hok Hmx Htot.
  destruct (help_resize_spec m (map_ok_pre m Hok) Hmx Htot)
    as (m' & Hrun & Hok' & Hmx' & Htot' & Hperm & Hsame & _).
  exists m'. split; [|done]. unfold HMap.find. rewrite (bind_Done _ _ _ _ _ Hrun).
  set (r := head (versions (primary_table_ m') k)).
  assert (guarded Sh (HMap.on_primary (HTable.lookup k)) m' = Done r m') as Hlook.
  { rewrite guarded_free by done. destruct m' as [p t pos l]. cbn in Hmx'. subst l.
    by rewrite (on_primary_Done _ (mkHMap p t pos [Sh]) _ _
      (lookup_spec p k (mok_primary _ Hok'))). }
  rewrite (bind_Done _ _ _ _ _ Hlook). unfold r, map_versions.
  destruct (versions (primary_table_ m') k) as [|v l]; [|done]. cbn [head app].
  munfold. destruct (temporary_table_ m') as [t|] eqn:Et; [|done].
  rewrite (on_temporary_Done _ _ _ _ _ Et (lookup_spec t k ltac:(by eapply mok_temporary))).
  unfold HMap.set_temporary. rewrite <- Et. by destruct m'.
Qed.

Lemma temp_nonneg m : map_ok m → 0 ≤ temp_size m.
Proof.
  intros Hok. unfold temp_size. destruct (temporary_table_ m) as [t|] eqn:E; [|lia].
  apply size_nonneg. by apply (mok_temporary _ Hok).
Qed.

(** The locked half of [remove], once draining has been helped along. *)
Lemma remove_locked m k :
  map_ok m → map_mutex_ m = [Un] → map_total m < 2 ^ 60 →
  temporary_table_ m = None ∨ 16 ≤ size_ (primary_table_ m) →
  ∃ m',
    (r ← HMap.on_primary (HTable.remove k);
     match r with
     | Some v => mret (Some v)
     | None =>
         m ← get;
         match temporary_table_ m with
         | Some _ => HMap.on_temporary (HTable.remove k)
         | None => mret None
         end
     end) m = Done (head (map_versions m k)) m' ∧
    map_ok m' ∧ map_mutex_ m' = [Un] ∧
    map_total m' = map_total m - (if decide (map_versions m k = []) then 0 else 1) ∧
    (∀ k', map_versions m' k' = if decide (k' = k) then tail (map_versions m k)
                                else map_versions m k') ∧
    (temporary_table_ m = None → temporary_table_ m' = None).
Proof.
  intros Hok Hmx Htot Hbig. pose proof (temp_nonneg _ Hok) as Ht0.
  pose proof (mok_primary _ Hok) as Hp. pose proof (size_nonneg _ Hp) as Hs0.
  unfold map_total in Htot.
  destruct (remove_spec (primary_table_ m) k Hp) as (p & Hrem & Hokp & Hcp & Hbp & Hsp & Hvp); [lia|].
  pose proof (on_primary_Done _ m _ _ Hrem) as Hrun. rewrite (bind_Done _ _ _ _ _ Hrun).
  unfold map_versions.
  destruct (versions (primary_table_ m) k) as [|v vs] eqn:Evs; cbn [head].
  - (* not in the primary table *)
    rewrite decide_True in Hsp by done. munfold.
    cbn [temporary_table_ HMap.set_primary app].
    destruct (temporary_table_ m) as [t|] eqn:Et.
    + destruct (mok_temporary _ Hok t Et) as (Hokt & Hone & Hw).
      unfold temp_size in *. rewrite Et in *.
      destruct (remove_spec t k Hokt) as (t' & Hremt & Hokt' & Hct & _ & Hst & Hvt); [lia|].
      rewrite (on_temporary_Done _ (HMap.set_primary p m) _ t t' Et Hremt). eexists. split; [done|].
      assert (size_ t' ≤ size_ t) as Hle by (case_decide; lia).
      split; [split; cbn; [done| |done]|].
      * intros t2 [= <-]. rewrite Hcp. split_and!; [done|lia|lia].
      * split; [done|]. unfold map_total, temp_size. cbn [primary_table_ temporary_table_
          HMap.set_primary HMap.set_temporary]. rewrite Et.
        split; [case_decide; lia|]. split; [|done].
        intros k'. cbn. rewrite Hvp, Hvt. by destruct (decide (k' = k)).
    + eexists. split; [done|]. split; [split; cbn; [done| |]|].
      * intros t2 Ht2. congruence.
      * intros _ Hne. rewrite Hcp.
        pose proof (mok_load _ Hok Et ltac:(by rewrite <- Hbp)). lia.
      * split; [done|]. unfold map_total, temp_size. cbn [primary_table_ temporary_table_
          HMap.set_primary]. rewrite ?Et, decide_True by done. split; [lia|]. split; [|done].
        intros k'. cbn. rewrite Hvp, ?Et. by destruct (decide (k' = k)).
  - rewrite decide_False in Hsp by done. eexists. split; [done|].
    split; [split; cbn; [done| |]|].
    + intros t Et. destruct (mok_temporary _ Hok t Et) as (Hokt & Hone & Hw).
      rewrite Hcp. destruct Hbig; [congruence|]. split_and!; [done|lia|lia].
    + intros Et Hne. rewrite Hcp.
      pose proof (mok_load _ Hok Et ltac:(by rewrite <- Hbp)). lia.
    + split; [done|]. unfold map_total, temp_size. cbn [primary_table_ temporary_table_
        HMap.set_primary app]. rewrite decide_False by done. split; [lia|]. split; [|done].
      intros k'. cbn. rewrite Hvp. by case_decide; subst.
Qed.

(** [HMap::remove]: the newest version found goes, the older ones remain. *)
Lemma map_remove_spec m k :
  map_ok m → map_mutex_ m = [] → map_total m < 2 ^ 60 →
  ∃ m1 m', HMap.remove k m = Done (head (map_versions m1 k)) m' ∧ map_ok m' ∧
    map_mutex_ m' = [] ∧
    map_total m' = map_total m - (if decide (map_versions m1 k = []) then 0 else 1) ∧
    (∀ k', map_versions m1 k' ≡ₚ map_versions m k') ∧
    (∀ k', map_versions m' k' = if decide (k' = k) then tail (map_versions m1 k)
                                else map_versions m1 k') ∧
    (temporary_table_ m = None → m1 = m ∧ temporary_table_ m' = None).
Proof.
  intros Hok Hmx Htot.
  destruct (help_resize_spec m (map_ok_pre m Hok) Hmx Htot)
    as (m1 & Hrun & Hok1 & Hmx1 & Htot1 & Hperm & Hsame & Hbig & _).
  destruct (remove_locked (set_mtx [Un] m1) k (map_ok_mutex _ _ Hok1) eq_refl)
    as (m' & Hrem & Hok' & Hmx' & Htot' & Hv' & Ht'); [by rewrite <- Htot1 in Htot|done|].
  exists m1, (set_mtx [] m'). split.
  - unfold HMap.remove. rewrite (bind_Done _ _ _ _ _ Hrun).
    rewrite guarded_free by exact Hmx1. cbn [mtx set_mtx HMap_mutex] in *.
    rewrite Hrem. by rewrite Hmx'.
  - split; [by apply map_ok_mutex|]. split; [done|].
    split; [by rewrite <- Htot1|]. split; [done|]. split; [exact Hv'|].
    intros Ht. rewrite (Hsame Ht) in *. split; [done|]. by apply Ht'.
Qed.
End HMapLemmas.
