(* ===== verification/HashMapSpec.v ===== *)
(** What [HMap] promises to its clients: sequences of calls on a map whose keys
    are inserted once behave as on a finite map, and the two ways in which the
    code falls short of that: growth under [std::shared_mutex], and a key that is
    inserted again. *)

From S2P Require Import Prelude Bytes HashTable.

(** ** Sequences of calls *)
Inductive map_call (K V : Type) : Type :=
| CallInsert (k : K) (v : V)
| CallFind (k : K)
| CallRemove (k : K)
| CallSize.
Arguments CallInsert {K V} _ _. Arguments CallFind {K V} _.
Arguments CallRemove {K V} _. Arguments CallSize {K V}.

Inductive map_reply (V : Type) : Type :=
| Void
| Value (v : option V)
| Count (n : Z).
Arguments Void {V}. Arguments Value {V} _. Arguments Count {V} _.

Section Calls.
Context {LP : LockPolicy} {K V : Type} `{Countable K} `{HashKey K}.

Definition call (c : map_call K V) : M (HMap K V) (map_reply V) :=
  match c with
  | CallInsert k v => HMap.insert k v ;; mret Void
  | CallFind k => r ← HMap.find k; mret (Value r)
  | CallRemove k => r ← HMap.remove k; mret (Value r)
  | CallSize => m ← get; mret (Count (HMap.size m))
  end.

Fixpoint calls (cs : list (map_call K V)) : M (HMap K V) (list (map_reply V)) :=
  match cs with
  | [] => mret []
  | c :: cs' => r ← call c; rs ← calls cs'; mret (r :: rs)
  end.

(** ** The abstract map: [None] when a key that is present is inserted. *)
Definition spec_call (c : map_call K V) (f : gmap K V) : option (map_reply V * gmap K V) :=
  match c with
  | CallInsert k v => match f !! k with
                      | None => Some (Void, <[k := v]> f)
                      | Some _ => None
                      end
  | CallFind k => Some (Value (f !! k), f)
  | CallRemove k => Some (Value (f !! k), delete k f)
  | CallSize => Some (Count (Z.of_nat (size f)), f)
  end.

Fixpoint spec_calls (cs : list (map_call K V)) (f : gmap K V)
  : option (list (map_reply V) * gmap K V) :=
  match cs with
  | [] => Some ([], f)
  | c :: cs' =>
      match spec_call c f with
      | Some (r, f') =>
          match spec_calls cs' f' with
          | Some (rs, f'') => Some (r :: rs, f'')
          | None => None
          end
      | None => None
      end
  end.

(** The map between calls holds exactly one version of each key of [f]. *)
Record represents (m : HMap K V) (f : gmap K V) : Prop := {
  rep_ok : map_ok m;
  rep_free : map_mutex_ m = [];
  rep_versions : ∀ k, map_versions m k = option_list (f !! k);
  rep_size : map_total m = Z.of_nat (size f);
}.

Lemma perm_option_list {A} (l : list A) o : l ≡ₚ option_list o → l = option_list o.
Proof.
  destruct o; simpl; intros Hp; [by apply Permutation_singleton_r|by apply Permutation_nil_r].
Qed.

Lemma represents_new : represents HMap.new ∅.
Proof. split; [apply new_ok|done| |done]. intros k. by rewrite lookup_empty. Qed.

Lemma insert_represents m f k v :
  represents m f → f !! k = None → Z.of_nat (size f) < 2 ^ 60 - 1 →
  relock_allowed = true ∨ must_grow m = false →
  ∃ m', HMap.insert k v m = Done tt m' ∧ represents m' (<[k := v]> f).
Proof.
  intros [Hok Hmx Hv Hsz] Hk Hlt Hpol.
  destruct (map_insert_spec m k v Hok Hmx) as (m' & Hrun & Hok' & Hmx' & Htot & Hp & _);
    [by rewrite Hsz|done|].
  exists m'. split; [done|]. split; [done|done| |].
  - intros k'. apply perm_option_list. rewrite Hp. case_decide as Hd.
    + subst k'. by rewrite Hv, Hk, lookup_insert_eq.
    + by rewrite Hv, lookup_insert_ne by done.
  - rewrite Htot, Hsz, map_size_insert_None by done. lia.
Qed.

Lemma find_represents m f k :
  represents m f → Z.of_nat (size f) < 2 ^ 60 →
  ∃ m', HMap.find k m = Done (f !! k) m' ∧ represents m' f.
Proof.
  intros [Hok Hmx Hv Hsz] Hlt.
  destruct (map_find_spec m k Hok Hmx) as (m' & Hrun & Hok' & Hmx' & Htot & Hp & _);
    [by rewrite Hsz|].
  assert (∀ k', map_versions m' k' = option_list (f !! k')) as Hv'
    by (intros k'; apply perm_option_list; by rewrite Hp, Hv).
  exists m'. split; [|by split; [..|congruence]].
  rewrite Hrun, Hv'. by destruct (f !! k).
Qed.

Lemma remove_represents m f k :
  represents m f → Z.of_nat (size f) < 2 ^ 60 →
  ∃ m', HMap.remove k m = Done (f !! k) m' ∧ represents m' (delete k f).
Proof.
  intros [Hok Hmx Hv Hsz] Hlt.
  destruct (map_remove_spec m k Hok Hmx)
    as (m1 & m' & Hrun & Hok' & Hmx' & Htot & Hp & Hv' & _); [by rewrite Hsz|].
  assert (∀ k', map_versions m1 k' = option_list (f !! k')) as Hv1
    by (intros k'; apply perm_option_list; by rewrite Hp, Hv).
  exists m'. split; [rewrite Hrun, Hv1; by destruct (f !! k)|].
  split; [done|done| |].
  - intros k'. rewrite Hv', !Hv1. destruct (decide (k' = k)) as [->|Hd].
    + rewrite lookup_delete_eq. by destruct (f !! k).
    + by rewrite lookup_delete_ne by done.
  - rewrite Htot, Hsz, Hv1. destruct (f !! k) as [x|] eqn:Ek; cbn [option_list].
    + rewrite decide_False by done. rewrite map_size_delete_Some by done.
      assert (size f ≠ 0%nat) by (apply map_size_ne_0_lookup; eauto). lia.
    + rewrite decide_True by done. rewrite delete_id by done. lia.
Qed.

Lemma size_represents m f :
  represents m f → Z.of_nat (size f) < 2 ^ 60 → HMap.size m = Z.of_nat (size f).
Proof.
  intros [_ _ _ Hsz] Hlt. rewrite <- Hsz. unfold map_total, temp_size in Hsz |- *.
  unfold HMap.size, HTable.size. apply wrapu_small. lia.
Qed.

(** Below 33 entries the load factor never reaches the threshold. *)
Lemma small_no_growth m f :
  represents m f → Z.of_nat (size f) < 32 → must_grow m = false.
Proof.
  intros [Hok _ _ Hsz] Hlt. destruct (must_grow m) eqn:Hg; [|done]. exfalso.
  destruct (must_grow_true m Hok Hg) as (Hne & Htemp & Hload).
  pose proof (capacity_lower _ (mok_primary _ Hok) Hne).
  unfold map_total, temp_size in Hsz. rewrite Htemp in Hsz. lia.
Qed.

Lemma call_represents c m f r f' :
  relock_allowed = true ∨ Z.of_nat (size f) < 32 →
  represents m f → Z.of_nat (size f) < 2 ^ 60 - 1 →
  spec_call c f = Some (r, f') →
  ∃ m', call c m = Done r m' ∧ represents m' f' ∧ (size f' ≤ S (size f))%nat.
Proof.
  intros Hpol Hrep Hlt Hspec. destruct c as [k v|k|k|]; cbn in Hspec |- *.
  - destruct (f !! k) eqn:Ek; [done|]. simplify_eq.
    destruct (insert_represents m f k v) as (m' & Hrun & Hrep'); [done..| |].
    { destruct Hpol; [by left|right; by eapply small_no_growth]. }
    exists m'. rewrite (bind_Done _ _ _ _ _ Hrun). split_and!; [done..|].
    by rewrite map_size_insert_None.
  - simplify_eq. destruct (find_represents m f' k) as (m' & Hrun & Hrep'); [done|lia|].
    exists m'. rewrite (bind_Done _ _ _ _ _ Hrun). split_and!; [done..|lia].
  - simplify_eq. destruct (remove_represents m f k) as (m' & Hrun & Hrep'); [done|lia|].
    exists m'. rewrite (bind_Done _ _ _ _ _ Hrun). split_and!; [done..|].
    rewrite map_size_delete. destruct (f !! k); cbn; unfold id; lia.
  - simplify_eq. exists m. munfold. rewrite (size_represents m f') by (done || lia).
    split_and!; [done..|lia].
Qed.

Lemma calls_represent cs : ∀ m f rs f',
  relock_allowed = true ∨ Z.of_nat (size f + length cs) ≤ 32 →
  represents m f → Z.of_nat (size f + length cs) < 2 ^ 60 →
  spec_calls cs f = Some (rs, f') →
  ∃ m', calls cs m = Done rs m' ∧ represents m' f'.
Proof.
  induction cs as [|c cs IH]; intros m f rs f' Hpol Hrep Hlt Hspec; cbn in Hspec, Hpol, Hlt |- *.
  { simplify_eq. eauto. }
  destruct (spec_call c f) as [[r f1]|] eqn:Ec; [|done].
  destruct (spec_calls cs f1) as [[rs1 f2]|] eqn:Ecs; [|done]. simplify_eq.
  destruct (call_represents c m f r f1) as (m1 & Hrun & Hrep1 & Hle);
    [destruct Hpol; [by left|right; lia]|done|lia|done|].
  destruct (IH m1 f1 rs1 f') as (m' & Hrun' & Hrep');
    [destruct Hpol; [by left|right; lia]|done|lia|done|].
  exists m'. split; [|done]. rewrite (bind_Done _ _ _ _ _ Hrun).
  by rewrite (bind_Done _ _ _ _ _ Hrun').
Qed.
End Calls.

(** ** Properties *)

(** The unrolled loop of [hash_bytes] computes the published FNV-1a, one
    byte at a time, on every length (so also on the tail that is not a multiple
    of four). *)
Theorem hash_bytes_fnv1a l : hash_bytes l = fnv1a l.
Proof. apply (hash_loops_fold (length l)). lia. Qed.

Section Properties.
Context {LP : LockPolicy} {K V : Type} `{Countable K} `{HashKey K}.

(** C5: [HMap] refines the finite map.  Every sequence of insertions of absent
    keys, finds, removals and size queries, on a map that starts empty, returns
    with the replies of the finite map and leaves a table that represents it:
    through every growth step and every partial migration when [map_mutex_] can
    be re-acquired, and for sequences of at most 32 calls with [std::shared_mutex],
    as the source is written.  With [std::shared_mutex] an insertion that would make
    the table grow never returns. *)
Theorem hmap_refines_map (cs : list (map_call K V)) rs f :
  relock_allowed = true ∨ (length cs ≤ 32)%nat →
  Z.of_nat (length cs) < 2 ^ 60 →
  spec_calls cs ∅ = Some (rs, f) →
  ∃ m, calls cs HMap.new = Done rs m ∧ represents m f ∧
    (relock_allowed = false → must_grow m = true → ∀ k v, HMap.insert k v m = Stuck).
Proof.
  intros Hpol Hlt Hcs. destruct (calls_represent cs HMap.new ∅ rs f) as (m & Hrun & Hrep);
    rewrite ?map_size_empty; [destruct Hpol; [by left|right; cbn; lia]|apply represents_new|done|done|].
  exists m. split; [done|]. split; [done|]. intros Hno Hg k v. apply map_insert_stuck; [apply Hrep|apply Hrep|done|done].
Qed.

(** With [std::shared_mutex], [insert] on a map between calls never returns
    exactly when the primary table is not empty and has reached the load factor
    of eight: [start_resize] waits for the [map_mutex_] that [insert] holds.  So
    no table ever grows. *)
Theorem insert_hangs_iff_loaded m k (v : V) :
  relock_allowed = false → map_ok m → map_mutex_ m = [] → map_total m < 2 ^ 60 - 1 →
  HMap.insert k v m = Stuck ↔
  HTable.size (primary_table_ m) ≠ 0 ∧
  8 * HTable.capacity (primary_table_ m) ≤ HTable.size (primary_table_ m).
Proof.
  intros Hpol Hok Hmx Htot.
  assert (must_grow m = true ↔ HTable.size (primary_table_ m) ≠ 0 ∧
    8 * HTable.capacity (primary_table_ m) ≤ HTable.size (primary_table_ m)) as <-.
  { unfold must_grow, HTable.empty, HTable.size, HMap.overloaded, HMap.k_max_load_factor.
    by rewrite andb_true_iff, negb_true_iff, Z.eqb_neq, Z.leb_le. }
  split; [|by intros; apply map_insert_stuck].
  intros Hstuck. destruct (must_grow m) eqn:Hg; [done|].
  destruct (map_insert_spec m k v Hok Hmx Htot) as (m' & Hrun & _); [by right|congruence].
Qed.

(** [insert] does not replace: after a second insertion of a key, while no
    migration is in progress and none starts, [find] returns the new value, but
    one [remove] takes only the new version away and the next [find] returns the
    first value again. *)
Theorem remove_resurrects m k (v1 v2 : V) vs :
  map_ok m → map_mutex_ m = [] → map_total m < 2 ^ 60 - 1 →
  temporary_table_ m = None → must_grow m = false → map_versions m k = v1 :: vs →
  ∃ m', (HMap.insert k v2 ;; a ← HMap.find k; b ← HMap.remove k; c ← HMap.find k;
         mret (a, b, c)) m = Done (Some v2, Some v2, Some v1) m'.
Proof.
  intros Hok Hmx Htot Htemp Hg Hv.
  destruct (map_insert_spec m k v2 Hok Hmx Htot) as (m1 & Hr1 & Hok1 & Hmx1 & Ht1 & _ & Hv1);
    [by right|]. destruct (Hv1 Hg Htemp) as [Htemp1 Hvs1].
  destruct (map_find_spec m1 k Hok1 Hmx1) as (m2 & Hr2 & _ & _ & _ & _ & Hsame2); [lia|].
  rewrite (Hsame2 Htemp1) in Hr2.
  destruct (map_remove_spec m1 k Hok1 Hmx1)
    as (m3 & m4 & Hr4 & Hok4 & Hmx4 & Ht4 & _ & Hv4 & Htemp4); [lia|].
  destruct (Htemp4 Htemp1) as [-> Htemp4']. clear Htemp4.
  destruct (map_find_spec m4 k Hok4 Hmx4) as (m5 & Hr5 & _ & _ & _ & _ & Hsame5).
  { rewrite Ht4. case_decide; lia. }
  rewrite (Hsame5 Htemp4') in Hr5. exists m4.
  rewrite Hvs1, decide_True, Hv in Hr2, Hr4 by done.
  rewrite Hv4, decide_True, Hvs1, decide_True, Hv in Hr5 by done.
  rewrite (bind_Done _ _ _ _ _ Hr1), (bind_Done _ _ _ _ _ Hr2), (bind_Done _ _ _ _ _ Hr4),
    (bind_Done _ _ _ _ _ Hr5). done.
Qed.
End Properties.

(** ** Witnesses *)

(** Insertions of the integers below [n], then a find and a removal. *)
Definition sample_calls (n : nat) : list (map_call Z Z) :=
  ((λ i, CallInsert (Z.of_nat i) (10 * Z.of_nat i)) <$> seq 0 n)
  ++ [CallFind 7; CallRemove 7; CallFind 7; CallSize].

Lemma hmap_refines_map_witness :
  ∃ rs f m, calls (LP := reentrant) (sample_calls 40) HMap.new = Done rs m ∧ represents m f.
Proof.
  destruct (spec_calls (sample_calls 40) ∅) as [[rs f]|] eqn:E; [|by vm_compute in E].
  destruct (hmap_refines_map (LP := reentrant) (sample_calls 40) rs f) as (m & Hm);
    [by left|done|done|]. destruct Hm as (Hrun & Hrep & _). exists rs, f, m. exact (conj Hrun Hrep).
Defined.

(** The map after 32 insertions under [std::shared_mutex]. *)
Definition full_calls : list (map_call Z Z) :=
  (λ i, CallInsert (Z.of_nat i) (Z.of_nat i)) <$> seq 0 32.
Definition full_map : HMap Z Z :=
  match calls (LP := std_shared_mutex) full_calls HMap.new with Done _ m => m | _ => HMap.new end.

Lemma full_map_represents : ∃ f, represents full_map f ∧ size f = 32%nat.
Proof.
  destruct (spec_calls full_calls ∅) as [[rs f]|] eqn:E; [|by vm_compute in E].
  destruct (calls_represent (LP := std_shared_mutex) full_calls HMap.new ∅ rs f) as (m & Hm & Hr);
    [right; by vm_compute|apply represents_new|by vm_compute|done|].
  exists f. unfold full_map. rewrite Hm. split; [done|].
  rewrite <- (Nat2Z.id 32), <- (Nat2Z.id (size f)), <- (rep_size _ _ Hr). f_equal.
  assert (m = full_map) as -> by (unfold full_map; by rewrite Hm). by vm_compute.
Qed.

Lemma insert_hangs_iff_loaded_witness :
  HMap.insert (LP := std_shared_mutex) 32 32 full_map = Stuck.
Proof.
  destruct full_map_represents as (f & [Hok Hmx _ Hsz] & Hf).
  apply (insert_hangs_iff_loaded (LP := std_shared_mutex) full_map 32 32 eq_refl Hok Hmx).
  - rewrite Hsz, Hf. lia.
  - split; vm_compute; discriminate.
Defined.

Lemma remove_resurrects_witness :
  ∃ m m', (HMap.insert (LP := std_shared_mutex) 1 20 ;;
         a ← HMap.find (LP := std_shared_mutex) 1; b ← HMap.remove (LP := std_shared_mutex) 1;
         c ← HMap.find (LP := std_shared_mutex) 1; mret (a, b, c)) m
    = Done (Some 20, Some 20, Some 10) m'.
Proof.
  destruct (calls_represent (LP := std_shared_mutex) [CallInsert 1 10] HMap.new ∅ [Void] {[1 := 10]})
    as (m & Hm & [Hok Hmx Hv Hsz]); [right; by vm_compute|apply represents_new|by vm_compute|by vm_compute|].
  exists m. apply (remove_resurrects (LP := std_shared_mutex) m 1 10 20 []).
  - exact Hok.
  - exact Hmx.
  - rewrite Hsz. by vm_compute.
  - vm_compute in Hm. by simplify_eq.
  - vm_compute in Hm. simplify_eq. by vm_compute.
  - rewrite Hv. by vm_compute.
Defined.
