(* ===== verification/HashStack.v ===== *)
(** [HMap] before it grows, for any calls: keys may be inserted again.

    [HTable::insert] puts a node in front of its chain without looking for the key, so that
    a map is an association list: a find sees the newest value of a key, and a removal
    uncovers the one before.  [HMap] is like that as long as it does not resize, which
    with [std::shared_mutex] is as long as its calls return. *)

From S2P Require Import Prelude Bytes HashTable HashMapSpec.

(** ** The association list, newest first *)
Section Assoc.
Context {K V : Type} `{EqDecision K}.
Implicit Types (l : list (K * V)) (k : K).

Fixpoint newest k l : option V :=
  match l with
  | [] => None
  | (k', v) :: l' => if decide (k' = k) then Some v else newest k l'
  end.

Fixpoint drop_newest k l : list (K * V) :=
  match l with
  | [] => []
  | (k', v) :: l' => if decide (k' = k) then l' else (k', v) :: drop_newest k l'
  end.

(** The values of a key. *)
Definition values_of l k : list V := (filter (λ p, p.1 = k) l).*2.

Lemma values_of_cons l k k' v :
  values_of ((k', v) :: l) k = if decide (k = k') then v :: values_of l k' else values_of l k.
Proof.
  unfold values_of. rewrite filter_cons. cbn. destruct (decide (k' = k)) as [->|Hne]; [by rewrite decide_True|].
  by rewrite decide_False.
Qed.

Lemma newest_head l k : newest k l = head (values_of l k).
Proof.
  induction l as [|[k' v] l IH]; [done|]. cbn [newest]. rewrite values_of_cons.
  destruct (decide (k' = k)) as [->|Hne]; [by rewrite decide_True|by rewrite decide_False].
Qed.

Lemma values_of_drop l k k' :
  values_of (drop_newest k l) k' = if decide (k' = k) then tail (values_of l k) else values_of l k'.
Proof.
  induction l as [|[j v] l IH]; cbn [drop_newest]; [by case_decide|]. rewrite !values_of_cons.
  destruct (decide (j = k)) as [->|Hj].
  - rewrite (decide_True _ _ (eq_refl k)). destruct (decide (k' = k)); [by subst|done].
  - rewrite values_of_cons, IH, (decide_False (P := k = j)) by done.
    destruct (decide (k' = j)) as [->|]; [|done]. rewrite (decide_False (P := j = k)) by done. by rewrite IH, decide_False.
Qed.

Lemma drop_newest_length l k :
  length (drop_newest k l) = (length l - if decide (values_of l k = []) then 0 else 1)%nat.
Proof.
  induction l as [|[j v] l IH]; cbn [drop_newest]; [by case_decide|]. rewrite values_of_cons.
  destruct (decide (j = k)) as [->|Hj]; [rewrite (decide_True _ _ (eq_refl k)), decide_False by done; cbn; lia|].
  rewrite (decide_False (P := k = j)) by done. cbn [length]. rewrite IH. case_decide as Hv; [lia|].
  destruct l; [done|]. cbn. lia.
Qed.

Lemma newest_in l k v : newest k l = Some v → (k, v) ∈ l.
Proof.
  induction l as [|[j w] l IH]; cbn; [done|]. case_decide as Hj; [intros [= ->]; subst; by left|].
  intros Hv. right. by apply IH.
Qed.

Lemma drop_newest_sub l k : drop_newest k l `sublist_of` l.
Proof.
  induction l as [|[j w] l IH]; cbn; [done|]. case_decide; [by apply sublist_cons|by apply sublist_skip].
Qed.
End Assoc.

(** ** The map *)
Section Stack.
Context {LP : LockPolicy} {K V : Type} `{Countable K} `{HashKey K}.
Implicit Types (m : HMap K V) (l : list (K * V)) (k : K).

Record stacked m l : Prop := {
  st_ok : map_ok m;
  st_free : map_mutex_ m = [];
  st_whole : temporary_table_ m = None;
  st_versions : ∀ k, map_versions m k = values_of l k;
  st_size : map_total m = Z.of_nat (length l);
}.

Lemma stacked_new : stacked HMap.new [].
Proof. split; [apply new_ok|done..]. Qed.

(** Below 33 entries the load factor never reaches the threshold. *)
Lemma stacked_small m l : stacked m l → Z.of_nat (length l) < 32 → must_grow m = false.
Proof.
  intros [Hok _ _ _ Hsz] Hlt. destruct (must_grow m) eqn:Hg; [|done]. exfalso.
  destruct (must_grow_true m Hok Hg) as (Hne & Htemp & Hload).
  pose proof (capacity_lower _ (mok_primary _ Hok) Hne). unfold map_total, temp_size in Hsz. rewrite Htemp in Hsz. lia.
Qed.

Lemma insert_stacked m l k v :
  stacked m l → Z.of_nat (length l) < 32 → ∃ m', HMap.insert k v m = Done tt m' ∧ stacked m' ((k, v) :: l).
Proof.
  intros Hst Hlt. pose proof (stacked_small m l Hst Hlt) as Hgrow. destruct Hst as [Hok Hmx Ht Hv Hsz].
  destruct (map_insert_spec m k v Hok Hmx) as (m' & Hrun & Hok' & Hmx' & Htot & _ & Hwhole); [rewrite Hsz; lia|by right|].
  destruct (Hwhole Hgrow Ht) as [Ht' Hv']. exists m'. split; [done|]. split; [done..| |].
  - intros k'. by rewrite Hv', values_of_cons, !Hv.
  - rewrite Htot, Hsz. cbn [length]. lia.
Qed.

Lemma find_stacked m l k :
  stacked m l → Z.of_nat (length l) < 2 ^ 60 → HMap.find k m = Done (newest k l) m.
Proof.
  intros [Hok Hmx Ht Hv Hsz] Hlt. destruct (map_find_spec m k Hok Hmx) as (m' & Hrun & _ & _ & _ & _ & Hsame); [by rewrite Hsz|].
  rewrite (Hsame Ht) in Hrun. by rewrite Hrun, Hv, newest_head.
Qed.

Lemma remove_stacked m l k :
  stacked m l → Z.of_nat (length l) < 2 ^ 60 →
  ∃ m', HMap.remove k m = Done (newest k l) m' ∧ stacked m' (drop_newest k l).
Proof.
  intros [Hok Hmx Ht Hv Hsz] Hlt.
  destruct (map_remove_spec m k Hok Hmx) as (m1 & m' & Hrun & Hok' & Hmx' & Htot & _ & Hv' & Hsame); [by rewrite Hsz|].
  destruct (Hsame Ht) as [-> Ht']. exists m'. split; [by rewrite Hrun, Hv, newest_head|]. split; [done..| |].
  - intros k'. by rewrite Hv', values_of_drop, !Hv.
  - rewrite Htot, Hsz, Hv, drop_newest_length. clear Htot. case_decide; [lia|]. destruct l; [done|cbn [length]; lia].
Qed.

Lemma size_stacked m l : stacked m l → Z.of_nat (length l) < 2 ^ 60 → HMap.size m = Z.of_nat (length l).
Proof.
  intros [_ _ _ _ Hsz] Hlt. rewrite <- Hsz. unfold map_total, temp_size in Hsz |- *.
  unfold HMap.size, HTable.size. apply wrapu_small. lia.
Qed.

Lemma clear_stacked m l : stacked m l → ∃ m', HMap.clear m = Done tt m' ∧ stacked m' [].
Proof.
  intros [_ Hmx _ _ _]. destruct m as [p t pos mx]. cbn in Hmx. subst mx.
  exists (mkHMap HTable.blank None 0 []). split; [done|]. apply stacked_new.
Qed.

(** ** Sequences of calls *)
Definition stack_call (c : map_call K V) l : map_reply V * list (K * V) :=
  match c with
  | CallInsert k v => (Void, (k, v) :: l)
  | CallFind k => (Value (newest k l), l)
  | CallRemove k => (Value (newest k l), drop_newest k l)
  | CallSize => (Count (Z.of_nat (length l)), l)
  end.

(** No value is inserted beside 32 others. *)
Fixpoint stack_calls (cs : list (map_call K V)) l : option (list (map_reply V) * list (K * V)) :=
  match cs with
  | [] => Some ([], l)
  | c :: cs' =>
      if (match c with CallInsert _ _ => 32 <=? Z.of_nat (length l) | _ => false end) then None
      else
        let '(r, l') := stack_call c l in
        '(rs, l'') ← stack_calls cs' l'; Some (r :: rs, l'')
  end.

Lemma call_stacked c m l :
  stacked m l → Z.of_nat (length l) ≤ 32 →
  (match c with CallInsert _ _ => 32 <=? Z.of_nat (length l) | _ => false end) = false →
  ∃ m', call c m = Done (stack_call c l).1 m' ∧ stacked m' (stack_call c l).2 ∧ Z.of_nat (length (stack_call c l).2) ≤ 32.
Proof.
  intros Hst Hle Hroom. destruct c as [k v|k|k|]; cbn [call stack_call fst snd] in *.
  - destruct (insert_stacked m l k v Hst) as (m' & Hrun & Hst'); [lia|]. exists m'. rewrite (bind_Done _ _ _ _ _ Hrun).
    split_and!; [done|done|cbn [length]; lia].
  - exists m. rewrite (bind_Done _ _ _ _ _ (find_stacked m l k Hst ltac:(lia))). by split_and!.
  - destruct (remove_stacked m l k Hst) as (m' & Hrun & Hst'); [lia|]. exists m'. rewrite (bind_Done _ _ _ _ _ Hrun).
    split_and!; [done|done|]. rewrite drop_newest_length. lia.
  - exists m. rewrite bind_get. rewrite (size_stacked m l Hst) by lia. by split_and!.
Qed.

Lemma calls_stacked cs : ∀ m l rs l',
  stacked m l → Z.of_nat (length l) ≤ 32 → stack_calls cs l = Some (rs, l') →
  ∃ m', calls cs m = Done rs m' ∧ stacked m' l'.
Proof.
  induction cs as [|c cs IH]; intros m l rs l' Hst Hle; cbn [stack_calls calls].
  { intros [= <- <-]. by exists m. }
  destruct (match c with CallInsert _ _ => 32 <=? Z.of_nat (length l) | _ => false end) eqn:Hroom; [done|].
  destruct (call_stacked c m l Hst Hle Hroom) as (m1 & Hrun & Hst1 & Hle1).
  destruct (stack_call c l) as [r l1]. cbn [fst snd] in *.
  destruct (stack_calls cs l1) as [[rs1 l2]|] eqn:Hcs; [|done]. intros [= <- <-].
  destruct (IH m1 l1 rs1 l2 Hst1 Hle1 Hcs) as (m' & Hrun' & Hst'). exists m'. split; [|done].
  by rewrite (bind_Done _ _ _ _ _ Hrun), (bind_Done _ _ _ _ _ Hrun').
Qed.
End Stack.

(** ** Properties *)

(** C6: [HMap] refines an association list.  Whatever the keys, every sequence of insertions,
    finds, removals and size queries on a map that starts empty and is given no value beside
    32 others returns, with the replies of a list in which an insertion puts a pair in front
    and a find or removal takes the first pair of the key: a second value of a key hides the
    first, which its removal uncovers. *)
Theorem hmap_refines_stacks `{LP : LockPolicy, Countable K, HashKey K} {V} (cs : list (map_call K V)) rs l :
  stack_calls cs [] = Some (rs, l) → ∃ m, calls cs HMap.new = Done rs m ∧ stacked m l.
Proof. apply calls_stacked; [apply stacked_new|done]. Qed.

(** ** Witnesses *)
Section Witnesses.
#[local] Existing Instance std_shared_mutex.

Definition twice_set : list (map_call string Z) :=
  [CallInsert "a"%string 1; CallInsert "b"%string 2; CallInsert "a"%string 3; CallFind "a"%string; CallRemove "a"%string;
   CallFind "a"%string; CallSize].

Lemma hmap_refines_stacks_witness :
  ∃ m, calls twice_set HMap.new = Done [Void; Void; Void; Value (Some 3); Value (Some 3); Value (Some 1); Count 2] m ∧
    stacked m [("b"%string, 2); ("a"%string, 1)].
Proof. apply hmap_refines_stacks. vm_compute. reflexivity. Defined.
End Witnesses.
