(* ===== verification/Heap.v ===== *)
(** The binary heap of expiry times (src/dsa/heap.hpp): an array whose items
    carry a pointer to the place where their position is recorded.

    The pointed-to memory is the client's: a [PosMem] says how a position is
    loaded and stored through a pointer, and storing through a pointer whose
    object is gone is undefined.  [heap_mutex_] is the model's, because [pop] and
    [swap] call members that acquire it again. *)

From Stdlib Require Import Sorting.Sorted.
From S2P Require Import Prelude.

(** ** Pointers to positions *)
Class PosMem (Mem : Type) := {
  load_pos : loc → Mem → option Z;
  store_pos : loc → Z → Mem → Mem;
  same_objects : Mem → Mem → Prop;
}.

(** What the heap promises to leave alone: stores change one position and
    nothing else of any object. *)
Class PosMemLaws (Mem : Type) `{PosMem Mem} := {
  load_store l l' z mem :
    load_pos l (store_pos l' z mem)
    = if decide (l = l') then (λ _, z) <$> load_pos l mem else load_pos l mem;
  same_refl mem : same_objects mem mem;
  same_trans mem1 mem2 mem3 :
    same_objects mem1 mem2 → same_objects mem2 mem3 → same_objects mem1 mem3;
  same_store l z mem : same_objects mem (store_pos l z mem);
}.

(** A memory of positions only. *)
#[export] Instance gmap_posmem : PosMem (gmap loc Z) := {|
  load_pos l mem := mem !! l;
  store_pos l z mem := alter (λ _, z) l mem;
  same_objects mem mem' := dom mem = dom mem';
|}.

#[export] Instance gmap_posmem_laws : PosMemLaws (gmap loc Z).
Proof.
  split; cbn.
  - intros l l' z mem. case_decide; subst; [apply lookup_alter_eq|by apply lookup_alter_ne].
  - done.
  - congruence.
  - intros. by rewrite dom_alter_L.
Qed.

(** ** HeapItem and BinaryHeap *)
Record HeapItem (T : Type) := mkHeapItem { value_ : T; position_ref_ : option loc }.
Arguments mkHeapItem {T}. Arguments value_ {T}. Arguments position_ref_ {T}.

Definition set_value {T} (new_value : T) (item : HeapItem T) : HeapItem T :=
  mkHeapItem new_value (position_ref_ item).

Record BinaryHeap (T : Type) := mkBinaryHeap {
  items_ : list (HeapItem T);
  heap_mutex_ : mutex;
}.
Arguments mkBinaryHeap {T}. Arguments items_ {T}. Arguments heap_mutex_ {T}.

#[export] Instance BinaryHeap_mutex {T Mem} : HasMutex (BinaryHeap T * Mem) := {|
  mtx := λ s, heap_mutex_ s.1;
  set_mtx := λ l s, (mkBinaryHeap (items_ s.1) l, s.2);
|}.

Definition parent (i : nat) : nat := ((i + 1) / 2 - 1)%nat.
Definition left_child (i : nat) : nat := (i * 2 + 1)%nat.
Definition right_child (i : nat) : nat := (i * 2 + 2)%nat.

Module BinaryHeap.
Section BinaryHeap.
Context {LP : LockPolicy} {T Mem : Type} `{PosMem Mem} (compare_ : T → T → bool).

(** The heap and the memory its items point into. *)
Abbreviation hstate := (BinaryHeap T * Mem)%type.

(** [items_[i]]: undefined outside the vector. *)
Definition item (i : nat) : M hstate (HeapItem T) := λ s,
  match items_ s.1 !! i with Some x => Done x s | None => Undef end.

Definition set_item (i : nat) (x : HeapItem T) : M hstate unit :=
  modify (λ s, (mkBinaryHeap (<[i := x]> (items_ s.1)) (heap_mutex_ s.1), s.2)).

(** [if (x.position_ref_) *x.position_ref_ = pos]. *)
Definition note_position (x : HeapItem T) (pos : nat) : M hstate unit := λ s,
  match position_ref_ x with
  | None => Done tt s
  | Some l =>
      match load_pos l s.2 with
      | Some _ => Done tt (s.1, store_pos l (Z.of_nat pos) s.2)
      | None => Undef
      end
  end.

(** The loop of [sift_up]: the place where [temp] goes. *)
Fixpoint sift_up_loop (fuel : nat) (temp : HeapItem T) (pos : nat) : M hstate nat :=
  match fuel with
  | O => λ _, NoFuel
  | S fuel' =>
      if (0 <? pos)%nat then
        let parent_pos := parent pos in
        p ← item parent_pos;
        if negb (compare_ (value_ temp) (value_ p)) then mret pos
        else set_item pos p ;; note_position p pos ;; sift_up_loop fuel' temp parent_pos
      else mret pos
  end.

Definition sift_up (pos : nat) : M hstate unit :=
  temp ← item pos;
  pos ← sift_up_loop (S pos) temp pos;
  set_item pos temp ;; note_position temp pos.

(** [index < len && compare_(items_[index].value_, v)]. *)
Definition child_before (len index : nat) (v : T) : M hstate bool :=
  if (index <? len)%nat then x ← item index; mret (compare_ (value_ x) v) else mret false.

(** The choice of [min_pos] in one turn of [sift_down]. *)
Definition min_child (len : nat) (temp : HeapItem T) (pos : nat) : M hstate nat :=
  b ← child_before len (left_child pos) (value_ temp);
  let min_pos := if b : bool then left_child pos else pos in
  v ← (if (min_pos =? pos)%nat then mret (value_ temp) else x ← item min_pos; mret (value_ x));
  b ← child_before len (right_child pos) v;
  mret (if b : bool then right_child pos else min_pos).

Fixpoint sift_down_loop (fuel : nat) (len : nat) (temp : HeapItem T) (pos : nat)
  : M hstate nat :=
  match fuel with
  | O => λ _, NoFuel
  | S fuel' =>
      min_pos ← min_child len temp pos;
      if (min_pos =? pos)%nat then mret pos
      else
        x ← item min_pos;
        set_item pos x ;; note_position x pos ;; sift_down_loop fuel' len temp min_pos
  end.

Definition sift_down (pos : nat) : M hstate unit :=
  temp ← item pos;
  s ← get;
  let len := length (items_ s.1) in
  pos ← sift_down_loop (S len) len temp pos;
  set_item pos temp ;; note_position temp pos.

Definition empty : M hstate bool :=
  guarded Sh (s ← get; mret (bool_decide (items_ s.1 = []))).

Definition size : M hstate nat :=
  guarded Sh (s ← get; mret (length (items_ s.1))).

(** [operator[]], and the two uses its callers make of the reference. *)
Definition at_ (index : nat) : M hstate (HeapItem T) :=
  guarded Sh (
    s ← get;
    if (length (items_ s.1) <=? index)%nat then throw (out_of_range "Index out of range")
    else item index).

Definition at_set_value (index : nat) (v : T) : M hstate unit :=
  x ← at_ index; set_item index (set_value v x).

Definition push_back (x : HeapItem T) : M hstate unit :=
  modify (λ s, (mkBinaryHeap (items_ s.1 ++ [x]) (heap_mutex_ s.1), s.2)).

Definition drop_back : M hstate unit :=
  modify (λ s, (mkBinaryHeap (removelast (items_ s.1)) (heap_mutex_ s.1), s.2)).

Definition push (x : HeapItem T) : M hstate unit :=
  guarded Un (
    push_back x ;;
    s ← get;
    sift_up (length (items_ s.1) - 1)).

Definition top : M hstate (option (HeapItem T)) :=
  guarded Sh (
    b ← empty;
    if b : bool then mret None else x ← item 0; mret (Some x)).

Definition pop : M hstate (HeapItem T) :=
  guarded Un (
    b ← empty;
    if b : bool then throw (out_of_range "Heap is empty")
    else
      result ← item 0;
      n ← size;
      (if (1 <? n)%nat then
         s ← get;
         back ← item (length (items_ s.1) - 1);
         set_item 0 back ;; drop_back ;; sift_down 0
       else drop_back) ;;
      mret result).

Definition pop_back : M hstate unit :=
  guarded Un (
    s ← get;
    match items_ s.1 with [] => mret tt | _ => drop_back end).

Definition update (pos : nat) : M hstate unit :=
  guarded Un (
    s ← get;
    if (length (items_ s.1) <=? pos)%nat then throw (out_of_range "Position out of range")
    else
      b ← (if (0 <? pos)%nat then
             x ← item pos; p ← item (parent pos);
             mret (compare_ (value_ x) (value_ p))
           else mret false);
      if b : bool then sift_up pos else sift_down pos).

Definition swap (i j : nat) : M hstate unit :=
  guarded Un (
    s ← get;
    if (length (items_ s.1) <=? i)%nat || (length (items_ s.1) <=? j)%nat
    then throw (out_of_range "swap: Invalid index")
    else
      x ← item i; y ← item j;
      set_item i y ;; set_item j x ;;
      update i ;; update j).

Definition clear : M hstate unit :=
  guarded Un (modify (λ s, (mkBinaryHeap [] (heap_mutex_ s.1), s.2))).

(** All items, popped one after the other. *)
Fixpoint drain (n : nat) : M hstate (list (HeapItem T)) :=
  match n with
  | O => mret []
  | S n' => x ← pop; xs ← drain n'; mret (x :: xs)
  end.
End BinaryHeap.
End BinaryHeap.

(** Three pushes: the least value is on top and every position is recorded. *)
Example push_three :
  let item v l := mkHeapItem v (Some l) in
  match (BinaryHeap.push (LP := std_shared_mutex) Z.ltb (item 30 1%positive) ;;
         BinaryHeap.push (LP := std_shared_mutex) Z.ltb (item 20 2%positive) ;;
         BinaryHeap.push (LP := std_shared_mutex) Z.ltb (item 10 3%positive))
        (mkBinaryHeap [] [],
         {[1%positive := npos; 2%positive := npos; 3%positive := npos]} : gmap loc Z) with
  | Done _ (h, mem) =>
      value_ <$> items_ h = [10; 30; 20] ∧
      mem = {[1%positive := 1; 2%positive := 2; 3%positive := 0]}
  | _ => False
  end.
Proof. vm_compute. done. Qed.

(** ** The hole that [sift_up] and [sift_down] move

    While an item [temp] is held aside, [L] is the array with [temp] written in
    the hole at [pos]. *)
Lemma parent_child i : (0 < i)%nat → i = left_child (parent i) ∨ i = right_child (parent i).
Proof.
  intros Hi. unfold parent, left_child, right_child.
  pose proof (Nat.div_mod_eq (i + 1) 2). pose proof (Nat.mod_upper_bound (i + 1) 2). lia.
Qed.

Lemma parent_lt i : (0 < i)%nat → (parent i < i)%nat.
Proof. intros Hi. destruct (parent_child i Hi); unfold left_child, right_child in *; lia. Qed.

Lemma parent_left i : parent (left_child i) = i.
Proof.
  destruct (parent_child (left_child i)); unfold left_child, right_child in *; lia.
Qed.

Lemma parent_right i : parent (right_child i) = i.
Proof.
  destruct (parent_child (right_child i)); unfold left_child, right_child in *; lia.
Qed.

Section HeapLemmas.
Context {T Mem : Type} `{PosMemLaws Mem}.
Implicit Types (L : list (HeapItem T)) (mem : Mem) (x temp : HeapItem T).

(** Every item that carries a pointer has its position recorded. *)
Definition tracked L mem : Prop := ∀ i x l,
  L !! i = Some x → position_ref_ x = Some l → load_pos l mem = Some (Z.of_nat i).

Record hole_inv L mem (pos : nat) temp : Prop := {
  hole_at : L !! pos = Some temp;
  hole_tracked : ∀ i x l, i ≠ pos → L !! i = Some x → position_ref_ x = Some l →
    load_pos l mem = Some (Z.of_nat i);
  hole_live : ∀ l, position_ref_ temp = Some l → is_Some (load_pos l mem);
  hole_fresh : ∀ i x l, i ≠ pos → L !! i = Some x → position_ref_ x = Some l →
    position_ref_ temp ≠ Some l;
}.

(** The effect of a heap operation on the client's memory: only positions that
    the items of [L] point to may change. *)
Record effect L mem mem' : Prop := {
  eff_same : same_objects mem mem';
  eff_frame : ∀ l, (∀ x, x ∈ L → position_ref_ x ≠ Some l) → load_pos l mem' = load_pos l mem;
  eff_live : ∀ l, is_Some (load_pos l mem') ↔ is_Some (load_pos l mem);
}.

Lemma effect_refl L mem : effect L mem mem.
Proof. split; [apply same_refl|done|done]. Qed.

Lemma effect_trans L L' mem mem1 mem2 :
  L' ≡ₚ L → effect L mem mem1 → effect L' mem1 mem2 → effect L mem mem2.
Proof.
  intros Hp [Hs1 Hf1 Hl1] [Hs2 Hf2 Hl2]. split.
  - by eapply same_trans.
  - intros l Hl. rewrite Hf2, Hf1; [done|done|]. intros x. rewrite Hp. auto.
  - intros l. by rewrite Hl2.
Qed.

Lemma effect_perm L L' mem mem' : L' ≡ₚ L → effect L mem mem' → effect L' mem mem'.
Proof. intros Hp [Hs Hf Hl]. split; [done| |done]. intros l Hx. apply Hf. intros x. rewrite <- Hp. auto. Qed.

Lemma load_store_is_Some l l' z mem :
  is_Some (load_pos l (store_pos l' z mem)) ↔ is_Some (load_pos l mem).
Proof. rewrite load_store. case_decide; [by rewrite fmap_is_Some|done]. Qed.

Lemma note_effect L x l z mem :
  x ∈ L → position_ref_ x = Some l → effect L mem (store_pos l z mem).
Proof.
  intros Hx Hl. split.
  - apply same_store.
  - intros l' Hl'. rewrite load_store, decide_False; [done|]. intros ->. by apply (Hl' x).
  - intros. apply load_store_is_Some.
Qed.

Lemma tracked_hole L mem pos temp :
  tracked L mem → L !! pos = Some temp → hole_inv L mem pos temp.
Proof.
  intros Ht Hpos. split; [done| | |].
  - intros i x l _. apply Ht.
  - intros l Hl. rewrite (Ht _ _ _ Hpos Hl). eauto.
  - intros i x l Hne Hi Hl Hl'. pose proof (Ht _ _ _ Hi Hl). pose proof (Ht _ _ _ Hpos Hl').
    apply Hne. apply Nat2Z.inj. congruence.
Qed.

(** Filling the hole. *)
Lemma hole_close L mem pos temp h :
  hole_inv L mem pos temp →
  ∃ mem', BinaryHeap.note_position temp pos (h, mem) = Done tt (h, mem') ∧
    tracked L mem' ∧ effect L mem mem'.
Proof.
  intros [Hat Htr Hlive Hfresh]. unfold BinaryHeap.note_position. cbn.
  destruct (position_ref_ temp) as [l|] eqn:El.
  - destruct (Hlive l eq_refl) as [z Hz]. rewrite Hz. eexists. split; [done|]. split.
    + intros i x l' Hi Hl'. rewrite load_store. destruct (decide (i = pos)) as [->|Hne].
      * simplify_eq. by rewrite decide_True, Hz by congruence.
      * rewrite decide_False; [by apply (Htr i x l')|].
        intros ->. by apply (Hfresh i x l Hne Hi Hl').
    + apply (note_effect L temp); [by eapply list_elem_of_lookup_2|done].
  - exists mem. split; [done|]. split; [|apply effect_refl].
    intros i x l Hi Hl. apply (Htr i x l); [congruence|done|done].
Qed.

(** Moving the hole from [pos] to [q]. *)
Lemma hole_move L mem pos q temp x h :
  hole_inv L mem pos temp → L !! q = Some x → q ≠ pos →
  let L' := <[q := temp]> (<[pos := x]> L) in
  ∃ mem', BinaryHeap.note_position x pos (h, mem) = Done tt (h, mem') ∧
    hole_inv L' mem' q temp ∧ effect L mem mem' ∧ L' ≡ₚ L.
Proof.
  intros [Hat Htr Hlive Hfresh] Hq Hne L'.
  assert (pos < length L)%nat as Hposl by by eapply lookup_lt_Some.
  assert (q < length L)%nat as Hql by by eapply lookup_lt_Some.
  assert (L' ≡ₚ L) as Hperm by by apply Permutation_insert_swap.
  assert (∀ i y, i ≠ q → L' !! i = Some y →
    (i = pos ∧ y = x) ∨ (i ≠ pos ∧ L !! i = Some y)) as HL'.
  { intros i y Hi HLi. unfold L' in HLi. rewrite list_lookup_insert_ne in HLi by done.
    apply list_lookup_insert_Some in HLi as [(? & ? & _)|(? & ?)]; [left|right]; split; congruence. }
  assert (L' !! q = Some temp) as HL'q
    by (unfold L'; apply list_lookup_insert_eq; by rewrite length_insert).
  unfold BinaryHeap.note_position. cbn.
  destruct (position_ref_ x) as [l|] eqn:El; cycle 1.
  { exists mem. split; [done|]. split; [|by split; [apply effect_refl|]].
    split; [done| |done|]; intros i y l Hi HLi Hl;
      destruct (HL' i y Hi HLi) as [[-> ->]|[Hip HLi']]; try congruence; eauto. }
  pose proof (Htr q x l Hne Hq El) as Hload. rewrite Hload. eexists. split; [done|].
  split; [|split; [apply (note_effect L x); [by eapply list_elem_of_lookup_2|done]|done]].
  split; [done| | |].
  - intros i y l' Hi HLi Hl'. rewrite load_store.
    destruct (HL' i y Hi HLi) as [[-> ->]|[Hip HLi']].
    + assert (l' = l) as -> by congruence. by rewrite decide_True, Hload.
    + pose proof (Htr i y l' Hip HLi' Hl') as Hl2. rewrite decide_False; [done|].
      intros ->. apply Hi. apply Nat2Z.inj. congruence.
  - intros l' Hl'. apply load_store_is_Some. auto.
  - intros i y l' Hi HLi Hl'. destruct (HL' i y Hi HLi) as [[-> ->]|[Hip HLi']]; eauto.
Qed.
End HeapLemmas.

(** ** Heap order *)

(** [std::less] on the value type: a strict weak order. *)
Class CompareLaws {T : Type} (compare_ : T → T → bool) := {
  compare_asym x y : compare_ x y = true → compare_ y x = false;
  compare_neg_trans x y z : compare_ x y = false → compare_ y z = false → compare_ x z = false;
}.

#[export] Instance ltb_laws : CompareLaws Z.ltb.
Proof. split; intros *; rewrite ?Z.ltb_lt, ?Z.ltb_ge; lia. Qed.

Section OrderLemmas.
Context {LP : LockPolicy} {T Mem : Type} `{PosMemLaws Mem}
  (compare_ : T → T → bool) `{!CompareLaws compare_}.
Implicit Types (L items : list (HeapItem T)) (mem : Mem) (x temp : HeapItem T).

(** The item at [c] does not go before the one at [p]. *)
Definition edge L (c p : nat) : Prop := ∀ x y,
  L !! c = Some x → L !! p = Some y → compare_ (value_ x) (value_ y) = false.

Definition heap_ordered L : Prop := ∀ i, (0 < i)%nat → edge L i (parent i).

(** Ordered but for the hole and its parent; but for the hole and its children. *)
Definition up_inv L pos : Prop :=
  (∀ i, (0 < i)%nat → i ≠ pos → edge L i (parent i)) ∧
  ((0 < pos)%nat → ∀ c, (0 < c)%nat → parent c = pos → edge L c (parent pos)).
Definition down_inv L pos : Prop :=
  (∀ i, (0 < i)%nat → parent i ≠ pos → edge L i (parent i)) ∧
  ((0 < pos)%nat → ∀ c, (0 < c)%nat → parent c = pos → edge L c (parent pos)).

Lemma compare_irrefl v : compare_ v v = false.
Proof. destruct (compare_ v v) eqn:E; [|done]. by rewrite (compare_asym _ _ E) in E. Qed.

Lemma swapped_lookup L pos q temp x i :
  (pos < length L)%nat → (q < length L)%nat →
  <[q := temp]> (<[pos := x]> L) !! i =
  if decide (i = q) then Some temp else if decide (i = pos) then Some x else L !! i.
Proof.
  intros Hpos Hq. repeat case_decide; subst.
  - by apply list_lookup_insert_eq; rewrite length_insert.
  - rewrite list_lookup_insert_ne by done. by apply list_lookup_insert_eq.
  - by rewrite !list_lookup_insert_ne by done.
Qed.

Lemma up_step L pos temp x :
  (0 < pos)%nat → L !! pos = Some temp → L !! parent pos = Some x →
  compare_ (value_ temp) (value_ x) = true → up_inv L pos →
  up_inv (<[parent pos := temp]> (<[pos := x]> L)) (parent pos).
Proof.
  intros Hpos Hat Hpar Hlt [He Hc].
  pose proof (lookup_lt_Some _ _ _ Hat) as Hl1. pose proof (lookup_lt_Some _ _ _ Hpar) as Hl2.
  pose proof (parent_lt pos Hpos) as Hpp. pose proof (compare_asym _ _ Hlt) as Hge.
  split.
  - intros i Hi Hne y z. pose proof (parent_lt i Hi).
    rewrite !swapped_lookup by done. rewrite (decide_False (P := i = _)) by done.
    destruct (decide (i = pos)) as [->|Hip].
    { rewrite decide_True by done. by intros [= <-] [= <-]. }
    repeat case_decide; try lia; intros Hy Hz; simplify_eq.
    + assert (compare_ (value_ y) (value_ x) = false) as Hyx
        by (apply (He i Hi Hip); congruence). by eapply compare_neg_trans.
    + apply (Hc Hpos i Hi eq_refl); congruence.
    + by apply (He i Hi Hip).
  - intros Hq c Hc0 Hcq y z. pose proof (parent_lt (parent pos) Hq).
    pose proof (parent_lt c Hc0). rewrite !swapped_lookup by done.
    repeat case_decide; try lia; intros Hy Hz; simplify_eq.
    + by apply (He (parent pos)); try lia.
    + assert (compare_ (value_ y) (value_ x) = false) as Hyx
        by (apply (He c); [done|done|done|congruence]).
      assert (compare_ (value_ x) (value_ z) = false) as Hxz
        by (apply (He (parent pos)); [done|lia|done|done]).
      by eapply compare_neg_trans.
Qed.

Lemma up_done L pos temp x :
  (0 < pos)%nat → L !! pos = Some temp → L !! parent pos = Some x →
  compare_ (value_ temp) (value_ x) = false → up_inv L pos → heap_ordered L.
Proof.
  intros Hpos Hat Hpar Hge [He _] i Hi. destruct (decide (i = pos)) as [->|]; [|by apply He].
  intros y z Hy Hz. congruence.
Qed.

Lemma up_root L : up_inv L 0 → heap_ordered L.
Proof. intros [He _] i Hi. apply He; lia. Qed.

Lemma down_step L pos q temp x :
  L !! pos = Some temp → L !! q = Some x → (0 < q)%nat → parent q = pos →
  compare_ (value_ temp) (value_ x) = false →
  (∀ c, (0 < c)%nat → parent c = pos → edge L c q) →
  down_inv L pos → down_inv (<[q := temp]> (<[pos := x]> L)) q.
Proof.
  intros Hat Hq Hq0 Hpq Hge Hmin [He Hc].
  pose proof (lookup_lt_Some _ _ _ Hat) as Hl1. pose proof (lookup_lt_Some _ _ _ Hq) as Hl2.
  pose proof (parent_lt q Hq0) as Hlt. split.
  - intros i Hi Hne y z. pose proof (parent_lt i Hi).
    rewrite !swapped_lookup by done. rewrite (decide_False (P := parent i = _)) by done.
    destruct (decide (i = q)) as [->|Hiq].
    { rewrite decide_True by done. by intros [= <-] [= <-]. }
    destruct (decide (i = pos)) as [->|Hip].
    + rewrite decide_False by lia. intros Hy Hz. simplify_eq.
      eapply (Hc ltac:(lia) q); eauto.
    + case_decide; intros Hy Hz; simplify_eq; [by eapply (Hmin i)|by apply (He i)].
  - intros _ c Hc0 Hcq y z. pose proof (parent_lt c Hc0). rewrite !swapped_lookup by done.
    repeat case_decide; try lia; intros Hy Hz; simplify_eq.
    apply (He c Hc0); [lia|done|congruence].
Qed.

(** The order an array has when only the item at [pos] was replaced. *)
Definition near_ordered L pos : Prop :=
  (∀ i, (0 < i)%nat → i ≠ pos → parent i ≠ pos → edge L i (parent i)) ∧
  ((0 < pos)%nat → ∀ c, (0 < c)%nat → parent c = pos → edge L c (parent pos)).

Lemma near_ordered_up L pos x p :
  near_ordered L pos → (0 < pos)%nat → L !! pos = Some x → L !! parent pos = Some p →
  compare_ (value_ x) (value_ p) = true → up_inv L pos.
Proof.
  intros [He Hc] Hpos Hx Hp Hlt. split; [|done]. intros i Hi Hne.
  destruct (decide (parent i = pos)) as [Hpi|]; [|by apply He].
  intros y z Hy Hz. rewrite Hpi, Hx in Hz. simplify_eq.
  eapply compare_neg_trans; [by eapply (Hc Hpos i Hi eq_refl)|by apply compare_asym].
Qed.

Lemma near_ordered_down L pos :
  near_ordered L pos → ((0 < pos)%nat → edge L pos (parent pos)) → down_inv L pos.
Proof.
  intros [He Hc] Hp. split; [|done]. intros i Hi Hne.
  destruct (decide (i = pos)) as [->|]; [by apply Hp|by apply He].
Qed.

Lemma heap_ordered_replace L pos x : heap_ordered L → near_ordered (<[pos := x]> L) pos.
Proof.
  intros Ho. split.
  - intros i Hi Hne Hpi y z. rewrite !list_lookup_insert_ne by done. by apply Ho.
  - intros Hpos c Hc Hpc y z. pose proof (parent_lt c Hc). pose proof (parent_lt pos Hpos).
    rewrite !list_lookup_insert_ne by lia. intros Hy Hz.
    assert (is_Some (L !! pos)) as [w Hw].
    { apply lookup_lt_is_Some_2. apply lookup_lt_Some in Hy. lia. }
    eapply compare_neg_trans; [by apply (Ho c Hc y w); [|congruence]|by apply (Ho pos Hpos)].
Qed.

(** The root of an ordered heap comes first. *)
Lemma heap_root_first L r : heap_ordered L → L !! 0%nat = Some r →
  ∀ i x, L !! i = Some x → compare_ (value_ x) (value_ r) = false.
Proof.
  intros Ho Hr i. induction (lt_wf i) as [i _ IH]. intros x Hx.
  destruct (decide (i = 0%nat)) as [->|]; [simplify_eq; apply compare_irrefl|].
  pose proof (parent_lt i ltac:(lia)) as Hlt.
  assert (is_Some (L !! parent i)) as [p Hp].
  { apply lookup_lt_is_Some_2. apply lookup_lt_Some in Hx. lia. }
  eapply compare_neg_trans; [by apply (Ho i ltac:(lia) x p)|by eapply IH].
Qed.
End OrderLemmas.

(** ** Sifting *)
Section SiftLemmas.
Context {LP : LockPolicy} {T Mem : Type} `{PosMemLaws Mem}
  (compare_ : T → T → bool) `{!CompareLaws compare_}.
Implicit Types (L items : list (HeapItem T)) (mem : Mem) (x temp : HeapItem T).

Lemma item_Done items mx mem i x :
  items !! i = Some x →
  BinaryHeap.item i (mkBinaryHeap items mx, mem) = Done x (mkBinaryHeap items mx, mem).
Proof. intros Hx. unfold BinaryHeap.item. cbn. by rewrite Hx. Qed.

(** What a loop leaves: the place for [temp], and an ordered, tracked array. *)
Definition sifted L mem temp (r : outcome (BinaryHeap T * Mem) nat) mx : Prop :=
  ∃ items' mem' pos', r = Done pos' (mkBinaryHeap items' mx, mem') ∧
    (pos' < length items')%nat ∧ heap_ordered compare_ (<[pos' := temp]> items') ∧
    <[pos' := temp]> items' ≡ₚ L ∧ hole_inv (<[pos' := temp]> items') mem' pos' temp ∧
    effect L mem mem'.

Lemma sifted_here items mx mem pos temp :
  (pos < length items)%nat → heap_ordered compare_ (<[pos := temp]> items) →
  hole_inv (<[pos := temp]> items) mem pos temp →
  sifted (<[pos := temp]> items) mem temp (Done pos (mkBinaryHeap items mx, mem)) mx.
Proof. intros. exists items, mem, pos. split_and!; try done. apply effect_refl. Qed.

Lemma sifted_step items mx mem pos q temp x (k : M (BinaryHeap T * Mem) nat) :
  (pos < length items)%nat → items !! q = Some x → q ≠ pos →
  hole_inv (<[pos := temp]> items) mem pos temp →
  (∀ mem', let items1 := <[pos := x]> items in
     (q < length items1)%nat → hole_inv (<[q := temp]> items1) mem' q temp →
     sifted (<[q := temp]> items1) mem' temp (k (mkBinaryHeap items1 mx, mem')) mx) →
  sifted (<[pos := temp]> items) mem temp
    ((BinaryHeap.set_item pos x ;; BinaryHeap.note_position x pos ;; k)
       (mkBinaryHeap items mx, mem)) mx.
Proof.
  intros Hpos Hq Hne Hhole Hk.
  destruct (hole_move (<[pos := temp]> items) mem pos q temp x
    (mkBinaryHeap (<[pos := x]> items) mx)) as (mem1 & Hrun & Hhole1 & Heff & Hperm); [done| |done|].
  { by rewrite list_lookup_insert_ne. }
  rewrite list_insert_insert_eq in Hhole1, Hperm.
  assert (BinaryHeap.set_item pos x (mkBinaryHeap items mx, mem)
    = Done tt (mkBinaryHeap (<[pos := x]> items) mx, mem)) as Hset by done.
  rewrite (bind_Done _ _ _ _ _ Hset), (bind_Done _ _ _ _ _ Hrun).
  destruct (Hk mem1) as (items' & mem' & pos' & Hr & Hlt & Ho & Hp & Hh & He).
  { rewrite length_insert. by eapply lookup_lt_Some. }
  { done. }
  exists items', mem', pos'. split_and!; try done.
  - by rewrite Hp.
  - by eapply effect_trans.
Qed.

Lemma sift_up_loop_spec fuel : ∀ items mx mem pos temp,
  (pos < fuel)%nat → (pos < length items)%nat →
  up_inv compare_ (<[pos := temp]> items) pos → hole_inv (<[pos := temp]> items) mem pos temp →
  sifted (<[pos := temp]> items) mem temp
    (BinaryHeap.sift_up_loop compare_ fuel temp pos (mkBinaryHeap items mx, mem)) mx.
Proof.
  induction fuel as [|fuel IH]; intros items mx mem pos temp Hf Hpos Hup Hhole; [lia|].
  cbn [BinaryHeap.sift_up_loop]. destruct (Nat.ltb_spec 0 pos) as [Hp0|Hp0]; cycle 1.
  { assert (pos = 0%nat) as -> by lia. apply sifted_here; [done|by apply up_root|done]. }
  pose proof (parent_lt pos Hp0) as Hpp.
  destruct (lookup_lt_is_Some_2 items (parent pos)) as [x Hx]; [lia|].
  assert (<[pos := temp]> items !! parent pos = Some x) as Hx'
    by (rewrite list_lookup_insert_ne by lia; done).
  rewrite (bind_Done _ _ _ _ _ (item_Done items mx mem _ x Hx)).
  destruct (compare_ (value_ temp) (value_ x)) eqn:Ec; cbn [negb].
  - apply sifted_step with (q := parent pos); [done|done|lia|done|]. intros mem' items1 Hl Hh.
    apply IH; [lia|done| |done]. subst items1. rewrite <- (list_insert_insert_eq items pos x temp).
    apply up_step; [done..|exact (hole_at _ _ _ _ Hhole)|done|done|done].
  - apply sifted_here; [done| |done].
    by eapply (up_done compare_); [| apply (hole_at _ _ _ _ Hhole)|..].
Qed.

Lemma child_before_Done items mx mem i v :
  BinaryHeap.child_before compare_ (length items) i v (mkBinaryHeap items mx, mem)
  = Done (match items !! i with Some x => compare_ (value_ x) v | None => false end)
      (mkBinaryHeap items mx, mem).
Proof.
  unfold BinaryHeap.child_before. destruct (Nat.ltb_spec i (length items)) as [Hi|Hi].
  - destruct (lookup_lt_is_Some_2 items i Hi) as [x Hx].
    by rewrite (bind_Done _ _ _ _ _ (item_Done items mx mem _ x Hx)), Hx.
  - by rewrite lookup_ge_None_2.
Qed.

(** What the sift takes from the children of [pos]: [pos] itself or a child that goes
    before the moving item, and no child goes before it. *)
Definition least_child items pos (temp : HeapItem T) (q : nat) : Prop :=
  (q = pos ∨ (pos < q)%nat ∧ parent q = pos ∧ ∃ x, items !! q = Some x ∧ compare_ (value_ x) (value_ temp) = true) ∧
  ∀ c, (0 < c)%nat → parent c = pos → edge compare_ (<[pos := temp]> items) c q.

Lemma least_edges items pos temp q y :
  <[pos := temp]> items !! q = Some y →
  (∀ x, items !! left_child pos = Some x → compare_ (value_ x) (value_ y) = false) →
  (∀ x, items !! right_child pos = Some x → compare_ (value_ x) (value_ y) = false) →
  ∀ c, (0 < c)%nat → parent c = pos → edge compare_ (<[pos := temp]> items) c q.
Proof.
  intros Hq Hl Hr c Hc0 Hcp x y' Hx Hy. pose proof (parent_lt c Hc0). assert (y' = y) as -> by congruence.
  rewrite list_lookup_insert_ne in Hx by lia.
  destruct (parent_child c Hc0) as [Hcl|Hcr]; rewrite Hcp in *; subst c; eauto.
Qed.

(** The right child against the one chosen so far, [q] with the item [y]. *)
Lemma right_spec items mx mem pos temp q y :
  (pos < length items)%nat → (q = pos ∧ y = temp ∨ q = left_child pos ∧ items !! q = Some y ∧ compare_ (value_ y) (value_ temp) = true) →
  (∀ x, items !! left_child pos = Some x → compare_ (value_ x) (value_ y) = false) →
  ∃ q', (b ← BinaryHeap.child_before compare_ (length items) (right_child pos) (value_ y);
         mret (if b : bool then right_child pos else q)) (mkBinaryHeap items mx, mem) = Done q' (mkBinaryHeap items mx, mem) ∧
    least_child items pos temp q'.
Proof.
  intros Hpos Hq Hl. rewrite (bind_Done _ _ _ _ _ (child_before_Done items mx mem _ _)).
  assert (pos < left_child pos ∧ pos < right_child pos)%nat as [Hpl Hpr] by (unfold left_child, right_child; lia).
  assert (compare_ (value_ temp) (value_ y) = false) as Hty
    by (destruct Hq as [[_ ->]|(_ & _ & Hy)]; [by apply compare_irrefl|by apply compare_asym]).
  assert ((∀ x, items !! right_child pos = Some x → compare_ (value_ x) (value_ y) = false) → least_child items pos temp q) as Hkeep.
  { intros Hr. split.
    - destruct Hq as [[-> _]|(-> & Hq & Hy)]; [by left|right]. split; [done|]. split; [apply parent_left|by exists y].
    - apply (least_edges _ _ _ _ y); [|done|done].
      destruct Hq as [[-> ->]|(-> & Hq & _)]; [by rewrite list_lookup_insert_eq|by rewrite list_lookup_insert_ne by lia]. }
  destruct (items !! right_child pos) as [xr|] eqn:Er; [destruct (compare_ (value_ xr) (value_ y)) eqn:Ecr|].
  - exists (right_child pos). split; [done|]. split.
    + right. split; [done|]. split; [apply parent_right|]. exists xr. split; [done|].
      destruct (compare_ (value_ xr) (value_ temp)) eqn:E; [done|]. pose proof (compare_neg_trans _ _ _ E Hty). congruence.
    + apply (least_edges _ _ _ _ xr); [by rewrite list_lookup_insert_ne by lia| |].
      * intros x Hx. eapply compare_neg_trans; [by apply Hl|by apply compare_asym].
      * intros x Hx. rewrite Er in Hx. injection Hx as <-. by apply compare_irrefl.
  - exists q. split; [done|]. apply Hkeep. by intros x [= <-].
  - exists q. split; [done|]. by apply Hkeep.
Qed.

(** The choice of [min_pos]: no child of [pos] goes before it. *)
Lemma min_child_spec items mx mem pos temp :
  (pos < length items)%nat →
  ∃ q, BinaryHeap.min_child compare_ (length items) temp pos (mkBinaryHeap items mx, mem)
       = Done q (mkBinaryHeap items mx, mem) ∧ least_child items pos temp q.
Proof.
  intros Hpos. unfold BinaryHeap.min_child.
  rewrite (bind_Done _ _ _ _ _ (child_before_Done items mx mem _ _)).
  assert (pos < left_child pos)%nat as Hpl by (unfold left_child; lia).
  destruct (items !! left_child pos) as [xl|] eqn:El; [destruct (compare_ (value_ xl) (value_ temp)) eqn:Ecl|].
  - rewrite (proj2 (Nat.eqb_neq _ _)) by lia.
    assert ((x ← BinaryHeap.item (Mem := Mem) (left_child pos); mret (value_ x))
      (mkBinaryHeap items mx, mem) = Done (value_ xl) (mkBinaryHeap items mx, mem)) as Hv
      by by rewrite (bind_Done _ _ _ _ _ (item_Done items mx mem _ xl El)).
    rewrite (bind_Done _ _ _ _ _ Hv). apply right_spec; [done|by right|].
    intros x Hx. rewrite El in Hx. injection Hx as <-. by apply compare_irrefl.
  - rewrite Nat.eqb_refl, (bind_ret (S := BinaryHeap T * Mem)). apply right_spec; [done|by left|congruence].
  - rewrite Nat.eqb_refl, (bind_ret (S := BinaryHeap T * Mem)). apply right_spec; [done|by left|congruence].
Qed.

Lemma sift_down_loop_spec fuel : ∀ items mx mem pos temp,
  (length items < fuel + pos)%nat → (pos < length items)%nat →
  down_inv compare_ (<[pos := temp]> items) pos → hole_inv (<[pos := temp]> items) mem pos temp →
  sifted (<[pos := temp]> items) mem temp
    (BinaryHeap.sift_down_loop compare_ fuel (length items) temp pos (mkBinaryHeap items mx, mem)) mx.
Proof.
  induction fuel as [|fuel IH]; intros items mx mem pos temp Hf Hpos Hdown Hhole; [lia|].
  cbn [BinaryHeap.sift_down_loop].
  destruct (min_child_spec items mx mem pos temp Hpos) as (q & Hq & Hcase & Hmin).
  rewrite (bind_Done _ _ _ _ _ Hq). destruct Hcase as [->|(Hlt & Hpar & x & Hx & Hcmp)].
  - rewrite Nat.eqb_refl. apply sifted_here; [done| |done]. intros i Hi.
    destruct (decide (parent i = pos)) as [Hp|]; [|by apply Hdown]. rewrite Hp. by apply Hmin.
  - rewrite (proj2 (Nat.eqb_neq _ _)) by lia.
    rewrite (bind_Done _ _ _ _ _ (item_Done items mx mem _ x Hx)).
    apply sifted_step with (q := q); [done|done|lia|done|]. intros mem' items1 Hl Hh.
    replace (length items) with (length items1) by (subst items1; by rewrite length_insert).
    apply IH; [subst items1; rewrite length_insert; lia|done| |done].
    subst items1. rewrite <- (list_insert_insert_eq items pos x temp).
    apply down_step; [apply (hole_at _ _ _ _ Hhole)| |lia|done|by apply compare_asym|done|done].
    by rewrite list_lookup_insert_ne by lia.
Qed.

(** From a loop to the whole of [sift_up] or [sift_down]: the array is ordered
    and tracked again, and holds the same items. *)
Definition restored items mx mem (r : outcome (BinaryHeap T * Mem) unit) : Prop :=
  ∃ items' mem', r = Done tt (mkBinaryHeap items' mx, mem') ∧
    heap_ordered compare_ items' ∧ items' ≡ₚ items ∧ tracked items' mem' ∧ effect items mem mem'.

Lemma sift_close (loop : M (BinaryHeap T * Mem) nat) items mx mem temp :
  sifted items mem temp (loop (mkBinaryHeap items mx, mem)) mx →
  restored items mx mem
    ((pos ← loop; BinaryHeap.set_item pos temp ;; BinaryHeap.note_position temp pos)
       (mkBinaryHeap items mx, mem)).
Proof.
  intros (items' & mem' & pos' & Hrun & Hlt & Ho & Hp & Hh & He).
  rewrite (bind_Done _ _ _ _ _ Hrun).
  destruct (hole_close _ _ _ _ (mkBinaryHeap (<[pos' := temp]> items') mx) Hh)
    as (mem2 & Hnote & Ht & He2).
  assert (BinaryHeap.set_item pos' temp (mkBinaryHeap items' mx, mem')
    = Done tt (mkBinaryHeap (<[pos' := temp]> items') mx, mem')) as Hset by done.
  rewrite (bind_Done _ _ _ _ _ Hset), Hnote.
  exists (<[pos' := temp]> items'), mem2. split_and!; try done. by eapply effect_trans.
Qed.

Lemma sift_up_spec items mx mem pos temp :
  items !! pos = Some temp → up_inv compare_ items pos → hole_inv items mem pos temp →
  restored items mx mem (BinaryHeap.sift_up compare_ pos (mkBinaryHeap items mx, mem)).
Proof.
  intros Hat Hup Hh. unfold BinaryHeap.sift_up.
  rewrite (bind_Done _ _ _ _ _ (item_Done items mx mem _ temp Hat)). apply sift_close.
  pose proof (lookup_lt_Some _ _ _ Hat).
  pose proof (sift_up_loop_spec (S pos) items mx mem pos temp) as Hloop.
  rewrite (list_insert_id items pos temp Hat) in Hloop. apply Hloop; [lia|done..].
Qed.

Lemma sift_down_spec items mx mem pos temp :
  items !! pos = Some temp → down_inv compare_ items pos → hole_inv items mem pos temp →
  restored items mx mem (BinaryHeap.sift_down compare_ pos (mkBinaryHeap items mx, mem)).
Proof.
  intros Hat Hdown Hh. unfold BinaryHeap.sift_down.
  rewrite (bind_Done _ _ _ _ _ (item_Done items mx mem _ temp Hat)).
  assert (get (mkBinaryHeap items mx, mem) = Done (mkBinaryHeap items mx, mem) (mkBinaryHeap items mx, mem))
    as Hget by done. rewrite (bind_Done _ _ _ _ _ Hget). apply sift_close.
  pose proof (lookup_lt_Some _ _ _ Hat).
  pose proof (sift_down_loop_spec (S (length items)) items mx mem pos temp) as Hloop.
  rewrite (list_insert_id items pos temp Hat) in Hloop. apply Hloop; [lia|done..].
Qed.
End SiftLemmas.

(** ** The public operations *)
Section Operations.
Context {LP : LockPolicy} {T Mem : Type} `{PosMemLaws Mem}
  (compare_ : T → T → bool) `{!CompareLaws compare_}.
Implicit Types (items : list (HeapItem T)) (mem : Mem) (x : HeapItem T) (h : BinaryHeap T).

(** The invariant between calls. *)
Record heap_ok h mem : Prop := {
  hok_free : heap_mutex_ h = [];
  hok_ordered : heap_ordered compare_ (items_ h);
  hok_tracked : tracked (items_ h) mem;
}.

Lemma heap_ok_nil mem : heap_ok (mkBinaryHeap [] []) mem.
Proof.
  split; [done| |].
  - intros i Hi x y Hx. cbn in Hx. by rewrite lookup_nil in Hx.
  - intros i x l Hx. cbn in Hx. by rewrite lookup_nil in Hx.
Qed.

Lemma guarded_restored md (body : M (BinaryHeap T * Mem) unit) items items0 mem :
  restored compare_ items [md] mem (body (mkBinaryHeap items0 [md], mem)) →
  ∃ h' mem', guarded md body (mkBinaryHeap items0 [], mem) = Done tt (h', mem') ∧
    heap_ok h' mem' ∧ items_ h' ≡ₚ items ∧ effect items mem mem'.
Proof.
  intros (items' & mem' & Hrun & Ho & Hp & Ht & He).
  exists (mkBinaryHeap items' []), mem'. rewrite guarded_free by done.
  cbn [set_mtx BinaryHeap_mutex fst snd items_]. by rewrite Hrun.
Qed.

(** Appending an item whose pointer is live and not yet in the heap. *)
Lemma appended items mem x :
  heap_ordered compare_ items → tracked items mem →
  (∀ l, position_ref_ x = Some l →
     is_Some (load_pos l mem) ∧ ∀ y, y ∈ items → position_ref_ y ≠ Some l) →
  up_inv compare_ (items ++ [x]) (length items) ∧ hole_inv (items ++ [x]) mem (length items) x.
Proof.
  intros Ho Ht Hx.
  assert (∀ i y, i ≠ length items → (items ++ [x]) !! i = Some y → items !! i = Some y) as Hi.
  { intros i y Hne Hy. apply lookup_app_Some in Hy as [?|[Hle Hy]]; [done|].
    apply list_lookup_singleton_Some in Hy as [? _]. lia. }
  split; [split|split].
  - intros i Hi0 Hne y z Hy Hz. pose proof (parent_lt i Hi0). pose proof (Hi _ _ Hne Hy) as Hy'.
    pose proof (lookup_lt_Some _ _ _ Hy'). apply (Ho i Hi0 y z Hy'). apply Hi; [lia|done].
  - intros _ c Hc Hpc y z Hy. pose proof (parent_lt c Hc). apply lookup_lt_Some in Hy.
    rewrite length_app in Hy. cbn in Hy. lia.
  - by apply list_lookup_middle.
  - intros i y l Hne Hy. apply Ht. by apply Hi.
  - intros l Hl. by apply Hx.
  - intros i y l Hne Hy Hl Hl'. destruct (Hx l Hl') as [_ Hf].
    apply (Hf y); [|done]. eapply list_elem_of_lookup_2. by apply Hi.
Qed.

Lemma push_spec h mem x :
  heap_ok h mem →
  (∀ l, position_ref_ x = Some l →
     is_Some (load_pos l mem) ∧ ∀ y, y ∈ items_ h → position_ref_ y ≠ Some l) →
  ∃ h' mem', BinaryHeap.push compare_ x (h, mem) = Done tt (h', mem') ∧
    heap_ok h' mem' ∧ items_ h' ≡ₚ x :: items_ h ∧ effect (x :: items_ h) mem mem'.
Proof.
  intros [Hfree Ho Ht] Hx. destruct h as [items mx]. cbn in *. subst mx.
  destruct (appended items mem x Ho Ht Hx) as [Hup Hhole].
  destruct (guarded_restored Un
    (BinaryHeap.push_back x ;; s ← get; BinaryHeap.sift_up compare_ (length (items_ s.1) - 1))
    (items ++ [x]) items mem) as (h' & mem' & Hrun & Hok & Hp & He).
  - unfold BinaryHeap.push_back. munfold. cbn [fst snd items_ heap_mutex_].
    rewrite length_app. cbn [length]. replace (length items + 1 - 1)%nat with (length items) by lia.
    apply (sift_up_spec compare_ _ _ _ _ x); [by apply list_lookup_middle|done|done].
  - exists h', mem'. split; [exact Hrun|]. split; [done|].
    assert (x :: items ≡ₚ items ++ [x]) as Hpx by (by rewrite Permutation_app_comm).
    split; [by rewrite Hpx|]. by eapply effect_perm.
Qed.

(** An item that does not go before its parent stays where it is appended. *)
Lemma push_stays h mem x :
  heap_ok h mem →
  (∀ l, position_ref_ x = Some l →
     is_Some (load_pos l mem) ∧ ∀ y, y ∈ items_ h → position_ref_ y ≠ Some l) →
  (∀ y, y ∈ items_ h → compare_ (value_ x) (value_ y) = false) →
  ∃ mem', BinaryHeap.push compare_ x (h, mem) = Done tt (mkBinaryHeap (items_ h ++ [x]) [], mem') ∧
    heap_ordered compare_ (items_ h ++ [x]) ∧ tracked (items_ h ++ [x]) mem' ∧
    effect (x :: items_ h) mem mem'.
Proof.
  intros [Hfree Ho Ht] Hx Hge. destruct h as [items mx]. cbn in *. subst mx.
  destruct (appended items mem x Ho Ht Hx) as [Hup Hhole].
  assert ((items ++ [x]) !! length items = Some x) as Hat by by apply list_lookup_middle.
  destruct (hole_close _ _ _ _ (mkBinaryHeap (items ++ [x]) [Un]) Hhole) as (mem' & Hnote & Ht' & He).
  exists mem'. split.
  - unfold BinaryHeap.push. rewrite guarded_free by done. unfold BinaryHeap.push_back. munfold.
    cbn [fst snd items_ heap_mutex_ set_mtx BinaryHeap_mutex].
    rewrite length_app. cbn [length]. replace (length items + 1 - 1)%nat with (length items) by lia.
    unfold BinaryHeap.sift_up.
    rewrite (bind_Done _ _ _ _ _ (item_Done (items ++ [x]) [Un] mem _ x Hat)).
    assert (BinaryHeap.sift_up_loop compare_ (S (length items)) x (length items)
      (mkBinaryHeap (items ++ [x]) [Un], mem)
      = Done (length items) (mkBinaryHeap (items ++ [x]) [Un], mem)) as Hloop.
    { cbn [BinaryHeap.sift_up_loop]. destruct (Nat.ltb_spec 0 (length items)) as [Hl|Hl]; [|done].
      pose proof (parent_lt _ Hl).
      destruct (lookup_lt_is_Some_2 items (parent (length items))) as [y Hy]; [done|].
      rewrite (bind_Done _ _ _ _ _ (item_Done (items ++ [x]) [Un] mem _ y
        ltac:(by rewrite lookup_app_l))).
      by rewrite Hge by by eapply list_elem_of_lookup_2. }
    rewrite (bind_Done _ _ _ _ _ Hloop). unfold BinaryHeap.set_item. munfold.
    cbn [fst snd items_ heap_mutex_]. rewrite list_insert_id by done. by rewrite Hnote.
  - split.
    + intros i Hi y z Hy Hz. destruct (decide (i = length items)) as [->|Hne];
        [|exact (proj1 Hup i Hi Hne y z Hy Hz)].
      rewrite Hat in Hy. simplify_eq. pose proof (parent_lt _ Hi).
      rewrite lookup_app_l in Hz by done. apply Hge. by eapply list_elem_of_lookup_2.
    + split; [done|]. eapply effect_perm; [|done]. by rewrite Permutation_app_comm.
Qed.

(** An array in which only one item was replaced, pointers kept. *)
Lemma update_spec items mem pos x :
  items !! pos = Some x → near_ordered compare_ items pos → tracked items mem →
  ∃ h' mem', BinaryHeap.update compare_ pos (mkBinaryHeap items [], mem) = Done tt (h', mem') ∧
    heap_ok h' mem' ∧ items_ h' ≡ₚ items ∧ effect items mem mem'.
Proof.
  intros Hx Hnear Ht. pose proof (lookup_lt_Some _ _ _ Hx) as Hlt.
  pose proof (tracked_hole _ _ _ _ Ht Hx) as Hhole.
  apply guarded_restored. munfold. cbn [fst snd items_].
  rewrite (proj2 (Nat.leb_gt _ _)) by done.
  destruct (Nat.ltb_spec 0 pos) as [Hp|Hp]; cycle 1.
  { apply (sift_down_spec compare_ _ _ _ _ x); [done| |done].
    apply near_ordered_down; [done|lia]. }
  pose proof (parent_lt pos Hp).
  destruct (lookup_lt_is_Some_2 items (parent pos)) as [p Hpar]; [lia|].
  rewrite (item_Done items _ mem _ x Hx), (item_Done items _ mem _ p Hpar).
  destruct (compare_ (value_ x) (value_ p)) eqn:Ec.
  - apply (sift_up_spec compare_ _ _ _ _ x); [done| |done]. by eapply near_ordered_up.
  - apply (sift_down_spec compare_ _ _ _ _ x); [done| |done].
    apply near_ordered_down; [done|]. intros _ y z Hy Hz. congruence.
Qed.

(** Popping the root of an array of more than one item. *)
Lemma root_replaced r mid back mem :
  heap_ordered compare_ (r :: mid ++ [back]) → tracked (r :: mid ++ [back]) mem →
  down_inv compare_ (back :: mid) 0 ∧ hole_inv (back :: mid) mem 0 back.
Proof.
  intros Ho Ht.
  assert (∀ i y, i ≠ 0%nat → (back :: mid) !! i = Some y → (r :: mid ++ [back]) !! i = Some y) as Hi.
  { intros [|i] y Hne Hy; [done|]. cbn in *. by apply lookup_app_l_Some. }
  assert ((r :: mid ++ [back]) !! S (length mid) = Some back) as Hback
    by (cbn; by apply list_lookup_middle).
  split; [split|split].
  - intros i Hi0 Hne y z Hy Hz. apply (Ho i Hi0); apply Hi; (done || lia).
  - lia.
  - done.
  - intros i y l Hne Hy. apply Ht. by apply Hi.
  - intros l Hl. rewrite (Ht _ _ _ Hback Hl). eauto.
  - intros i y l Hne Hy Hl Hl'. pose proof (Ht _ _ _ (Hi _ _ Hne Hy) Hl) as H1.
    pose proof (Ht _ _ _ Hback Hl') as H2. rewrite H1 in H2. apply lookup_lt_Some in Hy.
    cbn in Hy. assert (i = S (length mid)) by (apply Nat2Z.inj; congruence). lia.
Qed.

(** [empty] and [size] return when the mutex can be shared. *)
Lemma empty_Done items mx mem :
  relock_allowed = true ∨ Un ∉ mx →
  BinaryHeap.empty (mkBinaryHeap items mx, mem)
  = Done (bool_decide (items = [])) (mkBinaryHeap items mx, mem).
Proof.
  intros Hpol. unfold BinaryHeap.empty. by rewrite guarded_shared.
Qed.

Lemma size_Done items mx mem :
  relock_allowed = true ∨ Un ∉ mx →
  BinaryHeap.size (mkBinaryHeap items mx, mem)
  = Done (length items) (mkBinaryHeap items mx, mem).
Proof.
  intros Hpol. unfold BinaryHeap.size. by rewrite guarded_shared.
Qed.

Lemma pop_spec h mem r rest :
  relock_allowed = true → heap_ok h mem → items_ h = r :: rest →
  ∃ h' mem', BinaryHeap.pop compare_ (h, mem) = Done r (h', mem') ∧
    heap_ok h' mem' ∧ r :: items_ h' ≡ₚ items_ h ∧ effect rest mem mem'.
Proof.
  intros Hpol [Hfree Ho Ht] Hitems. destruct h as [items mx]. cbn in *. subst mx items.
  unfold BinaryHeap.pop. rewrite guarded_free by done. cbn [set_mtx BinaryHeap_mutex fst snd items_].
  rewrite (bind_Done _ _ _ _ _ (empty_Done _ [Un] mem (or_introl Hpol))).
  rewrite bool_decide_eq_false_2 by done.
  rewrite (bind_Done _ _ _ _ _ (item_Done (r :: rest) [Un] mem 0 r eq_refl)).
  rewrite (bind_Done _ _ _ _ _ (size_Done _ [Un] mem (or_introl Hpol))).
  destruct (decide (rest = [])) as [->|Hne].
  { exists (mkBinaryHeap [] []), mem. split; [done|].
    split; [apply heap_ok_nil|]. split; [done|apply effect_refl]. }
  destruct (exists_last Hne) as (mid & back & ->).
  rewrite (proj2 (Nat.ltb_lt _ _)) by (cbn; rewrite length_app; cbn; lia).
  unfold BinaryHeap.set_item, BinaryHeap.drop_back. munfold.
  cbn [fst snd items_ heap_mutex_].
  replace (length (r :: mid ++ [back]) - 1)%nat with (S (length mid))
    by (cbn [length]; rewrite length_app; cbn; lia).
  rewrite (item_Done _ _ mem _ back) by (cbn; by apply list_lookup_middle).
  cbn [fst snd items_ heap_mutex_ insert list_insert].
  change (back :: mid ++ [back]) with ((back :: mid) ++ [back]). rewrite removelast_last.
  destruct (root_replaced r mid back mem Ho Ht) as [Hdown Hhole].
  destruct (sift_down_spec compare_ (back :: mid) [Un] mem 0 back)
    as (items' & mem' & Hrun & Ho' & Hp & Ht' & He); [done..|].
  rewrite Hrun. exists (mkBinaryHeap items' []), mem'. split; [done|]. split; [done|].
  assert (back :: mid ≡ₚ mid ++ [back]) as Hpm by (by rewrite Permutation_app_comm).
  split; [by cbn; rewrite Hp, Hpm|]. by eapply effect_perm.
Qed.

(** Two items, the second of which goes first: every step written out. *)
Lemma push_second x1 x l1 l mem :
  position_ref_ x1 = Some l1 → position_ref_ x = Some l →
  compare_ (value_ x) (value_ x1) = true → is_Some (load_pos l1 mem) → is_Some (load_pos l mem) →
  BinaryHeap.push compare_ x (mkBinaryHeap [x1] [], mem)
  = Done tt (mkBinaryHeap [x; x1] [], store_pos l 0 (store_pos l1 1 mem)).
Proof.
  intros E1 E Hlt [z1 Hz1] Hl. unfold BinaryHeap.push. rewrite guarded_free by done.
  unfold BinaryHeap.push_back, BinaryHeap.sift_up, BinaryHeap.sift_up_loop, BinaryHeap.item,
    BinaryHeap.set_item. munfold. cbn. rewrite Hlt. cbn.
  unfold BinaryHeap.note_position. rewrite E1, E. cbn. rewrite Hz1. cbn.
  assert (is_Some (load_pos l (store_pos l1 1 mem))) as [z Hz] by by apply load_store_is_Some.
  change (Z.of_nat 1) with 1. by rewrite Hz.
Qed.

Lemma update_second x1 x l1 mem :
  position_ref_ x1 = Some l1 → compare_ (value_ x1) (value_ x) = false →
  is_Some (load_pos l1 mem) →
  BinaryHeap.update compare_ 1 (mkBinaryHeap [x; x1] [], mem)
  = Done tt (mkBinaryHeap [x; x1] [], store_pos l1 1 mem).
Proof.
  intros E1 Hge [z1 Hz1]. unfold BinaryHeap.update. rewrite guarded_free by done.
  munfold. unfold BinaryHeap.item at 1 2. cbn [fst snd items_ heap_mutex_ set_mtx BinaryHeap_mutex].
  cbn. rewrite Hge. unfold BinaryHeap.sift_down, BinaryHeap.sift_down_loop, BinaryHeap.min_child,
    BinaryHeap.child_before, BinaryHeap.item, BinaryHeap.set_item, BinaryHeap.note_position.
  munfold. cbn. rewrite E1, Hz1. done.
Qed.

Lemma at_Done h mem i x :
  heap_mutex_ h = [] → items_ h !! i = Some x → BinaryHeap.at_ i (h, mem) = Done x (h, mem).
Proof.
  destruct h as [items mx]. cbn. intros -> Hx. unfold BinaryHeap.at_.
  rewrite guarded_free by done. munfold. cbn [set_mtx BinaryHeap_mutex fst snd items_].
  rewrite (proj2 (Nat.leb_gt _ _)) by (by eapply lookup_lt_Some).
  by rewrite (item_Done _ _ mem _ x).
Qed.

Lemma at_set_value_Done h mem i x v :
  heap_mutex_ h = [] → items_ h !! i = Some x →
  BinaryHeap.at_set_value i v (h, mem)
  = Done tt (mkBinaryHeap (<[i := set_value v x]> (items_ h)) [], mem).
Proof.
  intros Hmx Hx. unfold BinaryHeap.at_set_value.
  rewrite (bind_Done _ _ _ _ _ (at_Done h mem i x Hmx Hx)).
  unfold BinaryHeap.set_item, modify. cbn. by rewrite Hmx.
Qed.

(** Replacing a value keeps the pointers. *)
Lemma tracked_set_value items mem i x v :
  items !! i = Some x → tracked items mem → tracked (<[i := set_value v x]> items) mem.
Proof.
  intros Hx Ht j y l Hy Hl. apply list_lookup_insert_Some in Hy as [(-> & <- & _)|[_ Hy]].
  - by apply (Ht j x l).
  - by apply (Ht j y l).
Qed.

Lemma set_and_update h mem i x v :
  heap_ok h mem → items_ h !! i = Some x →
  ∃ h' mem', (BinaryHeap.at_set_value i v ;; BinaryHeap.update compare_ i) (h, mem)
      = Done tt (h', mem') ∧
    heap_ok h' mem' ∧ items_ h' ≡ₚ <[i := set_value v x]> (items_ h) ∧
    effect (items_ h) mem mem'.
Proof.
  intros [Hmx Ho Ht] Hx.
  rewrite (bind_Done _ _ _ _ _ (at_set_value_Done h mem i x v Hmx Hx)).
  destruct (update_spec (<[i := set_value v x]> (items_ h)) mem i (set_value v x))
    as (h' & mem' & Hrun & Hok & Hp & He).
  - apply list_lookup_insert_eq. by eapply lookup_lt_Some.
  - by apply heap_ordered_replace.
  - by apply tracked_set_value.
  - exists h', mem'. split_and!; try done. destruct He as [Hs Hf Hl]. split; [done| |done].
    intros l Hl'. apply Hf. intros y Hy. apply list_elem_of_lookup in Hy as [j Hy].
    apply list_lookup_insert_Some in Hy as [(-> & <- & _)|[_ Hy]].
    + cbn. apply Hl'. by eapply list_elem_of_lookup_2.
    + apply Hl'. by eapply list_elem_of_lookup_2.
Qed.
End Operations.

(** ** Properties *)
Section Properties.
Context {LP : LockPolicy} {T Mem : Type} `{PosMemLaws Mem}
  (compare_ : T → T → bool) `{!CompareLaws compare_}.

(** [push] of an item whose position pointer is live and not yet in the heap
    returns, keeps the heap order, adds just that item, records the position of
    every item through its pointer and touches no other position. *)
Theorem push_keeps_heap (h : BinaryHeap T) (mem : Mem) x :
  heap_ok compare_ h mem →
  (∀ l, position_ref_ x = Some l →
     is_Some (load_pos l mem) ∧ ∀ y, y ∈ items_ h → position_ref_ y ≠ Some l) →
  ∃ h' mem', BinaryHeap.push compare_ x (h, mem) = Done tt (h', mem') ∧
    heap_ok compare_ h' mem' ∧ items_ h' ≡ₚ x :: items_ h ∧ effect (x :: items_ h) mem mem'.
Proof. exact (push_spec compare_ h mem x). Qed.

(** C28: where the mutex can be acquired again, popping a heap empty returns its
    items in order (none goes before an earlier one), each once, and leaves the
    empty heap. *)
Theorem drain_sorted (h : BinaryHeap T) (mem : Mem) :
  relock_allowed = true → heap_ok compare_ h mem →
  ∃ xs h' mem', BinaryHeap.drain compare_ (length (items_ h)) (h, mem) = Done xs (h', mem') ∧
    xs ≡ₚ items_ h ∧ items_ h' = [] ∧
    StronglySorted (λ x y, compare_ (value_ y) (value_ x) = false) xs.
Proof.
  intros Hpol. remember (length (items_ h)) as n eqn:Hn. revert h mem Hn.
  induction n as [|n IH]; intros h mem Hn Hok.
  { exists [], h, mem. symmetry in Hn. apply nil_length_inv in Hn. rewrite Hn.
    split_and!; try done. constructor. }
  destruct (items_ h) as [|r rest] eqn:Ei; [done|].
  destruct (pop_spec compare_ h mem r rest Hpol Hok Ei) as (h1 & mem1 & Hrun & Hok1 & Hp & _).
  rewrite Ei in Hp. apply Permutation_cons_inv in Hp.
  destruct (IH h1 mem1) as (xs & h' & mem' & Hrun' & Hp' & Hnil & Hs); [by rewrite Hp; simplify_eq/=|done|].
  exists (r :: xs), h', mem'. cbn [BinaryHeap.drain].
  rewrite (bind_Done _ _ _ _ _ Hrun), (bind_Done _ _ _ _ _ Hrun'). split; [done|].
  split; [by rewrite Hp', Hp|]. split; [done|]. constructor; [done|].
  apply Forall_forall. intros y Hy. rewrite Hp', Hp in Hy.
  apply list_elem_of_lookup in Hy as [i Hy].
  apply (heap_root_first compare_ (items_ h) r (hok_ordered _ _ _ Hok)) with (i := S i);
    by rewrite Ei.
Qed.

(** Changing the value at a position through [operator[]] and calling
    [update] there restores the heap order, whichever way the value moved, and
    the recorded positions; a position outside the array throws. *)
Theorem update_restores (h : BinaryHeap T) (mem : Mem) i v :
  heap_ok compare_ h mem →
  match items_ h !! i with
  | Some x => ∃ h' mem',
      (BinaryHeap.at_set_value i v ;; BinaryHeap.update compare_ i) (h, mem)
        = Done tt (h', mem') ∧
      heap_ok compare_ h' mem' ∧ items_ h' ≡ₚ <[i := set_value v x]> (items_ h) ∧
      effect (items_ h) mem mem'
  | None =>
      BinaryHeap.update compare_ i (h, mem)
        = Throw (out_of_range "Position out of range") (h, mem) ∧
      BinaryHeap.at_ i (h, mem) = Throw (out_of_range "Index out of range") (h, mem)
  end.
Proof.
  intros Hok. destruct (items_ h !! i) as [x|] eqn:Hx; [by apply set_and_update|].
  apply lookup_ge_None_1 in Hx. destruct h as [items mx].
  pose proof (hok_free _ _ _ Hok) as Hmx. cbn in Hmx, Hx. subst mx.
  unfold BinaryHeap.update, BinaryHeap.at_. rewrite !guarded_free by done. munfold.
  cbn [set_mtx BinaryHeap_mutex fst snd items_]. by rewrite (proj2 (Nat.leb_le _ _)).
Qed.

(** With [std::shared_mutex] no call of [pop] ever returns, on any heap, nor
    does [swap] with valid indices: they call [empty] and [update] while they
    hold [heap_mutex_]. *)
Theorem pop_swap_hang (h : BinaryHeap T) (mem : Mem) i j :
  relock_allowed = false → heap_mutex_ h = [] →
  BinaryHeap.pop compare_ (h, mem) = Stuck ∧
  ((i < length (items_ h))%nat → (j < length (items_ h))%nat →
   BinaryHeap.swap compare_ i j (h, mem) = Stuck).
Proof.
  destruct h as [items mx]. cbn. intros Hpol ->. split.
  - unfold BinaryHeap.pop. rewrite guarded_free by done.
    rewrite bind_Stuck; [done|]. by apply guarded_relock with (held := []).
  - intros Hi Hj. unfold BinaryHeap.swap. rewrite guarded_free by done. munfold.
    cbn [set_mtx BinaryHeap_mutex fst snd items_].
    rewrite !(proj2 (Nat.leb_gt _ _)) by done. cbn [orb].
    destruct (lookup_lt_is_Some_2 items i Hi) as [x Hx].
    destruct (lookup_lt_is_Some_2 items j Hj) as [y Hy].
    rewrite (item_Done items _ mem i x Hx), (item_Done items _ mem j y Hy).
    unfold BinaryHeap.set_item, modify, BinaryHeap.update at 1. cbn beta iota.
    by rewrite (guarded_relock _ _ _ []).

Qed.
End Properties.

(** ** Witnesses *)
Definition sample_items : list (HeapItem Z) :=
  [mkHeapItem 10 (Some 3%positive); mkHeapItem 30 (Some 1%positive); mkHeapItem 20 (Some 2%positive)].
Definition sample_heap : BinaryHeap Z := mkBinaryHeap sample_items [].
Definition sample_mem : gmap loc Z :=
  {[1%positive := 1; 2%positive := 2; 3%positive := 0; 4%positive := npos]}.

Lemma sample_ok : heap_ok Z.ltb sample_heap sample_mem.
Proof.
  split; [done| |].
  - intros i Hi x y Hx Hy. pose proof (lookup_lt_Some _ _ _ Hx) as Hlt. cbn in Hlt.
    assert (i = 1 ∨ i = 2)%nat as [-> | ->] by lia;
      vm_compute in Hx, Hy; simplify_eq; by vm_compute.
  - intros i x l Hx Hl. pose proof (lookup_lt_Some _ _ _ Hx) as Hlt. cbn in Hlt.
    assert (i = 0 ∨ i = 1 ∨ i = 2)%nat as [-> | [-> | ->]] by lia;
      vm_compute in Hx; simplify_eq; vm_compute in Hl; simplify_eq; by vm_compute.
Qed.

Lemma push_keeps_heap_witness :
  ∃ h' mem', BinaryHeap.push (LP := std_shared_mutex) Z.ltb (mkHeapItem 5 (Some 4%positive))
      (sample_heap, sample_mem) = Done tt (h', mem') ∧ heap_ok Z.ltb h' mem'.
Proof.
  destruct (push_keeps_heap (LP := std_shared_mutex) Z.ltb sample_heap sample_mem
    (mkHeapItem 5 (Some 4%positive)) sample_ok) as (h' & mem' & Hrun & Hok & _).
  - intros l [= <-]. split; [by eexists|]. intros y Hy.
    repeat (apply elem_of_cons in Hy as [->|Hy]; [done|]). by apply elem_of_nil in Hy.
  - by exists h', mem'.
Defined.

Lemma drain_sorted_witness :
  ∃ xs h' mem', BinaryHeap.drain (LP := reentrant) Z.ltb 3 (sample_heap, sample_mem)
    = Done xs (h', mem') ∧ xs ≡ₚ sample_items.
Proof.
  destruct (drain_sorted (LP := reentrant) Z.ltb sample_heap sample_mem eq_refl sample_ok)
    as (xs & h' & mem' & Hrun & Hp & _).
  by exists xs, h', mem'.
Defined.

Lemma update_restores_witness :
  ∃ h' mem', (BinaryHeap.at_set_value (LP := std_shared_mutex) 0 40 ;;
      BinaryHeap.update (LP := std_shared_mutex) Z.ltb 0) (sample_heap, sample_mem)
    = Done tt (h', mem') ∧ heap_ok Z.ltb h' mem'.
Proof.
  destruct (update_restores (LP := std_shared_mutex) Z.ltb sample_heap sample_mem 0 40 sample_ok)
    as (h' & mem' & Hrun & Hok & _).
  by exists h', mem'.
Defined.

Lemma pop_swap_hang_witness :
  BinaryHeap.pop (LP := std_shared_mutex) Z.ltb (sample_heap, sample_mem) = Stuck.
Proof.
  exact (proj1 (pop_swap_hang (LP := std_shared_mutex) Z.ltb sample_heap sample_mem 0 1
    eq_refl eq_refl)).
Defined.
