(* ===== verification/AVL.v ===== *)
(** The locking AVL tree (src/dsa/avl_locking.hpp), the ordered map under the
    sorted sets.

    A node has an address, so that the pointer [search] returns to [set] and the
    raw [parent] pointers are what they are in the code; the allocator is a
    counter of addresses.  [depth] and [weight] are [uint32_t].  [node_mutex] is
    recursive and never contended here, so it is left out; [tree_mutex] is kept. *)

From stdpp Require Import sorting.
From Stdlib Require Import Sorting.Sorted.
From S2P Require Import Prelude.

(** ** Keys: [operator<] and [operator==] *)
Class KeyOrder (K : Type) := key_ltb : K → K → bool.
Class KeyOrderLaws (K : Type) `{KeyOrder K} := {
  key_irrefl x : key_ltb x x = false;
  key_trans x y z : key_ltb x y = true → key_ltb y z = true → key_ltb x z = true;
  key_total x y : x = y ∨ key_ltb x y = true ∨ key_ltb y x = true;
}.

#[export] Instance Z_order : KeyOrder Z := Z.ltb.
#[export] Instance Z_order_laws : KeyOrderLaws Z.
Proof. split; unfold key_ltb, Z_order; intros *; rewrite ?Z.ltb_lt; lia. Qed.

(** [std::string::operator<]: lexicographic on unsigned characters. *)
Fixpoint string_ltb (s1 s2 : string) : bool :=
  match s1, s2 with
  | String.EmptyString, String.String _ _ => true
  | _, String.EmptyString => false
  | String.String c1 s1', String.String c2 s2' =>
      let n1 := Ascii.N_of_ascii c1 in let n2 := Ascii.N_of_ascii c2 in
      (n1 <? n2)%N || ((n1 =? n2)%N && string_ltb s1' s2')
  end.
#[export] Instance string_order : KeyOrder string := string_ltb.

#[export] Instance string_order_laws : KeyOrderLaws string.
Proof.
  split; unfold key_ltb, string_order.
  - induction x as [|c s IH]; cbn; [done|]. by rewrite N.ltb_irrefl, IH, andb_false_r.
  - intros x y z. revert x z. induction y as [|c s IH]; intros [|c1 s1] [|c3 s3]; cbn; try done.
    rewrite !orb_true_iff, !andb_true_iff, !N.ltb_lt, !N.eqb_eq.
    intros [?|[E1 H1]] [?|[E2 H2]]; [left; lia|left; lia|left; lia|].
    right. split; [lia|eauto].
  - induction x as [|c s IH]; intros [|c' s']; cbn; [auto|auto|auto|].
    rewrite !orb_true_iff, !andb_true_iff, !N.ltb_lt, !N.eqb_eq.
    destruct (N.lt_total (Ascii.N_of_ascii c) (Ascii.N_of_ascii c')) as [?|[Hc|?]]; [auto| |auto].
    assert (c = c') as ->.
    { rewrite <- (Ascii.ascii_N_embedding c), <- (Ascii.ascii_N_embedding c'). by rewrite Hc. }
    destruct (IH s') as [->|[?|?]]; auto.
Qed.

(** ** Nodes *)
Inductive AVLNode (K V : Type) : Type :=
| Null
| Node (self : loc) (key : K) (value : V) (depth weight : Z) (parent : option loc)
    (left right : AVLNode K V).
Arguments Null {K V}. Arguments Node {K V}.

Section Nodes.
Context {K V : Type} `{KeyOrder K}.
Implicit Types (node left right : AVLNode K V).

Definition getDepth node : Z := match node with Node _ _ _ d _ _ _ _ => d | Null => 0 end.
Definition getWeight node : Z := match node with Node _ _ _ _ w _ _ _ => w | Null => 0 end.

(** [std::make_unique<AVLNode>(key, value)] at address [a]. *)
Definition make_node (a : loc) (key : K) (value : V) : AVLNode K V :=
  Node a key value 1 1 None Null Null.

Definition updateNode node : AVLNode K V :=
  match node with
  | Null => Null
  | Node a k v _ _ p l r =>
      Node a k v (wrapu 32 (1 + Z.max (getDepth l) (getDepth r)))
        (wrapu 32 (1 + getWeight l + getWeight r)) p l r
  end.

(** [if (node) node->parent = p]. *)
Definition set_parent (p : loc) node : AVLNode K V :=
  match node with
  | Null => Null
  | Node a k v d w _ l r => Node a k v d w (Some p) l r
  end.

Definition rotateLeft node : AVLNode K V :=
  match node with
  | Node a k v d w p l (Node a2 k2 v2 d2 w2 _ l2 r2) =>
      updateNode (Node a2 k2 v2 d2 w2 p
        (updateNode (Node a k v d w (Some a2) l (set_parent a l2))) r2)
  | _ => node
  end.

Definition rotateRight node : AVLNode K V :=
  match node with
  | Node a k v d w p (Node a2 k2 v2 d2 w2 _ l2 r2) r =>
      updateNode (Node a2 k2 v2 d2 w2 p l2
        (updateNode (Node a k v d w (Some a2) (set_parent a r2) r)))
  | _ => node
  end.

Definition fixLeft node : AVLNode K V :=
  match node with
  | Node a k v d w p ((Node _ _ _ _ _ _ ll lr) as l) r =>
      let l' := if getDepth ll <? getDepth lr then rotateLeft l else l in
      rotateRight (Node a k v d w p l' r)
  | _ => node
  end.

Definition fixRight node : AVLNode K V :=
  match node with
  | Node a k v d w p l ((Node _ _ _ _ _ _ rl rr) as r) =>
      let r' := if getDepth rr <? getDepth rl then rotateRight r else r in
      rotateLeft (Node a k v d w p l r')
  | _ => node
  end.

Definition fix_ node : AVLNode K V :=
  match updateNode node with
  | Null => Null
  | Node _ _ _ _ _ _ l r as node' =>
      let leftDepth := getDepth l in
      let rightDepth := getDepth r in
      if wrapu 32 (rightDepth + 1) <? leftDepth then fixLeft node'
      else if wrapu 32 (leftDepth + 1) <? rightDepth then fixRight node'
      else node'
  end.

Fixpoint insert (a : loc) (key : K) (value : V) node : AVLNode K V :=
  match node with
  | Null => make_node a key value
  | Node b k v d w p l r =>
      if key_ltb key k then fix_ (Node b k v d w p (set_parent b (insert a key value l)) r)
      else if key_ltb k key then fix_ (Node b k v d w p l (set_parent b (insert a key value r)))
      else node
  end.

(** The successor loop [while (successor->left)], from its first node. *)
Fixpoint leftmost (k : K) (v : V) left : K * V :=
  match left with
  | Null => (k, v)
  | Node _ k' v' _ _ _ l _ => leftmost k' v' l
  end.

Fixpoint remove (key : K) node : AVLNode K V :=
  match node with
  | Null => Null
  | Node a k v d w p l r =>
      if key_ltb key k then fix_ (Node a k v d w p (remove key l) r)
      else if key_ltb k key then fix_ (Node a k v d w p l (remove key r))
      else
        match l, r with
        | Null, _ => r
        | _, Null => l
        | _, Node _ rk rv _ _ _ rl _ =>
            let '(sk, sv) := leftmost rk rv rl in
            fix_ (Node a sk sv d w p l (remove sk r))
        end
  end.

(** [search]: the node found, by address and value. *)
Fixpoint search `{EqDecision K} (key : K) node : option (loc * V) :=
  match node with
  | Null => None
  | Node a k v _ _ _ l r =>
      if decide (key = k) then Some (a, v)
      else if key_ltb key k then search key l else search key r
  end.

(** [existingNode->value = value] through the node's address. *)
Fixpoint store_value (a : loc) (value : V) node : AVLNode K V :=
  match node with
  | Null => Null
  | Node b k v d w p l r =>
      Node b k (if decide (a = b) then value else v) d w p
        (store_value a value l) (store_value a value r)
  end.
End Nodes.

(** ** AVLTree *)
Record AVLTree (K V : Type) := mkAVLTree {
  root_ : AVLNode K V;
  tree_mutex : mutex;
  next_addr : loc;
}.
Arguments mkAVLTree {K V}. Arguments root_ {K V}. Arguments tree_mutex {K V}.
Arguments next_addr {K V}.

#[export] Instance AVLTree_mutex {K V} : HasMutex (AVLTree K V) := {|
  mtx := tree_mutex;
  set_mtx := λ l t, mkAVLTree (root_ t) l (next_addr t);
|}.

Module AVLTree.
Section AVLTree.
Context {LP : LockPolicy} {K V : Type} `{KeyOrder K} `{EqDecision K}.

Definition new : AVLTree K V := mkAVLTree Null [] 1%positive.

Definition set_root (r : AVLNode K V) : M (AVLTree K V) unit :=
  modify (λ t, mkAVLTree r (tree_mutex t) (next_addr t)).

(** A fresh address from the allocator. *)
Definition alloc : M (AVLTree K V) loc := λ t,
  Done (next_addr t) (mkAVLTree (root_ t) (tree_mutex t) (Pos.succ (next_addr t))).

Definition set (key : K) (value : V) : M (AVLTree K V) unit :=
  existingNode ← guarded Sh (t ← get; mret (search key (root_ t)));
  match existingNode with
  | Some (a, _) => t ← get; set_root (store_value a value (root_ t))
  | None =>
      guarded Un (a ← alloc; t ← get; set_root (insert a key value (root_ t)))
  end.

Definition get_ (key : K) : M (AVLTree K V) (option V) :=
  t ← get; mret (snd <$> search key (root_ t)).

Definition del (key : K) : M (AVLTree K V) unit :=
  guarded Un (
    t ← get;
    match root_ t with
    | Null => mret tt
    | r => set_root (remove key r)
    end).

Definition exists_ (key : K) : M (AVLTree K V) bool :=
  guarded Sh (t ← get; mret (bool_decide (is_Some (search key (root_ t))))).
End AVLTree.
End AVLTree.

(** Ten ascending keys: the root is the fourth, the tree has four levels. *)
Example ascending_ten :
  match foldr (λ k (m : M (AVLTree Z Z) unit), m ;; AVLTree.set (LP := std_shared_mutex) k (k * k))
    (mret tt) (rev (Z.of_nat <$> seq 1 10)) AVLTree.new with
  | Done _ t => (match root_ t with Node _ k _ d w _ _ _ => (k, d, w) | Null => (0, 0, 0) end)
                = (4, 4, 10)
  | _ => False
  end.
Proof. vm_compute. done. Qed.

(** ** Shape: heights, counts, balance *)
Section Shape.
Context {K V : Type} `{KeyOrder K}.
Implicit Types (t l r : AVLNode K V).

Fixpoint inorder t : list (K * V) :=
  match t with
  | Null => []
  | Node _ k v _ _ _ l r => inorder l ++ (k, v) :: inorder r
  end.

Fixpoint addrs t : list loc :=
  match t with
  | Null => []
  | Node a _ _ _ _ _ l r => addrs l ++ a :: addrs r
  end.

Fixpoint height t : Z :=
  match t with Null => 0 | Node _ _ _ _ _ _ l r => 1 + Z.max (height l) (height r) end.

Definition count t : Z := Z.of_nat (length (inorder t)).

(** The stored depths and weights are exact and siblings differ by one level. *)
Fixpoint avl_ok t : Prop :=
  match t with
  | Null => True
  | Node _ _ _ d w _ l r =>
      d = 1 + Z.max (height l) (height r) ∧ w = 1 + count l + count r ∧
      -1 ≤ height l - height r ≤ 1 ∧ avl_ok l ∧ avl_ok r
  end.

Lemma count_Node a k v d w p l r : count (Node a k v d w p l r) = 1 + count l + count r.
Proof. unfold count. cbn. rewrite length_app. cbn. lia. Qed.

Lemma count_Null : count (Null : AVLNode K V) = 0.
Proof. done. Qed.

Lemma count_nonneg t : 0 ≤ count t.
Proof. unfold count. lia. Qed.

Lemma height_nonneg t : 0 ≤ height t.
Proof. induction t; cbn; lia. Qed.

Lemma height_count t : height t ≤ count t.
Proof.
  induction t as [|a k v d w p l IHl r IHr]; [done|]. rewrite count_Node. cbn.
  pose proof (count_nonneg l). pose proof (count_nonneg r). lia.
Qed.

Lemma avl_ok_fields t : avl_ok t → getDepth t = height t ∧ getWeight t = count t.
Proof. destruct t; [done|]. rewrite count_Node. cbn. by intros (-> & -> & _). Qed.

Create Rewrite HintDb avl.

(** [set_parent] and [updateNode] change no key, no shape and no address. *)
Lemma set_parent_inorder p t : inorder (set_parent p t) = inorder t.
Proof. by destruct t. Qed.
Lemma set_parent_addrs p t : addrs (set_parent p t) = addrs t.
Proof. by destruct t. Qed.
Lemma set_parent_height p t : height (set_parent p t) = height t.
Proof. by destruct t. Qed.
Lemma set_parent_count p t : count (set_parent p t) = count t.
Proof. by destruct t. Qed.
Lemma set_parent_ok p t : avl_ok (set_parent p t) ↔ avl_ok t.
Proof. by destruct t. Qed.
Lemma updateNode_inorder t : inorder (updateNode t) = inorder t.
Proof. by destruct t. Qed.
Lemma updateNode_addrs t : addrs (updateNode t) = addrs t.
Proof. by destruct t. Qed.
Lemma updateNode_height t : height (updateNode t) = height t.
Proof. by destruct t. Qed.
Lemma updateNode_count t : count (updateNode t) = count t.
Proof. by destruct t. Qed.

Hint Rewrite set_parent_inorder set_parent_addrs set_parent_height set_parent_count set_parent_ok
  updateNode_inorder updateNode_addrs updateNode_height updateNode_count : avl.

Ltac avl_facts :=
  repeat match goal with
  | t : AVLNode K V |- _ =>
      lazymatch goal with
      | _ : height t ≤ count t |- _ => fail
      | _ => pose proof (height_count t); pose proof (height_nonneg t)
      end
  end.

Lemma updateNode_ok a k v d w p l r :
  avl_ok l → avl_ok r → -1 ≤ height l - height r ≤ 1 → 1 + count l + count r < 2 ^ 32 →
  avl_ok (updateNode (Node a k v d w p l r)).
Proof.
  intros Hl Hr Hb Hc. cbn. destruct (avl_ok_fields l Hl) as [-> ->].
  destruct (avl_ok_fields r Hr) as [-> ->]. avl_facts.
  rewrite !wrapu_small by lia. done.
Qed.

(** ** Rotations *)
Lemma rotateLeft_inorder t : inorder (rotateLeft t) = inorder t.
Proof.
  destruct t as [|a k v d w p l [|a2 k2 v2 d2 w2 p2 l2 r2]]; try done.
  cbn. rewrite set_parent_inorder. by rewrite <- app_assoc.
Qed.
Lemma rotateRight_inorder t : inorder (rotateRight t) = inorder t.
Proof.
  destruct t as [|a k v d w p [|a2 k2 v2 d2 w2 p2 l2 r2] r]; try done.
  cbn. rewrite set_parent_inorder. by rewrite <- app_assoc.
Qed.
Lemma rotateLeft_addrs t : addrs (rotateLeft t) = addrs t.
Proof.
  destruct t as [|a k v d w p l [|a2 k2 v2 d2 w2 p2 l2 r2]]; try done.
  cbn. rewrite set_parent_addrs. by rewrite <- app_assoc.
Qed.
Lemma rotateRight_addrs t : addrs (rotateRight t) = addrs t.
Proof.
  destruct t as [|a k v d w p [|a2 k2 v2 d2 w2 p2 l2 r2] r]; try done.
  cbn. rewrite set_parent_addrs. by rewrite <- app_assoc.
Qed.

(** What the two rotation steps of [fixLeft] and [fixRight] amount to. *)
Lemma right_single a k v d w p a2 k2 v2 d2 w2 p2 ll lr r :
  rotateRight (Node a k v d w p (Node a2 k2 v2 d2 w2 p2 ll lr) r) =
  updateNode (Node a2 k2 v2 0 0 p ll
    (updateNode (Node a k v 0 0 (Some a2) (set_parent a lr) r))).
Proof. done. Qed.

Lemma right_double a k v d w p a2 k2 v2 d2 w2 p2 a3 k3 v3 d3 w3 p3 ll lrl lrr r :
  rotateRight (Node a k v d w p
    (rotateLeft (Node a2 k2 v2 d2 w2 p2 ll (Node a3 k3 v3 d3 w3 p3 lrl lrr))) r) =
  updateNode (Node a3 k3 v3 0 0 p
    (updateNode (Node a2 k2 v2 0 0 (Some a3) ll (set_parent a2 lrl)))
    (updateNode (Node a k v 0 0 (Some a3) (set_parent a lrr) r))).
Proof. done. Qed.

Lemma left_single a k v d w p a2 k2 v2 d2 w2 p2 l rl rr :
  rotateLeft (Node a k v d w p l (Node a2 k2 v2 d2 w2 p2 rl rr)) =
  updateNode (Node a2 k2 v2 0 0 p
    (updateNode (Node a k v 0 0 (Some a2) l (set_parent a rl))) rr).
Proof. done. Qed.

Lemma left_double a k v d w p a2 k2 v2 d2 w2 p2 a3 k3 v3 d3 w3 p3 l rll rlr rr :
  rotateLeft (Node a k v d w p l
    (rotateRight (Node a2 k2 v2 d2 w2 p2 (Node a3 k3 v3 d3 w3 p3 rll rlr) rr))) =
  updateNode (Node a3 k3 v3 0 0 p
    (updateNode (Node a k v 0 0 (Some a3) l (set_parent a rll)))
    (updateNode (Node a2 k2 v2 0 0 (Some a3) (set_parent a2 rlr) rr))).
Proof. done. Qed.

Ltac avl_heights :=
  repeat (progress (cbn [height]; rewrite ?count_Node; autorewrite with avl)).

(** Two nodes under a third, rebuilt bottom up. *)
Ltac avl_rebuilt :=
  avl_facts; split;
  [ repeat match goal with
    | |- avl_ok (updateNode _) => apply updateNode_ok; autorewrite with avl
    | H : avl_ok ?t |- avl_ok ?t => exact H
    end; avl_heights; lia
  | avl_heights; lia ].

(** A node two levels heavier on one side is fixed into a balanced one. *)
Lemma fixLeft_ok a k v d w p l r :
  avl_ok l → avl_ok r → height l = height r + 2 → 1 + count l + count r < 2 ^ 32 →
  avl_ok (fixLeft (Node a k v d w p l r)) ∧
  height l ≤ height (fixLeft (Node a k v d w p l r)) ≤ 1 + height l.
Proof.
  intros Hl Hr Hd Hc. destruct l as [|a2 k2 v2 d2 w2 p2 ll lr]; [avl_facts; cbn in *; lia|].
  cbn [avl_ok height] in *. destruct Hl as (_ & _ & Hb & Hll & Hlr).
  rewrite count_Node in Hc. cbn [fixLeft].
  destruct (avl_ok_fields ll Hll) as [-> _]. destruct (avl_ok_fields lr Hlr) as [-> _].
  destruct (Z.ltb_spec (height ll) (height lr)) as [Hlt|Hge].
  - destruct lr as [|a3 k3 v3 d3 w3 p3 lrl lrr]; [avl_facts; cbn in *; lia|].
    cbn [avl_ok height] in *. destruct Hlr as (_ & _ & Hb' & Hlrl & Hlrr).
    rewrite count_Node in Hc. rewrite right_double. avl_rebuilt.
  - rewrite right_single. avl_rebuilt.
Qed.

Lemma fixRight_ok a k v d w p l r :
  avl_ok l → avl_ok r → height r = height l + 2 → 1 + count l + count r < 2 ^ 32 →
  avl_ok (fixRight (Node a k v d w p l r)) ∧
  height r ≤ height (fixRight (Node a k v d w p l r)) ≤ 1 + height r.
Proof.
  intros Hl Hr Hd Hc. destruct r as [|a2 k2 v2 d2 w2 p2 rl rr]; [avl_facts; cbn in *; lia|].
  cbn [avl_ok height] in *. destruct Hr as (_ & _ & Hb & Hrl & Hrr).
  rewrite count_Node in Hc. cbn [fixRight].
  destruct (avl_ok_fields rl Hrl) as [-> _]. destruct (avl_ok_fields rr Hrr) as [-> _].
  destruct (Z.ltb_spec (height rr) (height rl)) as [Hlt|Hge].
  - destruct rl as [|a3 k3 v3 d3 w3 p3 rll rlr]; [avl_facts; cbn in *; lia|].
    cbn [avl_ok height] in *. destruct Hrl as (_ & _ & Hb' & Hrll & Hrlr).
    rewrite count_Node in Hc. rewrite left_double. avl_rebuilt.
  - rewrite left_single. avl_rebuilt.
Qed.

Lemma fixLeft_inorder t : inorder (fixLeft t) = inorder t.
Proof.
  destruct t as [|a k v d w p [|a2 k2 v2 d2 w2 p2 ll lr] r]; try done.
  cbn [fixLeft]. rewrite rotateRight_inorder. case_match; [|done].
  cbn [inorder]. by rewrite rotateLeft_inorder.
Qed.
Lemma fixRight_inorder t : inorder (fixRight t) = inorder t.
Proof.
  destruct t as [|a k v d w p l [|a2 k2 v2 d2 w2 p2 rl rr]]; try done.
  cbn [fixRight]. rewrite rotateLeft_inorder. case_match; [|done].
  cbn [inorder]. by rewrite rotateRight_inorder.
Qed.
Lemma fixLeft_addrs t : addrs (fixLeft t) = addrs t.
Proof.
  destruct t as [|a k v d w p [|a2 k2 v2 d2 w2 p2 ll lr] r]; try done.
  cbn [fixLeft]. rewrite rotateRight_addrs. case_match; [|done].
  cbn [addrs]. by rewrite rotateLeft_addrs.
Qed.
Lemma fixRight_addrs t : addrs (fixRight t) = addrs t.
Proof.
  destruct t as [|a k v d w p l [|a2 k2 v2 d2 w2 p2 rl rr]]; try done.
  cbn [fixRight]. rewrite rotateLeft_addrs. case_match; [|done].
  cbn [addrs]. by rewrite rotateRight_addrs.
Qed.

Lemma fix_inorder t : inorder (fix_ t) = inorder t.
Proof.
  destruct t as [|a k v d w p l r]; [done|]. unfold fix_. cbn [updateNode].
  repeat case_match; by rewrite ?fixLeft_inorder, ?fixRight_inorder.
Qed.
Lemma fix_addrs t : addrs (fix_ t) = addrs t.
Proof.
  destruct t as [|a k v d w p l r]; [done|]. unfold fix_. cbn [updateNode].
  repeat case_match; by rewrite ?fixLeft_addrs, ?fixRight_addrs.
Qed.
Lemma fix_count t : count (fix_ t) = count t.
Proof. unfold count. by rewrite fix_inorder. Qed.

(** [fix] on a node whose subtrees are balanced and at most two levels apart. *)
Lemma fix_ok a k v d w p l r :
  avl_ok l → avl_ok r → -2 ≤ height l - height r ≤ 2 → 1 + count l + count r < 2 ^ 32 →
  let t' := fix_ (Node a k v d w p l r) in
  avl_ok t' ∧ Z.max (height l) (height r) ≤ height t' ≤ 1 + Z.max (height l) (height r) ∧
  (-1 ≤ height l - height r ≤ 1 → height t' = 1 + Z.max (height l) (height r)).
Proof.
  intros Hl Hr Hb Hc t'. subst t'. unfold fix_. cbn [updateNode].
  destruct (avl_ok_fields l Hl) as [-> ->]. destruct (avl_ok_fields r Hr) as [-> ->].
  avl_facts. rewrite !wrapu_small by lia.
  destruct (Z.ltb_spec (height r + 1) (height l)).
  { destruct (fixLeft_ok a k v (1 + Z.max (height l) (height r)) (1 + count l + count r) p l r);
      [done|done|lia|lia|]. split; [done|]. lia. }
  destruct (Z.ltb_spec (height l + 1) (height r)).
  { destruct (fixRight_ok a k v (1 + Z.max (height l) (height r)) (1 + count l + count r) p l r);
      [done|done|lia|lia|]. split; [done|]. lia. }
  cbn. split; [|lia]. split_and!; (done || lia).
Qed.
End Shape.

(** ** Order *)
Section Order.
Context {K V : Type} `{KeyOrderLaws K}.
Implicit Types (t l r : AVLNode K V) (xs : list (K * V)).

Definition key_lt (x y : K * V) : Prop := key_ltb x.1 y.1 = true.
Definition below xs (k : K) : Prop := ∀ x, x ∈ xs → key_ltb x.1 k = true.
Definition above xs (k : K) : Prop := ∀ x, x ∈ xs → key_ltb k x.1 = true.

(** A search tree: the keys ascend strictly along the in-order walk. *)
Definition sorted xs : Prop := StronglySorted key_lt xs.

Lemma sorted_split xs1 k v xs2 :
  sorted (xs1 ++ (k, v) :: xs2) ↔ sorted xs1 ∧ sorted xs2 ∧ below xs1 k ∧ above xs2 k.
Proof.
  unfold sorted, below, above. rewrite StronglySorted_app, StronglySorted_cons, Forall_forall.
  unfold key_lt. split.
  - intros (Hc & H1 & Hk & H2). split_and!; [done|done| |done].
    intros x Hx. apply (Hc x (k, v)); [done|left].
  - intros (H1 & H2 & Hb & Ha). split_and!; [|done|exact Ha|done].
    intros x y Hx [->|Hy]%elem_of_cons; [by apply Hb|].
    eapply key_trans; [by apply Hb|by apply Ha].
Qed.

Lemma key_asym x y : key_ltb x y = true → key_ltb y x = false.
Proof.
  intros Hxy. destruct (key_ltb y x) eqn:E; [|done].
  pose proof (key_trans _ _ _ Hxy E) as Hxx. by rewrite key_irrefl in Hxx.
Qed.

Lemma key_neither x y : key_ltb x y = false → key_ltb y x = false → x = y.
Proof. intros. destruct (key_total x y) as [?|[?|?]]; congruence. Qed.

Lemma below_not_elem xs k v : below xs k → (k, v) ∉ xs.
Proof. intros Hb Hx. specialize (Hb _ Hx). cbn in Hb. by rewrite key_irrefl in Hb. Qed.
Lemma above_not_elem xs k v : above xs k → (k, v) ∉ xs.
Proof. intros Hb Hx. specialize (Hb _ Hx). cbn in Hb. by rewrite key_irrefl in Hb. Qed.

Lemma above_trans xs k k' : key_ltb k' k = true → above xs k → above xs k'.
Proof. intros Hk Ha x Hx. eapply key_trans; [done|by apply Ha]. Qed.
Lemma below_trans xs k k' : key_ltb k k' = true → below xs k → below xs k'.
Proof. intros Hk Hb x Hx. eapply key_trans; [by apply Hb|done]. Qed.

Lemma above_cons k' v xs k : key_ltb k k' = true → above xs k' → above ((k', v) :: xs) k.
Proof. intros Hk Ha x [->|Hx]%elem_of_cons; [done|]. exact (above_trans xs k' k Hk Ha x Hx). Qed.
Lemma below_snoc xs k' v k : key_ltb k' k = true → below xs k' → below (xs ++ [(k', v)]) k.
Proof.
  intros Hk Hb x [Hx|Hx]%elem_of_app; [exact (below_trans xs k' k Hk Hb x Hx)|].
  apply list_elem_of_singleton in Hx as ->. done.
Qed.
Lemma above_app xs1 xs2 k : above xs1 k → above xs2 k → above (xs1 ++ xs2) k.
Proof. intros H1 H2 x [Hx|Hx]%elem_of_app; auto. Qed.
Lemma below_app xs1 xs2 k : below xs1 k → below xs2 k → below (xs1 ++ xs2) k.
Proof. intros H1 H2 x [Hx|Hx]%elem_of_app; auto. Qed.

(** ** insert *)
Lemma insert_count a k v t : count t ≤ count (insert a k v t) ≤ 1 + count t.
Proof.
  induction t as [|b k' v' d w p l IHl r IHr]; [unfold count; cbn; lia|]. cbn [insert].
  destruct (key_ltb k k'); [|destruct (key_ltb k' k); [|rewrite !count_Node; lia]];
    rewrite fix_count, !count_Node, set_parent_count; lia.
Qed.

Lemma insert_ok a k v t :
  avl_ok t → 1 + count t < 2 ^ 32 →
  avl_ok (insert a k v t) ∧ height t ≤ height (insert a k v t) ≤ 1 + height t.
Proof.
  induction t as [|b k' v' d w p l IHl r IHr]; intros Hok Hc; [by cbn|].
  rewrite count_Node in Hc. destruct Hok as (Hd & Hw & Hb & Hl & Hr).
  pose proof (count_nonneg l). pose proof (count_nonneg r).
  cbn [insert]. destruct (key_ltb k k'); [|destruct (key_ltb k' k); [|cbn; split; [done|lia]]].
  - destruct (IHl Hl) as [Hl' Hh]; [lia|]. pose proof (insert_count a k v l).
    destruct (fix_ok b k' v' d w p (set_parent b (insert a k v l)) r) as (Hf & Hhf & He);
      rewrite ?set_parent_ok, ?set_parent_height, ?set_parent_count in *; [done|done|lia|lia|].
    split; [done|]. cbn [height] in *. destruct (decide (-1 ≤ height (insert a k v l) - height r ≤ 1)).
    + rewrite He by done. lia.
    + lia.
  - destruct (IHr Hr) as [Hr' Hh]; [lia|]. pose proof (insert_count a k v r).
    destruct (fix_ok b k' v' d w p l (set_parent b (insert a k v r))) as (Hf & Hhf & He);
      rewrite ?set_parent_ok, ?set_parent_height, ?set_parent_count in *; [done|done|lia|lia|].
    split; [done|]. cbn [height] in *. destruct (decide (-1 ≤ height l - height (insert a k v r) ≤ 1)).
    + rewrite He by done. lia.
    + lia.
Qed.

(** A key that is absent goes to its place in the walk. *)
Lemma insert_absent a k v t :
  sorted (inorder t) → (∀ v', (k, v') ∉ inorder t) →
  ∃ xs1 xs2, inorder t = xs1 ++ xs2 ∧ inorder (insert a k v t) = xs1 ++ (k, v) :: xs2 ∧
    below xs1 k ∧ above xs2 k ∧ addrs (insert a k v t) ≡ₚ a :: addrs t.
Proof.
  induction t as [|b k' v' d w p l IHl r IHr]; intros Hs Hn.
  { exists [], []. cbn. split_and!; try done; intros x Hx; by apply elem_of_nil in Hx. }
  cbn [inorder insert addrs] in *. apply sorted_split in Hs as (Hsl & Hsr & Hb & Ha).
  destruct (key_ltb k k') eqn:E1; [|destruct (key_ltb k' k) eqn:E2].
  - destruct (IHl Hsl) as (xs1 & xs2 & Hl & Hi & Hb1 & Ha2 & Had);
      [intros v'' ?; apply (Hn v''); set_solver|].
    exists xs1, (xs2 ++ (k', v') :: inorder r). rewrite fix_inorder, fix_addrs. cbn [inorder addrs].
    rewrite set_parent_inorder, set_parent_addrs, Hi, Hl, Had, <- !app_assoc.
    split_and!; [done|done|done| |done]. apply above_app; [done|]. by apply above_cons.
  - destruct (IHr Hsr) as (xs1 & xs2 & Hl & Hi & Hb1 & Ha2 & Had);
      [intros v'' ?; apply (Hn v''); set_solver|].
    exists (inorder l ++ (k', v') :: xs1), xs2. rewrite fix_inorder, fix_addrs. cbn [inorder addrs].
    rewrite set_parent_inorder, set_parent_addrs, Hi, Hl, Had, <- !app_assoc.
    split_and!; [done|done| |done|].
    + rewrite cons_middle, app_assoc. apply below_app; [by apply below_snoc|done].
    + by rewrite (Permutation_swap a b), <- (Permutation_middle (addrs l) (b :: addrs r) a).
  - exfalso. apply (Hn v'). rewrite (key_neither k k') by done. set_solver.
Qed.

(** ** search and the write through its result *)
Context `{EqDecision K}.

Lemma search_spec k t :
  sorted (inorder t) →
  match search k t with
  | Some (a, v) => (k, v) ∈ inorder t ∧ a ∈ addrs t
  | None => ∀ v, (k, v) ∉ inorder t
  end.
Proof.
  induction t as [|b k' v' d w p l IHl r IHr]; intros Hs; [intros v Hv; by apply elem_of_nil in Hv|].
  cbn [inorder search addrs] in *. apply sorted_split in Hs as (Hsl & Hsr & Hb & Ha).
  case_decide as Hk; [subst; set_solver|].
  destruct (key_ltb k k') eqn:E1.
  - specialize (IHl Hsl). destruct (search k l) as [[a v]|]; [set_solver|].
    intros v [Hv|[Hv|Hv]%elem_of_cons]%elem_of_app; [by eapply IHl|congruence|].
    eapply above_not_elem; [by eapply above_trans|done].
  - specialize (IHr Hsr). destruct (search k r) as [[a v]|]; [set_solver|].
    intros v [Hv|[Hv|Hv]%elem_of_cons]%elem_of_app; [|congruence|by eapply IHr].
    assert (key_ltb k' k = true) as E2.
    { destruct (key_ltb k' k) eqn:E2; [done|]. by destruct Hk; apply key_neither. }
    eapply below_not_elem; [by eapply below_trans|done].
Qed.

Lemma store_value_shape a v t :
  height (store_value a v t) = height t ∧ length (inorder (store_value a v t)) = length (inorder t) ∧
  addrs (store_value a v t) = addrs t.
Proof.
  induction t as [|b k' v' d w p l (IHl1 & IHl2 & IHl3) r (IHr1 & IHr2 & IHr3)]; [done|]. cbn.
  rewrite !length_app. cbn. rewrite IHl1, IHl2, IHl3, IHr1, IHr2, IHr3. done.
Qed.

Lemma store_value_ok a v t : avl_ok t → avl_ok (store_value a v t).
Proof.
  induction t as [|b k' v' d w p l IHl r IHr]; [done|]. cbn. unfold count.
  destruct (store_value_shape a v l) as (-> & -> & _).
  destruct (store_value_shape a v r) as (-> & -> & _). naive_solver.
Qed.

Lemma store_value_fresh a v t : a ∉ addrs t → store_value a v t = t.
Proof.
  induction t as [|b k' v' d w p l IHl r IHr]; [done|]. cbn. intros Ha.
  rewrite decide_False by set_solver. by rewrite IHl, IHr by set_solver.
Qed.

(** The write changes the value of exactly the key that was searched. *)
Lemma store_value_spec k a v0 v t :
  NoDup (addrs t) → search k t = Some (a, v0) →
  ∃ xs1 xs2, inorder t = xs1 ++ (k, v0) :: xs2 ∧
    inorder (store_value a v t) = xs1 ++ (k, v) :: xs2 ∧ a ∈ addrs t.
Proof.
  induction t as [|b k' v' d w p l IHl r IHr]; intros Hnd Hsearch; [done|].
  cbn [inorder search addrs store_value] in *.
  apply NoDup_app in Hnd as (Hndl & Hlr & [Hbr Hndr]%NoDup_cons).
  case_decide as Hk; [|destruct (key_ltb k k')].
  - simplify_eq. rewrite decide_True by done. rewrite !store_value_fresh by set_solver.
    exists (inorder l), (inorder r). split_and!; [done|done|set_solver].
  - destruct (IHl Hndl Hsearch) as (xs1 & xs2 & Hl & Hi & Ha). specialize (Hlr a Ha).
    rewrite decide_False by set_solver. rewrite (store_value_fresh a v r) by set_solver.
    exists xs1, (xs2 ++ (k', v') :: inorder r). rewrite Hl, Hi, <- !app_assoc.
    split_and!; [done|done|set_solver].
  - destruct (IHr Hndr Hsearch) as (xs1 & xs2 & Hl & Hi & Ha).
    assert (a ∉ addrs l) as Hal by (intros Hal; apply (Hlr a Hal); set_solver).
    rewrite decide_False by set_solver. rewrite (store_value_fresh a v l) by done.
    exists (inorder l ++ (k', v') :: xs1), xs2. rewrite Hl, Hi, <- !app_assoc.
    split_and!; [done|done|set_solver].
Qed.

(** ** remove *)
Lemma remove_count k t : count t - 1 ≤ count (remove k t) ≤ count t.
Proof.
  revert k. induction t as [|b k' v' d w p l IHl r IHr]; intros k; [unfold count; cbn; lia|].
  cbn [remove]. specialize (IHl k). pose proof (IHr k).
  destruct (key_ltb k k'); [rewrite fix_count, !count_Node; lia|].
  destruct (key_ltb k' k); [rewrite fix_count, !count_Node; lia|].
  destruct l as [|la lk lv ld lw lp ll lr]; [rewrite (count_Node b), count_Null; lia|].
  destruct r as [|ra rk rv rd rw rp rl rr].
  { rewrite (count_Node b), count_Null. lia. }
  destruct (leftmost rk rv rl) as [sk sv]. specialize (IHr sk).
  rewrite fix_count, (count_Node b sk), (count_Node b k'). lia.
Qed.

Lemma remove_ok k t :
  avl_ok t → count t < 2 ^ 32 →
  avl_ok (remove k t) ∧ height t - 1 ≤ height (remove k t) ≤ height t.
Proof.
  revert k. induction t as [|b k' v' d w p l IHl r IHr]; intros k Hok Hc; [by cbn|].
  rewrite count_Node in Hc. destruct Hok as (Hd & Hw & Hb & Hl & Hr).
  pose proof (count_nonneg l). pose proof (count_nonneg r).
  assert (∀ k1 v1 k2, let r' := remove k2 r in
    avl_ok (fix_ (Node b k1 v1 d w p l r')) ∧
    height (Node b k' v' d w p l r) - 1 ≤ height (fix_ (Node b k1 v1 d w p l r'))
      ≤ height (Node b k' v' d w p l r)) as Hright.
  { intros k1 v1 k2 r'. destruct (IHr k2 Hr) as [Hr' Hh]; [lia|].
    pose proof (remove_count k2 r). subst r'.
    destruct (fix_ok b k1 v1 d w p l (remove k2 r)) as (Hf & Hhf & He); [done|done|lia|lia|].
    split; [done|]. cbn [height] in *.
    destruct (decide (-1 ≤ height l - height (remove k2 r) ≤ 1)); [rewrite He by done|]; lia. }
  cbn [remove]. destruct (key_ltb k k'); [|destruct (key_ltb k' k); [apply Hright|]].
  - destruct (IHl k Hl) as [Hl' Hh]; [lia|]. pose proof (remove_count k l).
    destruct (fix_ok b k' v' d w p (remove k l) r) as (Hf & Hhf & He); [done|done|lia|lia|].
    split; [done|]. cbn [height] in *.
    destruct (decide (-1 ≤ height (remove k l) - height r ≤ 1)); [rewrite He by done|]; lia.
  - destruct l as [|la lk lv ld lw lp ll lr].
    { split; [done|]. pose proof (height_nonneg r). cbn [height] in *. lia. }
    destruct r as [|ra rk rv rd rw rp rl rr].
    { split; [done|]. pose proof (height_nonneg ll). pose proof (height_nonneg lr).
      cbn [height] in *. lia. }
    destruct (leftmost rk rv rl) as [sk sv]. apply Hright.
Qed.

Lemma leftmost_head k v l : ∀ xs, ∃ rest, inorder l ++ (k, v) :: xs = leftmost k v l :: rest.
Proof.
  revert k v. induction l as [|b k' v' d w p l IHl r IHr]; intros k v xs; [by exists xs|].
  cbn [inorder leftmost]. rewrite <- app_assoc. cbn. apply IHl.
Qed.

Lemma remove_absent k t : sorted (inorder t) → (∀ v, (k, v) ∉ inorder t) →
  inorder (remove k t) = inorder t ∧ addrs (remove k t) = addrs t.
Proof.
  induction t as [|b k' v' d w p l IHl r IHr]; intros Hs Hn; [done|].
  cbn [inorder] in Hs, Hn. apply sorted_split in Hs as (Hsl & Hsr & Hb & Ha). cbn [remove].
  destruct (key_ltb k k') eqn:E1; [|destruct (key_ltb k' k) eqn:E2].
  - destruct IHl as [Hi Had]; [done|intros v ?; apply (Hn v); set_solver|].
    rewrite fix_inorder, fix_addrs. cbn. by rewrite Hi, Had.
  - destruct IHr as [Hi Had]; [done|intros v ?; apply (Hn v); set_solver|].
    rewrite fix_inorder, fix_addrs. cbn. by rewrite Hi, Had.
  - destruct (Hn v'). rewrite (key_neither k k') by done. set_solver.
Qed.

(** A key that is present leaves the walk, and one node is freed. *)
Lemma remove_present k v t :
  sorted (inorder t) → (k, v) ∈ inorder t →
  ∃ xs1 xs2 a, inorder t = xs1 ++ (k, v) :: xs2 ∧ inorder (remove k t) = xs1 ++ xs2 ∧
    addrs t ≡ₚ a :: addrs (remove k t).
Proof.
  revert k v. induction t as [|b k' v' d w p l IHl r IHr]; intros k v Hs Hin.
  { by apply elem_of_nil in Hin. }
  cbn [inorder] in Hs, Hin. apply sorted_split in Hs as (Hsl & Hsr & Hb & Ha). cbn [remove].
  destruct (key_ltb k k') eqn:E1; [|destruct (key_ltb k' k) eqn:E2].
  - assert ((k, v) ∈ inorder l) as Hl.
    { apply elem_of_app in Hin as [?|[?|Hin]%elem_of_cons]; [done|simplify_eq; by rewrite key_irrefl in E1|].
      by apply (above_not_elem _ k v) in Hin; [|by eapply above_trans]. }
    destruct (IHl k v Hsl Hl) as (xs1 & xs2 & a & Hw & Hr' & Had).
    exists xs1, (xs2 ++ (k', v') :: inorder r), a. rewrite fix_inorder, fix_addrs.
    cbn [inorder addrs]. rewrite Hr', Hw, Had, <- !app_assoc. done.
  - assert ((k, v) ∈ inorder r) as Hr.
    { apply elem_of_app in Hin as [Hin|[?|?]%elem_of_cons]; [|simplify_eq; by rewrite key_irrefl in E2|done].
      by apply (below_not_elem _ k v) in Hin; [|by eapply below_trans]. }
    destruct (IHr k v Hsr Hr) as (xs1 & xs2 & a & Hw & Hr' & Had).
    exists (inorder l ++ (k', v') :: xs1), xs2, a. rewrite fix_inorder, fix_addrs.
    cbn [inorder addrs]. rewrite Hr', Hw, Had, <- !app_assoc. split_and!; [done|done|].
    by rewrite (Permutation_swap a b), <- (Permutation_middle (addrs l) (b :: _) a).
  - assert (k = k') as -> by by apply key_neither.
    assert (v = v') as ->.
    { apply elem_of_app in Hin as [Hin|[?|Hin]%elem_of_cons]; [|by simplify_eq|].
      - by apply (below_not_elem _ k' v) in Hin.
      - by apply (above_not_elem _ k' v) in Hin. }
    exists (inorder l), (inorder r).
    destruct l as [|la lk lv ld lw lp ll lr]; [by exists b|].
    destruct r as [|ra rk rv rd rw rp rl rr].
    { exists b. rewrite app_nil_r. split_and!; [done|done|].
      cbn [addrs]. by rewrite <- (Permutation_middle (addrs ll ++ la :: addrs lr) [] b), app_nil_r. }
    destruct (leftmost_head rk rv rl (inorder rr)) as [rest Hrest].
    destruct (leftmost rk rv rl) as [sk sv]. change (inorder (Node ra rk rv rd rw rp rl rr))
      with (inorder rl ++ (rk, rv) :: inorder rr) in *. rewrite Hrest in *.
    destruct (IHr sk sv Hsr) as (xs1 & xs2 & a & Hw & Hr' & Had); [left|].
    assert (xs1 = []) as ->.
    { destruct xs1 as [|y xs1]; [done|]. exfalso. cbn in Hw. simplify_eq.
      apply StronglySorted_cons in Hsr as [Hf _]. rewrite Forall_forall in Hf.
      specialize (Hf (sk, sv) ltac:(set_solver)). unfold key_lt in Hf. cbn in Hf.
      by rewrite key_irrefl in Hf. }
    cbn in Hw. simplify_eq. exists a. rewrite fix_inorder, fix_addrs.
    split; [by rewrite <- Hrest|].
    set (r := Node ra rk rv rd rw rp rl rr) in *. set (l := Node la lk lv ld lw lp ll lr) in *.
    cbn [inorder addrs]. rewrite Hr'. split; [done|].
    rewrite Had. by rewrite (Permutation_swap a b), <- (Permutation_middle (addrs l) (b :: _) a).
Qed.
End Order.

(** ** Parent pointers *)
Section Parents.
Context {K V : Type} `{KeyOrder K}.
Implicit Types (t l r : AVLNode K V).

Definition parent_of t : option loc := match t with Node _ _ _ _ _ p _ _ => p | Null => None end.

Fixpoint parents_ok (p : option loc) t : Prop :=
  match t with
  | Null => True
  | Node a _ _ _ _ q l r => q = p ∧ parents_ok (Some a) l ∧ parents_ok (Some a) r
  end.

Lemma set_parent_parents p a t : parents_ok p t → parents_ok (Some a) (set_parent a t).
Proof. by destruct t; cbn; [|intros (_ & ? & ?)]. Qed.

Lemma rotateLeft_parents p t : parents_ok p t → parents_ok p (rotateLeft t).
Proof.
  destruct t as [|a k v d w q l [|a2 k2 v2 d2 w2 p2 l2 r2]]; try done.
  cbn. intros (-> & Hl & -> & Hl2 & Hr2). split_and!; try done. by eapply set_parent_parents.
Qed.
Lemma rotateRight_parents p t : parents_ok p t → parents_ok p (rotateRight t).
Proof.
  destruct t as [|a k v d w q [|a2 k2 v2 d2 w2 p2 l2 r2] r]; try done.
  cbn. intros (-> & (-> & Hl2 & Hr2) & Hr). split_and!; try done. by eapply set_parent_parents.
Qed.
Lemma fix_parents p t : parents_ok p t → parents_ok p (fix_ t).
Proof.
  destruct t as [|a k v d w q l r]; [done|]. unfold fix_. cbn [updateNode].
  intros (-> & Hl & Hr). repeat case_match; [| |by cbn].
  - destruct l as [|? ? ? ? ? ? ll lr]; [by cbn|]. cbn [fixLeft]. apply rotateRight_parents.
    split_and!; [done| |done]. case_match; [by apply rotateLeft_parents|done].
  - destruct r as [|? ? ? ? ? ? rl rr]; [by cbn|]. cbn [fixRight]. apply rotateLeft_parents.
    split_and!; [done|done|]. case_match; [by apply rotateRight_parents|done].
Qed.
Lemma insert_parents a k v p t :
  parents_ok p t → parents_ok (if t is Null then None else p) (insert a k v t).
Proof.
  revert p. induction t as [|b k' v' d w q l IHl r IHr]; intros p; [by cbn|].
  intros (-> & Hl & Hr). cbn [insert].
  destruct (key_ltb k k'); [|destruct (key_ltb k' k); [|by cbn]]; apply fix_parents; cbn.
  - split_and!; [done| |done]. eapply set_parent_parents. by apply IHl.
  - split_and!; [done|done|]. eapply set_parent_parents. by apply IHr.
Qed.

Lemma store_value_parents a v p t : parents_ok p t → parents_ok p (store_value a v t).
Proof. revert p. induction t; intros q; cbn; [done|]. intros (-> & ? & ?). auto. Qed.
End Parents.

(** ** The tree as a map *)
Inductive tree_call (K V : Type) : Type :=
| CallSet (k : K) (v : V)
| CallGet (k : K)
| CallDel (k : K)
| CallExists (k : K).
Arguments CallSet {K V}. Arguments CallGet {K V}. Arguments CallDel {K V}.
Arguments CallExists {K V}.

Inductive tree_reply (V : Type) : Type := Void | Value (v : option V) | Found (b : bool).
Arguments Void {V}. Arguments Value {V}. Arguments Found {V}.

Section Map.
Context {LP : LockPolicy} {K V : Type} `{Countable K} `{!KeyOrder K} `{!KeyOrderLaws K}.
Implicit Types (t : AVLTree K V) (f : gmap K V).

Definition tree_run (c : tree_call K V) : M (AVLTree K V) (tree_reply V) :=
  match c with
  | CallSet k v => AVLTree.set k v ;; mret Void
  | CallGet k => r ← AVLTree.get_ k; mret (Value r)
  | CallDel k => AVLTree.del k ;; mret Void
  | CallExists k => b ← AVLTree.exists_ k; mret (Found b)
  end.

Fixpoint tree_runs (cs : list (tree_call K V)) : M (AVLTree K V) (list (tree_reply V)) :=
  match cs with
  | [] => mret []
  | c :: cs' => r ← tree_run c; rs ← tree_runs cs'; mret (r :: rs)
  end.

Definition map_run (c : tree_call K V) f : tree_reply V * gmap K V :=
  match c with
  | CallSet k v => (Void, <[k := v]> f)
  | CallGet k => (Value (f !! k), f)
  | CallDel k => (Void, delete k f)
  | CallExists k => (Found (bool_decide (is_Some (f !! k))), f)
  end.

Fixpoint map_runs (cs : list (tree_call K V)) f : list (tree_reply V) * gmap K V :=
  match cs with
  | [] => ([], f)
  | c :: cs' =>
      let '(r, f') := map_run c f in let '(rs, f'') := map_runs cs' f' in (r :: rs, f'')
  end.

Record tree_rep t f : Prop := {
  tr_free : tree_mutex t = [];
  tr_sorted : sorted (inorder (root_ t));
  tr_map : inorder (root_ t) ≡ₚ map_to_list f;
  tr_ok : avl_ok (root_ t);
  tr_nodup : NoDup (addrs (root_ t));
  tr_addrs : ∀ a, a ∈ addrs (root_ t) → (a < next_addr t)%positive;
}.

Lemma rep_count t f : tree_rep t f → count (root_ t) = Z.of_nat (size f).
Proof. intros Hr. unfold count. by rewrite (tr_map _ _ Hr), length_map_to_list. Qed.

Lemma rep_elem t f k v : tree_rep t f → (k, v) ∈ inorder (root_ t) ↔ f !! k = Some v.
Proof. intros Hr. by rewrite (tr_map _ _ Hr), elem_of_map_to_list. Qed.

Lemma rep_search t f k : tree_rep t f → snd <$> search k (root_ t) = f !! k.
Proof.
  intros Hr. pose proof (search_spec k (root_ t) (tr_sorted _ _ Hr)) as Hs.
  destruct (search k (root_ t)) as [[a v]|]; cbn.
  - symmetry. apply (rep_elem t f k v Hr). apply Hs.
  - symmetry. apply eq_None_not_Some. intros [v Hv]. apply (Hs v). by apply (rep_elem t f k v Hr).
Qed.

Lemma rep_new : tree_rep AVLTree.new ∅.
Proof.
  split; cbn; [done|constructor|by rewrite map_to_list_empty|done|constructor|].
  intros a Ha. by apply elem_of_nil in Ha.
Qed.

Lemma set_spec t f k v :
  tree_rep t f → Z.of_nat (size f) + 1 < 2 ^ 32 →
  ∃ t', AVLTree.set k v t = Done tt t' ∧ tree_rep t' (<[k := v]> f) ∧
    (parents_ok None (root_ t) → parents_ok None (root_ t')).
Proof.
  intros Hr Hlt. pose proof (rep_search t f k Hr) as Hs. pose proof (rep_count t f Hr) as Hc.
  destruct t as [root mx next]. destruct Hr as [Hmx Hsort Hmap Hok Hnd Had]. cbn in *. subst mx.
  unfold AVLTree.set. rewrite (bind_Done _ _ _ (search k root) (mkAVLTree root [] next)) by done.
  destruct (search k root) as [[a v0]|] eqn:Esearch; cbn in Hs.
  - eexists. split; [done|]. cbn. destruct (store_value_spec k a v0 v root Hnd Esearch)
      as (xs1 & xs2 & Hin & Hin' & _). destruct (store_value_shape a v root) as (_ & _ & Hads).
    split; [|apply store_value_parents]. split; cbn; [done| | | | |].
    + rewrite Hin'. rewrite Hin in Hsort. apply sorted_split in Hsort. by apply sorted_split.
    + rewrite Hin'. rewrite <- insert_delete_eq. rewrite map_to_list_insert by apply lookup_delete_eq.
      rewrite <- Permutation_middle. apply perm_skip.
      rewrite <- (insert_delete_id f k v0) in Hmap by done.
      rewrite map_to_list_insert in Hmap by apply lookup_delete_eq.
      rewrite Hin, <- Permutation_middle in Hmap. by apply Permutation_cons_inv in Hmap.
    + by apply store_value_ok.
    + by rewrite Hads.
    + by rewrite Hads.
  - eexists. split; [by rewrite guarded_free|]. cbn.
    assert (∀ v', (k, v') ∉ inorder root) as Habs.
    { pose proof (search_spec k root Hsort) as Hx. by rewrite Esearch in Hx. }
    destruct (insert_absent next k v root Hsort Habs) as (xs1 & xs2 & Hin & Hin' & Hb & Ha & Hads).
    split; cycle 1.
    { intros Hp. pose proof (insert_parents next k v None root Hp) as Hp'. by destruct root. }
    split; cbn; [done| | | | |].
    + rewrite Hin'. rewrite Hin in Hsort. apply StronglySorted_app in Hsort as (_ & ? & ?).
      by apply sorted_split.
    + rewrite Hin', map_to_list_insert, <- Permutation_middle, <- Hin by done. by rewrite Hmap.
    + by apply insert_ok; [|rewrite Hc; lia].
    + rewrite Hads. apply NoDup_cons. split; [|done]. intros Hx. specialize (Had _ Hx). lia.
    + intros a. rewrite Hads. intros [->|Hx]%elem_of_cons; [lia|]. specialize (Had _ Hx). lia.
Qed.

Lemma del_spec t f k :
  tree_rep t f → Z.of_nat (size f) < 2 ^ 32 →
  ∃ t', AVLTree.del k t = Done tt t' ∧ tree_rep t' (delete k f).
Proof.
  intros Hr Hlt. pose proof (rep_elem t f k) as He. pose proof (rep_count t f Hr) as Hc.
  assert (∀ t', root_ t' = remove k (root_ t) → tree_mutex t' = [] → next_addr t' = next_addr t →
    tree_rep t' (delete k f)) as Hrep.
  { intros t' Hroot Hmx Hnext. pose proof Hr as Hr'. destruct Hr' as [_ Hsort Hmap Hok Hnd Had].
    destruct (f !! k) as [v|] eqn:Ek.
    - destruct (remove_present k v (root_ t) Hsort) as (xs1 & xs2 & a & Hin & Hin' & Hads);
        [by apply He|].
      rewrite Hads in Hnd. apply NoDup_cons in Hnd as [_ Hnd].
      split; rewrite ?Hroot; [done| | | |done|].
      + rewrite Hin'. rewrite Hin in Hsort. unfold sorted in *.
        apply StronglySorted_app in Hsort as (Hc1 & H1 & [_ H2]%StronglySorted_cons).
        apply StronglySorted_app. split_and!; [|done|done]. intros x y Hx Hy. apply Hc1; set_solver.
      + rewrite Hin'. rewrite <- (insert_delete_id f k v) in Hmap by done.
        rewrite map_to_list_insert in Hmap by apply lookup_delete_eq.
        rewrite Hin, <- Permutation_middle in Hmap. by apply Permutation_cons_inv in Hmap.
      + apply remove_ok; [done|lia].
      + intros b Hb. rewrite Hnext. apply Had. rewrite Hads. by right.
    - rewrite delete_id by done.
      destruct (remove_absent k (root_ t) Hsort) as [Hin Hads].
      { intros v Hv. apply (He v) in Hv; [congruence|done]. }
      split; rewrite ?Hroot, ?Hin, ?Hads, ?Hnext; try done. apply remove_ok; [done|lia]. }
  destruct t as [root mx next]. pose proof (tr_free _ _ Hr) as Hmx. cbn in Hmx. subst mx.
  unfold AVLTree.del. rewrite guarded_free by done. munfold. cbn [set_mtx AVLTree_mutex root_ next_addr].
  destruct root; (eexists; split; [done|]; by apply Hrep).
Qed.

Lemma exists_spec t f k :
  tree_rep t f → AVLTree.exists_ k t = Done (bool_decide (is_Some (f !! k))) t.
Proof.
  intros Hr. rewrite <- (rep_search t f k Hr).
  pose proof (tr_free _ _ Hr) as Hmx. destruct t as [root mx next]. cbn in Hmx. subst mx.
  unfold AVLTree.exists_. munfold. rewrite guarded_free by done.
  cbn [set_mtx AVLTree_mutex root_ next_addr mtx tail]. f_equal.
  apply bool_decide_ext. by rewrite fmap_is_Some.
Qed.

Lemma tree_run_spec c t f :
  tree_rep t f → Z.of_nat (size f) + 1 < 2 ^ 32 →
  ∃ t', tree_run c t = Done (map_run c f).1 t' ∧ tree_rep t' (map_run c f).2 ∧
    (size (map_run c f).2 ≤ S (size f))%nat.
Proof.
  intros Hr Hlt. destruct c as [k v|k|k|k]; cbn.
  - destruct (set_spec t f k v Hr Hlt) as (t' & Hrun & Hr' & _). exists t'.
    rewrite (bind_Done _ _ _ _ _ Hrun). split_and!; [done|done|].
    rewrite map_size_insert. destruct (f !! k); cbn; unfold id; lia.
  - exists t. munfold. unfold AVLTree.get_. munfold. rewrite (rep_search t f k Hr).
    split_and!; [done|done|lia].
  - destruct (del_spec t f k Hr) as (t' & Hrun & Hr'); [lia|]. exists t'.
    rewrite (bind_Done _ _ _ _ _ Hrun). split_and!; [done|done|].
    rewrite map_size_delete. destruct (f !! k); cbn; unfold id; lia.
  - exists t. rewrite (bind_Done _ _ _ _ _ (exists_spec t f k Hr)). split_and!; [done|done|lia].
Qed.

Lemma tree_runs_spec cs : ∀ t f,
  tree_rep t f → Z.of_nat (size f + length cs) < 2 ^ 32 →
  ∃ t', tree_runs cs t = Done (map_runs cs f).1 t' ∧ tree_rep t' (map_runs cs f).2 ∧
    (size (map_runs cs f).2 ≤ size f + length cs)%nat.
Proof.
  induction cs as [|c cs IH]; intros t f Hr Hlt; cbn in *.
  { exists t. split_and!; [done|done|lia]. }
  destruct (tree_run_spec c t f Hr) as (t1 & Hrun & Hr1 & Hle); [lia|].
  destruct (map_run c f) as [r f1]. cbn in *.
  destruct (IH t1 f1 Hr1) as (t' & Hrun' & Hr' & Hle'); [lia|].
  destruct (map_runs cs f1) as [rs f']. cbn in *. exists t'.
  rewrite (bind_Done _ _ _ _ _ Hrun), (bind_Done _ _ _ _ _ Hrun').
  split_and!; [done|done|lia].
Qed.

(** The height of a balanced tree of [n] nodes is at most [2 * log2 (n + 1)]. *)
Lemma height_bound (r : AVLNode K V) : avl_ok r → 2 ^ height r ≤ (count r + 1) * (count r + 1).
Proof.
  induction r as [|a k v d w p l IHl r IHr]; [done|].
  intros (_ & _ & Hb & Hl & Hr). specialize (IHl Hl). specialize (IHr Hr). rewrite count_Node.
  cbn [height]. pose proof (count_nonneg l). pose proof (count_nonneg r).
  pose proof (height_nonneg l). pose proof (height_nonneg r).
  assert (∀ x, 0 ≤ x → Z.max (height l) (height r) - 1 ≤ x →
    2 ^ (1 + Z.max (height l) (height r)) ≤ 4 * 2 ^ x) as Hpow.
  { intros x Hx0 Hx. change 4 with (2 ^ 2). rewrite <- Z.pow_add_r by lia.
    apply Z.pow_le_mono_r; lia. }
  pose proof (Hpow (height l) ltac:(lia) ltac:(lia)).
  pose proof (Hpow (height r) ltac:(lia) ltac:(lia)). nia.
Qed.
End Map.

(** ** Properties *)
Section Properties.
Context {LP : LockPolicy} {K V : Type} `{Countable K} `{!KeyOrder K} `{!KeyOrderLaws K}.

(** C7: the tree refines the finite map.  Every sequence of fewer than [2^32]
    calls of [set], [get], [del] and [exists] on a tree that starts empty returns,
    under every lock policy, with the replies of the finite map. *)
Theorem avl_refines_map (cs : list (tree_call K V)) :
  Z.of_nat (length cs) < 2 ^ 32 →
  ∃ t, tree_runs cs AVLTree.new = Done (map_runs cs ∅).1 t ∧ tree_rep t (map_runs cs ∅).2.
Proof.
  intros Hlt. destruct (tree_runs_spec cs AVLTree.new ∅ rep_new) as (t & Hrun & Hr & _);
    [by rewrite map_size_empty|]. by exists t.
Qed.

(** C40: after every such sequence the tree is balanced: the keys ascend strictly
    along the in-order walk, every stored depth and weight is exact, the depths of
    siblings differ by at most one, the weight of the root is the number of keys,
    and its depth is at most twice the logarithm of that number plus one. *)
Theorem avl_balanced (cs : list (tree_call K V)) rs t :
  Z.of_nat (length cs) < 2 ^ 32 →
  tree_runs cs AVLTree.new = Done rs t →
  sorted (inorder (root_ t)) ∧ avl_ok (root_ t) ∧
  getWeight (root_ t) = Z.of_nat (size (map_runs cs ∅).2) ∧
  2 ^ getDepth (root_ t) ≤ (getWeight (root_ t) + 1) ^ 2.
Proof.
  intros Hlt Hrun. destruct (tree_runs_spec cs AVLTree.new ∅ rep_new) as (t' & Hrun' & Hr & _);
    [by rewrite map_size_empty|]. assert (t' = t) as -> by congruence.
  destruct (avl_ok_fields _ (tr_ok _ _ Hr)) as [-> ->].
  split; [apply Hr|]. split; [apply Hr|]. split; [by apply rep_count|].
  rewrite Z.pow_2_r. apply height_bound, Hr.
Qed.

(** Insertion maintains the raw parent pointers through every rotation (each
    child points to its parent, the root to none), but deleting a node with an
    empty left side does not: the right child keeps pointing to the freed node. *)
Theorem parent_pointers :
  (∀ (t : AVLTree K V) f k v, tree_rep t f → Z.of_nat (size f) + 1 < 2 ^ 32 →
     parents_ok None (root_ t) →
     ∃ t', AVLTree.set k v t = Done tt t' ∧ parents_ok None (root_ t')) ∧
  (∀ a k (v : V) d w p b k' v' d' w' q l r,
     let root := Node a k v d w p Null (Node b k' v' d' w' q l r) in
     parents_ok p root → NoDup (addrs root) →
     parent_of (remove k root) = Some a ∧ a ∉ addrs (remove k root)).
Proof.
  split.
  - intros t f k v Hr Hlt Hp. destruct (set_spec t f k v Hr Hlt) as (t' & Hrun & _ & Hp'). eauto.
  - intros a k v d w p b k' v' d' w' q l r root Hp Hnd. subst root.
    cbn [remove]. rewrite key_irrefl. cbn in Hp. destruct Hp as (_ & _ & -> & _).
    split; [done|]. change (NoDup ([] ++ a :: addrs (Node b k' v' d' w' (Some a) l r))) in Hnd.
    by apply NoDup_cons in Hnd as [? _].
Qed.
End Properties.

(** ** Witnesses *)
Definition sample_tree_calls : list (tree_call Z Z) :=
  ((λ i, CallSet (7 * Z.of_nat i mod 23) (Z.of_nat i)) <$> seq 0 40)
  ++ [CallDel 3; CallGet 3; CallExists 4; CallDel 11; CallSet 4 100; CallGet 4].

Lemma avl_refines_map_witness :
  ∃ t, tree_runs (LP := std_shared_mutex) sample_tree_calls AVLTree.new
       = Done (map_runs sample_tree_calls ∅).1 t.
Proof.
  destruct (avl_refines_map (LP := std_shared_mutex) sample_tree_calls) as (t & Hrun & _); [done|].
  by exists t.
Defined.

Lemma avl_balanced_witness :
  ∃ rs t, tree_runs (LP := std_shared_mutex) sample_tree_calls AVLTree.new = Done rs t ∧
    2 ^ getDepth (root_ t) ≤ (getWeight (root_ t) + 1) ^ 2.
Proof.
  destruct (tree_runs (LP := std_shared_mutex) sample_tree_calls AVLTree.new) as [rs t| | | | |] eqn:E;
    try (exfalso; vm_compute in E; discriminate E).
  exists rs, t. split; [done|].
  apply (avl_balanced (LP := std_shared_mutex) sample_tree_calls rs t); [done|exact E].
Defined.

(** Keys 1 and 2; then key 1 is deleted. *)
Lemma parent_pointers_witness :
  let root : AVLNode Z Z :=
    Node 1%positive 1 10 2 2 None Null (Node 2%positive 2 20 1 1 (Some 1%positive) Null Null) in
  parent_of (remove 1 root) = Some 1%positive ∧ 1%positive ∉ addrs (remove 1 root).
Proof.
  apply (proj2 (parent_pointers (LP := std_shared_mutex) (K := Z) (V := Z))); [by cbn|].
  apply NoDup_cons. split; [by intros ?%list_elem_of_singleton|apply NoDup_singleton].
Defined.
