(* ===== verification/ZSet.v ===== *)
(** The sorted set (src/dsa/zset.hpp): a hash from member names to nodes, a tree
    from names to scores, and the vector that keeps the nodes alive.

    The header it includes for the tree, avl.hpp, is not in the repository, so the
    tree is an [OrderedMap]: the operations that [ZSet] calls and what it relies on
    them for.  The locking AVL tree of AVL.v is an instance.  A score is the image
    of a [double].  The thread pool is never given a task and is left out. *)

From S2P Require Import Prelude Bytes HashTable HashMapSpec AVL.

(** ** What the sorted set needs of its tree *)
Class OrderedMap (T V : Type) := {
  om_new : T;
  om_set : string → V → M T unit;
  om_del : string → M T unit;
  om_exists : string → M T bool;
}.

Class OrderedMapLaws (T V : Type) `{OrderedMap T V} := {
  om_rep : T → gmap string V → Prop;
  om_new_rep : om_rep om_new ∅;
  om_set_rep t f k v : om_rep t f → Z.of_nat (size f) + 1 < 2 ^ 32 →
    ∃ t', om_set k v t = Done tt t' ∧ om_rep t' (<[k := v]> f);
  om_del_rep t f k : om_rep t f → Z.of_nat (size f) < 2 ^ 32 →
    ∃ t', om_del k t = Done tt t' ∧ om_rep t' (delete k f);
  om_exists_rep t f k : om_rep t f →
    om_exists k t = Done (bool_decide (is_Some (f !! k))) t;
}.

#[export] Instance avl_ordered_map {LP : LockPolicy} {V} : OrderedMap (AVLTree string V) V := {|
  om_new := AVLTree.new;
  om_set := AVLTree.set;
  om_del := AVLTree.del;
  om_exists := AVLTree.exists_;
|}.

#[export] Instance avl_ordered_map_laws {LP : LockPolicy} {V} :
  OrderedMapLaws (AVLTree string V) V.
Proof.
  refine {| om_rep := tree_rep |}; cbn.
  - apply rep_new.
  - intros t f k v Hr Hlt. destruct (set_spec t f k v Hr Hlt) as (t' & Hrun & Hr' & _). eauto.
  - intros t f k Hr Hlt. by apply del_spec.
  - intros t f k Hr. apply exists_spec. exact Hr.
Defined.

(** ** ZSet *)
Record ZNode := mkZNode { znode_key : string; znode_value : Z }.

Record ZSet (T : Type) := mkZSet {
  tree : T;
  hash : HMap string loc;
  nodes_ : list (loc * ZNode);
  zset_mutex_ : mutex;
  next_node : loc;
}.
Arguments mkZSet {T}. Arguments tree {T}. Arguments hash {T}. Arguments nodes_ {T}.
Arguments zset_mutex_ {T}. Arguments next_node {T}.

#[export] Instance ZSet_mutex {T} : HasMutex (ZSet T) := {|
  mtx := zset_mutex_;
  set_mtx := λ l z, mkZSet (tree z) (hash z) (nodes_ z) l (next_node z);
|}.

Module ZSet.
Section ZSet.
Context {LP : LockPolicy} {T : Type} `{OrderedMap T Z}.
Implicit Types z : ZSet T.

Definition new : ZSet T := mkZSet om_new HMap.new [] [] 1%positive.

Definition on_hash {A} (c : M (HMap string loc) A) : M (ZSet T) A :=
  zoom hash (λ h z, mkZSet (tree z) h (nodes_ z) (zset_mutex_ z) (next_node z)) c.
Definition on_tree {A} (c : M T A) : M (ZSet T) A :=
  zoom tree (λ t z, mkZSet t (hash z) (nodes_ z) (zset_mutex_ z) (next_node z)) c.

Fixpoint find_node (node : loc) (ns : list (loc * ZNode)) : option ZNode :=
  match ns with
  | [] => None
  | (l, n) :: ns' => if decide (l = node) then Some n else find_node node ns'
  end.

(** [*node]: undefined once the vector has let the node go. *)
Definition deref (node : loc) : M (ZSet T) ZNode := λ z,
  match find_node node (nodes_ z) with Some n => Done n z | None => Undef end.

Definition set_nodes (ns : list (loc * ZNode)) : M (ZSet T) unit :=
  modify (λ z, mkZSet (tree z) (hash z) ns (zset_mutex_ z) (next_node z)).

(** [std::make_shared<ZNode>(name, score)], kept by [nodes_.emplace_back]. *)
Definition keep_node (n : ZNode) : M (ZSet T) loc := λ z,
  Done (next_node z)
    (mkZSet (tree z) (hash z) (nodes_ z ++ [(next_node z, n)]) (zset_mutex_ z)
       (Pos.succ (next_node z))).

Definition node_set_value (node : loc) (score : Z) : M (ZSet T) unit :=
  deref node ;;
  z ← get;
  set_nodes ((λ p, if decide (p.1 = node) then (p.1, mkZNode (znode_key p.2) score) else p)
             <$> nodes_ z).

(** [nodes_.erase(std::remove_if(...))]. *)
Definition erase_node (node : loc) : M (ZSet T) unit :=
  z ← get; set_nodes (filter (λ p, p.1 ≠ node) (nodes_ z)).

Definition lookup (name : string) : M (ZSet T) (option loc) :=
  guarded Sh (on_hash (HMap.find name)).

Definition update_score (node : loc) (new_score : Z) : M (ZSet T) bool :=
  guarded Un (
    n ← deref node;
    let key := znode_key n in
    if bool_decide (key = ""%string) then mret false
    else
      r ← on_hash (HMap.find key);
      match r with
      | None => mret false
      | Some _ =>
          on_tree (om_del key) ;;
          node_set_value node new_score ;;
          on_tree (om_set key new_score) ;;
          mret true
      end).

Definition add_internal (name : string) (score : Z) : M (ZSet T) bool :=
  guarded Un (
    r ← lookup name;
    match r with
    | Some node => update_score node score ;; mret false
    | None =>
        if bool_decide (name = ""%string) then mret false
        else
          node ← keep_node (mkZNode name score);
          on_hash (HMap.insert name node) ;;
          on_tree (om_set name score) ;;
          mret true
    end).

(** The mutex is unlocked before the node is erased; the pointer returned is to
    a node that [nodes_] no longer keeps. *)
Definition pop_internal (name : string) : M (ZSet T) (option loc) :=
  r ← guarded Un (
    r ← on_hash (HMap.find name);
    match r with
    | None => mret None
    | Some node =>
        on_hash (HMap.remove name) ;;
        n ← deref node;
        on_tree (om_del (znode_key n)) ;;
        mret (Some node)
    end);
  match r with
  | None => mret None
  | Some node => erase_node node ;; mret (Some node)
  end.

Definition remove_internal (name : string) : M (ZSet T) bool :=
  guarded Un (
    r ← on_hash (HMap.find name);
    match r with
    | None => mret false
    | Some node =>
        on_hash (HMap.remove name) ;;
        n ← deref node;
        on_tree (om_del (znode_key n)) ;;
        erase_node node ;;
        mret true
    end).

Definition query (score : Z) (name : string) (offset : Z) : M (ZSet T) (option loc) :=
  guarded Sh (
    b ← on_tree (om_exists name);
    if b : bool then lookup name else mret None).

(** The score a client reads through the pointer [lookup] returns. *)
Definition score_of (name : string) : M (ZSet T) (option Z) :=
  r ← lookup name;
  match r with
  | None => mret None
  | Some node => n ← deref node; mret (Some (znode_value n))
  end.
End ZSet.
End ZSet.

(** ** Lemmas on the vector of nodes *)
Section NodeLemmas.
Implicit Types ns : list (loc * ZNode).

Lemma find_node_snoc ns node n :
  (∀ p, p ∈ ns → (p.1 < node)%positive) →
  ∀ l, ZSet.find_node l (ns ++ [(node, n)])
       = if decide (l = node) then Some n else ZSet.find_node l ns.
Proof.
  intros Hfresh l. induction ns as [|[l' n'] ns IH]; cbn.
  - destruct (decide (node = l)), (decide (l = node)); congruence.
  - assert (l' < node)%positive by (apply (Hfresh (l', n')); left).
    rewrite IH by (intros p Hp; apply Hfresh; by right).
    repeat case_decide; subst; try done. lia.
Qed.

Lemma find_node_erase ns node l :
  ZSet.find_node l (filter (λ p, p.1 ≠ node) ns)
  = if decide (l = node) then None else ZSet.find_node l ns.
Proof.
  induction ns as [|[l' n'] ns IH]; [by case_decide|].
  rewrite filter_cons. cbn [ZSet.find_node fst]. destruct (decide (l' = node)) as [->|Hne].
  - rewrite decide_False by (intros Hx; by apply Hx). rewrite IH.
    destruct (decide (l = node)), (decide (node = l)); congruence.
  - rewrite decide_True by done. cbn [ZSet.find_node]. rewrite IH.
    destruct (decide (l' = l)), (decide (l = node)); congruence.
Qed.

Lemma find_node_set ns node score l :
  ZSet.find_node l ((λ p : loc * ZNode,
    if decide (p.1 = node) then (p.1, mkZNode (znode_key p.2) score) else p) <$> ns)
  = (λ n, if decide (l = node) then mkZNode (znode_key n) score else n) <$> ZSet.find_node l ns.
Proof.
  induction ns as [|[l' n'] ns IH]; cbn; [done|].
  destruct (decide (l' = node)) as [->|Hne]; cbn; rewrite IH; repeat case_decide; cbn;
    repeat case_decide; congruence.
Qed.
End NodeLemmas.

(** ** The sorted set as a map from names to scores *)
Section Rep.
Context {LP : LockPolicy} {T : Type} `{OrderedMapLaws T Z}.
Implicit Types (z : ZSet T) (f : gmap string Z) (fh : gmap string loc).

Record zset_rep z fh f : Prop := {
  zr_free : zset_mutex_ z = [];
  zr_hash : represents (hash z) fh;
  zr_tree : om_rep (tree z) f;
  zr_dom : dom fh = dom f;
  zr_node : ∀ name node, fh !! name = Some node →
    ZSet.find_node node (nodes_ z) = mkZNode name <$> f !! name;
  zr_fresh : ∀ p, p ∈ nodes_ z → (p.1 < next_node z)%positive;
  zr_named : f !! ""%string = None;
}.

Lemma zr_size z fh f : zset_rep z fh f → size fh = size f.
Proof. intros Hr. by rewrite <- !size_dom, (zr_dom _ _ _ Hr). Qed.

Lemma zr_some z fh f name node :
  zset_rep z fh f → fh !! name = Some node → ∃ s, f !! name = Some s.
Proof.
  intros Hr Hn. assert (name ∈ dom f) as Hd by (rewrite <- (zr_dom _ _ _ Hr); by apply elem_of_dom_2 in Hn).
  by apply elem_of_dom in Hd.
Qed.

Lemma zr_none z fh f name : zset_rep z fh f → fh !! name = None ↔ f !! name = None.
Proof. intros Hr. by rewrite <- !not_elem_of_dom, (zr_dom _ _ _ Hr). Qed.

(** Two names never share a node. *)
Lemma zr_inj z fh f n1 n2 node :
  zset_rep z fh f → fh !! n1 = Some node → fh !! n2 = Some node → n1 = n2.
Proof.
  intros Hr H1 H2. pose proof (zr_node _ _ _ Hr _ _ H1) as E1. pose proof (zr_node _ _ _ Hr _ _ H2) as E2.
  destruct (zr_some _ _ _ _ _ Hr H1) as [s1 Hs1]. rewrite Hs1 in E1. rewrite E1 in E2.
  destruct (f !! n2); cbn in E2; congruence.
Qed.

Lemma zrep_new : zset_rep ZSet.new ∅ ∅.
Proof.
  split; cbn; [done|apply represents_new|apply om_new_rep|by rewrite !dom_empty_L| | |done].
  - intros name node Hx. by rewrite lookup_empty in Hx.
  - intros p Hp. by apply elem_of_nil in Hp.
Qed.

Lemma on_hash_Done {A} (c : M (HMap string loc) A) (t : T) h ns mx nx a h' :
  c h = Done a h' →
  ZSet.on_hash c (mkZSet t h ns mx nx) = Done a (mkZSet t h' ns mx nx).
Proof. intros Hc. unfold ZSet.on_hash, zoom. cbn. by rewrite Hc. Qed.

Lemma on_tree_Done {A} (c : M T A) t h ns mx nx a t' :
  c t = Done a t' →
  ZSet.on_tree c (mkZSet t h ns mx nx) = Done a (mkZSet t' h ns mx nx).
Proof. intros Hc. unfold ZSet.on_tree, zoom. cbn. by rewrite Hc. Qed.

(** [lookup] with the mutex free, or where it can be shared again. *)
Lemma lookup_rep (t : T) h ns mx nx fh name :
  represents h fh → Z.of_nat (size fh) < 2 ^ 32 → relock_allowed = true ∨ Un ∉ mx →
  ∃ h', ZSet.lookup name (mkZSet t h ns mx nx) = Done (fh !! name) (mkZSet t h' ns mx nx) ∧
    represents h' fh.
Proof.
  intros Hh Hlt Hpol. destruct (find_represents h fh name Hh) as (h' & Hrun & Hh'); [lia|].
  exists h'. split; [|done]. unfold ZSet.lookup. rewrite guarded_shared by done.
  cbn [set_mtx ZSet_mutex mtx tree hash nodes_ zset_mutex_ next_node].
  by rewrite (on_hash_Done _ t h ns (Sh :: mx) nx _ _ Hrun).
Qed.

Lemma score_of_spec z fh f name :
  zset_rep z fh f → Z.of_nat (size f) < 2 ^ 32 →
  ∃ z', ZSet.score_of name z = Done (f !! name) z' ∧ zset_rep z' fh f.
Proof.
  intros Hr Hlt. pose proof (zr_size _ _ _ Hr) as Hsz. pose proof Hr as [Hmx Hh Ht Hd Hn Hf Hne].
  destruct z as [t h ns mx nx]. cbn in *. subst mx.
  destruct (lookup_rep t h ns [] nx fh name Hh) as (h' & Hrun & Hh'); [by rewrite Hsz|by right; set_solver|].
  exists (mkZSet t h' ns [] nx). split; [|by split].
  unfold ZSet.score_of. rewrite (bind_Done _ _ _ _ _ Hrun).
  destruct (fh !! name) as [node|] eqn:En; cycle 1.
  { apply (zr_none _ _ _ _ Hr) in En. by rewrite En. }
  destruct (zr_some _ _ _ _ _ Hr En) as [s Hs]. specialize (Hn _ _ En). rewrite Hs in Hn |- *.
  unfold ZSet.deref. munfold. cbn. by rewrite Hn.
Qed.

(** The nodes after a member is let go, re-scored or added. *)
Lemma erased_rep t h t' h' ns nx fh f name node :
  zset_rep (mkZSet t h ns [] nx) fh f → fh !! name = Some node →
  represents h' (delete name fh) → om_rep t' (delete name f) →
  zset_rep (mkZSet t' h' (filter (λ p, p.1 ≠ node) ns) [] nx) (delete name fh) (delete name f).
Proof.
  intros Hr Hn Hh' Ht'. pose proof Hr as [_ _ _ Hd Hnode Hf Hne]. cbn in *.
  split; cbn; [done|done|done|by rewrite !dom_delete_L, Hd| | |].
  - intros name2 node2 H2. apply lookup_delete_Some in H2 as [Hne2 H2].
    rewrite find_node_erase, lookup_delete_ne by done. rewrite decide_False; [by apply Hnode|].
    intros ->. apply Hne2. by eapply zr_inj.
  - intros p Hp. apply Hf. by apply list_elem_of_filter in Hp as [_ ?].
  - by rewrite lookup_delete_None; right.
Qed.

Lemma rescored_rep t h t' h' ns nx fh f name node score :
  zset_rep (mkZSet t h ns [] nx) fh f → fh !! name = Some node →
  represents h' fh → om_rep t' (<[name := score]> f) →
  zset_rep (mkZSet t' h' ((λ p : loc * ZNode,
    if decide (p.1 = node) then (p.1, mkZNode (znode_key p.2) score) else p) <$> ns) [] nx)
    fh (<[name := score]> f).
Proof.
  intros Hr Hn Hh' Ht'. pose proof Hr as [_ _ _ Hd Hnode Hf Hne]. cbn in *.
  destruct (zr_some _ _ _ _ _ Hr Hn) as [s Hs].
  split; cbn; [done|done|done| | | |].
  - rewrite dom_insert_L, Hd. apply elem_of_dom_2 in Hs. set_solver.
  - intros name2 node2 H2. rewrite find_node_set, (Hnode _ _ H2).
    destruct (decide (name2 = name)) as [->|Hne2].
    + simplify_eq. rewrite lookup_insert_eq, Hs. cbn. by rewrite decide_True.
    + rewrite lookup_insert_ne by done. destruct (f !! name2); cbn; [|done].
      rewrite decide_False; [done|]. intros ->. apply Hne2. by eapply zr_inj.
  - intros p Hp. apply list_elem_of_fmap in Hp as (q & -> & Hq). specialize (Hf q Hq). by case_decide.
  - rewrite lookup_insert_ne; [done|]. intros ->. congruence.
Qed.

Lemma added_rep t h t' h' ns nx fh f name score :
  zset_rep (mkZSet t h ns [] nx) fh f → fh !! name = None → name ≠ ""%string →
  represents h' (<[name := nx]> fh) → om_rep t' (<[name := score]> f) →
  zset_rep (mkZSet t' h' (ns ++ [(nx, mkZNode name score)]) [] (Pos.succ nx))
    (<[name := nx]> fh) (<[name := score]> f).
Proof.
  intros Hr Hn Hname Hh' Ht'. pose proof Hr as [_ _ _ Hd Hnode Hf Hne]. cbn in *.
  split; cbn; [done|done|done|by rewrite !dom_insert_L, Hd| | |].
  - intros name2 node2 H2. rewrite find_node_snoc by done.
    destruct (decide (name2 = name)) as [->|Hne2].
    + rewrite lookup_insert_eq in H2. simplify_eq. rewrite lookup_insert_eq.
      by rewrite decide_True.
    + rewrite lookup_insert_ne in H2 by done. rewrite lookup_insert_ne by done.
      rewrite decide_False; [by apply Hnode|]. intros ->.
      destruct (zr_some _ _ _ _ _ Hr H2) as [s Hs]. pose proof (Hnode _ _ H2) as Hfind.
      rewrite Hs in Hfind. assert (∃ n, (nx, n) ∈ ns) as [n Hin].
      { clear -Hfind. induction ns as [|[l n] ns IH]; [done|]. cbn in Hfind.
        case_decide; [subst; exists n; left|]. destruct (IH Hfind) as [m Hm]. exists m. by right. }
      specialize (Hf _ Hin). cbn in Hf. lia.
  - intros p [Hp|Hp]%elem_of_app; [specialize (Hf p Hp); lia|].
    apply list_elem_of_singleton in Hp as ->. cbn. lia.
  - by rewrite lookup_insert_ne.
Qed.

Lemma deref_Done (t : T) h ns mx nx node n :
  ZSet.find_node node ns = Some n →
  ZSet.deref node (mkZSet t h ns mx nx) = Done n (mkZSet t h ns mx nx).
Proof. intros Hn. unfold ZSet.deref. cbn. by rewrite Hn. Qed.

(** What [remove_internal] and [pop_internal] do while they hold the mutex. *)
Lemma unlink_rep t h ns nx fh f name node :
  zset_rep (mkZSet t h ns [] nx) fh f → Z.of_nat (size f) < 2 ^ 32 → fh !! name = Some node →
  ∃ t' h' h1 s, f !! name = Some s ∧
    HMap.find name h = Done (Some node) h1 ∧ HMap.remove name h1 = Done (Some node) h' ∧
    ZSet.find_node node ns = Some (mkZNode name s) ∧ om_del name t = Done tt t' ∧
    represents h' (delete name fh) ∧ om_rep t' (delete name f).
Proof.
  intros Hr Hlt Hn. pose proof (zr_size _ _ _ Hr) as Hsz.
  destruct (zr_some _ _ _ _ _ Hr Hn) as [s Hs]. pose proof Hr as [_ Hh Ht _ Hnode _ _]. cbn in *.
  destruct (find_represents h fh name Hh) as (h1 & Hfind & Hh1); [lia|].
  destruct (remove_represents h1 fh name Hh1) as (h' & Hrem & Hh'); [lia|].
  destruct (om_del_rep t f name Ht Hlt) as (t' & Hdel & Ht').
  rewrite Hn in Hfind, Hrem. specialize (Hnode _ _ Hn). rewrite Hs in Hnode.
  exists t', h', h1, s. done.
Qed.

Lemma remove_internal_spec z fh f name :
  zset_rep z fh f → Z.of_nat (size f) < 2 ^ 32 →
  ∃ z' fh', ZSet.remove_internal name z = Done (bool_decide (is_Some (f !! name))) z' ∧
    zset_rep z' fh' (delete name f).
Proof.
  intros Hr Hlt. destruct z as [t h ns mx nx]. pose proof (zr_free _ _ _ Hr) as Hmx. cbn in Hmx.
  subst mx. unfold ZSet.remove_internal. rewrite guarded_free by done.
  cbn [set_mtx ZSet_mutex mtx tree hash nodes_ zset_mutex_ next_node].
  destruct (fh !! name) as [node|] eqn:En.
  - destruct (unlink_rep t h ns nx fh f name node Hr Hlt En)
      as (t' & h' & h1 & s & Hs & Hfind & Hrem & Hnode & Hdel & Hh' & Ht').
    rewrite (bind_Done _ _ _ _ _ (on_hash_Done _ t h ns [Un] nx _ _ Hfind)).
    rewrite (bind_Done _ _ _ _ _ (on_hash_Done _ t h1 ns [Un] nx _ _ Hrem)).
    rewrite (bind_Done _ _ _ _ _ (deref_Done t h' ns [Un] nx node _ Hnode)).
    rewrite (bind_Done _ _ _ _ _ (on_tree_Done _ t h' ns [Un] nx _ _ Hdel)).
    eexists _, _. split; [|by eapply erased_rep]. rewrite Hs. done.
  - destruct (find_represents h fh name) as (h' & Hfind & Hh');
      [apply Hr|rewrite (zr_size _ _ _ Hr); lia|].
    rewrite En in Hfind. rewrite (bind_Done _ _ _ _ _ (on_hash_Done _ t h ns [Un] nx _ _ Hfind)).
    apply (zr_none _ _ _ _ Hr) in En. rewrite En, delete_id by done.
    eexists _, fh. split; [done|]. destruct Hr as [_ _ Ht Hd Hn Hf Hne]. by split.
Qed.

Lemma pop_internal_spec z fh f name s :
  zset_rep z fh f → Z.of_nat (size f) < 2 ^ 32 → f !! name = Some s →
  ∃ z' fh' node, ZSet.pop_internal name z = Done (Some node) z' ∧
    ZSet.deref node z' = Undef ∧ zset_rep z' fh' (delete name f).
Proof.
  intros Hr Hlt Hs. destruct z as [t h ns mx nx]. pose proof (zr_free _ _ _ Hr) as Hmx. cbn in Hmx.
  subst mx. destruct (fh !! name) as [node|] eqn:En; [|apply (zr_none _ _ _ _ Hr) in En; congruence].
  destruct (unlink_rep t h ns nx fh f name node Hr Hlt En)
    as (t' & h' & h1 & s' & Hs' & Hfind & Hrem & Hnode & Hdel & Hh' & Ht').
  eexists _, _, node. split; [|split; [|by eapply erased_rep]].
  - unfold ZSet.pop_internal. rewrite (bind_Done _ _ _ (Some node) (mkZSet t' h' ns [] nx)); [done|].
    rewrite guarded_free by done. cbn [set_mtx ZSet_mutex mtx tree hash nodes_ zset_mutex_ next_node].
    rewrite (bind_Done _ _ _ _ _ (on_hash_Done _ t h ns [Un] nx _ _ Hfind)).
    rewrite (bind_Done _ _ _ _ _ (on_hash_Done _ t h1 ns [Un] nx _ _ Hrem)).
    rewrite (bind_Done _ _ _ _ _ (deref_Done t h' ns [Un] nx node _ Hnode)).
    by rewrite (bind_Done _ _ _ _ _ (on_tree_Done _ t h' ns [Un] nx _ _ Hdel)).
  - unfold ZSet.deref. cbn. by rewrite find_node_erase, decide_True.
Qed.

Lemma update_score_spec t h ns nx fh f name node score :
  zset_rep (mkZSet t h ns [] nx) fh f → Z.of_nat (size f) + 1 < 2 ^ 32 →
  fh !! name = Some node → ∀ mx, mx = [] ∨ relock_allowed = true →
  ∃ t' h' ns', ZSet.update_score node score (mkZSet t h ns mx nx)
      = Done true (mkZSet t' h' ns' mx nx) ∧
    zset_rep (mkZSet t' h' ns' [] nx) fh (<[name := score]> f).
Proof.
  intros Hr Hlt Hn mx Hpol. pose proof (zr_size _ _ _ Hr) as Hsz.
  destruct (zr_some _ _ _ _ _ Hr Hn) as [s Hs]. pose proof Hr as [_ Hh Ht _ Hnode _ Hempty]. cbn in *.
  destruct (find_represents h fh name Hh) as (h1 & Hfind & Hh1); [lia|].
  destruct (om_del_rep t f name Ht) as (t1 & Hdel & Ht1); [lia|].
  destruct (om_set_rep t1 (delete name f) name score Ht1) as (t' & Hset & Ht').
  { rewrite map_size_delete_Some by done. lia. }
  rewrite insert_delete_eq in Ht'. rewrite Hn in Hfind.
  specialize (Hnode _ _ Hn). rewrite Hs in Hnode. cbn in Hnode.
  assert (name ≠ ""%string) as Hne by (intros ->; congruence).
  eexists t', h1, _. split; [|by eapply (rescored_rep t h)].
  assert (∀ body : M (ZSet T) bool, guarded Un body (mkZSet t h ns mx nx) =
    match body (mkZSet t h ns (Un :: mx) nx) with
    | Done a s2 => Done a (set_mtx (tail (mtx s2)) s2)
    | Throw e s2 => Throw e (set_mtx (tail (mtx s2)) s2)
    | Stuck => Stuck | Undef => Undef | AssertFail => AssertFail | NoFuel => NoFuel
    end) as Hguard.
  { intros body. destruct Hpol as [->|Hpol]; [by rewrite guarded_free|by rewrite guarded_allowed]. }
  unfold ZSet.update_score. rewrite Hguard.
  rewrite (bind_Done _ _ _ _ _ (deref_Done t h ns (Un :: mx) nx node _ Hnode)).
  cbn zeta. cbn [znode_key]. rewrite bool_decide_eq_false_2 by done.
  rewrite (bind_Done _ _ _ _ _ (on_hash_Done _ t h ns (Un :: mx) nx _ _ Hfind)).
  rewrite (bind_Done _ _ _ _ _ (on_tree_Done _ t h1 ns (Un :: mx) nx _ _ Hdel)).
  unfold ZSet.node_set_value at 1. rewrite bind_assoc.
  rewrite (bind_Done _ _ _ _ _ (deref_Done t1 h1 ns (Un :: mx) nx node _ Hnode)).
  unfold ZSet.set_nodes. munfold. cbn [tree hash nodes_ zset_mutex_ next_node].
  by rewrite (on_tree_Done _ t1 h1 _ (Un :: mx) nx _ _ Hset).
Qed.

(** [lookup] waits for the mutex that [add_internal] holds. *)
Lemma add_internal_stuck z name score :
  relock_allowed = false → zset_mutex_ z = [] → ZSet.add_internal name score z = Stuck.
Proof.
  intros Hpol Hmx. unfold ZSet.add_internal. rewrite guarded_free by done.
  rewrite bind_Stuck; [done|]. unfold ZSet.lookup. by rewrite (guarded_relock _ _ _ []).
Qed.

Lemma add_internal_spec z fh f name score :
  relock_allowed = true → zset_rep z fh f → Z.of_nat (size f) + 1 < 2 ^ 32 → name ≠ ""%string →
  ∃ z' fh', ZSet.add_internal name score z = Done (bool_decide (f !! name = None)) z' ∧
    zset_rep z' fh' (<[name := score]> f).
Proof.
  intros Hpol Hr Hlt Hname. pose proof (zr_size _ _ _ Hr) as Hsz.
  destruct z as [t h ns mx nx]. pose proof (zr_free _ _ _ Hr) as Hmx. cbn in Hmx. subst mx.
  unfold ZSet.add_internal. rewrite guarded_free by done.
  cbn [set_mtx ZSet_mutex mtx tree hash nodes_ zset_mutex_ next_node].
  destruct (lookup_rep t h ns [Un] nx fh name) as (h1 & Hlook & Hh1);
    [apply Hr|rewrite Hsz; lia|by left|].
  rewrite (bind_Done _ _ _ _ _ Hlook).
  assert (zset_rep (mkZSet t h1 ns [] nx) fh f) as Hr1.
  { destruct Hr as [_ _ Ht Hd Hn Hf Hne]. by split. }
  destruct (fh !! name) as [node|] eqn:En.
  - destruct (update_score_spec t h1 ns nx fh f name node score Hr1 Hlt En [Un])
      as (t' & h' & ns' & Hrun & Hr'); [by right|].
    rewrite (bind_Done _ _ _ _ _ Hrun). destruct (zr_some _ _ _ _ _ Hr En) as [s Hs].
    rewrite Hs. by exists (mkZSet t' h' ns' [] nx), fh.
  - rewrite bool_decide_eq_false_2 by done.
    destruct (insert_represents h1 fh name nx Hh1 En) as (h' & Hins & Hh');
      [rewrite Hsz; lia|by left|].
    destruct (om_set_rep t f name score) as (t' & Hset & Ht'); [apply Hr|done|].
    unfold ZSet.keep_node at 1. unfold mbind at 1, M_bind at 1.
    cbn [tree hash nodes_ zset_mutex_ next_node].
    rewrite (bind_Done _ _ _ _ _ (on_hash_Done _ t h1 _ [Un] (Pos.succ nx) _ _ Hins)).
    rewrite (bind_Done _ _ _ _ _ (on_tree_Done _ t h' _ [Un] (Pos.succ nx) _ _ Hset)).
    pose proof En as Ef. apply (zr_none _ _ _ _ Hr) in Ef. rewrite Ef.
    eexists _, _. split; [done|]. by eapply added_rep.
Qed.

(** The empty name is not added. *)
Lemma add_empty_spec z fh f score :
  relock_allowed = true → zset_rep z fh f → Z.of_nat (size f) + 1 < 2 ^ 32 →
  ∃ z', ZSet.add_internal "" score z = Done false z' ∧ zset_rep z' fh f.
Proof.
  intros Hpol Hr Hlt. pose proof (zr_size _ _ _ Hr) as Hsz.
  pose proof (proj2 (zr_none _ _ _ _ Hr) (zr_named _ _ _ Hr)) as Hnone.
  destruct z as [t h ns mx nx]. pose proof (zr_free _ _ _ Hr) as Hmx. cbn in Hmx. subst mx.
  unfold ZSet.add_internal. rewrite guarded_free by done.
  cbn [set_mtx ZSet_mutex mtx tree hash nodes_ zset_mutex_ next_node].
  destruct (lookup_rep t h ns [Un] nx fh "") as (h1 & Hlook & Hh1); [apply Hr|rewrite Hsz; lia|by left|].
  rewrite (bind_Done _ _ _ _ _ Hlook), Hnone. exists (mkZSet t h1 ns [] nx). split; [done|].
  destruct Hr as [_ _ Ht Hd Hn Hf Hne]. by split.
Qed.
End Rep.

(** ** Properties *)
Inductive zset_call : Type :=
| CallAdd (name : string) (score : Z)
| CallRemove (name : string)
| CallScore (name : string).

Inductive zset_reply : Type := Changed (b : bool) | Score (s : option Z).

Section Properties.
Context {LP : LockPolicy} {T : Type} `{OrderedMapLaws T Z}.
Implicit Types (z : ZSet T) (f : gmap string Z).

Definition zset_run (c : zset_call) : M (ZSet T) zset_reply :=
  match c with
  | CallAdd name score => b ← ZSet.add_internal name score; mret (Changed b)
  | CallRemove name => b ← ZSet.remove_internal name; mret (Changed b)
  | CallScore name => s ← ZSet.score_of name; mret (Score s)
  end.

(** The finite map from names to scores: adding tells whether the name is new. *)
Definition scores_run (c : zset_call) f : zset_reply * gmap string Z :=
  match c with
  | CallAdd name score =>
      if decide (name = ""%string) then (Changed false, f)
      else (Changed (bool_decide (f !! name = None)), <[name := score]> f)
  | CallRemove name => (Changed (bool_decide (is_Some (f !! name))), delete name f)
  | CallScore name => (Score (f !! name), f)
  end.

(** The calls the lock policy does not let return: [add] with [std::shared_mutex]. *)
Definition hangs (c : zset_call) : bool :=
  match c with CallAdd _ _ => negb relock_allowed | _ => false end.


(** With [std::shared_mutex] no call of [add_internal] ever returns, whatever
    the set holds: it calls [lookup] while it holds [zset_mutex_]. *)
Theorem zadd_hangs z name score :
  relock_allowed = false → zset_mutex_ z = [] → ZSet.add_internal name score z = Stuck.
Proof. apply add_internal_stuck. Qed.

(** [pop_internal] removes a member that is present, and the pointer it
    returns is to a node that is already destroyed: dereferencing it is undefined. *)
Theorem pop_returns_dangling z fh f name s :
  zset_rep z fh f → Z.of_nat (size f) < 2 ^ 32 → f !! name = Some s →
  ∃ z' fh' node, ZSet.pop_internal name z = Done (Some node) z' ∧
    ZSet.deref node z' = Undef ∧ zset_rep z' fh' (delete name f).
Proof. apply pop_internal_spec. Qed.
End Properties.

(** ** Witnesses, with the locking AVL tree as the ordered map *)
Section ReentrantWitnesses.
#[local] Existing Instance reentrant.

Definition avl_zset : ZSet (AVLTree string Z) := ZSet.new.


Lemma pop_returns_dangling_witness :
  ∃ z z' node, ZSet.pop_internal (T := AVLTree string Z) "ann" z = Done (Some node) z' ∧
    ZSet.deref node z' = Undef.
Proof.
  destruct (add_internal_spec avl_zset ∅ ∅ "ann" 7) as (z & fh & _ & Hr);
    [done|apply zrep_new|done|done|].
  destruct (pop_returns_dangling z fh {["ann"%string := 7]} "ann" 7 Hr)
    as (z' & fh' & node & Hrun & Hd & _); [done|done|].
  by exists z, z', node.
Defined.
End ReentrantWitnesses.

Section SharedMutexWitness.
#[local] Existing Instance std_shared_mutex.

Lemma zadd_hangs_witness :
  ZSet.add_internal "ann" 7 (ZSet.new : ZSet (AVLTree string Z)) = Stuck.
Proof. by apply zadd_hangs. Defined.
End SharedMutexWitness.
