(* ===== verification/EntryManager.v ===== *)
(** The entries of the key space (entry_manager.hpp): the hash map from keys to
    entry objects, and the heap of expiry times that points back into them.

    An entry object lives in a store of objects, because the heap keeps
    [&entry.heap_idx].  Every object is owned by the [shared_ptr] in [db_], and is
    destroyed when [db_] lets it go (the handlers' own copies are never used
    after that).  The clock is an argument.  The thread pool is never given a
    task and is left out. *)

From S2P Require Import Prelude Bytes HashTable HashMapSpec Heap AVL ZSet.

(** ** Entries *)

(** The alternatives of [IsValidType]. *)
Inductive entry_value (T : Type) : Type :=
| VString (s : string)
| VInt64 (i : Z)
| VDouble (d : Z)
| VList (l : list string)
| VHash (h : gmap string string)
| VSet (s : gset string)
| VZSet (z : ZSet T).
Arguments VString {T}. Arguments VInt64 {T}. Arguments VDouble {T}. Arguments VList {T}.
Arguments VHash {T}. Arguments VSet {T}. Arguments VZSet {T}.

Record Entry (T : Type) := mkEntry {
  heap_idx : Z;
  key : string;
  value : entry_value T;
}.
Arguments mkEntry {T}. Arguments heap_idx {T}. Arguments key {T}. Arguments value {T}.

Definition set_heap_idx {T} (z : Z) (e : Entry T) : Entry T := mkEntry z (key e) (value e).
Definition set_entry_value {T} (v : entry_value T) (e : Entry T) : Entry T :=
  mkEntry (heap_idx e) (key e) v.

(** The heap reaches the objects through [&entry.heap_idx] only. *)
Abbreviation objects T := (gmap loc (Entry T)).

#[export] Instance objects_posmem {T} : PosMem (objects T) := {|
  load_pos l mem := heap_idx <$> mem !! l;
  store_pos l z mem := alter (set_heap_idx z) l mem;
  same_objects mem mem' := set_heap_idx 0 <$> mem = set_heap_idx 0 <$> mem';
|}.

#[export] Instance objects_posmem_laws {T} : PosMemLaws (objects T).
Proof.
  split; cbn.
  - intros l l' z mem. case_decide as Hl; subst.
    + rewrite lookup_alter_eq. by destruct (mem !! l').
    + by rewrite lookup_alter_ne.
  - done.
  - congruence.
  - intros l z mem. apply map_eq. intros i. rewrite !lookup_fmap.
    destruct (decide (l = i)) as [->|]; [rewrite lookup_alter_eq|by rewrite lookup_alter_ne].
    by destruct (mem !! i).
Qed.

(** ** EntryManager *)
Record EntryManager (T : Type) := mkEntryManager {
  db_ : HMap string loc;
  heap_ : BinaryHeap Z;
  entries : objects T;
  next_entry : loc;
}.
Arguments mkEntryManager {T}. Arguments db_ {T}. Arguments heap_ {T}. Arguments entries {T}.
Arguments next_entry {T}.

Module EntryManager.
Section EntryManager.
Context {LP : LockPolicy} {T : Type}.
Abbreviation em := (EntryManager T).

Definition new : em := mkEntryManager HMap.new (mkBinaryHeap [] []) ∅ 1%positive.

Definition on_db {A} (c : M (HMap string loc) A) : M em A :=
  zoom db_ (λ h s, mkEntryManager h (heap_ s) (entries s) (next_entry s)) c.

Definition on_heap {A} (c : M (BinaryHeap Z * objects T) A) : M em A :=
  zoom (λ s, (heap_ s, entries s))
       (λ p s, mkEntryManager (db_ s) p.1 p.2 (next_entry s)) c.

(** [*entry]: undefined once the object is destroyed. *)
Definition deref (l : loc) : M em (Entry T) := λ s,
  match entries s !! l with Some e => Done e s | None => Undef end.

Definition set_entries (es : objects T) : M em unit :=
  modify (λ s, mkEntryManager (db_ s) (heap_ s) es (next_entry s)).

Definition write_heap_idx (l : loc) (z : Z) : M em unit :=
  e ← deref l; s ← get; set_entries (<[l := set_heap_idx z e]> (entries s)).

(** [std::make_shared<Entry<T>>]. *)
Definition make_entry (k : string) (v : entry_value T) : M em loc := λ s,
  Done (next_entry s)
    (mkEntryManager (db_ s) (heap_ s) (<[next_entry s := mkEntry npos k v]> (entries s))
       (Pos.succ (next_entry s))).

(** The last [shared_ptr] to an object goes. *)
Definition release_ (l : loc) : M em unit := s ← get; set_entries (delete l (entries s)).

Definition find_entry (k : string) : M em (option loc) := on_db (HMap.find k).

Definition create_entry (k : string) (v : entry_value T) : M em loc :=
  entry ← make_entry k v;
  on_db (HMap.insert k entry) ;;
  mret entry.

Definition heap_size : M em nat := on_heap BinaryHeap.size.

(** [remove_from_heap]: it pops the root, whatever the entry's own place is. *)
Definition remove_from_heap (entry : loc) : M em bool :=
  e ← deref entry;
  n ← heap_size;
  if Z.of_nat n <=? heap_idx e then mret false
  else
    on_heap (BinaryHeap.pop Z.ltb) ;;
    write_heap_idx entry npos ;;
    mret true.

(** [add_to_heap]: the index is overwritten with the last position after [push]
    has already recorded the true one. *)
Definition add_to_heap (entry : loc) (expire_at : Z) : M em bool :=
  e ← deref entry;
  if negb (heap_idx e =? npos) then mret false
  else
    on_heap (BinaryHeap.push Z.ltb (mkHeapItem expire_at (Some entry))) ;;
    n ← heap_size;
    write_heap_idx entry (Z.of_nat n - 1) ;;
    e ← deref entry;
    on_heap (BinaryHeap.update Z.ltb (Z.to_nat (heap_idx e))) ;;
    mret true.

Definition update_heap (entry : loc) (new_expire_at : Z) : M em bool :=
  e ← deref entry;
  n ← heap_size;
  if Z.of_nat n <=? heap_idx e then mret false
  else
    on_heap (BinaryHeap.at_set_value (Z.to_nat (heap_idx e)) new_expire_at) ;;
    on_heap (BinaryHeap.update Z.ltb (Z.to_nat (heap_idx e))) ;;
    mret true.

Definition delete_entry (k : string) : M em bool :=
  r ← on_db (HMap.find k);
  match r with
  | None => mret false
  | Some entry =>
      e ← deref entry;
      (if negb (heap_idx e =? npos) then remove_from_heap entry else mret false) ;;
      r ← on_db (HMap.remove k);
      (match r with Some l => release_ l | None => mret tt end) ;;
      mret true
  end.

(** The objects that the nodes of a table own. *)
Definition table_locs (t : HTable string loc) : list loc := HashTable.value_ <$> concat (buckets_ t).
Definition db_locs (h : HMap string loc) : list loc :=
  table_locs (primary_table_ h)
  ++ match temporary_table_ h with Some t => table_locs t | None => [] end.

Definition clear_all : M em bool :=
  s ← get;
  on_db HMap.clear ;;
  set_entries (foldr delete (entries s) (db_locs (db_ s))) ;;
  on_heap BinaryHeap.clear ;;
  s ← get;
  n ← heap_size;
  mret ((HMap.size (db_ s) =? 0) && (n =? 0)%nat).

(** [expire_at], in [uint64_t]. *)
Definition expiry (now ttl_ms : Z) : Z := wrapu 64 (now + wrapu 64 (wrapu 64 ttl_ms * 1000)).

Definition set_entry_ttl (now : Z) (entry : loc) (ttl_ms : Z) : M em bool :=
  e ← deref entry;
  if ttl_ms <=? 0 then delete_entry (key e)
  else
    let expire_at := expiry now ttl_ms in
    (if heap_idx e =? npos then add_to_heap entry expire_at else update_heap entry expire_at) ;;
    mret true.

(** [(expire_at - now) / 1000] is computed in [uint64_t]. *)
Definition remaining (now expire_at : Z) : Z :=
  let remaining_time := wraps 64 (wrapu 64 (expire_at - now) / 1000) in
  if 0 <? remaining_time then remaining_time else -1.

Definition get_expiry_time (now : Z) (entry : loc) : M em Z :=
  e ← deref entry;
  if heap_idx e =? npos then mret (-1)
  else
    n ← heap_size;
    if Z.of_nat n <=? heap_idx e then mret (-1)
    else
      x ← on_heap (BinaryHeap.at_ (Z.to_nat (heap_idx e)));
      mret (remaining now (value_ x)).
End EntryManager.
End EntryManager.

(** ** The key space without expiry times *)
Section Plain.
Context {LP : LockPolicy} {T : Type}.
Implicit Types (s : EntryManager T) (fk : gmap string loc).

(** Every key of [db_] has its own object, and none has an expiry time. *)
Record plain s fk : Prop := {
  pl_db : represents (db_ s) fk;
  pl_entry : ∀ k l, fk !! k = Some l → ∃ v, entries s !! l = Some (mkEntry npos k v);
  pl_fresh : ∀ l, is_Some (entries s !! l) → (l < next_entry s)%positive;
  pl_heap : heap_ s = mkBinaryHeap [] [];
}.

(** The values the key space holds. *)
Definition contents s fk : gmap string (entry_value T) :=
  omap (λ l, value <$> entries s !! l) fk.

Lemma contents_lookup s fk k :
  contents s fk !! k = l ← fk !! k; value <$> entries s !! l.
Proof. unfold contents. by rewrite lookup_omap. Qed.

Lemma plain_inj s fk k1 k2 l : plain s fk → fk !! k1 = Some l → fk !! k2 = Some l → k1 = k2.
Proof.
  intros Hp H1 H2. destruct (pl_entry _ _ Hp _ _ H1) as [v1 E1].
  destruct (pl_entry _ _ Hp _ _ H2) as [v2 E2]. congruence.
Qed.

Lemma contents_none s fk k : plain s fk → contents s fk !! k = None ↔ fk !! k = None.
Proof.
  intros Hp. rewrite contents_lookup. destruct (fk !! k) as [l|] eqn:E; cbn; [|done].
  destruct (pl_entry _ _ Hp _ _ E) as [v Ev]. by rewrite Ev.
Qed.

Lemma contents_some s fk k v :
  plain s fk → contents s fk !! k = Some v →
  ∃ l, fk !! k = Some l ∧ entries s !! l = Some (mkEntry npos k v).
Proof.
  intros Hp. rewrite contents_lookup. destruct (fk !! k) as [l|] eqn:E; cbn; [|done].
  destruct (pl_entry _ _ Hp _ _ E) as [v' Ev]. rewrite Ev. cbn. intros [= ->]. eauto.
Qed.

Lemma contents_size s fk : plain s fk → size (contents s fk) = size fk.
Proof.
  intros Hp. rewrite <- !size_dom. f_equal. apply set_eq. intros k.
  pose proof (contents_none s fk k Hp) as Hn. rewrite <- !not_elem_of_dom in Hn.
  destruct (decide (k ∈ dom (contents s fk))), (decide (k ∈ dom fk)); tauto.
Qed.

Lemma on_db_Done {A} (c : M (HMap string loc) A) h hp es nx a h' :
  c h = Done a h' →
  EntryManager.on_db c (mkEntryManager h hp es nx : EntryManager T)
  = Done a (mkEntryManager h' hp es nx).
Proof. intros Hc. unfold EntryManager.on_db, zoom. cbn. by rewrite Hc. Qed.

Lemma on_heap_Done {A} (c : M (BinaryHeap Z * objects T) A) h hp es nx a hp' es' :
  c (hp, es) = Done a (hp', es') →
  EntryManager.on_heap c (mkEntryManager h hp es nx) = Done a (mkEntryManager h hp' es' nx).
Proof. intros Hc. unfold EntryManager.on_heap, zoom. cbn. by rewrite Hc. Qed.

Lemma deref_entry (s : EntryManager T) l e :
  entries s !! l = Some e → EntryManager.deref l s = Done e s.
Proof. intros He. unfold EntryManager.deref. by rewrite He. Qed.

Lemma plain_db s fk h' :
  plain s fk → represents h' fk →
  plain (mkEntryManager h' (heap_ s) (entries s) (next_entry s)) fk.
Proof. intros [Hd He Hf Hh] Hh'. by split. Qed.

Lemma plain_new : plain EntryManager.new ∅.
Proof.
  split; cbn; [apply represents_new| | |done].
  - intros k l Hx. by rewrite lookup_empty in Hx.
  - intros l [x Hx]. by rewrite lookup_empty in Hx.
Qed.

Lemma find_entry_plain s fk k :
  plain s fk → Z.of_nat (size fk) < 2 ^ 60 →
  ∃ h', EntryManager.find_entry k s
      = Done (fk !! k) (mkEntryManager h' (heap_ s) (entries s) (next_entry s)) ∧
    represents h' fk.
Proof.
  intros Hp Hlt. destruct (find_represents (db_ s) fk k (pl_db _ _ Hp) Hlt) as (h' & Hrun & Hh').
  exists h'. split; [|done]. destruct s. by apply on_db_Done.
Qed.

(** [create_entry] of a key that is absent. *)
Lemma create_entry_plain s fk k v :
  plain s fk → Z.of_nat (size fk) < 2 ^ 60 - 1 → fk !! k = None →
  relock_allowed = true ∨ Z.of_nat (size fk) < 32 →
  ∃ s', EntryManager.create_entry k v s = Done (next_entry s) s' ∧
    plain s' (<[k := next_entry s]> fk) ∧
    contents s' (<[k := next_entry s]> fk) = <[k := v]> (contents s fk).
Proof.
  intros Hp Hlt Hk Hpol. destruct s as [h hp es nx]. pose proof Hp as [Hd He Hf Hh]. cbn in *.
  destruct (insert_represents h fk k nx Hd Hk) as (h' & Hins & Hh'); [done| |].
  { destruct Hpol; [by left|right; by eapply small_no_growth]. }
  eexists. unfold EntryManager.create_entry, EntryManager.make_entry.
  unfold mbind at 1, M_bind at 1. cbn [db_ heap_ entries next_entry].
  rewrite (bind_Done _ _ _ _ _ (on_db_Done _ _ _ _ _ _ _ Hins)).
  assert (∀ k' l, fk !! k' = Some l → l ≠ nx) as Hne.
  { intros k' l Hl ->. destruct (He _ _ Hl) as [v' Hv']. specialize (Hf nx (mk_is_Some _ _ Hv')). lia. }
  split; [done|]. split; [split; cbn; [done| | |done]|].
  - intros k' l Hl. destruct (decide (k = k')) as [<-|Hkk].
    + rewrite lookup_insert_eq in Hl. simplify_eq. rewrite lookup_insert_eq. eauto.
    + rewrite lookup_insert_ne in Hl by done. rewrite lookup_insert_ne by (symmetry; by eapply Hne).
      by apply He.
  - intros l [x Hx]. destruct (decide (l = nx)) as [->|]; [lia|].
    rewrite lookup_insert_ne in Hx by done. specialize (Hf l (mk_is_Some _ _ Hx)). lia.
  - apply map_eq. intros k'. rewrite contents_lookup. cbn.
    destruct (decide (k = k')) as [<-|Hkk].
    + rewrite !lookup_insert_eq. cbn. by rewrite lookup_insert_eq.
    + rewrite !lookup_insert_ne by done. rewrite contents_lookup. cbn.
      destruct (fk !! k') as [l|] eqn:El; cbn; [|done].
      by rewrite lookup_insert_ne by (symmetry; by eapply Hne).
Qed.

Lemma delete_entry_plain s fk k :
  plain s fk → Z.of_nat (size fk) < 2 ^ 60 →
  ∃ s', EntryManager.delete_entry k s = Done (bool_decide (is_Some (contents s fk !! k))) s' ∧
    plain s' (delete k fk) ∧ contents s' (delete k fk) = delete k (contents s fk).
Proof.
  intros Hp Hlt. destruct s as [h hp es nx]. pose proof Hp as [Hd He Hf Hh]. cbn in *.
  destruct (find_represents h fk k Hd Hlt) as (h1 & Hfind & Hh1).
  unfold EntryManager.delete_entry.
  rewrite (bind_Done _ _ _ _ _ (on_db_Done _ _ _ _ nx _ _ Hfind)).
  destruct (fk !! k) as [l|] eqn:Ek; cycle 1.
  { pose proof Ek as Hc. apply (contents_none _ _ _ Hp) in Hc. rewrite Hc.
    eexists. rewrite !delete_id by done. split; [done|]. by split. }
  destruct (He _ _ Ek) as [v Hv].
  destruct (remove_represents h1 fk k Hh1 Hlt) as (h' & Hrem & Hh'). rewrite Ek in Hrem.
  rewrite (bind_Done _ _ _ _ _ (deref_entry (mkEntryManager h1 hp es nx) l _ Hv)).
  cbn [heap_idx]. rewrite Z.eqb_refl. cbn [negb]. rewrite bind_ret.
  rewrite (bind_Done _ _ _ _ _ (on_db_Done _ _ _ _ nx _ _ Hrem)).
  assert (contents (mkEntryManager h hp es nx) fk !! k = Some v) as Hc
    by (rewrite contents_lookup, Ek; cbn; by rewrite Hv).
  rewrite Hc. eexists. split; [done|].
  assert (∀ k' l', k' ≠ k → fk !! k' = Some l' → l' ≠ l) as Hne
    by (intros k' l' Hkk Hl' ->; apply Hkk; by eapply plain_inj).
  split; [split; cbn; [done| | |done]|].
  - intros k' l' [Hkk Hl']%lookup_delete_Some. rewrite lookup_delete_ne; [by apply He|].
    symmetry. eapply Hne; [|done]. done.
  - intros l' [x [_ Hx]%lookup_delete_Some]. by apply Hf.
  - apply map_eq. intros k'. rewrite contents_lookup. cbn.
    destruct (decide (k = k')) as [<-|Hkk]; [by rewrite !lookup_delete_eq|].
    rewrite !lookup_delete_ne by done. rewrite contents_lookup. cbn.
    destruct (fk !! k') as [l'|] eqn:El; cbn; [|done].
    rewrite lookup_delete_ne; [done|]. symmetry. by eapply (Hne k').
Qed.

Lemma clear_represents (h : HMap string loc) fk :
  represents h fk →
  ∃ h', HMap.clear h = Done tt h' ∧ represents h' (∅ : gmap string loc).
Proof.
  intros [Hok Hmx _ _]. destruct h as [p t pos mx]. cbn in Hmx. subst mx.
  exists (mkHMap HTable.blank None 0 []). split; [done|]. apply represents_new.
Qed.

Lemma foldr_delete_lookup (es : objects T) ls l e :
  foldr delete es ls !! l = Some e → es !! l = Some e.
Proof.
  induction ls as [|l' ls IH]; cbn; [done|].
  by intros [_ ?]%lookup_delete_Some; apply IH.
Qed.

Lemma clear_all_plain s fk :
  plain s fk → ∃ s', EntryManager.clear_all s = Done true s' ∧ plain s' ∅ ∧ contents s' ∅ = ∅.
Proof.
  intros Hp. destruct s as [h hp es nx]. pose proof Hp as [Hd He Hf Hh]. cbn in *. subst hp.
  destruct (clear_represents h fk Hd) as (h' & Hclear & Hh').
  unfold EntryManager.clear_all. rewrite bind_get.
  rewrite (bind_Done _ _ _ _ _ (on_db_Done _ _ _ _ nx _ _ Hclear)).
  assert (HMap.size h' = 0) as Hsz by (rewrite (size_represents h' ∅ Hh'); [done|by rewrite map_size_empty]).
  exists (mkEntryManager h' (mkBinaryHeap [] [])
    (foldr delete es (EntryManager.db_locs h)) nx).
  split; [|split; [|done]].
  { transitivity (Done (A := bool) ((HMap.size h' =? 0) && true)
      (mkEntryManager h' (mkBinaryHeap [] []) (foldr delete es (EntryManager.db_locs h)) nx));
      [reflexivity|by rewrite Hsz]. }
  split; cbn; [done| | |done].
  - intros k l Hx. by rewrite lookup_empty in Hx.
  - intros l [x Hx]. apply foldr_delete_lookup in Hx. by apply Hf.
Qed.
End Plain.

(** ** Expiry times *)
Section Expiry.
Context {LP : LockPolicy} {T : Type}.
Implicit Types (s : EntryManager T) (l : loc) (t : Z).

(** The heap and the objects agree: the heap order holds and every item's entry
    records its position. *)
Definition expiry_ok s : Prop := heap_ok Z.ltb (heap_ s) (entries s).

(** The heap holds expiry time [t] for the entry [l]. *)
Definition has_expiry s l t : Prop :=
  mkHeapItem t (Some l) ∈ items_ (heap_ s).

Lemma has_expiry_index s l t :
  expiry_ok s → has_expiry s l t →
  ∃ i e, items_ (heap_ s) !! i = Some (mkHeapItem t (Some l)) ∧ entries s !! l = Some e ∧
    heap_idx e = Z.of_nat i.
Proof.
  intros Hok Hx. apply list_elem_of_lookup in Hx as [i Hi].
  pose proof (hok_tracked _ _ _ Hok i _ l Hi eq_refl) as Hload. cbn in Hload.
  destruct (entries s !! l) as [e|] eqn:He; [|done]. cbn in Hload. simplify_eq. eauto.
Qed.

Lemma heap_size_Done (h : HMap string loc) items es nx :
  EntryManager.heap_size (mkEntryManager h (mkBinaryHeap items []) es nx : EntryManager T)
  = Done (length items) (mkEntryManager h (mkBinaryHeap items []) es nx).
Proof.
  unfold EntryManager.heap_size. apply on_heap_Done. apply size_Done. right. set_solver.
Qed.

(** Where the index is right, [get_expiry_time] reads the entry's own time. *)
Lemma get_expiry_at s l e i x now :
  expiry_ok s → Z.of_nat (length (items_ (heap_ s))) < 2 ^ 64 - 1 →
  entries s !! l = Some e → heap_idx e = Z.of_nat i → items_ (heap_ s) !! i = Some x →
  EntryManager.get_expiry_time now l s = Done (EntryManager.remaining now (value_ x)) s.
Proof.
  intros Hok Hlen He Hidx Hx. destruct s as [h [items mx] es nx].
  pose proof (hok_free _ _ _ Hok) as Hmx. cbn in *. subst mx.
  pose proof (lookup_lt_Some _ _ _ Hx) as Hlt. unfold npos, u64_max in *.
  unfold EntryManager.get_expiry_time.
  rewrite (bind_Done _ _ _ _ _ (deref_entry (mkEntryManager h (mkBinaryHeap items []) es nx) l e He)).
  rewrite (proj2 (Z.eqb_neq _ _)) by (unfold npos, u64_max; lia).
  rewrite (bind_Done _ _ _ _ _ (heap_size_Done h items es nx)).
  rewrite (proj2 (Z.leb_gt _ _)) by lia. rewrite Hidx, Nat2Z.id.
  rewrite (bind_Done _ _ _ _ _ (on_heap_Done _ h _ es nx _ _ _
    (at_Done (mkBinaryHeap items []) es i x eq_refl Hx))). done.
Qed.

Lemma no_expiry_fresh s l e :
  expiry_ok s → Z.of_nat (length (items_ (heap_ s))) < 2 ^ 64 - 1 →
  entries s !! l = Some e → heap_idx e = npos →
  ∀ y, y ∈ items_ (heap_ s) → position_ref_ y ≠ Some l.
Proof.
  intros Hok Hlen He Hidx y Hy Hl. apply list_elem_of_lookup in Hy as [i Hi].
  pose proof (hok_tracked _ _ _ Hok i y l Hi Hl) as Hload. cbn in Hload. rewrite He in Hload.
  cbn in Hload. simplify_eq. apply lookup_lt_Some in Hi. unfold npos, u64_max in Hidx. lia.
Qed.

(** A first expiry time that is not before any other. *)
Lemma set_entry_ttl_last s l e now ttl :
  expiry_ok s → Z.of_nat (length (items_ (heap_ s))) < 2 ^ 60 →
  entries s !! l = Some e → heap_idx e = npos → 0 < ttl →
  (∀ l' t, has_expiry s l' t → t ≤ EntryManager.expiry now ttl) →
  (∀ y, y ∈ items_ (heap_ s) → is_Some (position_ref_ y)) →
  ∃ s', EntryManager.set_entry_ttl now l ttl s = Done true s' ∧ expiry_ok s' ∧
    db_ s' = db_ s ∧ same_objects (entries s) (entries s') ∧
    items_ (heap_ s') ≡ₚ mkHeapItem (EntryManager.expiry now ttl) (Some l) :: items_ (heap_ s).
Proof.
  intros Hok Hlen He Hidx Httl Hlast Hrefs. destruct s as [h [items mx] es nx].
  pose proof (hok_free _ _ _ Hok) as Hmx. cbn in *. subst mx.
  set (x := mkHeapItem (EntryManager.expiry now ttl) (Some l)).
  destruct (push_stays Z.ltb (mkBinaryHeap items []) es x Hok) as (es1 & Hpush & Ho1 & Ht1 & Heff1).
  { intros l' [= <-]. split; [cbn; rewrite He; by eexists|].
    eapply (no_expiry_fresh (mkEntryManager h (mkBinaryHeap items []) es nx)); try done. cbn. lia. }
  { intros y Hy. apply Z.ltb_ge. destruct (Hrefs y Hy) as [l' Hl']. apply (Hlast l').
    unfold has_expiry. cbn. destruct y as [t' p]; cbn in *. by subst p. }
  cbn [items_] in *.
  assert ((items ++ [x]) !! length items = Some x) as Hat by by apply list_lookup_middle.
  pose proof (Ht1 _ _ l Hat eq_refl) as Hload. cbn in Hload.
  destruct (es1 !! l) as [e1|] eqn:He1; [|done]. cbn in Hload. simplify_eq.
  destruct (update_spec Z.ltb (items ++ [x]) es1 (length items) x Hat)
    as ([items2 mx2] & es2 & Hupd & Hok2 & Hp2 & Heff2).
  { rewrite <- (list_insert_id (items ++ [x]) (length items) x Hat).
    apply (heap_ordered_replace Z.ltb). exact Ho1. }
  { done. }
  pose proof (hok_free _ _ _ Hok2) as Hmx2. cbn in Hmx2, Hp2. subst mx2.
  exists (mkEntryManager h (mkBinaryHeap items2 []) es2 nx).
  split.
  - unfold EntryManager.set_entry_ttl, EntryManager.add_to_heap.
    rewrite (bind_Done _ _ _ _ _ (deref_entry (mkEntryManager h (mkBinaryHeap items []) es nx) l e He)).
    rewrite (proj2 (Z.leb_gt _ _)) by done. rewrite Hidx, Z.eqb_refl. cbn zeta.
    rewrite bind_assoc.
    rewrite (bind_Done _ _ _ _ _ (deref_entry (mkEntryManager h (mkBinaryHeap items []) es nx) l e He)).
    rewrite Hidx, Z.eqb_refl. cbn [negb]. rewrite bind_assoc.
    rewrite (bind_Done _ _ _ _ _ (on_heap_Done _ h _ es nx _ _ _ Hpush)). rewrite bind_assoc.
    rewrite (bind_Done _ _ _ _ _ (heap_size_Done h (items ++ [x]) es1 nx)).
    assert (EntryManager.write_heap_idx l (Z.of_nat (length (items ++ [x])) - 1)
      (mkEntryManager h (mkBinaryHeap (items ++ [x]) []) es1 nx)
      = Done tt (mkEntryManager h (mkBinaryHeap (items ++ [x]) []) es1 nx)) as Hwrite.
    { unfold EntryManager.write_heap_idx, EntryManager.set_entries. munfold.
      rewrite (deref_entry _ l e1) by done. cbn [db_ heap_ entries next_entry].
      rewrite insert_id; [done|]. rewrite He1. f_equal. destruct e1; cbn in *. unfold set_heap_idx.
      cbn. f_equal. rewrite length_app. cbn. lia. }
    rewrite bind_assoc. rewrite (bind_Done _ _ _ _ _ Hwrite). rewrite bind_assoc.
    rewrite (bind_Done _ _ _ _ _ (deref_entry (mkEntryManager h _ es1 nx) l e1 He1)).
    rewrite bind_assoc. replace (Z.to_nat (heap_idx e1)) with (length items) by lia.
    by rewrite (bind_Done _ _ _ _ _ (on_heap_Done _ h _ es1 nx _ _ _ Hupd)).
  - split; [done|]. split; [done|]. split.
    + exact (eq_trans (eff_same _ _ _ Heff1) (eff_same _ _ _ Heff2)).
    + cbn. rewrite Hp2. by rewrite Permutation_app_comm.
Qed.

Lemma get_expiry_own s l t now :
  expiry_ok s → Z.of_nat (length (items_ (heap_ s))) < 2 ^ 64 - 1 → has_expiry s l t →
  EntryManager.get_expiry_time now l s = Done (EntryManager.remaining now t) s.
Proof.
  intros Hok Hlen Hx. destruct (has_expiry_index s l t Hok Hx) as (i & e & Hi & He & Hidx).
  by rewrite (get_expiry_at s l e i _ now Hok Hlen He Hidx Hi).
Qed.

(** The removal half of [delete_entry] for an entry with a place in the heap. *)
Lemma remove_from_heap_stuck (s : EntryManager T) l e :
  relock_allowed = false → heap_mutex_ (heap_ s) = [] → entries s !! l = Some e →
  heap_idx e < Z.of_nat (length (items_ (heap_ s))) →
  EntryManager.remove_from_heap l s = Stuck.
Proof.
  intros Hpol Hmx He Hidx. destruct s as [h [items mx] es nx]. cbn in *. subst mx.
  unfold EntryManager.remove_from_heap.
  rewrite (bind_Done _ _ _ _ _ (deref_entry (mkEntryManager h (mkBinaryHeap items []) es nx) l e He)).
  rewrite (bind_Done _ _ _ _ _ (heap_size_Done h items es nx)).
  rewrite (proj2 (Z.leb_gt _ _)) by done. apply bind_Stuck.
  unfold EntryManager.on_heap, zoom. cbn [heap_ entries]. unfold BinaryHeap.pop.
  rewrite guarded_free by done. rewrite bind_Stuck; [done|].
  by apply guarded_relock with (held := []).
Qed.

Lemma remove_from_heap_pops (s : EntryManager T) l e r rest :
  relock_allowed = true → expiry_ok s → entries s !! l = Some e →
  heap_idx e < Z.of_nat (length (items_ (heap_ s))) → items_ (heap_ s) = r :: rest →
  ∃ hp es e', EntryManager.remove_from_heap l s
      = Done true (mkEntryManager (db_ s) hp (<[l := set_heap_idx npos e']> es) (next_entry s)) ∧
    r :: items_ hp ≡ₚ items_ (heap_ s).
Proof.
  intros Hpol Hok He Hidx Hitems. destruct s as [h [items mx] es nx].
  pose proof (hok_free _ _ _ Hok) as Hmx. cbn in *. subst mx items.
  destruct (pop_spec Z.ltb (mkBinaryHeap (r :: rest) []) es r rest Hpol Hok eq_refl)
    as ([items1 mx1] & es1 & Hpop & Hok1 & Hp & Heff).
  assert (is_Some (es1 !! l)) as [e1 He1].
  { pose proof (proj2 (eff_live _ _ _ Heff l)) as Hl. cbn in Hl.
    rewrite He in Hl. destruct Hl as [z Hz]; [by eexists|].
    destruct (es1 !! l); [by eexists|done]. }
  eexists _, es1, e1. split; [|exact Hp]. unfold EntryManager.remove_from_heap.
  rewrite (bind_Done _ _ _ _ _ (deref_entry (mkEntryManager h (mkBinaryHeap (r :: rest) []) es nx) l e He)).
  rewrite (bind_Done _ _ _ _ _ (heap_size_Done h (r :: rest) es nx)).
  rewrite (proj2 (Z.leb_gt _ _)) by done.
  rewrite (bind_Done _ _ _ _ _ (on_heap_Done _ h _ es nx _ _ _ Hpop)).
  unfold EntryManager.write_heap_idx, EntryManager.set_entries. munfold.
  by rewrite (deref_entry (mkEntryManager h _ es1 nx) l e1 He1).
Qed.
End Expiry.

(** ** Properties *)
Section Properties.
Context {LP : LockPolicy} {T : Type}.
Implicit Types (s : EntryManager T) (l : loc) (t : Z).

(** Giving an entry its first expiry time, when that is not before any other,
    succeeds; from then on [get_expiry_time] reports for this entry, and for every
    other entry that has an expiry time, the milliseconds left of its own. *)
Theorem ttl_reported s l e now ttl :
  expiry_ok s → Z.of_nat (length (items_ (heap_ s))) < 2 ^ 60 →
  (∀ y, y ∈ items_ (heap_ s) → is_Some (position_ref_ y)) →
  entries s !! l = Some e → heap_idx e = npos → 0 < ttl →
  (∀ l' t, has_expiry s l' t → t ≤ EntryManager.expiry now ttl) →
  ∃ s', EntryManager.set_entry_ttl now l ttl s = Done true s' ∧ expiry_ok s' ∧
    ∀ now', EntryManager.get_expiry_time now' l s'
              = Done (EntryManager.remaining now' (EntryManager.expiry now ttl)) s' ∧
      ∀ l' t, has_expiry s l' t →
        EntryManager.get_expiry_time now' l' s' = Done (EntryManager.remaining now' t) s'.
Proof.
  intros Hok Hlen Hrefs He Hidx Httl Hlast.
  destruct (set_entry_ttl_last s l e now ttl) as (s' & Hrun & Hok' & _ & _ & Hp); try done.
  exists s'. split; [done|]. split; [done|]. intros now'.
  assert (Z.of_nat (length (items_ (heap_ s'))) < 2 ^ 64 - 1) as Hlen'.
  { rewrite Hp. cbn. change (2 ^ 60) with 1152921504606846976 in Hlen.
    change (2 ^ 64) with 18446744073709551616. lia. }
  split; [|intros l' t Hx]; apply get_expiry_own; try done; unfold has_expiry; rewrite Hp;
    [left|by right].
Qed.

(** An entry whose expiry time has passed is reported with an enormous time
    to live: the unsigned difference wraps, and at least 9223372036854775
    milliseconds (some 292 thousand years) are left. *)
Theorem expired_ttl_wraps s l t now :
  expiry_ok s → Z.of_nat (length (items_ (heap_ s))) < 2 ^ 60 → has_expiry s l t →
  0 ≤ t → t < now → now < 2 ^ 63 →
  ∃ r, EntryManager.get_expiry_time now l s = Done r s ∧
    r = (2 ^ 64 - (now - t)) / 1000 ∧ 9223372036854775 ≤ r.
Proof.
  intros Hok Hlen Hx Ht Hnow Hmax.
  change (2 ^ 60) with 1152921504606846976 in Hlen. change (2 ^ 63) with 9223372036854775808 in Hmax.
  change (2 ^ 64) with 18446744073709551616.
  assert (wrapu 64 (t - now) = 18446744073709551616 - (now - t)) as Hw.
  { unfold wrapu. change (2 ^ 64) with 18446744073709551616.
    rewrite <- (Z.mod_unique (t - now) 18446744073709551616 (-1)
      (18446744073709551616 - (now - t))); lia. }
  assert (9223372036854775 ≤ (18446744073709551616 - (now - t)) / 1000 < 2 ^ 63) as [Hlo Hhi].
  { change (2 ^ 63) with 9223372036854775808. split.
    - apply Z.div_le_lower_bound; lia.
    - apply Z.div_lt_upper_bound; lia. }
  eexists. split; [apply (get_expiry_own s l t now Hok)|].
  - change (2 ^ 64) with 18446744073709551616. lia.
  - done.
  - unfold EntryManager.remaining. rewrite Hw, wraps_small by lia.
    rewrite (proj2 (Z.ltb_lt _ _)) by lia. done.
Qed.

(** An expiry time before the one entry already in the heap is recorded for
    the wrong entry: [add_to_heap] overwrites the position that [push] recorded,
    so that [get_expiry_time] reports the other entry's time. *)
Theorem earlier_ttl_misreported (s : EntryManager T) l l1 t1 e e1 now ttl :
  items_ (heap_ s) = [mkHeapItem t1 (Some l1)] → heap_mutex_ (heap_ s) = [] → l ≠ l1 →
  entries s !! l1 = Some e1 → entries s !! l = Some e → heap_idx e = npos → 0 < ttl →
  EntryManager.expiry now ttl < t1 →
  ∃ s', EntryManager.set_entry_ttl now l ttl s = Done true s' ∧
    ∀ now', EntryManager.get_expiry_time now' l s' = Done (EntryManager.remaining now' t1) s'.
Proof.
  intros Hitems Hmx Hne He1 He Hidx Httl Hlt. destruct s as [h hp es nx]. cbn in *.
  destruct hp as [items mx]. cbn in *. subst items mx.
  set (x := mkHeapItem (EntryManager.expiry now ttl) (Some l)). set (x1 := mkHeapItem t1 (Some l1)).
  set (es2 := store_pos l 0 (store_pos l1 1 es)).
  assert (es2 !! l = Some (set_heap_idx 0 e)) as Hl2.
  { subst es2. cbn. rewrite lookup_alter_eq, lookup_alter_ne by done. by rewrite He. }
  set (es3 := <[l := set_heap_idx 1 (set_heap_idx 0 e)]> es2).
  assert (es3 !! l1 = Some (set_heap_idx 1 e1)) as Hl1.
  { subst es3 es2. cbn. rewrite lookup_insert_ne, lookup_alter_ne, lookup_alter_eq by done.
    by rewrite He1. }
  assert (BinaryHeap.push Z.ltb x (mkBinaryHeap [x1] [], es)
    = Done tt (mkBinaryHeap [x; x1] [], es2)) as Hpush.
  { apply push_second; [done|done|by apply Z.ltb_lt|cbn; rewrite He1; by eexists|
      cbn; rewrite He; by eexists]. }
  assert (BinaryHeap.update Z.ltb 1 (mkBinaryHeap [x; x1] [], es3)
    = Done tt (mkBinaryHeap [x; x1] [], store_pos l1 1 es3)) as Hupd.
  { apply update_second; [done|apply Z.ltb_ge; cbn; lia|cbn; rewrite Hl1; by eexists]. }
  exists (mkEntryManager h (mkBinaryHeap [x; x1] []) (store_pos l1 1 es3) nx). split.
  - unfold EntryManager.set_entry_ttl, EntryManager.add_to_heap.
    rewrite (bind_Done _ _ _ _ _ (deref_entry (mkEntryManager h (mkBinaryHeap [x1] []) es nx) l e He)).
    rewrite (proj2 (Z.leb_gt _ _)) by done. rewrite Hidx, Z.eqb_refl. cbn zeta.
    rewrite bind_assoc.
    rewrite (bind_Done _ _ _ _ _ (deref_entry (mkEntryManager h (mkBinaryHeap [x1] []) es nx) l e He)).
    rewrite Hidx, Z.eqb_refl. cbn [negb]. rewrite bind_assoc.
    rewrite (bind_Done _ _ _ _ _ (on_heap_Done _ h _ es nx _ _ _ Hpush)). rewrite bind_assoc.
    rewrite (bind_Done _ _ _ _ _ (heap_size_Done h [x; x1] es2 nx)). rewrite bind_assoc.
    assert (EntryManager.write_heap_idx l (Z.of_nat (length [x; x1]) - 1)
      (mkEntryManager h (mkBinaryHeap [x; x1] []) es2 nx)
      = Done tt (mkEntryManager h (mkBinaryHeap [x; x1] []) es3 nx)) as Hwrite.
    { unfold EntryManager.write_heap_idx, EntryManager.set_entries. munfold.
      by rewrite (deref_entry _ l (set_heap_idx 0 e)) by done. }
    rewrite (bind_Done _ _ _ _ _ Hwrite). rewrite bind_assoc.
    rewrite (bind_Done _ _ _ _ _ (deref_entry (mkEntryManager h _ es3 nx) l
      (set_heap_idx 1 (set_heap_idx 0 e)) ltac:(cbn; apply lookup_insert_eq))).
    rewrite bind_assoc. by rewrite (bind_Done _ _ _ _ _ (on_heap_Done _ h _ es3 nx _ _ _ Hupd)).
  - intros now'. unfold EntryManager.get_expiry_time.
    assert (entries (mkEntryManager h (mkBinaryHeap [x; x1] []) (store_pos l1 1 es3) nx) !! l
      = Some (set_heap_idx 1 (set_heap_idx 0 e))) as Hl3.
    { cbn. rewrite lookup_alter_ne by done. apply lookup_insert_eq. }
    rewrite (bind_Done _ _ _ _ _ (deref_entry _ _ _ Hl3)).
    cbn [heap_idx set_heap_idx]. change (1 =? npos) with false. cbn [negb].
    by rewrite (bind_Done _ _ _ _ _ (heap_size_Done h [x; x1] (store_pos l1 1 es3) nx)).
Qed.

(** With [std::shared_mutex], deleting a key whose entry has a place in the
    heap never returns: [remove_from_heap] pops the heap. *)
Theorem delete_with_ttl_hangs s fk k l e :
  relock_allowed = false → represents (db_ s) fk → Z.of_nat (size fk) < 2 ^ 60 →
  heap_mutex_ (heap_ s) = [] → fk !! k = Some l → entries s !! l = Some e →
  heap_idx e < Z.of_nat (length (items_ (heap_ s))) →
  Z.of_nat (length (items_ (heap_ s))) < 2 ^ 60 →
  EntryManager.delete_entry k s = Stuck.
Proof.
  intros Hpol Hd Hlt Hmx Hk He Hidx Hlen. unfold EntryManager.delete_entry.
  destruct (find_represents (db_ s) fk k Hd Hlt) as (h' & Hfind & _). rewrite Hk in Hfind.
  destruct s as [h hp es nx]. cbn in *.
  rewrite (bind_Done _ _ _ _ _ (on_db_Done _ _ hp es nx _ _ Hfind)).
  rewrite (bind_Done _ _ _ _ _ (deref_entry (mkEntryManager h' hp es nx) l e He)).
  rewrite (proj2 (Z.eqb_neq _ _)); cycle 1.
  { unfold npos, u64_max. change (2 ^ 60) with 1152921504606846976 in Hlen.
    change (2 ^ 64) with 18446744073709551616. lia. }
  cbn [negb]. apply bind_Stuck. by apply (remove_from_heap_stuck _ l e).
Qed.

(** Where [pop] can return, deleting a key whose item is not the root pops
    another entry's item and leaves its own in the heap, with a pointer into the
    entry that was destroyed. *)
Theorem delete_with_ttl_dangles s fk k l e i x r rest :
  relock_allowed = true → expiry_ok s → represents (db_ s) fk → Z.of_nat (size fk) < 2 ^ 60 →
  Z.of_nat (length (items_ (heap_ s))) < 2 ^ 60 → fk !! k = Some l → entries s !! l = Some e →
  items_ (heap_ s) = r :: rest → heap_idx e = Z.of_nat (S i) →
  rest !! i = Some x → position_ref_ x = Some l → 
  ∃ s', EntryManager.delete_entry k s = Done true s' ∧ entries s' !! l = None ∧
    x ∈ items_ (heap_ s').
Proof.
  intros Hpol Hok Hd Hlt Hlen Hk He Hitems Hidx Hx Hl.
  destruct (find_represents (db_ s) fk k Hd Hlt) as (h1 & Hfind & Hh1). rewrite Hk in Hfind.
  destruct (remove_represents h1 fk k Hh1 Hlt) as (h2 & Hrem & _). rewrite Hk in Hrem.
  destruct s as [h hp es nx]. cbn in *.
  pose proof (lookup_lt_Some _ _ _ Hx) as Hlt_i.
  destruct (remove_from_heap_pops (mkEntryManager h1 hp es nx) l e r rest Hpol Hok He)
    as (hp' & es' & e' & Hpop & Hp); [cbn; rewrite Hitems; cbn; lia|done|]. cbn in Hp, Hpop.
  exists (mkEntryManager h2 hp' (delete l (<[l := set_heap_idx npos e']> es')) nx). cbn.
  split; [|split; [by rewrite lookup_delete_eq|]].
  - unfold EntryManager.delete_entry.
    rewrite (bind_Done _ _ _ _ _ (on_db_Done _ _ hp es nx _ _ Hfind)).
    rewrite (bind_Done _ _ _ _ _ (deref_entry (mkEntryManager h1 hp es nx) l e He)).
    rewrite (proj2 (Z.eqb_neq _ _)); cycle 1.
    { unfold npos, u64_max. change (2 ^ 60) with 1152921504606846976 in Hlen.
      change (2 ^ 64) with 18446744073709551616. rewrite Hitems in Hlen. cbn [length] in Hlen. lia. }
    cbn [negb]. rewrite (bind_Done _ _ _ _ _ Hpop).
    by rewrite (bind_Done _ _ _ _ _ (on_db_Done _ _ _ _ nx _ _ Hrem)).
  - rewrite Hitems in Hp. apply Permutation_cons_inv in Hp. rewrite Hp.
    by eapply list_elem_of_lookup_2.
Qed.
End Properties.

(** ** Witnesses: the keys "a" and "b"; then "a" with five milliseconds at time
    1000; then "b" with seven. *)
Definition done_state {S A} (d : S) (o : outcome S A) : S := match o with Done _ s => s | _ => d end.

Section Samples.
#[local] Existing Instance std_shared_mutex.

Definition two_keys : EntryManager unit :=
  done_state EntryManager.new ((EntryManager.create_entry "a" (VString "x") ;;
    EntryManager.create_entry "b" (VString "y")) EntryManager.new).
Definition one_ttl : EntryManager unit :=
  done_state two_keys (EntryManager.set_entry_ttl 1000 1 5 two_keys).
Definition two_ttls : EntryManager unit :=
  done_state one_ttl (EntryManager.set_entry_ttl 1000 2 7 one_ttl).
Definition two_locs : gmap string loc := <["b"%string := 2%positive]> (<["a"%string := 1%positive]> ∅).

Lemma two_keys_plain : plain two_keys two_locs.
Proof.
  destruct (create_entry_plain (EntryManager.new : EntryManager unit) ∅ "a" (VString "x") plain_new)
    as (s1 & Hrun1 & Hp1 & _); [done|done|right; done|].
  destruct (create_entry_plain s1 _ "b" (VString "y") Hp1) as (s2 & Hrun2 & Hp2 & _);
    [done|by vm_compute|right; done|].
  vm_compute in Hrun1. simplify_eq. vm_compute in Hrun2. simplify_eq. exact Hp2.
Qed.

Lemma one_ttl_spec : expiry_ok one_ttl ∧ db_ one_ttl = db_ two_keys.
Proof.
  destruct (set_entry_ttl_last two_keys 1 (mkEntry npos "a" (VString "x")) 1000 5)
    as (s' & Hrun & Hok & Hdb & _).
  - apply heap_ok_nil.
  - by vm_compute.
  - by vm_compute.
  - done.
  - done.
  - intros l' t Hx. unfold has_expiry in Hx. vm_compute in Hx. by apply elem_of_nil in Hx.
  - intros y Hy. vm_compute in Hy. by apply elem_of_nil in Hy.
  - assert (one_ttl = s') as -> by (unfold one_ttl; by rewrite Hrun). exact (conj Hok Hdb).
Qed.

Lemma two_ttls_spec : expiry_ok two_ttls ∧ db_ two_ttls = db_ one_ttl.
Proof.
  assert (items_ (heap_ one_ttl) = [mkHeapItem 6000 (Some 1%positive)]) as Hitems by by vm_compute.
  destruct (set_entry_ttl_last one_ttl 2 (mkEntry npos "b" (VString "y")) 1000 7)
    as (s' & Hrun & Hok & Hdb & _).
  - apply one_ttl_spec.
  - by vm_compute.
  - by vm_compute.
  - done.
  - done.
  - intros l' t Hx. unfold has_expiry in Hx. rewrite Hitems in Hx.
    apply list_elem_of_singleton in Hx. injection Hx as -> ->. by vm_compute.
  - intros y Hy. rewrite Hitems in Hy. apply list_elem_of_singleton in Hy as ->. by eexists.
  - assert (two_ttls = s') as -> by (unfold two_ttls; by rewrite Hrun). exact (conj Hok Hdb).
Qed.
End Samples.

Lemma ttl_reported_witness :
  ∃ s', EntryManager.set_entry_ttl (LP := std_shared_mutex) 1000 1 5 two_keys = Done true s' ∧
    EntryManager.get_expiry_time (LP := std_shared_mutex) 3000 1 s' = Done 3 s'.
Proof.
  destruct (ttl_reported (LP := std_shared_mutex) two_keys 1 (mkEntry npos "a" (VString "x")) 1000 5)
    as (s' & Hrun & _ & Hget).
  - apply heap_ok_nil.
  - by vm_compute.
  - intros y Hy. vm_compute in Hy. by apply elem_of_nil in Hy.
  - by vm_compute.
  - done.
  - done.
  - intros l' t Hx. unfold has_expiry in Hx. vm_compute in Hx. by apply elem_of_nil in Hx.
  - exists s'. split; [exact Hrun|]. exact (proj1 (Hget 3000)).
Defined.

Lemma expired_ttl_wraps_witness :
  ∃ r, EntryManager.get_expiry_time (LP := std_shared_mutex) 7000 1 one_ttl = Done r one_ttl ∧
    9223372036854775 ≤ r.
Proof.
  destruct (expired_ttl_wraps (LP := std_shared_mutex) one_ttl 1 6000 7000) as (r & Hr & _ & Hlo).
  - apply one_ttl_spec.
  - by vm_compute.
  - vm_compute. left.
  - by vm_compute.
  - by vm_compute.
  - by vm_compute.
  - exists r. exact (conj Hr Hlo).
Defined.

Lemma earlier_ttl_misreported_witness :
  ∃ s', EntryManager.set_entry_ttl (LP := std_shared_mutex) 1000 2 2 one_ttl = Done true s' ∧
    EntryManager.get_expiry_time (LP := std_shared_mutex) 1000 2 s' = Done 5 s'.
Proof.
  destruct (earlier_ttl_misreported (LP := std_shared_mutex) one_ttl 2 1 6000
    (mkEntry npos "b" (VString "y")) (mkEntry 0 "a" (VString "x")) 1000 2)
    as (s' & Hrun & Hget); [by vm_compute..|].
  exists s'. split; [exact Hrun|]. exact (Hget 1000).
Defined.

Lemma delete_with_ttl_hangs_witness :
  EntryManager.delete_entry (LP := std_shared_mutex) "a" one_ttl = Stuck.
Proof.
  apply (delete_with_ttl_hangs (LP := std_shared_mutex) one_ttl two_locs "a" 1
    (mkEntry 0 "a" (VString "x"))); [done| |by vm_compute..].
  rewrite (proj2 one_ttl_spec). apply two_keys_plain.
Defined.

Lemma delete_with_ttl_dangles_witness :
  ∃ s', EntryManager.delete_entry (LP := reentrant) "b" two_ttls = Done true s' ∧
    entries s' !! 2%positive = None ∧ mkHeapItem 8000 (Some 2%positive) ∈ items_ (heap_ s').
Proof.
  apply (delete_with_ttl_dangles (LP := reentrant) two_ttls two_locs "b" 2
    (mkEntry 1 "b" (VString "y")) 0 (mkHeapItem 8000 (Some 2%positive))
    (mkHeapItem 6000 (Some 1%positive)) [mkHeapItem 8000 (Some 2%positive)]);
    [done|apply two_ttls_spec| |by vm_compute..].
  rewrite (proj2 two_ttls_spec), (proj2 one_ttl_spec). apply two_keys_plain.
Defined.
