(* ===== verification/CommandProcessor.v ===== *)
(** The commands (command_processor.hpp): dispatch on the lower-cased name, the
    argument checks and the nine handlers, from the words of a request to the
    bytes appended to the response.

    [std::stod] is a parameter: a number is read as the image of a [double].  The
    clock is an argument of the commands that read it. *)

From S2P Require Import Prelude Bytes CxxLib HashTable HashMapSpec Heap AVL.
From S2P Require Import ZSet EntryManager ResponseSerializer.

Definition ERR_ARG : Z := -1.
Definition ERR_UNKNOWN : Z := -2.
Definition ERR_TYPE : Z := -3.

(** A message that ends in a newline. *)
Definition line (msg : string) : list byte := bytes_of_string msg ++ [x0a].

Section CommandProcessor.
Context {LP : LockPolicy} {T : Type} `{OrderedMap T Z}.
(** [std::stod(str, &pos)] and [std::isnan]. *)
Context (stod : list byte → sto_error + (Z * nat)) (isnan : Z → bool).

Abbreviation em := (EntryManager T).

(** A handler: the arguments, the clock and the response so far. *)
Definition handler : Type := list string → Z → list byte → M em (list byte).

Definition error_reply (response : list byte) (code : Z) (msg : string) : M em (list byte) :=
  mret (serialize_error response code (line msg)).

Definition parse_double (str : string) : option Z :=
  let l := bytes_of_string str in
  match stod l with
  | inr (out, pos) => if (pos =? length l)%nat && negb (isnan out) then Some out else None
  | inl _ => None
  end.

Definition parse_int (str : string) : option Z :=
  let l := bytes_of_string str in
  match stoll l with
  | inr (out, pos) => if (pos =? length l)%nat then Some out else None
  | inl _ => None
  end.

Definition handle_get : handler := λ args now response,
  match args with
  | [_; k] =>
      r ← EntryManager.find_entry k;
      match r with
      | None => mret (serialize_nil response)
      | Some entry =>
          e ← EntryManager.deref entry;
          match value e with
          | VString s => mret (serialize_string response (bytes_of_string s))
          | _ => error_reply response ERR_TYPE "Key holds wrong type"
          end
      end
  | _ => error_reply response ERR_ARG "GET requires one key"
  end.

Definition handle_set : handler := λ args now response,
  match args with
  | [_; k; v] =>
      EntryManager.create_entry k (VString v) ;;
      mret (serialize_string response (bytes_of_string "OK"))
  | _ => error_reply response ERR_ARG "SET requires key and value"
  end.

Definition handle_del : handler := λ args now response,
  match args with
  | [_; k] =>
      deleted ← EntryManager.delete_entry k;
      mret (serialize_integer response (if deleted : bool then 1 else 0))
  | _ => error_reply response ERR_ARG "DEL requires key"
  end.

Definition handle_exists : handler := λ args now response,
  match args with
  | [_; k] =>
      entry ← EntryManager.find_entry k;
      mret (serialize_integer response (match entry with Some _ => 1 | None => 0 end))
  | _ => error_reply response ERR_ARG "EXISTS requires key"
  end.

Definition handle_flushall : handler := λ args now response,
  cleared ← EntryManager.clear_all;
  mret (serialize_integer response (if cleared : bool then 1 else 0)).

(** [zset_entry->value->...]: a call on the sorted set inside an entry. *)
Definition on_zset {A} (entry : loc) (z : ZSet T) (c : M (ZSet T) A) : M em A := λ s,
  match c z with
  | Done a z' => (EntryManager.set_entries (alter (set_entry_value (VZSet z')) entry (entries s)) ;; mret a) s
  | Throw e z' => (EntryManager.set_entries (alter (set_entry_value (VZSet z')) entry (entries s)) ;; throw e) s
  | Stuck => Stuck
  | Undef => Undef
  | AssertFail => AssertFail
  | NoFuel => NoFuel
  end.

Definition handle_zadd : handler := λ args now response,
  match args with
  | [_; k; score; member] =>
      match parse_double score with
      | None => error_reply response ERR_ARG "Invalid score value"
      | Some score =>
          r ← EntryManager.find_entry k;
          entry ← match r with
                  | Some entry => mret entry
                  | None => EntryManager.create_entry k (VZSet ZSet.new)
                  end;
          e ← EntryManager.deref entry;
          match value e with
          | VZSet z =>
              added ← on_zset entry z (ZSet.add_internal member score);
              mret (serialize_integer response (if added : bool then 1 else 0))
          | _ => error_reply response ERR_TYPE "Key holds wrong type"
          end
      end
  | _ => error_reply response ERR_ARG "ZADD requires key, score, and member"
  end.

Definition handle_zrem : handler := λ args now response,
  match args with
  | [_; k; member] =>
      r ← EntryManager.find_entry k;
      match r with
      | None => mret (serialize_integer response 0)
      | Some entry =>
          e ← EntryManager.deref entry;
          match value e with
          | VZSet z =>
              removed ← on_zset entry z (ZSet.remove_internal member);
              mret (serialize_integer response (if removed : bool then 1 else 0))
          | _ => error_reply response ERR_TYPE "Key holds wrong type"
          end
      end
  | _ => error_reply response ERR_ARG "ZREM requires key and member"
  end.

Definition handle_pexpire : handler := λ args now response,
  match args with
  | [_; k; ttl] =>
      match parse_int ttl with
      | None => error_reply response ERR_ARG "Invalid TTL value"
      | Some ttl_ms =>
          if ttl_ms <? 0 then error_reply response ERR_ARG "Invalid TTL value"
          else
            r ← EntryManager.find_entry k;
            match r with
            | None => mret (serialize_integer response 0)
            | Some entry =>
                success ← EntryManager.set_entry_ttl now entry ttl_ms;
                mret (serialize_integer response (if success : bool then 1 else 0))
            end
      end
  | _ => error_reply response ERR_ARG "PEXPIRE requires key and TTL"
  end.

Definition handle_pttl : handler := λ args now response,
  match args with
  | [_; k] =>
      r ← EntryManager.find_entry k;
      match r with
      | None => mret (serialize_integer response (-2))
      | Some entry =>
          ttl ← EntryManager.get_expiry_time now entry;
          mret (serialize_integer response ttl)
      end
  | _ => error_reply response ERR_ARG "PTTL requires key"
  end.

Definition command_handlers : list (string * handler) :=
  [ ("get"%string, handle_get); ("set"%string, handle_set); ("del"%string, handle_del);
    ("exists"%string, handle_exists); ("zadd"%string, handle_zadd); ("zrem"%string, handle_zrem);
    ("flushall"%string, handle_flushall); ("pexpire"%string, handle_pexpire);
    ("pttl"%string, handle_pttl) ].

(** [command_handlers.find(key)]: the keys are distinct. *)
Fixpoint find_handler (name : string) (table : list (string * handler)) : option handler :=
  match table with
  | [] => None
  | (n, h) :: rest => if decide (n = name) then Some h else find_handler name rest
  end.

Definition process_command (args : list string) (now : Z) (response : list byte)
  : M em (list byte) :=
  match args with
  | [] => error_reply response ERR_ARG "empty command"
  | name :: _ =>
      match find_handler (to_lower name) command_handlers with
      | None => error_reply response ERR_UNKNOWN "unknown command"
      | Some h => h args now response
      end
  end.
End CommandProcessor.

(** ** The key-value service as a client sees it *)

(** The string commands on a finite map: the bytes of the reply and the new map.
    [None]: not one of these commands, a wrong number of arguments, or a SET of
    a key that is present. *)
Definition kv_command (args : list string) (f : gmap string string)
  : option (list byte * gmap string string) :=
  match args with
  | [] => None
  | name :: rest =>
      let name := to_lower name in
      if decide (name = "get"%string) then
        match rest with
        | [k] => Some (match f !! k with
                       | Some v => serialize_string [] (bytes_of_string v)
                       | None => serialize_nil []
                       end, f)
        | _ => None
        end
      else if decide (name = "set"%string) then
        match rest with
        | [k; v] => match f !! k with
                    | None => Some (serialize_string [] (bytes_of_string "OK"), <[k := v]> f)
                    | Some _ => None
                    end
        | _ => None
        end
      else if decide (name = "del"%string) then
        match rest with
        | [k] => Some (serialize_integer [] (if decide (is_Some (f !! k)) then 1 else 0), delete k f)
        | _ => None
        end
      else if decide (name = "exists"%string) then
        match rest with
        | [k] => Some (serialize_integer [] (if decide (is_Some (f !! k)) then 1 else 0), f)
        | _ => None
        end
      else if decide (name = "flushall"%string) then Some (serialize_integer [] 1, ∅)
      else None
  end.

Fixpoint kv_commands (cmds : list (list string)) (f : gmap string string)
  : option (list (list byte) * gmap string string) :=
  match cmds with
  | [] => Some ([], f)
  | args :: cmds' =>
      match kv_command args f with
      | Some (r, f') =>
          match kv_commands cmds' f' with
          | Some (rs, f'') => Some (r :: rs, f'')
          | None => None
          end
      | None => None
      end
  end.

Section Lemmas.
Context {LP : LockPolicy} {T : Type} `{OrderedMapLaws T Z}.
Context (stod : list byte → sto_error + (Z * nat)) (isnan : Z → bool).
Implicit Types (s : EntryManager T) (f : gmap string string).

Abbreviation process := (process_command (T := T) stod isnan).

Fixpoint process_all (cmds : list (list string * Z)) : M (EntryManager T) (list (list byte)) :=
  match cmds with
  | [] => mret []
  | (args, now) :: cmds' => r ← process args now []; rs ← process_all cmds'; mret (r :: rs)
  end.

(** The key space holds exactly the strings of [f], without expiry times. *)
Definition kv_rep s f : Prop :=
  ∃ fk, plain s fk ∧ contents s fk = VString <$> f.

Lemma kv_rep_new : kv_rep EntryManager.new ∅.
Proof. exists ∅. split; [apply plain_new|]. by rewrite fmap_empty. Qed.

Lemma kv_size s fk f : plain s fk → contents s fk = VString <$> f → size fk = size f.
Proof. intros Hp Hc. rewrite <- (contents_size s fk Hp), Hc. apply map_size_fmap. Qed.

Lemma kv_none s fk f k :
  plain s fk → contents s fk = VString <$> f → fk !! k = None ↔ f !! k = None.
Proof.
  intros Hp Hc. rewrite <- (contents_none s fk k Hp), Hc, lookup_fmap. by rewrite fmap_None.
Qed.

Lemma kv_some s fk f k v :
  plain s fk → contents s fk = VString <$> f → f !! k = Some v →
  ∃ l, fk !! k = Some l ∧ entries s !! l = Some (mkEntry npos k (VString v)).
Proof. intros Hp Hc Hv. apply contents_some; [done|]. by rewrite Hc, lookup_fmap, Hv. Qed.

Lemma find_kv s fk f k :
  plain s fk → contents s fk = VString <$> f → Z.of_nat (size f) < 2 ^ 60 →
  ∃ s', EntryManager.find_entry k s = Done (fk !! k) s' ∧ plain s' fk ∧
    contents s' fk = VString <$> f ∧ entries s' = entries s.
Proof.
  intros Hp Hc Hlt. rewrite <- (kv_size s fk f Hp Hc) in Hlt.
  destruct (find_entry_plain s fk k Hp Hlt) as (h' & Hrun & Hh').
  eexists. split; [exact Hrun|]. split; [by apply plain_db|]. done.
Qed.

Lemma get_kv s f k name now :
  kv_rep s f → Z.of_nat (size f) < 2 ^ 60 →
  ∃ s', handle_get [name; k] now [] s
      = Done (match f !! k with
              | Some v => serialize_string [] (bytes_of_string v)
              | None => serialize_nil []
              end) s' ∧ kv_rep s' f.
Proof.
  intros (fk & Hp & Hc) Hlt. destruct (find_kv s fk f k Hp Hc Hlt) as (s' & Hrun & Hp' & Hc' & Hes).
  exists s'. split; [|by exists fk]. unfold handle_get. rewrite (bind_Done _ _ _ _ _ Hrun).
  destruct (f !! k) as [v|] eqn:Ef.
  - destruct (kv_some s' fk f k v Hp' Hc' Ef) as (l & -> & He).
    by rewrite (bind_Done _ _ _ _ _ (deref_entry s' l _ He)).
  - apply (kv_none s' fk f k Hp' Hc') in Ef. by rewrite Ef.
Qed.

Lemma exists_kv s f k name now :
  kv_rep s f → Z.of_nat (size f) < 2 ^ 60 →
  ∃ s', handle_exists [name; k] now [] s
      = Done (serialize_integer [] (if decide (is_Some (f !! k)) then 1 else 0)) s' ∧ kv_rep s' f.
Proof.
  intros (fk & Hp & Hc) Hlt. destruct (find_kv s fk f k Hp Hc Hlt) as (s' & Hrun & Hp' & Hc' & Hes).
  exists s'. split; [|by exists fk]. unfold handle_exists. rewrite (bind_Done _ _ _ _ _ Hrun).
  destruct (f !! k) as [v|] eqn:Ef.
  - destruct (kv_some s' fk f k v Hp' Hc' Ef) as (l & -> & He). by rewrite decide_True by eauto.
  - apply (kv_none s' fk f k Hp' Hc') in Ef. rewrite Ef, decide_False; [done|].
    by intros [? ?].
Qed.

Lemma set_kv s f k v name now :
  kv_rep s f → Z.of_nat (size f) < 2 ^ 60 - 1 → f !! k = None →
  relock_allowed = true ∨ Z.of_nat (size f) < 32 →
  ∃ s', handle_set [name; k; v] now [] s
      = Done (serialize_string [] (bytes_of_string "OK")) s' ∧ kv_rep s' (<[k := v]> f).
Proof.
  intros (fk & Hp & Hc) Hlt Hk Hpol. rewrite <- (kv_size s fk f Hp Hc) in Hlt, Hpol.
  apply (kv_none s fk f k Hp Hc) in Hk.
  destruct (create_entry_plain s fk k (VString v) Hp Hlt Hk Hpol) as (s' & Hrun & Hp' & Hc').
  exists s'. split; [unfold handle_set; by rewrite (bind_Done _ _ _ _ _ Hrun)|].
  eexists. split; [exact Hp'|]. by rewrite Hc', Hc, fmap_insert.
Qed.

Lemma del_kv s f k name now :
  kv_rep s f → Z.of_nat (size f) < 2 ^ 60 →
  ∃ s', handle_del [name; k] now [] s
      = Done (serialize_integer [] (if decide (is_Some (f !! k)) then 1 else 0)) s' ∧
    kv_rep s' (delete k f).
Proof.
  intros (fk & Hp & Hc) Hlt. rewrite <- (kv_size s fk f Hp Hc) in Hlt.
  destruct (delete_entry_plain s fk k Hp Hlt) as (s' & Hrun & Hp' & Hc').
  exists s'. split.
  - unfold handle_del. rewrite (bind_Done _ _ _ _ _ Hrun), Hc, lookup_fmap.
    by destruct (f !! k).
  - eexists. split; [exact Hp'|]. by rewrite Hc', Hc, fmap_delete.
Qed.

Lemma flushall_kv s f args now :
  kv_rep s f → ∃ s', handle_flushall args now [] s = Done (serialize_integer [] 1) s' ∧ kv_rep s' ∅.
Proof.
  intros (fk & Hp & Hc). destruct (clear_all_plain s fk Hp) as (s' & Hrun & Hp' & Hc').
  exists s'. split; [unfold handle_flushall; by rewrite (bind_Done _ _ _ _ _ Hrun)|].
  exists ∅. split; [done|]. by rewrite Hc', fmap_empty.
Qed.

Lemma process_named name n h rest now response :
  to_lower name = n → find_handler n (command_handlers stod isnan) = Some h →
  process (name :: rest) now response = h (name :: rest) now response.
Proof. intros <- Hh. unfold process_command. by rewrite Hh. Qed.

Lemma command_kv args now s f r f' :
  kv_rep s f → Z.of_nat (size f) < 2 ^ 60 - 1 →
  relock_allowed = true ∨ Z.of_nat (size f) < 32 →
  kv_command args f = Some (r, f') →
  ∃ s', process args now [] s = Done r s' ∧ kv_rep s' f' ∧ (size f' ≤ S (size f))%nat.
Proof.
  intros Hrep Hlt Hpol Hcmd. destruct args as [|name rest]; [done|]. cbn [kv_command] in Hcmd.
  destruct (decide (to_lower name = "get"%string)) as [E|_].
  { rewrite (process_named name _ (handle_get (T := T)) _ _ _ E) by done.
    destruct rest as [|k [|? ?]]; simplify_eq.
    destruct (get_kv s f' k name now Hrep) as (s' & Hrun & Hrep'); [lia|]. eauto with lia. }
  destruct (decide (to_lower name = "set"%string)) as [E|_].
  { rewrite (process_named name _ (handle_set (T := T)) _ _ _ E) by done.
    destruct rest as [|k [|v [|? ?]]]; [done|done| |done].
    destruct (f !! k) eqn:Ek; [done|]. injection Hcmd as <- <-.
    destruct (set_kv s f k v name now Hrep Hlt Ek Hpol) as (s' & Hrun & Hrep').
    exists s'. split_and!; [done|done|]. by rewrite map_size_insert_None. }
  destruct (decide (to_lower name = "del"%string)) as [E|_].
  { rewrite (process_named name _ (handle_del (T := T)) _ _ _ E) by done.
    destruct rest as [|k [|? ?]]; [done| |done]. injection Hcmd as <- <-.
    destruct (del_kv s f k name now Hrep) as (s' & Hrun & Hrep'); [lia|].
    exists s'. split_and!; [done|done|]. rewrite map_size_delete.
    destruct (f !! k); cbn; unfold id; lia. }
  destruct (decide (to_lower name = "exists"%string)) as [E|_].
  { rewrite (process_named name _ (handle_exists (T := T)) _ _ _ E) by done.
    destruct rest as [|k [|? ?]]; [done| |done]. injection Hcmd as <- <-.
    destruct (exists_kv s f k name now Hrep) as (s' & Hrun & Hrep'); [lia|]. eauto with lia. }
  destruct (decide (to_lower name = "flushall"%string)) as [E|_]; [|done].
  rewrite (process_named name _ (handle_flushall (T := T)) _ _ _ E) by done.
  injection Hcmd as <- <-. destruct (flushall_kv s f (name :: rest) now Hrep) as (s' & Hrun & Hrep').
  exists s'. split_and!; [done|done|]. rewrite map_size_empty. lia.
Qed.

Lemma commands_kv cmds : ∀ s f rs f',
  kv_rep s f → Z.of_nat (size f + length cmds) < 2 ^ 60 →
  relock_allowed = true ∨ Z.of_nat (size f + length cmds) ≤ 32 →
  kv_commands cmds.*1 f = Some (rs, f') →
  ∃ s', process_all cmds s = Done rs s' ∧ kv_rep s' f'.
Proof.
  induction cmds as [|[args now] cmds IH]; intros s f rs f' Hrep Hlt Hpol Hcmds; cbn in *.
  { simplify_eq. eauto. }
  destruct (kv_command args f) as [[r f1]|] eqn:Ec; [|done].
  destruct (kv_commands cmds.*1 f1) as [[rs1 f2]|] eqn:Ecs; [|done]. simplify_eq.
  destruct (command_kv args now s f r f1 Hrep) as (s1 & Hrun & Hrep1 & Hle);
    [lia|destruct Hpol; [by left|right; lia]|done|].
  destruct (IH s1 f1 rs1 f' Hrep1) as (s' & Hrun' & Hrep');
    [lia|destruct Hpol; [by left|right; lia]|done|].
  exists s'. split; [|done]. rewrite (bind_Done _ _ _ _ _ Hrun).
  by rewrite (bind_Done _ _ _ _ _ Hrun').
Qed.
End Lemmas.

(** ** Rejected requests *)

(** The number of words each command takes, [None] for any. *)
Definition arity (name : string) : option (option nat) :=
  if decide (name = "get"%string) then Some (Some 2%nat)
  else if decide (name = "set"%string) then Some (Some 3%nat)
  else if decide (name = "del"%string) then Some (Some 2%nat)
  else if decide (name = "exists"%string) then Some (Some 2%nat)
  else if decide (name = "zadd"%string) then Some (Some 4%nat)
  else if decide (name = "zrem"%string) then Some (Some 3%nat)
  else if decide (name = "flushall"%string) then Some None
  else if decide (name = "pexpire"%string) then Some (Some 3%nat)
  else if decide (name = "pttl"%string) then Some (Some 2%nat)
  else None.

(** The error code of a request that no handler acts on. *)
Definition rejection (args : list string) : option Z :=
  match args with
  | [] => Some ERR_ARG
  | name :: _ =>
      match arity (to_lower name) with
      | None => Some ERR_UNKNOWN
      | Some (Some n) => if decide (length args = n) then None else Some ERR_ARG
      | Some None => None
      end
  end.

Section TypeLemmas.
Context {LP : LockPolicy} {T : Type} `{OrderedMapLaws T Z}.
Context (stod : list byte → sto_error + (Z * nat)) (isnan : Z → bool).
Implicit Types s : EntryManager T.

Abbreviation process := (process_command (T := T) stod isnan).

Lemma find_entry_some s fk k v :
  plain s fk → Z.of_nat (size fk) < 2 ^ 60 → contents s fk !! k = Some v →
  ∃ s' l, EntryManager.find_entry k s = Done (Some l) s' ∧ fk !! k = Some l ∧ plain s' fk ∧
    entries s' = entries s ∧ EntryManager.deref l s' = Done (mkEntry npos k v) s'.
Proof.
  intros Hp Hlt Hv. destruct (find_entry_plain s fk k Hp Hlt) as (h' & Hrun & Hh').
  destruct (contents_some s fk k v Hp Hv) as (l & Hl & He). rewrite Hl in Hrun.
  eexists _, l. split; [exact Hrun|]. split; [done|]. split; [by apply plain_db|]. split; [done|].
  by apply deref_entry.
Qed.

Lemma find_entry_none s fk k :
  plain s fk → Z.of_nat (size fk) < 2 ^ 60 → contents s fk !! k = None →
  ∃ s', EntryManager.find_entry k s = Done None s' ∧ plain s' fk ∧
    entries s' = entries s ∧ next_entry s' = next_entry s.
Proof.
  intros Hp Hlt Hv. destruct (find_entry_plain s fk k Hp Hlt) as (h' & Hrun & Hh').
  apply (contents_none s fk k Hp) in Hv. rewrite Hv in Hrun.
  eexists. split; [exact Hrun|]. split; [by apply plain_db|]. done.
Qed.

Lemma contents_same s s' fk : entries s' = entries s → contents s' fk = contents s fk.
Proof. intros Hes. unfold contents. by rewrite Hes. Qed.

(** A call on the sorted set of an entry changes that entry's value only. *)
Lemma on_zset_plain {A} s fk k l z (c : M (ZSet T) A) a z' :
  plain s fk → fk !! k = Some l → contents s fk !! k = Some (VZSet z) → c z = Done a z' →
  ∃ s', on_zset l z c s = Done a s' ∧ plain s' fk ∧
    contents s' fk = <[k := VZSet z']> (contents s fk).
Proof.
  intros Hp Hl Hz Hc. eexists. unfold on_zset. rewrite Hc. split; [done|].
  destruct s as [h hp es nx]. pose proof Hp as [Hd He Hf Hh]. cbn in *. split; [split; cbn; [done| | |done]|].
  - intros k' l' Hl'. destruct (He _ _ Hl') as [v Hv]. destruct (decide (l = l')) as [->|Hne].
    + rewrite lookup_alter_eq, Hv. cbn. eauto.
    + rewrite lookup_alter_ne by done. eauto.
  - intros l' Hl'. apply Hf. destruct (decide (l = l')) as [->|Hne].
    + rewrite lookup_alter_eq in Hl'. by apply fmap_is_Some in Hl'.
    + by rewrite lookup_alter_ne in Hl'.
  - apply map_eq. intros k'. rewrite contents_lookup. cbn. destruct (decide (k = k')) as [<-|Hne].
    + rewrite Hl, lookup_insert_eq. cbn. rewrite lookup_alter_eq.
      destruct (He _ _ Hl) as [v Hv]. by rewrite Hv.
    + rewrite lookup_insert_ne, contents_lookup by done. destruct (fk !! k') as [l'|] eqn:El'; [|done].
      cbn. rewrite lookup_alter_ne; [done|]. intros <-. apply Hne. by eapply plain_inj.
Qed.
End TypeLemmas.

(** ** Properties *)
Section Properties.
Context {LP : LockPolicy} {T : Type} `{OrderedMapLaws T Z}.
Context (stod : list byte → sto_error + (Z * nat)) (isnan : Z → bool).
Implicit Types s : EntryManager T.

(** The string commands are a key-value service.  Every sequence of GET, SET,
    DEL, EXISTS and FLUSHALL requests (in any letter case, at any time) that sets
    only absent keys, on a server that starts empty, is answered with the bytes
    of the finite map's replies and leaves the key space holding that map. *)
Theorem kv_service (cmds : list (list string * Z)) rs f :
  relock_allowed = true ∨ (length cmds ≤ 32)%nat → Z.of_nat (length cmds) < 2 ^ 60 →
  kv_commands cmds.*1 ∅ = Some (rs, f) →
  ∃ s, process_all (T := T) stod isnan cmds EntryManager.new = Done rs s ∧ kv_rep s f.
Proof.
  intros Hpol Hlt. apply commands_kv; [apply kv_rep_new|by rewrite map_size_empty|].
  destruct Hpol; [by left|right; rewrite map_size_empty; lia].
Qed.

(** A request without words, with an unknown command or with the wrong number
    of words is answered with an error reply of the matching code, appended to
    the response, and changes nothing. *)
Theorem rejected_unchanged args now response s code :
  rejection args = Some code →
  ∃ msg, process_command (T := T) stod isnan args now response s
         = Done (serialize_error response code (line msg)) s.
Proof.
  intros Hrej. destruct args as [|name rest]; [injection Hrej as <-; by eexists|].
  unfold rejection, arity in Hrej. unfold process_command, command_handlers. cbn [find_handler].
  repeat match type of Hrej with
  | context [decide (to_lower name = ?n)] =>
      rewrite (decide_ext (n = to_lower name) (to_lower name = n)) by done;
      destruct (decide (to_lower name = n)) as [_|_]
  end.
  all: try (injection Hrej as <-; eexists; reflexivity).
  all: try done.
  all: case_decide as Hlen; [done|]; injection Hrej as <-.
  all: do 4 (destruct rest as [|? rest]; try (by destruct Hlen); try (eexists; reflexivity)).
Qed.

(** A command on a key of the wrong type is answered with the type error and
    changes no value: GET on anything but a string, ZADD with a valid score and
    ZREM on anything but a sorted set. *)
Theorem wrong_type_unchanged s fk name k v now :
  plain s fk → Z.of_nat (size fk) < 2 ^ 60 → contents s fk !! k = Some v →
  (∀ str, v ≠ VString str) →
  ∃ s', handle_get (T := T) [name; k] now [] s
          = Done (serialize_error [] ERR_TYPE (line "Key holds wrong type")) s' ∧
    plain s' fk ∧ contents s' fk = contents s fk ∧
  ((∀ z, v ≠ VZSet z) → ∀ member score d, parse_double stod isnan score = Some d →
    (∃ s', handle_zadd stod isnan [name; k; score; member] now [] s
          = Done (serialize_error [] ERR_TYPE (line "Key holds wrong type")) s' ∧
      contents s' fk = contents s fk) ∧
    (∃ s', handle_zrem [name; k; member] now [] s
          = Done (serialize_error [] ERR_TYPE (line "Key holds wrong type")) s' ∧
      contents s' fk = contents s fk)).
Proof.
  intros Hp Hlt Hv Hstr.
  destruct (find_entry_some s fk k v Hp Hlt Hv) as (s' & l & Hrun & Hl & Hp' & Hes & He).
  exists s'. split; [|split; [done|split; [by apply contents_same|]]].
  - unfold handle_get. rewrite (bind_Done _ _ _ _ _ Hrun), (bind_Done _ _ _ _ _ He).
    destruct v; try done. by destruct (Hstr s0).
  - intros Hz member score d Hd. split; exists s'; (split; [|by apply contents_same]).
    + unfold handle_zadd. rewrite Hd, (bind_Done _ _ _ _ _ Hrun), bind_ret, (bind_Done _ _ _ _ _ He).
      destruct v; try done. by destruct (Hz z).
    + unfold handle_zrem. rewrite (bind_Done _ _ _ _ _ Hrun), (bind_Done _ _ _ _ _ He).
      destruct v; try done. by destruct (Hz z).
Qed.

(** Where the mutexes can be acquired again, ZADD adds the member with its
    score to the sorted set under the key (a new one if there is none) and
    answers whether the member is new, and ZREM takes it out again. *)
Theorem zadd_zrem_service s fk k f z name score member d now :
  relock_allowed = true → plain s fk → Z.of_nat (size fk) < 2 ^ 60 - 1 →
  contents s fk !! k = Some (VZSet z) → (∃ fh, zset_rep z fh f) →
  Z.of_nat (size f) + 1 < 2 ^ 32 → parse_double stod isnan score = Some d → member ≠ ""%string →
  (∃ s' z', handle_zadd stod isnan [name; k; score; member] now [] s
        = Done (serialize_integer [] (if bool_decide (f !! member = None) then 1 else 0)) s' ∧
     plain s' fk ∧ contents s' fk = <[k := VZSet z']> (contents s fk) ∧
     ∃ fh, zset_rep z' fh (<[member := d]> f)) ∧
  (∃ s' z', handle_zrem [name; k; member] now [] s
        = Done (serialize_integer [] (if bool_decide (is_Some (f !! member)) then 1 else 0)) s' ∧
     plain s' fk ∧ contents s' fk = <[k := VZSet z']> (contents s fk) ∧
     ∃ fh, zset_rep z' fh (delete member f)).
Proof.
  intros Hpol Hp Hlt Hv (fh & Hz) Hsz Hd Hm.
  destruct (find_entry_some s fk k (VZSet z) Hp) as (s1 & l & Hrun & Hl & Hp1 & Hes & He);
    [lia|done|].
  assert (contents s1 fk !! k = Some (VZSet z)) as Hv1 by by rewrite (contents_same s s1 fk Hes).
  split.
  - destruct (add_internal_spec z fh f member d Hpol Hz Hsz Hm) as (z' & fh' & Hadd & Hz').
    destruct (on_zset_plain s1 fk k l z _ _ z' Hp1 Hl Hv1 Hadd) as (s' & Hon & Hp' & Hc').
    exists s', z'. split; [|split; [done|split; [|by exists fh']]].
    + unfold handle_zadd. rewrite Hd, (bind_Done _ _ _ _ _ Hrun), bind_ret, (bind_Done _ _ _ _ _ He).
      cbn [value]. by rewrite (bind_Done _ _ _ _ _ Hon).
    + by rewrite Hc', (contents_same s s1 fk Hes).
  - destruct (remove_internal_spec z fh f member Hz) as (z' & fh' & Hrem & Hz'); [lia|].
    destruct (on_zset_plain s1 fk k l z _ _ z' Hp1 Hl Hv1 Hrem) as (s' & Hon & Hp' & Hc').
    exists s', z'. split; [|split; [done|split; [|by exists fh']]].
    + unfold handle_zrem. rewrite (bind_Done _ _ _ _ _ Hrun), (bind_Done _ _ _ _ _ He).
      cbn [value]. by rewrite (bind_Done _ _ _ _ _ Hon).
    + by rewrite Hc', (contents_same s s1 fk Hes).
Qed.

(** ZADD re-acquires the mutex of its sorted set. *)
Lemma zadd_stuck s fk name k member score d now :
  relock_allowed = false → plain s fk → Z.of_nat (size fk) < 32 →
  to_lower name = "zadd"%string → parse_double stod isnan score = Some d →
  match contents s fk !! k with
  | None => True
  | Some (VZSet z) => zset_mutex_ z = []
  | _ => False
  end →
  process_command (T := T) stod isnan [name; k; score; member] now [] s = Stuck.
Proof.
  intros Hpol Hp Hlt Hname Hd Hv.
  rewrite (process_named stod isnan name _ (handle_zadd stod isnan) _ _ _ Hname) by done.
  assert (∀ entry e (z : ZSet T) s', entries s' !! entry = Some e → value e = VZSet z → zset_mutex_ z = [] →
    (e ← EntryManager.deref entry;
     match value e with
     | VZSet z =>
         added ← on_zset entry z (ZSet.add_internal member d);
         mret (serialize_integer [] (if added : bool then 1 else 0))
     | _ => error_reply [] ERR_TYPE "Key holds wrong type"
     end) s' = Stuck) as Hadd.
  { intros entry e z s' He Hez Hmx. rewrite (bind_Done _ _ _ _ _ (deref_entry s' entry e He)), Hez.
    apply bind_Stuck. unfold on_zset. by rewrite add_internal_stuck. }
  unfold handle_zadd. rewrite Hd. destruct (contents s fk !! k) as [v|] eqn:Ev.
  - destruct v as [| | | | | |z]; try done.
    destruct (find_entry_some s fk k (VZSet z) Hp) as (s1 & l & Hrun & Hl & Hp1 & Hes & He);
      [lia|done|]. rewrite (bind_Done _ _ _ _ _ Hrun), bind_ret.
    destruct (contents_some s fk k (VZSet z) Hp Ev) as (l' & Hl' & He').
    assert (l' = l) as -> by congruence. eapply (Hadd l _ z); [by rewrite Hes|done|done].
  - destruct (find_entry_none s fk k Hp) as (s1 & Hrun & Hp1 & Hes & Hnx); [lia|done|].
    rewrite (bind_Done _ _ _ _ _ Hrun).
    destruct (create_entry_plain s1 fk k (VZSet ZSet.new) Hp1) as (s2 & Hcreate & Hp2 & Hc2);
      [lia|by apply (contents_none s fk k Hp)|by right|].
    rewrite (bind_Done _ _ _ _ _ Hcreate).
    assert (contents s2 (<[k := next_entry s1]> fk) !! k = Some (VZSet ZSet.new)) as Hv2
      by by rewrite Hc2, lookup_insert_eq.
    destruct (contents_some _ _ _ _ Hp2 Hv2) as (l & Hl & He). rewrite lookup_insert_eq in Hl.
    injection Hl as <-. by eapply (Hadd _ _ ZSet.new).
Qed.

(** With [std::shared_mutex] a well-formed ZADD, on a key that is absent or
    holds a sorted set, never returns. *)
Theorem zadd_command_hangs s fk name k member score d now :
  relock_allowed = false → plain s fk → Z.of_nat (size fk) < 32 →
  to_lower name = "zadd"%string → parse_double stod isnan score = Some d →
  match contents s fk !! k with
  | None => True
  | Some (VZSet z) => zset_mutex_ z = []
  | _ => False
  end →
  process_command (T := T) stod isnan [name; k; score; member] now [] s = Stuck.
Proof. apply zadd_stuck. Qed.
End Properties.

(** ** Witnesses: whole numbers for [std::stod], the locking AVL tree for the
    sorted sets. *)
Definition whole_stod : list byte → sto_error + (Z * nat) := stoll.
Definition no_nan : Z → bool := λ _, false.

Section ReentrantWitnesses.
#[local] Existing Instance reentrant.

Definition sample_commands : list (list string * Z) :=
  [(["SET"; "a"; "1"], 0); (["get"; "a"], 0); (["Set"; "b"; "2"], 0); (["DEL"; "a"], 0);
   (["exists"; "a"], 5); (["set"; "a"; "3"], 0); (["GET"; "a"], 9); (["flushall"], 0);
   (["get"; "b"], 0)]%string.

Lemma kv_service_witness :
  ∃ rs s f, process_all (T := AVLTree string Z) whole_stod no_nan sample_commands EntryManager.new
    = Done rs s ∧ kv_rep s f.
Proof.
  destruct (kv_commands sample_commands.*1 ∅) as [[rs f]|] eqn:E; [|by vm_compute in E].
  destruct (kv_service (T := AVLTree string Z) whole_stod no_nan sample_commands rs f)
    as (s & Hrun & Hrep); [by left|by vm_compute|exact E|].
  exists rs, s, f. exact (conj Hrun Hrep).
Defined.

(** The key space {"z" = empty sorted set}. *)
Lemma zset_key_space :
  ∃ (s : EntryManager (AVLTree string Z)) fk, plain s fk ∧ Z.of_nat (size fk) < 32 ∧
    contents s fk !! "z"%string = Some (VZSet ZSet.new).
Proof.
  destruct (create_entry_plain (EntryManager.new : EntryManager (AVLTree string Z)) ∅ "z"
    (VZSet ZSet.new) plain_new) as (s & _ & Hp & Hc); [by vm_compute|done|by left|].
  exists s, (<["z"%string := 1%positive]> ∅). split; [exact Hp|]. split; [by vm_compute|].
  change (next_entry EntryManager.new) with 1%positive in Hc. by rewrite Hc, lookup_insert_eq.
Qed.

Lemma wrong_type_unchanged_witness :
  ∃ s s' : EntryManager (AVLTree string Z), handle_get ["get"; "z"]%string 0 [] s
    = Done (serialize_error [] ERR_TYPE (line "Key holds wrong type")) s'.
Proof.
  destruct zset_key_space as (s & fk & Hp & Hlt & Hv).
  destruct (wrong_type_unchanged whole_stod no_nan s fk "get" "z" (VZSet ZSet.new) 0 Hp)
    as (s' & Hrun & _); [lia|exact Hv|done|].
  exists s, s'. exact Hrun.
Defined.

Lemma zadd_zrem_service_witness :
  ∃ s s' : EntryManager (AVLTree string Z),
    handle_zadd whole_stod no_nan ["zadd"; "z"; "7"; "ann"]%string 0 [] s
    = Done (serialize_integer [] 1) s'.
Proof.
  destruct zset_key_space as (s & fk & Hp & Hlt & Hv).
  destruct (zadd_zrem_service whole_stod no_nan s fk "z" ∅ ZSet.new "zadd" "7" "ann" 7 0)
    as [(s' & z' & Hrun & _) _].
  - done.
  - exact Hp.
  - lia.
  - exact Hv.
  - exists ∅. apply zrep_new.
  - by vm_compute.
  - by vm_compute.
  - done.
  - exists s, s'. exact Hrun.
Defined.
End ReentrantWitnesses.

Section SharedMutexWitnesses.
#[local] Existing Instance std_shared_mutex.

Lemma rejected_unchanged_witness :
  ∃ msg, process_command (T := AVLTree string Z) whole_stod no_nan ["GET"]%string 0 [] EntryManager.new
    = Done (serialize_error [] ERR_ARG (line msg)) EntryManager.new.
Proof. by apply rejected_unchanged. Defined.

Lemma zadd_command_hangs_witness :
  process_command (T := AVLTree string Z) whole_stod no_nan ["ZADD"; "z"; "7"; "ann"]%string 0 []
    EntryManager.new = Stuck.
Proof.
  apply (zadd_command_hangs whole_stod no_nan EntryManager.new ∅ "ZADD" "z" "ann" "7" 7 0).
  - done.
  - apply plain_new.
  - by vm_compute.
  - by vm_compute.
  - by vm_compute.
  - by vm_compute.
Defined.
End SharedMutexWitnesses.
