(* ===== verification/StringService.v ===== *)
(** The string commands whatever the keys: the key space as an association list.

    SET of a key that is there hides its value and DEL uncovers it again ([HashStack]), so
    that this, and not a finite map, is what GET, SET, DEL, EXISTS and FLUSHALL implement.
    [CommandProcessor] shows the finite map for clients that set absent keys only. *)

From S2P Require Import Prelude Bytes CxxLib HashTable HashMapSpec HashStack Heap AVL.
From S2P Require Import ZSet EntryManager ResponseSerializer CommandProcessor.

(** ** The key space *)
Section Strings.
Context {LP : LockPolicy} {T : Type}.
Implicit Types (s : EntryManager T) (ls : list (string * loc)) (l : list (string * string)).

(** Every node of the map has its own object, which holds the key and the value; no other
    object is alive, and no key has an expiry time. *)
Record held s ls l : Prop := {
  hd_db : stacked (db_ s) ls;
  hd_own : NoDup ls.*2;
  hd_entries : Forall2 (λ p q, p.1 = q.1 ∧ entries s !! p.2 = Some (mkEntry npos p.1 (VString q.2))) ls l;
  hd_alive : dom (entries s) = list_to_set ls.*2;
  hd_next : ∀ x, x ∈ ls.*2 → (x < next_entry s)%positive;
  hd_heap : heap_ s = mkBinaryHeap [] [];
}.

Definition strings s l : Prop := ∃ ls, held s ls l.

Lemma held_length s ls l : held s ls l → length ls = length l.
Proof. intros Hh. eapply Forall2_length, hd_entries, Hh. Qed.

Lemma held_new : held EntryManager.new [] [].
Proof. split; cbn; [apply stacked_new|constructor|constructor|set_solver|set_solver|done]. Qed.

(** The newest node of a key has its newest value. *)
Lemma newest_held (es : objects T) ls l k :
  Forall2 (λ p q, p.1 = q.1 ∧ es !! p.2 = Some (mkEntry npos p.1 (VString q.2))) ls l →
  match newest k ls with
  | Some x => ∃ v, newest k l = Some v ∧ es !! x = Some (mkEntry npos k (VString v))
  | None => newest k l = None
  end.
Proof.
  induction 1 as [|[k1 x] [k2 v] ls l [Hk Hx] _ IH]; [done|]. cbn in *. subst k2.
  destruct (decide (k1 = k)) as [->|]; [by exists v|done].
Qed.

(** Without it the others are as before. *)
Lemma drop_held (es es' : objects T) ls l k :
  (∀ p, p ∈ drop_newest k ls → es' !! p.2 = es !! p.2) →
  Forall2 (λ p q, p.1 = q.1 ∧ es !! p.2 = Some (mkEntry npos p.1 (VString q.2))) ls l →
  Forall2 (λ p q, p.1 = q.1 ∧ es' !! p.2 = Some (mkEntry npos p.1 (VString q.2))) (drop_newest k ls) (drop_newest k l).
Proof.
  intros Hsame Hall. induction Hall as [|[k1 x] [k2 v] ls l [Hk Hx] Hall IH]; [constructor|]. cbn in *. subst k2.
  destruct (decide (k1 = k)) as [->|].
  - clear IH. induction Hall as [|[k1 y] [k2 w] ls l [Hk Hy] Hall IH]; [constructor|]. constructor.
    + split; [done|]. etrans; [apply (Hsame (k1, y)); by left|exact Hy].
    + apply IH. intros p Hp. apply Hsame. by right.
  - constructor; [split; [done|]; etrans; [apply (Hsame (k1, x)); by left|exact Hx]|].
    apply IH. intros p Hp. apply Hsame. by right.
Qed.

Lemma drop_newest_permutation ls k x : newest k ls = Some x → ls ≡ₚ (k, x) :: drop_newest k ls.
Proof.
  induction ls as [|[k1 y] ls IH]; cbn; [done|]. case_decide as Hk.
  - intros [= ->]. by subst.
  - intros Hx. rewrite (IH Hx) at 1. apply Permutation_swap.
Qed.

Lemma drop_newest_none {A} (l : list (string * A)) k : newest k l = None → drop_newest k l = l.
Proof.
  induction l as [|[k1 y] l IH]; cbn; [done|]. case_decide; [done|]. intros Hn. by rewrite IH.
Qed.

(** ** The operations *)
Lemma find_held s ls l k :
  held s ls l → Z.of_nat (length l) < 2 ^ 60 → EntryManager.find_entry k s = Done (newest k ls) s.
Proof.
  intros Hh Hlt. rewrite <- (held_length _ _ _ Hh) in Hlt. destruct s as [h hp es nx].
  apply on_db_Done. exact (find_stacked h ls k (hd_db _ _ _ Hh) Hlt).
Qed.

Lemma create_held s ls l k v :
  held s ls l → Z.of_nat (length l) < 32 →
  ∃ x s', EntryManager.create_entry k (VString v) s = Done x s' ∧ held s' ((k, x) :: ls) ((k, v) :: l).
Proof.
  intros Hh Hlt. rewrite <- (held_length _ _ _ Hh) in Hlt. destruct s as [h hp es nx]. destruct Hh as [Hd Ho He Ha Hn Hp]. cbn in *.
  destruct (insert_stacked h ls k nx Hd Hlt) as (h' & Hins & Hst). exists nx. eexists.
  assert (nx ∉ ls.*2) as Hnew by (intros Hin; specialize (Hn nx Hin); lia).
  split.
  { unfold EntryManager.create_entry. rewrite (bind_Done _ _ _ nx (mkEntryManager h hp (<[nx := mkEntry npos k (VString v)]> es) (Pos.succ nx))) by done.
    by rewrite (bind_Done _ _ _ _ _ (on_db_Done _ _ _ _ _ _ _ Hins)). }
  split; cbn; [done|by constructor| | | |done].
  - constructor; [by rewrite lookup_insert_eq|]. eapply Forall2_impl; [|intros p q Hpq; exact Hpq].
    apply Forall2_same_length_lookup_2; [by eapply Forall2_length|]. intros i p q Hi Hj.
    destruct (Forall2_lookup_lr _ _ _ _ _ _ He Hi Hj) as [Hk Hx]. split; [done|]. rewrite lookup_insert_ne; [done|].
    intros Heq. apply Hnew. rewrite Heq. apply list_elem_of_fmap. exists p. split; [done|]. by eapply list_elem_of_lookup_2.
  - rewrite dom_insert_L, Ha. set_solver.
  - intros x [->|Hx]%elem_of_cons; [lia|]. specialize (Hn x Hx). lia.
Qed.

Lemma delete_held s ls l k :
  held s ls l → Z.of_nat (length l) < 2 ^ 60 →
  ∃ s', EntryManager.delete_entry k s = Done (bool_decide (is_Some (newest k l))) s' ∧
    held s' (drop_newest k ls) (drop_newest k l).
Proof.
  intros Hh Hlt. pose proof (find_held s ls l k Hh Hlt) as Hfind. rewrite <- (held_length _ _ _ Hh) in Hlt.
  unfold EntryManager.delete_entry. change (EntryManager.on_db (HMap.find k)) with (EntryManager.find_entry (T := T) k).
  rewrite (bind_Done _ _ _ _ _ Hfind). pose proof (newest_held _ _ _ k (hd_entries _ _ _ Hh)) as Hnew.
  destruct (newest k ls) as [x|] eqn:Ek.
  2: { exists s. rewrite Hnew, !drop_newest_none by done. by rewrite bool_decide_eq_false_2 by (by intros []). }
  destruct Hnew as (v & Hv & Hx). destruct s as [h hp es nx]. destruct Hh as [Hd Ho He Ha Hn Hp]. cbn in *.
  destruct (remove_stacked h ls k Hd Hlt) as (h' & Hrem & Hst). rewrite Ek in Hrem.
  rewrite (bind_Done _ _ _ _ _ (deref_entry (mkEntryManager h hp es nx) x _ Hx)).
  cbn [heap_idx]. rewrite Z.eqb_refl. cbn [negb]. rewrite bind_ret.
  rewrite (bind_Done _ _ _ _ _ (on_db_Done _ _ _ _ nx _ _ Hrem)).
  rewrite bool_decide_eq_true_2 by (by rewrite Hv). eexists. split; [done|].
  assert (ls.*2 ≡ₚ x :: (drop_newest k ls).*2) as Hperm by exact (fmap_Permutation snd _ _ (drop_newest_permutation ls k x Ek)).
  assert (x ∉ (drop_newest k ls).*2 ∧ NoDup (drop_newest k ls).*2) as [Hxo Ho'].
  { apply NoDup_cons. rewrite Hperm in Ho. exact Ho. }
  split; cbn; [done|done| | | |done].
  - apply (drop_held es); [|done]. intros p Hin. rewrite lookup_delete_ne; [done|]. intros ->. apply Hxo.
    apply list_elem_of_fmap. by exists p.
  - rewrite dom_delete_L, Ha, (list_to_set_perm_L _ _ Hperm). cbn. set_solver.
  - intros y Hy. apply Hn. rewrite Hperm. by right.
Qed.

(** The objects the map owns. *)
Lemma held_owned s ls l x : held s ls l → x ∈ ls.*2 → x ∈ EntryManager.db_locs (db_ s).
Proof.
  intros Hh ([k y] & -> & Hin)%list_elem_of_fmap. pose proof (st_versions _ _ (hd_db _ _ _ Hh) k) as Hv.
  assert (y ∈ map_versions (db_ s) k) as Hy.
  { rewrite Hv. unfold values_of. apply list_elem_of_fmap. exists (k, y). split; [done|]. by apply list_elem_of_filter. }
  unfold map_versions in Hy. rewrite (st_whole _ _ (hd_db _ _ _ Hh)), app_nil_r in Hy.
  unfold EntryManager.db_locs, EntryManager.table_locs. apply elem_of_app. left. cbn [snd].
  unfold versions, chain_versions in Hy. apply list_elem_of_fmap in Hy as (n & -> & [_ Hn]%list_elem_of_filter).
  apply list_elem_of_fmap. exists n. split; [done|]. apply list_elem_of_In, in_concat.
  destruct (buckets_ _ !! _) as [chain|] eqn:Hb; cbn in Hn; [|set_solver].
  exists chain. split; apply list_elem_of_In; [by eapply list_elem_of_lookup_2|done].
Qed.

Lemma foldr_delete_dom (es : objects T) (xs : list loc) : dom (foldr delete es xs) = dom es ∖ list_to_set xs.
Proof. induction xs as [|x xs IH]; cbn; [set_solver|]. rewrite dom_delete_L, IH. set_solver. Qed.

Lemma clear_held s ls l : held s ls l → ∃ s', EntryManager.clear_all s = Done true s' ∧ held s' [] [].
Proof.
  intros Hh. pose proof (held_owned s ls l) as Hown. destruct s as [h hp es nx]. pose proof Hh as [Hd Ho He Ha Hn Hp]. cbn in *. subst hp.
  destruct (clear_stacked h ls Hd) as (h' & Hclear & Hst). unfold EntryManager.clear_all. rewrite bind_get.
  rewrite (bind_Done _ _ _ _ _ (on_db_Done _ _ _ _ nx _ _ Hclear)).
  assert (HMap.size h' = 0) as Hsz by by rewrite (size_stacked h' [] Hst).
  exists (mkEntryManager h' (mkBinaryHeap [] []) (foldr delete es (EntryManager.db_locs h)) nx). split.
  { transitivity (Done (A := bool) ((HMap.size h' =? 0) && true)
      (mkEntryManager h' (mkBinaryHeap [] []) (foldr delete es (EntryManager.db_locs h)) nx)); [reflexivity|by rewrite Hsz]. }
  split; cbn; [done|constructor|constructor| |set_solver|done].
  rewrite foldr_delete_dom, Ha. apply set_eq. intros x. rewrite elem_of_difference, !elem_of_list_to_set.
  split; [|set_solver]. intros [Hx Hnot]. by destruct Hnot; apply Hown.
Qed.
End Strings.

(** ** The commands *)

(** The reply of a request, and the list it leaves; none for the commands on sorted sets and
    expiry times, and for a SET beside 32 values. *)
Definition string_command (args : list string) (l : list (string * string)) : option (list byte * list (string * string)) :=
  match args with
  | [] => Some (serialize_error [] ERR_ARG (line "empty command"), l)
  | name :: rest =>
      let name := to_lower name in
      if decide (name = "get"%string) then
        match rest with
        | [k] => Some (match newest k l with
                       | Some v => serialize_string [] (bytes_of_string v)
                       | None => serialize_nil []
                       end, l)
        | _ => Some (serialize_error [] ERR_ARG (line "GET requires one key"), l)
        end
      else if decide (name = "set"%string) then
        match rest with
        | [k; v] => if Z.of_nat (length l) <? 32 then Some (serialize_string [] (bytes_of_string "OK"), (k, v) :: l) else None
        | _ => Some (serialize_error [] ERR_ARG (line "SET requires key and value"), l)
        end
      else if decide (name = "del"%string) then
        match rest with
        | [k] => Some (serialize_integer [] (if newest k l is Some _ then 1 else 0), drop_newest k l)
        | _ => Some (serialize_error [] ERR_ARG (line "DEL requires key"), l)
        end
      else if decide (name = "exists"%string) then
        match rest with
        | [k] => Some (serialize_integer [] (if newest k l is Some _ then 1 else 0), l)
        | _ => Some (serialize_error [] ERR_ARG (line "EXISTS requires key"), l)
        end
      else if decide (name = "flushall"%string) then Some (serialize_integer [] 1, [])
      else if arity name is Some _ then None
      else Some (serialize_error [] ERR_UNKNOWN (line "unknown command"), l)
  end.

(** There are never more than 32 values. *)
Lemma string_command_room args l r l' :
  string_command args l = Some (r, l') → (length l ≤ 32)%nat → (length l' ≤ 32)%nat.
Proof.
  unfold string_command. destruct args as [|name rest]; [by intros [= _ <-]|].
  assert (∀ k, length (drop_newest k l) ≤ length l)%nat as Hdrop by (intros k; apply sublist_length, drop_newest_sub).
  intros Hcmd Hle. repeat case_decide; repeat case_match; simplify_eq; cbn [length]; try lia.
  all: by etrans; [apply Hdrop|].
Qed.

Section Commands.
Context {LP : LockPolicy} {T : Type} `{OrderedMapLaws T Z}.
Context (stod : list byte → sto_error + (Z * nat)) (isnan : Z → bool).
Implicit Types (s : EntryManager T) (l : list (string * string)).

Abbreviation process := (process_command (T := T) stod isnan).

Lemma get_held s ls l k name now :
  held s ls l → Z.of_nat (length l) < 2 ^ 60 →
  handle_get [name; k] now [] s
  = Done (match newest k l with Some v => serialize_string [] (bytes_of_string v) | None => serialize_nil [] end) s.
Proof.
  intros Hh Hlt. unfold handle_get. rewrite (bind_Done _ _ _ _ _ (find_held s ls l k Hh Hlt)).
  pose proof (newest_held _ _ _ k (hd_entries _ _ _ Hh)) as Hnew. destruct (newest k ls) as [x|]; [|by rewrite Hnew].
  destruct Hnew as (v & -> & Hx). by rewrite (bind_Done _ _ _ _ _ (deref_entry s x _ Hx)).
Qed.

Lemma exists_held s ls l k name now :
  held s ls l → Z.of_nat (length l) < 2 ^ 60 →
  handle_exists [name; k] now [] s = Done (serialize_integer [] (if newest k l is Some _ then 1 else 0)) s.
Proof.
  intros Hh Hlt. unfold handle_exists. rewrite (bind_Done _ _ _ _ _ (find_held s ls l k Hh Hlt)).
  pose proof (newest_held _ _ _ k (hd_entries _ _ _ Hh)) as Hnew. destruct (newest k ls) as [x|]; [|by rewrite Hnew].
  by destruct Hnew as (v & -> & _).
Qed.

(** One command on the list. *)
Lemma command_strings args now s l r l' :
  strings s l → Z.of_nat (length l) < 2 ^ 60 → string_command args l = Some (r, l') →
  ∃ s', process args now [] s = Done r s' ∧ strings s' l'.
Proof.
  intros [ls Hh] Hlt. assert (strings s l) as Hst by by exists ls. destruct args as [|name rest].
  { intros [= <- <-]. by exists s. }
  cbn [string_command].
  destruct (decide (to_lower name = "get"%string)) as [E|Hget].
  { rewrite (process_named stod isnan name _ (handle_get (T := T)) _ _ _ E) by done.
    destruct rest as [|k [|? ?]]; intros [= <- <-]; [by exists s| |by exists s]. exists s. by rewrite (get_held s ls l) by done. }
  destruct (decide (to_lower name = "set"%string)) as [E|Hset].
  { rewrite (process_named stod isnan name _ (handle_set (T := T)) _ _ _ E) by done.
    destruct rest as [|k [|v [|? ?]]]; [intros [= <- <-]; by exists s..| |intros [= <- <-]; by exists s].
    destruct (Z.ltb_spec (Z.of_nat (length l)) 32) as [Hroom|]; [|done]. intros [= <- <-].
    destruct (create_held s ls l k v Hh Hroom) as (x & s' & Hrun & Hh'). exists s'. split; [|by eexists].
    unfold handle_set. by rewrite (bind_Done _ _ _ _ _ Hrun). }
  destruct (decide (to_lower name = "del"%string)) as [E|Hdel].
  { rewrite (process_named stod isnan name _ (handle_del (T := T)) _ _ _ E) by done.
    destruct rest as [|k [|? ?]]; intros [= <- <-]; [by exists s| |by exists s].
    destruct (delete_held s ls l k Hh Hlt) as (s' & Hrun & Hh'). exists s'. split; [|by eexists].
    unfold handle_del. rewrite (bind_Done _ _ _ _ _ Hrun). by destruct (newest k l). }
  destruct (decide (to_lower name = "exists"%string)) as [E|Hexists].
  { rewrite (process_named stod isnan name _ (handle_exists (T := T)) _ _ _ E) by done.
    destruct rest as [|k [|? ?]]; intros [= <- <-]; [by exists s| |by exists s]. exists s. by rewrite (exists_held s ls l) by done. }
  destruct (decide (to_lower name = "flushall"%string)) as [E|Hflush].
  { rewrite (process_named stod isnan name _ (handle_flushall (T := T)) _ _ _ E) by done. intros [= <- <-].
    destruct (clear_held s ls l Hh) as (s' & Hrun & Hh'). exists s'. split; [|by eexists].
    unfold handle_flushall. by rewrite (bind_Done _ _ _ _ _ Hrun). }
  destruct (arity (to_lower name)) as [n|] eqn:Harity; [done|]. intros [= <- <-]. exists s. split; [|done].
  unfold process_command. cbn [command_handlers find_handler]. unfold arity in Harity.
  repeat case_decide; congruence || done.
Qed.

Fixpoint string_commands (cmds : list (list string)) l : option (list (list byte) * list (string * string)) :=
  match cmds with
  | [] => Some ([], l)
  | args :: cmds' =>
      '(r, l') ← string_command args l;
      '(rs, l'') ← string_commands cmds' l';
      Some (r :: rs, l'')
  end.

Lemma commands_strings cmds : ∀ s l rs l',
  strings s l → (length l ≤ 32)%nat → string_commands cmds.*1 l = Some (rs, l') →
  ∃ s', process_all stod isnan cmds s = Done rs s' ∧ strings s' l'.
Proof.
  induction cmds as [|[args now] cmds IH]; intros s l rs l' Hst Hle; cbn.
  { intros [= <- <-]. by exists s. }
  destruct (string_command args l) as [[r l1]|] eqn:Hcmd; [|done]. cbn.
  destruct (string_commands cmds.*1 l1) as [[rs1 l2]|] eqn:Hcmds; [|done]. intros [= <- <-].
  destruct (command_strings args now s l r l1 Hst) as (s1 & Hrun & Hst1); [lia|done|].
  destruct (IH s1 l1 rs1 l2 Hst1 (string_command_room _ _ _ _ Hcmd Hle) Hcmds) as (s' & Hrun' & Hst').
  exists s'. split; [|done]. by rewrite (bind_Done _ _ _ _ _ Hrun), (bind_Done _ _ _ _ _ Hrun').
Qed.

(** C4: what the string commands do, whatever the keys.  Every sequence of GET, SET, DEL,
    EXISTS and FLUSHALL requests, well or ill formed, and of requests no command has the
    name of, on a server that starts empty and is given no SET while it holds 32 values, is
    answered as by a list of key-value pairs: SET puts its pair in front, GET and EXISTS
    look for the first pair of the key, DEL takes that one pair away, and an error reply
    changes nothing.  The values that are alive are those of the list, so that none leaks.
    The other commands - those on sorted sets and expiry times - are not part of it, and
    with [std::shared_mutex] a SET beside 32 values never returns ([set_33_hangs]). *)
Theorem string_service cmds rs l :
  string_commands cmds.*1 [] = Some (rs, l) →
  ∃ s, process_all stod isnan cmds EntryManager.new = Done rs s ∧ strings s l ∧ size (entries s) = length l.
Proof.
  intros Hcmds. destruct (commands_strings cmds EntryManager.new [] rs l) as (s & Hrun & ls & Hh); [|cbn; lia|done|].
  - exists []. apply held_new.
  - exists s. split; [done|]. split; [by exists ls|]. rewrite <- (held_length _ _ _ Hh), <- (length_fmap snd ls), <- size_dom.
    rewrite (hd_alive _ _ _ Hh). apply size_list_to_set, (hd_own _ _ _ Hh).
Qed.
End Commands.

(** ** Witnesses *)
Section Witnesses.
#[local] Existing Instance std_shared_mutex.

(** A key that is set twice is still there after it is deleted. *)
Definition set_set_del : list (list string * Z) :=
  [(["SET"; "k"; "old"], 1); (["SET"; "k"; "new"], 2); (["get"; "k"], 3); (["DEL"; "k"], 4); (["get"; "k"], 5)]%string.

Lemma string_service_witness :
  ∃ s, process_all (T := AVLTree string Z) whole_stod no_nan set_set_del EntryManager.new
      = Done [serialize_string [] (bytes_of_string "OK"); serialize_string [] (bytes_of_string "OK");
              serialize_string [] (bytes_of_string "new"); serialize_integer [] 1;
              serialize_string [] (bytes_of_string "old")] s ∧
    strings s [("k", "old")]%string ∧ size (entries s) = 1%nat.
Proof. apply string_service. vm_compute. reflexivity. Defined.

(** Setting one key 33 times: the last SET finds the table loaded, and never returns. *)
Lemma set_33_hangs :
  let sets n := replicate n (["SET"; "k"; "v"]%string, 1) in
  (∃ rs s, process_all (T := AVLTree string Z) whole_stod no_nan (sets 32%nat) EntryManager.new = Done rs s) ∧
  process_all (T := AVLTree string Z) whole_stod no_nan (sets 33%nat) EntryManager.new = Stuck.
Proof. vm_compute. split; [by do 2 eexists|reflexivity]. Qed.
End Witnesses.
