(* ===== verification/Connection.v ===== *)
(** One client connection (connection.hpp): the text protocol of [process_io],
    which the server runs, and the framed protocol of [handle_request] and
    [handle_response], which nothing calls.

    What the operating system answers is an argument: the results of [read] and
    [write] in the order of the calls.  The entry manager is shared by all
    connections, so it is half of the state. *)

From S2P Require Import Prelude Bytes CxxLib HashTable Heap AVL ZSet.
From S2P Require Import EntryManager RequestParser ResponseSerializer CommandProcessor.

Definition MAX_MSG_SIZE : Z := 4096.
Definition IDLE_TIMEOUT : Z := 5000.
Definition SERVER_PORT : Z := 4321.

Inductive ConnectionState : Type := Request | Response | End_.

(** [std::errc] of the results. *)
Inductive conn_errc : Type := connection_reset | io_error.

(** [read] and [write]: the bytes, the count, or the cause of the -1. *)
Inductive read_result : Type := RData (bytes : list byte) | REof | RIntr | RAgain | RFail.
Inductive write_result : Type := WSent (n : nat) | WIntr | WAgain | WFail.

Record Conn := mkConn {
  socket_ : Z;
  state_ : ConnectionState;
  idle_start_ : Z;
  rbuf_ : list byte;
  wbuf_ : list byte;
  wbuf_sent_ : nat;
}.

Definition new_conn (socket now : Z) : Conn := mkConn socket Request now [] [] 0.

Definition set_state (st : ConnectionState) (c : Conn) : Conn :=
  mkConn (socket_ c) st (idle_start_ c) (rbuf_ c) (wbuf_ c) (wbuf_sent_ c).
Definition set_rbuf (l : list byte) (c : Conn) : Conn :=
  mkConn (socket_ c) (state_ c) (idle_start_ c) l (wbuf_ c) (wbuf_sent_ c).
Definition set_wbuf (l : list byte) (sent : nat) (c : Conn) : Conn :=
  mkConn (socket_ c) (state_ c) (idle_start_ c) (rbuf_ c) l sent.
Definition update_idle_time (now : Z) (c : Conn) : Conn :=
  mkConn (socket_ c) (state_ c) now (rbuf_ c) (wbuf_ c) (wbuf_sent_ c).

(** [std::string request(buffer)]: up to the first NUL. *)
Fixpoint c_string (l : list byte) : list byte :=
  match l with
  | [] => []
  | b :: l' => if byte_val b =? 0 then [] else b :: c_string l'
  end.

Section Connection.
Context {LP : LockPolicy} {T : Type} `{OrderedMap T Z}.
Context (stod : list byte → sto_error + (Z * nat)) (isnan : Z → bool).

(** A connection and the entry manager it works on. *)
Abbreviation cstate := (Conn * EntryManager T)%type.

Definition on_conn (f : Conn → Conn) : M cstate unit := modify (λ s, (f s.1, s.2)).
Definition on_em {A} (c : M (EntryManager T) A) : M cstate A :=
  zoom snd (λ e s, (s.1, e)) c.

(** [process_io]: the result, and the bytes handed to [write] if any. *)
Definition process_io (now : Z) (bytes_read : read_result)
  : M cstate ((conn_errc + unit) * option (list byte)) :=
  match bytes_read with
  | RData bytes =>
      let args := istream_words (c_string bytes) in
      response ← on_em (process_command stod isnan args now []);
      mret (inr tt, Some response)
  | REof => mret (inl connection_reset, None)
  | RIntr | RAgain | RFail => mret (inl io_error, None)
  end.

(** One framed request out of [rbuf_].  The result is always a value: the parse
    error is not returned. *)
Definition try_process_request (now : Z) : M cstate (conn_errc + bool) :=
  s ← get;
  if Z.of_nat (length (rbuf_ s.1)) <? 4 then mret (inr false)
  else
    match RequestParser.parse (rbuf_ s.1) tt with
    | Done (inl _) _ => on_conn (set_state End_) ;; mret (inr false)
    | Done (inr cmd) _ =>
        response ← on_em (process_command stod isnan cmd now []);
        let wlen := wrapu 32 (Z.of_nat (length response)) in
        on_conn (set_wbuf (append_data 4 [] wlen ++ response) 0) ;;
        on_conn (set_state Response) ;;
        let consumed := (4 + length cmd)%nat in
        on_conn (λ c, set_rbuf
          (if (consumed <? length (rbuf_ c))%nat then drop consumed (rbuf_ c) else []) c) ;;
        s ← get;
        mret (inr (4 <=? Z.of_nat (length (rbuf_ s.1))))
    | _ => undef
    end.

(** [while (try_process_request()) {}]: an [std::expected] is true when it holds
    a value, whatever the value. *)
Fixpoint process_requests (fuel : nat) (now : Z) : M cstate unit :=
  match fuel with
  | O => λ _, NoFuel
  | S fuel' =>
      r ← try_process_request now;
      match r with
      | inr _ => process_requests fuel' now
      | inl _ => mret tt
      end
  end.

(** The [do ... while] over EINTR: the first other answer. *)
Fixpoint first_read (reads : list read_result) : option (read_result * list read_result) :=
  match reads with
  | [] => None
  | RIntr :: reads' => first_read reads'
  | r :: reads' => Some (r, reads')
  end.

(** [read] fills the reserved memory behind the vector's end; [resize] then
    appends zeros over it. *)
Definition try_fill_buffer (fuel : nat) (now : Z) (reads : list read_result)
  : M cstate ((conn_errc + bool) * list read_result) :=
  s ← get;
  assert_ (Z.of_nat (length (rbuf_ s.1)) <? MAX_MSG_SIZE) ;;
  match first_read reads with
  | None => λ _, NoFuel
  | Some (RAgain, reads') => mret (inr false, reads')
  | Some (REof, reads') => on_conn (set_state End_) ;; mret (inr false, reads')
  | Some (RData bytes, reads') =>
      on_conn (λ c, set_rbuf (rbuf_ c ++ replicate (length bytes) x00) c) ;;
      process_requests fuel now ;;
      mret (inr true, reads')
  | Some (_, reads') => mret (inl io_error, reads')
  end.

Fixpoint handle_request (fuel : nat) (now : Z) (reads : list read_result)
  : M cstate (conn_errc + unit) :=
  match fuel with
  | O => λ _, NoFuel
  | S fuel' =>
      r ← try_fill_buffer fuel now reads;
      match r with
      | (inl e, _) => mret (inl e)
      | (inr false, _) => mret (inr tt)
      | (inr true, reads') => handle_request fuel' now reads'
      end
  end.

(** The loop of [try_flush_buffer], over the answers of [write]: the result, the
    bytes that were accepted and the answers that are left. *)
Fixpoint try_flush_buffer (writes : list write_result) (out : list byte)
  : M cstate ((conn_errc + bool) * list byte * list write_result) := λ s,
  let c := s.1 in
  if (wbuf_sent_ c <? length (wbuf_ c))%nat then
    let remain := drop (wbuf_sent_ c) (wbuf_ c) in
    match writes with
    | [] => NoFuel
    | WIntr :: writes' => try_flush_buffer writes' out s
    | WAgain :: writes' => Done (inr false, out, writes') s
    | WFail :: writes' => Done (inl io_error, out, writes') s
    | WSent n :: writes' =>
        try_flush_buffer writes' (out ++ take n remain)
          (set_wbuf (wbuf_ c) (wbuf_sent_ c + n) c, s.2)
    end
  else if (wbuf_sent_ c =? length (wbuf_ c))%nat then
    Done (inr false, out, writes) (set_wbuf [] 0 (set_state Request c), s.2)
  else Done (inr true, out, writes) s.

(** [handle_response]: [try_flush_buffer] until it gives [false] or an error. *)
Fixpoint handle_response (fuel : nat) (writes : list write_result) (out : list byte)
  : M cstate ((conn_errc + unit) * list byte) :=
  match fuel with
  | O => λ _, NoFuel
  | S fuel' =>
      r ← try_flush_buffer writes out;
      match r with
      | (inl e, out, _) => mret (inl e, out)
      | (inr false, out, _) => mret (inr tt, out)
      | (inr true, out, writes') => handle_response fuel' writes' out
      end
  end.
End Connection.

(** ** The text protocol *)

(** A word that a client can send: not empty, no white space, no NUL. *)
Definition word_ok (w : string) : Prop :=
  w ≠ ""%string ∧ Forall (λ b, isspace b = false ∧ byte_val b ≠ 0) (bytes_of_string w).

(** The words of a request, separated by blanks, with a newline at the end. *)
Fixpoint join_words (args : list string) : list byte :=
  match args with
  | [] => [x0a]
  | [w] => bytes_of_string w ++ [x0a]
  | w :: rest => bytes_of_string w ++ x20 :: join_words rest
  end.

Lemma bytes_of_string_nonempty w : w ≠ ""%string → bytes_of_string w ≠ [].
Proof. by destruct w. Qed.

Lemma split_words_word (l rest cur : list byte) b :
  Forall (λ b, isspace b = false ∧ byte_val b ≠ 0) l → isspace b = true →
  rev cur ++ l ≠ [] →
  split_words (l ++ b :: rest) cur = (rev cur ++ l) :: split_words rest [].
Proof.
  revert cur. induction l as [|a l IH]; intros cur Hl Hb Hne; cbn.
  - rewrite Hb, app_nil_r in *. destruct cur; [done|]. done.
  - apply Forall_cons in Hl as [[Ha _] Hl]. rewrite Ha. rewrite IH; [|done|done|].
    + cbn. by rewrite <- app_assoc.
    + cbn. destruct (rev cur); done.
Qed.

Lemma c_string_word (l rest : list byte) :
  Forall (λ b, isspace b = false ∧ byte_val b ≠ 0) l → c_string (l ++ rest) = l ++ c_string rest.
Proof.
  induction 1 as [|b l [_ Hb] Hl IH]; cbn; [done|]. rewrite (proj2 (Z.eqb_neq _ _)) by done.
  by rewrite IH.
Qed.

Lemma c_string_join args :
  Forall word_ok args → c_string (join_words args) = join_words args.
Proof.
  induction 1 as [|w args [_ Hw] Hargs IH]; [done|]. destruct args as [|w' args].
  - cbn [join_words]. by rewrite c_string_word.
  - change (join_words (w :: w' :: args)) with (bytes_of_string w ++ x20 :: join_words (w' :: args)).
    rewrite c_string_word by done. f_equal. cbn [c_string].
    change (byte_val x20 =? 0) with false. cbn iota. by rewrite IH.
Qed.

Lemma words_join args : Forall word_ok args → istream_words (join_words args) = args.
Proof.
  unfold istream_words. induction 1 as [|w args [Hne Hw] Hargs IH]; [done|].
  destruct args as [|w' args].
  - cbn [join_words]. rewrite split_words_word; [|done|done|by apply bytes_of_string_nonempty].
    cbn [rev app split_words map]. by rewrite string_of_bytes_of_string.
  - change (join_words (w :: w' :: args)) with (bytes_of_string w ++ x20 :: join_words (w' :: args)).
    rewrite split_words_word; [|done|done|by apply bytes_of_string_nonempty].
    cbn [map rev app]. rewrite IH. by rewrite string_of_bytes_of_string.
Qed.

(** ** The framed protocol *)
Section Framed.
Context {LP : LockPolicy} {T : Type} `{OrderedMap T Z}.
Context (stod : list byte → sto_error + (Z * nat)) (isnan : Z → bool).
Implicit Types s : Conn * EntryManager T.

Lemma try_process_value now s r s' :
  try_process_request stod isnan now s = Done r s' → ∃ b, r = inr b.
Proof.
  unfold try_process_request. munfold. case_match; [by intros [= <- _]; eauto|].
  case_match; try done. destruct a as [e|cmd]; [by intros [= <- _]; eauto|].
  unfold on_em, zoom. destruct (process_command _ _ _ _ _ _); try done. by intros [= <- _]; eauto.
Qed.

Lemma process_requests_never fuel now : ∀ s r s',
  process_requests stod isnan fuel now s ≠ Done r s'.
Proof.
  induction fuel as [|fuel IH]; intros s r s'; [done|]. cbn. unfold mbind, M_bind.
  destruct (try_process_request stod isnan now s) as [r1 s1| | | | |] eqn:E; try done.
  destruct (try_process_value _ _ _ _ E) as [b ->]. apply IH.
Qed.

Lemma parse_encoded cmd rest :
  encodable cmd → RequestParser.parse (encode_request cmd ++ rest) tt = Done (inr cmd) tt.
Proof.
  intros He. destruct (parse_spec (encode_request cmd ++ rest)) as (r & Hr & Hc & _).
  rewrite Hr. f_equal. apply Hc. split; [done|by exists rest].
Qed.

(** Each string of a frame takes at least five bytes of it but counts for one. *)
Lemma frame_longer cmd :
  cmd ≠ [] → (4 + length cmd < length (encode_request cmd))%nat.
Proof.
  intros Hne. unfold encode_request. rewrite length_app, length_be_bytes.
  assert (∀ c, (4 * length c ≤ length (encode_payload c))%nat) as Hlen.
  { induction c as [|w c IH]; [done|]. rewrite encode_payload_cons, length_app, length_encode_string.
    cbn. lia. }
  specialize (Hlen cmd). destruct cmd; [done|]. cbn in *. lia.
Qed.

Lemma try_process_encoded now c em cmd rest response em' :
  encodable cmd → rbuf_ c = encode_request cmd ++ rest → cmd ≠ [] →
  process_command stod isnan cmd now [] em = Done response em' →
  ∃ b c', try_process_request stod isnan now (c, em) = Done (inr b) (c', em') ∧
    rbuf_ c' = drop (4 + length cmd) (rbuf_ c) ∧
    wbuf_ c' = append_data 4 [] (wrapu 32 (Z.of_nat (length response))) ++ response ∧
    wbuf_sent_ c' = 0%nat ∧ state_ c' = Response.
Proof.
  intros He Hbuf Hne Hrun. pose proof (frame_longer cmd Hne) as Hlong.
  assert (4 + length cmd < length (rbuf_ c))%nat as Hlt by (rewrite Hbuf, length_app; lia).
  unfold try_process_request. munfold. cbn [fst].
  rewrite (proj2 (Z.ltb_ge _ _)) by lia. rewrite Hbuf, parse_encoded by done.
  unfold on_em, zoom. cbn [snd]. rewrite Hrun. unfold on_conn, modify.
  cbn [fst snd set_wbuf set_state set_rbuf rbuf_ socket_ idle_start_ wbuf_ wbuf_sent_ state_].
  rewrite Hbuf in Hlt |- *. rewrite (proj2 (Nat.ltb_lt _ _)) by done.
  by eexists _, _.
Qed.

(** The answers of [write] never claim more bytes than were offered. *)
Fixpoint honest (writes : list write_result) (offered : nat) : Prop :=
  match writes with
  | [] => True
  | WSent n :: writes' => (n ≤ offered)%nat ∧ honest writes' (offered - n)
  | _ :: writes' => honest writes' offered
  end.

Lemma flush_spec writes : ∀ c (em : EntryManager T) out r out' writes' c' em',
  honest writes (length (wbuf_ c) - wbuf_sent_ c) → (wbuf_sent_ c ≤ length (wbuf_ c))%nat →
  try_flush_buffer writes out (c, em) = Done (r, out', writes') (c', em') →
  out' ++ drop (wbuf_sent_ c') (wbuf_ c') = out ++ drop (wbuf_sent_ c) (wbuf_ c) ∧ em' = em ∧
  r ≠ inr true ∧
  (state_ c' = Request ∧ wbuf_ c' = [] ∧ wbuf_sent_ c' = 0%nat ∨ state_ c' = state_ c).
Proof.
  induction writes as [|w writes IH]; intros c em out r out' writes' c' em' Hh Hle;
    cbn [try_flush_buffer fst snd].
  - destruct (Nat.ltb_spec (wbuf_sent_ c) (length (wbuf_ c))) as [|Hge]; [done|].
    rewrite (proj2 (Nat.eqb_eq _ _)) by lia. intros [= <- <- <- <- <-].
    cbn. rewrite (drop_ge (wbuf_ c)) by lia. split_and!; [done|done|done|by left].
  - destruct (Nat.ltb_spec (wbuf_sent_ c) (length (wbuf_ c))) as [Hlt|Hge]; cycle 1.
    { rewrite (proj2 (Nat.eqb_eq _ _)) by lia. intros [= <- <- <- <- <-].
      cbn. rewrite (drop_ge (wbuf_ c)) by lia. split_and!; [done|done|done|by left]. }
    destruct w as [n| | |].
    + destruct Hh as [Hn Hh]. intros Hrun. apply IH in Hrun; cbn in *.
      * destruct Hrun as (-> & -> & Hr & Hst). split_and!; [|done|done|done].
        rewrite <- app_assoc. f_equal. rewrite <- (take_drop n (drop (wbuf_sent_ c) (wbuf_ c))) at 2.
        by rewrite drop_drop.
      * by replace (length (wbuf_ c) - (wbuf_sent_ c + n))%nat
          with (length (wbuf_ c) - wbuf_sent_ c - n)%nat by lia.
      * lia.
    + intros Hrun. by apply IH in Hrun.
    + intros [= <- <- <- <- <-]. split_and!; [done|done|done|by right].
    + intros [= <- <- <- <- <-]. split_and!; [done|done|done|by right].
Qed.

(** ** Properties *)

(** The server decodes the text protocol.  A request of words without white
    space or NUL, separated by blanks and ended by a newline, is processed as the
    command of exactly those words, and the response is what is written. *)
Theorem process_io_decodes now args c em :
  Forall word_ok args →
  process_io stod isnan now (RData (join_words args)) (c, em)
  = match process_command stod isnan args now [] em with
    | Done response em' => Done (inr tt, Some response) (c, em')
    | Throw e em' => Throw e (c, em')
    | Stuck => Stuck
    | Undef => Undef
    | AssertFail => AssertFail
    | NoFuel => NoFuel
    end.
Proof.
  intros Hargs. unfold process_io. rewrite c_string_join, words_join by done.
  unfold on_em, zoom. munfold. cbn [snd fst]. by destruct (process_command _ _ _ _ _ _).
Qed.

(** The framed protocol cannot receive.  Once [read] delivers bytes,
    [try_fill_buffer] never returns, for any number of turns of its loop, because
    the loop tests whether the result holds a value; and what it processes does
    not depend on the bytes but on their number only, because [resize] overwrites
    them with zeros. *)
Theorem fill_buffer_never_returns now bytes bytes' reads s :
  (∀ fuel r s', try_fill_buffer stod isnan fuel now (RData bytes :: reads) s ≠ Done r s') ∧
  (length bytes = length bytes' → ∀ fuel,
     try_fill_buffer stod isnan fuel now (RData bytes :: reads) s
     = try_fill_buffer stod isnan fuel now (RData bytes' :: reads) s).
Proof.
  split.
  - intros fuel r s'. unfold try_fill_buffer. cbn [first_read]. munfold. unfold assert_.
    destruct (_ <? _); [|done]. unfold on_conn, modify.
    destruct (process_requests stod isnan fuel now _) as [u s1| | | | |] eqn:E; try done.
    by apply process_requests_never in E.
  - intros Hlen fuel. unfold try_fill_buffer. cbn [first_read]. by rewrite Hlen.
Qed.

(** [try_process_request] on a buffer that starts with a whole frame of a
    command queues the length-prefixed response, but takes only four bytes plus
    the number of strings off the buffer, which is less than the frame: the next
    request is read from the middle of this one. *)
Theorem framed_request_desyncs now c em cmd rest response em' :
  encodable cmd → cmd ≠ [] → rbuf_ c = encode_request cmd ++ rest →
  process_command stod isnan cmd now [] em = Done response em' →
  ∃ b c', try_process_request stod isnan now (c, em) = Done (inr b) (c', em') ∧
    wbuf_ c' = append_data 4 [] (wrapu 32 (Z.of_nat (length response))) ++ response ∧
    state_ c' = Response ∧
    rbuf_ c' = drop (4 + length cmd) (rbuf_ c) ∧ (length rest < length (rbuf_ c'))%nat.
Proof.
  intros He Hne Hbuf Hrun.
  destruct (try_process_encoded now c em cmd rest response em' He Hbuf Hne Hrun)
    as (b & c' & Ht & Hr & Hw & _ & Hst).
  exists b, c'. split_and!; [done|done|done|done|].
  rewrite Hr, Hbuf, length_drop, length_app. pose proof (frame_longer cmd Hne). lia.
Qed.

(** Flushing loses, repeats and reorders nothing.  Whatever [write] accepts,
    in whatever pieces and with whatever interruptions, the bytes it accepted
    followed by the bytes still to be sent are the bytes that were to be sent;
    [true] is never returned, and a finished response resets the buffer and the
    state. *)
Theorem flush_sends_in_order writes c (em : EntryManager T) r out writes' c' em' :
  honest writes (length (wbuf_ c) - wbuf_sent_ c) → (wbuf_sent_ c ≤ length (wbuf_ c))%nat →
  try_flush_buffer writes [] (c, em) = Done (r, out, writes') (c', em') →
  out ++ drop (wbuf_sent_ c') (wbuf_ c') = drop (wbuf_sent_ c) (wbuf_ c) ∧ r ≠ inr true ∧
  (state_ c' = Request ∧ wbuf_ c' = [] ∧ wbuf_sent_ c' = 0%nat ∨ state_ c' = state_ c).
Proof.
  intros Hh Hle Hrun. destruct (flush_spec _ _ _ _ _ _ _ _ _ Hh Hle Hrun) as (Ho & _ & Hr & Hst).
  done.
Qed.
End Framed.

(** ** Witnesses *)
Section Witnesses.
#[local] Existing Instance std_shared_mutex.

Abbreviation avl_em := (EntryManager.new : EntryManager (AVLTree string Z)).

Lemma process_io_decodes_witness :
  ∃ em', process_io (T := AVLTree string Z) whole_stod no_nan 0
    (RData (join_words ["get"; "a"]%string)) (new_conn 5 0, avl_em)
  = Done (inr tt, Some (serialize_nil [])) (new_conn 5 0, em').
Proof.
  eexists. rewrite process_io_decodes; [reflexivity|].
  repeat constructor; try done; by vm_compute.
Defined.

Lemma fill_buffer_never_returns_witness :
  try_fill_buffer (T := AVLTree string Z) whole_stod no_nan 9 0 [RData (encode_request ["get"%string])]
    (new_conn 5 0, avl_em)
  = try_fill_buffer whole_stod no_nan 9 0 [RData (replicate 11 x00)] (new_conn 5 0, avl_em).
Proof.
  by apply (proj2 (fill_buffer_never_returns whole_stod no_nan 0 (encode_request ["get"%string])
    (replicate 11 x00) [] (new_conn 5 0, avl_em))).
Defined.

Lemma framed_request_desyncs_witness :
  ∃ b c' em', try_process_request (T := AVLTree string Z) whole_stod no_nan 0
      (set_rbuf (encode_request ["pttl"; "a"]%string) (new_conn 5 0), avl_em)
    = Done (inr b) (c', em') ∧ (0 < length (rbuf_ c'))%nat.
Proof.
  destruct (framed_request_desyncs whole_stod no_nan 0
    (set_rbuf (encode_request ["pttl"; "a"]%string) (new_conn 5 0)) avl_em ["pttl"; "a"]%string []
    (serialize_integer [] (-2)) avl_em) as (b & c' & Hrun & _ & _ & _ & Hlen).
  - by vm_compute.
  - done.
  - by vm_compute.
  - by vm_compute.
  - exists b, c', avl_em. exact (conj Hrun Hlen).
Defined.

Lemma flush_sends_in_order_witness :
  ∃ c', try_flush_buffer [WSent 1; WIntr; WSent 2] []
      (set_wbuf [x01; x02; x03] 0 (new_conn 5 0), avl_em)
    = Done (inr false, [x01; x02; x03], []) (c', avl_em) ∧ wbuf_ c' = [].
Proof.
  eexists. split; [reflexivity|].
  destruct (flush_sends_in_order [WSent 1; WIntr; WSent 2]
    (set_wbuf [x01; x02; x03] 0 (new_conn 5 0)) avl_em (inr false) [x01; x02; x03] []
    (new_conn 5 0) avl_em) as (_ & _ & [(_ & Hw & _)|_]); [by vm_compute; lia|by vm_compute; lia|done|done|done].
Defined.
End Witnesses.
