(* ===== verification/Server.v ===== *)
(** The event loop (server.hpp, socket.hpp): accepting, serving and closing
    connections in one thread, with the file descriptors the process owns.

    The operating system's answers are arguments: which descriptors [poll] reports,
    what [read] and [accept] return.  [open_fds] are the descriptors of the process
    that are open, [stray_closes] the calls of [close] on one that is not. *)

From S2P Require Import Prelude Bytes CxxLib HashTable HashMapSpec Heap AVL.
From S2P Require Import ZSet EntryManager ResponseSerializer CommandProcessor Connection.

Record Server (T : Type) := mkServer {
  listen_socket_ : Z;
  connections_ : gmap Z Conn;
  idle_list_ : list Z;
  entry_manager_ : EntryManager T;
  should_stop_ : bool;
  open_fds : gset Z;
  stray_closes : list Z;
}.
Arguments mkServer {T}. Arguments listen_socket_ {T}. Arguments connections_ {T}.
Arguments idle_list_ {T}. Arguments entry_manager_ {T}. Arguments should_stop_ {T}.
Arguments open_fds {T}. Arguments stray_closes {T}.

(** One answer of [accept]: a descriptor, with whether [fcntl] and the allocation of
    the connection succeed, or a failure. *)
Inductive accept_result : Type :=
| Accepted (fd : Z) (nonblocking allocated : bool)
| AcceptFailed.

(** What one turn of [run] sees: whether the listening socket is readable, the
    answers of [accept], and the ready connections with what [read] gives them. *)
Record round := mkRound {
  listen_ready : bool;
  accepts : list accept_result;
  ready : list (Z * read_result);
  clock : Z;
}.

Section Server.
Context {LP : LockPolicy} {T : Type} `{OrderedMap T Z}.
Context (stod : list byte → sto_error + (Z * nat)) (isnan : Z → bool).
Abbreviation srv := (Server T).

Definition set_connections (cs : gmap Z Conn) (s : srv) : srv :=
  mkServer (listen_socket_ s) cs (idle_list_ s) (entry_manager_ s) (should_stop_ s)
    (open_fds s) (stray_closes s).
Definition set_em (em : EntryManager T) (s : srv) : srv :=
  mkServer (listen_socket_ s) (connections_ s) (idle_list_ s) em (should_stop_ s)
    (open_fds s) (stray_closes s).

(** [close(fd)]. *)
Definition close_fd (fd : Z) (s : srv) : srv :=
  if decide (fd ∈ open_fds s) then
    mkServer (listen_socket_ s) (connections_ s) (idle_list_ s) (entry_manager_ s)
      (should_stop_ s) (open_fds s ∖ {[fd]}) (stray_closes s)
  else
    mkServer (listen_socket_ s) (connections_ s) (idle_list_ s) (entry_manager_ s)
      (should_stop_ s) (open_fds s) (fd :: stray_closes s).

(** The kernel hands out a descriptor. *)
Definition open_fd (fd : Z) (s : srv) : srv :=
  mkServer (listen_socket_ s) (connections_ s) (idle_list_ s) (entry_manager_ s)
    (should_stop_ s) (open_fds s ∪ {[fd]}) (stray_closes s).

(** [~Socket] of the socket a connection owns. *)
Definition destroy_conn (c : Conn) (s : srv) : srv :=
  if decide (socket_ c = -1) then s else close_fd (socket_ c) s.

(** [connections_.emplace]: the connection is destroyed if the key is taken. *)
Definition add_connection (c : Conn) (s : srv) : srv :=
  match connections_ s !! socket_ c with
  | Some _ => destroy_conn c s
  | None => set_connections (<[socket_ c := c]> (connections_ s)) s
  end.

Definition remove_connection (fd : Z) (s : srv) : srv :=
  match connections_ s !! fd with
  | Some c => destroy_conn c (set_connections (delete fd (connections_ s)) s)
  | None => s
  end.

(** The accept loop, until [accept] fails. *)
Fixpoint accept_loop (now : Z) (answers : list accept_result) (s : srv) : srv :=
  match answers with
  | [] | AcceptFailed :: _ => s
  | Accepted fd nonblocking allocated :: rest =>
      let s := open_fd fd s in
      let s :=
        if negb nonblocking then close_fd fd s
        else if allocated then add_connection (new_conn fd now) s
        else close_fd fd (close_fd fd s) in
      accept_loop now rest s
  end.

Definition accept_new_connections (now : Z) (listen_ready : bool) (answers : list accept_result)
    (s : srv) : srv :=
  if listen_ready then accept_loop now answers s else s.

(** One ready connection: an error result or an exception closes it.  The value is
    what was handed to [write]. *)
Definition process_connection (now fd : Z) (r : read_result) : M srv (list (Z * list byte)) := λ s,
  match connections_ s !! fd with
  | None => Done [] s
  | Some c =>
      match process_io stod isnan now r (c, entry_manager_ s) with
      | Done (res, sent) (c', em') =>
          let s := set_em em' (set_connections (<[fd := c']> (connections_ s)) s) in
          let written := match sent with Some bytes => [(socket_ c', bytes)] | None => [] end in
          match res with
          | inr _ => Done written s
          | inl _ => Done written (remove_connection (socket_ c') s)
          end
      | Throw _ (c', em') =>
          let s := set_em em' (set_connections (<[fd := c']> (connections_ s)) s) in
          Done [] (remove_connection (socket_ c') s)
      | Stuck => Stuck
      | Undef => Undef
      | AssertFail => AssertFail
      | NoFuel => NoFuel
      end
  end.

Fixpoint process_active_connections (now : Z) (ready : list (Z * read_result))
  : M srv (list (Z * list byte)) :=
  match ready with
  | [] => mret []
  | (fd, r) :: rest =>
      written ← process_connection now fd r;
      more ← process_active_connections now rest;
      mret (written ++ more)
  end.

Definition prepare_poll_args (s : srv) : list (Z * bool) :=
  (listen_socket_ s, true)
  :: ((λ p, (p.1, match state_ p.2 with Request => true | _ => false end))
      <$> map_to_list (connections_ s)).

(** Milliseconds until the first idle connection times out, a day at most; none
    where the list's head points to a connection that is gone. *)
Definition calculate_next_timeout (now : Z) (s : srv) : option Z :=
  match idle_list_ s with
  | fd :: _ =>
      match connections_ s !! fd with
      | Some c => Some (Z.min 86400000 (idle_start_ c + IDLE_TIMEOUT - now))
      | None => None
      end
  | [] => Some 86400000
  end.

(** The loop of [process_timers]: the list is not shortened by
    [remove_connection], so its head is read again after its connection is gone. *)
Fixpoint process_timers (fuel : nat) (now : Z) : M srv unit := λ s,
  match fuel with
  | O => NoFuel
  | S fuel' =>
      match idle_list_ s with
      | [] => Done tt s
      | fd :: _ =>
          match connections_ s !! fd with
          | None => Undef
          | Some c =>
              if now - idle_start_ c <? IDLE_TIMEOUT then Done tt s
              else process_timers fuel' now (remove_connection fd s)
          end
      end
  end.

(** One turn of [run] after [poll] returned a positive count. *)
Definition run_round (r : round) : M srv (list (Z * list byte)) :=
  modify (accept_new_connections (clock r) (listen_ready r) (accepts r)) ;;
  process_active_connections (clock r) (ready r).

Fixpoint run (rounds : list round) : M srv (list (Z * list byte)) :=
  match rounds with
  | [] => mret []
  | r :: rest =>
      s ← get;
      if should_stop_ s then mret []
      else
        written ← run_round r;
        more ← run rest;
        mret (written ++ more)
  end.

Definition stop (s : srv) : srv :=
  let s := close_fd (listen_socket_ s) s in
  mkServer (listen_socket_ s) (connections_ s) (idle_list_ s) (entry_manager_ s) true
    (open_fds s) (stray_closes s).
End Server.

(** The server after [initialize]. *)
Definition new_server {T} (listen : Z) : Server T :=
  mkServer listen ∅ [] EntryManager.new false {[listen]} [].

(** ** Invariant: the open descriptors are the listening one and one for each
    connection. *)
Record server_ok {T} (s : Server T) : Prop := {
  sv_fds : open_fds s = {[listen_socket_ s]} ∪ dom (connections_ s);
  sv_listen : listen_socket_ s ∉ dom (connections_ s);
  sv_sockets : ∀ fd c, connections_ s !! fd = Some c → socket_ c = fd ∧ fd ≠ -1;
}.

(** The allocations of connections that fail. *)
Fixpoint failed_allocs (answers : list accept_result) : nat :=
  match answers with
  | [] | AcceptFailed :: _ => O
  | Accepted _ nonblocking allocated :: rest =>
      if nonblocking && negb allocated then S (failed_allocs rest) else failed_allocs rest
  end.

(** Each accepted descriptor is one that was not open, as the kernel promises. *)
Fixpoint fresh_accepts (answers : list accept_result) (used : gset Z) : Prop :=
  match answers with
  | [] | AcceptFailed :: _ => True
  | Accepted fd nb al :: rest =>
      fd ∉ used ∧ fd ≠ -1 ∧ fresh_accepts rest (if nb && al then used ∪ {[fd]} else used)
  end.

(** ** Lemmas *)
Section Lemmas.
Context {LP : LockPolicy} {T : Type} `{OrderedMap T Z}.
Implicit Types s : Server T.

Lemma close_open s fd :
  fd ∈ open_fds s → close_fd fd s
  = mkServer (listen_socket_ s) (connections_ s) (idle_list_ s) (entry_manager_ s)
      (should_stop_ s) (open_fds s ∖ {[fd]}) (stray_closes s).
Proof. intros Hin. unfold close_fd. by rewrite decide_True. Qed.

Lemma close_closed s fd :
  fd ∉ open_fds s → close_fd fd s
  = mkServer (listen_socket_ s) (connections_ s) (idle_list_ s) (entry_manager_ s)
      (should_stop_ s) (open_fds s) (fd :: stray_closes s).
Proof. intros Hin. unfold close_fd. by rewrite decide_False. Qed.

Lemma fds_connected s fd c :
  server_ok s → connections_ s !! fd = Some c →
  socket_ c = fd ∧ fd ≠ -1 ∧ fd ∈ open_fds s ∧ fd ≠ listen_socket_ s.
Proof.
  intros Hok Hc. destruct (sv_sockets s Hok fd c Hc) as [Hs Hn].
  assert (fd ∈ dom (connections_ s)) as Hd by (apply elem_of_dom; eauto).
  pose proof (sv_listen s Hok). rewrite (sv_fds s Hok). split_and!; [done|done|set_solver|].
  by intros ->.
Qed.

(** The descriptors do not depend on the entry manager. *)
Lemma server_ok_em em s : server_ok s → server_ok (set_em em s).
Proof. by intros []. Qed.

Lemma remove_connection_spec fd c s :
  server_ok s → connections_ s !! fd = Some c →
  server_ok (remove_connection fd s) ∧
  remove_connection fd s
  = mkServer (listen_socket_ s) (delete fd (connections_ s)) (idle_list_ s) (entry_manager_ s)
      (should_stop_ s) (open_fds s ∖ {[fd]}) (stray_closes s).
Proof.
  intros Hok Hc. destruct (fds_connected s fd c Hok Hc) as (Hs & Hn & Ho & Hl).
  assert (remove_connection fd s
    = mkServer (listen_socket_ s) (delete fd (connections_ s)) (idle_list_ s) (entry_manager_ s)
      (should_stop_ s) (open_fds s ∖ {[fd]}) (stray_closes s)) as ->.
  { unfold remove_connection, destroy_conn. rewrite Hc, Hs, decide_False by done.
    by rewrite close_open. }
  split; [|done]. destruct Hok as [Hf Hli Hso]. split; cbn.
  - rewrite Hf, dom_delete_L. set_solver.
  - rewrite dom_delete_L. set_solver.
  - intros fd' c' [_ Hc']%lookup_delete_Some. eauto.
Qed.

Lemma add_connection_spec fd now s :
  server_ok s → fd ∉ open_fds s → fd ≠ -1 →
  let s' := add_connection (new_conn fd now) (open_fd fd s) in
  server_ok s' ∧ stray_closes s' = stray_closes s ∧ open_fds s' = open_fds s ∪ {[fd]} ∧
  connections_ s' = <[fd := new_conn fd now]> (connections_ s) ∧ connections_ s !! fd = None ∧
  entry_manager_ s' = entry_manager_ s ∧ should_stop_ s' = should_stop_ s.
Proof.
  intros Hok Hfd Hn. assert (connections_ s !! fd = None) as Hnone.
  { apply not_elem_of_dom. rewrite (sv_fds s Hok) in Hfd. set_solver. }
  unfold add_connection. cbn. rewrite Hnone.
  split_and!; [|done..]. destruct Hok as [Hf Hl Hs]. split; cbn.
  - rewrite Hf, dom_insert_L. set_solver.
  - rewrite dom_insert_L. rewrite Hf in Hfd. set_solver.
  - intros fd' c'. destruct (decide (fd' = fd)) as [->|Hne].
    + rewrite lookup_insert_eq. by intros [= <-].
    + rewrite lookup_insert_ne by done. eauto.
Qed.

(** One more descriptor, closed again. *)
Lemma open_close fd s :
  fd ∉ open_fds s → close_fd fd (open_fd fd s) = s.
Proof.
  intros Hfd. rewrite close_open by (cbn; set_solver). destruct s as [l cs il em st fds strays].
  cbn in *. f_equal. set_solver.
Qed.

Lemma accept_loop_spec now answers : ∀ s,
  server_ok s → fresh_accepts answers (open_fds s) →
  let s' := accept_loop now answers s in
  server_ok s' ∧ length (stray_closes s') = (failed_allocs answers + length (stray_closes s))%nat ∧
  connections_ s ⊆ connections_ s' ∧ entry_manager_ s' = entry_manager_ s ∧
  should_stop_ s' = should_stop_ s.
Proof.
  induction answers as [|a answers IH]; intros s Hok Hfr; [done|].
  destruct a as [fd nb al|]; [|done]. destruct Hfr as (Hfd & Hn & Hfr). cbn.
  destruct nb; cbn; [destruct al; cbn|].
  - destruct (add_connection_spec fd now s Hok Hfd Hn) as (Hok' & Hst & Ho & Hc & Hnone & He & Hsh).
    destruct (IH _ Hok') as (H1 & H2 & H3 & H4 & H5); [by rewrite Ho|].
    split_and!; [done|by rewrite H2, Hst| |by rewrite H4|by rewrite H5].
    etrans; [|exact H3]. rewrite Hc. by apply insert_subseteq.
  - rewrite open_close by done. rewrite close_closed by done.
    edestruct (IH (mkServer (listen_socket_ s) (connections_ s) (idle_list_ s) (entry_manager_ s)
      (should_stop_ s) (open_fds s) (fd :: stray_closes s))) as (H1 & H2 & H3 & H4 & H5).
    + by destruct Hok.
    + done.
    + split_and!; [done| |done..]. rewrite H2. cbn. lia.
  - rewrite open_close by done. by apply IH.
Qed.

Context (stod : list byte → sto_error + (Z * nat)) (isnan : Z → bool).

(** [process_io] leaves the connection as it was. *)
Lemma process_io_conn now r c em :
  match process_io stod isnan now r (c, em) with
  | Done _ s' | Throw _ s' => s'.1 = c
  | _ => True
  end.
Proof.
  unfold process_io, on_em, zoom. destruct r; try done. munfold. cbn [snd].
  by destruct (process_command _ _ _ _ _ _).
Qed.

(** What a ready connection's turn does to the descriptors. *)
Lemma process_connection_spec now fd r s w s' :
  server_ok s → process_connection stod isnan now fd r s = Done w s' →
  server_ok s' ∧ stray_closes s' = stray_closes s ∧ should_stop_ s' = should_stop_ s ∧
  (connections_ s' = connections_ s ∨
   connections_ s' = delete fd (connections_ s) ∧ open_fds s' = open_fds s ∖ {[fd]} ∧
   is_Some (connections_ s !! fd)).
Proof.
  intros Hok. unfold process_connection.
  destruct (connections_ s !! fd) as [c|] eqn:Hc; [|intros [= <- <-]; split_and!; auto].
  pose proof (process_io_conn now r c (entry_manager_ s)) as Hsame.
  destruct (sv_sockets s Hok fd c Hc) as [Hfd _].
  assert (∀ em, server_ok (set_em em (set_connections (<[fd := c]> (connections_ s)) s))) as Hok'.
  { intros em. rewrite insert_id by done. by destruct Hok. }
  assert (∀ em, let s1 := set_em em (set_connections (<[fd := c]> (connections_ s)) s) in
    connections_ s1 !! fd = Some c) as Hc' by (intros em; cbn; apply lookup_insert_eq).
  assert (∀ em, let s1 := remove_connection (socket_ c)
      (set_em em (set_connections (<[fd := c]> (connections_ s)) s)) in
    server_ok s1 ∧ stray_closes s1 = stray_closes s ∧ should_stop_ s1 = should_stop_ s ∧
    (connections_ s1 = connections_ s ∨
     connections_ s1 = delete fd (connections_ s) ∧ open_fds s1 = open_fds s ∖ {[fd]} ∧
     is_Some (Some c))) as Hgone.
  { intros em. destruct (remove_connection_spec fd c _ (Hok' em) (Hc' em)) as [Hr Heq].
    cbn. rewrite Hfd, Heq in *. cbn. split_and!; [done..|].
    right. by rewrite insert_id by done. }
  destruct (process_io stod isnan now r (c, entry_manager_ s)) as
    [[res sent] [c' em']|e [c' em']| | | |]; try done; cbn in Hsame; subst c'.
  - destruct res; intros [= <- <-]; [apply Hgone|].
    split_and!; [apply Hok'|done|done|left; cbn; by rewrite insert_id].
  - intros [= <- <-]. apply Hgone.
Qed.

Lemma process_active_spec now rd : ∀ s w s',
  server_ok s → process_active_connections stod isnan now rd s = Done w s' →
  server_ok s' ∧ stray_closes s' = stray_closes s ∧ should_stop_ s' = should_stop_ s ∧
  connections_ s' ⊆ connections_ s ∧
  (∀ fd, is_Some (connections_ s !! fd) → fd ∉ rd.*1 → connections_ s' !! fd = connections_ s !! fd).
Proof.
  induction rd as [|[fd r] rd IH]; intros s w s' Hok; cbn; unfold mbind, M_bind.
  - by intros [= <- <-].
  - destruct (process_connection stod isnan now fd r s) as [w1 s1| | | | |] eqn:E; try done.
    destruct (process_connection_spec _ _ _ _ _ _ Hok E) as (Hok1 & Hst1 & Hsh1 & Hcs).
    destruct (process_active_connections stod isnan now rd s1) as [w2 s2| | | | |] eqn:E2; try done.
    intros [= <- <-]. destruct (IH _ _ _ Hok1 E2) as (Hok2 & Hst2 & Hsh2 & Hsub & Hkeep).
    split_and!; [done|by rewrite Hst2|by rewrite Hsh2| |].
    + etrans; [done|]. destruct Hcs as [->|(-> & _)]; [done|apply delete_subseteq].
    + intros fd' Hfd' [Hne Hnin]%not_elem_of_cons.
      assert (connections_ s1 !! fd' = connections_ s !! fd') as Heq.
      { destruct Hcs as [->|(-> & _)]; [done|]. by rewrite lookup_delete_ne. }
      rewrite <- Heq. apply Hkeep; [by rewrite Heq|done].
Qed.

(** The commands of the ready clients, one after the other, on one store. *)
Fixpoint run_commands (now : Z) (cmds : list (list string)) : M (EntryManager T) (list (list byte)) :=
  match cmds with
  | [] => mret []
  | args :: rest =>
      response ← process_command stod isnan args now [];
      more ← run_commands now rest;
      mret (response :: more)
  end.

Definition request_of (fd : Z) (args : list string) : Z * read_result :=
  (fd, RData (join_words args)).

(** The fresh descriptors of each turn of a run. *)
Fixpoint fresh_run (rounds : list round) s : Prop :=
  match rounds with
  | [] => True
  | r :: rest =>
      fresh_accepts (accepts r) (open_fds s) ∧
      ∀ w s', run_round stod isnan r s = Done w s' → fresh_run rest s'
  end.

Definition double_closes (rounds : list round) : nat :=
  sum_list ((λ r, if listen_ready r then failed_allocs (accepts r) else O) <$> rounds).

Lemma run_round_spec r s w s' :
  server_ok s → fresh_accepts (accepts r) (open_fds s) →
  run_round stod isnan r s = Done w s' →
  server_ok s' ∧ length (stray_closes s') = (double_closes [r] + length (stray_closes s))%nat.
Proof.
  intros Hok Hfr. unfold run_round, double_closes, accept_new_connections. munfold. cbn.
  destruct (listen_ready r); intros Hrun.
  - destruct (accept_loop_spec (clock r) (accepts r) s Hok Hfr) as (Hok1 & Hst & _).
    apply process_active_spec in Hrun as (Hok' & Hst' & _); [|done].
    split; [done|]. rewrite Hst', Hst. lia.
  - apply process_active_spec in Hrun as (Hok' & Hst' & _); [|done]. by rewrite Hst'.
Qed.

(** A turn whose first ready client sends a command that never returns. *)
Lemma active_stuck now fd c args rest s :
  connections_ s !! fd = Some c → Forall word_ok args →
  process_command stod isnan args now [] (entry_manager_ s) = Stuck →
  process_active_connections stod isnan now (request_of fd args :: rest) s = Stuck.
Proof.
  intros Hc Hw Hs. cbn. apply bind_Stuck. unfold process_connection. rewrite Hc.
  unfold process_io. rewrite c_string_join, words_join by done.
  unfold mbind at 1, M_bind at 1, on_em, zoom. cbn [snd]. by rewrite Hs.
Qed.

(** ** Properties *)

(** A turn of the loop is serial execution.  When every ready client is
    connected and has sent a request of words, [process_active_connections] runs
    the commands in the order of the poll array, one after the other, on the one
    store, and writes to each client the response of its own command; the
    connections and the descriptors stay as they were. *)
Theorem round_serializes now reqs s responses em' :
  Forall (λ '(fd, args), Forall word_ok args ∧
    ∃ c, connections_ s !! fd = Some c ∧ socket_ c = fd) reqs →
  run_commands now (reqs.*2) (entry_manager_ s) = Done responses em' →
  process_active_connections stod isnan now ((λ '(fd, args), request_of fd args) <$> reqs) s
  = Done (zip (reqs.*1) responses) (set_em em' s).
Proof.
  revert s responses. induction reqs as [|[fd args] reqs IH]; intros s responses Hall.
  - intros [= <- <-]. by destruct s.
  - apply Forall_cons in Hall as [(Hw & c & Hc & Hfd) Hall]. cbn -[process_command].
    unfold mbind at 1 2, M_bind at 1 2.
    destruct (process_command stod isnan args now [] (entry_manager_ s)) as [resp em1| | | | |] eqn:E; try done.
    destruct (run_commands now reqs.*2 em1) as [more em2| | | | |] eqn:E2; try done.
    intros [= <- <-].
    assert (process_connection stod isnan now fd (RData (join_words args)) s
      = Done [(fd, resp)] (set_em em1 s)) as Hone.
    { unfold process_connection. rewrite Hc. unfold process_io.
      rewrite c_string_join, words_join by done.
      unfold mbind at 1, M_bind at 1, on_em, zoom. cbn [snd fst]. rewrite E. cbn.
      rewrite insert_id by done. rewrite Hfd. by destruct s. }
    rewrite (bind_Done _ _ _ _ _ Hone).
    assert (run_commands now reqs.*2 (entry_manager_ (set_em em1 s)) = Done more em2) as E2' by done.
    assert (Forall (λ '(fd, args), Forall word_ok args ∧
      ∃ c, connections_ (set_em em1 s) !! fd = Some c ∧ socket_ c = fd) reqs) as Hall' by done.
    rewrite (bind_Done _ _ _ _ _ (IH (set_em em1 s) more Hall' E2')). done.
Qed.

(** C37: the server leaks and loses no descriptor.  However clients connect, send,
    close and fail, after any number of turns the open descriptors are the
    listening one and one per connection; the only calls of [close] on a
    descriptor that is not open are one for each connection whose allocation
    failed, which the socket's destructor and then the handler both close. *)
Theorem run_keeps_descriptors rounds s w s' :
  server_ok s → fresh_run rounds s → run stod isnan rounds s = Done w s' →
  server_ok s' ∧
  (should_stop_ s' = false →
   length (stray_closes s') = (double_closes rounds + length (stray_closes s))%nat).
Proof.
  revert s w. induction rounds as [|r rounds IH]; intros s w Hok Hfr; cbn [run]; unfold mbind, M_bind, get.
  - by intros [= <- <-].
  - destruct (should_stop_ s) eqn:Hstop.
    { intros [= <- <-]. split; [done|]. by rewrite Hstop. }
    destruct Hfr as [Hfr Hrest].
    destruct (run_round stod isnan r s) as [w1 s1| | | | |] eqn:E; try done.
    destruct (run stod isnan rounds s1) as [w2 s2| | | | |] eqn:E2; try done.
    intros [= <- <-]. destruct (run_round_spec r s w1 s1 Hok Hfr E) as [Hok1 Hst1].
    destruct (IH s1 w2 Hok1 (Hrest _ _ eq_refl) E2) as [Hok2 Hst2].
    split; [done|]. intros Hs2. rewrite (Hst2 Hs2), Hst1. unfold double_closes. cbn. lia.
Qed.

(** One client's failure is its own.  A ready client whose [read] gives an end
    of file or an error, an interrupted call and an empty socket included, is
    disconnected and its descriptor closed; the store and every other connection
    are as before, so that the other ready clients are served as if it had not
    been there. *)
Theorem failing_client_isolated now fd r c rest s :
  server_ok s → connections_ s !! fd = Some c → (∀ bytes, r ≠ RData bytes) →
  ∃ s', process_active_connections stod isnan now ((fd, r) :: rest) s
      = process_active_connections stod isnan now rest s' ∧
    server_ok s' ∧ entry_manager_ s' = entry_manager_ s ∧
    connections_ s' = delete fd (connections_ s) ∧ open_fds s' = open_fds s ∖ {[fd]} ∧
    stray_closes s' = stray_closes s.
Proof.
  intros Hok Hc Hr. destruct (remove_connection_spec fd c s Hok Hc) as [Hok' Heq].
  destruct (sv_sockets s Hok fd c Hc) as [Hfd _].
  exists (remove_connection fd s). split; [|by rewrite Heq in *].
  assert (set_em (entry_manager_ s) (set_connections (<[fd := c]> (connections_ s)) s) = s) as Hid.
  { rewrite insert_id by done. by destruct s. }
  assert (process_connection stod isnan now fd r s = Done [] (remove_connection fd s)) as Hone.
  { unfold process_connection. rewrite Hc. destruct r; [by edestruct Hr|..];
      cbn; by rewrite Hid, Hfd. }
  cbn [process_active_connections]. rewrite (bind_Done _ _ _ _ _ Hone).
  unfold mbind, M_bind. by destruct (process_active_connections stod isnan now rest _).
Qed.

(** One client can stop the server.  With [std::shared_mutex], a turn in which
    the first ready client sends a well-formed ZADD, on a key that is absent or
    holds a sorted set, never ends: no other client is served and the loop does not
    see [stop]. *)
Theorem zadd_stalls_server rounds rest s fd c fk name k member score d now :
  relock_allowed = false → should_stop_ s = false → connections_ s !! fd = Some c →
  plain (entry_manager_ s) fk → Z.of_nat (size fk) < 32 →
  Forall word_ok [name; k; score; member] →
  to_lower name = "zadd"%string → parse_double stod isnan score = Some d →
  match contents (entry_manager_ s) fk !! k with
  | None => True
  | Some (VZSet z) => zset_mutex_ z = []
  | _ => False
  end →
  run stod isnan (mkRound false [] (request_of fd [name; k; score; member] :: rest) now :: rounds) s
  = Stuck.
Proof.
  intros Hpol Hs Hc Hp Hlt Hw Hname Hd Hv. cbn [run]. rewrite bind_get, Hs.
  apply bind_Stuck. apply (active_stuck now fd c); [done|done|].
  by apply (zadd_stuck stod isnan _ fk name k member score d now).
Qed.
End Lemmas.

(** ** Witnesses *)
Section Witnesses.
#[local] Existing Instance std_shared_mutex.

(** A server on descriptor 3 with the clients 5 and 6. *)
Definition two_clients : Server (AVLTree string Z) :=
  accept_new_connections 0 true [Accepted 5 true true; Accepted 6 true true; AcceptFailed]
    (new_server 3).

Lemma two_clients_ok : server_ok two_clients.
Proof.
  apply (accept_loop_spec 0 [Accepted 5 true true; Accepted 6 true true; AcceptFailed]).
  - split; cbn; [set_solver|set_solver|]. intros fd c. by rewrite lookup_empty.
  - cbn. set_solver by lia.
Qed.

Lemma round_serializes_witness :
  ∃ em', process_active_connections (T := AVLTree string Z) whole_stod no_nan 0
      [request_of 5 ["exists"; "a"]%string; request_of 6 ["nonsense"]%string] two_clients
    = Done [(5, serialize_integer [] 0); (6, serialize_error [] ERR_UNKNOWN (line "unknown command"))]
        (set_em em' two_clients).
Proof.
  eexists. apply (round_serializes whole_stod no_nan 0
    [(5, ["exists"; "a"]); (6, ["nonsense"])]%string two_clients
    [serialize_integer [] 0; serialize_error [] ERR_UNKNOWN (line "unknown command")]).
  - constructor; [|constructor; [|constructor]].
    + split; [repeat constructor; try done; by vm_compute|]. by exists (new_conn 5 0).
    + split; [repeat constructor; try done; by vm_compute|]. by exists (new_conn 6 0).
  - vm_compute. reflexivity.
Defined.

Lemma run_keeps_descriptors_witness :
  ∃ w s', run (T := AVLTree string Z) whole_stod no_nan
      [mkRound true [Accepted 7 true false; Accepted 7 true true] [(5, REof)] 0] two_clients
    = Done w s' ∧ server_ok s' ∧ length (stray_closes s') = 1%nat.
Proof.
  set (rounds := [mkRound true [Accepted 7 true false; Accepted 7 true true] [(5, REof)] 0]).
  set (s1 := match run (T := AVLTree string Z) whole_stod no_nan rounds two_clients with
             | Done _ s => s | _ => two_clients end).
  assert (run (T := AVLTree string Z) whole_stod no_nan rounds two_clients = Done [] s1) as Hrun
    by (vm_compute; reflexivity).
  destruct (run_keeps_descriptors whole_stod no_nan rounds two_clients [] s1) as [Hok Hst].
  - apply two_clients_ok.
  - split; [|done]. split; [by apply (bool_decide_unpack _); vm_compute|]. split; [done|].
    split; [by apply (bool_decide_unpack _); vm_compute|]. done.
  - exact Hrun.
  - exists [], s1. split; [exact Hrun|]. split; [exact Hok|]. rewrite Hst; vm_compute; reflexivity.
Defined.

Lemma failing_client_isolated_witness :
  ∃ s', process_active_connections (T := AVLTree string Z) whole_stod no_nan 0
      [(5, RIntr); request_of 6 ["exists"; "a"]%string] two_clients
    = process_active_connections (T := AVLTree string Z) whole_stod no_nan 0
      [request_of 6 ["exists"; "a"]%string] s' ∧
    connections_ s' = delete 5 (connections_ two_clients).
Proof.
  destruct (failing_client_isolated whole_stod no_nan 0 5 RIntr (new_conn 5 0)
    [request_of 6 ["exists"; "a"]%string] two_clients two_clients_ok) as (s' & Hrun & _ & _ & Hc & _).
  - by vm_compute.
  - done.
  - by exists s'.
Defined.

Lemma zadd_stalls_server_witness :
  run (T := AVLTree string Z) whole_stod no_nan
    [mkRound false [] [request_of 5 ["ZADD"; "z"; "7"; "ann"]; request_of 6 ["GET"; "a"]]%string 0]
    two_clients = Stuck.
Proof.
  apply (zadd_stalls_server whole_stod no_nan [] [request_of 6 ["GET"; "a"]%string] two_clients 5
    (new_conn 5 0) ∅ "ZADD" "z" "ann" "7" 7 0).
  - done.
  - done.
  - by vm_compute.
  - apply plain_new.
  - by vm_compute.
  - repeat constructor; try done; by vm_compute.
  - by vm_compute.
  - by vm_compute.
  - by vm_compute.
Defined.
End Witnesses.
