(* ===== verification/Service.v ===== *)
(** The whole server to its clients: accepting, decoding, dispatch, the key space and the
    replies.

    A run of the event loop is refined by a service whose state is the set of connected
    clients and the association list of [StringService].  Requests are any bytes. *)

From S2P Require Import Prelude Bytes CxxLib HashTable HashMapSpec HashStack Heap AVL.
From S2P Require Import ZSet EntryManager ResponseSerializer CommandProcessor StringService Connection Server.

(** ** The service *)
Abbreviation pairs := (list (string * string)).

(** The clients after the answers of [accept]; none when the kernel hands out a descriptor
    that is open. *)
Fixpoint accept_clients (listen : Z) (answers : list accept_result) (clients : gset Z) : option (gset Z) :=
  match answers with
  | [] | AcceptFailed :: _ => Some clients
  | Accepted fd nonblocking allocated :: rest =>
      if decide (fd ∈ {[listen]} ∪ clients ∨ fd = -1) then None
      else accept_clients listen rest (if nonblocking && allocated then clients ∪ {[fd]} else clients)
  end.

(** The ready clients, one after the other: data is a request of words and gets its reply,
    anything else disconnects the client. *)
Fixpoint serve_ready (ready : list (Z * read_result)) (clients : gset Z) (l : pairs)
  : option (list (Z * list byte) * gset Z * pairs) :=
  match ready with
  | [] => Some ([], clients, l)
  | (fd, r) :: rest =>
      if decide (fd ∈ clients) then
        match r with
        | RData bytes =>
            '(reply, l) ← string_command (istream_words (c_string bytes)) l;
            '(out, clients, l) ← serve_ready rest clients l;
            Some ((fd, reply) :: out, clients, l)
        | _ => serve_ready rest (clients ∖ {[fd]}) l
        end
      else serve_ready rest clients l
  end.

Definition serve_round (listen : Z) (r : round) (clients : gset Z) (l : pairs)
  : option (list (Z * list byte) * gset Z * pairs) :=
  clients ← (if listen_ready r then accept_clients listen (accepts r) clients else Some clients);
  serve_ready (ready r) clients l.

Fixpoint serve (listen : Z) (rounds : list round) (clients : gset Z) (l : pairs)
  : option (list (Z * list byte) * gset Z * pairs) :=
  match rounds with
  | [] => Some ([], clients, l)
  | r :: rest =>
      '(out, clients, l) ← serve_round listen r clients l;
      '(more, clients, l) ← serve listen rest clients l;
      Some (out ++ more, clients, l)
  end.

(** ** Refinement *)
Section Service.
Context {LP : LockPolicy} {T : Type} `{OrderedMapLaws T Z}.
Implicit Types (s : Server T) (clients : gset Z) (l : pairs).

(** The server serves these clients from these values. *)
Record serving (listen : Z) s clients l : Prop := {
  sg_ok : server_ok s;
  sg_listen : listen_socket_ s = listen;
  sg_clients : dom (connections_ s) = clients;
  sg_strings : strings (entry_manager_ s) l;
  sg_room : (length l ≤ 32)%nat;
  sg_runs : should_stop_ s = false;
}.

Lemma serving_fds listen s clients l : serving listen s clients l → open_fds s = {[listen]} ∪ clients.
Proof. intros Hs. by rewrite (sv_fds s (sg_ok _ _ _ _ Hs)), (sg_listen _ _ _ _ Hs), (sg_clients _ _ _ _ Hs). Qed.

Lemma serving_new listen : serving listen (new_server listen) ∅ [].
Proof.
  split; cbn; [|done..| |lia|done].
  - split; cbn; [set_solver|set_solver|]. intros fd c. by rewrite lookup_empty.
  - exists []. apply held_new.
Qed.

Lemma accept_serving listen now answers : ∀ s clients l clients',
  serving listen s clients l → accept_clients listen answers clients = Some clients' →
  serving listen (accept_loop now answers s) clients' l.
Proof.
  induction answers as [|[fd nonblocking allocated|] answers IH]; intros s clients l clients' Hs; cbn; [by intros [= <-]| |by intros [= <-]].
  case_decide as Hfd; [done|]. apply Decidable.not_or in Hfd as [Hfd Hn]. rewrite <- (serving_fds _ _ _ _ Hs) in Hfd.
  intros Hrest. destruct nonblocking; cbn in *; [destruct allocated; cbn in *|].
  - destruct (add_connection_spec fd now s (sg_ok _ _ _ _ Hs) Hfd Hn) as (Hok & _ & _ & Hc & _ & He & Hstop).
    eapply IH; [|exact Hrest]. destruct Hs as [_ Hl Hd Hst Hroom Hrun]. split; try congruence.
    + unfold add_connection, destroy_conn, close_fd. by repeat case_match.
    + rewrite Hc, dom_insert_L, Hd. set_solver.
  - eapply IH; [|exact Hrest]. rewrite open_close, close_closed by done. destruct Hs as [[] ]. by split.
  - eapply IH; [|exact Hrest]. by rewrite open_close.
Qed.

Context (stod : list byte → sto_error + (Z * nat)) (isnan : Z → bool).

Lemma data_serving listen now fd bytes s clients l reply l' :
  serving listen s clients l → fd ∈ clients → string_command (istream_words (c_string bytes)) l = Some (reply, l') →
  ∃ s', process_connection stod isnan now fd (RData bytes) s = Done [(fd, reply)] s' ∧ serving listen s' clients l'.
Proof.
  intros Hs Hfd Hcmd. pose proof (string_command_room _ _ _ _ Hcmd (sg_room _ _ _ _ Hs)) as Hroom'.
  destruct Hs as [Hok Hl Hd Hst Hroom Hrun]. destruct (command_strings stod isnan (istream_words (c_string bytes)) now _ l reply l' Hst) as (em' & Hem & Hst'); [lia|done|].
  rewrite <- Hd in Hfd. apply elem_of_dom in Hfd as [c Hc]. destruct (sv_sockets s Hok fd c Hc) as [Hsock _].
  exists (set_em em' s). split; [|split; try done; by apply server_ok_em].
  unfold process_connection. rewrite Hc. unfold process_io, on_em, zoom, mbind, M_bind. cbn [snd fst]. rewrite Hem. cbn.
  rewrite insert_id, Hsock by done. by destruct s.
Qed.

Lemma gone_serving listen now fd r s clients l :
  serving listen s clients l → fd ∈ clients → (∀ bytes, r ≠ RData bytes) →
  ∃ s', process_connection stod isnan now fd r s = Done [] s' ∧ serving listen s' (clients ∖ {[fd]}) l.
Proof.
  intros [Hok Hl Hd Hst Hroom Hrun] Hfd Hr. rewrite <- Hd in Hfd. apply elem_of_dom in Hfd as [c Hc].
  destruct (remove_connection_spec fd c s Hok Hc) as [Hok' Heq]. destruct (sv_sockets s Hok fd c Hc) as [Hsock _].
  exists (remove_connection fd s). split.
  - unfold process_connection. rewrite Hc.
    assert (set_em (entry_manager_ s) (set_connections (<[fd := c]> (connections_ s)) s) = s) as Hid.
    { rewrite insert_id by done. by destruct s. }
    destruct r; [by edestruct Hr|..]; cbn; by rewrite Hid, Hsock.
  - rewrite Heq in Hok' |- *. split; try done. cbn. by rewrite dom_delete_L, Hd.
Qed.

Lemma absent_serving listen now fd r s clients l :
  serving listen s clients l → fd ∉ clients → process_connection stod isnan now fd r s = Done [] s.
Proof.
  intros Hs Hfd. rewrite <- (sg_clients _ _ _ _ Hs) in Hfd. apply not_elem_of_dom in Hfd.
  unfold process_connection. by rewrite Hfd.
Qed.

Lemma ready_serving listen now rd : ∀ s clients l out clients' l',
  serving listen s clients l → serve_ready rd clients l = Some (out, clients', l') →
  ∃ s', process_active_connections stod isnan now rd s = Done out s' ∧ serving listen s' clients' l'.
Proof.
  induction rd as [|[fd r] rd IH]; intros s clients l out clients' l' Hs; cbn [serve_ready process_active_connections].
  { intros [= <- <- <-]. by exists s. }
  case_decide as Hfd.
  2: { intros Hrest. destruct (IH s clients l out clients' l' Hs Hrest) as (s' & Hrun & Hs'). exists s'. split; [|done].
       by rewrite (bind_Done _ _ _ _ _ (absent_serving listen now fd r s clients l Hs Hfd)), (bind_Done _ _ _ _ _ Hrun). }
  assert ((∀ bytes, r ≠ RData bytes) → serve_ready rd (clients ∖ {[fd]}) l = Some (out, clients', l') →
    ∃ s', process_active_connections stod isnan now ((fd, r) :: rd) s = Done out s' ∧ serving listen s' clients' l') as Hgone.
  { intros Hr Hrest. destruct (gone_serving listen now fd r s clients l Hs Hfd Hr) as (s1 & Hrun1 & Hs1).
    destruct (IH _ _ _ _ _ _ Hs1 Hrest) as (s' & Hrun & Hs'). exists s'. split; [|done]. cbn [process_active_connections].
    by rewrite (bind_Done _ _ _ _ _ Hrun1), (bind_Done _ _ _ _ _ Hrun). }
  destruct r as [bytes| | | |]; [|by apply Hgone..].
  destruct (string_command _ l) as [[reply l1]|] eqn:Hcmd; [|done]. cbn.
  destruct (serve_ready rd clients l1) as [[[out1 clients1] l2]|] eqn:Hrest; [|done]. cbn. intros [= <- <- <-].
  destruct (data_serving listen now fd bytes s clients l reply l1 Hs Hfd Hcmd) as (s1 & Hrun1 & Hs1).
  destruct (IH _ _ _ _ _ _ Hs1 Hrest) as (s' & Hrun & Hs'). exists s'. split; [|done].
  by rewrite (bind_Done _ _ _ _ _ Hrun1), (bind_Done _ _ _ _ _ Hrun).
Qed.

Lemma round_serving listen r s clients l out clients' l' :
  serving listen s clients l → serve_round listen r clients l = Some (out, clients', l') →
  ∃ s', run_round stod isnan r s = Done out s' ∧ serving listen s' clients' l'.
Proof.
  intros Hs. unfold serve_round, run_round, accept_new_connections.
  destruct (listen_ready r); cbn; [|intros Hready; by eapply ready_serving].
  destruct (accept_clients listen (accepts r) clients) as [clients1|] eqn:Ha; [|done]. cbn. intros Hready.
  eapply ready_serving; [|exact Hready]. by eapply accept_serving.
Qed.

Lemma run_serving listen rounds : ∀ s clients l out clients' l',
  serving listen s clients l → serve listen rounds clients l = Some (out, clients', l') →
  ∃ s', run stod isnan rounds s = Done out s' ∧ serving listen s' clients' l'.
Proof.
  induction rounds as [|r rounds IH]; intros s clients l out clients' l' Hs; cbn [serve run].
  { intros [= <- <- <-]. by exists s. }
  destruct (serve_round listen r clients l) as [[[out1 clients1] l1]|] eqn:Hr; [|done]. cbn.
  destruct (serve listen rounds clients1 l1) as [[[out2 clients2] l2]|] eqn:Hrest; [|done]. cbn. intros [= <- <- <-].
  destruct (round_serving listen r s clients l out1 clients1 l1 Hs Hr) as (s1 & Hrun1 & Hs1).
  destruct (IH s1 clients1 l1 out2 clients2 l2 Hs1 Hrest) as (s' & Hrun & Hs'). exists s'. split; [|done].
  by rewrite bind_get, (sg_runs _ _ _ _ Hs), (bind_Done _ _ _ _ _ Hrun1), (bind_Done _ _ _ _ _ Hrun).
Qed.

End Service.

(** ** Witnesses *)
Section Witnesses.
#[local] Existing Instance std_shared_mutex.

(** Two clients connect; one sets a key and leaves, the other reads it, in the next round
    after bytes that are no command. *)
Definition two_rounds : list round :=
  [ mkRound true [Accepted 5 true true; Accepted 6 true false; Accepted 6 true true; AcceptFailed] [] 1;
    mkRound false [] [(5, RData (bytes_of_string "set  k v")); (6, RData [x20; x00; x41])] 2;
    mkRound false [] [(5, REof); (6, RData (bytes_of_string "GET k")); (5, REof)] 3 ].


(** PING is no command: its reply is the error for unknown ones. *)
Lemma ping_is_unknown :
  string_command (istream_words (c_string (bytes_of_string "PING" ++ [x0a]))) [] =
    Some (serialize_error [] ERR_UNKNOWN (line "unknown command"), []).
Proof. reflexivity. Qed.
End Witnesses.
