(* ===== verification/Socket.v ===== *)
(** [Socket] of src/socket.hpp and the set-up of the listening socket by [Server::initialize]
    of src/server.hpp.

    Sockets are objects with addresses, as they are moved from one to another.  The
    process has a table of open descriptors with their flags; [closed] has every
    descriptor [close] was called on that was not open.  What the system calls answer is
    an argument. *)

From S2P Require Import Prelude CxxLib.

Record Process := mkProcess {
  sockets : gmap loc Z;
  descriptors : gmap Z Z;
  closed : list Z;
}.

Definition set_sockets (x : gmap loc Z) (p : Process) : Process := mkProcess x (descriptors p) (closed p).
Definition set_descriptors (x : gmap Z Z) (p : Process) : Process := mkProcess (sockets p) x (closed p).

(** The errors [create_listen_socket] returns; the last is an [errno]. *)
Inductive error_code : Type :=
| bad_file_descriptor
| invalid_argument_code
| address_in_use
| connection_refused
| system_error (errno : Z).

Abbreviation MP := (M Process).

(** [close(2)]. *)
Definition close (fd : Z) : MP unit :=
  modify (λ p, match descriptors p !! fd with
    | Some _ => set_descriptors (delete fd (descriptors p)) p
    | None => mkProcess (sockets p) (descriptors p) (fd :: closed p)
    end).

(** The member [fd_] of a live object. *)
Definition fd_of (a : loc) : MP Z := λ p, match sockets p !! a with Some fd => Done fd p | None => Undef end.
Definition set_fd (a : loc) (fd : Z) : MP unit := modify (λ p, set_sockets (<[a := fd]> (sockets p)) p).

(** *** Socket *)

(** The constructor, the destructor and the move operations. *)
Definition socket_new (a : loc) (fd : Z) : MP unit := set_fd a fd.

Definition socket_delete (a : loc) : MP unit :=
  fd ← fd_of a;
  (if fd =? -1 then mret tt else close fd) ;;
  modify (λ p, set_sockets (delete a (sockets p)) p).

Definition exchange (a : loc) (fd : Z) : MP Z := old ← fd_of a; set_fd a fd ;; mret old.

Definition socket_move (a other : loc) : MP unit := fd ← exchange other (-1); socket_new a fd.

Definition socket_assign (a other : loc) : MP unit :=
  if decide (a = other) then mret tt
  else
    fd ← fd_of a;
    (if fd =? -1 then mret tt else close fd) ;;
    fd' ← exchange other (-1);
    set_fd a fd'.

Definition O_NONBLOCK : Z := 2048.

(** [fcntl]: it fails for a descriptor that is not open, and when [answer] is an [errno]. *)
Definition fcntl {A} (fd : Z) (answer : option Z) (call : Z → MP A) : MP (Z + A) := λ p,
  match descriptors p !! fd, answer with
  | Some flags, None => match call flags p with Done a p' => Done (inr a) p' | _ => Undef end
  | None, None => Done (inl 9) p
  | _, Some errno => Done (inl errno) p
  end.

Definition set_nonblocking (a : loc) (getfl setfl : option Z) : MP (error_code + unit) :=
  fd ← fd_of a;
  flags ← fcntl fd getfl mret;
  match flags with
  | inl errno => mret (inl (system_error errno))
  | inr flags =>
      r ← fcntl fd setfl (λ _, modify (λ p, set_descriptors (<[fd := Z.lor flags O_NONBLOCK]> (descriptors p)) p));
      match r with inl errno => mret (inl (system_error errno)) | inr _ => mret (inr tt) end
  end.

(** *** Server::initialize *)

(** What the system calls answer: [socket] a new descriptor with its flags, or nothing;
    [setsockopt], [bind] and [listen] whether they succeed; the two [fcntl] an [errno]. *)
Record system := mkSystem {
  sys_socket : option (Z * Z);
  sys_setsockopt : bool;
  sys_bind : bool;
  sys_listen : bool;
  sys_getfl : option Z;
  sys_setfl : option Z;
}.

(** The calls up to the result, with the local socket [sock]. *)
Definition set_up (os : system) (sock : loc) : MP (error_code + unit) :=
  fd ← fd_of sock;
  if fd <? 0 then mret (inl bad_file_descriptor)
  else if negb (sys_setsockopt os) then mret (inl invalid_argument_code)
  else if negb (sys_bind os) then mret (inl address_in_use)
  else if negb (sys_listen os) then mret (inl connection_refused)
  else set_nonblocking sock (sys_getfl os) (sys_setfl os).

(** The result is built from [sock] by a move when there is one; then [sock] goes out of
    scope. *)
Definition create_listen_socket (os : system) (sock result : loc) : MP (error_code + loc) :=
  (match sys_socket os with
   | Some (fd, flags) => modify (λ p, set_descriptors (<[fd := flags]> (descriptors p)) p) ;; socket_new sock fd
   | None => socket_new sock (-1)
   end) ;;
  r ← set_up os sock;
  res ← (match r with inl e => mret (inl e) | inr _ => socket_move result sock ;; mret (inr result) end);
  socket_delete sock ;;
  mret res.

(** [listen_socket_] is the object at [listen]; the result goes out of scope at the end. *)
Definition initialize (os : system) (sock result listen : loc) : MP (error_code + unit) :=
  listen_result ← create_listen_socket os sock result;
  match listen_result with
  | inl e => mret (inl e)
  | inr r => socket_assign listen r ;; socket_delete r ;; mret (inr tt)
  end.

(** ** Ownership *)

(** The open descriptors are those of the sockets, each of one socket, and [others], and
    no other descriptor was closed. *)
Record owned (others : gset Z) (p : Process) : Prop := {
  ow_open : ∀ fd, is_Some (descriptors p !! fd) ↔ fd ∈ others ∨ (fd ≠ -1 ∧ ∃ a, sockets p !! a = Some fd);
  ow_apart : ∀ a fd, sockets p !! a = Some fd → fd ≠ -1 → fd ∉ others;
  ow_once : ∀ a b fd, sockets p !! a = Some fd → sockets p !! b = Some fd → fd ≠ -1 → a = b;
  ow_closed : closed p = [];
}.

(** The operations on sockets: constructing one from a descriptor no socket has, and the
    others on any objects. *)
Inductive socket_call : Type :=
| Construct (a : loc) (fd flags : Z)
| Destroy (a : loc)
| Move (a other : loc)
| Assign (a other : loc).

(** A call is allowed when its objects are alive, and the new one is not. *)
Definition may_call (c : socket_call) (p : Process) : Prop :=
  match c with
  | Construct a fd _ => sockets p !! a = None ∧ 0 ≤ fd ∧ descriptors p !! fd = None
  | Destroy a => is_Some (sockets p !! a)
  | Move a other => sockets p !! a = None ∧ is_Some (sockets p !! other)
  | Assign a other => is_Some (sockets p !! a) ∧ is_Some (sockets p !! other)
  end.

Definition call (c : socket_call) : MP unit :=
  match c with
  | Construct a fd flags => modify (λ p, set_descriptors (<[fd := flags]> (descriptors p)) p) ;; socket_new a fd
  | Destroy a => socket_delete a
  | Move a other => socket_move a other
  | Assign a other => socket_assign a other
  end.

Inductive calls : list socket_call → Process → Process → Prop :=
| calls_nil p : calls [] p p
| calls_cons c cs p p1 p2 : may_call c p → call c p = Done tt p1 → calls cs p1 p2 → calls (c :: cs) p p2.

(** *** What the operations do *)
Lemma fd_of_run p a fd : sockets p !! a = Some fd → fd_of a p = Done fd p.
Proof. intros Ha. unfold fd_of. by rewrite Ha. Qed.

(** [close] of a descriptor a socket may have. *)
Definition without (fd : Z) (p : Process) : Process :=
  if fd =? -1 then p else set_descriptors (delete fd (descriptors p)) p.

Lemma close_run others p a fd :
  owned others p → sockets p !! a = Some fd → (if fd =? -1 then mret tt else close fd) p = Done tt (without fd p).
Proof.
  intros Hp Ha. unfold without. destruct (Z.eqb_spec fd (-1)) as [->|Hne]; [done|].
  destruct (proj2 (ow_open _ _ Hp fd)) as [flags Hfd]; [by eauto|]. unfold close, modify. by rewrite Hfd.
Qed.

Lemma delete_run others p a fd :
  owned others p → sockets p !! a = Some fd → socket_delete a p = Done tt (set_sockets (delete a (sockets p)) (without fd p)).
Proof.
  intros Hp Ha. unfold socket_delete. erewrite bind_Done by (by apply fd_of_run). erewrite bind_Done by (by eapply close_run).
  unfold without. by destruct (fd =? -1).
Qed.

Lemma move_run p a other fd :
  sockets p !! other = Some fd → socket_move a other p = Done tt (set_sockets (<[a := fd]> (<[other := -1]> (sockets p))) p).
Proof.
  intros Ho. unfold socket_move, exchange. erewrite bind_Done; [|by erewrite bind_Done by (by apply fd_of_run)]. done.
Qed.

Lemma assign_run others p a other fd fd' :
  owned others p → a ≠ other → sockets p !! a = Some fd → sockets p !! other = Some fd' →
  socket_assign a other p = Done tt (set_sockets (<[a := fd']> (<[other := -1]> (sockets p))) (without fd p)).
Proof.
  intros Hp Hne Ha Ho. unfold socket_assign, exchange. rewrite decide_False by done.
  erewrite bind_Done by (by apply fd_of_run). erewrite bind_Done by (by eapply close_run).
  assert (sockets (without fd p) = sockets p) as Hs by (unfold without; by destruct (fd =? -1)).
  erewrite bind_Done; [|by erewrite bind_Done by (apply fd_of_run; by rewrite Hs)]. unfold set_fd, modify. cbn. rewrite Hs. unfold without. by destruct (fd =? -1).
Qed.

(** Only the descriptors of the live sockets matter. *)
Lemma owned_ext others p p' :
  (∀ a fd, fd ≠ -1 → sockets p' !! a = Some fd ↔ sockets p !! a = Some fd) → descriptors p' = descriptors p → closed p' = closed p →
  owned others p → owned others p'.
Proof.
  intros Hs Hd Hc [H1 H2 H3 H4]. split; rewrite ?Hd, ?Hc.
  - intros fd. rewrite H1. split; (intros [?|[Hne [a Ha]]]; [by left|right; split; [done|exists a; by apply Hs]]).
  - intros a fd Ha Hne. apply (H2 a fd); [by apply Hs|done].
  - intros a b fd Ha Hb Hne. apply (H3 a b fd); [by apply Hs|by apply Hs|done].
  - done.
Qed.

(** A socket gives its descriptor up, and it is closed. *)
Lemma owned_release others p a fd :
  owned others p → sockets p !! a = Some fd → owned others (set_sockets (<[a := -1]> (sockets p)) (without fd p)).
Proof.
  intros Hp Ha. unfold without. destruct (Z.eqb_spec fd (-1)) as [->|Hne].
  { rewrite insert_id by done. by destruct p. }
  destruct Hp as [H1 H2 H3 H4].
  assert (∀ b g, g ≠ -1 → <[a := -1]> (sockets p) !! b = Some g ↔ b ≠ a ∧ sockets p !! b = Some g) as Hs.
  { intros b g Hg. rewrite lookup_insert_Some. split; [intros [[_ <-]|[? ?]]; [done|auto]|intros []; auto]. }
  split; cbn; [|intros b g Hb Hg; apply (Hs _ _ Hg) in Hb as [_ Hb]; by apply (H2 b)| |done].
  - intros g. destruct (decide (g = fd)) as [->|Hgf].
    + rewrite lookup_delete_eq. split; [by intros [? [=]]|]. intros [Hin|[_ [b [Hba Hb]%(Hs _ _ Hne)]]]; [|by destruct Hba; apply (H3 b a fd)].
      by destruct (H2 a fd Ha Hne).
    + rewrite lookup_delete_ne, H1 by done. split; (intros [?|[Hg [b Hb]]]; [by left|right; split; [done|exists b]]).
      * apply (Hs _ _ Hg). split; [|done]. intros ->. congruence.
      * by apply (Hs _ _ Hg) in Hb as [_ ?].
  - intros b c g Hb Hc Hg. apply (Hs _ _ Hg) in Hb as [_ Hb]. apply (Hs _ _ Hg) in Hc as [_ Hc]. by apply (H3 b c g).
Qed.

(** A socket takes the descriptor of another one. *)
Lemma owned_transfer others p a other fd :
  owned others p → a ≠ other → (∀ g, sockets p !! a = Some g → g = -1) → sockets p !! other = Some fd →
  owned others (set_sockets (<[a := fd]> (<[other := -1]> (sockets p))) p).
Proof.
  intros [H1 H2 H3 H4] Hne Ha Ho.
  assert (∀ b g, g ≠ -1 → <[a := fd]> (<[other := -1]> (sockets p)) !! b = Some g ↔
    (b = a ∧ g = fd) ∨ (b ≠ a ∧ b ≠ other ∧ sockets p !! b = Some g)) as Hs.
  { intros b g Hg. rewrite !lookup_insert_Some. split.
    - intros [[-> ->]|[? [[_ <-]|[? ?]]]]; [by left|done|right; auto].
    - intros [[-> ->]|(? & ? & ?)]; [by left|right; auto]. }
  split; cbn; [| | |done].
  - intros g. rewrite H1. split; (intros [?|[Hg [b Hb]]]; [by left|right; split; [done|]]).
    + destruct (decide (b = other)) as [->|Hbo]; [exists a; apply (Hs _ _ Hg); left; split; [done|congruence]|].
      exists b. apply (Hs _ _ Hg). right. split_and!; [|done|done]. intros ->. by apply Ha in Hb.
    + apply (Hs _ _ Hg) in Hb as [[-> ->]|(_ & _ & Hb)]; [by exists other|by exists b].
  - intros b g Hb Hg. apply (Hs _ _ Hg) in Hb as [[-> ->]|(_ & _ & Hb)]; [by apply (H2 other)|by apply (H2 b)].
  - intros b c g Hb Hc Hg. apply (Hs _ _ Hg) in Hb. apply (Hs _ _ Hg) in Hc.
    destruct Hb as [[-> ->]|(Hba & Hbo & Hb)], Hc as [[-> Heq]|(Hca & Hco & Hc)]; [done|..].
    + destruct Hco. by apply (H3 c other fd).
    + subst g. destruct Hbo. by apply (H3 b other fd).
    + by apply (H3 b c g).
Qed.

Lemma owned_delete others p a fd :
  owned others p → sockets p !! a = Some fd → owned others (set_sockets (delete a (sockets p)) (without fd p)).
Proof.
  intros Hp Ha. apply (owned_ext others (set_sockets (<[a := -1]> (sockets p)) (without fd p))); [|done|done|by apply owned_release].
  intros b g Hg. cbn. rewrite lookup_insert_Some, lookup_delete_Some. split; [intros []; by right|intros [[_ <-]|[? ?]]; [done|by split]].
Qed.

Lemma owned_new others p a fd flags :
  owned others p → sockets p !! a = None → 0 ≤ fd → descriptors p !! fd = None →
  owned others (set_sockets (<[a := fd]> (sockets p)) (set_descriptors (<[fd := flags]> (descriptors p)) p)).
Proof.
  intros [H1 H2 H3 H4] Ha Hfd Hnew.
  assert (∀ b, sockets p !! b = Some fd → False) as Hno.
  { intros b Hb. destruct (proj2 (H1 fd)) as [? Hs]; [right; split; [lia|eauto]|]. congruence. }
  assert (fd ∉ others) as Hfo by (intros Hin; destruct (proj2 (H1 fd)) as [? Hs]; [by left|congruence]).
  split; cbn; [| | |done].
  - intros g. rewrite lookup_insert_is_Some, H1. split.
    + intros [->|[Hne [?|[Hg [b Hb]]]]]; [right; split; [lia|exists a; by rewrite lookup_insert_eq]|by left|].
      right. split; [done|]. exists b. rewrite lookup_insert_ne; [done|]. intros ->. congruence.
    + intros [Hin|[Hg [b [[-> ->]|[_ Hb]]%lookup_insert_Some]]]; [|by left|].
      * right. split; [by intros ->|by left].
      * right. split; [intros ->; by apply (Hno b)|right; eauto].
  - intros b g [[-> <-]|[_ Hb]]%lookup_insert_Some Hg; [done|by apply (H2 b)].
  - intros b c g [[-> <-]|[_ Hb]]%lookup_insert_Some [[-> Heq]|[_ Hc]]%lookup_insert_Some Hg; [done| | |by apply (H3 b c g)].
    + by destruct (Hno c).
    + subst. by destruct (Hno b).
Qed.

(** A descriptor keeps its owner when its flags change. *)
Lemma owned_flags others p fd flags :
  owned others p → is_Some (descriptors p !! fd) → owned others (set_descriptors (<[fd := flags]> (descriptors p)) p).
Proof.
  intros [H1 H2 H3 H4] Hfd. split; cbn; [|done..].
  intros g. rewrite lookup_insert_is_Some', H1. split; [intros [<-|?]; [by apply H1|done]|by right].
Qed.

(** An allowed call returns. *)
Lemma call_owned others c p : owned others p → may_call c p → ∃ p', call c p = Done tt p' ∧ owned others p'.
Proof.
  intros Hp. destruct c as [a fd flags|a|a other|a other]; cbn [may_call call].
  - intros (Ha & Hfd & Hnew). eexists. split; [done|]. exact (owned_new others p a fd flags Hp Ha Hfd Hnew).
  - intros [fd Ha]. eexists. split; [by eapply delete_run|by apply owned_delete].
  - intros (Ha & [fd Ho]). eexists. split; [by apply move_run|]. apply owned_transfer; [done|congruence|congruence|done].
  - intros ([fd Ha] & [fd' Ho]). destruct (decide (a = other)) as [->|Hne].
    { exists p. split; [|done]. unfold socket_assign. by rewrite decide_True by done. }
    eexists. split; [by eapply assign_run|].
    assert (sockets (without fd p) = sockets p) as Hs by (unfold without; by destruct (fd =? -1)).
    pose proof (owned_transfer others (set_sockets (<[a := -1]> (sockets p)) (without fd p)) a other fd') as Ht.
    eapply owned_ext; [| | |apply Ht; [by apply owned_release|done|cbn; intros g; rewrite lookup_insert_eq; congruence|]];
      [|done|done|by cbn; rewrite lookup_insert_ne by done].
    intros b g Hg. cbn. destruct (decide (b = a)) as [->|Hba]; [by rewrite !lookup_insert_eq|].
    rewrite !(lookup_insert_ne _ a b) by done. destruct (decide (b = other)) as [->|]; [by rewrite !lookup_insert_eq|].
    by rewrite !lookup_insert_ne by done.
Qed.

(** Every descriptor has one owner: after any sequence of constructions, moves, assignments
    and destructions of sockets the open descriptors are those of the live sockets, no two of
    which have the same one, and those that were open before; no descriptor was closed that was
    not open, and every operation on live sockets returns. *)
Theorem sockets_own others cs p p' :
  owned others p → calls cs p p' →
  owned others p' ∧ ∀ c, may_call c p' → ∃ p'', call c p' = Done tt p'' ∧ owned others p''.
Proof.
  intros Hp Hcs. cut (owned others p'); [intros Hp'; split; [done|]; intros c; by apply call_owned|].
  induction Hcs as [|c cs p p1 p2 Hc Hrun _ IH]; [done|].
  apply IH. destruct (call_owned others c p Hp Hc) as (? & Hrun' & ?). congruence.
Qed.

(** The error of the first call that fails. *)
Definition first_error (os : system) : option error_code :=
  head (omap id [
    (if sys_socket os is Some _ then None else Some bad_file_descriptor);
    (if sys_setsockopt os then None else Some invalid_argument_code);
    (if sys_bind os then None else Some address_in_use);
    (if sys_listen os then None else Some connection_refused);
    system_error <$> sys_getfl os;
    system_error <$> sys_setfl os]).

Lemma set_up_run os sock p fd flags :
  sys_socket os = Some (fd, flags) → sockets p !! sock = Some fd → descriptors p !! fd = Some flags → 0 ≤ fd →
  set_up os sock p = match first_error os with
    | Some e => Done (inl e) p
    | None => Done (inr tt) (set_descriptors (<[fd := Z.lor flags O_NONBLOCK]> (descriptors p)) p)
    end.
Proof.
  intros Hs Hsock Hfd Hpos. unfold set_up, first_error, set_nonblocking. erewrite bind_Done by (by apply fd_of_run).
  rewrite Hs. destruct (Z.ltb_spec fd 0); [lia|].
  destruct (sys_setsockopt os), (sys_bind os), (sys_listen os); try done. cbn.
  erewrite bind_Done by (by apply fd_of_run). unfold fcntl, mbind, M_bind. rewrite Hfd.
  destruct (sys_getfl os); [done|]. cbn. rewrite Hfd. by destruct (sys_setfl os).
Qed.

(** What [create_listen_socket] leaves, with the new descriptor [fd]. *)
Lemma create_run others os sock result p fd flags :
  owned others p → sys_socket os = Some (fd, flags) → 0 ≤ fd → descriptors p !! fd = None →
  sock ≠ result → sockets p !! sock = None → sockets p !! result = None →
  create_listen_socket os sock result p = match first_error os with
    | Some e => Done (inl e) p
    | None => Done (inr result) (set_sockets (<[result := fd]> (sockets p))
        (set_descriptors (<[fd := Z.lor flags O_NONBLOCK]> (descriptors p)) p))
    end.
Proof.
  intros Hp Hs Hpos Hnew Hne Hsock Hres.
  pose proof (owned_new others p sock fd flags Hp Hsock Hpos Hnew) as Hp1.
  set (p1 := set_sockets _ _) in Hp1. assert (sockets p1 !! sock = Some fd) as H1 by (cbn; by rewrite lookup_insert_eq).
  assert (descriptors p1 !! fd = Some flags) as Hd1 by (cbn; by rewrite lookup_insert_eq).
  unfold create_listen_socket. rewrite Hs. rewrite (bind_Done _ _ p tt p1) by done.
  pose proof (set_up_run os sock p1 fd flags Hs H1 Hd1 Hpos) as Hup.
  destruct (first_error os) as [e|] eqn:He; erewrite bind_Done by exact Hup.
  - rewrite (bind_Done _ _ p1 (inl e) p1) by done.
    erewrite bind_Done by (eapply delete_run; [exact Hp1|exact H1]). unfold without. cbn.
    destruct (Z.eqb_spec fd (-1)); [lia|]. destruct p as [s d c]. cbn in *.
    by rewrite !delete_insert_id by done.
  - set (p2 := set_descriptors (<[fd := Z.lor flags O_NONBLOCK]> (descriptors p1)) p1). assert (owned others p2) as Hp2 by by apply owned_flags.
    assert (sockets p2 !! sock = Some fd) as H2 by done.
    pose proof (owned_transfer others p2 result sock fd Hp2 ltac:(done) ltac:(intros g; cbn; rewrite lookup_insert_ne by done; congruence) H2) as Hp3.
    set (p3 := set_sockets _ p2) in Hp3. assert (sockets p3 !! sock = Some (-1)) as H3.
    { cbn. by rewrite lookup_insert_ne, lookup_insert_eq by done. }
    rewrite (bind_Done _ _ p2 (inr result) p3) by (by erewrite bind_Done by (by apply move_run)).
    erewrite bind_Done by (eapply delete_run; [exact Hp3|exact H3]). unfold without. cbn. subst p3 p2 p1. destruct p as [s d c]. cbn in *.
    unfold set_sockets, set_descriptors. cbn. rewrite delete_insert_ne, !insert_insert_eq, delete_insert_eq by done.
    by rewrite delete_id.
Qed.

(** The operating system had no descriptor to give. *)
Lemma create_refused os sock result p :
  sys_socket os = None → sockets p !! sock = None → create_listen_socket os sock result p = Done (inl bad_file_descriptor) p.
Proof.
  intros Hs Hsock. unfold create_listen_socket, set_up, socket_delete. rewrite Hs.
  set (p1 := set_sockets (<[sock := -1]> (sockets p)) p). assert (sockets p1 !! sock = Some (-1)) as H1 by apply lookup_insert_eq.
  rewrite (bind_Done _ _ p tt p1) by done.
  rewrite (bind_Done _ _ p1 (inl bad_file_descriptor) p1) by (by erewrite bind_Done by (by apply fd_of_run)).
  rewrite (bind_Done _ _ p1 (inl bad_file_descriptor) p1) by done.
  erewrite bind_Done; [|by erewrite bind_Done by (by apply fd_of_run)]. destruct p as [s d c]. cbn in *. by rewrite delete_insert_id.
Qed.

(** What [initialize] does. *)
Lemma initialize_run others os sock result listen old p :
  owned others p → sock ≠ result → sockets p !! sock = None → sockets p !! result = None → sockets p !! listen = Some old →
  (∀ fd flags, sys_socket os = Some (fd, flags) → 0 ≤ fd ∧ descriptors p !! fd = None) →
  ∃ r p', initialize os sock result listen p = Done r p' ∧ owned others p' ∧
    match first_error os with
    | Some e => r = inl e ∧ p' = p
    | None => r = inr tt ∧ ∃ fd flags, sys_socket os = Some (fd, flags) ∧ sockets p' = <[listen := fd]> (sockets p) ∧
        descriptors p' = <[fd := Z.lor flags O_NONBLOCK]> (descriptors (without old p)) ∧ closed p' = []
    end.
Proof.
  intros Hp Hne Hsock Hres Hl Hos. unfold initialize. destruct (sys_socket os) as [[fd flags]|] eqn:Hs.
  2: { exists (inl bad_file_descriptor), p. unfold first_error. rewrite Hs.
       by erewrite bind_Done by (by apply create_refused). }
  destruct (Hos fd flags eq_refl) as [Hpos Hnew]. pose proof (create_run others os sock result p fd flags) as Hrun.
  specialize (Hrun Hp Hs Hpos Hnew Hne Hsock Hres). destruct (first_error os) as [e|] eqn:He.
  { exists (inl e), p. by erewrite bind_Done by exact Hrun. }
  pose proof (owned_new others p result fd (Z.lor flags O_NONBLOCK) Hp Hres Hpos Hnew) as Hp1.
  set (p1 := set_sockets _ _) in Hp1, Hrun. assert (listen ≠ result) as Hlr by (intros ->; congruence).
  assert (sockets p1 !! listen = Some old) as Hl1 by (cbn; by rewrite lookup_insert_ne by done).
  assert (sockets p1 !! result = Some fd) as Hr1 by (cbn; by rewrite lookup_insert_eq).
  destruct (call_owned others (Assign listen result) p1 Hp1) as (p2 & Hasg & Hp2); [split; by eauto|].
  pose proof (assign_run others p1 listen result old fd Hp1 Hlr Hl1 Hr1) as Hasg'. cbn [call] in Hasg. rewrite Hasg in Hasg'.
  injection Hasg' as ->. set (p2 := set_sockets (<[listen := fd]> _) _) in *.
  assert (sockets p2 !! result = Some (-1)) as Hr2 by (cbn; by rewrite lookup_insert_ne, lookup_insert_eq by done).
  exists (inr tt), (set_sockets (delete result (sockets p2)) (without (-1) p2)). split_and!; [|by apply owned_delete|done|].
  { erewrite bind_Done by exact Hrun. cbn beta iota. erewrite bind_Done by exact Hasg. by erewrite bind_Done by (by eapply delete_run). }
  exists fd, flags. split; [done|]. pose proof (ow_closed _ _ Hp). subst p2. unfold without. cbn. split_and!.
  - by rewrite delete_insert_ne, !insert_insert_eq, delete_insert_id by done.
  - destruct (Z.eqb_spec old (-1)) as [|Hold]; [done|]. cbn. rewrite delete_insert_ne; [done|].
    intros ->. destruct (proj2 (ow_open _ _ Hp fd)); [by eauto|congruence].
  - by destruct (old =? -1).
Qed.

(** C36: [initialize] returns.  When every system call succeeds the server's socket has the new
    descriptor, which is non-blocking, and the descriptor it had before is closed; otherwise the
    result is the error of the first call that failed and the sockets and the descriptors are as
    before.  Either way no temporary socket is left and every descriptor has one owner. *)
Theorem initialize_listens others os sock result listen old p :
  owned others p → sock ≠ result → sockets p !! sock = None → sockets p !! result = None → sockets p !! listen = Some old →
  (∀ fd flags, sys_socket os = Some (fd, flags) → 0 ≤ fd ∧ descriptors p !! fd = None) →
  ∃ r p', initialize os sock result listen p = Done r p' ∧ owned others p' ∧
    match first_error os with
    | Some e => r = inl e ∧ p' = p
    | None => r = inr tt ∧ ∃ fd flags, sys_socket os = Some (fd, flags) ∧ sockets p' = <[listen := fd]> (sockets p) ∧
        descriptors p' = <[fd := Z.lor flags O_NONBLOCK]> (descriptors (without old p)) ∧ closed p' = []
    end.
Proof. apply initialize_run. Qed.

(** The server's socket is the object 7, with the descriptor 3; the new one is 4. *)
Definition started : Process := mkProcess {[7%positive := 3]} {[3 := 0]} [].
Definition granted : system := mkSystem (Some (4, 2)) true true true None None.

Lemma started_owned : owned ∅ started.
Proof.
  split; cbn; [| | |done].
  - intros fd. rewrite lookup_singleton_is_Some. split; [intros <-; right; split; [done|by exists 7%positive]|].
    by intros [?|[_ [a [_ ?]%lookup_singleton_Some]]]; [set_solver|].
  - set_solver.
  - intros a b fd [<- _]%lookup_singleton_Some [<- _]%lookup_singleton_Some. done.
Qed.

Lemma initialize_listens_witness : ∃ r p', initialize granted 1%positive 2%positive 7%positive started = Done r p' ∧ owned ∅ p' ∧
  r = inr tt ∧ sockets p' = {[7%positive := 4]} ∧ descriptors p' = {[4 := 2050]} ∧ closed p' = [].
Proof.
  destruct (initialize_listens ∅ granted 1%positive 2%positive 7%positive 3 started) as (r & p' & Hrun & Hown & Hr & fd & flags & Hs & Hrest).
  - exact started_owned.
  - done.
  - done.
  - done.
  - done.
  - intros fd flags [= <- <-]. by split.
  - injection Hs as <- <-. exists r, p'. exact (conj Hrun (conj Hown (conj Hr Hrest))).
Defined.
