(* ===== verification/Program.v ===== *)
(** [main] of src/main.cpp: the arguments, the listening socket, the event loop and the
    interrupt that ends it.

    [argv] is the list of the arguments' bytes.  Whether the operating system gives the
    threads of a pool is an argument, and so is what the system calls of [initialize] answer
    ([Socket]) and what [poll], [accept] and [read] report ([Server]). *)

From S2P Require Import Prelude Bytes CxxLib HashTable HashMapSpec HashStack Heap AVL.
From S2P Require Import ZSet EntryManager ResponseSerializer CommandProcessor StringService Connection Server Service Socket.

(** [std::stoi]: [std::stol], and then the range of [int]. *)
Definition stoi (str : list byte) : sto_error + Z :=
  match stoll str with
  | inl e => inl e
  | inr (v, _) => if (- 2 ^ 31 <=? v) && (v <? 2 ^ 31) then inr v else inl sto_out_of_range
  end.

(** What the arguments say: an exception, a message and an exit status, or a port and the
    size of the pool. *)
Inductive start : Type :=
| Raises (e : sto_error)
| Exits (status : Z)
| Starts (port thread_pool_size : Z).

Definition pool_argument (port : Z) (argv : list (list byte)) : start :=
  match argv with
  | _ :: _ :: arg :: _ =>
      match stoi arg with
      | inl e => Raises e
      | inr v => let thread_pool_size := wrapu 64 v in
          if thread_pool_size =? 0 then Exits 1 else Starts port thread_pool_size
      end
  | _ => Starts port 4
  end.

Definition arguments (argv : list (list byte)) : start :=
  match argv with
  | _ :: arg :: _ =>
      match stoi arg with
      | inl e => Raises e
      | inr v => let port := wrapu 16 v in
          if (port <? 1024) || (65535 <? port) then Exits 1 else pool_argument port argv
      end
  | _ => pool_argument 1234 argv
  end.

(** The constructor of [ThreadPool] throws for no thread, for more than a vector holds, and
    when a thread cannot be started. *)
Definition pool_starts (threads : Z → bool) (num_threads : Z) : bool :=
  negb (num_threads =? 0) && (num_threads <? 2 ^ 60) && threads num_threads.

Section Program.
Context {LP : LockPolicy} {T : Type} `{OrderedMap T Z}.
Context (stod : list byte → sto_error + (Z * nat)) (isnan : Z → bool).

(** SIGINT: the server, if there is one, is stopped, and the process exits. *)
Definition handle_signal (global_server : option (Server T)) : option (Server T) * Z :=
  (stop <$> global_server, 0).

(** [run] until the interrupt; an exception is a fatal error. *)
Definition run_program (rounds : list round) (fd : Z) : M Process (Z * list (Z * list byte)) := λ p,
  match run stod isnan rounds (new_server fd) with
  | Done out s => Done ((handle_signal (Some s)).2, out) p
  | Throw _ _ => Done (1, []) p
  | Stuck => Stuck
  | Undef => Undef
  | AssertFail => AssertFail
  | NoFuel => NoFuel
  end.

(** The exit status and what was written.  The server's socket is the object at [listen];
    the loop is interrupted after [rounds]. *)
Definition main (argv : list (list byte)) (threads : Z → bool) (os : system) (sock result listen : loc)
    (rounds : list round) : M Process (Z * list (Z * list byte)) :=
  match arguments argv with
  | Raises _ => mret (1, [])
  | Exits status => mret (status, [])
  | Starts port thread_pool_size =>
      if negb (pool_starts threads thread_pool_size && pool_starts threads 4) then mret (1, [])
      else
        socket_new listen (-1) ;;
        r ← initialize os sock result listen;
        match r with
        | inl _ => socket_delete listen ;; mret (1, [])
        | inr _ => fd ← fd_of listen; run_program rounds fd
        end
  end.
End Program.

(** ** The port *)

(** [std::stoi] of a number written in decimal. *)
Lemma stoi_to_string v : - 2 ^ 31 ≤ v < 2 ^ 31 → stoi (to_string v) = inr v.
Proof.
  intros Hv. unfold stoi. rewrite stoll_to_string by (unfold i64_min, i64_max; lia).
  by rewrite (proj2 (Z.leb_le _ _)), (proj2 (Z.ltb_lt _ _)) by lia.
Qed.

(** The range check follows the conversion to [uint16_t]: a number is taken modulo 65536, and
    only the results below 1024 are refused. *)
Lemma port_argument prog v :
  - 2 ^ 31 ≤ v < 2 ^ 31 →
  arguments [prog; to_string v] = if v `mod` 65536 <? 1024 then Exits 1 else Starts (v `mod` 65536) 4.
Proof.
  intros Hv. unfold arguments, pool_argument. rewrite stoi_to_string by done. unfold wrapu. change (2 ^ 16) with 65536.
  pose proof (Z.mod_pos_bound v 65536). rewrite (proj2 (Z.ltb_ge 65535 _)) by lia. by rewrite orb_false_r.
Qed.

(** A negative size of the pool ends the program. *)
Lemma negative_pool prog threads v :
  - 2 ^ 31 ≤ v < 0 → ∃ n, arguments [prog; to_string 1234; to_string v] = Starts 1234 n ∧ pool_starts threads n = false.
Proof.
  intros Hv. exists (v + 2 ^ 64). unfold arguments, pool_argument. rewrite !stoi_to_string by lia.
  assert (wrapu 64 v = v + 2 ^ 64) as Hw by (unfold wrapu; rewrite <- (Z_mod_plus_full v 1), Z.mul_1_l; apply Z.mod_small; lia).
  rewrite Hw. destruct (Z.eqb_spec (v + 2 ^ 64) 0); [lia|]. split; [done|]. unfold pool_starts.
  by rewrite (proj2 (Z.ltb_ge (v + 2 ^ 64) _)), andb_false_r by lia.
Qed.

(** ** The program *)
Lemma arguments_status argv status : arguments argv = Exits status → status = 1.
Proof.
  unfold arguments, pool_argument. destruct argv as [|? [|? [|? ?]]]; [done..| |];
    repeat case_match; congruence.
Qed.

Section Serves.
Context {LP : LockPolicy} {T : Type} `{OrderedMapLaws T Z}.
Context (stod : list byte → sto_error + (Z * nat)) (isnan : Z → bool).

(** Before [initialize] the server's socket has no descriptor. *)
Lemma owned_blank others p a : owned others p → sockets p !! a = None → owned others (set_sockets (<[a := -1]> (sockets p)) p).
Proof.
  intros Hp Ha. apply (owned_ext others p); [|done|done|done]. intros b fd Hfd. cbn. rewrite lookup_insert_Some.
  split; [intros [[_ <-]|[_ ?]]; done|]. intros Hb. right. split; [|done]. intros ->. congruence.
Qed.

End Serves.

(** ** Witnesses *)
Section Witnesses.
#[local] Existing Instance std_shared_mutex.

(** The program on port 7000 with two threads; the clients of [two_rounds]. *)
Definition command_line : list (list byte) := [bytes_of_string "vectordb"; bytes_of_string "7000"; bytes_of_string "2"].

End Witnesses.
