(* ===== verification/RaftLog.v ===== *)
(** The replicated log of the Raft library (src/raft/raft.hpp, "ADT for managing
    Raft log entries"): an array that is meant to be used in a circle, with a front,
    a back, a count and the number of entries that have been polled away.

    [int] positions are [Z]; a read or write outside the array is [Undef].  The log
    calls back into the application with each entry it takes in or drops: the calls
    are recorded in [log_trace]. *)

From S2P Require Import Prelude.

Definition RAFT_LOGTYPE_NORMAL : Z := 0.
Definition RAFT_LOGTYPE_ADD_NONVOTING_NODE : Z := 1.
Definition RAFT_LOGTYPE_ADD_NODE : Z := 2.
Definition RAFT_LOGTYPE_REMOVE_NODE : Z := 3.
Definition RAFT_LOGTYPE_NUM : Z := 4.

(** [term] and [id] are [unsigned int], [type] an [int]. *)
Record raft_entry_t := mkEntry {
  term : Z;
  id : Z;
  type : Z;
  data : list Byte.byte;
}.

(** Which callbacks the application has set. *)
Record raft_cbs_t := mkCbs {
  send_requestvote : bool;
  send_appendentries : bool;
  applylog : bool;
  persist_vote : bool;
  persist_term : bool;
  log_offer : bool;
  log_poll_cb : bool;
  log_pop : bool;
  node_has_sufficient_logs : bool;
}.

Definition no_cbs : raft_cbs_t := mkCbs false false false false false false false false false.
Definition all_cbs : raft_cbs_t := mkCbs true true true true true true true true true.

Inductive log_event : Type :=
| Offered (e : raft_entry_t) (entry_idx : Z)
| Polled (e : option raft_entry_t) (entry_idx : Z)
| Popped (e : option raft_entry_t) (entry_idx : Z).

Record log_t := mkLog {
  size : Z;
  count : Z;
  front : Z;
  back : Z;
  base : Z;
  entries : list raft_entry_t;
  cb : option raft_cbs_t;
  log_trace : list log_event;
}.

Definition INITIAL_CAPACITY : Z := 10.
Definition zero_entry : raft_entry_t := mkEntry 0 0 0 [].

Definition log_new : log_t :=
  mkLog INITIAL_CAPACITY 0 0 0 0 (replicate (Z.to_nat INITIAL_CAPACITY) zero_entry) None [].

Definition log_set_callbacks (funcs : raft_cbs_t) (l : log_t) : log_t :=
  mkLog (size l) (count l) (front l) (back l) (base l) (entries l) (Some funcs) (log_trace l).

Definition set_range (c f b : Z) (l : log_t) : log_t :=
  mkLog (size l) c f b (base l) (entries l) (cb l) (log_trace l).
Definition set_entries (es : list raft_entry_t) (l : log_t) : log_t :=
  mkLog (size l) (count l) (front l) (back l) (base l) es (cb l) (log_trace l).
Definition log_emit (on : raft_cbs_t → bool) (ev : log_event) (l : log_t) : log_t :=
  match cb l with
  | Some funcs =>
      if on funcs then
        mkLog (size l) (count l) (front l) (back l) (base l) (entries l) (cb l)
          (ev :: log_trace l)
      else l
  | None => l
  end.

(** [entries\[i\]]. *)
Definition entry_at (i : Z) (l : log_t) : option raft_entry_t :=
  if 0 <=? i then entries l !! Z.to_nat i else None.

Definition read_slot (i : Z) : M log_t raft_entry_t := λ l,
  match entry_at i l with
  | Some e => Done e l
  | None => Undef
  end.

Definition write_slot (i : Z) (e : raft_entry_t) : M log_t unit := λ l,
  match entry_at i l with
  | Some _ => Done tt (set_entries (<[Z.to_nat i := e]> (entries l)) l)
  | None => Undef
  end.

(** The copying loop of [__raft__ensurecapacity]: [n] entries from [j], around the
    end of the array. *)
Fixpoint copy_entries (n : nat) (j : Z) : M log_t (list raft_entry_t) :=
  match n with
  | O => mret []
  | S n' =>
      l ← get;
      let j := if j =? size l then 0 else j in
      e ← read_slot j;
      rest ← copy_entries n' (j + 1);
      mret (e :: rest)
  end.

Definition ensurecapacity : M log_t unit :=
  l ← get;
  if count l <? size l then mret tt
  else
    temp ← copy_entries (Z.to_nat (count l)) (front l);
    modify (λ l, mkLog (size l * 2) (count l) 0 (count l) (base l)
      (temp ++ replicate (Z.to_nat (size l * 2) - length temp) zero_entry) (cb l) (log_trace l)).

Definition log_append_entry (c : raft_entry_t) : M log_t Z :=
  if id c =? 0 then mret (-1)
  else
    ensurecapacity ;;
    modify (λ l, log_emit log_offer (Offered c (back l)) l) ;;
    l ← get;
    write_slot (back l) c ;;
    modify (λ l, set_range (count l + 1) (front l) (back l + 1) l) ;;
    mret 0.

(** [log_get_from_idx]: the slot of the entry if there is one, and the number of
    entries that lie behind it in one piece. *)
Definition log_get_from_idx (idx : Z) : M log_t (option Z * Z) :=
  assert_ (0 <=? idx - 1) ;;
  l ← get;
  if (base l + count l <? idx) || (idx <? base l) then mret (None, 0)
  else
    let idx := idx - 1 in
    let i := Z.rem (front l + idx - base l) (size l) in
    let logs_till_end_of_log := if i <? back l then back l - i else size l - i in
    mret (Some i, logs_till_end_of_log).

Definition log_get_at_idx (idx : Z) : M log_t (option Z) :=
  assert_ (0 <=? idx - 1) ;;
  l ← get;
  if (base l + count l <? idx) || (idx <? base l) then mret None
  else
    let idx := idx - 1 in
    mret (Some (Z.rem (front l + idx - base l) (size l))).

Definition log_count (l : log_t) : Z := count l.

(** One turn of the loop of [log_delete]. *)
Definition pop_last (l : log_t) : log_t :=
  let l := log_emit log_pop (Popped (entry_at (back l - 1) l) (back l)) l in
  set_range (count l - 1) (front l) (back l - 1) l.

Definition log_delete (idx : Z) (l : log_t) : log_t :=
  let idx := idx - 1 - base l in
  Nat.iter (Z.to_nat (log_count l - idx)) pop_last l.

(** [log_poll]: the slot of the entry that is polled. *)
Definition log_poll (l : log_t) : option Z * log_t :=
  if log_count l =? 0 then (None, l)
  else
    let elem := front l in
    let l := log_emit log_poll_cb (Polled (entry_at (front l) l) (front l)) l in
    (Some elem, mkLog (size l) (count l - 1) (front l + 1) (back l) (base l + 1) (entries l)
      (cb l) (log_trace l)).

Definition log_peektail (l : log_t) : option Z :=
  if log_count l =? 0 then None
  else if back l =? 0 then Some (size l - 1)
  else Some (back l - 1).

Definition log_empty (l : log_t) : log_t := set_range 0 0 0 l.

Definition log_get_current_idx (l : log_t) : Z := log_count l + base l.

(** ** The log as a list

    Positions never wrap: [back] is not reset at the end of the array. *)
Record log_ok (l : log_t) : Prop := {
  lo_front : 0 ≤ front l;
  lo_count : 0 ≤ count l;
  lo_back : back l = front l + count l;
  lo_size : back l ≤ size l;
  lo_length : Z.of_nat (length (entries l)) = size l;
  lo_pos : 0 < size l;
  lo_base : 0 ≤ base l;
}.

(** The entries that are in the log, oldest first. *)
Definition log_list (l : log_t) : list raft_entry_t :=
  take (Z.to_nat (count l)) (drop (Z.to_nat (front l)) (entries l)).

Lemma log_list_length l : log_ok l → Z.of_nat (length (log_list l)) = count l.
Proof.
  intros [Hf Hc Hb Hs Hl Hp Hba]. unfold log_list. rewrite length_take, length_drop. lia.
Qed.

Lemma log_new_ok : log_ok log_new ∧ log_list log_new = [].
Proof. split; [|done]. by split. Qed.

Lemma log_emit_same on ev l :
  let l' := log_emit on ev l in
  size l' = size l ∧ count l' = count l ∧ front l' = front l ∧ back l' = back l ∧
  base l' = base l ∧ entries l' = entries l ∧ cb l' = cb l.
Proof. unfold log_emit. destruct (cb l) as [f|] eqn:E; [destruct (on f)|]; cbn; auto 8. Qed.

Lemma log_emit_ok on ev l : log_ok l → log_ok (log_emit on ev l) ∧ log_list (log_emit on ev l) = log_list l.
Proof.
  destruct (log_emit_same on ev l) as (Hs & Hc & Hf & Hb & Hba & He & _).
  intros [??????]. unfold log_list. rewrite Hc, Hf, He. split; [|done].
  split; rewrite ?Hs, ?Hc, ?Hf, ?Hb, ?Hba, ?He; done.
Qed.

Lemma entry_at_list l i :
  log_ok l → 0 ≤ i < count l → entry_at (front l + i) l = log_list l !! Z.to_nat i.
Proof.
  intros [Hf Hc Hb Hs Hl Hp Hba] Hi. unfold entry_at, log_list.
  rewrite (proj2 (Z.leb_le _ _)) by lia. rewrite lookup_take_lt by lia. rewrite lookup_drop.
  f_equal. lia.
Qed.

(** A full log is copied to a new array of twice the size. *)
Lemma copy_entries_spec l n : ∀ j,
  log_ok l → front l ≤ j → j + Z.of_nat n ≤ back l →
  copy_entries n j l = Done (take n (drop (Z.to_nat j) (entries l))) l.
Proof.
  induction n as [|n IH]; intros j Hok Hj Hn; [done|].
  destruct Hok as [Hf Hc Hb Hs Hl Hp Hba] eqn:Eok. cbn [copy_entries]. rewrite bind_get.
  destruct (Z.eqb_spec j (size l)); [lia|].
  destruct (lookup_lt_is_Some_2 (entries l) (Z.to_nat j)) as [e He]; [lia|].
  assert (read_slot j l = Done e l) as Hr.
  { unfold read_slot, entry_at. by rewrite (proj2 (Z.leb_le _ _)), He by lia. }
  rewrite (bind_Done _ _ _ _ _ Hr), (bind_Done _ _ _ _ _ (IH (j + 1) Hok ltac:(lia) ltac:(lia))).
  rewrite (drop_S _ _ _ He). cbn [take]. unfold mret, M_ret. do 4 f_equal. lia.
Qed.

Lemma ensurecapacity_spec l :
  log_ok l →
  ∃ l', ensurecapacity l = Done tt l' ∧ log_ok l' ∧ log_list l' = log_list l ∧
    base l' = base l ∧ count l' = count l ∧ count l' < size l' ∧ cb l' = cb l ∧
    (count l < size l ∧ l' = l ∨ count l = size l ∧ front l' = 0).
Proof.
  intros Hok. pose proof Hok as [Hf Hc Hb Hs Hl Hp Hba]. unfold ensurecapacity. rewrite bind_get.
  destruct (Z.ltb_spec (count l) (size l)) as [Hlt|Hge].
  - exists l. repeat split; auto.
  - rewrite (bind_Done _ _ _ _ _ (copy_entries_spec l (Z.to_nat (count l)) (front l) Hok
      ltac:(lia) ltac:(lia))).
    unfold modify. eexists. split; [reflexivity|].
    assert (length (take (Z.to_nat (count l)) (drop (Z.to_nat (front l)) (entries l)))
      = Z.to_nat (count l)) as Hlen by (rewrite length_take, length_drop; lia).
    split_and!; cbn; [|  |done|done|lia|done|right; split; [lia|done]].
    + split; cbn; try lia. rewrite length_app, length_replicate, Hlen. lia.
    + unfold log_list. cbn. rewrite drop_0, take_app_le by lia. rewrite take_take. f_equal. lia.
Qed.

Lemma write_slot_spec l c :
  log_ok l → back l < size l →
  ∃ l', (l ← get; write_slot (back l) c ;;
         modify (λ l, set_range (count l + 1) (front l) (back l + 1) l) ;; mret 0) l = Done 0 l' ∧ log_ok l' ∧ log_list l' = log_list l ++ [c] ∧ base l' = base l ∧
    count l' = count l + 1 ∧ cb l' = cb l ∧ front l' = front l.
Proof.
  intros [Hf Hc Hb Hs Hl Hp Hba] Hlt. unfold write_slot, entry_at. munfold.
  rewrite (proj2 (Z.leb_le _ _)) by lia.
  destruct (lookup_lt_is_Some_2 (entries l) (Z.to_nat (back l))) as [e He]; [lia|]. rewrite He.
  eexists. split; [reflexivity|]. split_and!; cbn; try done.
  - split; cbn; try lia. rewrite length_insert. lia.
  - unfold log_list. cbn.
    replace (Z.to_nat (count l + 1)) with (S (Z.to_nat (count l))) by lia.
    rewrite (take_S_r _ _ c).
    + f_equal. rewrite drop_insert_ge by lia. by rewrite take_insert_ge by lia.
    + rewrite lookup_drop.
      replace (Z.to_nat (front l) + Z.to_nat (count l))%nat with (Z.to_nat (back l)) by lia.
      apply list_lookup_insert_eq. lia.
Qed.

(** What is behind the last entry when the array is not full: room, or its end. *)
Lemma log_append_id c l : id c = 0 → log_append_entry c l = Done (-1) l.
Proof. intros Hid. unfold log_append_entry. by rewrite Hid. Qed.

Lemma log_append_spec c l :
  log_ok l → id c ≠ 0 → back l < size l ∨ count l = size l →
  ∃ l', log_append_entry c l = Done 0 l' ∧ log_ok l' ∧ log_list l' = log_list l ++ [c] ∧
    base l' = base l ∧ cb l' = cb l ∧ (front l = 0 → front l' = 0).
Proof.
  intros Hok Hid Hroom. unfold log_append_entry. rewrite (proj2 (Z.eqb_neq _ _)) by done.
  destruct (ensurecapacity_spec l Hok) as (l1 & Hrun & Hok1 & Hl1 & Hb1 & Hc1 & Hlt & Hcb & Hcase).
  rewrite (bind_Done _ _ _ _ _ Hrun). cbn beta.
  set (l2 := log_emit log_offer (Offered c (back l1)) l1).
  destruct (log_emit_ok log_offer (Offered c (back l1)) l1 Hok1) as [Hok2 Hl2].
  destruct (log_emit_same log_offer (Offered c (back l1)) l1) as (Es & Ec & Ef & Eb & Eba & Ee & Ecb).
  fold l2 in Hok2, Hl2, Es, Ec, Ef, Eb, Eba, Ecb.
  assert (back l2 < size l2) as Hlt2.
  { rewrite Eb, Es. destruct Hcase as [[? ->]|[? Hf]]; [lia|].
    rewrite (lo_back l1 Hok1), Hf. lia. }
  destruct (write_slot_spec l2 c Hok2 Hlt2) as (l3 & Hw & Hok3 & Hl3 & Hb3 & Hc3 & Hcb3 & Hf3).
  exists l3. split_and!.
  - exact Hw.
  - done.
  - by rewrite Hl3, Hl2, Hl1.
  - by rewrite Hb3, Eba, Hb1.
  - by rewrite Hcb3, Ecb, Hcb.
  - intros Hf. rewrite Hf3, Ef. by destruct Hcase as [[_ ->]|[_ ->]].
Qed.

(** Appending at the end of the array is outside of it when entries have been
    polled from the front. *)
Lemma log_append_overflow c l :
  log_ok l → id c ≠ 0 → back l = size l → count l < size l → log_append_entry c l = Undef.
Proof.
  intros Hok Hid Hb Hc. unfold log_append_entry. rewrite (proj2 (Z.eqb_neq _ _)) by done.
  destruct (ensurecapacity_spec l Hok) as (l1 & Hrun & Hok1 & _ & _ & _ & _ & _ & Hcase).
  rewrite (bind_Done _ _ _ _ _ Hrun). destruct Hcase as [[_ ->]|[? _]]; [|lia].
  unfold modify at 1. munfold.
  destruct (log_emit_same log_offer (Offered c (back l)) l) as (Es & Ec & Ef & Eb & Eba & Ee & Ecb).
  unfold write_slot, entry_at. rewrite Eb, Ee. rewrite (proj2 (Z.leb_le _ _)) by (destruct Hok; lia).
  rewrite lookup_ge_None_2; [done|]. destruct Hok. lia.
Qed.

Lemma pop_last_spec l :
  log_ok l → 0 < count l →
  log_ok (pop_last l) ∧ log_list (pop_last l) = take (Z.to_nat (count l - 1)) (log_list l) ∧
  base (pop_last l) = base l ∧ cb (pop_last l) = cb l ∧ count (pop_last l) = count l - 1 ∧
  front (pop_last l) = front l.
Proof.
  intros Hok Hc. unfold pop_last. set (ev := Popped _ _).
  destruct (log_emit_ok log_pop ev l Hok) as [Hok1 _].
  destruct (log_emit_same log_pop ev l) as (Es & Ec & Ef & Eb & Eba & Ee & Ecb).
  destruct Hok1. split_and!; cbn; try (congruence || lia).
  - split; cbn; lia || congruence.
  - unfold log_list. cbn. rewrite Ef, Ee, Ec, take_take. f_equal. lia.
Qed.

Lemma log_delete_spec idx l :
  log_ok l → base l < idx →
  let l' := log_delete idx l in
  log_ok l' ∧ log_list l' = take (Z.to_nat (idx - 1 - base l)) (log_list l) ∧ base l' = base l ∧
  cb l' = cb l ∧ front l' = front l.
Proof.
  intros Hok Hidx. unfold log_delete, log_count.
  remember (Z.to_nat (count l - (idx - 1 - base l))) as n eqn:Hn.
  assert (n = O ∧ count l ≤ idx - 1 - base l ∨
    Z.of_nat n = count l - (idx - 1 - base l) ∧ idx - 1 - base l < count l) as Hcase by lia.
  clear Hn. cut (log_ok (Nat.iter n pop_last l) ∧
    log_list (Nat.iter n pop_last l) = take (Z.to_nat (count l - Z.of_nat n)) (log_list l) ∧
    base (Nat.iter n pop_last l) = base l ∧ cb (Nat.iter n pop_last l) = cb l ∧
    count (Nat.iter n pop_last l) = count l - Z.of_nat n ∧ front (Nat.iter n pop_last l) = front l).
  { intros (H1 & H2 & H3 & H4 & H5 & H6). split_and!; try done. rewrite H2.
    pose proof (log_list_length l Hok). destruct Hcase as [[-> ?]|[? ?]].
    - rewrite !take_ge by lia. done.
    - f_equal. lia. }
  assert (Z.of_nat n ≤ count l) as Hle.
  { destruct Hcase as [[-> _]|[? ?]]; [destruct Hok; lia|lia]. }
  clear Hcase. induction n as [|n IH].
  - pose proof (log_list_length l Hok). change (Z.of_nat 0) with 0. rewrite Z.sub_0_r.
    change (Nat.iter 0 pop_last l) with l. rewrite take_ge by lia. auto 8.
  - destruct IH as (H1 & H2 & H3 & H4 & H5 & H6); [lia|].
    destruct (pop_last_spec (Nat.iter n pop_last l) H1) as (G1 & G2 & G3 & G4 & G5 & G6); [lia|].
    change (Nat.iter (S n) pop_last l) with (pop_last (Nat.iter n pop_last l)).
    split_and!; [done| |congruence|congruence|lia|congruence].
    rewrite G2, H2, H5, take_take. f_equal. lia.
Qed.

(** Reading an entry of the log finds it. *)
Lemma log_get_at_spec idx l :
  log_ok l → base l < idx →
  ∃ r, log_get_at_idx idx l = Done r l ∧
    match r with
    | Some i => entry_at i l = log_list l !! Z.to_nat (idx - 1 - base l) ∧ idx ≤ base l + count l
    | None => base l + count l < idx ∧ log_list l !! Z.to_nat (idx - 1 - base l) = None
    end.
Proof.
  intros Hok Hidx. pose proof Hok as [Hf Hc Hb Hs Hl Hp Hba].
  unfold log_get_at_idx, assert_. munfold. rewrite (proj2 (Z.leb_le _ _)) by lia.
  rewrite (proj2 (Z.ltb_ge idx (base l))) by lia. rewrite orb_false_r.
  pose proof (log_list_length l Hok).
  destruct (Z.ltb_spec (base l + count l) idx) as [Hlt|Hge]; eexists; (split; [reflexivity|]); cbn.
  - split; [done|]. apply lookup_ge_None_2. lia.
  - split; [|done]. rewrite Z.rem_small by lia.
    replace (front l + (idx - 1) - base l) with (front l + (idx - 1 - base l)) by lia.
    apply entry_at_list; [done|lia].
Qed.

Lemma log_get_from_spec idx l :
  log_ok l → base l < idx →
  ∃ r, log_get_from_idx idx l = Done r l ∧
    match r.1 with
    | Some i => 0 ≤ i - front l ∧ idx - 1 - base l = i - front l ∧ r.2 = count l - (i - front l) ∧ 0 < r.2
    | None => r.2 = 0 ∧ base l + count l < idx
    end.
Proof.
  intros Hok Hidx. pose proof Hok as [Hf Hc Hb Hs Hl Hp Hba].
  unfold log_get_from_idx, assert_. munfold. rewrite (proj2 (Z.leb_le _ _)) by lia.
  rewrite (proj2 (Z.ltb_ge idx (base l))) by lia. rewrite orb_false_r.
  destruct (Z.ltb_spec (base l + count l) idx) as [Hlt|Hge]; eexists; (split; [reflexivity|]).
  - done.
  - cbn. rewrite Z.rem_small by lia. rewrite (proj2 (Z.ltb_lt _ _)) by lia. lia.
Qed.

Lemma log_peektail_spec l :
  log_ok l →
  match log_peektail l with
  | Some i => entry_at i l = last (log_list l) ∧ log_list l ≠ []
  | None => log_list l = []
  end.
Proof.
  intros Hok. pose proof Hok as [Hf Hc Hb Hs Hl Hp Hba]. pose proof (log_list_length l Hok) as Hlen.
  unfold log_peektail, log_count. destruct (Z.eqb_spec (count l) 0) as [H0|H0].
  { destruct (log_list l); [done|cbn in Hlen; lia]. }
  rewrite (proj2 (Z.eqb_neq _ _)) by lia.
  replace (back l - 1) with (front l + (count l - 1)) by lia.
  rewrite entry_at_list by (done || lia). rewrite last_lookup. split.
  - f_equal. lia.
  - intros E. rewrite E in Hlen. cbn in Hlen. lia.
Qed.

Lemma log_poll_spec l :
  log_ok l →
  log_ok (log_poll l).2 ∧ base (log_poll l).2 = base l + (if count l =? 0 then 0 else 1) ∧
  log_list (log_poll l).2 = tail (log_list l) ∧
  match (log_poll l).1 with
  | Some i => entry_at i l = head (log_list l) ∧ is_Some (head (log_list l))
  | None => log_list l = []
  end.
Proof.
  intros Hok. pose proof Hok as [Hf Hc Hb Hs Hl Hp Hba]. pose proof (log_list_length l Hok) as Hlen.
  unfold log_poll, log_count. destruct (Z.eqb_spec (count l) 0) as [H0|H0]; cbn.
  { destruct (log_list l) eqn:E; [|cbn in Hlen; lia]. split_and!; try done; lia. }
  set (ev := Polled _ _).
  destruct (log_emit_same log_poll_cb ev l) as (Es & Ec & Ef & Eb & Eba & Ee & Ecb).
  pose proof (entry_at_list l 0 Hok ltac:(lia)) as Hhead.
  rewrite Z.add_0_r in Hhead. change (Z.to_nat 0) with O in Hhead.
  split; [split; cbn; lia || congruence|]. split; [cbn; lia|]. split.
  - unfold log_list. cbn. rewrite Ee, Ef, Ec.
    replace (Z.to_nat (front l + 1)) with (S (Z.to_nat (front l))) by lia.
    destruct (lookup_lt_is_Some_2 (entries l) (Z.to_nat (front l))) as [e He]; [lia|].
    rewrite (drop_S _ _ _ He). replace (Z.to_nat (count l)) with (S (Z.to_nat (count l - 1))) by lia.
    done.
  - rewrite Hhead. destruct (log_list l); [cbn in Hlen; lia|by split].
Qed.

(** ** Sequences of operations *)

Inductive log_op : Type :=
| OpAppend (c : raft_entry_t)
| OpDelete (idx : Z)
| OpPoll
| OpGet (idx : Z)
| OpFrom (idx : Z)
| OpTail
| OpCurrentIdx.

Inductive log_ret : Type :=
| RInt (z : Z)
| REntry (e : option raft_entry_t)
| REntries (es : list raft_entry_t).

(** What a caller sees who reads through the pointers it gets. *)
Definition deref (i : option Z) : M log_t log_ret :=
  match i with
  | Some i => e ← read_slot i; mret (REntry (Some e))
  | None => mret (REntry None)
  end.

Fixpoint read_run (n : nat) (i : Z) : M log_t (list raft_entry_t) :=
  match n with
  | O => mret []
  | S n' => e ← read_slot i; rest ← read_run n' (i + 1); mret (e :: rest)
  end.

Definition log_step (op : log_op) : M log_t log_ret :=
  match op with
  | OpAppend c => r ← log_append_entry c; mret (RInt r)
  | OpDelete idx => modify (log_delete idx) ;; mret (RInt 0)
  | OpPoll =>
      l ← get;
      r ← deref (log_poll l).1;
      put (log_poll l).2 ;;
      mret r
  | OpGet idx => i ← log_get_at_idx idx; deref i
  | OpFrom idx =>
      r ← log_get_from_idx idx;
      es ← match r.1 with Some i => read_run (Z.to_nat r.2) i | None => mret [] end;
      mret (REntries es)
  | OpTail => l ← get; deref (log_peektail l)
  | OpCurrentIdx => l ← get; mret (RInt (log_get_current_idx l))
  end.

Fixpoint log_steps (ops : list log_op) : M log_t (list log_ret) :=
  match ops with
  | [] => mret []
  | op :: rest => r ← log_step op; rs ← log_steps rest; mret (r :: rs)
  end.

(** The same on a list of entries behind [b] that are gone. *)
Definition list_step (op : log_op) (b : Z) (es : list raft_entry_t) : log_ret * Z * list raft_entry_t :=
  match op with
  | OpAppend c => if id c =? 0 then (RInt (-1), b, es) else (RInt 0, b, es ++ [c])
  | OpDelete idx => (RInt 0, b, take (Z.to_nat (idx - 1 - b)) es)
  | OpPoll => (REntry (head es), if bool_decide (es = []) then b else b + 1, tail es)
  | OpGet idx => (REntry (es !! Z.to_nat (idx - 1 - b)), b, es)
  | OpFrom idx => (REntries (drop (Z.to_nat (idx - 1 - b)) es), b, es)
  | OpTail => (REntry (last es), b, es)
  | OpCurrentIdx => (RInt (b + Z.of_nat (length es)), b, es)
  end.

Fixpoint list_steps (ops : list log_op) (b : Z) (es : list raft_entry_t)
  : list log_ret * Z * list raft_entry_t :=
  match ops with
  | [] => ([], b, es)
  | op :: rest =>
      let '(r, b, es) := list_step op b es in
      let '(rs, b, es) := list_steps rest b es in
      (r :: rs, b, es)
  end.

(** Indices of entries that have not been polled away. *)
Definition op_ok (b : Z) (op : log_op) : Prop :=
  match op with
  | OpDelete idx | OpGet idx | OpFrom idx => b < idx
  | _ => True
  end.

Fixpoint ops_ok (ops : list log_op) (b : Z) (es : list raft_entry_t) : Prop :=
  match ops with
  | [] => True
  | op :: rest => op_ok b op ∧ ops_ok rest (list_step op b es).1.2 (list_step op b es).2
  end.

Lemma deref_spec l (i : option Z) e :
  match i with Some i => entry_at i l = e ∧ is_Some e | None => e = None end →
  deref i l = Done (REntry e) l.
Proof.
  destruct i as [i|]; [|by intros ->]. intros [He [e' ->]]. unfold deref, read_slot. munfold.
  by rewrite He.
Qed.

Lemma read_run_spec l n : ∀ i,
  log_ok l → front l ≤ i → i + Z.of_nat n = back l →
  read_run n i l = Done (drop (Z.to_nat (i - front l)) (log_list l)) l.
Proof.
  induction n as [|n IH]; intros i Hok Hi Hn; pose proof (log_list_length l Hok);
    pose proof (lo_back l Hok).
  - rewrite drop_ge by lia. done.
  - destruct (lookup_lt_is_Some_2 (log_list l) (Z.to_nat (i - front l))) as [e He]; [lia|].
    assert (read_slot i l = Done e l) as Hr.
    { unfold read_slot. replace i with (front l + (i - front l)) by lia.
      by rewrite entry_at_list, He by (done || lia). }
    cbn [read_run]. rewrite (bind_Done _ _ _ _ _ Hr).
    rewrite (bind_Done _ _ _ _ _ (IH (i + 1) Hok ltac:(lia) ltac:(lia))).
    rewrite (drop_S _ _ _ He). unfold mret, M_ret. do 3 f_equal. lia.
Qed.

Lemma list_None_Some {A} (o : option A) : o ≠ None → is_Some o.
Proof. destruct o; [by eexists|done]. Qed.

Definition is_poll (op : log_op) : bool := match op with OpPoll => true | _ => false end.

(** Each operation answers as the list does, or writes behind the array. *)
Definition step_agrees (op : log_op) (l : log_t) : Prop :=
  ∃ r l', log_step op l = Done r l' ∧ log_ok l' ∧
    list_step op (base l) (log_list l) = (r, base l', log_list l') ∧
    (is_poll op = false → front l = 0 → front l' = 0).

Lemma append_agrees c l :
  log_ok l → step_agrees (OpAppend c) l ∨ log_step (OpAppend c) l = Undef ∧ front l ≠ 0.
Proof.
  intros Hok. pose proof Hok as [Hf Hc Hb Hs Hl Hp Hba]. unfold step_agrees. cbn [log_step list_step].
  destruct (Z.eqb_spec (id c) 0) as [H0|H0].
  { left. rewrite (bind_Done _ _ _ _ _ (log_append_id c l H0)). by eexists _, _. }
  destruct (decide (back l < size l ∨ count l = size l)) as [Hroom|Hfull].
  - left. destruct (log_append_spec c l Hok H0 Hroom) as (l' & Hrun & Hok' & Hl' & Hb' & _ & Hf').
    rewrite (bind_Done _ _ _ _ _ Hrun). eexists _, _. split; [reflexivity|].
    by rewrite Hl', Hb'.
  - right. split; [|lia]. unfold mbind, M_bind. by rewrite log_append_overflow by (done || lia).
Qed.

Lemma reading_agrees op l :
  log_ok l → op_ok (base l) op →
  match op with OpGet _ | OpFrom _ | OpTail | OpCurrentIdx => step_agrees op l | _ => True end.
Proof.
  intros Hok Hop. pose proof (log_list_length l Hok) as Hlen.
  assert (∀ r, log_step op l = Done r l → list_step op (base l) (log_list l) = (r, base l, log_list l) →
    step_agrees op l) as Hsame by (intros r H1 H2; exists r, l; by rewrite H1, H2).
  destruct op as [|? | |idx|idx| |]; try done; cbn [log_step list_step] in *.
  - destruct (log_get_at_spec idx l Hok Hop) as (r & Hrun & Hr). eapply Hsame; [|reflexivity].
    rewrite (bind_Done _ _ _ _ _ Hrun). apply deref_spec. destruct r as [i|]; [|apply Hr].
    destruct Hr as [-> Hle]. split; [done|]. apply lookup_lt_is_Some_2. cbn in Hop. lia.
  - destruct (log_get_from_spec idx l Hok Hop) as (r & Hrun & Hr). eapply Hsame; [|reflexivity].
    rewrite (bind_Done _ _ _ _ _ Hrun). destruct (r.1) as [i|].
    + destruct Hr as (H0 & Hi & Hn & Hp). pose proof (lo_back l Hok).
      assert (front l ≤ i) as Hfi by lia.
      assert (i + Z.of_nat (Z.to_nat r.2) = back l) as Hib by lia.
      rewrite (bind_Done _ _ _ _ _ (read_run_spec l (Z.to_nat r.2) i Hok Hfi Hib)).
      by rewrite Hi.
    + rewrite bind_ret. rewrite drop_ge by lia. done.
  - eapply Hsame; [|reflexivity]. rewrite bind_get. apply deref_spec.
    pose proof (log_peektail_spec l Hok) as Htail. destruct (log_peektail l).
    + destruct Htail as [-> Hne]. split; [done|]. by apply last_is_Some.
    + by rewrite Htail.
  - eapply Hsame; [|reflexivity]. rewrite bind_get. unfold log_get_current_idx, log_count.
    unfold mret, M_ret. do 2 f_equal. lia.
Qed.

Lemma log_step_spec op l :
  log_ok l → op_ok (base l) op →
  step_agrees op l ∨ log_step op l = Undef ∧ front l ≠ 0.
Proof.
  intros Hok Hop. pose proof (reading_agrees op l Hok Hop) as Hread.
  destruct op as [c|idx| |idx|idx| |]; cbn [op_ok] in Hop; [by apply append_agrees| | |by left..]; left.
  - destruct (log_delete_spec idx l Hok Hop) as (Hok' & Hl' & Hb' & _ & Hf').
    exists (RInt 0), (log_delete idx l). cbn [list_step]. rewrite Hl', Hb', Hf'. by split.
  - destruct (log_poll_spec l Hok) as (Hok' & Hb' & Hl' & Hr).
    exists (REntry (head (log_list l))), (log_poll l).2. split_and!; [|done| |done].
    + cbn [log_step]. rewrite bind_get.
      assert (deref (log_poll l).1 l = Done (REntry (head (log_list l))) l) as Hd.
      { apply deref_spec. destruct ((log_poll l).1); [done|by rewrite Hr]. }
      by rewrite (bind_Done _ _ _ _ _ Hd).
    + cbn [list_step]. rewrite Hb', Hl'. pose proof (log_list_length l Hok).
      do 2 f_equal. case_bool_decide as Hnil; destruct (Z.eqb_spec (count l) 0); try done; try lia.
      * rewrite Hnil in *. cbn in *. lia.
      * destruct (log_list l); [done|]. cbn in *. lia.
Qed.

Lemma log_steps_spec ops : ∀ l,
  log_ok l → ops_ok ops (base l) (log_list l) →
  (∃ rs l', log_steps ops l = Done rs l' ∧ log_ok l' ∧
     list_steps ops (base l) (log_list l) = (rs, base l', log_list l')) ∨
  log_steps ops l = Undef ∧ (front l ≠ 0 ∨ existsb is_poll ops = true).
Proof.
  induction ops as [|op ops IH]; intros l Hok Hops; [left; by exists [], l|].
  destruct Hops as [Hop Hrest]. cbn [log_steps list_steps].
  destruct (log_step_spec op l Hok Hop) as [(r & l1 & Hrun & Hok1 & Heq & Hf1)|[Hrun Hf]].
  - rewrite Heq in Hrest |- *. rewrite (bind_Done _ _ _ _ _ Hrun).
    destruct (IH l1 Hok1 Hrest) as [(rs & l2 & Hrun2 & Hok2 & Heq2)|[Hrun2 Hcause]].
    + left. exists (r :: rs), l2. rewrite (bind_Done _ _ _ _ _ Hrun2), Heq2. done.
    + right. split; [unfold mbind, M_bind; by rewrite Hrun2|].
      cbn. destruct (is_poll op) eqn:Ep; [by right|]. destruct Hcause as [Hf|Hp]; [left|by right].
      intros H0. apply Hf. by apply Hf1.
  - right. split; [unfold mbind, M_bind; by rewrite Hrun|by left].
Qed.

(** ** Properties *)

(** C16: the log is a list.  Every sequence of appends, deletions from an index,
    polls and reads (one entry, the run of entries from an index, the last entry,
    the current index), with indices above what has been polled away ([ops_ok], so never
    0: [log_delete 0] and an append write in front of the array), started on a
    new log, answers as the same operations on a list behind a base; without polls
    it always ends, and with polls it ends or writes outside the array. *)
Theorem log_refines_list ops :
  ops_ok ops 0 [] →
  (∃ rs l, log_steps ops log_new = Done rs l ∧ log_ok l ∧
     list_steps ops 0 [] = (rs, base l, log_list l)) ∨
  log_steps ops log_new = Undef ∧ existsb is_poll ops = true.
Proof.
  intros Hops. destruct log_new_ok as [Hok Hnil].
  destruct (log_steps_spec ops log_new Hok) as [Hrun|[Hrun [Hf|Hp]]]; auto.
Qed.

(** The circle is not closed.  Appending to a log writes behind the array
    exactly when the back has reached its end while entries have been polled from
    the front: [back] is never taken round, and the array only grows when the count
    has reached its size. *)
Theorem append_overflows_iff_polled_at_end c l :
  log_ok l → id c ≠ 0 →
  (log_append_entry c l = Undef ↔ back l = size l ∧ count l < size l) ∧
  (back l = size l → count l < size l → front l ≠ 0).
Proof.
  intros Hok Hid. pose proof Hok as [Hf Hc Hb Hs Hl Hp Hba]. split; [split|lia].
  - intros Hu. destruct (decide (back l < size l ∨ count l = size l)) as [Hroom|]; [|lia].
    destruct (log_append_spec c l Hok Hid Hroom) as (l' & Hrun & _). congruence.
  - intros [? ?]. by apply log_append_overflow.
Qed.

(** ** Witnesses *)
Definition entry_no (i : Z) : raft_entry_t := mkEntry 1 i RAFT_LOGTYPE_NORMAL [].

Lemma log_refines_list_witness :
  (∃ rs l, log_steps ((OpAppend ∘ entry_no <$> [1; 2; 3]) ++ [OpDelete 3; OpFrom 1; OpPoll]) log_new
     = Done rs l ∧ log_ok l ∧
     list_steps ((OpAppend ∘ entry_no <$> [1; 2; 3]) ++ [OpDelete 3; OpFrom 1; OpPoll]) 0 []
     = (rs, base l, log_list l)) ∨
  log_steps ((OpAppend ∘ entry_no <$> [1; 2; 3]) ++ [OpDelete 3; OpFrom 1; OpPoll]) log_new = Undef ∧
  true = true.
Proof. apply log_refines_list. cbn. lia. Defined.

(** Ten entries fill the array; one is polled and an eleventh appended. *)
Definition polled_at_end : log_t :=
  match log_steps ((OpAppend ∘ entry_no <$> [1; 2; 3; 4; 5; 6; 7; 8; 9; 10]) ++ [OpPoll]) log_new with
  | Done _ l => l
  | _ => log_new
  end.

Lemma append_overflows_iff_polled_at_end_witness :
  base polled_at_end = 1 ∧ log_append_entry (entry_no 11) polled_at_end = Undef.
Proof.
  split; [reflexivity|]. apply (append_overflows_iff_polled_at_end (entry_no 11) polled_at_end).
  - by split; vm_compute.
  - done.
  - by split; vm_compute.
Defined.

(** Deletion from index 0 takes one entry more than there is: the next append writes in
    front of the array. *)
Example delete_zero : log_steps [OpDelete 0; OpAppend (entry_no 1)] log_new = Undef.
Proof. reflexivity. Qed.
