(* ===== verification/Raft.v ===== *)
(** The Raft server of src/raft/raft.hpp: its nodes, its state and every handler.

    A peer is an object: [objs] are the [raft_node_private_t]s that are allocated,
    and a [raft_node_t*] is a location or null.  The callbacks the application has
    set are recorded, with their arguments, in [calls], newest first; they only
    observe.  [int]s are [Z], with the two additions that messages and time can make
    overflow checked, and with the conversions to [unsigned] written out where a term
    of an entry is compared with an [int].  Debug output is left out. *)

From S2P Require Import Prelude RaftLog.

Inductive raft_state_e : Type :=
| RAFT_STATE_NONE | RAFT_STATE_FOLLOWER | RAFT_STATE_CANDIDATE | RAFT_STATE_LEADER.

#[export] Instance raft_state_eq_dec : EqDecision raft_state_e.
Proof. solve_decision. Defined.

(** ** Messages.  [n_entries] is the length of the list. *)
Record msg_entry_response_t := mkEntryResponse { er_id : Z; er_term : Z; er_idx : Z }.

Record msg_requestvote_t := mkRequestVote {
  rv_term : Z;
  rv_candidate_id : Z;
  rv_last_log_idx : Z;
  rv_last_log_term : Z;
}.

Record msg_requestvote_response_t := mkVoteResponse { vr_term : Z; vr_vote_granted : Z }.

Record msg_appendentries_t := mkAppendEntries {
  ae_term : Z;
  ae_prev_log_idx : Z;
  ae_prev_log_term : Z;
  ae_leader_commit : Z;
  ae_entries : list raft_entry_t;
}.

Record msg_appendentries_response_t := mkAppendResponse {
  ar_term : Z;
  ar_success : Z;
  ar_current_idx : Z;
  ar_first_idx : Z;
}.

(** ** Peers *)
Record raft_node_t := mkNode { next_idx : Z; match_idx : Z; flags : Z; node_id : Z }.

Inductive raft_call : Type :=
| SendRequestVote (n : loc) (msg : msg_requestvote_t)
| SendAppendEntries (n : loc) (msg : msg_appendentries_t)
| ApplyLog (e : raft_entry_t)
| PersistVote (nodeid : Z)
| PersistTerm (t : Z)
| NodeHasSufficientLogs (n : loc).

Record raft_server_t := mkServer {
  current_term : Z;
  voted_for : Z;
  log : log_t;
  commit_idx : Z;
  last_applied_idx : Z;
  state : raft_state_e;
  timeout_elapsed : Z;
  nodes : list loc;
  election_timeout : Z;
  request_timeout : Z;
  current_leader : option loc;
  cbs : raft_cbs_t;
  node : option loc;
  voting_cfg_change_log_idx : Z;
  objs : gmap loc raft_node_t;
  calls : list raft_call;
}.

Definition set_current_term (v : Z) (s : raft_server_t) : raft_server_t :=
  mkServer v (voted_for s) (log s) (commit_idx s) (last_applied_idx s) (state s)
    (timeout_elapsed s) (nodes s) (election_timeout s) (request_timeout s)
    (current_leader s) (cbs s) (node s) (voting_cfg_change_log_idx s) (objs s) (calls s).
Definition set_voted_for (v : Z) (s : raft_server_t) : raft_server_t :=
  mkServer (current_term s) v (log s) (commit_idx s) (last_applied_idx s) (state s)
    (timeout_elapsed s) (nodes s) (election_timeout s) (request_timeout s)
    (current_leader s) (cbs s) (node s) (voting_cfg_change_log_idx s) (objs s) (calls s).
Definition set_log (v : log_t) (s : raft_server_t) : raft_server_t :=
  mkServer (current_term s) (voted_for s) v (commit_idx s) (last_applied_idx s) (state s)
    (timeout_elapsed s) (nodes s) (election_timeout s) (request_timeout s)
    (current_leader s) (cbs s) (node s) (voting_cfg_change_log_idx s) (objs s) (calls s).
Definition set_commit_idx (v : Z) (s : raft_server_t) : raft_server_t :=
  mkServer (current_term s) (voted_for s) (log s) v (last_applied_idx s) (state s)
    (timeout_elapsed s) (nodes s) (election_timeout s) (request_timeout s)
    (current_leader s) (cbs s) (node s) (voting_cfg_change_log_idx s) (objs s) (calls s).
Definition set_last_applied_idx (v : Z) (s : raft_server_t) : raft_server_t :=
  mkServer (current_term s) (voted_for s) (log s) (commit_idx s) v (state s)
    (timeout_elapsed s) (nodes s) (election_timeout s) (request_timeout s)
    (current_leader s) (cbs s) (node s) (voting_cfg_change_log_idx s) (objs s) (calls s).
Definition set_state (v : raft_state_e) (s : raft_server_t) : raft_server_t :=
  mkServer (current_term s) (voted_for s) (log s) (commit_idx s) (last_applied_idx s) v
    (timeout_elapsed s) (nodes s) (election_timeout s) (request_timeout s)
    (current_leader s) (cbs s) (node s) (voting_cfg_change_log_idx s) (objs s) (calls s).
Definition set_timeout_elapsed (v : Z) (s : raft_server_t) : raft_server_t :=
  mkServer (current_term s) (voted_for s) (log s) (commit_idx s) (last_applied_idx s)
    (state s) v (nodes s) (election_timeout s) (request_timeout s) (current_leader s)
    (cbs s) (node s) (voting_cfg_change_log_idx s) (objs s) (calls s).
Definition set_nodes (v : list loc) (s : raft_server_t) : raft_server_t :=
  mkServer (current_term s) (voted_for s) (log s) (commit_idx s) (last_applied_idx s)
    (state s) (timeout_elapsed s) v (election_timeout s) (request_timeout s)
    (current_leader s) (cbs s) (node s) (voting_cfg_change_log_idx s) (objs s) (calls s).
Definition set_election_timeout (v : Z) (s : raft_server_t) : raft_server_t :=
  mkServer (current_term s) (voted_for s) (log s) (commit_idx s) (last_applied_idx s)
    (state s) (timeout_elapsed s) (nodes s) v (request_timeout s) (current_leader s) (cbs s)
    (node s) (voting_cfg_change_log_idx s) (objs s) (calls s).
Definition set_request_timeout (v : Z) (s : raft_server_t) : raft_server_t :=
  mkServer (current_term s) (voted_for s) (log s) (commit_idx s) (last_applied_idx s)
    (state s) (timeout_elapsed s) (nodes s) (election_timeout s) v (current_leader s)
    (cbs s) (node s) (voting_cfg_change_log_idx s) (objs s) (calls s).
Definition set_current_leader (v : option loc) (s : raft_server_t) : raft_server_t :=
  mkServer (current_term s) (voted_for s) (log s) (commit_idx s) (last_applied_idx s)
    (state s) (timeout_elapsed s) (nodes s) (election_timeout s) (request_timeout s) v
    (cbs s) (node s) (voting_cfg_change_log_idx s) (objs s) (calls s).
Definition set_cbs (v : raft_cbs_t) (s : raft_server_t) : raft_server_t :=
  mkServer (current_term s) (voted_for s) (log s) (commit_idx s) (last_applied_idx s)
    (state s) (timeout_elapsed s) (nodes s) (election_timeout s) (request_timeout s)
    (current_leader s) v (node s) (voting_cfg_change_log_idx s) (objs s) (calls s).
Definition set_node (v : option loc) (s : raft_server_t) : raft_server_t :=
  mkServer (current_term s) (voted_for s) (log s) (commit_idx s) (last_applied_idx s)
    (state s) (timeout_elapsed s) (nodes s) (election_timeout s) (request_timeout s)
    (current_leader s) (cbs s) v (voting_cfg_change_log_idx s) (objs s) (calls s).
Definition set_voting_cfg_change_log_idx (v : Z) (s : raft_server_t) : raft_server_t :=
  mkServer (current_term s) (voted_for s) (log s) (commit_idx s) (last_applied_idx s)
    (state s) (timeout_elapsed s) (nodes s) (election_timeout s) (request_timeout s)
    (current_leader s) (cbs s) (node s) v (objs s) (calls s).
Definition set_objs (v : gmap loc raft_node_t) (s : raft_server_t) : raft_server_t :=
  mkServer (current_term s) (voted_for s) (log s) (commit_idx s) (last_applied_idx s)
    (state s) (timeout_elapsed s) (nodes s) (election_timeout s) (request_timeout s)
    (current_leader s) (cbs s) (node s) (voting_cfg_change_log_idx s) v (calls s).
Definition set_calls (v : list raft_call) (s : raft_server_t) : raft_server_t :=
  mkServer (current_term s) (voted_for s) (log s) (commit_idx s) (last_applied_idx s)
    (state s) (timeout_elapsed s) (nodes s) (election_timeout s) (request_timeout s)
    (current_leader s) (cbs s) (node s) (voting_cfg_change_log_idx s) (objs s) v.

Definition raft_new : raft_server_t :=
  mkServer 0 (-1) log_new 0 0 RAFT_STATE_FOLLOWER 0 [] 1000 200 None no_cbs None (-1) ∅ [].

Abbreviation MR := (M raft_server_t).

Definition num_nodes (s : raft_server_t) : Z := Z.of_nat (length (nodes s)).

(** A callback is made if the application has set it. *)
Definition call (on : raft_cbs_t → bool) (c : raft_call) (s : raft_server_t) : raft_server_t :=
  if on (cbs s) then set_calls (c :: calls s) s else s.

Definition raft_set_callbacks (funcs : raft_cbs_t) (s : raft_server_t) : raft_server_t :=
  set_log (log_set_callbacks funcs (log s)) (set_cbs funcs s).

Definition on_log {A} (m : M log_t A) : MR A := zoom log set_log m.

(** An addition of [int]s. *)
Definition int_add (a b : Z) : MR Z :=
  if (- 2 ^ 31 <=? a + b) && (a + b <? 2 ^ 31) then mret (a + b) else undef.

(** ** [raft_node_*] *)
Definition RAFT_NODE_VOTED_FOR_ME : Z := 1.
Definition RAFT_NODE_VOTING : Z := Z.shiftl 1 1.
Definition RAFT_NODE_HAS_SUFFICIENT_LOG : Z := Z.shiftl 1 2.

Definition raft_node_new (nodeid : Z) : raft_node_t := mkNode 1 0 RAFT_NODE_VOTING nodeid.

Definition set_flags (fl : Z) (nd : raft_node_t) : raft_node_t :=
  mkNode (next_idx nd) (match_idx nd) fl (node_id nd).
Definition raft_node_set_next_idx (nextIdx : Z) (nd : raft_node_t) : raft_node_t :=
  mkNode (if nextIdx <? 1 then 1 else nextIdx) (match_idx nd) (flags nd) (node_id nd).
Definition raft_node_set_match_idx (matchIdx : Z) (nd : raft_node_t) : raft_node_t :=
  mkNode (next_idx nd) matchIdx (flags nd) (node_id nd).

Definition raft_node_vote_for_me (vote : bool) (nd : raft_node_t) : raft_node_t :=
  if vote then set_flags (Z.lor (flags nd) RAFT_NODE_VOTED_FOR_ME) nd
  else set_flags (Z.land (flags nd) (Z.lnot RAFT_NODE_VOTED_FOR_ME)) nd.
Definition raft_node_has_vote_for_me (nd : raft_node_t) : bool :=
  negb (Z.land (flags nd) RAFT_NODE_VOTED_FOR_ME =? 0).

(** [~RAFT_NODE_VOTING] is [~1 << 1]: the macro has no parentheses. *)
Definition raft_node_set_voting (voting : bool) (nd : raft_node_t) : raft_node_t :=
  if voting then set_flags (Z.lor (flags nd) RAFT_NODE_VOTING) nd
  else set_flags (Z.land (flags nd) (Z.shiftl (Z.lnot 1) 1)) nd.
Definition raft_node_is_voting (nd : raft_node_t) : bool :=
  negb (Z.land (flags nd) RAFT_NODE_VOTING =? 0).

Definition raft_node_set_has_sufficient_logs (nd : raft_node_t) : raft_node_t :=
  set_flags (Z.lor (flags nd) RAFT_NODE_HAS_SUFFICIENT_LOG) nd.
Definition raft_node_has_sufficient_logs (nd : raft_node_t) : bool :=
  negb (Z.land (flags nd) RAFT_NODE_HAS_SUFFICIENT_LOG =? 0).

(** Through a pointer: null and freed nodes are undefined behaviour. *)
Definition node_obj (n : loc) : MR raft_node_t := λ s,
  match objs s !! n with
  | Some nd => Done nd s
  | None => Undef
  end.

Definition node_upd (n : loc) (f : raft_node_t → raft_node_t) : MR unit :=
  nd ← node_obj n;
  modify (λ s, set_objs (<[n := f nd]> (objs s)) s).

Definition not_null {A} (p : option A) : MR A :=
  match p with Some a => mret a | None => undef end.

(** ** Properties of the server *)
Definition raft_get_nodeid : MR Z :=
  s ← get;
  n ← not_null (node s);
  nd ← node_obj n;
  mret (node_id nd).

Definition raft_set_current_term (t : Z) : MR unit :=
  modify (λ s,
    if current_term s <? t then
      call persist_term (PersistTerm t) (set_voted_for (-1) (set_current_term t s))
    else s).

Definition raft_get_current_idx (s : raft_server_t) : Z := log_get_current_idx (log s).

Definition raft_set_commit_idx (idx : Z) : MR unit :=
  s ← get;
  assert_ (commit_idx s <=? idx) ;;
  assert_ (idx <=? raft_get_current_idx s) ;;
  modify (set_commit_idx idx).

Definition raft_set_state (st : raft_state_e) (s : raft_server_t) : raft_server_t :=
  set_state st (match st with RAFT_STATE_LEADER => set_current_leader (node s) s | _ => s end).

Definition raft_is_follower (s : raft_server_t) : bool := bool_decide (state s = RAFT_STATE_FOLLOWER).
Definition raft_is_leader (s : raft_server_t) : bool := bool_decide (state s = RAFT_STATE_LEADER).
Definition raft_is_candidate (s : raft_server_t) : bool := bool_decide (state s = RAFT_STATE_CANDIDATE).

(** The slot of an entry, or null. *)
Definition raft_get_entry_from_idx (etyidx : Z) : MR (option Z) := on_log (log_get_at_idx etyidx).
Definition entry (i : Z) : MR raft_entry_t := on_log (read_slot i).
Definition raft_get_entries_from_idx (idx : Z) : MR (option Z * Z) := on_log (log_get_from_idx idx).

Definition raft_get_last_log_term : MR Z :=
  s ← get;
  let current_idx := raft_get_current_idx s in
  if 0 <? current_idx then
    ety ← raft_get_entry_from_idx current_idx;
    match ety with
    | Some i => e ← entry i; mret (wraps 32 (term e))
    | None => mret 0
    end
  else mret 0.

Fixpoint find_node (nodeid : Z) (ns : list loc) : MR (option loc) :=
  match ns with
  | [] => mret None
  | n :: rest =>
      nd ← node_obj n;
      if nodeid =? node_id nd then mret (Some n) else find_node nodeid rest
  end.

Definition raft_get_node (nodeid : Z) : MR (option loc) :=
  s ← get; find_node nodeid (nodes s).

Definition raft_get_current_leader : MR Z :=
  s ← get;
  match current_leader s with
  | Some n => nd ← node_obj n; mret (node_id nd)
  | None => mret (-1)
  end.

(** ** Voting *)
Definition raft_vote_for_nodeid (nodeid : Z) : MR unit :=
  modify (λ s, call persist_vote (PersistVote nodeid) (set_voted_for nodeid s)).

Definition raft_vote (n : option loc) : MR unit :=
  match n with
  | Some n => nd ← node_obj n; raft_vote_for_nodeid (node_id nd)
  | None => raft_vote_for_nodeid (-1)
  end.

Definition raft_votes_is_majority (num_nodes nvotes : Z) : bool :=
  if num_nodes <? nvotes then false
  else let half := Z.quot num_nodes 2 in half + 1 <=? nvotes.

Fixpoint count_votes (ns : list loc) (votes : Z) : MR Z :=
  match ns with
  | [] => mret votes
  | n :: rest =>
      s ← get;
      if bool_decide (node s = Some n) then count_votes rest votes
      else
        nd ← node_obj n;
        count_votes rest
          (if raft_node_is_voting nd && raft_node_has_vote_for_me nd then votes + 1 else votes)
  end.

Definition raft_get_nvotes_for_me : MR Z :=
  s ← get;
  votes ← count_votes (nodes s) 0;
  me ← raft_get_nodeid;
  mret (if voted_for s =? me then votes + 1 else votes).

(** ** Sending *)
Definition raft_send_requestvote (n : loc) : MR Z :=
  s ← get;
  assert_ (bool_decide (node s ≠ Some n)) ;;
  last_log_term ← raft_get_last_log_term;
  candidate_id ← raft_get_nodeid;
  let rv := mkRequestVote (current_term s) candidate_id (raft_get_current_idx s) last_log_term in
  modify (call send_requestvote (SendRequestVote n rv)) ;;
  mret 0.

Definition raft_send_appendentries (n : loc) : MR Z :=
  s ← get;
  assert_ (bool_decide (node s ≠ Some n)) ;;
  if negb (send_appendentries (cbs s)) then mret (-1)
  else
    nd ← node_obj n;
    etys ← raft_get_entries_from_idx (next_idx nd);
    es ← match etys.1 with
         | Some i => on_log (read_run (Z.to_nat etys.2) i)
         | None => mret []
         end;
    prev ← (if 1 <? next_idx nd then
              prev_ety ← raft_get_entry_from_idx (next_idx nd - 1);
              match prev_ety with
              | Some i => e ← entry i; mret (next_idx nd - 1, wraps 32 (term e))
              | None => mret (next_idx nd - 1, 0)
              end
            else mret (0, 0));
    let ae := mkAppendEntries (current_term s) prev.1 prev.2 (commit_idx s) es in
    modify (call send_appendentries (SendAppendEntries n ae)) ;;
    mret 0.

(** [for (i = 0; i < me->num_nodes; i++)] over the nodes that satisfy a test. *)
Fixpoint for_nodes (test : raft_server_t → loc → MR bool) (body : loc → MR unit) (ns : list loc)
  : MR unit :=
  match ns with
  | [] => mret tt
  | n :: rest =>
      s ← get;
      b ← test s n;
      (if b : bool then body n else mret tt) ;;
      for_nodes test body rest
  end.

(** [me->node != me->nodes\[i\]], with or without [raft_node_is_voting]. *)
Definition other (s : raft_server_t) (n : loc) : MR bool := mret (bool_decide (node s ≠ Some n)).
Definition other_voting (s : raft_server_t) (n : loc) : MR bool :=
  if bool_decide (node s = Some n) then mret false
  else nd ← node_obj n; mret (raft_node_is_voting nd).

Definition raft_send_appendentries_all : MR unit :=
  modify (set_timeout_elapsed 0) ;;
  s ← get;
  for_nodes other (λ n, raft_send_appendentries n ;; mret tt) (nodes s).

(** ** Changing role *)
Definition raft_become_follower : MR unit := modify (raft_set_state RAFT_STATE_FOLLOWER).

Definition raft_become_leader : MR unit :=
  modify (raft_set_state RAFT_STATE_LEADER) ;;
  s ← get;
  for_nodes other_voting (λ n,
    s ← get;
    node_upd n (raft_node_set_next_idx (raft_get_current_idx s + 1)) ;;
    node_upd n (raft_node_set_match_idx 0) ;;
    raft_send_appendentries n ;; mret tt) (nodes s).

(** [rand] is what [rand()] returns. *)
Definition raft_become_candidate (rand : Z) : MR unit :=
  s ← get;
  t ← int_add (current_term s) 1;
  raft_set_current_term t ;;
  for_nodes (λ _ _, mret true) (λ n, node_upd n (raft_node_vote_for_me false)) (nodes s) ;;
  raft_vote (node s) ;;
  modify (set_current_leader None) ;;
  modify (raft_set_state RAFT_STATE_CANDIDATE) ;;
  s ← get;
  (if election_timeout s =? 0 then undef
   else modify (set_timeout_elapsed (Z.rem rand (election_timeout s)))) ;;
  for_nodes other_voting (λ n, raft_send_requestvote n ;; mret tt) (nodes s).

Definition raft_election_start (rand : Z) : MR unit := raft_become_candidate rand.

(** ** The log and the state machine *)
Definition raft_entry_is_voting_cfg_change (ety : raft_entry_t) : bool :=
  (type ety =? RAFT_LOGTYPE_ADD_NODE) || (type ety =? RAFT_LOGTYPE_REMOVE_NODE).

Definition raft_entry_is_cfg_change (ety : raft_entry_t) : bool :=
  (type ety =? RAFT_LOGTYPE_ADD_NODE) || (type ety =? RAFT_LOGTYPE_ADD_NONVOTING_NODE)
  || (type ety =? RAFT_LOGTYPE_REMOVE_NODE).

Definition raft_append_entry (ety : raft_entry_t) : MR Z :=
  (if raft_entry_is_voting_cfg_change ety then
     modify (λ s, set_voting_cfg_change_log_idx (raft_get_current_idx s) s)
   else mret tt) ;;
  on_log (log_append_entry ety).

Definition raft_apply_entry : MR Z :=
  s ← get;
  if last_applied_idx s =? commit_idx s then mret (-1)
  else
    let log_idx := last_applied_idx s + 1 in
    e ← raft_get_entry_from_idx log_idx;
    match e with
    | None => mret (-1)
    | Some i =>
        e ← entry i;
        modify (set_last_applied_idx (last_applied_idx s + 1)) ;;
        modify (call applylog (ApplyLog e)) ;;
        (if log_idx =? voting_cfg_change_log_idx s then
           modify (set_voting_cfg_change_log_idx (-1))
         else mret tt) ;;
        mret 0
    end.

(** [while (last_applied < commit) raft_apply_entry()]. *)
Fixpoint raft_apply_all (fuel : nat) : MR unit :=
  match fuel with
  | O => λ _, NoFuel
  | S fuel' =>
      s ← get;
      if last_applied_idx s <? commit_idx s then raft_apply_entry ;; raft_apply_all fuel'
      else mret tt
  end.

Definition raft_periodic (rand msec_since_last_period : Z) : MR Z :=
  s ← get;
  t ← int_add (timeout_elapsed s) msec_since_last_period;
  modify (set_timeout_elapsed t) ;;
  s ← get;
  (if raft_is_leader s then
     if request_timeout s <=? timeout_elapsed s then raft_send_appendentries_all else mret tt
   else if election_timeout s <=? timeout_elapsed s then
     if 1 <? num_nodes s then raft_election_start rand else mret tt
   else mret tt) ;;
  s ← get;
  if last_applied_idx s <? commit_idx s then
    r ← raft_apply_entry;
    mret (if r =? -1 then -1 else 0)
  else mret 0.

(** ** [raft_recv_requestvote] *)
Definition raft_already_voted (s : raft_server_t) : bool := negb (voted_for s =? -1).

Definition should_grant_vote (vr : msg_requestvote_t) : MR bool :=
  s ← get;
  if rv_term vr <? current_term s then mret false
  else if raft_already_voted s then mret false
  else
    let current_idx := raft_get_current_idx s in
    if current_idx =? 0 then mret true
    else
      e ← raft_get_entry_from_idx current_idx;
      i ← not_null e;
      e ← entry i;
      if term e <? wrapu 32 (rv_last_log_term vr) then mret true
      else mret ((wrapu 32 (rv_last_log_term vr) =? term e) && (current_idx <=? rv_last_log_idx vr)).

Definition raft_recv_requestvote (vr : msg_requestvote_t) : MR msg_requestvote_response_t :=
  s ← get;
  (if current_term s <? rv_term vr then
     raft_set_current_term (rv_term vr) ;; raft_become_follower
   else mret tt) ;;
  grant ← should_grant_vote vr;
  (if grant : bool then
     s ← get;
     assert_ (negb (raft_is_leader s || raft_is_candidate s)) ;;
     raft_vote_for_nodeid (rv_candidate_id vr) ;;
     modify (set_current_leader None) ;;
     modify (set_timeout_elapsed 0)
   else mret tt) ;;
  s ← get;
  mret (mkVoteResponse (current_term s) (if grant : bool then 1 else 0)).

Definition raft_recv_requestvote_response (n : option loc) (r : msg_requestvote_response_t) : MR Z :=
  s ← get;
  if negb (raft_is_candidate s) then mret 0
  else if current_term s <? vr_term r then
    raft_set_current_term (vr_term r) ;; raft_become_follower ;; mret 0
  else if negb (current_term s =? vr_term r) then mret 0
  else
    (if vr_vote_granted r =? 1 then
       (match n with
        | Some n => node_upd n (raft_node_vote_for_me true)
        | None => mret tt
        end) ;;
       votes ← raft_get_nvotes_for_me;
       (if raft_votes_is_majority (num_nodes s) votes then raft_become_leader else mret tt)
     else mret tt) ;;
    mret 0.

(** ** [raft_recv_appendentries] *)

(** The entry before the message: [None] to go on, or the [current_idx] of the failure. *)
Definition check_prev (ae : msg_appendentries_t) : MR (option Z) :=
  if 0 <? ae_prev_log_idx ae then
    e ← raft_get_entry_from_idx (ae_prev_log_idx ae);
    s ← get;
    match e with
    | None => mret (Some (raft_get_current_idx s))
    | Some i =>
        if raft_get_current_idx s <? ae_prev_log_idx ae then mret (Some (raft_get_current_idx s))
        else
          e ← entry i;
          if negb (term e =? wrapu 32 (ae_prev_log_term ae)) then
            assert_ (commit_idx s <? ae_prev_log_idx ae) ;;
            on_log (modify (log_delete (ae_prev_log_idx ae))) ;;
            mret (Some (ae_prev_log_idx ae - 1))
          else mret None
    end
  else mret None.

(** An empty message deletes what follows its index. *)
Definition trim_after_heartbeat (ae : msg_appendentries_t) : MR unit :=
  s ← get;
  if bool_decide (ae_entries ae = []) && (0 <? ae_prev_log_idx ae)
     && (ae_prev_log_idx ae + 1 <? raft_get_current_idx s) then
    assert_ (commit_idx s <? ae_prev_log_idx ae + 1) ;;
    on_log (modify (log_delete (ae_prev_log_idx ae + 1)))
  else mret tt.

(** The first loop: the entries from the first one that is missing or conflicts,
    their position in the message, and [r->current_idx]. *)
Fixpoint scan_entries (prev i current_idx : Z) (etys : list raft_entry_t)
  : MR (list raft_entry_t * Z * Z) :=
  match etys with
  | [] => mret ([], i, current_idx)
  | ety :: rest =>
      let ety_index := prev + 1 + i in
      existing_ety ← raft_get_entry_from_idx ety_index;
      match existing_ety with
      | Some slot =>
          e ← entry slot;
          if negb (term e =? term ety) then
            s ← get;
            assert_ (commit_idx s <? ety_index) ;;
            on_log (modify (log_delete ety_index)) ;;
            mret (etys, i, ety_index)
          else scan_entries prev (i + 1) ety_index rest
      | None => mret (etys, i, ety_index)
      end
  end.

(** The second loop: [None] if an entry is refused. *)
Fixpoint append_rest (prev i current_idx : Z) (etys : list raft_entry_t) : MR (option Z) :=
  match etys with
  | [] => mret (Some current_idx)
  | ety :: rest =>
      e ← raft_append_entry ety;
      if e =? -1 then mret None else append_rest prev (i + 1) (prev + 1 + i) rest
  end.

Definition advance_commit (leader_commit : Z) : MR unit :=
  s ← get;
  if commit_idx s <? leader_commit then
    let last_log_idx := Z.max (raft_get_current_idx s) 1 in
    raft_set_commit_idx (Z.min last_log_idx leader_commit)
  else mret tt.

Definition fail_append (r_term current_idx : Z) : MR (Z * msg_appendentries_response_t) :=
  mret (-1, mkAppendResponse r_term 0 current_idx 0).

(** The role after a message of the term: [None] if the message is refused. *)
Definition appendentries_term (ae : msg_appendentries_t) : MR (option Z) :=
  s ← get;
  if raft_is_candidate s && (current_term s =? ae_term ae) then
    modify (set_voted_for (-1)) ;; raft_become_follower ;; mret (Some (current_term s))
  else if current_term s <? ae_term ae then
    raft_set_current_term (ae_term ae) ;; raft_become_follower ;; mret (Some (ae_term ae))
  else if ae_term ae <? current_term s then mret None
  else mret (Some (current_term s)).

Definition raft_recv_appendentries (n : option loc) (ae : msg_appendentries_t)
  : MR (Z * msg_appendentries_response_t) :=
  modify (set_timeout_elapsed 0) ;;
  s ← get;
  accepted ← appendentries_term ae;
  match accepted with
  | None => fail_append (current_term s) (raft_get_current_idx s)
  | Some r_term =>
      refused ← check_prev ae;
      match refused with
      | Some idx => fail_append r_term idx
      | None =>
          trim_after_heartbeat ae ;;
          scanned ← scan_entries (ae_prev_log_idx ae) 0 (ae_prev_log_idx ae) (ae_entries ae);
          let '(rest, i, current_idx) := scanned in
          appended ← append_rest (ae_prev_log_idx ae) i current_idx rest;
          match appended with
          | None => s ← get; fail_append r_term (raft_get_current_idx s)
          | Some current_idx =>
              advance_commit (ae_leader_commit ae) ;;
              modify (set_current_leader n) ;;
              mret (0, mkAppendResponse r_term 1 current_idx (ae_prev_log_idx ae + 1))
          end
      end
  end.

(** ** [raft_recv_appendentries_response] *)

(** The voting nodes whose matching entry is of the term and not before [point]. *)
Fixpoint count_matching (point votes : Z) (ns : list loc) : MR Z :=
  match ns with
  | [] => mret votes
  | n :: rest =>
      s ← get;
      b ← other_voting s n;
      if b : bool then
        nd ← node_obj n;
        if 0 <? match_idx nd then
          ety ← raft_get_entry_from_idx (match_idx nd);
          i ← not_null ety;
          e ← entry i;
          count_matching point
            (if (term e =? wrapu 32 (current_term s)) && (point <=? match_idx nd) then votes + 1
             else votes) rest
        else count_matching point votes rest
      else count_matching point votes rest
  end.

Definition report_sufficient_logs (n : loc) (r : msg_appendentries_response_t) : MR unit :=
  s ← get;
  nd ← node_obj n;
  if negb (raft_node_is_voting nd) && (voting_cfg_change_log_idx s =? -1)
     && (raft_get_current_idx s <=? ar_current_idx r + 1)
     && node_has_sufficient_logs (cbs s) && negb (raft_node_has_sufficient_logs nd) then
    node_upd n raft_node_set_has_sufficient_logs ;;
    modify (call node_has_sufficient_logs (NodeHasSufficientLogs n))
  else mret tt.

Definition raft_recv_appendentries_response (n : option loc) (r : msg_appendentries_response_t)
  : MR Z :=
  stale ← (if negb (ar_current_idx r =? 0) then
             n ← not_null n;
             nd ← node_obj n;
             mret (ar_current_idx r <=? match_idx nd)
           else mret false);
  if stale : bool then mret 0
  else
  s ← get;
  if negb (raft_is_leader s) then mret (-1)
  else if current_term s <? ar_term r then
    raft_set_current_term (ar_term r) ;; raft_become_follower ;; mret 0
  else if negb (current_term s =? ar_term r) then mret 0
  else match n with
  | None => mret 0
  | Some n =>
      if ar_success r =? 0 then
        nd ← node_obj n;
        assert_ (0 <=? next_idx nd) ;;
        (if ar_current_idx r <? next_idx nd - 1 then
           node_upd n (raft_node_set_next_idx
             (Z.min (ar_current_idx r + 1) (raft_get_current_idx s)))
         else node_upd n (raft_node_set_next_idx (next_idx nd - 1))) ;;
        raft_send_appendentries n ;;
        mret 0
      else
        assert_ (ar_current_idx r <=? raft_get_current_idx s) ;;
        node_upd n (raft_node_set_next_idx (ar_current_idx r + 1)) ;;
        node_upd n (raft_node_set_match_idx (ar_current_idx r)) ;;
        report_sufficient_logs n r ;;
        let point := ar_current_idx r in
        votes ← count_matching point 1 (nodes s);
        (if (Z.quot (num_nodes s) 2 <? votes) && (commit_idx s <? point)
         then raft_set_commit_idx point else mret tt) ;;
        nd ← node_obj n;
        more ← raft_get_entry_from_idx (next_idx nd);
        (match more with
         | Some _ => raft_send_appendentries n ;; mret tt
         | None => mret tt
         end) ;;
        mret 0
  end.

(** ** Entries from clients *)
Definition raft_recv_entry (e : raft_entry_t) : MR (Z * option msg_entry_response_t) :=
  s ← get;
  if raft_entry_is_voting_cfg_change e && negb (voting_cfg_change_log_idx s =? -1) then
    mret (-1, None)
  else if negb (raft_is_leader s) then mret (-1, None)
  else
    raft_append_entry (mkEntry (wrapu 32 (current_term s)) (id e) (type e) (data e)) ;;
    for_nodes other_voting (λ n,
      nd ← node_obj n;
      s ← get;
      if next_idx nd =? raft_get_current_idx s then raft_send_appendentries n ;; mret tt
      else mret tt) (nodes s) ;;
    (if num_nodes s =? 1 then modify (λ s, set_commit_idx (raft_get_current_idx s) s) else mret tt) ;;
    s ← get;
    let r := mkEntryResponse (id e) (current_term s) (raft_get_current_idx s) in
    (if raft_entry_is_voting_cfg_change e then
       modify (λ s, set_voting_cfg_change_log_idx (raft_get_current_idx s) s)
     else mret tt) ;;
    mret (0, Some r).

Definition raft_msg_entry_response_committed (r : msg_entry_response_t) : MR Z :=
  ety ← raft_get_entry_from_idx (er_idx r);
  match ety with
  | None => mret 0
  | Some i =>
      e ← entry i;
      if negb (wrapu 32 (er_term r) =? term e) then mret (-1)
      else s ← get; mret (if er_idx r <=? commit_idx s then 1 else 0)
  end.

(** ** Membership *)
Definition raft_add_node (nodeid : Z) (is_self : bool) : MR loc :=
  found ← raft_get_node nodeid;
  match found with
  | Some n => node_upd n (raft_node_set_voting true) ;; mret n
  | None =>
      s ← get;
      let n := fresh (dom (objs s)) in
      modify (λ s, set_nodes (nodes s ++ [n]) (set_objs (<[n := raft_node_new nodeid]> (objs s)) s)) ;;
      modify (λ s, if is_self then set_node (Some n) s else s) ;;
      mret n
  end.

Definition raft_add_non_voting_node (nodeid : Z) (is_self : bool) : MR loc :=
  n ← raft_add_node nodeid is_self;
  node_upd n (raft_node_set_voting false) ;;
  mret n.

(** The new array has room for one node less: a node that is not in the list is not
    missing from it, and the copy writes behind the array. *)
Definition raft_remove_node (n : loc) : MR unit :=
  s ← get;
  let rest := filter (λ n', n' ≠ n) (nodes s) in
  if (length rest <? length (nodes s))%nat then
    node_obj n ;;
    modify (λ s, set_nodes rest (set_objs (delete n (objs s)) s))
  else undef.

Definition raft_set_election_timeout (millisec : Z) : MR unit := modify (set_election_timeout millisec).
Definition raft_set_request_timeout (millisec : Z) : MR unit := modify (set_request_timeout millisec).

(** ** Accessors *)
Definition raft_node_get_next_idx (nd : raft_node_t) : Z := next_idx nd.
Definition raft_node_get_match_idx (nd : raft_node_t) : Z := match_idx nd.
Definition raft_node_get_id (nd : raft_node_t) : Z := node_id nd.
Definition raft_get_election_timeout (s : raft_server_t) : Z := election_timeout s.
Definition raft_get_request_timeout (s : raft_server_t) : Z := request_timeout s.
Definition raft_get_timeout_elapsed (s : raft_server_t) : Z := timeout_elapsed s.
Definition raft_get_log_count (s : raft_server_t) : Z := log_count (log s).
Definition raft_get_voted_for (s : raft_server_t) : Z := voted_for s.
Definition raft_get_current_term (s : raft_server_t) : Z := current_term s.
Definition raft_set_last_applied_idx (idx : Z) : MR unit := modify (set_last_applied_idx idx).
Definition raft_get_last_applied_idx (s : raft_server_t) : Z := last_applied_idx s.
Definition raft_get_commit_idx (s : raft_server_t) : Z := commit_idx s.
Definition raft_get_state (s : raft_server_t) : raft_state_e := state s.
Definition raft_get_node_from_idx (idx : Z) : MR loc :=
  s ← get;
  if 0 <=? idx then not_null (nodes s !! Z.to_nat idx) else undef.
Definition raft_get_current_leader_node (s : raft_server_t) : option loc := current_leader s.
