(* ===== verification/RaftElection.v ===== *)
(** Elections: what each handler of the Raft server does to the term, the vote and
    the role, and that a cluster of such servers never has two leaders in one term. *)

From S2P Require Import Prelude RaftLog Raft.

(** ** Quiet computations: term, vote, role, membership and ballots stay *)
Definition ballot (nd : raft_node_t) : Z * bool * bool :=
  (node_id nd, raft_node_is_voting nd, raft_node_has_vote_for_me nd).

Definition ballots (s : raft_server_t) (n : loc) : option (Z * bool * bool) := ballot <$> objs s !! n.

Definition role (s : raft_server_t) : Z * Z * raft_state_e := (current_term s, voted_for s, state s).

Definition same_nodes (s s' : raft_server_t) : Prop :=
  nodes s' = nodes s ∧ node s' = node s ∧ ∀ n, ballots s' n = ballots s n.

Lemma same_nodes_trans s1 s2 s3 : same_nodes s1 s2 → same_nodes s2 s3 → same_nodes s1 s3.
Proof.
  intros (H1 & H2 & H3) (G1 & G2 & G3). split; [congruence|]. split; [congruence|].
  intros n. by rewrite G3.
Qed.

Definition quiet (s s' : raft_server_t) : Prop := role s' = role s ∧ same_nodes s s'.

#[export] Instance quiet_preorder : PreOrder quiet.
Proof.
  split; [by intros s|]. intros s1 s2 s3 [H1 H2] [G1 G2].
  split; [congruence|by eapply same_nodes_trans].
Qed.

Lemma keeps_on_log {A} (m : M log_t A) : keeps quiet (on_log m).
Proof.
  intros s a s'. unfold on_log, zoom. destruct (m (log s)); try done. by intros [= _ <-].
Qed.

Lemma keeps_node_obj n : keeps quiet (node_obj n).
Proof. intros s a s'. unfold node_obj. destruct (_ !! _); [|done]. by intros [= _ <-]. Qed.

Lemma keeps_node_upd n f : (∀ nd, ballot (f nd) = ballot nd) → keeps quiet (node_upd n f).
Proof.
  intros Hf s a s'. unfold node_upd, node_obj. munfold.
  destruct (objs s !! n) as [nd|] eqn:E; [|done]. intros [= _ <-].
  split; [done|]. split; [done|]. split; [done|]. intros n'. unfold ballots. cbn.
  destruct (decide (n' = n)) as [->|Hne].
  - rewrite lookup_insert_eq, E. cbn. by rewrite Hf.
  - by rewrite lookup_insert_ne.
Qed.

Lemma quiet_call on c s : quiet s (call on c s).
Proof. unfold call. by destruct (on (cbs s)). Qed.

Lemma keeps_call on c : keeps quiet (modify (call on c)).
Proof. apply keeps_modify. apply quiet_call. Qed.

Lemma keeps_not_null {A} (p : option A) : keeps quiet (not_null p).
Proof. destruct p; cbn; eauto with keeps typeclass_instances. Qed.

#[export] Hint Resolve keeps_on_log keeps_node_obj keeps_call keeps_not_null : keeps.
#[export] Hint Extern 5 (keeps quiet (modify _)) => apply keeps_modify; done : keeps.
#[export] Hint Extern 5 (keeps quiet (node_upd _ _)) => apply keeps_node_upd; done : keeps.
#[export] Hint Extern 5 (PreOrder _) => typeclasses eauto : keeps.

Lemma keeps_int_add a b : keeps quiet (int_add a b).
Proof. unfold int_add. repeat keep_step. Qed.

Lemma keeps_entry_at i : keeps quiet (raft_get_entry_from_idx i).
Proof. apply keeps_on_log. Qed.

Lemma keeps_entry i : keeps quiet (entry i).
Proof. apply keeps_on_log. Qed.

Lemma keeps_nodeid : keeps quiet raft_get_nodeid.
Proof. unfold raft_get_nodeid. repeat keep_step. Qed.
#[export] Hint Resolve keeps_int_add keeps_entry_at keeps_entry keeps_nodeid : keeps.

Lemma keeps_last_log_term : keeps quiet raft_get_last_log_term.
Proof. unfold raft_get_last_log_term. repeat keep_step. Qed.
#[export] Hint Resolve keeps_last_log_term : keeps.

Lemma keeps_find_node v ns : keeps quiet (find_node v ns).
Proof. induction ns; cbn; repeat keep_step. Qed.

Lemma keeps_send_requestvote n : keeps quiet (raft_send_requestvote n).
Proof. unfold raft_send_requestvote. repeat keep_step. Qed.

Lemma keeps_entries_from i : keeps quiet (raft_get_entries_from_idx i).
Proof. apply keeps_on_log. Qed.
#[export] Hint Resolve keeps_find_node keeps_send_requestvote keeps_entries_from : keeps.

Lemma keeps_send_appendentries n : keeps quiet (raft_send_appendentries n).
Proof. unfold raft_send_appendentries. repeat keep_step. Qed.
#[export] Hint Resolve keeps_send_appendentries : keeps.

Lemma keeps_for_nodes test body ns :
  (∀ s n, keeps quiet (test s n)) → (∀ n, keeps quiet (body n)) →
  keeps quiet (for_nodes test body ns).
Proof. intros Ht Hb. induction ns; cbn; repeat keep_step. Qed.

Lemma keeps_other s n : keeps quiet (other s n).
Proof. unfold other. repeat keep_step. Qed.

Lemma keeps_other_voting s n : keeps quiet (other_voting s n).
Proof. unfold other_voting. repeat keep_step. Qed.
#[export] Hint Resolve keeps_for_nodes keeps_other keeps_other_voting : keeps.

(** Along the structure of a handler, loops included. *)
Ltac quiet_steps := repeat first [keep_step | apply keeps_for_nodes].

Lemma keeps_send_all : keeps quiet raft_send_appendentries_all.
Proof. unfold raft_send_appendentries_all. quiet_steps. Qed.

Lemma keeps_append_entry e : keeps quiet (raft_append_entry e).
Proof. unfold raft_append_entry. quiet_steps. Qed.

Lemma keeps_apply_entry : keeps quiet raft_apply_entry.
Proof. unfold raft_apply_entry. quiet_steps. Qed.

Lemma keeps_set_commit i : keeps quiet (raft_set_commit_idx i).
Proof. unfold raft_set_commit_idx. quiet_steps. Qed.

Lemma keeps_count_votes ns : ∀ votes, keeps quiet (count_votes ns votes).
Proof. induction ns; intros votes; cbn; quiet_steps. Qed.
#[export] Hint Resolve keeps_send_all keeps_append_entry keeps_apply_entry keeps_set_commit
  keeps_count_votes : keeps.

Lemma keeps_nvotes : keeps quiet raft_get_nvotes_for_me.
Proof. unfold raft_get_nvotes_for_me. quiet_steps. Qed.

Lemma keeps_should_grant vr : keeps quiet (should_grant_vote vr).
Proof. unfold should_grant_vote. quiet_steps. Qed.

Lemma keeps_check_prev ae : keeps quiet (check_prev ae).
Proof. unfold check_prev. quiet_steps. Qed.

Lemma keeps_trim ae : keeps quiet (trim_after_heartbeat ae).
Proof. unfold trim_after_heartbeat. quiet_steps. Qed.

Lemma keeps_scan etys : ∀ prev i c, keeps quiet (scan_entries prev i c etys).
Proof. induction etys; intros prev i c; cbn; quiet_steps. Qed.

Lemma keeps_append_rest etys : ∀ prev i c, keeps quiet (append_rest prev i c etys).
Proof. induction etys; intros prev i c; cbn; quiet_steps. Qed.

Lemma keeps_advance_commit lc : keeps quiet (advance_commit lc).
Proof. unfold advance_commit. quiet_steps. Qed.

Lemma keeps_fail t i : keeps quiet (fail_append t i).
Proof. unfold fail_append. quiet_steps. Qed.

Lemma keeps_count_matching ns : ∀ point votes, keeps quiet (count_matching point votes ns).
Proof. induction ns; intros point votes; cbn; quiet_steps. Qed.

Lemma ballot_sufficient nd : ballot (raft_node_set_has_sufficient_logs nd) = ballot nd.
Proof.
  unfold ballot, raft_node_is_voting, raft_node_has_vote_for_me, raft_node_set_has_sufficient_logs.
  cbn [flags set_flags node_id]. by rewrite !Z.land_lor_distr_l, !Z.lor_0_r.
Qed.

Lemma keeps_report n r : keeps quiet (report_sufficient_logs n r).
Proof.
  unfold report_sufficient_logs. quiet_steps.
  apply keeps_node_upd, ballot_sufficient.
Qed.
#[export] Hint Resolve keeps_nvotes keeps_should_grant keeps_check_prev keeps_trim keeps_scan
  keeps_append_rest keeps_advance_commit keeps_fail keeps_count_matching keeps_report : keeps.

Lemma keeps_recv_entry e : keeps quiet (raft_recv_entry e).
Proof. unfold raft_recv_entry. quiet_steps. Qed.

(** ** What each handler does to the role *)

(** A larger term is adopted, with no vote, as a follower. *)
Definition stepped_down (t : Z) (s s' : raft_server_t) : Prop :=
  current_term s < t ∧ role s' = (t, -1, RAFT_STATE_FOLLOWER) ∧ same_nodes s s'.

Lemma step_down_spec t s :
  current_term s < t →
  ∃ s', (raft_set_current_term t ;; raft_become_follower) s = Done tt s' ∧ stepped_down t s s'.
Proof.
  intros Hlt. unfold raft_set_current_term, raft_become_follower. munfold.
  rewrite (proj2 (Z.ltb_lt _ _)) by done. eexists. split; [reflexivity|].
  split; [done|]. unfold call. by destruct (persist_term (cbs _)).
Qed.

Lemma keeps_Done {S A} (R : S → S → Prop) (m : M S A) s a s' : keeps R m → m s = Done a s' → R s s'.
Proof. intros Hk Hrun. by eapply Hk. Qed.

(** Running [m] first. *)
Lemma bind_inv {S A B} (m : M S A) (f : A → M S B) s b s' :
  (m ≫= f) s = Done b s' → ∃ a s1, m s = Done a s1 ∧ f a s1 = Done b s'.
Proof. unfold mbind, M_bind. destruct (m s) as [a s1| | | | |]; try done. eauto. Qed.

Lemma stepped_quiet t s s1 s' : stepped_down t s s1 → quiet s1 s' → stepped_down t s s'.
Proof.
  intros (Hlt & Hr & Hn) [Hr' Hn']. split; [done|].
  split; [congruence|by eapply same_nodes_trans].
Qed.

Lemma appendentries_term_spec ae s r s' :
  appendentries_term ae s = Done r s' →
  quiet s s' ∨ stepped_down (ae_term ae) s s' ∨
  state s = RAFT_STATE_CANDIDATE ∧ role s' = (current_term s, -1, RAFT_STATE_FOLLOWER) ∧ same_nodes s s'.
Proof.
  unfold appendentries_term. rewrite bind_get.
  destruct (raft_is_candidate s && (current_term s =? ae_term ae)) eqn:Hc.
  { intros [= <- <-]. right; right. apply andb_prop in Hc as [Hc _].
    apply bool_decide_eq_true_1 in Hc. by split_and!. }
  destruct (Z.ltb_spec (current_term s) (ae_term ae)) as [Hlt|Hge].
  - destruct (step_down_spec _ s Hlt) as (s1 & Hrun & Hd). rewrite <- bind_assoc.
    rewrite (bind_Done _ _ _ _ _ Hrun). intros [= <- <-]. auto.
  - destruct (ae_term ae <? current_term s); intros [= <- <-]; left; reflexivity.
Qed.

(** A candidate hears of the leader of its term: it forgets that it voted. *)
Definition lost_election (s s' : raft_server_t) : Prop :=
  state s = RAFT_STATE_CANDIDATE ∧ role s' = (current_term s, -1, RAFT_STATE_FOLLOWER) ∧
  same_nodes s s'.

Lemma quiet_fields s s' :
  quiet s s' → current_term s' = current_term s ∧ voted_for s' = voted_for s ∧ state s' = state s ∧
  nodes s' = nodes s ∧ node s' = node s.
Proof. intros ([= -> -> ->] & Hn1 & Hn2 & _). done. Qed.

Lemma lost_quiet s s1 s' : lost_election s s1 → quiet s1 s' → lost_election s s'.
Proof.
  intros (Hst & Hr & Hn) [Hr' Hn']. split; [done|].
  split; [congruence|by eapply same_nodes_trans].
Qed.

Lemma recv_appendentries_role n ae s r s' :
  raft_recv_appendentries n ae s = Done r s' →
  quiet s s' ∨ stepped_down (ae_term ae) s s' ∨ lost_election s s'.
Proof.
  unfold raft_recv_appendentries. intros (? & s0 & [= _ <-] & Hrun)%bind_inv.
  rewrite bind_get in Hrun. apply bind_inv in Hrun as (accepted & s1 & Hterm & Hrun).
  apply appendentries_term_spec in Hterm.
  assert (quiet s1 s') as Hq by (revert Hrun; apply keeps_Done; quiet_steps).
  destruct Hterm as [Hq1|[Hd|Hl]].
  - left. etrans; [|exact Hq]. exact Hq1.
  - right; left. by apply (stepped_quiet _ _ s1).
  - right; right. by apply (lost_quiet _ s1).
Qed.

Lemma recv_appendentries_response_role n r s z s' :
  raft_recv_appendentries_response n r s = Done z s' →
  quiet s s' ∨ stepped_down (ar_term r) s s'.
Proof.
  unfold raft_recv_appendentries_response. intros (stale & s0 & Hstale & Hrun)%bind_inv.
  assert (quiet s s0) as Hq0 by (revert Hstale; apply keeps_Done; quiet_steps).
  destruct stale; [injection Hrun as _ <-; by left|]. rewrite bind_get in Hrun.
  destruct (raft_is_leader s0) eqn:Hl; cbn [negb] in Hrun; [|injection Hrun as _ <-; by left].
  destruct (Z.ltb_spec (current_term s0) (ar_term r)) as [Hlt|Hge].
  - right. destruct (step_down_spec _ s0 Hlt) as (s1 & Hd & Hsd). rewrite <- bind_assoc in Hrun.
    rewrite (bind_Done _ _ _ _ _ Hd) in Hrun. injection Hrun as _ <-.
    destruct Hq0 as [[= Ht Hv Hs] Hn], Hsd as (Hlt' & Hr & Gn).
    split; [lia|]. split; [done|by eapply same_nodes_trans].
  - left. etrans; [exact Hq0|]. revert Hrun.
    apply keeps_Done. destruct (negb (current_term s0 =? ar_term r)); quiet_steps.
Qed.

(** *** Requests for votes *)
Definition granted (t cand : Z) (s s' : raft_server_t) : Prop :=
  current_term s ≤ t ∧ (current_term s = t → voted_for s = -1 ∧ state s ≠ RAFT_STATE_LEADER ∧
    state s ≠ RAFT_STATE_CANDIDATE) ∧
  current_term s' = t ∧ voted_for s' = cand ∧ state s' ≠ RAFT_STATE_LEADER ∧
  state s' ≠ RAFT_STATE_CANDIDATE ∧ same_nodes s s'.

Lemma should_grant_voted vr s s' :
  should_grant_vote vr s = Done true s' → voted_for s = -1 ∧ current_term s ≤ rv_term vr.
Proof.
  unfold should_grant_vote. rewrite bind_get.
  destruct (Z.ltb_spec (rv_term vr) (current_term s)); [done|].
  unfold raft_already_voted. destruct (Z.eqb_spec (voted_for s) (-1)); [done|done].
Qed.

Lemma recv_requestvote_role vr s r s' :
  raft_recv_requestvote vr s = Done r s' →
  vr_term r = current_term s' ∧
  (vr_vote_granted r = 0 ∧ (quiet s s' ∨ stepped_down (rv_term vr) s s') ∨
   vr_vote_granted r = 1 ∧ granted (rv_term vr) (rv_candidate_id vr) s s').
Proof.
  unfold raft_recv_requestvote. rewrite bind_get. intros (? & s1 & Hterm & Hrun)%bind_inv.
  assert ((quiet s s1 ∧ rv_term vr ≤ current_term s) ∨ stepped_down (rv_term vr) s s1) as Hcase.
  { destruct (Z.ltb_spec (current_term s) (rv_term vr)) as [Hlt|Hge].
    - destruct (step_down_spec _ s Hlt) as (s2 & Hd & Hsd). rewrite Hd in Hterm.
      injection Hterm as _ <-. by right.
    - injection Hterm as _ <-. left. split; [reflexivity|done]. }
  apply bind_inv in Hrun as (grant & s2 & Hgrant & Hrun).
  pose proof (keeps_Done _ _ _ _ _ (keeps_should_grant vr) Hgrant) as Hq.
  destruct grant.
  - apply should_grant_voted in Hgrant as [Hv1 Hle]. rewrite bind_assoc, bind_get in Hrun.
    apply bind_inv in Hrun as (? & s3 & Hass & Hrun). unfold assert_ in Hass.
    destruct (raft_is_leader s2 || raft_is_candidate s2) eqn:Hrole; [done|].
    injection Hass as _ <-. apply orb_false_elim in Hrole as [Hl Hc].
    apply bool_decide_eq_false_1 in Hl, Hc.
    unfold raft_vote_for_nodeid in Hrun. munfold. injection Hrun as <- <-. cbn.
    split; [done|]. right. split; [done|].
    destruct (quiet_fields _ _ Hq) as (Ht & Hv & Hs & _).
    assert (same_nodes s s1) as Hn1 by (destruct Hcase as [[[_ ?] _]|(_ & _ & ?)]; done).
    assert (same_nodes s s2) as Hn2 by (by apply (same_nodes_trans _ s1); [|apply Hq]).
    assert (current_term s2 = rv_term vr ∧ current_term s ≤ rv_term vr ∧
      (current_term s = rv_term vr → voted_for s = -1 ∧ state s ≠ RAFT_STATE_LEADER ∧
        state s ≠ RAFT_STATE_CANDIDATE)) as (Ht2 & Hle2 & Hsame).
    { destruct Hcase as [[Hq1 Hge]|(Hlt & [= Ht' Hv' Hs'] & _)]; [|split_and!; [lia|lia|lia]].
      destruct (quiet_fields _ _ Hq1) as (Ht1 & Hv1' & Hs1 & _).
      split_and!; [lia|lia|]. intros _. split_and!; congruence. }
    unfold granted, call. by destruct (persist_vote _); cbn.
  - rewrite bind_ret, bind_get in Hrun. injection Hrun as <- <-. split; [done|]. left.
    split; [done|]. destruct Hcase as [[Hq1 _]|Hd]; [left; by etrans|right; by apply (stepped_quiet _ _ s1)].
Qed.

(** *** Ballots *)
Definition same_members (s s' : raft_server_t) : Prop :=
  nodes s' = nodes s ∧ node s' = node s ∧ ∀ n, fst <$> ballots s' n = fst <$> ballots s n.

Definition has_voted (s : raft_server_t) (n : loc) : Prop := snd <$> ballots s n = Some true.

#[export] Instance has_voted_dec s n : Decision (has_voted s n).
Proof. unfold has_voted. solve_decision. Defined.

#[export] Instance same_members_preorder : PreOrder same_members.
Proof.
  split; [by intros s|]. intros s1 s2 s3 (H1 & H2 & H3) (G1 & G2 & G3).
  split; [congruence|]. split; [congruence|]. intros n. by rewrite G3.
Qed.

Lemma same_nodes_members s s' : same_nodes s s' → same_members s s'.
Proof. intros (H1 & H2 & H3). split; [done|]. split; [done|]. intros n. by rewrite H3. Qed.

Lemma same_nodes_voted s s' n : same_nodes s s' → has_voted s' n ↔ has_voted s n.
Proof. intros (_ & _ & H). unfold has_voted. by rewrite H. Qed.

Lemma ballot_vote b nd :
  ballot (raft_node_vote_for_me b nd) = (node_id nd, raft_node_is_voting nd, b).
Proof.
  unfold ballot, raft_node_is_voting, raft_node_has_vote_for_me, raft_node_vote_for_me.
  destruct b; cbn [flags set_flags node_id].
  - rewrite !Z.land_lor_distr_l. change (Z.land RAFT_NODE_VOTED_FOR_ME RAFT_NODE_VOTING) with 0.
    rewrite Z.lor_0_r. f_equal.
    change (Z.land RAFT_NODE_VOTED_FOR_ME RAFT_NODE_VOTED_FOR_ME) with 1.
    change (Z.land (flags nd) RAFT_NODE_VOTED_FOR_ME) with (Z.land (flags nd) (Z.ones 1)).
    rewrite Z.land_ones by lia. pose proof (Z.mod_pos_bound (flags nd) (2 ^ 1)).
    assert (flags nd mod 2 ^ 1 = 0 ∨ flags nd mod 2 ^ 1 = 1) as [-> | ->] by lia; done.
  - rewrite <- !Z.land_assoc.
    change (Z.land (Z.lnot RAFT_NODE_VOTED_FOR_ME) RAFT_NODE_VOTING) with RAFT_NODE_VOTING.
    change (Z.land (Z.lnot RAFT_NODE_VOTED_FOR_ME) RAFT_NODE_VOTED_FOR_ME) with 0.
    by rewrite Z.land_0_r.
Qed.

Lemma vote_upd_spec n b s u s' :
  node_upd n (raft_node_vote_for_me b) s = Done u s' →
  role s' = role s ∧ same_members s s' ∧
  ∀ n', has_voted s' n' ↔ (if decide (n' = n) then b = true else has_voted s n').
Proof.
  unfold node_upd, node_obj. munfold. destruct (objs s !! n) as [nd|] eqn:E; [|done].
  intros [= _ <-]. split; [done|]. split; [split; [done|split; [done|]]|].
  - intros n'. unfold ballots. cbn. destruct (decide (n' = n)) as [->|Hne].
    + rewrite lookup_insert_eq, E. cbn [fmap option_fmap option_map]. by rewrite ballot_vote.
    + by rewrite lookup_insert_ne.
  - intros n'. unfold has_voted, ballots. cbn [objs set_objs]. destruct (decide (n' = n)) as [->|Hne].
    + rewrite lookup_insert_eq. cbn [fmap option_fmap option_map]. rewrite ballot_vote. cbn.
      split; congruence.
    + by rewrite lookup_insert_ne.
Qed.

(** The loop of a new candidate: no ballot is left in its list. *)
Lemma clear_votes_spec ns : ∀ s u s',
  for_nodes (λ _ _, mret true) (λ n, node_upd n (raft_node_vote_for_me false)) ns s = Done u s' →
  role s' = role s ∧ same_members s s' ∧
  ∀ n, has_voted s' n ↔ n ∉ ns ∧ has_voted s n.
Proof.
  induction ns as [|n ns IH]; intros s u s'.
  - intros [= _ <-]. split; [done|]. split; [reflexivity|]. intros n. set_solver.
  - cbn [for_nodes]. rewrite bind_get, bind_ret. intros (? & s1 & Hupd & Hrun)%bind_inv.
    destruct (vote_upd_spec _ _ _ _ _ Hupd) as (Hr1 & Hm1 & Hv1).
    destruct (IH _ _ _ Hrun) as (Hr2 & Hm2 & Hv2).
    split; [congruence|]. split; [by etrans|]. intros n'. rewrite Hv2, Hv1.
    destruct (decide (n' = n)); set_solver.
Qed.

(** What a server counts. *)
Definition votes_of (s : raft_server_t) : list loc :=
  filter (λ n, node s ≠ Some n ∧ snd ∘ fst <$> ballots s n = Some true ∧ has_voted s n) (nodes s).

Lemma count_votes_spec ns : ∀ v s r s',
  count_votes ns v s = Done r s' →
  s' = s ∧ r = v + Z.of_nat (length (filter (λ n, node s ≠ Some n ∧
    snd ∘ fst <$> ballots s n = Some true ∧ has_voted s n) ns)).
Proof.
  induction ns as [|n ns IH]; intros v s r s'.
  - intros [= <- <-]. cbn. split; [done|lia].
  - cbn [count_votes]. rewrite bind_get. case_bool_decide as Hself.
    + intros [-> ->]%IH. rewrite filter_cons_False by tauto. done.
    + intros (nd & s1 & Hobj & Hrun)%bind_inv. unfold node_obj in Hobj.
      destruct (objs s !! n) as [nd'|] eqn:E; [|done]. injection Hobj as <- <-.
      apply IH in Hrun as [-> ->]. split; [done|].
      assert ((snd ∘ fst <$> ballots s n = Some true ∧ has_voted s n) ↔
        raft_node_is_voting nd' && raft_node_has_vote_for_me nd' = true) as Hiff.
      { unfold has_voted, ballots. rewrite E. cbn. rewrite andb_true_iff. split; intros [??]; split; congruence. }
      destruct (raft_node_is_voting nd' && raft_node_has_vote_for_me nd').
      * rewrite filter_cons_True by tauto. cbn [length]. lia.
      * rewrite filter_cons_False; [done|]. intros [_ ?%Hiff]. done.
Qed.

(** The votes of the others and its own. *)
Lemma nvotes_spec s r s' :
  raft_get_nvotes_for_me s = Done r s' →
  s' = s ∧ ∃ n nd, node s = Some n ∧ objs s !! n = Some nd ∧
    r = Z.of_nat (length (votes_of s)) + (if voted_for s =? node_id nd then 1 else 0).
Proof.
  unfold raft_get_nvotes_for_me. rewrite bind_get.
  intros (v & s1 & [-> ->]%count_votes_spec & Hrun)%bind_inv.
  unfold raft_get_nodeid in Hrun. munfold. unfold not_null, node_obj in Hrun.
  destruct (node s) as [n|] eqn:En; [|done]. cbn in Hrun.
  destruct (objs s !! n) as [nd|] eqn:E; [|done]. injection Hrun as <- <-.
  split; [done|]. exists n, nd. split_and!; [done|done|]. unfold votes_of. rewrite En.
  destruct (voted_for s =? node_id nd); lia.
Qed.

Lemma become_leader_spec s u s' :
  raft_become_leader s = Done u s' →
  role s' = (current_term s, voted_for s, RAFT_STATE_LEADER) ∧ same_nodes s s'.
Proof.
  unfold raft_become_leader. intros (? & s1 & [= _ <-] & Hrun)%bind_inv.
  rewrite bind_get in Hrun. cbn [nodes] in Hrun.
  eapply (keeps_Done quiet) in Hrun as [Hr Hn]; [|quiet_steps]. split; [exact Hr|].
  eapply same_nodes_trans; [|exact Hn]. done.
Qed.

(** A vote is counted; with a majority the candidate becomes the leader. *)
Definition vote_counted (n : option loc) (s s' : raft_server_t) : Prop :=
  state s = RAFT_STATE_CANDIDATE ∧ current_term s' = current_term s ∧ voted_for s' = voted_for s ∧
  same_members s s' ∧ (∀ n', has_voted s' n' → has_voted s n' ∨ n = Some n') ∧
  (state s' = RAFT_STATE_CANDIDATE ∨
   state s' = RAFT_STATE_LEADER ∧ ∃ me nd, node s' = Some me ∧ fst ∘ fst <$> ballots s' me = Some nd ∧
     raft_votes_is_majority (num_nodes s')
       (Z.of_nat (length (votes_of s')) + (if voted_for s' =? nd then 1 else 0)) = true).

Lemma votes_of_same s s' : same_nodes s s' → votes_of s' = votes_of s.
Proof.
  intros (H1 & H2 & H3). unfold votes_of. rewrite H1. apply list_filter_iff. intros n.
  unfold has_voted. by rewrite H2, H3.
Qed.

Lemma count_and_lead s1 u s' :
  (votes ← raft_get_nvotes_for_me;
   if raft_votes_is_majority (num_nodes s1) votes then raft_become_leader else mret tt) s1 = Done u s' →
  current_term s' = current_term s1 ∧ voted_for s' = voted_for s1 ∧ same_nodes s1 s' ∧
  (state s' = state s1 ∨
   state s' = RAFT_STATE_LEADER ∧ ∃ me nd, node s' = Some me ∧ fst ∘ fst <$> ballots s' me = Some nd ∧
     raft_votes_is_majority (num_nodes s')
       (Z.of_nat (length (votes_of s')) + (if voted_for s' =? nd then 1 else 0)) = true).
Proof.
  intros (votes & s2 & [-> (me & nd & Hme & Hobj & ->)]%nvotes_spec & Hrun)%bind_inv.
  destruct (raft_votes_is_majority _ _) eqn:Hmaj.
  - apply become_leader_spec in Hrun as [[= Ht Hv Hs] Hn]. rewrite Ht, Hv, Hs.
    split_and!; [done|done|done|]. right. split; [done|]. exists me, (node_id nd).
    rewrite (votes_of_same _ _ Hn). destruct Hn as (Hn1 & Hn2 & Hn3). unfold num_nodes.
    rewrite Hn1, Hn2, Hn3. split_and!; [done| |done]. unfold ballots. by rewrite Hobj.
  - injection Hrun as _ <-. split_and!; [done|done|done|]. by left.
Qed.

Lemma recv_vote_response_role n r s z s' :
  raft_recv_requestvote_response n r s = Done z s' →
  quiet s s' ∨ stepped_down (vr_term r) s s' ∨
  (vr_term r = current_term s ∧ vr_vote_granted r = 1 ∧ vote_counted n s s').
Proof.
  unfold raft_recv_requestvote_response. rewrite bind_get.
  destruct (raft_is_candidate s) eqn:Hc; cbn [negb]; [|intros [= _ <-]; by left].
  apply bool_decide_eq_true_1 in Hc.
  destruct (Z.ltb_spec (current_term s) (vr_term r)) as [Hlt|Hge].
  { destruct (step_down_spec _ s Hlt) as (s1 & Hd & Hsd). rewrite <- bind_assoc.
    rewrite (bind_Done _ _ _ _ _ Hd). intros [= _ <-]. auto. }
  destruct (Z.eqb_spec (current_term s) (vr_term r)) as [Ht|]; cbn [negb]; [|intros [= _ <-]; by left].
  intros ([] & s3 & Hrun & [= _ <-])%bind_inv.
  destruct (Z.eqb_spec (vr_vote_granted r) 1) as [Hg|]; [|injection Hrun as <-; by left].
  right; right. split; [done|]. split; [done|].
  apply bind_inv in Hrun as (? & s1 & Hupd & Hrun).
  assert (role s1 = role s ∧ same_members s s1 ∧ ∀ n', has_voted s1 n' → has_voted s n' ∨ n = Some n')
    as ([= Ht1 Hv1 Hs1] & Hm1 & Hb1).
  { destruct n as [n|].
    - apply vote_upd_spec in Hupd as (? & ? & Hb). split_and!; [done|done|]. intros n' Hn'.
      apply Hb in Hn'. destruct (decide (n' = n)); [right; congruence|by left].
    - injection Hupd as _ <-. split_and!; [done|reflexivity|]. by left. }
  replace (num_nodes s) with (num_nodes s1) in Hrun by (unfold num_nodes; by rewrite (proj1 Hm1)).
  apply count_and_lead in Hrun as (Ht' & Hv' & Hn' & Hcase).
  split; [done|]. split; [congruence|]. split; [congruence|].
  split; [etrans; [exact Hm1|by apply same_nodes_members]|].
  split; [intros n'; rewrite (same_nodes_voted _ _ _ Hn'); apply Hb1|].
  destruct Hcase as [Hst|Hlead]; [left; congruence|by right].
Qed.

(** *** Standing for election *)
Definition stands (s s' : raft_server_t) : Prop :=
  current_term s' = current_term s + 1 ∧ state s' = RAFT_STATE_CANDIDATE ∧ same_members s s' ∧
  (∀ n, n ∈ nodes s' → ¬ has_voted s' n) ∧
  match node s with
  | Some me => Some (voted_for s') = fst ∘ fst <$> ballots s' me
  | None => voted_for s' = -1
  end.

Lemma raft_vote_spec n s u s' :
  raft_vote n s = Done u s' →
  current_term s' = current_term s ∧ same_nodes s s' ∧
  match n with
  | Some me => Some (voted_for s') = fst ∘ fst <$> ballots s me
  | None => voted_for s' = -1
  end.
Proof.
  unfold raft_vote, raft_vote_for_nodeid. destruct n as [me|].
  - intros (nd & s1 & Hobj & Hrun)%bind_inv. unfold node_obj in Hobj.
    destruct (objs s !! me) as [nd'|] eqn:E; [|done]. injection Hobj as <- <-.
    injection Hrun as _ <-. unfold ballots. rewrite E. unfold call. by destruct (persist_vote _).
  - intros [= _ <-]. unfold call. by destruct (persist_vote _).
Qed.

Lemma become_candidate_spec rand s u s' :
  raft_become_candidate rand s = Done u s' → stands s s'.
Proof.
  unfold raft_become_candidate. rewrite bind_get.
  intros (t & s1 & Hadd & Hrun)%bind_inv. unfold int_add in Hadd. destruct (_ && _); [|done].
  injection Hadd as <- <-. apply bind_inv in Hrun as (? & s2 & Hterm & Hrun).
  unfold raft_set_current_term, modify in Hterm. injection Hterm as _ Hs2.
  rewrite (proj2 (Z.ltb_lt _ _)) in Hs2 by lia.
  assert (current_term s2 = current_term s + 1 ∧ same_nodes s s2) as [Ht2 Hn2].
  { rewrite <- Hs2. unfold call. by destruct (persist_term _). }
  apply bind_inv in Hrun as (? & s3 & Hclear & Hrun).
  apply clear_votes_spec in Hclear as ([= Ht3 _ _] & Hm3 & Hb3).
  apply bind_inv in Hrun as (? & s4 & Hvote & Hrun).
  apply raft_vote_spec in Hvote as (Ht4 & Hn4 & Hv4).
  apply bind_inv in Hrun as (? & s5 & [= _ <-] & Hrun).
  apply bind_inv in Hrun as (? & s6 & [= _ <-] & Hrun). rewrite bind_get in Hrun.
  assert (quiet (raft_set_state RAFT_STATE_CANDIDATE (set_current_leader None s4)) s') as [[= Ht Hv Hs] Hn]
    by (revert Hrun; apply keeps_Done; quiet_steps).
  cbn in Ht, Hv, Hs.
  assert (same_members s s4) as Hm.
  { etrans; [by apply same_nodes_members|]. etrans; [exact Hm3|by apply same_nodes_members]. }
  assert (same_nodes s4 s') as Hn' by exact Hn.
  assert (same_members s s') as Hms by (etrans; [exact Hm|by apply same_nodes_members]).
  split_and!; [congruence|done|done| |].
  - intros n Hin Hvoted. rewrite (proj1 Hms) in Hin.
    apply (same_nodes_voted s4 s' n Hn'), (same_nodes_voted s3 s4 n Hn4), Hb3 in Hvoted.
    tauto.
  - destruct (node s) as [me|]; [|congruence]. rewrite Hv, Hv4.
    destruct Hn' as (_ & _ & ->), Hn4 as (_ & _ & ->). done.
Qed.

Lemma periodic_role rand ms s z s' :
  raft_periodic rand ms s = Done z s' → quiet s s' ∨ state s ≠ RAFT_STATE_LEADER ∧ stands s s'.
Proof.
  unfold raft_periodic. rewrite bind_get. intros (t & s1 & Hadd & Hrun)%bind_inv.
  assert (quiet s s1) as Hq1 by (revert Hadd; apply keeps_Done; quiet_steps).
  apply bind_inv in Hrun as (? & s2 & [= _ <-] & Hrun). rewrite bind_get in Hrun.
  assert (quiet s (set_timeout_elapsed t s1)) as Hq2 by (etrans; [exact Hq1|done]). clear Hq1.
  revert Hrun Hq2. generalize (set_timeout_elapsed t s1). intros s2 Hrun Hq2.
  apply bind_inv in Hrun as (? & s3 & Hbranch & Hrun).
  assert (quiet s3 s') as Hq3 by (revert Hrun; apply keeps_Done; quiet_steps).
  destruct (quiet_fields _ _ Hq2) as (Ht2 & Hv2 & Hs2 & Hn2 & Hme2).
  destruct (raft_is_leader s2) eqn:Hl.
  - left. etrans; [exact Hq2|]. etrans; [|exact Hq3]. revert Hbranch. apply keeps_Done. quiet_steps.
  - destruct (election_timeout s2 <=? timeout_elapsed s2) eqn:He; cycle 1.
    { left. injection Hbranch as _ <-. by etrans. }
    destruct (1 <? num_nodes s2); cycle 1.
    { left. injection Hbranch as _ <-. by etrans. }
    right. split; [apply bool_decide_eq_false_1 in Hl; congruence|].
    apply become_candidate_spec in Hbranch as (Ht & Hst & Hm & Hb & Hv).
    destruct (quiet_fields _ _ Hq3) as (Ht3 & Hv3 & Hs3 & Hn3 & Hme3).
    split_and!; [congruence|congruence| | |].
    + etrans; [apply same_nodes_members, Hq2|]. etrans; [exact Hm|apply same_nodes_members, Hq3].
    + intros n. rewrite Hn3, (same_nodes_voted _ _ _ (proj2 Hq3)). apply Hb.
    + rewrite Hme2 in Hv. destruct Hq3 as [_ (_ & _ & Hq3)].
      destruct (node s); [by rewrite Hv3, Hq3|congruence].
Qed.
