(* ===== verification/RaftCluster.v ===== *)
(** A cluster of Raft servers with a fixed membership, over a network and
    applications that may do almost anything: any request, at any server, at any
    time, as often as it likes.  The one promise is that a response to a vote request
    is delivered, if at all, to the candidate that the request named, with the
    responder's node.  The theorem is that a term never has two leaders. *)

From S2P Require Import Prelude RaftLog Raft RaftElection.

(** The servers by node id, every response to a vote request there ever was (voter,
    candidate, response), and every (term, server) that has been seen as leader. *)
Record cluster := mkCluster {
  servers : gmap Z raft_server_t;
  responses : list (Z * Z * msg_requestvote_response_t);
  leaders : list (Z * Z);
}.

(** ** Starting the servers *)

(** The calls an application makes to start server [i] of [ids]. *)
Fixpoint add_all (i : Z) (ids : list Z) : M raft_server_t unit :=
  match ids with
  | [] => mret tt
  | v :: rest => raft_add_node v (v =? i) ;; add_all i rest
  end.

Definition boot (funcs : raft_cbs_t) (ids : list Z) (i : Z) : raft_server_t :=
  match add_all i ids (raft_set_callbacks funcs raft_new) with
  | Done _ s => s
  | _ => raft_new
  end.

Definition cluster_new (funcs : raft_cbs_t) (ids : list Z) : cluster :=
  mkCluster (list_to_map ((λ i, (i, boot funcs ids i)) <$> ids)) [] [].

(** ** Steps *)
Definition update (i : Z) (s' : raft_server_t) (sent : list (Z * Z * msg_requestvote_response_t))
    (C : cluster) : cluster :=
  mkCluster (<[i := s']> (servers C)) (sent ++ responses C)
    (if raft_is_leader s' then (current_term s', i) :: leaders C else leaders C).

Inductive cstep (C : cluster) : cluster → Prop :=
| step_periodic i s rand ms z s' :
    servers C !! i = Some s → raft_periodic rand ms s = Done z s' → cstep C (update i s' [] C)
| step_requestvote i s vr r s' :
    servers C !! i = Some s → raft_recv_requestvote vr s = Done r s' →
    cstep C (update i s' [(i, rv_candidate_id vr, r)] C)
| step_requestvote_response i s v r n z s' :
    servers C !! i = Some s → (v, i, r) ∈ responses C → raft_get_node v s = Done n s →
    raft_recv_requestvote_response n r s = Done z s' → cstep C (update i s' [] C)
| step_appendentries i s n ae r s' :
    servers C !! i = Some s → raft_recv_appendentries n ae s = Done r s' →
    cstep C (update i s' [] C)
| step_appendentries_response i s n r z s' :
    servers C !! i = Some s → raft_recv_appendentries_response n r s = Done z s' →
    cstep C (update i s' [] C)
| step_entry i s e r s' :
    servers C !! i = Some s → raft_recv_entry e s = Done r s' → cstep C (update i s' [] C)
| step_apply i s z s' :
    servers C !! i = Some s → raft_apply_entry s = Done z s' → cstep C (update i s' [] C).

(** ** What a step does to the roles *)
Inductive transition (C : cluster) (i : Z) (s s' : raft_server_t)
  : list (Z * Z * msg_requestvote_response_t) → Prop :=
| tr_quiet : quiet s s' → transition C i s s' []
| tr_down t : stepped_down t s s' → transition C i s s' []
| tr_lost : lost_election s s' → transition C i s s' []
| tr_stands : state s ≠ RAFT_STATE_LEADER → stands s s' → transition C i s s' []
| tr_refuse cand r : vr_vote_granted r = 0 → quiet s s' ∨ (∃ t, stepped_down t s s') →
    transition C i s s' [(i, cand, r)]
| tr_grant cand r : vr_vote_granted r = 1 → vr_term r = current_term s' →
    granted (vr_term r) cand s s' → transition C i s s' [(i, cand, r)]
| tr_count v r n : (v, i, r) ∈ responses C → vr_term r = current_term s → vr_vote_granted r = 1 →
    (∀ n', n = Some n' → fst ∘ fst <$> ballots s n' = Some v) → vote_counted n s s' →
    transition C i s s' [].

Lemma get_node_spec v s n s' :
  raft_get_node v s = Done n s' → ∀ n', n = Some n' → fst ∘ fst <$> ballots s n' = Some v.
Proof.
  unfold raft_get_node. rewrite bind_get. generalize (nodes s). intros ns.
  induction ns as [|m ns IH]; [by intros [= <- _]|]. cbn [find_node].
  intros (nd & s1 & Hobj & Hrun)%bind_inv. unfold node_obj in Hobj.
  destruct (objs s !! m) as [nd'|] eqn:E; [|done]. injection Hobj as <- <-.
  destruct (Z.eqb_spec v (node_id nd')) as [->|Hne]; [|by apply IH].
  injection Hrun as <- _. intros n' [= <-]. unfold ballots. by rewrite E.
Qed.

Lemma cstep_transition C C' :
  cstep C C' → ∃ i s s' sent, servers C !! i = Some s ∧ C' = update i s' sent C ∧
    transition C i s s' sent.
Proof.
  destruct 1 as [i s rand ms z s' Hs Hrun|i s vr r s' Hs Hrun|i s v r n z s' Hs Hin Hn Hrun
    |i s n ae r s' Hs Hrun|i s n r z s' Hs Hrun|i s e r s' Hs Hrun|i s z s' Hs Hrun];
    (eexists i, s, s', _; split; [done|split; [reflexivity|]]).
  - apply periodic_role in Hrun as [?|[??]]; [by apply tr_quiet|by apply tr_stands].
  - apply recv_requestvote_role in Hrun as [Ht [[Hz Hcase]|[Hone Hgr]]].
    + apply tr_refuse; [done|]. destruct Hcase; eauto.
    + apply tr_grant; [done|done|]. assert (vr_term r = rv_term vr) as ->; [|done].
      destruct Hgr as (_ & _ & Hterm & _). congruence.
  - apply recv_vote_response_role in Hrun as [?|[?|(Ht & Hg & Hc)]];
      [by apply tr_quiet|by eapply tr_down|].
    eapply tr_count; [done|done|done| |done]. by eapply get_node_spec.
  - apply recv_appendentries_role in Hrun as [?|[?|?]];
      [by apply tr_quiet|by eapply tr_down|by apply tr_lost].
  - apply recv_appendentries_response_role in Hrun as [?|?]; [by apply tr_quiet|by eapply tr_down].
  - apply tr_quiet. revert Hrun. apply keeps_Done, keeps_recv_entry.
  - apply tr_quiet. revert Hrun. apply keeps_Done, keeps_apply_entry.
Qed.

(** ** Invariants.  Node ids are not -1, which stands for no vote. *)
Record configured (ids : list Z) (i : Z) (s : raft_server_t) : Prop := {
  cf_nodes : (λ n, fst <$> ballots s n) <$> nodes s = (λ v, Some (v, true)) <$> ids;
  cf_me : ∃ me, node s = Some me ∧ me ∈ nodes s ∧ fst <$> ballots s me = Some (i, true);
}.

Definition vote (C : cluster) (v c t : Z) : Prop :=
  c ≠ -1 ∧ ∃ r, (v, c, r) ∈ responses C ∧ vr_vote_granted r = 1 ∧ vr_term r = t.

Record voting_ok (ids : list Z) (C : cluster) : Prop := {
  vo_configured : ∀ i s, servers C !! i = Some s → configured ids i s ∧ i ∈ ids;
  (** A vote binds the voter for the rest of the term. *)
  vo_bound : ∀ v c t, vote C v c t → ∃ s, servers C !! v = Some s ∧ t ≤ current_term s ∧
    (t = current_term s → voted_for s = c ∧ state s ≠ RAFT_STATE_LEADER ∧ state s ≠ RAFT_STATE_CANDIDATE);
  vo_once : ∀ v c c' t, vote C v c t → vote C v c' t → c = c';
  (** What a candidate or leader has counted are votes for it in its term. *)
  vo_counted : ∀ c s, servers C !! c = Some s →
    state s = RAFT_STATE_CANDIDATE ∨ state s = RAFT_STATE_LEADER →
    voted_for s = c ∧
    ∀ n v, n ∈ nodes s → has_voted s n → node s ≠ Some n → fst ∘ fst <$> ballots s n = Some v →
      vote C v c (current_term s);
  (** A leader had a majority, and leads until it leaves the term. *)
  vo_leaders : ∀ t c, (t, c) ∈ leaders C →
    (∃ s, servers C !! c = Some s ∧ t ≤ current_term s ∧
      (t = current_term s → state s = RAFT_STATE_LEADER)) ∧
    (∀ c', ¬ vote C c c' t) ∧
    ∃ Q, NoDup Q ∧ Q ⊆ ids ∧ (length ids < 2 * length Q)%nat ∧ ∀ v, v ∈ Q → v ≠ c → vote C v c t;
  (** Whoever leads has been seen to. *)
  vo_seen : ∀ c s, servers C !! c = Some s → state s = RAFT_STATE_LEADER →
    (current_term s, c) ∈ leaders C;
}.

(** ** Majorities meet *)
Lemma majorities_meet (ids Q Q' : list Z) :
  NoDup Q → NoDup Q' → Q ⊆ ids → Q' ⊆ ids →
  (length ids < 2 * length Q)%nat → (length ids < 2 * length Q')%nat →
  ∃ v, v ∈ Q ∧ v ∈ Q'.
Proof.
  intros Hnd Hnd' Hsub Hsub' Hlen Hlen'.
  destruct (decide (Exists (λ v, v ∈ Q') Q)) as [Hex|Hno].
  { apply Exists_exists in Hex as (v & ? & ?). eauto. }
  assert (NoDup (Q ++ Q')) as Happ.
  { apply NoDup_app. split_and!; [done| |done]. intros v Hv Hv'. apply Hno, Exists_exists. eauto. }
  assert (Q ++ Q' ⊆ ids) as Hin by set_solver.
  pose proof (submseteq_length _ _ (NoDup_submseteq _ _ Happ Hin)) as Hle. rewrite length_app in Hle. lia.
Qed.

Lemma voting_ok_one_leader ids C t c c' :
  voting_ok ids C → (t, c) ∈ leaders C → (t, c') ∈ leaders C → c = c'.
Proof.
  intros Hok Hl Hl'. destruct (decide (c = c')) as [|Hne]; [done|]. exfalso.
  destruct (vo_leaders _ _ Hok t c Hl) as (_ & Hno & Q & Hnd & Hsub & Hlen & HQ).
  destruct (vo_leaders _ _ Hok t c' Hl') as (_ & Hno' & Q' & Hnd' & Hsub' & Hlen' & HQ').
  destruct (majorities_meet ids Q Q') as (v & Hv & Hv'); try done.
  destruct (decide (v = c)) as [->|Hvc]; [by apply (Hno c'), HQ'|].
  destruct (decide (v = c')) as [->|Hvc']; [by apply (Hno' c), HQ|].
  apply Hne. by apply (vo_once _ _ Hok v c c' t); [apply HQ|apply HQ'].
Qed.

(** ** A transition keeps the invariants *)
Definition idle (s : raft_server_t) : Prop :=
  state s ≠ RAFT_STATE_LEADER ∧ state s ≠ RAFT_STATE_CANDIDATE.

Lemma vote_mono C i s' sent v c t : vote C v c t → vote (update i s' sent C) v c t.
Proof.
  intros (Hc & r & Hin & Hr). split; [done|]. exists r. split; [|done].
  cbn. apply elem_of_app. by right.
Qed.

Section Transition.
Context (C : cluster) (i : Z) (s s' : raft_server_t).
Context (sent : list (Z * Z * msg_requestvote_response_t)).
Context (Htr : transition C i s s' sent).

Lemma transition_members : same_members s s'.
Proof.
  destruct Htr as [Hq|t Hd|Hl|_ Hs|c r _ [Hq|[t Hd]]|c r _ _ Hg|v r n _ _ _ _ Hc].
  - by apply same_nodes_members, Hq.
  - by apply same_nodes_members, Hd.
  - by apply same_nodes_members, Hl.
  - apply Hs.
  - by apply same_nodes_members, Hq.
  - by apply same_nodes_members, Hd.
  - apply same_nodes_members, Hg.
  - apply Hc.
Qed.

Lemma transition_term : current_term s ≤ current_term s'.
Proof.
  destruct Htr as [[[= ] _]|t (? & [= ] & _)|(_ & [= ] & _)|_ (? & _)|c r _ [[[= ] _]|(t & ? & [= ] & _)]
    |c r _ ? (? & _ & ? & _)|v r n _ _ _ _ (_ & ? & _)]; lia.
Qed.

Lemma transition_bound :
  voted_for s ≠ -1 → idle s → current_term s' = current_term s → voted_for s' = voted_for s ∧ idle s'.
Proof.
  unfold idle. intros Hv [Hl Hc] Ht.
  destruct Htr as [[[= ] _]|t (? & [= ] & _)|(? & _)|_ (? & _)|c r _ [[[= ] _]|(t & ? & [= ] & _)]
    |c r _ ? (_ & Hsame & ? & _)|v r n _ _ _ _ (? & _)]; try (congruence || lia).
  all: split_and!; congruence.
Qed.

Lemma transition_leads :
  state s = RAFT_STATE_LEADER → current_term s' = current_term s → state s' = RAFT_STATE_LEADER.
Proof.
  intros Hl Ht.
  destruct Htr as [[[= ] _]|t (? & [= ] & _)|(? & _)|_ (? & _)|c r _ [[[= ] _]|(t & ? & [= ] & _)]
    |c r _ ? (_ & Hsame & ? & _)|v r n _ _ _ _ (? & _)]; try (congruence || lia).
  destruct Hsame as (_ & ? & _); [congruence|done].
Qed.

(** The votes after a transition: those before it, and the one it may cast. *)
Lemma transition_votes v c t :
  vote (update i s' sent C) v c t →
  vote C v c t ∨
  v = i ∧ c ≠ -1 ∧ t = current_term s' ∧ voted_for s' = c ∧ idle s' ∧
  (current_term s = t → voted_for s = -1 ∧ idle s).
Proof.
  intros (Hc & r & Hin & Hg & Ht). cbn in Hin. apply elem_of_app in Hin as [Hin|Hin]; [|left; by split; eauto].
  destruct Htr as [| | | |c0 r0 Hz _|c0 r0 _ Ht0 Hgr|]; try set_solver.
  - apply list_elem_of_singleton in Hin as [= -> -> ->]. lia.
  - apply list_elem_of_singleton in Hin as [= -> -> ->]. right. rewrite Ht in Hgr.
    destruct Hgr as (_ & Hsame & Ht' & Hv' & Hl' & Hc' & _). unfold idle. split_and!; try done; tauto.
Qed.

(** Who is elected was a candidate of the same term, with a majority. *)
Lemma transition_elected :
  state s' = RAFT_STATE_LEADER →
  current_term s' = current_term s ∧
  (state s = RAFT_STATE_LEADER ∨ state s = RAFT_STATE_CANDIDATE ∧
   ∃ me nd, node s' = Some me ∧ fst ∘ fst <$> ballots s' me = Some nd ∧
     raft_votes_is_majority (num_nodes s')
       (Z.of_nat (length (votes_of s')) + (if voted_for s' =? nd then 1 else 0)) = true).
Proof.
  intros Hl.
  destruct Htr as [[[= ] _]|t (? & [= ] & _)|(_ & [= ] & _)|_ (_ & ? & _)|c r _ [[[= ] _]|(t & ? & [= ] & _)]
    |c r _ ? (_ & _ & _ & _ & ? & _)|v r n _ _ _ _ (? & ? & _ & _ & _ & [?|[_ Hm]])]; try congruence.
  - split; [done|left; congruence].
  - split; [done|left; congruence].
  - split; [done|right; done].
Qed.

(** The ballots of who stands or leads. *)
Lemma transition_counted me :
  node s = Some me → fst ∘ fst <$> ballots s me = Some i → i ≠ -1 →
  (state s = RAFT_STATE_CANDIDATE ∨ state s = RAFT_STATE_LEADER →
   voted_for s = i ∧ ∀ n v, n ∈ nodes s → has_voted s n → n ≠ me →
     fst ∘ fst <$> ballots s n = Some v → vote C v i (current_term s)) →
  state s' = RAFT_STATE_CANDIDATE ∨ state s' = RAFT_STATE_LEADER →
  voted_for s' = i ∧ ∀ n v, n ∈ nodes s' → has_voted s' n → n ≠ me →
    fst ∘ fst <$> ballots s' n = Some v → vote C v i (current_term s').
Proof.
  intros Hme Hid Hi IH Hst. pose proof transition_members as (Hn & Hnode & Hb).
  assert (∀ n, fst ∘ fst <$> ballots s' n = fst ∘ fst <$> ballots s n) as Hids.
  { intros n. rewrite !option_fmap_compose. by rewrite Hb. }
  assert (∀ t, stepped_down t s s' → False) as Hnodown.
  { intros t (_ & [= _ _ Hf] & _). rewrite Hf in Hst. by destruct Hst. }
  assert (quiet s s' → voted_for s' = i ∧ ∀ n v, n ∈ nodes s' → has_voted s' n → n ≠ me →
    fst ∘ fst <$> ballots s' n = Some v → vote C v i (current_term s')) as Hquiet.
  { intros [[= Ht Hv Hs] Hsn]. rewrite Hs in Hst. destruct (IH Hst) as [Hvf Hvotes].
    split; [congruence|]. intros n v. rewrite Hn, Hids, Ht, (same_nodes_voted _ _ _ Hsn). apply Hvotes. }
  destruct Htr as [Hq|t Hd|(_ & [= _ _ Hf] & _)|_ (Ht & _ & _ & Hclear & Hvf)|c r _ [Hq|[t Hd]]
    |c r _ _ (_ & _ & _ & _ & Hnl & Hnc & _)|v r n Hin Ht Hg Hn' (Hc & Ht' & Hv' & _ & Hvoted & _)].
  - by apply Hquiet.
  - by destruct (Hnodown t).
  - rewrite Hf in Hst. by destruct Hst.
  - rewrite Hme in Hvf. rewrite Hids, Hid in Hvf. split; [congruence|].
    intros n v Hin Hhas. by destruct (Hclear n Hin).
  - by apply Hquiet.
  - by destruct (Hnodown t).
  - by destruct Hst.
  - destruct (IH (or_introl Hc)) as [Hvf Hvotes]. split; [congruence|].
    intros m w Hm Hhas Hne Hw. rewrite Hn in Hm. rewrite Hids in Hw. rewrite Ht'.
    destruct (Hvoted m Hhas) as [Hold|Hnew]; [by apply (Hvotes m)|].
    pose proof (Hn' m Hnew) as Hv. split; [done|]. exists r. split; [|done]. congruence.
Qed.
End Transition.

(** ** The nodes of a configured server *)
Definition id_of (s : raft_server_t) (n : loc) : Z := default 0 (fst ∘ fst <$> ballots s n).

Lemma configured_ids ids i s : configured ids i s → id_of s <$> nodes s = ids.
Proof.
  intros [Hn _]. revert Hn. generalize (nodes s). intros ns. revert ids.
  induction ns as [|n ns IH]; intros [|v ids] Hn; try done. injection Hn as Hn Hrest.
  cbn. f_equal; [|by apply IH]. unfold id_of. destruct (ballots s n) as [[[x b] h]|]; [|done].
  cbn in Hn. by injection Hn as -> _.
Qed.

Lemma configured_unique ids i s n n' :
  NoDup ids → configured ids i s → n ∈ nodes s → n' ∈ nodes s → id_of s n = id_of s n' → n = n'.
Proof.
  intros Hnd Hc Hin Hin' Heq. pose proof (configured_ids _ _ _ Hc) as Hids.
  apply list_elem_of_lookup in Hin as [k Hk]. apply list_elem_of_lookup in Hin' as [k' Hk'].
  assert (k = k') as ->; [|congruence].
  apply (NoDup_lookup ids _ _ (id_of s n)); [done| |]; rewrite <- Hids, list_lookup_fmap.
  - by rewrite Hk.
  - by rewrite Hk', Heq.
Qed.

Lemma configured_known ids i s n :
  configured ids i s → n ∈ nodes s → fst ∘ fst <$> ballots s n = Some (id_of s n) ∧ id_of s n ∈ ids.
Proof.
  intros Hc Hin. split.
  - assert (fst <$> ballots s n ∈ (λ v, Some (v, true)) <$> ids) as (v & Hv & _)%list_elem_of_fmap.
    { rewrite <- (cf_nodes _ _ _ Hc). by apply (list_elem_of_fmap_2 (λ n, fst <$> ballots s n)). }
    unfold id_of. destruct (ballots s n); done.
  - rewrite <- (configured_ids _ _ _ Hc). by apply list_elem_of_fmap_2.
Qed.

Lemma configured_me ids i s me :
  configured ids i s → node s = Some me → id_of s me = i ∧ me ∈ nodes s.
Proof.
  intros [_ (me' & Hme & Hin & Hb)] Hme'. assert (me' = me) as -> by congruence. split; [|done].
  unfold id_of. destruct (ballots s me) as [[[x b] h]|]; [|done]. cbn in Hb. by injection Hb as -> _.
Qed.

(** The majority that a new leader counted. *)
Lemma elected_quorum ids i s me :
  NoDup ids → i ∈ ids → configured ids i s → node s = Some me → voted_for s = i →
  raft_votes_is_majority (num_nodes s)
    (Z.of_nat (length (votes_of s)) + (if voted_for s =? i then 1 else 0)) = true →
  ∃ Q, NoDup Q ∧ Q ⊆ ids ∧ (length ids < 2 * length Q)%nat ∧
    ∀ v, v ∈ Q → v ≠ i → ∃ n, n ∈ nodes s ∧ has_voted s n ∧ n ≠ me ∧
      fst ∘ fst <$> ballots s n = Some v.
Proof.
  intros Hnd Hi Hc Hme Hvf Hmaj. exists (i :: (id_of s <$> votes_of s)).
  pose proof (configured_ids _ _ _ Hc) as Hids. destruct (configured_me _ _ _ _ Hc Hme) as [Hid _].
  assert (votes_of s `sublist_of` nodes s) as Hsub by apply sublist_filter.
  assert (∀ n, n ∈ votes_of s → n ∈ nodes s ∧ has_voted s n ∧ n ≠ me) as Hin.
  { intros n. unfold votes_of. rewrite list_elem_of_filter, Hme. intros [(? & _ & ?) ?].
    split_and!; [done|done|congruence]. }
  split_and!.
  - apply NoDup_cons. split.
    + intros (n & Heq & Hn)%list_elem_of_fmap. apply Hin in Hn as (Hn & _ & Hne). apply Hne.
      apply (configured_unique ids i s); try done; [by apply (configured_me _ _ _ _ Hc)|congruence].
    + apply (sublist_NoDup _ (id_of s <$> nodes s)); [by rewrite Hids|by apply fmap_sublist].
  - intros v [->|(n & -> & Hn)%list_elem_of_fmap]%elem_of_cons; [done|].
    apply (configured_known _ _ _ _ Hc). by apply Hin.
  - rewrite Hvf, Z.eqb_refl in Hmaj. unfold raft_votes_is_majority, num_nodes in Hmaj.
    rewrite <- Hids, length_fmap. cbn [length]. rewrite length_fmap.
    destruct (_ <? _); [done|]. apply Z.leb_le in Hmaj.
    rewrite Z.quot_div_nonneg in Hmaj by lia.
    pose proof (Z.div_mod (Z.of_nat (length (nodes s))) 2) as Hdm.
    pose proof (Z.mod_pos_bound (Z.of_nat (length (nodes s))) 2). lia.
  - intros v [->|(n & -> & Hn)%list_elem_of_fmap]%elem_of_cons Hv; [done|].
    apply Hin in Hn as (Hn & Hvoted & Hne). exists n. split_and!; try done.
    by apply (configured_known _ _ _ _ Hc).
Qed.

Lemma configured_same ids i s s' : configured ids i s → same_members s s' → configured ids i s'.
Proof.
  intros [Hn (me & Hme & Hin & Hb)] (H1 & H2 & H3). split.
  - rewrite H1, <- Hn. apply list_fmap_ext. intros k n _. apply H3.
  - exists me. rewrite H1, H2, H3. done.
Qed.

(** ** Every step keeps the invariants *)
Section Preserved.
Context (ids : list Z) (Hnodup : NoDup ids) (Hids : -1 ∉ ids).
Context (C : cluster) (Hok : voting_ok ids C).
Context (i : Z) (s s' : raft_server_t) (sent : list (Z * Z * msg_requestvote_response_t)).
Context (Hs : servers C !! i = Some s) (Htr : transition C i s s' sent).

Let C' := update i s' sent C.

Lemma updated_server j x :
  servers C' !! j = Some x → j = i ∧ x = s' ∨ j ≠ i ∧ servers C !! j = Some x.
Proof. cbn. intros [[-> ->]|[? ?]]%lookup_insert_Some; auto. Qed.

Lemma server_configured : configured ids i s ∧ i ∈ ids ∧ configured ids i s'.
Proof.
  destruct (vo_configured _ _ Hok i s Hs) as [Hc Hi]. split_and!; [done|done|].
  eapply configured_same; [done|by eapply transition_members].
Qed.

Lemma preserved_bound v c t : vote C' v c t → ∃ x, servers C' !! v = Some x ∧ t ≤ current_term x ∧
  (t = current_term x → voted_for x = c ∧ state x ≠ RAFT_STATE_LEADER ∧ state x ≠ RAFT_STATE_CANDIDATE).
Proof.
  intros Hv. pose proof Hv as (Hc & _).
  destruct (transition_votes C i s s' sent Htr v c t Hv) as [Hold|(-> & _ & -> & Hvf & Hidle & _)].
  - destruct (vo_bound _ _ Hok v c t Hold) as (x & Hx & Hle & Hb).
    destruct (decide (v = i)) as [->|Hne]; cycle 1.
    { exists x. cbn. by rewrite lookup_insert_ne. }
    assert (x = s) as -> by congruence. exists s'. cbn. rewrite lookup_insert_eq.
    pose proof (transition_term C i s s' sent Htr). split_and!; [done|lia|]. intros ->.
    assert (current_term s' = current_term s) as Ht by lia. destruct (Hb Ht) as (Hvf & Hidle).
    destruct (transition_bound C i s s' sent Htr) as [Hv' Hi']; [congruence|exact Hidle|done|].
    by rewrite Hv', Hvf.
  - exists s'. cbn. rewrite lookup_insert_eq. by split_and!.
Qed.

Lemma preserved_once v c c' t : vote C' v c t → vote C' v c' t → c = c'.
Proof.
  assert (∀ c, c ≠ -1 → vote C v c t → v = i → t = current_term s' →
    (current_term s = t → voted_for s = -1 ∧ idle s) → False) as Hclash.
  { intros c0 Hc0 Hold -> -> Hnew. destruct (vo_bound _ _ Hok i c0 _ Hold) as (x & Hx & Hle & Hb).
    assert (x = s) as -> by congruence. pose proof (transition_term C i s s' sent Htr).
    assert (current_term s = current_term s') as Ht by lia.
    destruct (Hnew Ht) as [Hneg _]. destruct Hb as [Hvf _]; [done|congruence]. }
  intros Hv Hv'. pose proof Hv as (Hc & _). pose proof Hv' as (Hc' & _).
  destruct (transition_votes C i s s' sent Htr v c t Hv) as [Hold|(Hi & _ & Ht & Hvf & _ & Hnew)],
    (transition_votes C i s s' sent Htr v c' t Hv') as [Hold'|(Hi' & _ & Ht' & Hvf' & _ & Hnew')].
  - by apply (vo_once _ _ Hok v c c' t).
  - destruct (Hclash c Hc Hold Hi' Ht' Hnew').
  - destruct (Hclash c' Hc' Hold' Hi Ht Hnew).
  - congruence.
Qed.

Lemma preserved_counted c x :
  servers C' !! c = Some x → state x = RAFT_STATE_CANDIDATE ∨ state x = RAFT_STATE_LEADER →
  voted_for x = c ∧ ∀ n v, n ∈ nodes x → has_voted x n → node x ≠ Some n →
    fst ∘ fst <$> ballots x n = Some v → vote C' v c (current_term x).
Proof.
  intros [[-> ->]|[Hne Hx]]%updated_server Hst.
  - destruct server_configured as (Hcf & Hi & Hcf').
    destruct (cf_me _ _ _ Hcf) as (me & Hme & _ & Hb). pose proof (transition_members C i s s' sent Htr) as (_ & Hn & _).
    destruct (transition_counted C i s s' sent Htr me) as [Hvf Hvotes]; [done| | | |done|].
    + destruct (ballots s me) as [[[y b] h]|]; [|done]. cbn in *. by injection Hb as -> _.
    + by intros ->.
    + intros Hst0. destruct (vo_counted _ _ Hok i s Hs Hst0) as [Hvf Hvotes]. split; [done|].
      intros n v Hin Hhas Hne. apply Hvotes; [done|done|congruence].
    + split; [done|]. intros n v Hin Hhas Hne Hv. apply vote_mono, (Hvotes n); try done. congruence.
  - destruct (vo_counted _ _ Hok c x Hx Hst) as [Hvf Hvotes]. split; [done|].
    intros n v Hin Hhas Hn Hv. by apply vote_mono, (Hvotes n).
Qed.

Lemma preserved_led t c :
  (t, c) ∈ leaders C →
  (∃ x, servers C' !! c = Some x ∧ t ≤ current_term x ∧ (t = current_term x → state x = RAFT_STATE_LEADER)) ∧
  (∀ c', ¬ vote C' c c' t).
Proof.
  intros Hl. destruct (vo_leaders _ _ Hok t c Hl) as ((x & Hx & Hle & Hst) & Hno & _).
  pose proof (transition_term C i s s' sent Htr) as Hmono. split.
  - destruct (decide (c = i)) as [->|Hne]; [|exists x; cbn; by rewrite lookup_insert_ne].
    assert (x = s) as -> by congruence. exists s'. cbn. rewrite lookup_insert_eq.
    split_and!; [done|lia|]. intros ->.
    apply (transition_leads C i s s' sent Htr); [apply Hst; lia|lia].
  - intros c' [Hold|(-> & _ & -> & _ & _ & Hnew)]%(transition_votes C i s s' sent Htr); [by eapply Hno|].
    assert (x = s) as -> by congruence.
    assert (current_term s = current_term s') as Ht by lia.
    destruct (Hnew Ht) as (_ & Hnl & _). apply Hnl, Hst. lia.
Qed.

Lemma elected_ok :
  state s' = RAFT_STATE_LEADER → (current_term s', i) ∉ leaders C →
  (∀ c', ¬ vote C' i c' (current_term s')) ∧
  ∃ Q, NoDup Q ∧ Q ⊆ ids ∧ (length ids < 2 * length Q)%nat ∧
    ∀ v, v ∈ Q → v ≠ i → vote C' v i (current_term s').
Proof.
  intros Hl Hnew. destruct (transition_elected C i s s' sent Htr Hl) as [Ht [Hold|(Hc & me & nd & Hme & Hnd & Hmaj)]].
  { destruct Hnew. rewrite Ht. by apply (vo_seen _ _ Hok). }
  split.
  - intros c' [Hv|(_ & _ & _ & _ & [Hnl _] & _)]%(transition_votes C i s s' sent Htr); [|done].
    destruct (vo_bound _ _ Hok _ _ _ Hv) as (x & Hx & _ & Hb). assert (x = s) as -> by congruence.
    by destruct (Hb Ht) as (_ & _ & ?).
  - destruct server_configured as (Hcf & Hi & Hcf').
    assert (servers C' !! i = Some s') as Hs' by (cbn; apply lookup_insert_eq).
    destruct (preserved_counted i s' Hs' (or_intror Hl)) as [Hvf Hvotes].
    destruct (configured_me _ _ _ _ Hcf' Hme) as [Hid Hin].
    destruct (configured_known _ _ _ _ Hcf' Hin) as [Hk _]. assert (nd = i) as -> by congruence.
    destruct (elected_quorum ids i s' me) as (Q & Hnd' & Hsub & Hlen & HQ); try done.
    exists Q. split_and!; try done. intros v Hv Hne.
    destruct (HQ v Hv Hne) as (n & Hnn & Hhas & Hnme & Hvid). apply (Hvotes n); try done. congruence.
Qed.

Lemma voting_ok_update : voting_ok ids C'.
Proof.
  destruct server_configured as (Hcf & Hi & Hcf'). split.
  - intros j x [[-> ->]|[_ Hx]]%updated_server; [done|by apply (vo_configured _ _ Hok)].
  - apply preserved_bound.
  - apply preserved_once.
  - apply preserved_counted.
  - intros t c Hin. destruct (decide ((t, c) ∈ leaders C)) as [Hold|Hnew].
    + destruct (preserved_led t c Hold) as [Hx Hno]. split; [done|]. split; [done|].
      destruct (vo_leaders _ _ Hok t c Hold) as (_ & _ & Q & Hnd & Hsub & Hlen & HQ).
      exists Q. split_and!; try done. intros v Hv Hne. by apply vote_mono, HQ.
    + assert (state s' = RAFT_STATE_LEADER ∧ (t, c) = (current_term s', i)) as [Hl [= -> ->]].
      { subst C'. unfold update, raft_is_leader in Hin. cbn in Hin. case_bool_decide; [|done].
        apply elem_of_cons in Hin as [?|?]; done. }
      destruct (elected_ok Hl Hnew) as [Hno HQ]. split; [|done].
      exists s'. cbn. rewrite lookup_insert_eq. by split_and!.
  - intros c x [[-> ->]|[_ Hx]]%updated_server Hl.
    + subst C'. cbn. unfold raft_is_leader. rewrite bool_decide_eq_true_2 by done. apply elem_of_cons. by left.
    + pose proof (vo_seen _ _ Hok c x Hx Hl). subst C'. cbn. destruct (raft_is_leader s'); [|done].
      apply elem_of_cons. by right.
Qed.
End Preserved.

Lemma voting_ok_step ids C C' :
  NoDup ids → -1 ∉ ids → voting_ok ids C → cstep C C' → voting_ok ids C'.
Proof.
  intros Hnd Hids Hok (i & s & s' & sent & Hs & -> & Htr)%cstep_transition.
  by apply (voting_ok_update ids Hnd Hids C Hok i s s').
Qed.

(** ** The servers as they are started *)
Lemma find_node_none v ns : ∀ s,
  Forall (λ n, ∃ nd, objs s !! n = Some nd ∧ node_id nd ≠ v) ns → find_node v ns s = Done None s.
Proof.
  induction ns as [|n ns IH]; intros s Hall; [done|].
  apply Forall_cons in Hall as [(nd & Hnd & Hne) Hall]. cbn [find_node].
  assert (node_obj n s = Done nd s) as Hobj by (unfold node_obj; by rewrite Hnd).
  rewrite (bind_Done _ _ _ _ _ Hobj). rewrite (proj2 (Z.eqb_neq _ _)) by done. by apply IH.
Qed.

(** The nodes [pre] of a server that is being started. *)
Record starting (i : Z) (pre : list Z) (s : raft_server_t) : Prop := {
  sp_nodes : (λ n, fst <$> ballots s n) <$> nodes s = (λ v, Some (v, true)) <$> pre;
  sp_role : role s = (0, -1, RAFT_STATE_FOLLOWER);
  sp_me : i ∈ pre → ∃ me, node s = Some me ∧ me ∈ nodes s ∧ fst <$> ballots s me = Some (i, true);
}.

Lemma starting_forall i pre s v :
  starting i pre s → v ∉ pre → Forall (λ n, ∃ nd, objs s !! n = Some nd ∧ node_id nd ≠ v) (nodes s).
Proof.
  intros [Hn _ _] Hv. apply Forall_forall. intros n Hin.
  assert (fst <$> ballots s n ∈ (λ v, Some (v, true)) <$> pre) as (w & Hw & Hpre)%list_elem_of_fmap.
  { rewrite <- Hn. by apply (list_elem_of_fmap_2 (λ n, fst <$> ballots s n)). }
  unfold ballots in Hw. destruct (objs s !! n) as [nd|]; [|done]. exists nd. split; [done|].
  injection Hw as Hid _. congruence.
Qed.

Lemma add_node_starting i pre s v :
  starting i pre s → v ∉ pre →
  ∃ n s', raft_add_node v (v =? i) s = Done n s' ∧ starting i (pre ++ [v]) s'.
Proof.
  intros Hsp Hv. pose proof (starting_forall _ _ _ _ Hsp Hv) as Hall.
  unfold raft_add_node. assert (raft_get_node v s = Done None s) as Hnone.
  { unfold raft_get_node. rewrite bind_get. by apply find_node_none. }
  rewrite (bind_Done _ _ _ _ _ Hnone). rewrite bind_get. munfold.
  set (n := fresh (dom (objs s))).
  assert (objs s !! n = None) as Hfresh by (apply not_elem_of_dom, is_fresh).
  eexists n, _. split; [reflexivity|].
  assert (∀ m, m ∈ nodes s → m ≠ n) as Hold.
  { intros m Hm ->. rewrite Forall_forall in Hall. destruct (Hall n Hm) as (nd & ? & _). congruence. }
  set (s1 := set_nodes (nodes s ++ [n]) (set_objs (<[n:=raft_node_new v]> (objs s)) s)).
  assert (∀ m, m ≠ n → ballots s1 m = ballots s m) as Hother.
  { intros m Hm. unfold ballots. cbn. by rewrite lookup_insert_ne. }
  assert (fst <$> ballots s1 n = Some (v, true)) as Hnew.
  { unfold ballots. cbn. by rewrite lookup_insert_eq. }
  assert ((λ n, fst <$> ballots s1 n) <$> nodes s1 = (λ v, Some (v, true)) <$> (pre ++ [v])) as Hnodes.
  { subst s1. cbn [nodes set_nodes]. rewrite !fmap_app, <- (sp_nodes _ _ _ Hsp). f_equal.
    - apply list_fmap_ext. intros k m Hk. by rewrite Hother by (eapply Hold, list_elem_of_lookup_2, Hk).
    - cbn [fmap list_fmap]. by rewrite Hnew. }
  destruct (Z.eqb_spec v i) as [->|Hne].
  - split; [exact Hnodes|apply (sp_role _ _ _ Hsp)|]. intros _. exists n. split; [done|].
    split; [apply elem_of_app; right; by apply list_elem_of_singleton|exact Hnew].
  - split; [exact Hnodes|apply (sp_role _ _ _ Hsp)|]. intros [Hi|Hi]%elem_of_app; [|apply list_elem_of_singleton in Hi; congruence].
    destruct (sp_me _ _ _ Hsp Hi) as (me & Hme & Hin & Hb). exists me. split; [done|].
    split; [apply elem_of_app; by left|]. rewrite Hother by (by apply Hold). done.
Qed.

Lemma add_all_starting i ids : ∀ pre s,
  starting i pre s → NoDup (pre ++ ids) → ∃ s', add_all i ids s = Done tt s' ∧ starting i (pre ++ ids) s'.
Proof.
  induction ids as [|v ids IH]; intros pre s Hsp Hnd.
  - exists s. by rewrite app_nil_r.
  - assert (v ∉ pre) as Hv.
    { apply NoDup_app in Hnd as (_ & Hdis & _). intros Hin. apply (Hdis v Hin). apply elem_of_cons. by left. }
    destruct (add_node_starting i pre s v Hsp Hv) as (n & s1 & Hadd & Hsp1).
    destruct (IH (pre ++ [v]) s1 Hsp1) as (s2 & Hrun & Hsp2); [by rewrite <- app_assoc|].
    exists s2. cbn [add_all]. rewrite (bind_Done _ _ _ _ _ Hadd), Hrun.
    split; [done|]. by rewrite <- app_assoc in Hsp2.
Qed.

Lemma boot_configured funcs ids i :
  NoDup ids → i ∈ ids →
  configured ids i (boot funcs ids i) ∧ role (boot funcs ids i) = (0, -1, RAFT_STATE_FOLLOWER).
Proof.
  intros Hnd Hi. unfold boot.
  destruct (add_all_starting i ids [] (raft_set_callbacks funcs raft_new)) as (s & Hrun & Hsp); [split; [done|done|by intros ?%not_elem_of_nil]|done|].
  rewrite Hrun. destruct Hsp as [Hn Hr Hme]. split; [|done]. split; [done|]. by apply Hme.
Qed.

Lemma cluster_new_ok funcs ids : NoDup ids → voting_ok ids (cluster_new funcs ids).
Proof.
  intros Hnd. assert (∀ i s, servers (cluster_new funcs ids) !! i = Some s →
    i ∈ ids ∧ s = boot funcs ids i) as Hserver.
  { cbn. intros i s Hs. apply elem_of_list_to_map_2, list_elem_of_fmap in Hs as (j & [= -> ->] & Hj). done. }
  split.
  - intros i s [Hi ->]%Hserver. split; [by apply boot_configured|done].
  - intros v c t (_ & r & Hin & _). by apply not_elem_of_nil in Hin.
  - intros v c c' t (_ & r & Hin & _). by apply not_elem_of_nil in Hin.
  - intros c s [Hi ->]%Hserver Hst. destruct (boot_configured funcs ids c Hnd Hi) as [_ [= _ _ Hf]].
    rewrite Hf in Hst. by destruct Hst.
  - intros t c Hin. by apply not_elem_of_nil in Hin.
  - intros c s [Hi ->]%Hserver Hst. destruct (boot_configured funcs ids c Hnd Hi) as [_ [= _ _ Hf]].
    congruence.
Qed.

Lemma voting_ok_reachable funcs ids C :
  NoDup ids → -1 ∉ ids → rtc cstep (cluster_new funcs ids) C → voting_ok ids C.
Proof.
  intros Hnd Hids Hr. pose proof (cluster_new_ok funcs ids Hnd) as Hok. revert Hok.
  induction Hr as [|C1 C2 C3 Hstep _ IH]; [done|]. intros Hok. by apply IH, (voting_ok_step ids C1).
Qed.

(** ** Properties *)

(** C1: election safety.  In a cluster started with distinct node ids, whatever
    requests arrive anywhere, in whatever order, lost or repeated, whatever the
    timers and the clients do, no two servers are ever leaders of the same term: not
    at one time, nor one after the other. *)
Theorem election_safety funcs ids C :
  NoDup ids → -1 ∉ ids → rtc cstep (cluster_new funcs ids) C →
  (∀ t c c', (t, c) ∈ leaders C → (t, c') ∈ leaders C → c = c') ∧
  (∀ c s, servers C !! c = Some s → state s = RAFT_STATE_LEADER → (current_term s, c) ∈ leaders C).
Proof.
  intros Hnd Hids Hr. pose proof (voting_ok_reachable funcs ids C Hnd Hids Hr) as Hok. split.
  - intros t c c'. by apply voting_ok_one_leader with ids.
  - intros c s. by apply (vo_seen ids C Hok).
Qed.

(** One vote per term.  A server grants its vote to one candidate in a term, and
    as long as it stays in the term it remembers the candidate and neither stands nor
    leads. *)
Theorem one_vote_per_term funcs ids C v c c' r r' :
  NoDup ids → -1 ∉ ids → rtc cstep (cluster_new funcs ids) C →
  c ≠ -1 → c' ≠ -1 →
  (v, c, r) ∈ responses C → vr_vote_granted r = 1 →
  (v, c', r') ∈ responses C → vr_vote_granted r' = 1 → vr_term r = vr_term r' →
  c = c' ∧ ∃ s, servers C !! v = Some s ∧ vr_term r ≤ current_term s ∧
    (vr_term r = current_term s → voted_for s = c ∧ state s ≠ RAFT_STATE_LEADER ∧ state s ≠ RAFT_STATE_CANDIDATE).
Proof.
  intros Hnd Hids Hr Hc Hc' Hin Hg Hin' Hg' Ht.
  pose proof (voting_ok_reachable funcs ids C Hnd Hids Hr) as Hok.
  assert (vote C v c (vr_term r)) as Hv by (split; eauto).
  split; [|by apply (vo_bound ids C Hok)].
  apply (vo_once ids C Hok v c c' (vr_term r) Hv). split; [done|]. exists r'. by split_and!.
Qed.

(** ** Witnesses: server 1 of three is elected with the vote of server 2. *)
Definition after {A} (m : M raft_server_t A) (s : raft_server_t) : raft_server_t :=
  match m s with Done _ s' => s' | _ => s end.

Definition three : list Z := [1; 2; 3].
Definition candidate_1 : raft_server_t := after (raft_periodic 7 1000) (boot all_cbs three 1).
Definition request_1 : msg_requestvote_t := mkRequestVote 1 1 0 0.
Definition voter_2 : raft_server_t := after (raft_recv_requestvote request_1) (boot all_cbs three 2).
Definition yes_1 : msg_requestvote_response_t := mkVoteResponse 1 1.
Definition node_2 : loc := match raft_get_node 2 candidate_1 with Done (Some n) _ => n | _ => 1%positive end.
Definition leader_1 : raft_server_t :=
  after (raft_recv_requestvote_response (Some node_2) yes_1) candidate_1.
Definition voted_2 : cluster :=
  update 2 voter_2 [(2, 1, yes_1)] (update 1 candidate_1 [] (cluster_new all_cbs three)).
Definition elected_1 : cluster := update 1 leader_1 [] voted_2.

Lemma voted_2_reachable : rtc cstep (cluster_new all_cbs three) voted_2.
Proof.
  eapply rtc_l; [|eapply rtc_l; [|apply rtc_refl]].
  - apply (step_periodic _ 1 (boot all_cbs three 1) 7 1000 0); vm_compute; reflexivity.
  - apply (step_requestvote _ 2 (boot all_cbs three 2) request_1 yes_1); vm_compute; reflexivity.
Qed.

Lemma elected_1_reachable : rtc cstep (cluster_new all_cbs three) elected_1.
Proof.
  eapply rtc_r; [apply voted_2_reachable|].
  eapply (step_requestvote_response _ 1 candidate_1 2 yes_1 (Some node_2) 0); [|left| |]; vm_compute; reflexivity.
Qed.

Lemma three_ok : NoDup three ∧ -1 ∉ three.
Proof. split; by apply (bool_decide_unpack _); vm_compute. Qed.

Lemma election_safety_witness :
  (1, 1) ∈ leaders elected_1 ∧ ∀ c, (1, c) ∈ leaders elected_1 → c = 1.
Proof.
  destruct (election_safety all_cbs three elected_1) as [Hone Hseen].
  - apply three_ok.
  - apply three_ok.
  - apply elected_1_reachable.
  - assert ((1, 1) ∈ leaders elected_1) as Hin.
    { apply (Hseen 1 leader_1); vm_compute; reflexivity. }
    split; [exact Hin|]. intros c Hc. exact (Hone 1 c 1 Hc Hin).
Defined.

Lemma one_vote_per_term_witness :
  ∃ s, servers voted_2 !! 2 = Some s ∧ voted_for s = 1.
Proof.
  destruct (one_vote_per_term all_cbs three voted_2 2 1 1 yes_1 yes_1) as (_ & s & Hs & _ & Hb).
  - apply three_ok.
  - apply three_ok.
  - apply voted_2_reachable.
  - done.
  - done.
  - left.
  - done.
  - left.
  - done.
  - done.
  - exists s. split; [exact Hs|]. apply Hb. assert (s = voter_2) as ->.
    { assert (servers voted_2 !! 2 = Some voter_2) as Hs' by (vm_compute; reflexivity). congruence. }
    vm_compute. reflexivity.
Defined.
