(* ===== verification/RaftReplication.v ===== *)
(** Replication: what the handlers of the Raft server do to the log, the commit index
    and the state machine. *)

From S2P Require Import Prelude RaftLog Raft RaftElection.

(** ** The invariant of the indices.  The server never polls its log. *)
Record raft_ok (s : raft_server_t) : Prop := {
  ro_log : log_ok (log s);
  ro_base : base (log s) = 0;
  ro_front : front (log s) = 0;
  ro_applied : 0 ≤ last_applied_idx s ≤ commit_idx s;
  ro_commit : commit_idx s ≤ count (log s);
}.

Definition entries_of (s : raft_server_t) : list raft_entry_t := log_list (log s).

Lemma current_idx_count s : raft_ok s → raft_get_current_idx s = count (log s).
Proof. intros Hok. unfold raft_get_current_idx, log_get_current_idx, log_count. rewrite (ro_base s Hok). lia. Qed.

Lemma current_idx_length s : raft_ok s → raft_get_current_idx s = Z.of_nat (length (entries_of s)).
Proof. intros Hok. rewrite current_idx_count by done. symmetry. apply log_list_length, (ro_log s Hok). Qed.

(** The log, the commit index and the applied index. *)
Definition indices (s : raft_server_t) : log_t * Z * Z := (log s, commit_idx s, last_applied_idx s).

Lemma raft_ok_indices s s' : indices s' = indices s → raft_ok s → raft_ok s'.
Proof. intros [= H1 H2 H3] []. split; rewrite ?H1, ?H2, ?H3; done. Qed.

(** What never goes back: the term, the indices and the committed entries. *)
Definition forward (s s' : raft_server_t) : Prop :=
  raft_ok s → raft_ok s' ∧ current_term s ≤ current_term s' ∧ commit_idx s ≤ commit_idx s' ∧
    last_applied_idx s ≤ last_applied_idx s' ∧
    take (Z.to_nat (commit_idx s)) (entries_of s') = take (Z.to_nat (commit_idx s)) (entries_of s).

#[export] Instance forward_preorder : PreOrder forward.
Proof.
  split; [intros s Hok; split_and!; (done || lia)|].
  intros s1 s2 s3 H12 H23 Hok1. destruct (H12 Hok1) as (Hok2 & Ht & Hc & Ha & Hp).
  destruct (H23 Hok2) as (Hok3 & Ht' & Hc' & Ha' & Hp').
  split_and!; [done|lia|lia|lia|]. rewrite <- Hp.
  replace (Z.to_nat (commit_idx s1)) with (Z.to_nat (commit_idx s1) `min` Z.to_nat (commit_idx s2))%nat by lia.
  by rewrite <- !take_take, Hp'.
Qed.

Lemma forward_same s s' : indices s' = indices s → current_term s ≤ current_term s' → forward s s'.
Proof.
  intros Hi Ht Hok. split; [by eapply raft_ok_indices|]. unfold entries_of.
  injection Hi as -> -> ->. split_and!; (done || lia).
Qed.

Definition same_indices (s s' : raft_server_t) : Prop :=
  indices s' = indices s ∧ current_term s ≤ current_term s'.

Lemma forward_modify (f : raft_server_t → raft_server_t) :
  (∀ s, indices (f s) = indices s) → (∀ s, current_term s ≤ current_term (f s)) → keeps forward (modify f).
Proof. intros Hi Ht. apply keeps_modify. intros s. by apply forward_same. Qed.

(** ** Reading computations change nothing *)
Definition reads {A} (m : M raft_server_t A) : Prop := keeps (λ s s', s' = s) m.

#[export] Instance reads_preorder : PreOrder (λ s s' : raft_server_t, s' = s).
Proof. split; [by intros s|by intros s1 s2 s3 -> ->]. Qed.

Lemma reads_forward {A} (m : M raft_server_t A) : reads m → keeps forward m.
Proof. intros Hr s a s' Hrun. rewrite (Hr _ _ _ Hrun). reflexivity. Qed.

Lemma reads_on_log {A} (m : M log_t A) : keeps (λ l l', l' = l) m → reads (on_log m).
Proof.
  intros Hm s a s'. unfold on_log, zoom. destruct (m (log s)) eqn:E; try done.
  intros [= _ <-]. rewrite (Hm _ _ _ E). by destruct s.
Qed.

#[export] Instance log_same_preorder : PreOrder (λ l l' : log_t, l' = l).
Proof. split; [by intros l|by intros l1 l2 l3 -> ->]. Qed.

Lemma reads_slot i : keeps (λ l l', l' = l) (read_slot i).
Proof. intros l a l'. unfold read_slot. destruct (entry_at i l); [|done]. by intros [= _ <-]. Qed.
#[export] Hint Resolve reads_slot : keeps.

Lemma reads_run n : ∀ i, keeps (λ l l', l' = l) (read_run n i).
Proof. induction n as [|n IH]; intros i; cbn; repeat keep_step. Qed.

Lemma reads_entry_at i : reads (raft_get_entry_from_idx i).
Proof. apply reads_on_log. unfold log_get_at_idx. repeat keep_step. Qed.

Lemma reads_entries_from i : reads (raft_get_entries_from_idx i).
Proof. apply reads_on_log. unfold log_get_from_idx. repeat keep_step. Qed.

Lemma reads_entry i : reads (entry i).
Proof. apply reads_on_log, reads_slot. Qed.

Lemma reads_obj n : reads (node_obj n).
Proof. intros s a s'. unfold node_obj. destruct (_ !! _); [|done]. by intros [= _ <-]. Qed.

Lemma reads_not_null {A} (p : option A) : reads (not_null p).
Proof. destruct p; [by intros s x s' [= _ <-]|done]. Qed.
#[export] Hint Resolve reads_entry_at reads_entries_from reads_entry reads_obj reads_not_null : keeps.
#[export] Hint Extern 1 (keeps (λ s s', s' = s) _) =>
  first [apply reads_entry_at|apply reads_entry|apply reads_obj|apply reads_not_null] : keeps.
#[export] Hint Extern 8 (keeps forward _) => apply reads_forward; solve [eauto with keeps] : keeps.
#[export] Hint Extern 5 (keeps forward (modify _)) =>
  apply forward_modify; intros ?; (done || reflexivity) : keeps.

(** ** Each handler only goes forward *)
Lemma call_indices on c s : indices (call on c s) = indices s ∧ current_term (call on c s) = current_term s.
Proof. unfold call. by destruct (on (cbs s)). Qed.

Lemma forward_call on c : keeps forward (modify (call on c)).
Proof. apply forward_modify; intros s; [apply call_indices|rewrite (proj2 (call_indices on c s)); lia]. Qed.

Lemma forward_upd n f : keeps forward (node_upd n f).
Proof. unfold node_upd. repeat keep_step. Qed.

Lemma forward_set_term t : keeps forward (raft_set_current_term t).
Proof.
  apply forward_modify; intros s; destruct (Z.ltb_spec (current_term s) t); try (done || lia).
  - by rewrite (proj1 (call_indices _ _ _)).
  - rewrite (proj2 (call_indices _ _ _)). cbn. lia.
Qed.

Lemma forward_set_state st : keeps forward (modify (raft_set_state st)).
Proof. apply forward_modify; intros s; by destruct st. Qed.

Lemma forward_vote_for n : keeps forward (raft_vote_for_nodeid n).
Proof.
  apply forward_modify; intros s.
  - by rewrite (proj1 (call_indices _ _ _)).
  - rewrite (proj2 (call_indices _ _ _)). cbn. lia.
Qed.

Lemma forward_commit idx : keeps forward (raft_set_commit_idx idx).
Proof.
  intros s u s'. unfold raft_set_commit_idx, assert_. munfold.
  destruct (Z.leb_spec (commit_idx s) idx); [|done].
  destruct (Z.leb_spec idx (raft_get_current_idx s)) as [Hle|]; [|done]. intros [= _ <-] Hok.
  rewrite current_idx_count in Hle by done. destruct Hok as [Hl Hb Hf Ha Hc].
  split_and!; cbn; try (done || lia). split; cbn; (done || lia).
Qed.

Lemma forward_commit_all : keeps forward (modify (λ s, set_commit_idx (raft_get_current_idx s) s)).
Proof.
  intros s u s' [= _ <-] Hok. pose proof (current_idx_count s Hok) as Hidx. rewrite Hidx.
  destruct Hok as [Hl Hb Hf Ha Hc]. split_and!; cbn; try (done || lia). split; cbn; (done || lia).
Qed.

Lemma forward_log (l' : log_t) s :
  raft_ok s → log_ok l' → base l' = 0 → front l' = 0 →
  commit_idx s ≤ count l' →
  take (Z.to_nat (commit_idx s)) (log_list l') = take (Z.to_nat (commit_idx s)) (entries_of s) →
  raft_ok (set_log l' s) ∧ current_term s ≤ current_term (set_log l' s) ∧
  commit_idx s ≤ commit_idx (set_log l' s) ∧ last_applied_idx s ≤ last_applied_idx (set_log l' s) ∧
  take (Z.to_nat (commit_idx s)) (entries_of (set_log l' s)) = take (Z.to_nat (commit_idx s)) (entries_of s).
Proof.
  intros [Hl Hb Hf Ha Hc] Hok' Hb' Hf' Hle Htake.
  split_and!; cbn; try (done || lia).
Qed.

Lemma delete_spec idx s u s' :
  raft_ok s → 0 < idx → on_log (modify (log_delete idx)) s = Done u s' →
  s' = set_log (log_delete idx (log s)) s ∧ log_ok (log s') ∧ base (log s') = 0 ∧ front (log s') = 0 ∧
  entries_of s' = take (Z.to_nat (idx - 1)) (entries_of s).
Proof.
  intros [Hl Hb Hf Ha Hc] Hidx [= _ <-]. split; [done|].
  destruct (log_delete_spec idx (log s) Hl ltac:(lia)) as (Hok' & Hlist & Hb' & _ & Hf').
  unfold entries_of. cbn. rewrite Hlist, Hb', Hf', Hb. split_and!; try done.
  f_equal. lia.
Qed.

Lemma forward_delete idx s u s' :
  commit_idx s < idx → on_log (modify (log_delete idx)) s = Done u s' → forward s s'.
Proof.
  intros Hlt Hrun Hok. pose proof Hok as [Hl Hb Hf Ha Hc].
  destruct (delete_spec idx s u s' Hok ltac:(lia) Hrun) as (Hs' & Hok' & Hb' & Hf' & Hlist).
  pose proof (log_list_length _ Hl) as Hlen. pose proof (log_list_length _ Hok') as Hlen'.
  pose proof Hlist as Hlist0. unfold entries_of in Hlist. rewrite Hlist, length_take in Hlen'.
  subst s'. apply forward_log; try done; cbn in *.
  - lia.
  - unfold entries_of. rewrite Hlist, take_take. f_equal. lia.
Qed.

Lemma append_spec c s :
  raft_ok s →
  (id c = 0 → on_log (log_append_entry c) s = Done (-1) s) ∧
  (id c ≠ 0 → ∃ l', on_log (log_append_entry c) s = Done 0 (set_log l' s) ∧ log_ok l' ∧
    log_list l' = entries_of s ++ [c] ∧ base l' = 0 ∧ front l' = 0 ∧ count l' = count (log s) + 1).
Proof.
  intros [Hl Hb Hf Ha Hc]. unfold on_log, zoom. split.
  - intros Hid. rewrite log_append_id by done. by destruct s.
  - intros Hid. destruct (log_append_spec c (log s) Hl Hid) as (l' & Hrun & Hok' & Hlist & Hb' & _ & Hf').
    { pose proof (lo_back _ Hl). pose proof (lo_size _ Hl). lia. }
    exists l'. rewrite Hrun. split_and!; [done|done|done|congruence|by apply Hf'|].
    pose proof (log_list_length _ Hl) as Hlen. pose proof (log_list_length _ Hok') as Hlen'.
    rewrite Hlist, length_app in Hlen'. cbn in Hlen'. lia.
Qed.

Lemma forward_append_log c : keeps forward (on_log (log_append_entry c)).
Proof.
  intros s r s' Hrun Hok. destruct (append_spec c s Hok) as [Hz Hnz].
  destruct (decide (id c = 0)) as [Hid|Hid].
  - rewrite (Hz Hid) in Hrun. injection Hrun as _ <-. by apply forward_same.
  - destruct (Hnz Hid) as (l' & Hrun' & Hok' & Hlist & Hb' & Hf' & Hcount).
    rewrite Hrun' in Hrun. injection Hrun as _ <-. pose proof (ro_commit s Hok).
    apply forward_log; try done; [lia|].
    rewrite Hlist. apply take_app_le. pose proof (log_list_length _ (ro_log s Hok)). unfold entries_of. lia.
Qed.

#[export] Hint Resolve forward_call forward_upd forward_set_term forward_set_state forward_vote_for
  forward_commit forward_commit_all forward_append_log : keeps.

Lemma forward_append e : keeps forward (raft_append_entry e).
Proof. unfold raft_append_entry. repeat keep_step. Qed.

Lemma forward_apply : keeps forward raft_apply_entry.
Proof.
  unfold raft_apply_entry. intros s r s'. rewrite bind_get.
  destruct (Z.eqb_spec (last_applied_idx s) (commit_idx s)) as [|Hne]; [by intros [= _ <-]|].
  intros (o & s1 & Hget & Hrun)%bind_inv. pose proof (reads_entry_at _ _ _ _ Hget) as Heq. cbn in Heq. subst s1.
  destruct o as [i|]; [|by injection Hrun as _ <-].
  apply bind_inv in Hrun as (e & s1 & Hentry & Hrun).
  pose proof (reads_entry _ _ _ _ Hentry) as Heq. cbn in Heq. subst s1.
  apply bind_inv in Hrun as (? & s1 & [= _ <-] & Hrun).
  assert (forward s (set_last_applied_idx (last_applied_idx s + 1) s)) as Hf1.
  { intros Hok. pose proof Hok as [Hl Hb Hf Ha Hc].
    split_and!; cbn; try (done || lia). split; cbn; (done || lia). }
  etrans; [exact Hf1|]. revert Hrun. apply keeps_Done. repeat keep_step.
Qed.

Lemma forward_for_nodes test body ns :
  (∀ s n, keeps forward (test s n)) → (∀ n, keeps forward (body n)) →
  keeps forward (for_nodes test body ns).
Proof. intros Ht Hb. induction ns; cbn; repeat keep_step. Qed.

Lemma forward_other s n : keeps forward (other s n).
Proof. unfold other. repeat keep_step. Qed.

Lemma forward_other_voting s n : keeps forward (other_voting s n).
Proof. unfold other_voting. repeat keep_step. Qed.
#[export] Hint Resolve forward_append forward_apply forward_other forward_other_voting : keeps.

Ltac forward_steps := repeat first [keep_step | apply forward_for_nodes].

Lemma forward_int_add a b : keeps forward (int_add a b).
Proof. unfold int_add. forward_steps. Qed.

Lemma forward_nodeid : keeps forward raft_get_nodeid.
Proof. unfold raft_get_nodeid. forward_steps. Qed.

Lemma forward_last_log_term : keeps forward raft_get_last_log_term.
Proof. unfold raft_get_last_log_term. forward_steps. Qed.
#[export] Hint Resolve forward_int_add forward_nodeid forward_last_log_term : keeps.

Lemma forward_run n i : keeps forward (on_log (read_run n i)).
Proof. apply reads_forward, reads_on_log, reads_run. Qed.
#[export] Hint Resolve forward_run : keeps.

Lemma forward_send_requestvote n : keeps forward (raft_send_requestvote n).
Proof. unfold raft_send_requestvote. forward_steps. Qed.

Lemma forward_send_appendentries n : keeps forward (raft_send_appendentries n).
Proof. unfold raft_send_appendentries. forward_steps. Qed.
#[export] Hint Resolve forward_send_requestvote forward_send_appendentries : keeps.

Lemma forward_send_all : keeps forward raft_send_appendentries_all.
Proof. unfold raft_send_appendentries_all. forward_steps. Qed.

Lemma forward_follower : keeps forward raft_become_follower.
Proof. unfold raft_become_follower. forward_steps. Qed.

Lemma forward_leader : keeps forward raft_become_leader.
Proof. unfold raft_become_leader. forward_steps. Qed.

Lemma forward_vote n : keeps forward (raft_vote n).
Proof. unfold raft_vote. forward_steps. Qed.
#[export] Hint Resolve forward_send_all forward_follower forward_leader forward_vote : keeps.

Lemma forward_candidate rand : keeps forward (raft_become_candidate rand).
Proof. unfold raft_become_candidate. forward_steps. Qed.
#[export] Hint Resolve forward_candidate : keeps.

Lemma forward_periodic rand ms : keeps forward (raft_periodic rand ms).
Proof. unfold raft_periodic, raft_election_start. forward_steps. Qed.

Lemma forward_count_votes ns : ∀ votes, keeps forward (count_votes ns votes).
Proof. induction ns; intros votes; cbn; forward_steps. Qed.
#[export] Hint Resolve forward_count_votes : keeps.

Lemma forward_requestvote vr : keeps forward (raft_recv_requestvote vr).
Proof. unfold raft_recv_requestvote, should_grant_vote. forward_steps. Qed.

Lemma forward_requestvote_response n r : keeps forward (raft_recv_requestvote_response n r).
Proof. unfold raft_recv_requestvote_response, raft_get_nvotes_for_me. forward_steps. Qed.

Lemma forward_count_matching ns : ∀ point votes, keeps forward (count_matching point votes ns).
Proof. induction ns; intros point votes; cbn; forward_steps. Qed.
#[export] Hint Resolve forward_count_matching : keeps.

Lemma forward_appendentries_response n r : keeps forward (raft_recv_appendentries_response n r).
Proof. unfold raft_recv_appendentries_response, report_sufficient_logs. forward_steps. Qed.

Lemma forward_recv_entry e : keeps forward (raft_recv_entry e).
Proof. unfold raft_recv_entry. forward_steps. Qed.

Lemma reads_Done {A} (m : M raft_server_t A) s a s' : reads m → m s = Done a s' → s' = s.
Proof. intros Hr Hrun. exact (Hr _ _ _ Hrun). Qed.

(** [assert(me->commit_idx < idx); log_delete(me->log, idx)]. *)
Lemma forward_guarded_delete {A} idx (a : A) s r s' :
  (assert_ (commit_idx s <? idx) ;; on_log (modify (log_delete idx)) ;; mret a) s = Done r s' →
  forward s s'.
Proof.
  unfold assert_. intros (? & s1 & Hass & Hrun)%bind_inv.
  destruct (Z.ltb_spec (commit_idx s) idx); [|done]. injection Hass as _ <-.
  apply bind_inv in Hrun as (? & s1 & Hdel & [= _ <-]). by eapply forward_delete.
Qed.

Lemma forward_check_prev ae : keeps forward (check_prev ae).
Proof.
  unfold check_prev. intros s r s'. destruct (0 <? ae_prev_log_idx ae); [|by intros [= _ <-]].
  intros (o & s1 & Hget & Hrun)%bind_inv. apply reads_Done in Hget; [|apply reads_entry_at]. subst s1.
  rewrite bind_get in Hrun. destruct o as [i|]; [|by injection Hrun as _ <-].
  destruct (_ <? _); [by injection Hrun as _ <-|].
  apply bind_inv in Hrun as (e & s1 & Hentry & Hrun).
  apply reads_Done in Hentry; [|apply reads_entry]. subst s1.
  destruct (negb _); [|by injection Hrun as _ <-]. by eapply forward_guarded_delete.
Qed.

Lemma forward_trim ae : keeps forward (trim_after_heartbeat ae).
Proof.
  unfold trim_after_heartbeat. intros s r s'. rewrite bind_get.
  destruct (_ && _); [|by intros [= _ <-]]. intros Hrun.
  eapply (forward_guarded_delete (ae_prev_log_idx ae + 1) tt s tt). revert Hrun.
  unfold assert_. munfold. destruct (_ <? _); [|done]. intros ->. by destruct r.
Qed.

Lemma forward_scan etys : ∀ prev i c, keeps forward (scan_entries prev i c etys).
Proof.
  induction etys as [|ety etys IH]; intros prev i c s r s'; [by intros [= _ <-]|]. cbn [scan_entries].
  intros (o & s1 & Hget & Hrun)%bind_inv. apply reads_Done in Hget; [|apply reads_entry_at]. subst s1.
  destruct o as [slot|]; [|by injection Hrun as _ <-].
  apply bind_inv in Hrun as (e & s1 & Hentry & Hrun).
  apply reads_Done in Hentry; [|apply reads_entry]. subst s1.
  destruct (negb _); [rewrite bind_get in Hrun; by eapply forward_guarded_delete|by eapply IH].
Qed.

Lemma forward_append_rest etys : ∀ prev i c, keeps forward (append_rest prev i c etys).
Proof. induction etys; intros prev i c; cbn; forward_steps. Qed.
#[export] Hint Resolve forward_check_prev forward_trim forward_scan forward_append_rest : keeps.

Lemma forward_appendentries_term ae : keeps forward (appendentries_term ae).
Proof. unfold appendentries_term. forward_steps. Qed.
#[export] Hint Resolve forward_appendentries_term : keeps.

Lemma forward_appendentries n ae : keeps forward (raft_recv_appendentries n ae).
Proof. unfold raft_recv_appendentries, advance_commit, fail_append. forward_steps. Qed.

Lemma forward_apply_all fuel : keeps forward (raft_apply_all fuel).
Proof. induction fuel; cbn; [done|]. forward_steps. Qed.

(** ** The server as a whole: one call of its interface *)
Inductive raft_op : Type :=
| OpPeriodic (rand ms : Z)
| OpRequestVote (vr : msg_requestvote_t)
| OpRequestVoteResponse (n : option loc) (r : msg_requestvote_response_t)
| OpAppendEntries (n : option loc) (ae : msg_appendentries_t)
| OpAppendEntriesResponse (n : option loc) (r : msg_appendentries_response_t)
| OpEntry (e : raft_entry_t)
| OpApply
| OpAddNode (nodeid : Z) (is_self : bool)
| OpAddNonVotingNode (nodeid : Z) (is_self : bool)
| OpRemoveNode (n : loc).

Definition raft_step (op : raft_op) : M raft_server_t unit :=
  match op with
  | OpPeriodic rand ms => raft_periodic rand ms ;; mret tt
  | OpRequestVote vr => raft_recv_requestvote vr ;; mret tt
  | OpRequestVoteResponse n r => raft_recv_requestvote_response n r ;; mret tt
  | OpAppendEntries n ae => raft_recv_appendentries n ae ;; mret tt
  | OpAppendEntriesResponse n r => raft_recv_appendentries_response n r ;; mret tt
  | OpEntry e => raft_recv_entry e ;; mret tt
  | OpApply => raft_apply_entry ;; mret tt
  | OpAddNode v self => raft_add_node v self ;; mret tt
  | OpAddNonVotingNode v self => raft_add_non_voting_node v self ;; mret tt
  | OpRemoveNode n => raft_remove_node n
  end.

Fixpoint raft_steps (ops : list raft_op) : M raft_server_t unit :=
  match ops with
  | [] => mret tt
  | op :: rest => raft_step op ;; raft_steps rest
  end.

Lemma forward_find_node v ns : keeps forward (find_node v ns).
Proof. induction ns; cbn; forward_steps. Qed.
#[export] Hint Resolve forward_find_node forward_periodic forward_requestvote forward_requestvote_response
  forward_appendentries forward_appendentries_response forward_recv_entry : keeps.

Lemma forward_add_node v self : keeps forward (raft_add_node v self).
Proof.
  unfold raft_add_node, raft_get_node. forward_steps.
  apply forward_modify; intros s; by destruct self.
Qed.
#[export] Hint Resolve forward_add_node : keeps.

Lemma forward_add_non_voting v self : keeps forward (raft_add_non_voting_node v self).
Proof. unfold raft_add_non_voting_node. forward_steps. Qed.
#[export] Hint Resolve forward_add_non_voting : keeps.

Lemma forward_remove_node n : keeps forward (raft_remove_node n).
Proof. unfold raft_remove_node. forward_steps. Qed.
#[export] Hint Resolve forward_remove_node : keeps.

Lemma forward_step op : keeps forward (raft_step op).
Proof. destruct op; cbn [raft_step]; forward_steps. Qed.

Lemma forward_ops ops : keeps forward (raft_steps ops).
Proof. induction ops as [|op ops IH]; cbn; [forward_steps|]. pose proof (forward_step op). forward_steps. Qed.

Lemma raft_new_ok funcs : raft_ok (raft_set_callbacks funcs raft_new).
Proof. split; cbn; try lia. by split. Qed.

(** ** Reading the log *)
Lemma get_entry_spec idx s :
  raft_ok s → 0 < idx →
  ∃ o, raft_get_entry_from_idx idx s = Done o s ∧
    match o with
    | Some i => ∃ e, entry i s = Done e s ∧ entries_of s !! Z.to_nat (idx - 1) = Some e ∧
        idx ≤ raft_get_current_idx s
    | None => entries_of s !! Z.to_nat (idx - 1) = None ∧ raft_get_current_idx s < idx
    end.
Proof.
  intros Hok Hidx. pose proof Hok as [Hl Hb Hf Ha Hc].
  destruct (log_get_at_spec idx (log s) Hl ltac:(lia)) as (o & Hrun & Ho). exists o.
  rewrite Hb, Z.sub_0_r in Ho. rewrite current_idx_count by done. split.
  { unfold raft_get_entry_from_idx, on_log, zoom. rewrite Hrun. by destruct s. }
  destruct o as [i|].
  - destruct Ho as [Hat Hle]. pose proof (log_list_length _ Hl).
    destruct (lookup_lt_is_Some_2 (log_list (log s)) (Z.to_nat (idx - 1))) as [e He]; [lia|].
    exists e. split_and!; [|done|lia]. unfold entry, on_log, zoom, read_slot. rewrite Hat, He. by destruct s.
  - destruct Ho as [Hlt Hnone]. split; [done|lia].
Qed.

(** ** Applying entries *)
Definition applied_call (s : raft_server_t) (es : list raft_entry_t) : list raft_call :=
  if applylog (cbs s) then reverse (ApplyLog <$> es) else [].

Lemma apply_entry_spec s :
  raft_ok s → last_applied_idx s < commit_idx s →
  ∃ e s', entries_of s !! Z.to_nat (last_applied_idx s) = Some e ∧ raft_apply_entry s = Done 0 s' ∧
    indices s' = (log s, commit_idx s, last_applied_idx s + 1) ∧ cbs s' = cbs s ∧
    calls s' = applied_call s [e] ++ calls s.
Proof.
  intros Hok Hlt. destruct (get_entry_spec (last_applied_idx s + 1) s Hok) as (o & Hget & Ho);
    [pose proof (ro_applied s Hok); lia|].
  pose proof (ro_commit s Hok). rewrite current_idx_count in Ho by done.
  destruct o as [i|]; [|destruct Ho; lia]. destruct Ho as (e & Hentry & Hat & _).
  replace (last_applied_idx s + 1 - 1) with (last_applied_idx s) in Hat by lia.
  unfold raft_apply_entry. rewrite bind_get, (proj2 (Z.eqb_neq _ _)) by lia.
  rewrite (bind_Done _ _ _ _ _ Hget), (bind_Done _ _ _ _ _ Hentry). munfold.
  unfold call. cbn [cbs set_last_applied_idx calls].
  exists e. unfold applied_call, indices.
  destruct (applylog (cbs s)) eqn:Hap, (last_applied_idx s + 1 =? voting_cfg_change_log_idx s);
    eexists; (split; [exact Hat|split; [reflexivity|done]]).
Qed.

Lemma apply_all_spec n : ∀ fuel s,
  raft_ok s → commit_idx s - last_applied_idx s = Z.of_nat n → (n < fuel)%nat →
  ∃ s', raft_apply_all fuel s = Done tt s' ∧
    indices s' = (log s, commit_idx s, commit_idx s) ∧ cbs s' = cbs s ∧
    calls s' = applied_call s (drop (Z.to_nat (last_applied_idx s)) (take (Z.to_nat (commit_idx s)) (entries_of s)))
      ++ calls s.
Proof.
  induction n as [|n IH]; intros [|fuel] s Hok Hn Hfuel; try lia; pose proof (ro_applied s Hok) as Ha.
  - exists s. cbn [raft_apply_all]. rewrite bind_get, (proj2 (Z.ltb_ge _ _)) by lia.
    split; [done|]. rewrite drop_ge by (rewrite length_take; lia).
    unfold indices, applied_call. split_and!; [by replace (last_applied_idx s) with (commit_idx s) by lia|done|].
    by destruct (applylog (cbs s)).
  - destruct (apply_entry_spec s Hok ltac:(lia)) as (e & s1 & He & Hrun & Hi & Hcb & Hcalls).
    injection Hi as Hlog Hc Hap.
    assert (raft_ok s1) as Hok1.
    { assert (forward s s1) as Hf by (eapply forward_apply; exact Hrun). by destruct (Hf Hok). }
    destruct (IH fuel s1 Hok1 ltac:(lia) ltac:(lia)) as (s2 & Hrun2 & Hi2 & Hcb2 & Hcalls2).
    exists s2. cbn [raft_apply_all]. rewrite bind_get, (proj2 (Z.ltb_lt _ _)) by lia.
    rewrite (bind_Done _ _ _ _ _ Hrun). split; [done|].
    rewrite Hi2, Hlog, Hc. split; [done|]. split; [congruence|].
    rewrite Hcalls2, Hcalls, app_assoc. f_equal. unfold applied_call. rewrite Hcb.
    destruct (applylog (cbs s)); [|done]. rewrite <- reverse_app, <- fmap_app. do 2 f_equal.
    unfold entries_of in *. rewrite Hlog, Hc, Hap.
    replace (Z.to_nat (last_applied_idx s + 1)) with (S (Z.to_nat (last_applied_idx s))) by lia.
    symmetry. apply drop_S. rewrite lookup_take_lt by lia. done.
Qed.

(** ** Merging a message into the log *)

(** The abstract effect: keep what agrees by term, cut at the first conflict, append. *)
Fixpoint merge_entries (k : nat) (es L : list raft_entry_t) : list raft_entry_t :=
  match es with
  | [] => L
  | e :: es' =>
      match L !! k with
      | Some e' => if term e' =? term e then merge_entries (S k) es' L else take k L ++ es
      | None => L ++ es
      end
  end.

Lemma merge_prefix es : ∀ k L, (k ≤ length L)%nat → take k (merge_entries k es L) = take k L.
Proof.
  induction es as [|e es IH]; intros k L Hk; [done|]. cbn [merge_entries].
  destruct (L !! k) as [e'|] eqn:He.
  - destruct (term e' =? term e).
    + apply lookup_lt_Some in He. specialize (IH (S k) L ltac:(lia)).
      assert (take k (take (S k) (merge_entries (S k) es L)) = take k (take (S k) L)) as Ht by (by rewrite IH).
      rewrite !take_take in Ht. by replace (k `min` S k)%nat with k in Ht by lia.
    + rewrite take_app_le by (rewrite length_take; lia). rewrite take_take. f_equal. lia.
  - by rewrite take_app_le.
Qed.

Lemma merge_terms es : ∀ k L j e,
  (k ≤ length L)%nat → es !! j = Some e →
  ∃ e', merge_entries k es L !! (k + j)%nat = Some e' ∧ term e' = term e.
Proof.
  induction es as [|e0 es IH]; intros k L j e Hk Hj; [done|]. cbn [merge_entries].
  destruct (L !! k) as [e'|] eqn:He.
  - pose proof (lookup_lt_Some _ _ _ He) as Hlt. destruct (Z.eqb_spec (term e') (term e0)) as [Ht|Hne].
    + destruct j as [|j].
      * injection Hj as <-. exists e'. split; [|done]. rewrite Nat.add_0_r.
        pose proof (merge_prefix es (S k) L ltac:(lia)) as Hp.
        rewrite <- (lookup_take_lt (merge_entries (S k) es L) (S k) k) by lia.
        rewrite Hp, lookup_take_lt by lia. done.
      * destruct (IH (S k) L j e ltac:(lia) Hj) as (e'' & ? & ?). exists e''.
        by replace (k + S j)%nat with (S k + j)%nat by lia.
    + exists e. split; [|done].
      rewrite lookup_app_r by (rewrite length_take; lia). rewrite length_take.
      by replace (k + j - k `min` length L)%nat with j by lia.
  - exists e. split; [|done]. apply lookup_ge_None in He.
    rewrite lookup_app_r by lia. by replace (k + j - length L)%nat with j by lia.
Qed.

Lemma merge_length es : ∀ k L, (k ≤ length L)%nat → (length (merge_entries k es L) ≥ k + length es)%nat.
Proof.
  intros k L Hk. destruct (decide (es = [])) as [->|Hne]; [cbn; lia|].
  destruct (lookup_lt_is_Some_2 es (length es - 1)) as [e He].
  { destruct es; [done|cbn; lia]. }
  destruct (merge_terms es k L _ e Hk He) as (e' & He' & _). apply lookup_lt_Some in He'.
  destruct es; [done|cbn in *; lia].
Qed.

(** No committed entry conflicts with the message. *)
Definition no_committed_conflict (s : raft_server_t) (k : nat) (es : list raft_entry_t) : Prop :=
  ∀ j e e', entries_of s !! (k + j)%nat = Some e → es !! j = Some e' →
    Z.of_nat (k + j) < commit_idx s → term e = term e'.

Lemma scan_entries_spec es : ∀ prev i c s,
  raft_ok s → 0 ≤ prev → 0 ≤ i → prev + i ≤ raft_get_current_idx s →
  no_committed_conflict s (Z.to_nat (prev + i)) es →
  ∃ rest i' c' l', scan_entries prev i c es s = Done (rest, i', c') (set_log l' s) ∧
    raft_ok (set_log l' s) ∧
    log_list l' ++ rest = merge_entries (Z.to_nat (prev + i)) es (entries_of s) ∧
    i' + Z.of_nat (length rest) = i + Z.of_nat (length es) ∧
    (rest = [] → es ≠ [] → c' = prev + i + Z.of_nat (length es)) ∧ (∃ es1, es = es1 ++ rest).
Proof.
  induction es as [|ety es IH]; intros prev i c s Hok Hprev Hi Hle Hcomm.
  { exists [], i, c, (log s). cbn [scan_entries merge_entries length]. rewrite app_nil_r.
    assert (set_log (log s) s = s) as -> by (by destruct s).
    split_and!; [done|done|done|done|done|by exists []]. }
  cbn [scan_entries].
  destruct (get_entry_spec (prev + 1 + i) s Hok ltac:(lia)) as (o & Hget & Ho).
  rewrite (bind_Done _ _ _ _ _ Hget).
  replace (prev + 1 + i - 1) with (prev + i) in Ho by lia. cbn [merge_entries].
  destruct o as [slot|]; cycle 1.
  { destruct Ho as [Hnone _]. exists (ety :: es), i, (prev + 1 + i), (log s).
    assert (set_log (log s) s = s) as -> by (by destruct s). rewrite Hnone.
    split_and!; [done|done|done|done|done|by exists []]. }
  destruct Ho as (e & Hentry & Hat & Hidx). rewrite (bind_Done _ _ _ _ _ Hentry), Hat.
  destruct (Z.eqb_spec (term e) (term ety)) as [Ht|Hne]; cbn [negb].
  - destruct (IH prev (i + 1) (prev + 1 + i) s Hok Hprev ltac:(lia) ltac:(lia))
      as (rest & i' & c' & l' & Hrun & Hok' & Hlist & Hlen & Hc' & es1 & Hes1).
    { intros j e1 e2 H1 H2 H3. apply (Hcomm (S j) e1 e2); [|done|lia].
      by replace (Z.to_nat (prev + i) + S j)%nat with (Z.to_nat (prev + (i + 1)) + j)%nat by lia. }
    exists rest, i', c', l'. split_and!; [done|done| |cbn [length]; lia| |].
    + rewrite Hlist. f_equal. lia.
    + intros Hr _. destruct es as [|e0 es0]; [|rewrite Hc' by done; cbn [length]; lia].
      cbn [scan_entries] in Hrun. injection Hrun as _ _ Hc _. cbn [length]. lia.
    + exists (ety :: es1). by rewrite Hes1 at 1.
  - assert (commit_idx s ≤ prev + i) as Hci.
    { destruct (Z.ltb_spec (prev + i) (commit_idx s)) as [Hlt|]; [|done]. exfalso. apply Hne.
      apply (Hcomm 0%nat); [by rewrite Nat.add_0_r|done|lia]. }
    rewrite bind_get. unfold assert_ at 1. rewrite (proj2 (Z.ltb_lt _ _)) by lia. munfold.
    destruct (on_log (modify (log_delete (prev + 1 + i))) s) as [u s1| | | | |] eqn:Hdel; try done.
    destruct (delete_spec (prev + 1 + i) _ _ _ Hok ltac:(lia) Hdel) as (-> & _ & _ & _ & Hlist).
    destruct (forward_delete (prev + 1 + i) s _ _ ltac:(lia) Hdel Hok) as [Hok' _].
    exists (ety :: es), i, (prev + 1 + i), (log_delete (prev + 1 + i) (log s)).
    split_and!; [done|done| |done|done|by exists []].
    unfold entries_of in Hlist. cbn [log set_log] in Hlist. rewrite Hlist. do 2 f_equal. lia.
Qed.

Lemma append_rest_spec es : ∀ prev i c s,
  raft_ok s → Forall (λ e, id e ≠ 0) es →
  ∃ c' s', append_rest prev i c es s = Done (Some c') s' ∧ raft_ok s' ∧
    entries_of s' = entries_of s ++ es ∧ commit_idx s' = commit_idx s ∧ current_term s' = current_term s ∧
    (es ≠ [] → c' = prev + i + Z.of_nat (length es)) ∧ (es = [] → c' = c).
Proof.
  induction es as [|e es IH]; intros prev i c s Hok Hids.
  { exists c, s. by rewrite app_nil_r. }
  apply Forall_cons in Hids as [Hid Hids]. cbn [append_rest].
  set (s0 := if raft_entry_is_voting_cfg_change e
             then set_voting_cfg_change_log_idx (raft_get_current_idx s) s else s).
  assert (indices s0 = indices s ∧ current_term s0 = current_term s) as [Hi0 Ht0].
  { unfold s0. by destruct (raft_entry_is_voting_cfg_change e). }
  pose proof (raft_ok_indices _ _ Hi0 Hok) as Hok0. injection Hi0 as Hl0 Hc0 _.
  destruct (append_spec e s0 Hok0) as [_ Happ]. destruct (Happ Hid) as (l' & Hrun & Hlok & Hlist & Hb & Hf & Hcount).
  assert (raft_append_entry e s = Done 0 (set_log l' s0)) as Hrun'.
  { unfold raft_append_entry. unfold s0 in *. destruct (raft_entry_is_voting_cfg_change e); exact Hrun. }
  assert (raft_ok (set_log l' s0)) as Hok1.
  { assert (forward s0 (set_log l' s0)) as Hfw by (eapply forward_append_log; exact Hrun). by apply Hfw. }
  rewrite (bind_Done _ _ _ _ _ Hrun'). cbn [Z.eqb].
  destruct (IH prev (i + 1) (prev + 1 + i) _ Hok1 Hids) as (c' & s' & Hr & Hok' & Hes & Hci & Hct & Hn & Hz).
  exists c', s'. split_and!; [done|done| |cbn in *; congruence|cbn in *; congruence| |done].
  - rewrite Hes. unfold entries_of at 1. cbn [log set_log]. rewrite Hlist. unfold entries_of. rewrite Hl0.
    by rewrite <- app_assoc.
  - intros _. destruct es as [|e' es]; [rewrite Hz by done; cbn; lia|].
    rewrite Hn by done. cbn [length]. lia.
Qed.

Lemma advance_commit_spec lc s :
  raft_ok s → entries_of s ≠ [] →
  ∃ s', advance_commit lc s = Done tt s' ∧ raft_ok s' ∧ log s' = log s ∧ current_term s' = current_term s ∧
    commit_idx s' = Z.max (commit_idx s) (Z.min (Z.of_nat (length (entries_of s))) lc).
Proof.
  intros Hok Hne. pose proof (current_idx_length s Hok) as Hcur.
  pose proof (current_idx_count s Hok) as Hcnt. pose proof (ro_commit s Hok).
  assert (1 ≤ Z.of_nat (length (entries_of s))) by (destruct (entries_of s); [done|cbn; lia]).
  unfold advance_commit. rewrite bind_get. destruct (Z.ltb_spec (commit_idx s) lc) as [Hlt|Hge].
  - assert (keeps forward (raft_set_commit_idx (Z.min (Z.max (raft_get_current_idx s) 1) lc))) as Hfw
      by apply forward_commit.
    unfold raft_set_commit_idx, assert_ in *. munfold.
    rewrite !(proj2 (Z.leb_le _ _)) by lia. eexists. split; [reflexivity|].
    split; [|split_and!; [done|done|cbn; lia]].
    assert (forward s (set_commit_idx (Z.min (Z.max (raft_get_current_idx s) 1) lc) s)) as Hf.
    { apply (Hfw s tt). unfold raft_set_commit_idx, assert_. munfold. by rewrite !(proj2 (Z.leb_le _ _)) by lia. }
    by apply Hf.
  - exists s. split_and!; [done|done|done|done|lia].
Qed.

(** ** The parts of [raft_recv_appendentries] on a message of the term *)
Lemma appendentries_term_accept ae s :
  current_term s ≤ ae_term ae →
  ∃ s1, appendentries_term ae s = Done (Some (ae_term ae)) s1 ∧ indices s1 = indices s ∧
    current_term s1 = ae_term ae.
Proof.
  intros Hle. unfold appendentries_term. rewrite bind_get.
  destruct (raft_is_candidate s && (current_term s =? ae_term ae)) eqn:Hc.
  { apply andb_prop in Hc as [_ Ht%Z.eqb_eq]. eexists. split; [cbn; by rewrite Ht|]. by split. }
  destruct (Z.ltb_spec (current_term s) (ae_term ae)) as [Hlt|Hge].
  - unfold raft_set_current_term, raft_become_follower. munfold.
    rewrite (proj2 (Z.ltb_lt _ _)) by done. eexists. split; [reflexivity|].
    unfold call. by destruct (persist_term (cbs _)).
  - rewrite (proj2 (Z.ltb_ge _ _)) by lia. exists s. assert (current_term s = ae_term ae) as Ht by lia.
    rewrite <- Ht. by split_and!.
Qed.

(** The entry before the message is in the log, with its term. *)
Definition prev_matches (ae : msg_appendentries_t) (L : list raft_entry_t) : Prop :=
  ae_prev_log_idx ae = 0 ∨
  0 < ae_prev_log_idx ae ∧
  ∃ e, L !! Z.to_nat (ae_prev_log_idx ae - 1) = Some e ∧ term e = wrapu 32 (ae_prev_log_term ae).

Lemma check_prev_accept ae s :
  raft_ok s → prev_matches ae (entries_of s) → check_prev ae s = Done None s.
Proof.
  intros Hok [Hz|(Hp & e & Hat & Ht)]; unfold check_prev.
  - by rewrite (proj2 (Z.ltb_ge _ _)) by lia.
  - rewrite (proj2 (Z.ltb_lt _ _)) by done.
    destruct (get_entry_spec (ae_prev_log_idx ae) s Hok Hp) as (o & Hget & Ho).
    rewrite (bind_Done _ _ _ _ _ Hget). rewrite bind_get. rewrite Hat in Ho.
    destruct o as [i|]; [|by destruct Ho]. destruct Ho as (e' & Hentry & [= <-] & Hle).
    rewrite (proj2 (Z.ltb_ge _ _)) by lia. rewrite (bind_Done _ _ _ _ _ Hentry).
    by rewrite Ht, Z.eqb_refl.
Qed.

Lemma prev_matches_range ae s :
  raft_ok s → prev_matches ae (entries_of s) → 0 ≤ ae_prev_log_idx ae ≤ raft_get_current_idx s.
Proof.
  intros Hok [->|(Hp & e & Hat & _)]; rewrite current_idx_length by done; [lia|].
  apply lookup_lt_Some in Hat. lia.
Qed.

Lemma trim_entries ae s : ae_entries ae ≠ [] → trim_after_heartbeat ae s = Done tt s.
Proof. intros Hne. unfold trim_after_heartbeat. rewrite bind_get. by rewrite bool_decide_eq_false_2. Qed.

(** The state in which the log is looked at. *)
Lemma recv_appendentries_unfold n ae s :
  raft_ok s → current_term s ≤ ae_term ae →
  ∃ s1, raft_ok s1 ∧ entries_of s1 = entries_of s ∧ commit_idx s1 = commit_idx s ∧
    current_term s1 = ae_term ae ∧
    raft_recv_appendentries n ae s =
      (refused ← check_prev ae;
       match refused with
       | Some idx => fail_append (ae_term ae) idx
       | None =>
           trim_after_heartbeat ae ;;
           scanned ← scan_entries (ae_prev_log_idx ae) 0 (ae_prev_log_idx ae) (ae_entries ae);
           let '(rest, i, current_idx) := scanned in
           appended ← append_rest (ae_prev_log_idx ae) i current_idx rest;
           match appended with
           | None => s ← get; fail_append (ae_term ae) (raft_get_current_idx s)
           | Some current_idx =>
               advance_commit (ae_leader_commit ae) ;;
               modify (set_current_leader n) ;;
               mret (0, mkAppendResponse (ae_term ae) 1 current_idx (ae_prev_log_idx ae + 1))
           end
       end) s1.
Proof.
  intros Hok Hle. destruct (appendentries_term_accept ae (set_timeout_elapsed 0 s) Hle) as (s1 & Hrun & Hi & Ht).
  assert (indices s1 = indices s) as Hi' by exact Hi. exists s1.
  split; [by apply (raft_ok_indices s)|]. injection Hi' as Hl Hc _. unfold entries_of. rewrite Hl.
  split_and!; [done|done|done|]. unfold raft_recv_appendentries.
  rewrite (bind_Done _ _ s tt (set_timeout_elapsed 0 s) eq_refl), bind_get.
  by rewrite (bind_Done _ _ _ _ _ Hrun).
Qed.

Lemma recv_appendentries_spec n ae s :
  raft_ok s → current_term s ≤ ae_term ae → prev_matches ae (entries_of s) →
  ae_entries ae ≠ [] → Forall (λ e, id e ≠ 0) (ae_entries ae) →
  no_committed_conflict s (Z.to_nat (ae_prev_log_idx ae)) (ae_entries ae) →
  ∃ s', raft_recv_appendentries n ae s
      = Done (0, mkAppendResponse (ae_term ae) 1
          (ae_prev_log_idx ae + Z.of_nat (length (ae_entries ae))) (ae_prev_log_idx ae + 1)) s' ∧
    raft_ok s' ∧ current_term s' = ae_term ae ∧ current_leader s' = n ∧
    entries_of s' = merge_entries (Z.to_nat (ae_prev_log_idx ae)) (ae_entries ae) (entries_of s) ∧
    commit_idx s' = Z.max (commit_idx s) (Z.min (Z.of_nat (length (entries_of s'))) (ae_leader_commit ae)).
Proof.
  intros Hok Ht Hprev Hne Hids Hcc.
  destruct (recv_appendentries_unfold n ae s Hok Ht) as (s1 & Hok1 & He1 & Hc1 & Ht1 & ->).
  rewrite <- He1 in Hprev. pose proof (prev_matches_range ae s1 Hok1 Hprev) as Hrange.
  rewrite (bind_Done _ _ _ _ _ (check_prev_accept ae s1 Hok1 Hprev)).
  rewrite (bind_Done _ _ _ _ _ (trim_entries ae s1 Hne)).
  destruct (scan_entries_spec (ae_entries ae) (ae_prev_log_idx ae) 0 (ae_prev_log_idx ae) s1 Hok1)
    as (rest & i & c & l' & Hscan & Hok2 & Hlist & Hlen & Hrest & es1 & Hes1); [lia|lia|lia| |].
  { intros j e e'. rewrite Z.add_0_r, He1, Hc1. apply Hcc. }
  rewrite (bind_Done _ _ _ _ _ Hscan). rewrite Z.add_0_r, He1 in Hlist.
  assert (Forall (λ e, id e ≠ 0) rest) as Hids' by (rewrite Hes1 in Hids; by apply Forall_app in Hids as [_ ?]).
  destruct (append_rest_spec rest (ae_prev_log_idx ae) i c _ Hok2 Hids')
    as (c' & s2 & Happ & Hok3 & He3 & Hc3 & Ht3 & Hn & Hz).
  rewrite (bind_Done _ _ _ _ _ Happ).
  assert (entries_of s2 = merge_entries (Z.to_nat (ae_prev_log_idx ae)) (ae_entries ae) (entries_of s)) as He2.
  { rewrite He3. unfold entries_of at 1. cbn [log set_log]. by rewrite Hlist. }
  assert (entries_of s2 ≠ []) as Hnil.
  { rewrite current_idx_length, He1 in Hrange by done.
    pose proof (merge_length (ae_entries ae) (Z.to_nat (ae_prev_log_idx ae)) (entries_of s) ltac:(lia)) as Hml.
    rewrite <- He2 in Hml. intros Hnil. rewrite Hnil in Hml.
    destruct (ae_entries ae); [done|cbn in Hml; lia]. }
  destruct (advance_commit_spec (ae_leader_commit ae) s2 Hok3 Hnil) as (s3 & Hadv & Hok4 & Hl4 & Ht4 & Hc4).
  rewrite (bind_Done _ _ _ _ _ Hadv). munfold. eexists. split.
  { do 2 f_equal. f_equal. destruct (decide (rest = [])) as [Hr|Hr].
    - rewrite Hz by done. rewrite Hrest by done. lia.
    - rewrite Hn by done. lia. }
  cbn in Ht3, Hc3. split; [by apply (raft_ok_indices s3)|]. unfold entries_of in *.
  cbn [log set_current_leader current_term current_leader commit_idx] in *. rewrite Hl4, Hc4, He2.
  split_and!; [congruence|done|done|congruence].
Qed.

(** ** Refused messages *)
Lemma check_prev_missing ae s :
  raft_ok s → raft_get_current_idx s < ae_prev_log_idx ae →
  check_prev ae s = Done (Some (raft_get_current_idx s)) s.
Proof.
  intros Hok Hlt. pose proof (current_idx_length s Hok). unfold check_prev.
  rewrite (proj2 (Z.ltb_lt _ _)) by lia.
  destruct (get_entry_spec (ae_prev_log_idx ae) s Hok ltac:(lia)) as (o & Hget & Ho).
  rewrite (bind_Done _ _ _ _ _ Hget), bind_get.
  destruct o; [destruct Ho as (_ & _ & _ & ?); lia|done].
Qed.

Lemma check_prev_conflict ae e s :
  raft_ok s → 0 < ae_prev_log_idx ae → entries_of s !! Z.to_nat (ae_prev_log_idx ae - 1) = Some e →
  term e ≠ wrapu 32 (ae_prev_log_term ae) → commit_idx s < ae_prev_log_idx ae →
  ∃ l', check_prev ae s = Done (Some (ae_prev_log_idx ae - 1)) (set_log l' s) ∧
    log_list l' = take (Z.to_nat (ae_prev_log_idx ae - 1)) (entries_of s).
Proof.
  intros Hok Hp Hat Hne Hc. unfold check_prev. rewrite (proj2 (Z.ltb_lt _ _)) by done.
  destruct (get_entry_spec (ae_prev_log_idx ae) s Hok Hp) as (o & Hget & Ho).
  rewrite (bind_Done _ _ _ _ _ Hget), bind_get. rewrite Hat in Ho.
  destruct o as [i|]; [|by destruct Ho]. destruct Ho as (e' & Hentry & [= <-] & Hle).
  rewrite (proj2 (Z.ltb_ge _ _)) by lia. rewrite (bind_Done _ _ _ _ _ Hentry).
  rewrite (proj2 (Z.eqb_neq _ _)) by done. cbn [negb]. unfold assert_.
  rewrite (proj2 (Z.ltb_lt (commit_idx s) _)) by done. munfold.
  destruct (on_log (modify (log_delete (ae_prev_log_idx ae))) s) as [u s1| | | | |] eqn:Hdel; try done.
  destruct (delete_spec (ae_prev_log_idx ae) _ _ _ Hok Hp Hdel) as (-> & _ & _ & _ & Hlist).
  eexists. by split.
Qed.

(** A message without entries that matches, with more than one entry behind it. *)
Lemma trim_heartbeat ae s :
  raft_ok s → ae_entries ae = [] → 0 < ae_prev_log_idx ae →
  ae_prev_log_idx ae + 1 < raft_get_current_idx s →
  (ae_prev_log_idx ae < commit_idx s → trim_after_heartbeat ae s = AssertFail) ∧
  (commit_idx s ≤ ae_prev_log_idx ae →
   ∃ l', trim_after_heartbeat ae s = Done tt (set_log l' s) ∧ raft_ok (set_log l' s) ∧
     log_list l' = take (Z.to_nat (ae_prev_log_idx ae)) (entries_of s)).
Proof.
  intros Hok Hnil Hp Hlt. unfold trim_after_heartbeat. rewrite bind_get.
  rewrite bool_decide_eq_true_2 by done. rewrite !(proj2 (Z.ltb_lt _ _)) by done. cbn [andb].
  unfold assert_. split; intros Hc.
  - by rewrite (proj2 (Z.ltb_ge _ _)) by lia.
  - rewrite (proj2 (Z.ltb_lt _ _)) by lia. munfold.
    destruct (on_log (modify (log_delete (ae_prev_log_idx ae + 1))) s) as [[] s1| | | | |] eqn:Hdel; try done.
    destruct (delete_spec (ae_prev_log_idx ae + 1) _ _ _ Hok ltac:(lia) Hdel) as (-> & _ & _ & _ & Hlist).
    destruct (forward_delete (ae_prev_log_idx ae + 1) s _ _ ltac:(lia) Hdel Hok) as [Hok' _].
    eexists. split; [reflexivity|]. split; [done|]. unfold entries_of in Hlist. cbn [log set_log] in Hlist.
    rewrite Hlist. unfold entries_of. f_equal. lia.
Qed.

(** ** Counting replicas *)
Definition replicated (s : raft_server_t) (point : Z) (n : loc) : Prop :=
  match objs s !! n with Some nd => point ≤ match_idx nd | None => False end.

#[export] Instance replicated_dec s point n : Decision (replicated s point n).
Proof. unfold replicated. destruct (objs s !! n); apply _. Defined.

Definition replicas (s : raft_server_t) (point : Z) : list loc :=
  filter (λ n, node s ≠ Some n ∧ replicated s point n) (nodes s).

Lemma count_matching_spec ns : ∀ point v s r s',
  count_matching point v ns s = Done r s' →
  s' = s ∧ r ≤ v + Z.of_nat (length (filter (λ n, node s ≠ Some n ∧ replicated s point n) ns)).
Proof.
  induction ns as [|n ns IH]; intros point v s r s'; [intros [= <- <-]; cbn; split; [done|lia]|].
  cbn [count_matching]. rewrite bind_get. intros (b & s1 & Hother & Hrun)%bind_inv.
  assert (s1 = s ∧ (b = true → node s ≠ Some n)) as [-> Hb].
  { unfold other_voting in Hother. case_bool_decide; [by injection Hother as <- <-|].
    apply bind_inv in Hother as (nd & s2 & Hobj & [= <- <-]).
    apply reads_Done in Hobj; [|apply reads_obj]. by split. }
  assert (∀ v' r' s'', count_matching point v' ns s = Done r' s'' → v' ≤ v →
    s'' = s ∧ r' ≤ v + Z.of_nat (length (filter (λ n, node s ≠ Some n ∧ replicated s point n) (n :: ns)))) as Hskip.
  { intros v' r' s'' [-> Hle]%IH Hv. split; [done|]. rewrite filter_cons.
    case_decide; cbn [length]; lia. }
  destruct b; [|by apply (Hskip v)]. specialize (Hb eq_refl).
  apply bind_inv in Hrun as (nd & s1 & Hobj & Hrun).
  pose proof (reads_Done _ _ _ _ (reads_obj n) Hobj) as Heq. subst s1.
  destruct (0 <? match_idx nd); [|by apply (Hskip v)].
  apply bind_inv in Hrun as (o & s1 & Hget & Hrun). apply reads_Done in Hget; [|apply reads_entry_at]. subst s1.
  apply bind_inv in Hrun as (i & s1 & Hnn & Hrun). apply reads_Done in Hnn; [|apply reads_not_null]. subst s1.
  apply bind_inv in Hrun as (e & s1 & He & Hrun). apply reads_Done in He; [|apply reads_entry]. subst s1.
  destruct ((term e =? _) && _) eqn:Htest; [|by apply (Hskip v)].
  apply andb_prop in Htest as [_ Hpt%Z.leb_le]. apply IH in Hrun as [-> Hle]. split; [done|].
  rewrite filter_cons_True; [cbn [length]; lia|]. split; [done|].
  unfold node_obj in Hobj. unfold replicated. destruct (objs s !! n) as [nd'|]; [|done].
  by injection Hobj as ->.
Qed.

(** Nodes and what they have been sent. *)
Definition same_objs (s s' : raft_server_t) : Prop :=
  nodes s' = nodes s ∧ node s' = node s ∧ objs s' = objs s ∧ commit_idx s' = commit_idx s.

#[export] Instance same_objs_preorder : PreOrder same_objs.
Proof. split; [by intros s|]. intros s1 s2 s3 (?&?&?&?) (?&?&?&?). unfold same_objs. split_and!; congruence. Qed.

Lemma reads_objs {A} (m : M raft_server_t A) : reads m → keeps same_objs m.
Proof. intros Hr s a s' Hrun. rewrite (Hr _ _ _ Hrun). reflexivity. Qed.

Lemma same_objs_send n : keeps same_objs (raft_send_appendentries n).
Proof.
  assert (∀ on c, keeps same_objs (modify (call on c))) as Hcall.
  { intros on c. apply keeps_modify. intros s. unfold call. by destruct (on (cbs s)). }
  pose proof (λ n i, reads_objs _ (reads_on_log _ (reads_run n i))) as Hrun.
  pose proof (λ i, reads_objs _ (reads_entry_at i)) as Hat.
  pose proof (λ i, reads_objs _ (reads_entries_from i)) as Hfrom.
  pose proof (λ i, reads_objs _ (reads_entry i)) as Hentry.
  pose proof (λ n, reads_objs _ (reads_obj n)) as Hobj.
  unfold raft_send_appendentries. repeat keep_step.
Qed.

Definition same_commit (s s' : raft_server_t) : Prop :=
  commit_idx s' = commit_idx s ∧ nodes s' = nodes s.

#[export] Instance same_commit_preorder : PreOrder same_commit.
Proof. split; [by intros s|]. unfold same_commit. intros s1 s2 s3 [??] [??]. split; congruence. Qed.

Lemma same_objs_commit {A} (m : M raft_server_t A) : keeps same_objs m → keeps same_commit m.
Proof. intros Hm s a s' Hrun. by destruct (Hm _ _ _ Hrun) as (? & _ & _ & ?). Qed.

Lemma same_commit_reads {A} (m : M raft_server_t A) : reads m → keeps same_commit m.
Proof. intros Hr. by apply same_objs_commit, reads_objs. Qed.

Lemma same_commit_call on c : keeps same_commit (modify (call on c)).
Proof. apply keeps_modify. intros s. unfold call. by destruct (on (cbs s)). Qed.

Lemma same_commit_upd n f : keeps same_commit (node_upd n f).
Proof.
  unfold node_upd. apply keeps_bind; [typeclasses eauto|apply same_commit_reads, reads_obj|].
  intros nd. by apply keeps_modify.
Qed.

Lemma same_commit_report n r : keeps same_commit (report_sufficient_logs n r).
Proof.
  pose proof same_commit_call. pose proof same_commit_upd.
  pose proof (λ n, same_commit_reads _ (reads_obj n)). unfold report_sufficient_logs. repeat keep_step.
Qed.

(** What a successful response may commit. *)
Lemma commit_point_spec point s u s' :
  (votes ← count_matching point 1 (nodes s);
   if (Z.quot (num_nodes s) 2 <? votes) && (commit_idx s <? point) then raft_set_commit_idx point
   else mret tt) s = Done u s' →
  same_objs s s' ∨
  commit_idx s < point ∧ commit_idx s' = point ∧ nodes s' = nodes s ∧ node s' = node s ∧ objs s' = objs s ∧
  num_nodes s < 2 * (1 + Z.of_nat (length (replicas s point))).
Proof.
  intros (votes & s1 & [-> Hle]%count_matching_spec & Hrun)%bind_inv.
  destruct (_ && _) eqn:Htest; [|left; by injection Hrun as _ <-].
  apply andb_prop in Htest as [Hmaj%Z.ltb_lt Hpt%Z.ltb_lt]. right.
  unfold raft_set_commit_idx, assert_ in Hrun. munfold.
  destruct (_ <=? _); [|done]. destruct (_ <=? _); [|done]. injection Hrun as _ <-.
  split_and!; try done. unfold replicas, num_nodes in *.
  rewrite Z.quot_div_nonneg in Hmaj by lia.
  pose proof (Z.div_mod (Z.of_nat (length (nodes s))) 2).
  pose proof (Z.mod_pos_bound (Z.of_nat (length (nodes s))) 2). lia.
Qed.

Lemma replicas_same s s' point :
  nodes s' = nodes s → node s' = node s → objs s' = objs s → replicas s' point = replicas s point.
Proof.
  intros H1 H2 H3. unfold replicas. rewrite H1. apply list_filter_iff. intros n.
  unfold replicated. by rewrite H2, H3.
Qed.

Definition majority_commit (point : Z) (s s' : raft_server_t) : Prop :=
  commit_idx s' = commit_idx s ∨
  commit_idx s < point ∧ commit_idx s' = point ∧
  num_nodes s' < 2 * (1 + Z.of_nat (length (replicas s' point))).

Lemma majority_same point s s1 s2 s' :
  same_commit s s1 → same_objs s2 s' → majority_commit point s1 s2 → majority_commit point s s'.
Proof.
  unfold same_commit, majority_commit. intros [Hc _] (Hn & Hnd & Ho & Hc') [H|(Hlt & Heq & Hm)]; [left; congruence|].
  right. rewrite Hc', <- Hc. rewrite (replicas_same s2 s') by done. unfold num_nodes in *. rewrite Hn.
  by split_and!.
Qed.

Lemma response_commit n r s z s' :
  raft_recv_appendentries_response n r s = Done z s' → majority_commit (ar_current_idx r) s s'.
Proof.
  unfold raft_recv_appendentries_response. intros (stale & s0 & Hstale & Hrun)%bind_inv.
  assert (s0 = s) as ->.
  { revert Hstale. destruct (negb _); [|by intros [= _ <-]].
    intros (n' & s1 & Hnn & Hb)%bind_inv. apply reads_Done in Hnn; [|apply reads_not_null]. subst s1.
    apply bind_inv in Hb as (nd & s1 & Hobj & [= _ <-]). apply reads_Done in Hobj; [done|apply reads_obj]. }
  destruct stale; [injection Hrun as _ <-; by left|]. rewrite bind_get in Hrun.
  destruct (raft_is_leader s); cbn [negb] in Hrun; [|injection Hrun as _ <-; by left].
  destruct (Z.ltb_spec (current_term s) (ar_term r)) as [Hlt|Hge].
  { left. munfold. unfold raft_set_current_term, raft_become_follower in Hrun. munfold.
    rewrite (proj2 (Z.ltb_lt _ _)) in Hrun by done. injection Hrun as _ <-. unfold call.
    by destruct (persist_term (cbs _)). }
  destruct (negb (current_term s =? ar_term r)); [injection Hrun as _ <-; by left|].
  destruct n as [n|]; [|injection Hrun as _ <-; by left].
  pose proof same_commit_upd as Hupd. pose proof (same_objs_commit _ (same_objs_send n)) as Hsend.
  pose proof (λ n, same_commit_reads _ (reads_obj n)) as Hobj.
  destruct (ar_success r =? 0).
  { left. assert (same_commit s s') as [? _]; [|done]. revert Hrun. apply keeps_Done. repeat keep_step. }
  apply bind_inv in Hrun as (? & s1 & Hass & Hrun). unfold assert_ in Hass.
  destruct (_ <=? _); [|done]. injection Hass as _ <-.
  apply bind_inv in Hrun as (? & s1 & Hu1 & Hrun). apply bind_inv in Hrun as (? & s2 & Hu2 & Hrun).
  apply bind_inv in Hrun as (? & s3 & Hrep & Hrun).
  assert (same_commit s s3) as Hc3.
  { etrans; [by eapply Hupd|]. etrans; [by eapply Hupd|by eapply same_commit_report]. }
  rewrite <- bind_assoc in Hrun. apply bind_inv in Hrun as (u & s4 & Hpoint & Hrun).
  assert (num_nodes s = num_nodes s3) as Hnum by (unfold num_nodes; by rewrite (proj2 Hc3)).
  rewrite <- (proj1 Hc3), <- (proj2 Hc3), Hnum in Hpoint.
  assert (same_objs s4 s') as Htail.
  { revert Hrun. apply keeps_Done.
    pose proof (λ n, reads_objs _ (reads_obj n)). pose proof (λ i, reads_objs _ (reads_entry_at i)).
    pose proof same_objs_send. repeat keep_step. }
  apply commit_point_spec in Hpoint as [Hsame|(Hlt & Heq & Hn & Hnd & Ho & Hm)].
  - left. destruct Hsame as (_ & _ & _ & Hc4), Htail as (_ & _ & _ & Hc5), Hc3 as [Hc3 _]. congruence.
  - apply (majority_same _ s s3 s4 s' Hc3 Htail). right. split_and!; [done|done|].
    rewrite (replicas_same s3 s4) by done. unfold num_nodes in *. by rewrite Hn.
Qed.

Lemma same_commit_on_log {A} (m : M log_t A) : keeps same_commit (on_log m).
Proof. intros s a s'. unfold on_log, zoom. destruct (m (log s)); try done. by intros [= _ <-]. Qed.

Lemma same_commit_append e : keeps same_commit (raft_append_entry e).
Proof.
  unfold raft_append_entry. apply keeps_bind; [typeclasses eauto| |intros _; apply same_commit_on_log].
  destruct (raft_entry_is_voting_cfg_change e); [by apply keeps_modify|by intros s a s' [= _ <-]].
Qed.

Lemma same_commit_for_nodes body ns :
  (∀ n, keeps same_commit (body n)) → keeps same_commit (for_nodes other_voting body ns).
Proof.
  intros Hb. pose proof (λ n, same_commit_reads _ (reads_obj n)).
  assert (∀ s n, keeps same_commit (other_voting s n)) by (intros s n; unfold other_voting; repeat keep_step).
  induction ns; cbn; repeat keep_step.
Qed.

(** An entry of a client is committed at once only by a leader without peers. *)
Lemma entry_commit e s r s' :
  raft_recv_entry e s = Done r s' →
  commit_idx s' = commit_idx s ∨ num_nodes s' = 1 ∧ commit_idx s' = raft_get_current_idx s'.
Proof.
  unfold raft_recv_entry. rewrite bind_get.
  destruct (raft_entry_is_voting_cfg_change e && _); [intros [= _ <-]; by left|].
  destruct (raft_is_leader s); cbn [negb]; [|intros [= _ <-]; by left].
  pose proof (λ n, same_objs_commit _ (same_objs_send n)) as Hsend.
  pose proof (λ n, same_commit_reads _ (reads_obj n)) as Hobj.
  intros (r1 & s1 & Happ & Hrun)%bind_inv. apply bind_inv in Hrun as (u2 & s2 & Hfor & Hrun).
  assert (same_commit s s2) as [Hc Hn].
  { etrans; [by eapply same_commit_append|]. revert Hfor. apply keeps_Done, same_commit_for_nodes. repeat keep_step. }
  destruct (Z.eqb_spec (num_nodes s) 1) as [H1|]; apply bind_inv in Hrun as (u3 & s3 & Hset & Hrun);
    injection Hset as _ <-; rewrite bind_get in Hrun.
  - right. destruct (raft_entry_is_voting_cfg_change e); injection Hrun as _ <-; unfold num_nodes in *; cbn; by rewrite Hn.
  - left. destruct (raft_entry_is_voting_cfg_change e); injection Hrun as _ <-; done.
Qed.

(** ** Properties *)

(** C14: nothing committed is lost.  From a new server on, over any sequence of calls
    (messages, timers, client entries, membership changes) that returns: the log is
    well formed, 0 ≤ applied ≤ commit ≤ length; the term, the commit index and the
    applied index never go back; and the committed entries of any moment are the same
    entries at every later moment. *)
Theorem committed_entries_stay funcs ops ops' u u' s s' :
  raft_steps ops (raft_set_callbacks funcs raft_new) = Done u s → raft_steps ops' s = Done u' s' →
  raft_ok s ∧ raft_ok s' ∧ current_term s ≤ current_term s' ∧ commit_idx s ≤ commit_idx s' ∧
  last_applied_idx s ≤ last_applied_idx s' ∧
  take (Z.to_nat (commit_idx s)) (entries_of s') = take (Z.to_nat (commit_idx s)) (entries_of s).
Proof.
  intros Hrun Hrun'. destruct (forward_ops ops _ _ _ Hrun (raft_new_ok funcs)) as [Hok _].
  split; [done|]. exact (forward_ops ops' _ _ _ Hrun' Hok).
Qed.

(** C15: an AppendEntries message that brings entries is merged.  If the term is current,
    the entry before the message is there with its term, the ids sent are not 0 and no
    committed entry conflicts, the handler returns success with the index of the last
    entry sent; the log is the old one up to the first entry that conflicts, then the rest
    of the message, so that every entry sent is in the log with its term and everything
    before it is untouched; and the commit index is raised to the leader's, but not past
    the end of the log.  (A message without entries is another matter: it may truncate
    the log without a conflict, [heartbeat_truncates].) *)
Theorem appendentries_merges n ae s :
  raft_ok s → current_term s ≤ ae_term ae → prev_matches ae (entries_of s) →
  ae_entries ae ≠ [] → Forall (λ e, id e ≠ 0) (ae_entries ae) →
  no_committed_conflict s (Z.to_nat (ae_prev_log_idx ae)) (ae_entries ae) →
  ∃ s', raft_recv_appendentries n ae s
      = Done (0, mkAppendResponse (ae_term ae) 1
          (ae_prev_log_idx ae + Z.of_nat (length (ae_entries ae))) (ae_prev_log_idx ae + 1)) s' ∧
    current_term s' = ae_term ae ∧ current_leader s' = n ∧
    entries_of s' = merge_entries (Z.to_nat (ae_prev_log_idx ae)) (ae_entries ae) (entries_of s) ∧
    (∀ j e, ae_entries ae !! j = Some e →
       ∃ e', entries_of s' !! (Z.to_nat (ae_prev_log_idx ae) + j)%nat = Some e' ∧ term e' = term e) ∧
    take (Z.to_nat (ae_prev_log_idx ae)) (entries_of s') = take (Z.to_nat (ae_prev_log_idx ae)) (entries_of s) ∧
    commit_idx s' = Z.max (commit_idx s) (Z.min (Z.of_nat (length (entries_of s'))) (ae_leader_commit ae)).
Proof.
  intros Hok Ht Hprev Hne Hids Hcc.
  pose proof (prev_matches_range ae s Hok Hprev) as Hrange. rewrite current_idx_length in Hrange by done.
  destruct (recv_appendentries_spec n ae s Hok Ht Hprev Hne Hids Hcc)
    as (s' & Hrun & _ & Ht' & Hl' & He' & Hc').
  exists s'. split_and!; try done; rewrite He'.
  - intros j e. apply merge_terms. lia.
  - apply merge_prefix. lia.
Qed.

(** A refused AppendEntries message.  An old term, an index behind the log and a
    conflicting entry at the index each give -1 and failure with the index to go back
    to; the first two leave the log as it is, the third cuts it before the conflict. *)
Theorem appendentries_refuses n ae s :
  raft_ok s →
  (ae_term ae < current_term s →
   ∃ s', raft_recv_appendentries n ae s
       = Done (-1, mkAppendResponse (current_term s) 0 (raft_get_current_idx s) 0) s' ∧
     entries_of s' = entries_of s) ∧
  (current_term s ≤ ae_term ae → raft_get_current_idx s < ae_prev_log_idx ae →
   ∃ s', raft_recv_appendentries n ae s
       = Done (-1, mkAppendResponse (ae_term ae) 0 (raft_get_current_idx s) 0) s' ∧
     entries_of s' = entries_of s) ∧
  (∀ e, current_term s ≤ ae_term ae → 0 < ae_prev_log_idx ae → commit_idx s < ae_prev_log_idx ae →
   entries_of s !! Z.to_nat (ae_prev_log_idx ae - 1) = Some e → term e ≠ wrapu 32 (ae_prev_log_term ae) →
   ∃ s', raft_recv_appendentries n ae s
       = Done (-1, mkAppendResponse (ae_term ae) 0 (ae_prev_log_idx ae - 1) 0) s' ∧
     entries_of s' = take (Z.to_nat (ae_prev_log_idx ae - 1)) (entries_of s)).
Proof.
  intros Hok. split_and!.
  - intros Hlt. unfold raft_recv_appendentries, appendentries_term. munfold.
    cbn [current_term set_timeout_elapsed]. rewrite andb_false_intro2 by (apply Z.eqb_neq; lia).
    rewrite (proj2 (Z.ltb_ge _ _)), (proj2 (Z.ltb_lt _ _)) by lia. by eexists.
  - intros Ht Hlt. destruct (recv_appendentries_unfold n ae s Hok Ht) as (s1 & Hok1 & He1 & _ & _ & ->).
    assert (raft_get_current_idx s1 = raft_get_current_idx s) as Hidx by (by rewrite !current_idx_length, He1).
    rewrite <- Hidx in Hlt |- *.
    rewrite (bind_Done _ _ _ _ _ (check_prev_missing ae s1 Hok1 Hlt)). by exists s1.
  - intros e Ht Hp Hc Hat Hne.
    destruct (recv_appendentries_unfold n ae s Hok Ht) as (s1 & Hok1 & He1 & Hc1 & _ & ->).
    rewrite <- He1 in Hat |- *. rewrite <- Hc1 in Hc.
    destruct (check_prev_conflict ae e s1 Hok1 Hp Hat Hne Hc) as (l' & Hrun & Hl').
    rewrite (bind_Done _ _ _ _ _ Hrun). by eexists.
Qed.

(** A heartbeat cuts the log.  A message without entries whose index and term
    match, with more than one entry behind the index, deletes all of them although
    nothing conflicts; when one of them is committed, an assertion stops the server:
    a heartbeat that arrives late is enough. *)
Theorem heartbeat_truncates n ae s :
  raft_ok s → current_term s ≤ ae_term ae → prev_matches ae (entries_of s) →
  ae_entries ae = [] → 0 < ae_prev_log_idx ae → ae_prev_log_idx ae + 1 < raft_get_current_idx s →
  (ae_prev_log_idx ae < commit_idx s → raft_recv_appendentries n ae s = AssertFail) ∧
  (commit_idx s ≤ ae_prev_log_idx ae →
   ∃ s' idx, raft_recv_appendentries n ae s
       = Done (0, mkAppendResponse (ae_term ae) 1 idx (ae_prev_log_idx ae + 1)) s' ∧
     entries_of s' = take (Z.to_nat (ae_prev_log_idx ae)) (entries_of s) ∧
     (length (entries_of s') + 1 < length (entries_of s))%nat).
Proof.
  intros Hok Ht Hprev Hnil Hp Hlt.
  destruct (recv_appendentries_unfold n ae s Hok Ht) as (s1 & Hok1 & He1 & Hc1 & Ht1 & ->).
  rewrite <- He1 in Hprev |- *. rewrite (bind_Done _ _ _ _ _ (check_prev_accept ae s1 Hok1 Hprev)).
  rewrite current_idx_length, <- He1 in Hlt by done.
  destruct (trim_heartbeat ae s1 Hok1 Hnil Hp) as [Hfail Hcut]; [by rewrite current_idx_length|].
  split; intros Hc; rewrite <- Hc1 in Hc.
  - unfold mbind at 1, M_bind at 1. by rewrite (Hfail Hc).
  - destruct (Hcut Hc) as (l' & Hrun & Hok' & Hl'). rewrite (bind_Done _ _ _ _ _ Hrun), Hnil.
    cbn [scan_entries]. rewrite bind_ret. cbn [append_rest]. rewrite bind_ret.
    assert (entries_of (set_log l' s1) = take (Z.to_nat (ae_prev_log_idx ae)) (entries_of s1)) as He by exact Hl'.
    assert (length (entries_of (set_log l' s1)) = Z.to_nat (ae_prev_log_idx ae)) as Hlen.
    { rewrite He, length_take. lia. }
    destruct (advance_commit_spec (ae_leader_commit ae) (set_log l' s1) Hok') as (s2 & Hadv & _ & Hlog & _).
    { intros Hz. rewrite Hz in Hlen. cbn in Hlen. lia. }
    rewrite (bind_Done _ _ _ _ _ Hadv). munfold. eexists _, _. split; [reflexivity|].
    unfold entries_of in *. cbn in Hlog |- *. rewrite Hlog, Hl'. split; [done|].
    rewrite length_take. lia.
Qed.

(** C39: every committed entry is applied.  [raft_apply_all] ends, after as many turns
    as there are entries to apply; then everything committed is applied, and the state
    machine was called once for each of them, in the order of the log. *)
Theorem apply_all_in_order s fuel :
  raft_ok s → (Z.to_nat (commit_idx s - last_applied_idx s) < fuel)%nat →
  ∃ s', raft_apply_all fuel s = Done tt s' ∧
    last_applied_idx s' = commit_idx s ∧ commit_idx s' = commit_idx s ∧ log s' = log s ∧
    calls s' = applied_call s (drop (Z.to_nat (last_applied_idx s))
                 (take (Z.to_nat (commit_idx s)) (entries_of s))) ++ calls s.
Proof.
  intros Hok Hfuel. pose proof (ro_applied s Hok).
  destruct (apply_all_spec (Z.to_nat (commit_idx s - last_applied_idx s)) fuel s Hok ltac:(lia) Hfuel)
    as (s' & Hrun & [= Hl Hc Ha] & _ & Hcalls).
  exists s'. by split_and!.
Qed.

(** C38: a leader commits what a majority has.  When the response of a follower
    raises the commit index ([raft_recv_appendentries_response]), it is to the index of
    the response, and more than half of the nodes, the leader included, have confirmed
    the log up to it; when an entry of a client does ([raft_recv_entry]), the leader is
    the only node and the index that of the entry.  (A message of another leader moves
    the index to that leader's: [appendentries_merges].) *)
Theorem commit_needs_majority s s' :
  commit_idx s' ≠ commit_idx s →
  (∀ n r z, raft_recv_appendentries_response n r s = Done z s' →
    commit_idx s < commit_idx s' ∧ commit_idx s' = ar_current_idx r ∧
    num_nodes s' < 2 * (1 + Z.of_nat (length (replicas s' (commit_idx s'))))) ∧
  (∀ e r, raft_recv_entry e s = Done r s' → num_nodes s' = 1 ∧ commit_idx s' = raft_get_current_idx s').
Proof.
  intros Hne. split.
  - intros n r z Hrun. destruct (response_commit n r s z s' Hrun) as [|(Hlt & Heq & Hm)]; [done|].
    rewrite Heq. by split_and!.
  - intros e r Hrun. by destruct (entry_commit e s r s' Hrun).
Qed.

(** ** Witnesses *)
Definition run_ops (ops : list raft_op) : raft_server_t :=
  match raft_steps ops (raft_set_callbacks all_cbs raft_new) with
  | Done _ s => s
  | _ => raft_new
  end.

Definition ety (t i : Z) : raft_entry_t := mkEntry t i RAFT_LOGTYPE_NORMAL [].

(** A follower with three entries, the first committed. *)
Definition follow : list raft_op :=
  [OpAppendEntries None (mkAppendEntries 1 0 0 1 [ety 1 11; ety 1 12; ety 1 13])].
Definition follower : raft_server_t := run_ops follow.

Lemma follower_ok : raft_ok follower.
Proof. split; [split|..]; vm_compute; try done; by split. Qed.

Lemma committed_entries_stay_witness :
  ∃ s s', raft_steps follow (raft_set_callbacks all_cbs raft_new) = Done tt s ∧
    raft_steps [OpAppendEntries None (mkAppendEntries 2 1 1 2 [ety 2 14])] s = Done tt s' ∧
    take 1 (entries_of s') = take 1 (entries_of s).
Proof.
  set (s' := match raft_steps [OpAppendEntries None (mkAppendEntries 2 1 1 2 [ety 2 14])] follower with
             | Done _ s => s | _ => raft_new end).
  assert (raft_steps follow (raft_set_callbacks all_cbs raft_new) = Done tt follower) as H1
    by (vm_compute; reflexivity).
  assert (raft_steps [OpAppendEntries None (mkAppendEntries 2 1 1 2 [ety 2 14])] follower = Done tt s') as H2
    by (vm_compute; reflexivity).
  exists follower, s'. split; [exact H1|]. split; [exact H2|].
  destruct (committed_entries_stay all_cbs _ _ _ _ _ _ H1 H2) as (_ & _ & _ & _ & _ & Hp). exact Hp.
Defined.

Definition overwriting : msg_appendentries_t := mkAppendEntries 2 1 1 3 [ety 1 12; ety 2 14].

Lemma appendentries_merges_witness :
  ∃ s', raft_recv_appendentries None overwriting follower = Done (0, mkAppendResponse 2 1 3 2) s' ∧
    entries_of s' = [ety 1 11; ety 1 12; ety 2 14] ∧ commit_idx s' = 3.
Proof.
  destruct (appendentries_merges None overwriting follower) as (s' & Hrun & _ & _ & He & _ & _ & Hc).
  - apply follower_ok.
  - vm_compute. discriminate.
  - right. split; [done|]. exists (ety 1 11). split; vm_compute; reflexivity.
  - discriminate.
  - repeat constructor; discriminate.
  - intros j e e' H1 H2 H3. exfalso. change (commit_idx follower) with 1 in H3.
    change (Z.to_nat (ae_prev_log_idx overwriting)) with 1%nat in H3. lia.
  - exists s'. split; [exact Hrun|]. split; [rewrite He; vm_compute; reflexivity|].
    rewrite Hc, He. vm_compute. reflexivity.
Defined.

Lemma appendentries_refuses_witness :
  ∃ s', raft_recv_appendentries None (mkAppendEntries 2 3 2 3 [ety 2 14]) follower
      = Done (-1, mkAppendResponse 2 0 2 0) s' ∧ entries_of s' = [ety 1 11; ety 1 12].
Proof.
  destruct (appendentries_refuses None (mkAppendEntries 2 3 2 3 [ety 2 14]) follower) as (_ & _ & Hc).
  - apply follower_ok.
  - destruct (Hc (ety 1 13)) as (s' & Hrun & He); [vm_compute; discriminate|done| | | |].
    + vm_compute. reflexivity.
    + vm_compute. reflexivity.
    + vm_compute. discriminate.
    + exists s'. split; [exact Hrun|]. rewrite He. vm_compute. reflexivity.
Defined.

(** The heartbeat that was sent before the second and third entry. *)
Definition late_heartbeat : msg_appendentries_t := mkAppendEntries 1 1 1 1 [].

Lemma heartbeat_truncates_witness :
  ∃ s' idx, raft_recv_appendentries None late_heartbeat follower = Done (0, mkAppendResponse 1 1 idx 2) s' ∧
    entries_of s' = [ety 1 11].
Proof.
  destruct (heartbeat_truncates None late_heartbeat follower) as [_ Hcut].
  - apply follower_ok.
  - vm_compute. discriminate.
  - right. split; [done|]. exists (ety 1 11). split; vm_compute; reflexivity.
  - done.
  - done.
  - vm_compute. reflexivity.
  - destruct Hcut as (s' & idx & Hrun & He & _); [vm_compute; discriminate|].
    exists s', idx. split; [exact Hrun|]. rewrite He. vm_compute. reflexivity.
Defined.

Lemma apply_all_in_order_witness :
  ∃ s', raft_apply_all 2 follower = Done tt s' ∧ calls s' = ApplyLog (ety 1 11) :: calls follower.
Proof.
  destruct (apply_all_in_order follower 2) as (s' & Hrun & _ & _ & _ & Hcalls).
  - apply follower_ok.
  - vm_compute. lia.
  - exists s'. split; [exact Hrun|]. rewrite Hcalls. vm_compute. reflexivity.
Defined.

(** A leader of three that has appended an entry. *)
Definition three_nodes : list raft_op := [OpAddNode 1 true; OpAddNode 2 false; OpAddNode 3 false; OpPeriodic 7 1000].
Definition peer_2 : loc :=
  match raft_get_node 2 (run_ops three_nodes) with Done (Some n) _ => n | _ => 1%positive end.
Definition leading : raft_server_t :=
  run_ops (three_nodes ++ [OpRequestVoteResponse (Some peer_2) (mkVoteResponse 1 1); OpEntry (ety 0 21)]).

Lemma commit_needs_majority_witness :
  ∃ s', raft_recv_appendentries_response (Some peer_2) (mkAppendResponse 1 1 1 1) leading = Done 0 s' ∧
    commit_idx s' = 1 ∧ num_nodes s' < 2 * (1 + Z.of_nat (length (replicas s' 1))).
Proof.
  set (s1 := match raft_recv_appendentries_response (Some peer_2) (mkAppendResponse 1 1 1 1) leading with
             | Done _ s => s | _ => raft_new end).
  assert (raft_recv_appendentries_response (Some peer_2) (mkAppendResponse 1 1 1 1) leading = Done 0 s1)
    as Hrun by (vm_compute; reflexivity).
  destruct (commit_needs_majority leading s1) as [Hresponse _]; [vm_compute; discriminate|].
  destruct (Hresponse (Some peer_2) (mkAppendResponse 1 1 1 1) 0 Hrun) as (_ & Hc & Hm).
  exists s1. split; [exact Hrun|]. split; [exact Hc|]. rewrite Hc in Hm. exact Hm.
Defined.
