(* ===== verification/DList.v ===== *)
(** The intrusive list of src/dsa/list.hpp: circular, doubly linked, with a sentinel
    inside the list object.  A [ListNode] is an object of the store; its operations
    are the assignments of the source, one after the other. *)

From S2P Require Import Prelude.

Record ListNode (T : Type) := mkListNode { prev_ : loc; next_ : loc; data_ : T }.
Arguments mkListNode {T}. Arguments prev_ {T}. Arguments next_ {T}. Arguments data_ {T}.

(** The list and the nodes that exist; [head_] is the address of the sentinel. *)
Record DoublyLinkedList (T : Type) := mkList {
  head_ : loc;
  list_mutex_ : mutex;
  node_objs : gmap loc (ListNode T);
}.
Arguments mkList {T}. Arguments head_ {T}. Arguments list_mutex_ {T}. Arguments node_objs {T}.

#[export] Instance list_has_mutex {T} : HasMutex (DoublyLinkedList T) := {
  mtx := list_mutex_;
  set_mtx m s := mkList (head_ s) m (node_objs s);
}.

Section List_.
Context {LP : LockPolicy} {T : Type}.
Abbreviation ML := (M (DoublyLinkedList T)).
Implicit Types (node this : loc) (s : DoublyLinkedList T).

Definition node_at node : ML (ListNode T) := λ s,
  match node_objs s !! node with
  | Some n => Done n s
  | None => Undef
  end.

Definition write_node node (n : ListNode T) : ML unit :=
  modify (λ s, mkList (head_ s) (list_mutex_ s) (<[node := n]> (node_objs s))).

Definition set_prev node (p : loc) : ML unit :=
  n ← node_at node; write_node node (mkListNode p (next_ n) (data_ n)).
Definition set_next node (p : loc) : ML unit :=
  n ← node_at node; write_node node (mkListNode (prev_ n) p (data_ n)).

Definition link_self this : ML unit := set_prev this this ;; set_next this this.

(** The constructor of [ListNode]. *)
Definition new_node node (value : T) : ML unit :=
  write_node node (mkListNode node node value) ;; link_self node.

Definition is_linked this : ML bool :=
  n ← node_at this; mret (bool_decide (next_ n ≠ this)).

Definition unlink this : ML unit :=
  n ← node_at this;
  set_next (prev_ n) (next_ n) ;;
  n ← node_at this;
  set_prev (next_ n) (prev_ n) ;;
  link_self this.

Definition insert_before this node : ML unit :=
  t ← node_at this;
  set_prev node (prev_ t) ;;
  set_next node this ;;
  t ← node_at this;
  set_next (prev_ t) node ;;
  set_prev this node.

Definition insert_after this node : ML unit :=
  set_prev node this ;;
  t ← node_at this;
  set_next node (next_ t) ;;
  t ← node_at this;
  set_prev (next_ t) node ;;
  set_next this node.

(** The list over a new sentinel. *)
Definition list_new (head : loc) (value : T) (objs : gmap loc (ListNode T)) : DoublyLinkedList T :=
  mkList head [] (<[head := mkListNode head head value]> objs).

(** Iterators are the node they are at. *)
Definition begin : ML loc :=
  guarded Sh (s ← get; n ← node_at (head_ s); mret (next_ n)).
Definition end_ : ML loc := guarded Sh (s ← get; mret (head_ s)).
Definition empty : ML bool :=
  guarded Sh (s ← get; b ← is_linked (head_ s); mret (negb b)).
Definition push_front node : ML unit := guarded Un (s ← get; insert_after (head_ s) node).
Definition push_back node : ML unit := guarded Un (s ← get; insert_before (head_ s) node).

Definition iter_next (it : loc) : ML loc := n ← node_at it; mret (next_ n).
Definition iter_prev (it : loc) : ML loc := n ← node_at it; mret (prev_ n).
Definition iter_deref (it : loc) : ML T := n ← node_at it; mret (data_ n).

(** [it++] and [it--] return the iterator as it was. *)
Definition iter_next_post (it : loc) : ML (loc * loc) := let tmp := it in it ← iter_next it; mret (tmp, it).
Definition iter_prev_post (it : loc) : ML (loc * loc) := let tmp := it in it ← iter_prev it; mret (tmp, it).

Definition iter_eq (it other : loc) : bool := bool_decide (it = other).
Definition iter_ne (it other : loc) : bool := negb (iter_eq it other).

(** [node.data() = value]. *)
Definition set_data node (value : T) : ML unit :=
  n ← node_at node; write_node node (mkListNode (prev_ n) (next_ n) value).

(** [for (auto it = list.begin(); it != list.end(); ++it)], collecting the values. *)
Fixpoint iterate (fuel : nat) (it : loc) : ML (list T) :=
  match fuel with
  | O => λ _, NoFuel
  | S fuel' =>
      e ← end_;
      if iter_ne it e then
        v ← iter_deref it;
        it' ← iter_next it;
        rest ← iterate fuel' it';
        mret (v :: rest)
      else mret []
  end.

Definition contents (fuel : nat) : ML (list T) := it ← begin; iterate fuel it.

(** The same from [end()] backwards, with [--it]. *)
Fixpoint iterate_back (fuel : nat) (it : loc) : ML (list T) :=
  match fuel with
  | O => λ _, NoFuel
  | S fuel' =>
      b ← begin;
      if iter_ne it b then
        it' ← iter_prev it;
        v ← iter_deref it';
        rest ← iterate_back fuel' it';
        mret (v :: rest)
      else mret []
  end.

(** The same loops as they are written with [*it++], and with [it--] before the access. *)
Fixpoint iterate_post (fuel : nat) (it : loc) : ML (list T) :=
  match fuel with
  | O => λ _, NoFuel
  | S fuel' =>
      e ← end_;
      if iter_ne it e then
        '(at_it, it') ← iter_next_post it;
        v ← iter_deref at_it;
        rest ← iterate_post fuel' it';
        mret (v :: rest)
      else mret []
  end.

Fixpoint iterate_back_post (fuel : nat) (it : loc) : ML (list T) :=
  match fuel with
  | O => λ _, NoFuel
  | S fuel' =>
      b ← begin;
      if iter_ne it b then
        '(_, it') ← iter_prev_post it;
        v ← iter_deref it';
        rest ← iterate_back_post fuel' it';
        mret (v :: rest)
      else mret []
  end.

Definition contents_back (fuel : nat) : ML (list T) := it ← end_; iterate_back fuel it.
End List_.

(** ** The list a heap of nodes represents *)
Section Rep.
Context {T : Type}.
Implicit Types (objs : gmap loc (ListNode T)) (xs : list loc).

Definition nx objs (a : loc) : option loc := next_ <$> objs !! a.
Definition pv objs (a : loc) : option loc := prev_ <$> objs !! a.

(** Neighbours point to each other. *)
Definition linked objs (a b : loc) : Prop := nx objs a = Some b ∧ pv objs b = Some a.

Fixpoint chain objs (a : loc) xs (b : loc) : Prop :=
  match xs with
  | [] => linked objs a b
  | x :: xs' => linked objs a x ∧ chain objs x xs' b
  end.

(** The nodes from the sentinel round to it are [xs]; every other node is by itself. *)
Record is_list objs (head : loc) xs : Prop := {
  il_nodup : NoDup (head :: xs);
  il_chain : chain objs head xs head;
  il_alone : ∀ a, a ∉ head :: xs → is_Some (objs !! a) → nx objs a = Some a ∧ pv objs a = Some a;
}.

Lemma chain_app objs xs ys : ∀ a x b,
  chain objs a (xs ++ x :: ys) b ↔ chain objs a xs x ∧ chain objs x ys b.
Proof. induction xs as [|y xs IH]; intros a x b; cbn; [done|]. rewrite IH. tauto. Qed.

(** A chain stays when its links do; [P] holds of the nodes whose [next_] it reads,
    [Q] of those whose [prev_] it reads. *)
Lemma chain_mono objs objs' (P Q : loc → Prop) xs : ∀ a b,
  (∀ u v, linked objs u v → P u → Q v → linked objs' u v) →
  chain objs a xs b → Forall P (a :: xs) → Forall Q (xs ++ [b]) → chain objs' a xs b.
Proof.
  induction xs as [|x xs IH]; intros a b Hl Hc HP HQ; cbn in *.
  - apply Hl; [done|by inversion HP|by inversion HQ].
  - destruct Hc as [Hax Hc]. apply Forall_cons in HP as [Ha HP]. apply Forall_cons in HQ as [Hx HQ].
    split; [by apply Hl|by apply IH].
Qed.

Lemma chain_in objs xs : ∀ a b x, chain objs a xs b → x ∈ a :: xs ++ [b] → is_Some (objs !! x).
Proof.
  assert (∀ a b, linked objs a b → is_Some (objs !! a) ∧ is_Some (objs !! b)) as Hlink.
  { unfold linked, nx, pv. intros a b [H1 H2]. by destruct (objs !! a), (objs !! b). }
  induction xs as [|y xs IH]; intros a b x Hc Hx; cbn in *.
  - apply Hlink in Hc as [??]. set_unfold. destruct Hx as [->|[->|[]]]; done.
  - destruct Hc as [[Ha _]%Hlink Hc]. apply elem_of_cons in Hx as [->|Hx]; [done|]. by eapply IH.
Qed.

(** The last node before the end of a chain, and the first after its start. *)
Lemma chain_last objs xs : ∀ a b, chain objs a xs b → ∃ l, pv objs b = Some l ∧ l ∈ a :: xs ∧ nx objs l = Some b.
Proof.
  induction xs as [|x xs IH]; intros a b Hc; cbn in *.
  - exists a. split; [apply Hc|]. split; [set_solver|apply Hc].
  - destruct Hc as [_ Hc]. destruct (IH _ _ Hc) as (l & Hl & Hin & Hn). exists l. set_solver.
Qed.

(** *** Taking a node out *)
Lemma chain_remove objs objs' n a b l1 l2 : ∀ h t,
  (∀ u v, linked objs u v → u ≠ n → v ≠ n → linked objs' u v) →
  pv objs n = Some a → nx objs n = Some b → linked objs' a b →
  n ∉ h :: l1 → n ∉ l2 ++ [t] →
  chain objs h l1 n → chain objs n l2 t → chain objs' h (l1 ++ l2) t.
Proof.
  intros h t Hl Hpv Hnx Hab. revert h.
  assert (∀ h, h = a → n ∉ l2 ++ [t] → chain objs n l2 t → chain objs' h l2 t) as Hskip.
  { intros h -> Hn Hc. destruct l2 as [|y l2]; cbn in *.
    - destruct Hc as [Hc _]. congruence.
    - destruct Hc as [[Hy _] Hc]. assert (y = b) as -> by congruence. split; [done|].
      apply (chain_mono objs objs' (λ x, x ≠ n) (λ x, x ≠ n)); try done;
        apply Forall_forall; set_solver. }
  induction l1 as [|x l1 IH]; intros h H1 H2 Hc1 Hc2; cbn in *.
  - destruct Hc1 as [_ Hh]. apply Hskip; [congruence|done|done].
  - destruct Hc1 as [Hhx Hc1]. split; [apply Hl; set_solver|]. apply IH; try done. set_solver.
Qed.

(** *** Putting a node in *)
Lemma chain_insert_front objs objs' n h t ys :
  (∀ u v, linked objs u v → u ≠ h → u ≠ n → v ≠ n → linked objs' u v) →
  linked objs' h n → (∀ b, nx objs h = Some b → linked objs' n b) →
  n ∉ h :: ys ++ [t] → h ∉ ys → chain objs h ys t → chain objs' h (n :: ys) t.
Proof.
  intros Hl Hhn Hnb Hn Hh Hc. split; [done|]. destruct ys as [|y ys]; cbn in *.
  - apply Hnb, Hc.
  - destruct Hc as [[Hy _] Hc]. split; [by apply Hnb|].
    apply (chain_mono objs objs' (λ x, x ≠ h ∧ x ≠ n) (λ x, x ≠ n)); [naive_solver|done| |];
      apply Forall_forall; set_solver.
Qed.

Lemma chain_insert_back objs objs' n t ys : ∀ h,
  (∀ u v, linked objs u v → v ≠ t → u ≠ n → v ≠ n → linked objs' u v) →
  linked objs' n t → (∀ a, pv objs t = Some a → linked objs' a n) →
  n ∉ h :: ys ++ [t] → t ∉ ys → chain objs h ys t → chain objs' h (ys ++ [n]) t.
Proof.
  induction ys as [|y ys IH]; intros h Hl Hnt Han Hn Ht Hc; cbn in *.
  - split; [|done]. apply Han, Hc.
  - destruct Hc as [Hhy Hc]. split; [apply Hl; set_solver|]. apply IH; try done; set_solver.
Qed.
End Rep.

(** ** What the assignments do *)
Section Effects.
Context {LP : LockPolicy} {T : Type}.
Implicit Types (objs : gmap loc (ListNode T)) (xs : list loc) (h : loc) (m : mutex).

Definition datum objs (x : loc) : option T := data_ <$> objs !! x.

(** [next_] and [prev_] as functions of the node, and the same nodes with their data. *)
Definition becomes objs objs' (fn fp : loc → option loc) : Prop :=
  (∀ x, nx objs' x = fn x) ∧ (∀ x, pv objs' x = fp x) ∧ (∀ x, datum objs' x = datum objs x).

Lemma becomes_in objs objs' fn fp x : becomes objs objs' fn fp → is_Some (objs' !! x) ↔ is_Some (objs !! x).
Proof.
  intros (_ & _ & Hd). specialize (Hd x). unfold datum in Hd.
  destruct (objs' !! x), (objs !! x); try done; split; by intros [].
Qed.

Lemma node_at_Done h m objs x n : objs !! x = Some n → node_at x (mkList h m objs) = Done n (mkList h m objs).
Proof. intros Hx. unfold node_at. cbn. by rewrite Hx. Qed.

Lemma in_nx objs x : is_Some (objs !! x) → ∃ n, objs !! x = Some n ∧ nx objs x = Some (next_ n) ∧ pv objs x = Some (prev_ n).
Proof. intros [n Hn]. exists n. unfold nx, pv. by rewrite Hn. Qed.

Lemma set_next_spec h m objs x p :
  is_Some (objs !! x) →
  ∃ objs', set_next x p (mkList h m objs) = Done tt (mkList h m objs') ∧
    becomes objs objs' (λ y, if decide (y = x) then Some p else nx objs y) (pv objs).
Proof.
  intros [n Hn]. unfold set_next. rewrite (bind_Done _ _ _ _ _ (node_at_Done h m objs x n Hn)).
  eexists. split; [reflexivity|]. unfold becomes, nx, pv, datum.
  split_and!; intros y; destruct (decide (y = x)) as [->|Hne];
    rewrite ?lookup_insert_eq, ?lookup_insert_ne, ?Hn by done; done.
Qed.

Lemma set_prev_spec h m objs x p :
  is_Some (objs !! x) →
  ∃ objs', set_prev x p (mkList h m objs) = Done tt (mkList h m objs') ∧
    becomes objs objs' (nx objs) (λ y, if decide (y = x) then Some p else pv objs y).
Proof.
  intros [n Hn]. unfold set_prev. rewrite (bind_Done _ _ _ _ _ (node_at_Done h m objs x n Hn)).
  eexists. split; [reflexivity|]. unfold becomes, nx, pv, datum.
  split_and!; intros y; destruct (decide (y = x)) as [->|Hne];
    rewrite ?lookup_insert_eq, ?lookup_insert_ne, ?Hn by done; done.
Qed.

Lemma becomes_trans objs1 objs2 objs3 fn fp fn' fp' :
  becomes objs1 objs2 fn fp → becomes objs2 objs3 fn' fp' → becomes objs1 objs3 fn' fp'.
Proof. intros (_ & _ & H1) (H2 & H3 & H4). split_and!; try done. intros x. by rewrite H4. Qed.

Lemma insert_after_spec h m objs this node b :
  is_Some (objs !! node) → is_Some (objs !! b) → nx objs this = Some b → node ≠ this →
  ∃ objs', insert_after this node (mkList h m objs) = Done tt (mkList h m objs') ∧
    becomes objs objs'
      (λ x, if decide (x = this) then Some node else if decide (x = node) then Some b else nx objs x)
      (λ x, if decide (x = b) then Some node else if decide (x = node) then Some this else pv objs x).
Proof.
  intros Hnode Hb Hnx Hne.
  assert (is_Some (objs !! this)) as Hthis by (unfold nx in Hnx; by destruct (objs !! this)).
  destruct (set_prev_spec h m objs node this Hnode) as (o1 & H1 & B1).
  assert (∀ x, is_Some (o1 !! x) ↔ is_Some (objs !! x)) as I1 by (intros x; by eapply becomes_in).
  destruct (in_nx o1 this) as (t1 & Ht1 & Hn1 & _); [by apply I1|]. pose proof B1 as (N1 & P1 & _).
  rewrite N1, Hnx in Hn1. injection Hn1 as Hn1.
  destruct (set_next_spec h m o1 node b) as (o2 & H2 & B2); [by apply I1|].
  assert (∀ x, is_Some (o2 !! x) ↔ is_Some (objs !! x)) as I2.
  { intros x. rewrite <- I1. by eapply becomes_in. }
  destruct (in_nx o2 this) as (t2 & Ht2 & Hn2 & _); [by apply I2|]. pose proof B2 as (N2 & P2 & _).
  rewrite N2, decide_False, N1, Hnx in Hn2 by done. injection Hn2 as Hn2.
  destruct (set_prev_spec h m o2 b node) as (o3 & H3 & B3); [by apply I2|].
  assert (∀ x, is_Some (o3 !! x) ↔ is_Some (objs !! x)) as I3.
  { intros x. rewrite <- I2. by eapply becomes_in. }
  destruct (set_next_spec h m o3 this node) as (o4 & H4 & B4); [by apply I3|].
  exists o4. split.
  - unfold insert_after. rewrite (bind_Done _ _ _ _ _ H1), (bind_Done _ _ _ _ _ (node_at_Done h m o1 _ _ Ht1)).
    rewrite <- Hn1, (bind_Done _ _ _ _ _ H2), (bind_Done _ _ _ _ _ (node_at_Done h m o2 _ _ Ht2)).
    rewrite <- Hn2, (bind_Done _ _ _ _ _ H3). exact H4.
  - pose proof B3 as (N3 & P3 & _). pose proof B4 as (N4 & P4 & _).
    destruct (becomes_trans _ _ _ _ _ _ _ (becomes_trans _ _ _ _ _ _ _ (becomes_trans _ _ _ _ _ _ _ B1 B2) B3) B4)
      as (_ & _ & Hd).
    split_and!; [| |done]; intros x.
    + rewrite N4, N3, N2, N1. done.
    + rewrite P4, P3, P2, P1. done.
Qed.

Lemma insert_before_spec h m objs this node a :
  is_Some (objs !! node) → is_Some (objs !! a) → pv objs this = Some a → node ≠ this →
  ∃ objs', insert_before this node (mkList h m objs) = Done tt (mkList h m objs') ∧
    becomes objs objs'
      (λ x, if decide (x = a) then Some node else if decide (x = node) then Some this else nx objs x)
      (λ x, if decide (x = this) then Some node else if decide (x = node) then Some a else pv objs x).
Proof.
  intros Hnode Ha Hpv Hne.
  assert (is_Some (objs !! this)) as Hthis by (unfold pv in Hpv; by destruct (objs !! this)).
  destruct (in_nx objs this Hthis) as (t0 & Ht0 & _ & Hp0). rewrite Hpv in Hp0. injection Hp0 as Hp0.
  destruct (set_prev_spec h m objs node a Hnode) as (o1 & H1 & B1).
  assert (∀ x, is_Some (o1 !! x) ↔ is_Some (objs !! x)) as I1 by (intros x; by eapply becomes_in).
  destruct (set_next_spec h m o1 node this) as (o2 & H2 & B2); [by apply I1|].
  assert (∀ x, is_Some (o2 !! x) ↔ is_Some (objs !! x)) as I2.
  { intros x. rewrite <- I1. by eapply becomes_in. }
  destruct (in_nx o2 this) as (t2 & Ht2 & _ & Hp2); [by apply I2|].
  pose proof B1 as (N1 & P1 & _). pose proof B2 as (N2 & P2 & _).
  rewrite P2, P1, decide_False, Hpv in Hp2 by done. injection Hp2 as Hp2.
  destruct (set_next_spec h m o2 a node) as (o3 & H3 & B3); [by apply I2|].
  assert (∀ x, is_Some (o3 !! x) ↔ is_Some (objs !! x)) as I3.
  { intros x. rewrite <- I2. by eapply becomes_in. }
  destruct (set_prev_spec h m o3 this node) as (o4 & H4 & B4); [by apply I3|].
  exists o4. split.
  - unfold insert_before. rewrite (bind_Done _ _ _ _ _ (node_at_Done h m objs _ _ Ht0)).
    rewrite <- Hp0, (bind_Done _ _ _ _ _ H1), (bind_Done _ _ _ _ _ H2).
    rewrite (bind_Done _ _ _ _ _ (node_at_Done h m o2 _ _ Ht2)).
    rewrite <- Hp2, (bind_Done _ _ _ _ _ H3). exact H4.
  - pose proof B3 as (N3 & P3 & _). pose proof B4 as (N4 & P4 & _).
    destruct (becomes_trans _ _ _ _ _ _ _ (becomes_trans _ _ _ _ _ _ _ (becomes_trans _ _ _ _ _ _ _ B1 B2) B3) B4)
      as (_ & _ & Hd).
    split_and!; [| |done]; intros x.
    + rewrite N4, N3, N2, N1. done.
    + rewrite P4, P3, P2, P1. done.
Qed.

Lemma unlink_spec h m objs n a b :
  is_Some (objs !! a) → is_Some (objs !! b) → pv objs n = Some a → nx objs n = Some b →
  ∃ objs', unlink n (mkList h m objs) = Done tt (mkList h m objs') ∧
    becomes objs objs'
      (λ x, if decide (x = n) then Some n else if decide (x = a) then Some b else nx objs x)
      (λ x, if decide (x = n) then Some n else if decide (x = b) then Some a else pv objs x).
Proof.
  intros Ha Hb Hpv Hnx.
  assert (is_Some (objs !! n)) as Hn by (unfold pv in Hpv; by destruct (objs !! n)).
  destruct (in_nx objs n Hn) as (t0 & Ht0 & Hn0 & Hp0).
  rewrite Hpv in Hp0. rewrite Hnx in Hn0. injection Hp0 as Hp0. injection Hn0 as Hn0.
  destruct (set_next_spec h m objs a b Ha) as (o1 & H1 & B1).
  assert (∀ x, is_Some (o1 !! x) ↔ is_Some (objs !! x)) as I1 by (intros x; by eapply becomes_in).
  pose proof B1 as (N1 & P1 & _).
  destruct (in_nx o1 n) as (t1 & Ht1 & Hn1 & Hp1); [by apply I1|].
  rewrite P1, Hpv in Hp1. injection Hp1 as Hp1.
  assert (b = next_ t1) as Hb1.
  { rewrite N1, Hnx in Hn1. by destruct (decide (n = a)); injection Hn1. }
  destruct (set_prev_spec h m o1 b a) as (o2 & H2 & B2); [by apply I1|].
  assert (∀ x, is_Some (o2 !! x) ↔ is_Some (objs !! x)) as I2.
  { intros x. rewrite <- I1. by eapply becomes_in. }
  destruct (set_prev_spec h m o2 n n) as (o3 & H3 & B3); [by apply I2|].
  assert (∀ x, is_Some (o3 !! x) ↔ is_Some (objs !! x)) as I3.
  { intros x. rewrite <- I2. by eapply becomes_in. }
  destruct (set_next_spec h m o3 n n) as (o4 & H4 & B4); [by apply I3|].
  exists o4. split.
  - unfold unlink, link_self. rewrite (bind_Done _ _ _ _ _ (node_at_Done h m objs _ _ Ht0)).
    rewrite <- Hp0, <- Hn0, (bind_Done _ _ _ _ _ H1), (bind_Done _ _ _ _ _ (node_at_Done h m o1 _ _ Ht1)).
    rewrite <- Hb1, <- Hp1, (bind_Done _ _ _ _ _ H2), (bind_Done _ _ _ _ _ H3). exact H4.
  - pose proof B2 as (N2 & P2 & _). pose proof B3 as (N3 & P3 & _). pose proof B4 as (N4 & P4 & _).
    destruct (becomes_trans _ _ _ _ _ _ _ (becomes_trans _ _ _ _ _ _ _ (becomes_trans _ _ _ _ _ _ _ B1 B2) B3) B4)
      as (_ & _ & Hd).
    split_and!; [| |done]; intros x.
    + rewrite N4, N3, N2, N1. done.
    + rewrite P4, P3, P2, P1. done.
Qed.
End Effects.

(** ** The operations on the list they represent *)
Section Represent.
Context {T : Type}.
Implicit Types (objs : gmap loc (ListNode T)) (xs : list loc) (h n : loc).

Lemma is_list_ext objs objs' h xs :
  (∀ x, nx objs' x = nx objs x) → (∀ x, pv objs' x = pv objs x) →
  (∀ x, is_Some (objs' !! x) → is_Some (objs !! x)) →
  is_list objs h xs → is_list objs' h xs.
Proof.
  intros Hn Hp Hin [Hd Hc Ha]. split; [done| |].
  - apply (chain_mono objs objs' (λ _, True) (λ _, True)); try done; [|by apply Forall_true..].
    unfold linked. intros u v. by rewrite Hn, Hp.
  - intros a Hna Hs. rewrite Hn, Hp. auto.
Qed.

Lemma chain_first objs xs a t : chain objs a xs t → ∃ b, linked objs a b ∧ b ∈ xs ++ [t].
Proof. destruct xs as [|b xs]; intros Hc; [exists t|exists b]; (split; [apply Hc|set_solver]). Qed.

(** The neighbours of the sentinel. *)
Lemma is_list_first objs h xs :
  is_list objs h xs → ∃ b, linked objs h b ∧ b ∈ xs ++ [h] ∧ is_Some (objs !! b).
Proof.
  intros [_ Hc _]. destruct (chain_first _ _ _ _ Hc) as (b & Hb & Hin). exists b. split_and!; try done.
  eapply chain_in; [done|set_solver].
Qed.

Lemma is_list_last objs h xs :
  is_list objs h xs → ∃ a, linked objs a h ∧ a ∈ h :: xs ∧ is_Some (objs !! a).
Proof.
  intros [_ Hc _]. destruct (chain_last _ _ _ _ Hc) as (a & Hp & Hin & Hn). exists a. split_and!; try done.
  eapply chain_in; [done|set_solver].
Qed.

(** What the assignments of the three operations do to the list. *)
Lemma is_list_push_front objs objs' h n xs b :
  is_list objs h xs → linked objs h b → b ∈ xs ++ [h] → n ∉ h :: xs →
  becomes objs objs'
    (λ x, if decide (x = h) then Some n else if decide (x = n) then Some b else nx objs x)
    (λ x, if decide (x = b) then Some n else if decide (x = n) then Some h else pv objs x) →
  is_list objs' h (n :: xs).
Proof.
  intros [Hd Hc Ha] [Hhb Hbh] Hb Hn Hbec. pose proof Hbec as (N & P & _).
  assert (n ≠ h ∧ n ≠ b) as [Hnh Hnb] by (clear -Hn Hb; set_solver).
  split.
  - apply NoDup_cons in Hd as [??]. apply NoDup_cons. split; [set_solver|]. apply NoDup_cons. set_solver.
  - apply (chain_insert_front objs); [| | |clear -Hn; set_solver|by apply NoDup_cons in Hd as [??]|done].
    + unfold linked. intros u v [Huv Hvu] ???. rewrite N, P, !decide_False by congruence. done.
    + unfold linked. rewrite N, P, decide_True, decide_False, decide_True by done. done.
    + intros b'. rewrite Hhb. intros [= <-]. unfold linked.
      rewrite N, P, decide_False, decide_True, decide_True by done. done.
  - intros a Hna Hs. rewrite N, P, !decide_False by set_solver.
    apply Ha; [set_solver|]. by apply (becomes_in _ _ _ _ _ Hbec).
Qed.

Lemma is_list_push_back objs objs' h n xs a :
  is_list objs h xs → linked objs a h → a ∈ h :: xs → n ∉ h :: xs →
  becomes objs objs'
    (λ x, if decide (x = a) then Some n else if decide (x = n) then Some h else nx objs x)
    (λ x, if decide (x = h) then Some n else if decide (x = n) then Some a else pv objs x) →
  is_list objs' h (xs ++ [n]).
Proof.
  intros [Hd Hc Ha] [Hah Hha] Hin Hn Hbec. pose proof Hbec as (N & P & _).
  assert (n ≠ h ∧ n ≠ a) as [Hnh Hnb] by (clear -Hn Hin; set_solver).
  split.
  - rewrite app_comm_cons. apply NoDup_app. split_and!; [done|set_solver|apply NoDup_singleton].
  - apply (chain_insert_back objs); [| | |clear -Hn; set_solver|by apply NoDup_cons in Hd as [??]|done].
    + unfold linked. intros u v [Huv Hvu] ???. rewrite N, P, !decide_False by congruence. done.
    + unfold linked. rewrite N, P, decide_False, decide_True, decide_True by done. done.
    + intros a'. rewrite Hha. intros [= <-]. unfold linked.
      rewrite N, P, decide_True, decide_False, decide_True by done. done.
  - intros x Hna Hs. rewrite N, P, !decide_False by set_solver.
    apply Ha; [set_solver|]. by apply (becomes_in _ _ _ _ _ Hbec).
Qed.

Lemma NoDup_middle (l k : list loc) n : NoDup (l ++ k) → n ∉ l ++ k → NoDup (l ++ n :: k).
Proof. intros Hd Hn. rewrite <- Permutation_middle. by apply NoDup_cons. Qed.

(** Next to a node of the list. *)
Lemma is_list_insert_after objs objs' h this n l1 l2 b :
  is_list objs h (l1 ++ this :: l2) → linked objs this b → b ∈ l2 ++ [h] → n ∉ h :: l1 ++ this :: l2 →
  becomes objs objs'
    (λ x, if decide (x = this) then Some n else if decide (x = n) then Some b else nx objs x)
    (λ x, if decide (x = b) then Some n else if decide (x = n) then Some this else pv objs x) →
  is_list objs' h (l1 ++ this :: n :: l2).
Proof.
  intros [Hd Hc Ha] [Htb Hbt] Hb Hn Hbec. pose proof Hbec as (N & P & _).
  apply chain_app in Hc as [Hc1 Hc2].
  assert (n ≠ this ∧ n ≠ b) as [Hnt Hnb] by (clear -Hn Hb; set_solver).
  assert (this ∉ h :: l1 ∧ this ∉ l2) as [Ht1 Ht2].
  { clear -Hd. apply (NoDup_app (h :: l1) (this :: l2)) in Hd as (_ & Hd1 & Hd2).
    apply NoDup_cons in Hd2. set_solver. }
  split.
  - replace (h :: l1 ++ this :: n :: l2) with ((h :: l1 ++ [this]) ++ n :: l2) by (cbn; by rewrite <- app_assoc).
    apply NoDup_middle; cbn; by rewrite <- app_assoc.
  - apply chain_app. split.
    + apply (chain_mono objs objs' (λ x, x ≠ this ∧ x ≠ n) (λ x, x ≠ n)); [|done| |].
      * unfold linked. intros u v [Huv Hvu] [??] ?. rewrite N, P, !decide_False by congruence. done.
      * clear -Ht1 Hn. apply Forall_forall. set_solver.
      * clear -Hn. apply Forall_forall. set_solver.
    + apply (chain_insert_front objs); [| | |clear -Hn; set_solver|done|done].
      * unfold linked. intros u v [Huv Hvu] ???. rewrite N, P, !decide_False by congruence. done.
      * unfold linked. rewrite N, P, decide_True, decide_False, decide_True by done. done.
      * intros b'. rewrite Htb. intros [= <-]. unfold linked.
        rewrite N, P, decide_False, decide_True, decide_True by done. done.
  - intros a Hna Hs. rewrite N, P, !decide_False by (clear -Hna Hb; set_solver).
    apply Ha; [clear -Hna; set_solver|]. by apply (becomes_in _ _ _ _ _ Hbec).
Qed.

Lemma is_list_insert_before objs objs' h this n l1 l2 a :
  is_list objs h (l1 ++ this :: l2) → linked objs a this → a ∈ h :: l1 → n ∉ h :: l1 ++ this :: l2 →
  becomes objs objs'
    (λ x, if decide (x = a) then Some n else if decide (x = n) then Some this else nx objs x)
    (λ x, if decide (x = this) then Some n else if decide (x = n) then Some a else pv objs x) →
  is_list objs' h (l1 ++ n :: this :: l2).
Proof.
  intros [Hd Hc Ha] [Hat Hta] Hin Hn Hbec. pose proof Hbec as (N & P & _).
  apply chain_app in Hc as [Hc1 Hc2].
  assert (n ≠ this ∧ n ≠ a) as [Hnt Hnb] by (clear -Hn Hin; set_solver).
  assert (this ∉ h :: l1 ∧ this ∉ l2) as [Ht1 Ht2].
  { clear -Hd. apply (NoDup_app (h :: l1) (this :: l2)) in Hd as (_ & Hd1 & Hd2).
    apply NoDup_cons in Hd2. set_solver. }
  split.
  - by apply (NoDup_middle (h :: l1) (this :: l2)).
  - replace (l1 ++ n :: this :: l2) with ((l1 ++ [n]) ++ this :: l2) by (by rewrite <- app_assoc).
    apply chain_app. split.
    + apply (chain_insert_back objs); [| | |clear -Hn; set_solver|clear -Ht1; set_solver|done].
      * unfold linked. intros u v [Huv Hvu] ???. rewrite N, P, !decide_False by congruence. done.
      * unfold linked. rewrite N, P, decide_False, decide_True, decide_True by done. done.
      * intros a'. rewrite Hta. intros [= <-]. unfold linked.
        rewrite N, P, decide_True, decide_False, decide_True by done. done.
    + apply (chain_mono objs objs' (λ x, x ≠ n) (λ x, x ≠ this ∧ x ≠ n)); [|done| |].
      * unfold linked. intros u v [Huv Hvu] ? [??]. rewrite N, P, !decide_False by congruence. done.
      * clear -Hn. apply Forall_forall. set_solver.
      * clear -Hn Ht1 Ht2. apply Forall_forall. set_solver.
  - intros x Hna Hs. rewrite N, P, !decide_False by (clear -Hna Hin; set_solver).
    apply Ha; [clear -Hna; set_solver|]. by apply (becomes_in _ _ _ _ _ Hbec).
Qed.

Lemma filter_others n xs : n ∉ xs → filter (.≠ n) xs = xs.
Proof.
  induction xs as [|x xs IH]; intros Hn; [done|]. apply not_elem_of_cons in Hn as [??].
  rewrite filter_cons_True by done. by rewrite IH.
Qed.

(** Taking a node out needs no list to be named: the node may be by itself. *)
Lemma is_list_unlink objs objs' h n xs a b :
  is_list objs h xs → n ≠ h → pv objs n = Some a → nx objs n = Some b →
  becomes objs objs'
    (λ x, if decide (x = n) then Some n else if decide (x = a) then Some b else nx objs x)
    (λ x, if decide (x = n) then Some n else if decide (x = b) then Some a else pv objs x) →
  is_list objs' h (filter (.≠ n) xs).
Proof.
  intros Hl Hnh Hpn Hnn Hbec. pose proof Hbec as (N & P & _).
  destruct (decide (n ∈ xs)) as [Hin|Hout].
  - destruct Hl as [Hd Hc Ha]. apply list_elem_of_split in Hin as (l1 & l2 & ->).
    assert (n ∉ h :: l1 ∧ n ∉ l2) as [Hn1 Hn2].
    { apply NoDup_cons in Hd as [_ (_ & Hd1 & Hd2)%NoDup_app]. apply NoDup_cons in Hd2. set_solver. }
    assert (filter (.≠ n) (l1 ++ n :: l2) = l1 ++ l2) as ->.
    { rewrite filter_app, filter_cons_False by (intros []; done).
      f_equal; apply filter_others; [|done]. set_solver. }
    apply chain_app in Hc as [Hc1 Hc2].
    destruct (chain_last _ _ _ _ Hc1) as (a' & Hpa & Hain & Hna).
    destruct (chain_first _ _ _ _ Hc2) as (b' & [Hnb Hpb] & Hbin).
    rewrite Hpn in Hpa. injection Hpa as <-. rewrite Hnn in Hnb. injection Hnb as <-.
    assert (a ≠ n ∧ b ≠ n) as [Han Hbn] by set_solver.
    split.
    + eapply sublist_NoDup; [exact Hd|]. apply sublist_skip, sublist_app; [done|]. by apply sublist_cons.
    + apply (chain_remove objs objs' n a b); try done; [| |set_solver]; unfold linked.
      * intros u v [Huv Hvu] ??. rewrite N, P, !decide_False by congruence. done.
      * rewrite N, P, decide_False, decide_True, decide_False, decide_True by done. done.
    + intros x Hx Hs. rewrite N, P. destruct (decide (x = n)) as [->|Hxn]; [done|].
      rewrite !decide_False by set_solver. apply Ha; [set_solver|]. by apply (becomes_in _ _ _ _ _ Hbec).
  - rewrite filter_others by done.
    assert (nx objs n = Some n ∧ pv objs n = Some n) as [En Ep].
    { apply Hl; [set_solver|]. unfold nx in Hnn. by destruct (objs !! n). }
    assert (a = n ∧ b = n) as [-> ->] by (split; congruence).
    eapply is_list_ext; [| | |exact Hl]; intros x; [rewrite N|rewrite P|by apply (becomes_in _ _ _ _ _ Hbec)];
      destruct (decide (x = n)) as [->|]; done.
Qed.
End Represent.

(** ** Refinement

    The abstract state: the order of the linked nodes and the value of every node. *)
Record seq_state (T : Type) := mkSeq { order : list loc; value_of : gmap loc T }.
Arguments mkSeq {T}. Arguments order {T}. Arguments value_of {T}.

Inductive list_call (T : Type) :=
  | CallNew (n : loc) (v : T)
  | CallPushFront (n : loc)
  | CallPushBack (n : loc)
  | CallInsertBefore (this n : loc)
  | CallInsertAfter (this n : loc)
  | CallUnlink (n : loc)
  | CallSetData (n : loc) (v : T)
  | CallIsLinked (n : loc)
  | CallEmpty
  | CallForward
  | CallBackward.
Arguments CallNew {T}. Arguments CallPushFront {T}. Arguments CallPushBack {T}.
Arguments CallInsertBefore {T}. Arguments CallInsertAfter {T}. Arguments CallUnlink {T}.
Arguments CallSetData {T}. Arguments CallIsLinked {T}. Arguments CallEmpty {T}.
Arguments CallForward {T}. Arguments CallBackward {T}.

Inductive list_answer (T : Type) := NoAnswer | IsTrue (b : bool) | Values (vs : list T).
Arguments NoAnswer {T}. Arguments IsTrue {T}. Arguments Values {T}.

Section Calls.
Context {LP : LockPolicy} {T : Type}.

(** The call on the list of nodes. *)
Definition list_do (fuel : nat) (c : list_call T) : M (DoublyLinkedList T) (list_answer T) :=
  match c with
  | CallNew n v => new_node n v ;; mret NoAnswer
  | CallPushFront n => push_front n ;; mret NoAnswer
  | CallPushBack n => push_back n ;; mret NoAnswer
  | CallInsertBefore this n => insert_before this n ;; mret NoAnswer
  | CallInsertAfter this n => insert_after this n ;; mret NoAnswer
  | CallUnlink n => unlink n ;; mret NoAnswer
  | CallSetData n v => set_data n v ;; mret NoAnswer
  | CallIsLinked n => b ← is_linked n; mret (IsTrue b)
  | CallEmpty => b ← empty; mret (IsTrue b)
  | CallForward => vs ← contents fuel; mret (Values vs)
  | CallBackward => vs ← contents_back fuel; mret (Values vs)
  end.

(** [n] next to [this]. *)
Fixpoint put_before (this n : loc) (xs : list loc) : list loc :=
  match xs with
  | [] => []
  | x :: xs' => if decide (x = this) then n :: x :: xs' else x :: put_before this n xs'
  end.

Fixpoint put_after (this n : loc) (xs : list loc) : list loc :=
  match xs with
  | [] => []
  | x :: xs' => if decide (x = this) then x :: n :: xs' else x :: put_after this n xs'
  end.

Definition values_in (q : seq_state T) (xs : list loc) : list T := omap (value_of q !!.) xs.

(** The call on the abstract state. *)
Definition seq_do (c : list_call T) (q : seq_state T) : list_answer T * seq_state T :=
  match c with
  | CallNew n v => (NoAnswer, mkSeq (order q) (<[n := v]> (value_of q)))
  | CallPushFront n => (NoAnswer, mkSeq (n :: order q) (value_of q))
  | CallPushBack n => (NoAnswer, mkSeq (order q ++ [n]) (value_of q))
  | CallInsertBefore this n => (NoAnswer, mkSeq (put_before this n (order q)) (value_of q))
  | CallInsertAfter this n => (NoAnswer, mkSeq (put_after this n (order q)) (value_of q))
  | CallUnlink n => (NoAnswer, mkSeq (filter (.≠ n) (order q)) (value_of q))
  | CallSetData n v => (NoAnswer, mkSeq (order q) (<[n := v]> (value_of q)))
  | CallIsLinked n => (IsTrue (bool_decide (n ∈ order q)), q)
  | CallEmpty => (IsTrue (bool_decide (order q = [])), q)
  | CallForward => (Values (values_in q (order q)), q)
  | CallBackward => (Values (values_in q (reverse (order q))), q)
  end.

(** What a caller has to see to: new nodes are new, a node is put in only when it is out,
    and next to one that is in; [h] is the sentinel. *)
Definition call_legal (h : loc) (c : list_call T) (q : seq_state T) : Prop :=
  match c with
  | CallNew n _ => n ≠ h ∧ value_of q !! n = None
  | CallPushFront n | CallPushBack n => is_Some (value_of q !! n) ∧ n ∉ order q
  | CallInsertBefore this n | CallInsertAfter this n =>
      this ∈ order q ∧ is_Some (value_of q !! n) ∧ n ∉ order q
  | CallUnlink n | CallSetData n _ | CallIsLinked n => is_Some (value_of q !! n)
  | CallEmpty | CallForward | CallBackward => True
  end.

(** The list object holds the abstract state. *)
Record seq_rep (s : DoublyLinkedList T) (q : seq_state T) : Prop := {
  sr_free : list_mutex_ s = [];
  sr_list : is_list (node_objs s) (head_ s) (order q);
  sr_value : ∀ x, x ≠ head_ s → datum (node_objs s) x = value_of q !! x;
  sr_head : value_of q !! head_ s = None;
}.
End Calls.

Section Refinement.
Context {LP : LockPolicy} {T : Type}.
Implicit Types (objs : gmap loc (ListNode T)) (xs ys : list loc) (h n : loc) (q : seq_state T).

Lemma end_run h objs : end_ (mkList h [] objs) = Done h (mkList h [] objs).
Proof. unfold end_. by rewrite guarded_free. Qed.

Lemma begin_run h objs b : nx objs h = Some b → begin (mkList h [] objs) = Done b (mkList h [] objs).
Proof.
  intros Hb. unfold begin. rewrite guarded_free by done. cbn. rewrite bind_get. cbn.
  unfold nx in Hb. destruct (objs !! h) as [n|] eqn:Hn; [|done]. injection Hb as <-.
  by rewrite (bind_Done _ _ _ _ _ (node_at_Done h [Sh] objs h n Hn)).
Qed.

(** Iterating forwards sees the values in order, backwards in the opposite order. *)
Lemma iterate_run h objs ys : ∀ a it fuel,
  chain objs a ys h → nx objs a = Some it → h ∉ ys → (length ys < fuel)%nat →
  iterate fuel it (mkList h [] objs) = Done (omap (datum objs) ys) (mkList h [] objs).
Proof.
  induction ys as [|y ys IH]; intros a it [|fuel] Hc Ha Hh Hf; cbn in Hf; try lia; cbn [iterate];
    rewrite (bind_Done _ _ _ _ _ (end_run h objs)); cbn in Hc.
  - destruct Hc as [Hc _]. unfold iter_ne, iter_eq. rewrite bool_decide_eq_true_2 by congruence. done.
  - destruct Hc as [[Hy _] Hc]. assert (it = y) as -> by congruence.
    apply not_elem_of_cons in Hh as [Hyh Hh]. unfold iter_ne, iter_eq. rewrite bool_decide_eq_false_2 by congruence. cbn [negb].
    destruct (chain_in _ _ _ _ y Hc) as [nd Hnd]; [by apply elem_of_cons; left|].
    unfold iter_deref, iter_next. rewrite bind_assoc, (bind_Done _ _ _ _ _ (node_at_Done h [] objs y nd Hnd)), bind_ret.
    rewrite bind_assoc, (bind_Done _ _ _ _ _ (node_at_Done h [] objs y nd Hnd)), bind_ret.
    erewrite bind_Done; [|apply (IH y (next_ nd)); try done; [|lia]].
    + cbn [omap list_omap]. unfold datum. rewrite Hnd. done.
    + unfold nx. by rewrite Hnd.
Qed.

Lemma iterate_back_run h objs b ys : ∀ it fuel,
  chain objs h ys it → nx objs h = Some b → NoDup (ys ++ [it]) → (length ys < fuel)%nat →
  iterate_back fuel it (mkList h [] objs) = Done (omap (datum objs) (reverse ys)) (mkList h [] objs).
Proof.
  induction ys as [|y ys IH] using rev_ind; intros it [|fuel] Hc Hb Hd Hf; try lia; cbn [iterate_back];
    rewrite (bind_Done _ _ _ _ _ (begin_run h objs b Hb)).
  - destruct Hc as [Hc _]. unfold iter_ne, iter_eq. rewrite bool_decide_eq_true_2 by congruence. done.
  - rewrite length_app in Hf. cbn in Hf. apply chain_app in Hc as [Hc [Hyn Hyp]].
    apply NoDup_app in Hd as (Hd & Hit & _).
    assert (it ≠ b).
    { intros ->. destruct (chain_first _ _ _ _ Hc) as (b' & [Hb' _] & Hin).
      apply (Hit b); [|set_solver]. congruence. }
    unfold iter_ne, iter_eq. rewrite bool_decide_eq_false_2 by done. cbn [negb].
    unfold pv in Hyp. destruct (objs !! it) as [ni|] eqn:Hni; [|done]. injection Hyp as Hyp.
    destruct (chain_in _ _ _ _ y Hc) as [nd Hnd]; [set_solver|].
    unfold iter_deref, iter_prev. rewrite bind_assoc, (bind_Done _ _ _ _ _ (node_at_Done h [] objs it ni Hni)), bind_ret.
    rewrite Hyp, bind_assoc, (bind_Done _ _ _ _ _ (node_at_Done h [] objs y nd Hnd)), bind_ret.
    erewrite bind_Done; [|apply (IH y fuel); try done; lia].
    rewrite reverse_app. cbn. unfold datum. by rewrite Hnd.
Qed.

(** The post-increment and -decrement loops are the others, wherever they start. *)
Lemma iterate_post_same fuel : ∀ it (s : DoublyLinkedList T), iterate_post fuel it s = iterate fuel it s.
Proof.
  induction fuel as [|fuel IH]; intros it s; [done|]. cbn [iterate_post iterate]. unfold mbind, M_bind at 1 5.
  destruct (end_ s) as [e s1| | | | |]; [|done..]. destruct (iter_ne it e); [|done].
  unfold iter_next_post, iter_deref, iter_next, node_at. munfold. destruct (node_objs s1 !! it) as [n|] eqn:Hn; [|done]. rewrite Hn.
  by rewrite IH.
Qed.

Lemma iterate_back_post_same fuel : ∀ it (s : DoublyLinkedList T), iterate_back_post fuel it s = iterate_back fuel it s.
Proof.
  induction fuel as [|fuel IH]; intros it s; [done|]. cbn [iterate_back_post iterate_back]. unfold mbind, M_bind at 1 5.
  destruct (begin s) as [e s1| | | | |]; [|done..]. destruct (iter_ne it e); [|done].
  unfold iter_prev_post, iter_deref, iter_prev, node_at. munfold. destruct (node_objs s1 !! it) as [n|]; [|done].
  destruct (node_objs s1 !! prev_ n); [|done]. by rewrite IH.
Qed.

(** Facts of a represented state. *)
Lemma rep_node h objs q n :
  seq_rep (mkList h [] objs) q → is_Some (value_of q !! n) → n ≠ h ∧ is_Some (objs !! n).
Proof.
  intros [_ _ Hv Hh] Hn. cbn in *. assert (n ≠ h) as Hne by (intros ->; rewrite Hh in Hn; by destruct Hn).
  split; [done|]. rewrite <- Hv in Hn by done. unfold datum in Hn. by apply fmap_is_Some in Hn.
Qed.

Lemma rep_becomes h objs objs' q fn fp xs :
  seq_rep (mkList h [] objs) q → becomes objs objs' fn fp → is_list objs' h xs →
  seq_rep (mkList h [] objs') (mkSeq xs (value_of q)).
Proof.
  intros [Hf Hl Hv Hh] (_ & _ & Hd) Hl'. split; cbn in *; try done. intros x Hx. rewrite Hd. auto.
Qed.

Lemma omap_datum h objs q xs :
  seq_rep (mkList h [] objs) q → h ∉ xs → omap (datum objs) xs = values_in q xs.
Proof.
  intros [_ _ Hv _] Hx. cbn in Hv. unfold values_in. induction xs as [|x xs IH]; [done|].
  apply not_elem_of_cons in Hx as [??]. cbn [omap list_omap]. rewrite Hv, IH by done. done.
Qed.

Lemma put_after_split this n l1 l2 : this ∉ l1 → put_after this n (l1 ++ this :: l2) = l1 ++ this :: n :: l2.
Proof.
  induction l1 as [|x l1 IH]; intros Hn; cbn; [by rewrite decide_True|].
  apply not_elem_of_cons in Hn as [??]. rewrite decide_False by done. by rewrite IH.
Qed.

Lemma put_before_split this n l1 l2 : this ∉ l1 → put_before this n (l1 ++ this :: l2) = l1 ++ n :: this :: l2.
Proof.
  induction l1 as [|x l1 IH]; intros Hn; cbn; [by rewrite decide_True|].
  apply not_elem_of_cons in Hn as [??]. rewrite decide_False by done. by rewrite IH.
Qed.
Lemma guarded_un_run (body : M (DoublyLinkedList T) unit) h objs objs' :
  body (mkList h [Un] objs) = Done tt (mkList h [Un] objs') →
  guarded Un body (mkList h [] objs) = Done tt (mkList h [] objs').
Proof. intros Hb. rewrite guarded_free by done. cbn. by rewrite Hb. Qed.

(** A node that is there and out of the list can be put in at either end or next to a node. *)
Lemma push_front_run h objs xs n :
  is_list objs h xs → is_Some (objs !! n) → n ∉ h :: xs →
  ∃ objs' fn fp, push_front n (mkList h [] objs) = Done tt (mkList h [] objs') ∧
    becomes objs objs' fn fp ∧ is_list objs' h (n :: xs).
Proof.
  intros Hl Hn Hout. destruct (is_list_first _ _ _ Hl) as (b & Hhb & Hb & Hsb).
  assert (n ≠ h) by (intros ->; set_solver).
  destruct (insert_after_spec h [Un] objs h n b) as (objs' & Hrun & Hbec); [done|done|apply Hhb|done|].
  exists objs'. do 2 eexists. split; [by apply guarded_un_run|]. split; [exact Hbec|].
  by eapply is_list_push_front.
Qed.

Lemma push_back_run h objs xs n :
  is_list objs h xs → is_Some (objs !! n) → n ∉ h :: xs →
  ∃ objs' fn fp, push_back n (mkList h [] objs) = Done tt (mkList h [] objs') ∧
    becomes objs objs' fn fp ∧ is_list objs' h (xs ++ [n]).
Proof.
  intros Hl Hn Hout. destruct (is_list_last _ _ _ Hl) as (a & Hah & Ha & Hsa).
  assert (n ≠ h) by (intros ->; set_solver).
  destruct (insert_before_spec h [Un] objs h n a) as (objs' & Hrun & Hbec); [done|done|apply Hah|done|].
  exists objs'. do 2 eexists. split; [by apply guarded_un_run|]. split; [exact Hbec|].
  by eapply is_list_push_back.
Qed.

Lemma insert_after_run h objs this n l1 l2 :
  is_list objs h (l1 ++ this :: l2) → is_Some (objs !! n) → n ∉ h :: l1 ++ this :: l2 →
  ∃ objs' fn fp, insert_after this n (mkList h [] objs) = Done tt (mkList h [] objs') ∧
    becomes objs objs' fn fp ∧ is_list objs' h (l1 ++ this :: n :: l2).
Proof.
  intros Hl Hn Hout. pose proof Hl as [_ Hc _]. apply chain_app in Hc as [_ Hc].
  destruct (chain_first _ _ _ _ Hc) as (b & Htb & Hb).
  assert (n ≠ this) by (intros ->; set_solver).
  destruct (insert_after_spec h [] objs this n b) as (objs' & Hrun & Hbec); [done| |apply Htb|done|].
  { eapply chain_in; [exact Hc|]. by apply elem_of_cons; right. }
  exists objs'. do 2 eexists. split; [done|]. split; [exact Hbec|]. by eapply is_list_insert_after.
Qed.

Lemma insert_before_run h objs this n l1 l2 :
  is_list objs h (l1 ++ this :: l2) → is_Some (objs !! n) → n ∉ h :: l1 ++ this :: l2 →
  ∃ objs' fn fp, insert_before this n (mkList h [] objs) = Done tt (mkList h [] objs') ∧
    becomes objs objs' fn fp ∧ is_list objs' h (l1 ++ n :: this :: l2).
Proof.
  intros Hl Hn Hout. pose proof Hl as [_ Hc _]. apply chain_app in Hc as [Hc _].
  destruct (chain_last _ _ _ _ Hc) as (a & Hta & Ha & Hat).
  assert (n ≠ this) by (intros ->; set_solver).
  destruct (insert_before_spec h [] objs this n a) as (objs' & Hrun & Hbec); [done| |done|done|].
  { eapply chain_in; [exact Hc|]. by apply (elem_of_app (h :: l1)); left. }
  exists objs'. do 2 eexists. split; [done|]. split; [exact Hbec|]. by eapply is_list_insert_before.
Qed.

(** Every node that is there can be taken out, in the list or not. *)
Lemma unlink_run h objs xs n :
  is_list objs h xs → is_Some (objs !! n) → n ≠ h →
  ∃ objs' fn fp, unlink n (mkList h [] objs) = Done tt (mkList h [] objs') ∧
    becomes objs objs' fn fp ∧ is_list objs' h (filter (.≠ n) xs).
Proof.
  intros Hl Hn Hnh. destruct (in_nx objs n Hn) as (nd & Hnd & Hnx & Hpv).
  assert (is_Some (objs !! prev_ nd) ∧ is_Some (objs !! next_ nd)) as [Ha Hb].
  { destruct (decide (n ∈ xs)) as [Hin|Hout].
    - pose proof Hl as [_ Hc _]. apply list_elem_of_split in Hin as (l1 & l2 & ->).
      apply chain_app in Hc as [Hc1 Hc2].
      destruct (chain_last _ _ _ _ Hc1) as (a & Hpa & Hain & _).
      destruct (chain_first _ _ _ _ Hc2) as (b & [Hnb _] & Hbin).
      rewrite Hpv in Hpa. injection Hpa as ->. rewrite Hnx in Hnb. injection Hnb as ->. split.
      + eapply chain_in; [exact Hc1|]. by apply (elem_of_app (h :: l1)); left.
      + eapply chain_in; [exact Hc2|]. by apply elem_of_cons; right.
    - destruct (il_alone _ _ _ Hl n) as [En Ep]; [set_solver|done|].
      rewrite Hnx in En. rewrite Hpv in Ep. injection En as ->. injection Ep as ->. done. }
  destruct (unlink_spec h [] objs n (prev_ nd) (next_ nd)) as (objs' & Hrun & Hbec); try done.
  exists objs'. do 2 eexists. split; [done|]. split; [exact Hbec|]. by eapply is_list_unlink.
Qed.
(** [is_linked] of any object that is there. *)
Lemma is_linked_node h m objs xs n :
  is_list objs h xs → is_Some (objs !! n) → n ≠ h →
  is_linked n (mkList h m objs) = Done (bool_decide (n ∈ xs)) (mkList h m objs).
Proof.
  intros Hl Hn Hnh. destruct (in_nx objs n Hn) as (nd & Hnd & Hnx & _). unfold is_linked.
  rewrite (bind_Done _ _ _ _ _ (node_at_Done h m objs n nd Hnd)).
  unfold mret, M_ret. f_equal. apply bool_decide_ext.
  destruct (decide (n ∈ xs)) as [Hin|Hout]; [split; [done|]|split; [|done]].
  - intros _. destruct Hl as [Hd Hc _]. apply list_elem_of_split in Hin as (l1 & l2 & ->).
    apply chain_app in Hc as [_ Hc]. destruct (chain_first _ _ _ _ Hc) as (b & [Hb _] & Hin).
    assert (b ≠ n) as Hbn; [|congruence]. clear -Hd Hin.
    apply (NoDup_app (h :: l1) (n :: l2)) in Hd as (_ & Hd1 & Hd2). apply NoDup_cons in Hd2. set_solver.
  - intros Hx. destruct (il_alone _ _ _ Hl n) as [En _]; [set_solver|done|]. congruence.
Qed.

Lemma is_linked_head h m objs xs :
  is_list objs h xs → is_linked h (mkList h m objs) = Done (bool_decide (xs ≠ [])) (mkList h m objs).
Proof.
  intros Hl. destruct (is_list_first _ _ _ Hl) as (b & [Hb _] & _).
  unfold is_linked. unfold nx in Hb. destruct (objs !! h) as [nd|] eqn:Hnd; [|done]. injection Hb as Hb.
  rewrite (bind_Done _ _ _ _ _ (node_at_Done h m objs h nd Hnd)).
  unfold mret, M_ret. f_equal. apply bool_decide_ext. pose proof Hl as [Hd Hc _].
  assert (nx objs h = Some b) as Hb' by (unfold nx; rewrite Hnd; cbn; congruence).
  destruct xs as [|x xs]; cbn in Hc.
  - destruct Hc as [Hc _]. split; congruence.
  - split; [done|]. intros _. apply NoDup_cons in Hd as [Hd _]. destruct Hc as [[Hx _] _]. set_solver.
Qed.

(** Writes that leave the links alone. *)
Lemma set_data_run h objs q n v :
  seq_rep (mkList h [] objs) q → is_Some (value_of q !! n) →
  ∃ objs', set_data n v (mkList h [] objs) = Done tt (mkList h [] objs') ∧
    seq_rep (mkList h [] objs') (mkSeq (order q) (<[n := v]> (value_of q))).
Proof.
  intros Hr Hn. destruct (rep_node _ _ _ _ Hr Hn) as [Hnh [nd Hnd]].
  unfold set_data. rewrite (bind_Done _ _ _ _ _ (node_at_Done h [] objs n nd Hnd)).
  eexists. split; [reflexivity|]. destruct Hr as [Hf Hl Hv Hh]. cbn in *. split; cbn; [done| | |].
  - apply (is_list_ext objs); [| | |done]; intros x; unfold nx, pv; destruct (decide (x = n)) as [->|];
      rewrite ?lookup_insert_eq, ?lookup_insert_ne, ?Hnd by done; done.
  - intros x Hx. unfold datum. destruct (decide (x = n)) as [->|].
    + by rewrite !lookup_insert_eq.
    + rewrite !lookup_insert_ne by done. by apply Hv.
  - by rewrite lookup_insert_ne.
Qed.

Lemma new_node_run h objs q n v :
  seq_rep (mkList h [] objs) q → n ≠ h → value_of q !! n = None →
  ∃ objs', new_node n v (mkList h [] objs) = Done tt (mkList h [] objs') ∧
    seq_rep (mkList h [] objs') (mkSeq (order q) (<[n := v]> (value_of q))).
Proof.
  intros [Hf Hl Hv Hh] Hnh Hn. cbn in *.
  assert (objs !! n = None) as Hnone.
  { specialize (Hv n Hnh). unfold datum in Hv. rewrite Hn in Hv. by apply fmap_None in Hv. }
  exists (<[n := mkListNode n n v]> objs). split.
  { unfold new_node, link_self, set_prev, set_next, node_at, write_node. munfold. cbn.
    rewrite !lookup_insert_eq. cbn. rewrite !lookup_insert_eq. cbn. by rewrite !insert_insert_eq. }
  split; cbn; [done| | |].
  - destruct Hl as [Hd Hc Ha].
    assert (∀ x, x ∈ h :: order q ++ [h] → x ≠ n) as Hex.
    { intros x Hx ->. destruct (chain_in _ _ _ _ n Hc Hx) as [? ?]. congruence. }
    split; [done| |].
    + apply (chain_mono objs _ (λ x, x ≠ n) (λ x, x ≠ n)); [|done| |];
        [|apply Forall_forall; intros x Hx; apply Hex; set_solver..].
      unfold linked, nx, pv. intros u w Hl ??. by rewrite !lookup_insert_ne.
    + intros a Hna Hs. unfold nx, pv. destruct (decide (a = n)) as [->|]; [by rewrite lookup_insert_eq|].
      rewrite lookup_insert_ne in Hs |- * by done. by apply Ha.
  - intros x Hx. unfold datum. destruct (decide (x = n)) as [->|].
    + by rewrite !lookup_insert_eq.
    + rewrite !lookup_insert_ne by done. by apply Hv.
  - by rewrite lookup_insert_ne.
Qed.

Lemma contents_run h objs q fuel :
  seq_rep (mkList h [] objs) q → (length (order q) < fuel)%nat →
  contents fuel (mkList h [] objs) = Done (values_in q (order q)) (mkList h [] objs).
Proof.
  intros Hr Hf. pose proof Hr as [_ Hl _ _]. cbn in Hl.
  destruct (is_list_first _ _ _ Hl) as (b & [Hb _] & _). destruct Hl as [Hd Hc _].
  apply NoDup_cons in Hd as [Hh _].
  unfold contents. rewrite (bind_Done _ _ _ _ _ (begin_run h objs b Hb)).
  by rewrite (iterate_run h objs (order q) h b), (omap_datum h objs q).
Qed.

Lemma contents_back_run h objs q fuel :
  seq_rep (mkList h [] objs) q → (length (order q) < fuel)%nat →
  contents_back fuel (mkList h [] objs) = Done (values_in q (reverse (order q))) (mkList h [] objs).
Proof.
  intros Hr Hf. pose proof Hr as [_ Hl _ _]. cbn in Hl.
  destruct (is_list_first _ _ _ Hl) as (b & [Hb _] & _). destruct Hl as [Hd Hc _].
  assert (NoDup (order q ++ [h])) as Hd'.
  { apply (NoDup_middle _ []); rewrite app_nil_r; by apply NoDup_cons in Hd as [??]. }
  apply NoDup_cons in Hd as [Hh _].
  unfold contents_back. rewrite (bind_Done _ _ _ _ _ (end_run h objs)).
  rewrite (iterate_back_run h objs b (order q)), (omap_datum h objs q); try done. by rewrite elem_of_reverse.
Qed.
(** One call does to the list what the specification says. *)
Lemma list_step c s q fuel :
  seq_rep s q → call_legal (head_ s) c q → (length (order q) < fuel)%nat →
  ∃ s', list_do fuel c s = Done (seq_do c q).1 s' ∧ seq_rep s' (seq_do c q).2 ∧ head_ s' = head_ s.
Proof.
  intros Hr Hlegal Hf. destruct s as [h m objs].
  pose proof Hr as [Hfree Hl _ _]. cbn in Hfree, Hl, Hlegal. subst m.
  assert (∀ n, is_Some (value_of q !! n) → n ∉ order q → is_Some (objs !! n) ∧ n ∉ h :: order q) as Hput.
  { intros n Hn Hout. destruct (rep_node _ _ _ _ Hr Hn). split; [done|]. by apply not_elem_of_cons. }
  assert (∀ (body : M (DoublyLinkedList T) unit) xs,
    (∃ objs' fn fp, body (mkList h [] objs) = Done tt (mkList h [] objs') ∧
      becomes objs objs' fn fp ∧ is_list objs' h xs) →
    ∃ s', (body ;; mret NoAnswer) (mkList h [] objs) = Done (NoAnswer : list_answer T) s' ∧
      seq_rep s' (mkSeq xs (value_of q)) ∧ head_ s' = h) as Hlink.
  { intros body xs (objs' & fn & fp & Hrun & Hbec & Hl'). exists (mkList h [] objs').
    rewrite (bind_Done _ _ _ _ _ Hrun). split_and!; [done| |done]. by eapply rep_becomes. }
  destruct c as [n v|n|n|this n|this n|n|n v|n| | |]; cbn [list_do seq_do fst snd head_].
  - destruct Hlegal as [??]. destruct (new_node_run h objs q n v) as (objs' & Hrun & Hr'); try done.
    exists (mkList h [] objs'). by rewrite (bind_Done _ _ _ _ _ Hrun).
  - destruct Hlegal as [Hn [Hs Hout]%Hput]; [|done]. apply Hlink. by apply push_front_run.
  - destruct Hlegal as [Hn [Hs Hout]%Hput]; [|done]. apply Hlink. by apply push_back_run.
  - destruct Hlegal as (Hin & Hn & [Hs Hout]%Hput); [|done]. apply Hlink.
    apply list_elem_of_split_l in Hin as (l1 & l2 & Hord & Hl1).
    rewrite Hord, put_before_split in *; [|done..]. by apply insert_before_run.
  - destruct Hlegal as (Hin & Hn & [Hs Hout]%Hput); [|done]. apply Hlink.
    apply list_elem_of_split_l in Hin as (l1 & l2 & Hord & Hl1).
    rewrite Hord, put_after_split in *; [|done..]. by apply insert_after_run.
  - destruct (rep_node _ _ _ _ Hr Hlegal). apply Hlink. by apply unlink_run.
  - destruct (set_data_run h objs q n v) as (objs' & Hrun & Hr'); try done.
    exists (mkList h [] objs'). by rewrite (bind_Done _ _ _ _ _ Hrun).
  - destruct (rep_node _ _ _ _ Hr Hlegal).
    exists (mkList h [] objs). by rewrite (bind_Done _ _ _ _ _ (is_linked_node h [] objs (order q) n Hl ltac:(done) ltac:(done))).
  - exists (mkList h [] objs). split; [|done]. unfold empty.
    assert (guarded Sh (s ← get; b ← is_linked (head_ s); mret (negb b)) (mkList h [] objs)
      = Done (bool_decide (order q = [])) (mkList h [] objs)) as Hrun; [|by rewrite (bind_Done _ _ _ _ _ Hrun)].
    rewrite guarded_free by done. cbn. rewrite bind_get. cbn.
    rewrite (bind_Done _ _ _ _ _ (is_linked_head h [Sh] objs (order q) Hl)). cbn.
    by destruct (order q).
  - exists (mkList h [] objs). by rewrite (bind_Done _ _ _ _ _ (contents_run h objs q fuel Hr Hf)).
  - exists (mkList h [] objs). by rewrite (bind_Done _ _ _ _ _ (contents_back_run h objs q fuel Hr Hf)).
Qed.

(** Sequences of calls. *)
Fixpoint list_run (fuel : nat) (cs : list (list_call T)) : M (DoublyLinkedList T) (list (list_answer T)) :=
  match cs with
  | [] => mret []
  | c :: cs' => a ← list_do fuel c; as_ ← list_run fuel cs'; mret (a :: as_)
  end.

Fixpoint seq_run (cs : list (list_call T)) (q : seq_state T) : list (list_answer T) * seq_state T :=
  match cs with
  | [] => ([], q)
  | c :: cs' =>
      let (a, q1) := seq_do c q in
      let (as_, q2) := seq_run cs' q1 in
      (a :: as_, q2)
  end.

Fixpoint all_legal (h : loc) (cs : list (list_call T)) (q : seq_state T) : Prop :=
  match cs with
  | [] => True
  | c :: cs' => call_legal h c q ∧ all_legal h cs' (seq_do c q).2
  end.

Lemma put_length this n xs :
  (length (put_before this n xs) ≤ S (length xs))%nat ∧ (length (put_after this n xs) ≤ S (length xs))%nat.
Proof. induction xs as [|x xs IH]; cbn; [lia|]. case_decide; cbn; lia. Qed.

Lemma seq_do_length c q : (length (order (seq_do c q).2) ≤ S (length (order q)))%nat.
Proof.
  destruct c as [n v|n|n|this n|this n|n|n v|n| | |]; cbn; rewrite ?length_app; cbn; try lia.
  - apply put_length.
  - apply put_length.
  - transitivity (length (order q)); [|lia]. apply sublist_length, sublist_filter.
Qed.

(** The empty list is represented. *)
Lemma list_rep_new h (v : T) : seq_rep (list_new h v ∅) (mkSeq [] ∅).
Proof.
  split; cbn; [done| | |done].
  - split; [by apply NoDup_singleton| |].
    + cbn. unfold linked, nx, pv. by rewrite !lookup_insert_eq.
    + intros a Ha Hs. rewrite lookup_insert_ne in Hs by set_solver. rewrite lookup_empty in Hs. by destruct Hs.
  - intros x Hx. unfold datum. by rewrite lookup_insert_ne, !lookup_empty.
Qed.

(** C21: every sequence of legal calls on the list - new nodes, insertion at the ends and
    next to a node, taking nodes out (in the list or not), iteration both ways - answers
    as the same calls on a sequence of nodes with their values, and leaves the list
    object representing the result; every iteration ends. *)
Theorem dlist_refines_sequence fuel cs s q :
  seq_rep s q → all_legal (head_ s) cs q → (length (order q) + length cs < fuel)%nat →
  ∃ s', list_run fuel cs s = Done (seq_run cs q).1 s' ∧ seq_rep s' (seq_run cs q).2.
Proof.
  revert s q. induction cs as [|c cs IH]; intros s q Hr Hl Hf; cbn in *; [by exists s|].
  destruct Hl as [Hc Hl]. destruct (list_step c s q fuel Hr Hc) as (s1 & Hrun & Hr1 & Hh); [lia|].
  pose proof (seq_do_length c q) as Hlen.
  rewrite <- Hh in Hl. destruct (IH s1 (seq_do c q).2 Hr1 Hl) as (s2 & Hrun2 & Hr2); [lia|].
  exists s2. rewrite (bind_Done _ _ _ _ _ Hrun), (bind_Done _ _ _ _ _ Hrun2).
  destruct (seq_do c q) as [a q1]. cbn in *. by destruct (seq_run cs q1).
Qed.

(** What the contract keeps out: a node pushed to the front twice is its own successor,
    and no iteration ends. *)
Lemma iterate_self_loop h m objs n :
  (m = [] ∨ relock_allowed = true) → n ≠ h → nx objs n = Some n →
  ∀ fuel, iterate fuel n (mkList h m objs) = NoFuel.
Proof.
  intros Hm Hnh Hn fuel. unfold nx in Hn. destruct (objs !! n) as [nd|] eqn:Hnd; [|done]. injection Hn as Hn.
  assert (end_ (mkList h m objs) = Done h (mkList h m objs)) as Hend.
  { unfold end_. rewrite guarded_shared; [done|]. destruct Hm as [->|]; [right; set_solver|by left]. }
  induction fuel as [|fuel IH]; [done|]. cbn. rewrite (bind_Done _ _ _ _ _ Hend). unfold iter_ne, iter_eq.
  rewrite bool_decide_eq_false_2 by done. cbn [negb]. unfold iter_deref, iter_next.
  rewrite bind_assoc, (bind_Done _ _ _ _ _ (node_at_Done h m objs n nd Hnd)), bind_ret.
  rewrite bind_assoc, (bind_Done _ _ _ _ _ (node_at_Done h m objs n nd Hnd)), bind_ret, Hn.
  unfold mbind, M_bind. by rewrite IH.
Qed.

Lemma push_front_twice h objs q n fuel :
  seq_rep (mkList h [] objs) q → is_Some (value_of q !! n) → n ∉ order q →
  ∃ s', (push_front n ;; push_front n) (mkList h [] objs) = Done tt s' ∧ contents fuel s' = NoFuel.
Proof.
  intros Hr Hn Hout. destruct (rep_node _ _ _ _ Hr Hn) as [Hnh Hs]. pose proof Hr as [_ Hl _ _]. cbn in Hl.
  destruct (push_front_run h objs (order q) n Hl Hs) as (o1 & fn & fp & H1 & B1 & L1); [by apply not_elem_of_cons|].
  destruct L1 as [_ [[Hhn _] _] _].
  assert (is_Some (o1 !! n)) as Hs1 by by apply (becomes_in _ _ _ _ n B1).
  destruct (insert_after_spec h [Un] o1 h n n Hs1 Hs1 Hhn Hnh) as (o2 & H2 & N2 & _ & _).
  exists (mkList h [] o2). split.
  { rewrite (bind_Done _ _ _ _ _ H1). by apply guarded_un_run. }
  unfold contents. erewrite bind_Done; [|apply begin_run; by rewrite N2, decide_True].
  apply iterate_self_loop; [by left|done|]. by rewrite N2, decide_False, decide_True.
Qed.
End Refinement.

(** ** A list with two nodes, one taken out again *)
Section Witness.
#[local] Existing Instance std_shared_mutex.

Definition two_nodes : list (list_call Z) :=
  [CallNew 2%positive 20; CallNew 3%positive 30; CallPushFront 2%positive; CallInsertAfter 2%positive 3%positive;
   CallForward; CallBackward; CallUnlink 2%positive; CallForward; CallIsLinked 2%positive; CallEmpty].

Lemma dlist_refines_sequence_witness :
  ∃ s', list_run 11 two_nodes (list_new 1%positive 0 ∅) =
      Done [NoAnswer; NoAnswer; NoAnswer; NoAnswer; Values [20; 30]; Values [30; 20]; NoAnswer; Values [30];
            IsTrue false; IsTrue false] s' ∧
    seq_rep s' (seq_run two_nodes (mkSeq [] ∅)).2.
Proof.
  destruct (dlist_refines_sequence 11 two_nodes (list_new 1%positive 0 ∅) (mkSeq [] ∅)) as (s' & Hrun & Hr);
    [| | |exists s'; split; [rewrite Hrun; vm_compute; reflexivity|exact Hr]].
  - apply list_rep_new.
  - cbn. repeat split; try done; try set_solver; by eexists.
  - cbn. lia.
Defined.
End Witness.
