(* ===== verification/CountMin.v ===== *)
(** The count-min sketch of src/cache/CountMinSketch.cpp: four rows of 4-bit counters,
    eight of them packed into each [int].

    A computation that runs into undefined behaviour (signed overflow, an index out of
    range) is [None].  [CountMinRow::increment] declares [int value] over its parameter
    of the same name and is not accepted by a compiler; the model reads the second
    [value] as a variable of its own, as the rest of the body does. *)

From S2P Require Import Prelude.

(** ** The operations *)

(** [a + b] of [int]s; overflow is undefined. *)
Definition int_plus (a b : Z) : option Z :=
  if decide (- 2 ^ 31 ≤ a + b < 2 ^ 31) then Some (a + b) else None.

(** [v[i]] of a vector with an [int] index. *)
Definition at_index {A} (i : Z) (v : list A) : option A :=
  if decide (0 ≤ i) then v !! Z.to_nat i else None.

(** The row is its vector of words. *)
Abbreviation CountMinRow := (list Z).

Definition row_get (value : Z) (bits : CountMinRow) : option Z :=
  let countIndex := Z.quot value 8 in
  let countOffset := Z.rem value 8 * 4 in
  w ← at_index countIndex bits;
  Some (Z.land (Z.shiftr w countOffset) 7).

Definition row_increment (value : Z) (bits : CountMinRow) : option CountMinRow :=
  let countIndex := Z.quot value 8 in
  let countOffset := Z.rem value 8 * 4 in
  w ← at_index countIndex bits;
  let value' := Z.land (Z.shiftr w countOffset) 7 in
  if value' <? 15 then
    w' ← int_plus w (Z.shiftl 1 countOffset);
    Some (<[Z.to_nat countIndex := w']> bits)
  else Some bits.

Definition row_clear (bits : CountMinRow) : CountMinRow := (λ _, 0) <$> bits.

(** 0x77777777. *)
Definition decay_mask : Z := 2004318071.
Definition row_decay (bits : CountMinRow) : CountMinRow :=
  (λ it, Z.land (Z.shiftr it 1) decay_mask) <$> bits.

Definition row_new (countNum : Z) : CountMinRow :=
  replicate (Z.to_nat ((if countNum <? 8 then 8 else countNum) / 8)) 0.

Record CountMinSketch := mkSketch { rows_ : list CountMinRow; seed_ : list Z; mask_ : Z }.

Definition COUNT_MIN_SKETCH_DEPTH : nat := 4.

Section Sketch.
(** [x >> 32] on a 32-bit [int]: undefined; what the machine makes of it. *)
Context (shift_out : Z → Z).

Definition smear (k x : Z) : Z := Z.lor x (Z.shiftr x k).

Definition next2Power (x : Z) : option Z :=
  x ← int_plus x (-1);
  let x := smear 1 x in
  let x := smear 2 x in
  let x := smear 4 x in
  let x := smear 8 x in
  let x := smear 16 x in
  let x := Z.lor x (shift_out x) in
  int_plus x 1.

(** The constructor; [generator] gives the seeds (a Mersenne twister seeded by the clock). *)
Definition sketch_new (countNum : Z) (generator : nat → Z) : option CountMinSketch :=
  p ← next2Power (wraps 32 countNum);
  let countNum := wrapu 64 p in
  let countNum := if countNum <? 8 then 8 else countNum in
  Some (mkSketch (replicate 4 (row_new countNum))
                 ((λ i, wrapu 32 (generator i)) <$> seq 0 COUNT_MIN_SKETCH_DEPTH)
                 (wrapu 32 (countNum - 1))).
End Sketch.

(** The argument of [get] and [increment], an [int] made of [(hash ^ seed_[i]) & mask_]. *)
Definition slot (mask seed hash : Z) : Z := wraps 32 (Z.land (Z.lxor hash seed) mask).

Fixpoint min_over (mask hash : Z) (rows : list CountMinRow) (seeds : list Z) (min : Z) : option Z :=
  match rows, seeds with
  | [], _ => Some min
  | r :: rows', s :: seeds' =>
      value ← row_get (slot mask s hash) r;
      min_over mask hash rows' seeds' (if value <? min then value else min)
  | _ :: _, [] => None
  end.

Definition getCountMin (hash : Z) (sk : CountMinSketch) : option Z :=
  min_over (mask_ sk) hash (rows_ sk) (seed_ sk) 16.

Fixpoint increment_rows (mask hash : Z) (rows : list CountMinRow) (seeds : list Z) : option (list CountMinRow) :=
  match rows, seeds with
  | [], _ => Some []
  | r :: rows', s :: seeds' =>
      r' ← row_increment (slot mask s hash) r;
      rs ← increment_rows mask hash rows' seeds';
      Some (r' :: rs)
  | _ :: _, [] => None
  end.

Definition increment (hash : Z) (sk : CountMinSketch) : option CountMinSketch :=
  rs ← increment_rows (mask_ sk) hash (rows_ sk) (seed_ sk);
  Some (mkSketch rs (seed_ sk) (mask_ sk)).

Definition decay (sk : CountMinSketch) : CountMinSketch :=
  mkSketch (row_decay <$> rows_ sk) (seed_ sk) (mask_ sk).

Definition clear (sk : CountMinSketch) : CountMinSketch :=
  mkSketch (row_clear <$> rows_ sk) (seed_ sk) (mask_ sk).

(** ** Rounding up to a power of two *)

(** The [w] bits from the highest one down are set. *)
Definition smeared (L w x : Z) : Prop :=
  0 ≤ L ∧ (∀ i, L < i → Z.testbit x i = false) ∧ (∀ i, 0 ≤ i → L - w < i ≤ L → Z.testbit x i = true).

Lemma smear_doubles L w x : 0 < w → smeared L w x → smeared L (2 * w) (smear w x).
Proof.
  intros Hw (HL & Hhi & Hlo). unfold smear. split_and!; [done| |]; intros i.
  - intros Hi. rewrite Z.lor_spec, Z.shiftr_spec, !Hhi by lia. done.
  - intros Hi Hrange. rewrite Z.lor_spec, Z.shiftr_spec by done.
    destruct (Z.le_gt_cases i (L - w)).
    + rewrite (Hlo (i + w)) by lia. apply orb_true_r.
    + by rewrite Hlo by lia.
Qed.

Lemma smeared_ones L w x : 0 ≤ x → L < w → smeared L w x → x = 2 ^ (L + 1) - 1.
Proof.
  intros Hx Hw (HL & Hhi & Hlo).
  replace (2 ^ (L + 1) - 1) with (Z.ones (L + 1)) by (rewrite Z.ones_equiv; lia).
  apply Z.bits_inj'. intros i Hi. destruct (Z.le_gt_cases i L).
  - rewrite Hlo, Z.ones_spec_low by lia. done.
  - rewrite Hhi, Z.ones_spec_high by lia. done.
Qed.

Lemma smear_nonneg k x : 0 ≤ x → 0 ≤ smear k x.
Proof. intros. unfold smear. apply Z.lor_nonneg. split; [done|]. by apply Z.shiftr_nonneg. Qed.

Lemma smeared_log2 x : 0 < x → smeared (Z.log2 x) 1 x.
Proof.
  intros Hx. split_and!; [apply Z.log2_nonneg|intros i Hi; by apply Z.bits_above_log2; lia|].
  intros i Hi Hr. assert (i = Z.log2 x) as -> by lia. by apply Z.bit_log2.
Qed.

(** What a machine can make of the shift by the width: nothing, or a shift by nothing. *)
Definition shift_ok (shift_out : Z → Z) : Prop := ∀ x, shift_out x = x ∨ shift_out x = 0.

Lemma lor_shift_out shift_out x : shift_ok shift_out → Z.lor x (shift_out x) = x.
Proof. intros Hs. destruct (Hs x) as [-> | ->]; [apply Z.lor_diag|apply Z.lor_0_r]. Qed.

Lemma int_plus_Some a b : - 2 ^ 31 ≤ a + b < 2 ^ 31 → int_plus a b = Some (a + b).
Proof. intros. unfold int_plus. by rewrite decide_True. Qed.

Lemma next2Power_spec shift_out n :
  shift_ok shift_out → 1 ≤ n ≤ 2 ^ 30 → next2Power shift_out n = Some (2 ^ Z.log2_up n).
Proof.
  intros Hs Hn. unfold next2Power. rewrite int_plus_Some by lia. cbn [mbind option_bind].
  rewrite lor_shift_out by done. replace (n + -1) with (Z.pred n) by lia.
  destruct (decide (n = 1)) as [->|Hn1]; [done|].
  assert (0 < Z.pred n) as Hx by lia. pose proof (smeared_log2 _ Hx) as S1.
  do 5 (apply smear_doubles in S1; [|lia]).
  change (smeared (Z.log2 (Z.pred n)) 32 (smear 16 (smear 8 (smear 4 (smear 2 (smear 1 (Z.pred n))))))) in S1.
  assert (Z.log2 (Z.pred n) < 30) as HL by (apply Z.log2_lt_pow2; lia).
  apply smeared_ones in S1; [|do 5 apply smear_nonneg; lia|lia].
  rewrite S1. pose proof (Z.log2_nonneg (Z.pred n)).
  assert (2 ^ (Z.log2 (Z.pred n) + 1) ≤ 2 ^ 30) by (apply Z.pow_le_mono_r; lia).
  assert (0 < 2 ^ (Z.log2 (Z.pred n) + 1)) by (apply Z.pow_pos_nonneg; lia).
  rewrite int_plus_Some by lia. unfold Z.log2_up. destruct (Z.compare_spec 1 n); try lia.
  f_equal. rewrite Z.add_1_r. lia.
Qed.

(** ** Counters in words *)

(** Counter [k] of a word. *)
Definition nibble (w k : Z) : Z := (w / 16 ^ k) mod 16.

Lemma pow16_pos k : 0 ≤ k → 0 < 16 ^ k.
Proof. intros. by apply Z.pow_pos_nonneg. Qed.

Lemma pow16_shift k : 0 ≤ k → 2 ^ (k * 4) = 16 ^ k.
Proof. intros. rewrite Z.mul_comm, Z.pow_mul_r by lia. done. Qed.

Lemma nibble_add_same w k : 0 ≤ k → nibble w k < 15 → nibble (w + 16 ^ k) k = nibble w k + 1.
Proof.
  intros Hk Hn. unfold nibble in *. pose proof (pow16_pos k Hk).
  replace (w + 16 ^ k) with (w + 1 * 16 ^ k) by lia. rewrite Z.div_add by lia.
  pose proof (Z.mod_pos_bound (w / 16 ^ k) 16). rewrite Z.add_mod, (Z.mod_small 1) by lia.
  apply Z.mod_small. lia.
Qed.

Lemma nibble_add_below w j k : 0 ≤ k < j → nibble (w + 16 ^ j) k = nibble w k.
Proof.
  intros Hk. unfold nibble. pose proof (pow16_pos k).
  replace (16 ^ j) with (16 ^ (j - k - 1) * 16 * 16 ^ k).
  - rewrite Z.div_add by lia. by rewrite Z.mod_add.
  - replace j with ((j - k - 1) + 1 + k) at 2 by lia. rewrite !Z.pow_add_r by lia. lia.
Qed.

(** No carry into what is above. *)
Lemma add_no_carry w j : 0 ≤ j → nibble w j < 15 → (w + 16 ^ j) / 16 ^ (j + 1) = w / 16 ^ (j + 1).
Proof.
  intros Hj Hn. unfold nibble in Hn. pose proof (pow16_pos j Hj).
  rewrite Z.pow_add_r, Z.pow_1_r, <- !Z.div_div by lia.
  replace (w + 16 ^ j) with (w + 1 * 16 ^ j) by lia. rewrite Z.div_add by lia.
  set (q := w / 16 ^ j) in *. pose proof (Z.div_mod q 16). pose proof (Z.mod_pos_bound q 16).
  symmetry. apply (Z.div_unique_pos _ _ _ (q mod 16 + 1)); lia.
Qed.

Lemma nibble_add_above w j k : 0 ≤ j < k → nibble w j < 15 → nibble (w + 16 ^ j) k = nibble w k.
Proof.
  intros Hk Hn. unfold nibble at 1 2. f_equal.
  replace k with ((j + 1) + (k - (j + 1))) by lia. rewrite Z.pow_add_r by lia.
  pose proof (pow16_pos (j + 1)). pose proof (pow16_pos (k - (j + 1))).
  rewrite <- !Z.div_div by lia. rewrite add_no_carry by lia. done.
Qed.

(** A non-negative [int] has a top counter below 8. *)
Lemma add_in_range w j :
  0 ≤ j < 8 → 0 ≤ w < 2 ^ 31 → nibble w j < (if decide (j = 7) then 7 else 15) →
  0 ≤ w + 16 ^ j < 2 ^ 31.
Proof.
  intros Hj Hw Hn. pose proof (pow16_pos j). split; [lia|].
  change (2 ^ 31) with (8 * 16 ^ 7) in *. destruct (decide (j = 7)) as [->|Hj7].
  - unfold nibble in Hn. pose proof (Z.div_mod w (16 ^ 7)). pose proof (Z.mod_pos_bound w (16 ^ 7)).
    assert (0 ≤ w / 16 ^ 7 < 8) by (split; [apply Z.div_pos|apply Z.div_lt_upper_bound]; lia).
    rewrite Z.mod_small in Hn; lia.
  - assert ((w + 16 ^ j) / 16 ^ 7 = w / 16 ^ 7) as Heq.
    { replace 7 with ((j + 1) + (7 - (j + 1))) by lia. rewrite Z.pow_add_r by lia.
      pose proof (pow16_pos (j + 1)). pose proof (pow16_pos (7 - (j + 1))).
      rewrite <- !Z.div_div by lia. by rewrite add_no_carry by lia. }
    assert (w / 16 ^ 7 < 8) by (apply Z.div_lt_upper_bound; lia).
    pose proof (Z.div_mod (w + 16 ^ j) (16 ^ 7)). pose proof (Z.mod_pos_bound (w + 16 ^ j) (16 ^ 7)). lia.
Qed.

(** What the rows read: the low three bits. *)
Lemma read_nibble w k : 0 ≤ k → Z.land (Z.shiftr w (k * 4)) 7 = nibble w k mod 8.
Proof.
  intros Hk. change 7 with (Z.ones 3). rewrite Z.land_ones, Z.shiftr_div_pow2, pow16_shift by lia.
  unfold nibble. change (2 ^ 3) with 8. set (q := w / 16 ^ k).
  rewrite (Z.div_mod q 16) at 1 by lia. replace (16 * (q / 16) + q mod 16) with (q mod 16 + (2 * (q / 16)) * 8) by lia.
  by rewrite Z.mod_add.
Qed.

Lemma nibble_decay w k : 0 ≤ k < 8 → nibble (Z.land (Z.shiftr w 1) decay_mask) k = nibble w k / 2.
Proof.
  intros Hk. unfold nibble at 1. rewrite <- pow16_shift, <- Z.shiftr_div_pow2 by lia.
  rewrite Z.shiftr_land, Z.shiftr_shiftr by lia.
  change 16 with (2 ^ 4). rewrite <- Z.land_ones, <- Z.land_assoc by lia.
  assert (Z.land (Z.shiftr decay_mask (k * 4)) (Z.ones 4) = Z.ones 3) as ->.
  { assert (k = 0 ∨ k = 1 ∨ k = 2 ∨ k = 3 ∨ k = 4 ∨ k = 5 ∨ k = 6 ∨ k = 7) as Hc by lia.
    repeat (destruct Hc as [->|Hc]; [done|]). by subst k. }
  rewrite Z.land_ones, Z.shiftr_div_pow2, Z.add_comm, Z.pow_add_r, pow16_shift, <- Z.div_div by lia.
  unfold nibble. pose proof (pow16_pos k). set (q := w / 16 ^ k). change (2 ^ 3) with 8. change (2 ^ 1) with 2.
  Z.div_mod_to_equations. lia.
Qed.

Lemma decay_in_range w : 0 ≤ w → 0 ≤ Z.land (Z.shiftr w 1) decay_mask < 2 ^ 31.
Proof.
  intros Hw. assert (0 ≤ Z.land (Z.shiftr w 1) decay_mask) by (apply Z.land_nonneg; right; done).
  split; [done|]. destruct (decide (Z.land (Z.shiftr w 1) decay_mask = 0)) as [->|]; [done|].
  apply Z.log2_lt_pow2; [lia|].
  eapply Z.le_lt_trans; [apply Z.log2_land; [by apply Z.shiftr_nonneg|done]|].
  change (Z.log2 decay_mask) with 30. lia.
Qed.

(** ** Rows *)

(** A row of [n] words whose counters are [f]. *)
Definition row_counts (n : nat) (f : Z → Z) (bits : CountMinRow) : Prop :=
  length bits = n ∧
  ∀ i w, bits !! i = Some w → 0 ≤ w < 2 ^ 31 ∧ ∀ k, 0 ≤ k < 8 → nibble w k = f (8 * Z.of_nat i + k).

(** How far a counter counts: the top one of a word shares it with the sign. *)
Definition limit (u : Z) : Z := if decide (u mod 8 = 7) then 7 else 15.

Lemma row_word n f bits u :
  row_counts n f bits → 0 ≤ u < 8 * Z.of_nat n →
  ∃ w, at_index (Z.quot u 8) bits = Some w ∧ bits !! Z.to_nat (u / 8) = Some w ∧
    Z.quot u 8 = u / 8 ∧ Z.rem u 8 = u mod 8 ∧ 0 ≤ w < 2 ^ 31 ∧
    ∀ k, 0 ≤ k < 8 → nibble w k = f (8 * (u / 8) + k).
Proof.
  intros [Hlen Hw] Hu. rewrite Z.quot_div_nonneg, Z.rem_mod_nonneg by lia.
  assert (0 ≤ u / 8 < Z.of_nat n) as Hdiv by (split; [apply Z.div_pos|apply Z.div_lt_upper_bound]; lia).
  destruct (lookup_lt_is_Some_2 bits (Z.to_nat (u / 8))) as [w Hbits]; [lia|].
  exists w. unfold at_index. rewrite decide_True by lia. destruct (Hw _ _ Hbits) as [Hr Hn].
  rewrite Z2Nat.id in Hn by lia. done.
Qed.

Lemma row_get_spec n f bits u :
  row_counts n f bits → 0 ≤ u < 8 * Z.of_nat n → row_get u bits = Some (f u mod 8).
Proof.
  intros Hrow Hu. destruct (row_word _ _ _ _ Hrow Hu) as (w & Hat & _ & Hq & Hr & _ & Hn).
  unfold row_get. rewrite Hat, Hr. cbn [mbind option_bind].
  pose proof (Z.mod_pos_bound u 8). rewrite read_nibble, Hn by lia. by rewrite <- Z.div_mod by lia.
Qed.

Lemma row_increment_spec n f bits u :
  row_counts n f bits → 0 ≤ u < 8 * Z.of_nat n → f u < limit u →
  ∃ bits', row_increment u bits = Some bits' ∧
    row_counts n (λ x, if decide (x = u) then f u + 1 else f x) bits'.
Proof.
  intros Hrow Hu Hlim. destruct (row_word _ _ _ _ Hrow Hu) as (w & Hat & Hbits & Hq & Hr & Hw & Hn).
  pose proof (Z.mod_pos_bound u 8 ltac:(lia)) as Hk. pose proof (Z.div_mod u 8 ltac:(lia)) as Hdm.
  assert (nibble w (u mod 8) = f u) as Hnu by (rewrite Hn by lia; f_equal; lia).
  assert (nibble w (u mod 8) < 15) by (rewrite Hnu; unfold limit in Hlim; case_decide; lia).
  assert (0 ≤ w + 16 ^ (u mod 8) < 2 ^ 31) as Hrange by (apply add_in_range; [lia|done|by rewrite Hnu]).
  unfold row_increment. rewrite Hat, Hr, Hq. cbn [mbind option_bind].
  rewrite read_nibble by lia. pose proof (Z.mod_pos_bound (nibble w (u mod 8)) 8).
  destruct (Z.ltb_spec (nibble w (u mod 8) mod 8) 15); [|lia].
  rewrite Z.shiftl_1_l, pow16_shift, int_plus_Some by lia. cbn [mbind option_bind].
  eexists. split; [reflexivity|]. destruct Hrow as [Hlen Hrow]. split; [by rewrite length_insert|].
  intros i w' Hi. apply list_lookup_insert_Some in Hi as [(<- & <- & Hlt)|[Hne Hi]].
  - split; [done|]. intros k Hk'. rewrite Z2Nat.id by (apply Z.div_pos; lia).
    destruct (decide (8 * (u / 8) + k = u)) as [Heq|Hneq].
    + assert (k = u mod 8) as -> by lia. rewrite nibble_add_same by lia. by rewrite Hnu.
    + rewrite <- Hn by lia. destruct (Z.lt_trichotomy k (u mod 8)) as [Hlt'|[->|Hlt']]; [|lia|].
      * apply nibble_add_below. lia.
      * apply nibble_add_above; [lia|done].
  - destruct (Hrow _ _ Hi) as [Hr' Hn']. split; [done|]. intros k Hk'. rewrite Hn' by done.
    rewrite decide_False; [done|]. intros Heq. apply Hne. rewrite <- Heq.
    rewrite Z.mul_comm, Z.div_add_l, Z.div_small by lia. lia.
Qed.

Lemma row_decay_spec n f bits : row_counts n f bits → row_counts n (λ x, f x / 2) (row_decay bits).
Proof.
  unfold row_decay. intros [Hlen Hrow]. split; [by rewrite length_fmap|]. intros i w Hi.
  apply list_lookup_fmap_Some in Hi as (w0 & -> & Hi). destruct (Hrow _ _ Hi) as [Hr Hn].
  split; [apply decay_in_range; lia|]. intros k Hk. by rewrite nibble_decay, Hn.
Qed.

Lemma nibble_0 k : nibble 0 k = 0.
Proof. unfold nibble. by rewrite Zdiv_0_l. Qed.

Lemma row_clear_spec n f bits : row_counts n f bits → row_counts n (λ _, 0) (row_clear bits).
Proof.
  unfold row_clear. intros [Hlen Hrow]. split; [by rewrite length_fmap|]. intros i w Hi.
  apply list_lookup_fmap_Some in Hi as (w0 & -> & Hi). split; [lia|]. intros. apply nibble_0.
Qed.

Lemma row_new_spec countNum :
  row_counts (Z.to_nat ((if countNum <? 8 then 8 else countNum) / 8)) (λ _, 0) (row_new countNum).
Proof.
  split; [by apply length_replicate|]. intros i w [-> _]%lookup_replicate_1. split; [lia|]. intros. apply nibble_0.
Qed.

(** ** The sketch *)

Inductive sketch_call := CallIncrement (hash : Z) | CallDecay | CallClear.

Definition sketch_do (c : sketch_call) (sk : CountMinSketch) : option CountMinSketch :=
  match c with
  | CallIncrement h => increment h sk
  | CallDecay => Some (decay sk)
  | CallClear => Some (clear sk)
  end.

Fixpoint sketch_run (cs : list sketch_call) (sk : CountMinSketch) : option CountMinSketch :=
  match cs with
  | [] => Some sk
  | c :: cs' => sk' ← sketch_do c sk; sketch_run cs' sk'
  end.

(** What a row with the seed counts, in unbounded counters. *)
Definition tally_do (mask seed : Z) (c : sketch_call) (f : Z → Z) : Z → Z :=
  match c with
  | CallIncrement h => λ u, if decide (u = slot mask seed h) then f (slot mask seed h) + 1 else f u
  | CallDecay => λ u, f u / 2
  | CallClear => λ _, 0
  end.

Definition tally (mask seed : Z) (cs : list sketch_call) (f : Z → Z) : Z → Z :=
  foldl (λ f c, tally_do mask seed c f) f cs.

(** No counter is incremented beyond its limit. *)
Fixpoint fits (mask seed : Z) (cs : list sketch_call) (f : Z → Z) : Prop :=
  match cs with
  | [] => True
  | c :: cs' =>
      match c with
      | CallIncrement h => f (slot mask seed h) < limit (slot mask seed h)
      | _ => True
      end ∧ fits mask seed cs' (tally_do mask seed c f)
  end.

Definition call_ok (c : sketch_call) : Prop :=
  match c with CallIncrement h => 0 ≤ h < 2 ^ 32 | _ => True end.

(** The least of the rows' counters, each read modulo 8, from [m] down. *)
Definition least (mask : Z) (t : Z → Z → Z) (seeds : list Z) (h m : Z) : Z :=
  foldl (λ m s, Z.min m (t s (slot mask s h) mod 8)) m seeds.

(** A sketch of rows of [2 ^ p] counters that counts as [t] says. *)
Record sketch_counts (p : Z) (t : Z → Z → Z) (sk : CountMinSketch) : Prop := {
  sc_size : 3 ≤ p ≤ 30;
  sc_mask : mask_ sk = 2 ^ p - 1;
  sc_rows : Forall2 (λ s r, 0 ≤ s ∧ row_counts (Z.to_nat (2 ^ (p - 3))) (t s) r) (seed_ sk) (rows_ sk);
}.

Lemma row_size p : 3 ≤ p → 8 * Z.of_nat (Z.to_nat (2 ^ (p - 3))) = 2 ^ p.
Proof.
  intros Hp. rewrite Z2Nat.id by (apply Z.pow_nonneg; lia). change 8 with (2 ^ 3).
  rewrite <- Z.pow_add_r by lia. f_equal. lia.
Qed.

Lemma slot_range p s h : 3 ≤ p ≤ 30 → 0 ≤ slot (2 ^ p - 1) s h < 2 ^ p.
Proof.
  intros Hp. unfold slot. replace (2 ^ p - 1) with (Z.ones p) by (rewrite Z.ones_equiv; lia).
  rewrite Z.land_ones by lia. pose proof (Z.mod_pos_bound (Z.lxor h s) (2 ^ p)).
  assert (2 ^ p ≤ 2 ^ 30) by (apply Z.pow_le_mono_r; lia). rewrite wraps_small; lia.
Qed.

Lemma getCountMin_spec p t sk h :
  sketch_counts p t sk → getCountMin h sk = Some (least (mask_ sk) t (seed_ sk) h 16).
Proof.
  intros [Hp Hm Hrows]. unfold getCountMin, least. rewrite Hm. generalize 16 as m.
  induction Hrows as [|s r seeds rows [Hs Hr] Hrows IH]; intros m; cbn; [done|].
  rewrite (row_get_spec _ _ _ _ Hr) by (rewrite row_size by lia; by apply slot_range).
  cbn. rewrite IH. do 2 f_equal. destruct (Z.ltb_spec (t s (slot (2 ^ p - 1) s h) mod 8) m); lia.
Qed.

Lemma increment_spec p t sk h :
  sketch_counts p t sk → Forall (λ s, t s (slot (mask_ sk) s h) < limit (slot (mask_ sk) s h)) (seed_ sk) →
  ∃ sk', increment h sk = Some sk' ∧ seed_ sk' = seed_ sk ∧ mask_ sk' = mask_ sk ∧
    sketch_counts p (λ s, tally_do (mask_ sk) s (CallIncrement h) (t s)) sk'.
Proof.
  intros [Hp Hm Hrows] Hfit. unfold increment.
  assert (∃ rs, increment_rows (mask_ sk) h (rows_ sk) (seed_ sk) = Some rs ∧
    Forall2 (λ s r, 0 ≤ s ∧ row_counts (Z.to_nat (2 ^ (p - 3))) (tally_do (mask_ sk) s (CallIncrement h) (t s)) r)
      (seed_ sk) rs) as (rs & Hrun & Hrs); [|rewrite Hrun; cbn; eexists; split; [reflexivity|by split_and!]].
  rewrite Hm in *. induction Hrows as [|s r seeds rows [Hs Hr] Hrows IH]; cbn; [by exists []|].
  apply Forall_cons in Hfit as [Hlim Hfit]. destruct (IH Hfit) as (rs & Hrun & Hrs).
  destruct (row_increment_spec _ _ _ (slot (2 ^ p - 1) s h) Hr) as (r' & Hrun' & Hr'); [|done|].
  - rewrite row_size by lia. by apply slot_range.
  - rewrite Hrun'. cbn. rewrite Hrun. cbn. eexists. split; [reflexivity|]. by constructor.
Qed.

Lemma map_rows_spec p t sk g t' :
  (∀ f r, row_counts (Z.to_nat (2 ^ (p - 3))) f r → row_counts (Z.to_nat (2 ^ (p - 3))) (t' f) (g r)) →
  sketch_counts p t sk →
  sketch_counts p (λ s, t' (t s)) (mkSketch (g <$> rows_ sk) (seed_ sk) (mask_ sk)).
Proof.
  intros Hg [Hp Hm Hrows]. split; cbn; [done|done|]. apply Forall2_fmap_r.
  eapply Forall2_impl; [exact Hrows|]. intros s r [??]. split; [done|]. by apply Hg.
Qed.

(** Any calls that keep to the counters' limits count as the tallies do. *)
Lemma sketch_run_spec p cs : ∀ t sk,
  sketch_counts p t sk → Forall (λ s, fits (mask_ sk) s cs (t s)) (seed_ sk) →
  ∃ sk', sketch_run cs sk = Some sk' ∧ seed_ sk' = seed_ sk ∧ mask_ sk' = mask_ sk ∧
    sketch_counts p (λ s, tally (mask_ sk) s cs (t s)) sk'.
Proof.
  induction cs as [|c cs IH]; intros t sk Hsk Hfit; [by exists sk|].
  assert (∃ sk1, sketch_do c sk = Some sk1 ∧ seed_ sk1 = seed_ sk ∧ mask_ sk1 = mask_ sk ∧
    sketch_counts p (λ s, tally_do (mask_ sk) s c (t s)) sk1) as (sk1 & Hrun & Hseed & Hmask & Hsk1).
  { destruct c as [h| |]; cbn [sketch_do].
    - apply increment_spec; [done|]. eapply Forall_impl; [exact Hfit|]. by intros s [? _].
    - eexists. split_and!; [reflexivity..|].
      apply (map_rows_spec p t sk row_decay (λ f u, f u / 2)); [apply row_decay_spec|done].
    - eexists. split_and!; [reflexivity..|].
      apply (map_rows_spec p t sk row_clear (λ f _, 0)); [apply row_clear_spec|done]. }
  destruct (IH (λ s, tally_do (mask_ sk) s c (t s)) sk1 Hsk1) as (sk2 & Hrun2 & Hseed2 & Hmask2 & Hsk2).
  { rewrite Hseed, Hmask. eapply Forall_impl; [exact Hfit|]. by intros s [_ ?]. }
  exists sk2. cbn [sketch_run]. rewrite Hrun. cbn [mbind option_bind].
  rewrite Hseed2, Hmask2, Hseed, Hmask. split_and!; try done. by rewrite Hmask in Hsk2.
Qed.

(** A sketch for [n] counters has the next power of two, and 8 at least. *)
Lemma sketch_new_spec shift_out n generator :
  shift_ok shift_out → 1 ≤ n ≤ 2 ^ 30 →
  ∃ sk, sketch_new shift_out n generator = Some sk ∧ length (seed_ sk) = 4%nat ∧
    mask_ sk = Z.max 8 (2 ^ Z.log2_up n) - 1 ∧
    sketch_counts (Z.max 3 (Z.log2_up n)) (λ _ _, 0) sk.
Proof.
  intros Hs Hn. unfold sketch_new. rewrite wraps_small, next2Power_spec by (try done; lia).
  cbn [mbind option_bind]. set (p := Z.log2_up n).
  assert (0 ≤ p ≤ 30) as Hp.
  { split; [apply Z.log2_up_nonneg|]. change 30 with (Z.log2_up (2 ^ 30)). apply Z.log2_up_le_mono. lia. }
  assert (0 < 2 ^ p ≤ 2 ^ 30) as Hpow by (split; [apply Z.pow_pos_nonneg|apply Z.pow_le_mono_r]; lia).
  rewrite wrapu_small by lia.
  assert ((if 2 ^ p <? 8 then 8 else 2 ^ p) = 2 ^ Z.max 3 p) as ->.
  { destruct (Z.ltb_spec (2 ^ p) 8) as [Hlt|Hge].
    - change 8 with (2 ^ 3) in Hlt. apply Z.pow_lt_mono_r_iff in Hlt; [|lia..].
      by rewrite Z.max_l by lia.
    - change 8 with (2 ^ 3) in Hge. apply Z.pow_le_mono_r_iff in Hge; [|lia..].
      by rewrite Z.max_r by lia. }
  assert (2 ^ Z.max 3 p = Z.max 8 (2 ^ p)) as Hmax.
  { change 8 with (2 ^ 3). apply Z.max_case_strong; intros; symmetry.
    - apply Z.max_l, Z.pow_le_mono_r; lia.
    - apply Z.max_r, Z.pow_le_mono_r; lia. }
  assert (2 ^ Z.max 3 p ≤ 2 ^ 30) by (apply Z.pow_le_mono_r; lia).
  rewrite (wrapu_small 32) by lia.
  eexists. split; [reflexivity|]. split_and!; [done|cbn; lia|]. split; cbn [mask_ seed_ rows_]; [lia|done|].
  assert (row_counts (Z.to_nat (2 ^ (Z.max 3 p - 3))) (λ _, 0) (row_new (2 ^ Z.max 3 p))) as Hrow.
  { pose proof (row_new_spec (2 ^ Z.max 3 p)) as Hr. destruct (Z.ltb_spec (2 ^ Z.max 3 p) 8); [lia|].
    replace (2 ^ Z.max 3 p / 8) with (2 ^ (Z.max 3 p - 3)) in Hr; [done|].
    rewrite Z.pow_sub_r by lia. done. }
  do 4 (constructor; [split; [apply wrapu_range; lia|exact Hrow]|]). constructor.
Qed.

(** ** The estimate against the true count *)

(** A run of increments. *)
Definition increments (hs : list Z) : list sketch_call := CallIncrement <$> hs.

(** How often a slot is hit. *)
Definition hits (mask seed : Z) (hs : list Z) (u : Z) : Z :=
  Z.of_nat (length (filter (λ h, slot mask seed h = u) hs)).

Definition occurrences (h : Z) (hs : list Z) : Z := Z.of_nat (length (filter (λ h', h' = h) hs)).

Lemma tally_increments mask seed hs : ∀ f u, tally mask seed (increments hs) f u = f u + hits mask seed hs u.
Proof.
  unfold tally, hits. induction hs as [|h hs IH]; intros f u; [cbn; lia|].
  cbn [increments fmap list_fmap foldl]. etrans; [apply IH|]. cbn [tally_do].
  rewrite filter_cons. destruct (decide (u = slot mask seed h)) as [->|Hne].
  - rewrite decide_True by done. cbn [length]. lia.
  - by rewrite decide_False by done.
Qed.

Lemma fits_increments mask seed hs : ∀ f,
  (∀ h, f (slot mask seed h) + hits mask seed hs (slot mask seed h) ≤ 7) →
  fits mask seed (increments hs) f.
Proof.
  induction hs as [|h hs IH]; intros f Hf; [done|]. cbn [increments fmap list_fmap fits]. split.
  - specialize (Hf h). unfold hits in Hf. rewrite filter_cons, decide_True in Hf by done. cbn [length] in Hf.
    unfold limit. case_decide; lia.
  - apply IH. intros h'. specialize (Hf h'). unfold hits in *. rewrite filter_cons in Hf. cbn [tally_do].
    destruct (decide (slot mask seed h' = slot mask seed h)) as [Heq|Hne].
    + rewrite decide_True in Hf by done. cbn [length] in Hf. rewrite Heq in *. lia.
    + by rewrite decide_False in Hf by done.
Qed.

Lemma occurrences_hits mask seed h hs : occurrences h hs ≤ hits mask seed hs (slot mask seed h).
Proof.
  unfold occurrences, hits. apply inj_le. induction hs as [|x hs IH]; [done|]. rewrite !filter_cons.
  destruct (decide (x = h)) as [->|]; [rewrite decide_True by done; cbn; lia|]. case_decide; cbn; lia.
Qed.

Lemma least_bounds mask t seeds h : ∀ m,
  least mask t seeds h m ≤ m ∧
  (∀ s, s ∈ seeds → least mask t seeds h m ≤ t s (slot mask s h) mod 8) ∧
  (∀ b, b ≤ m → (∀ s, s ∈ seeds → b ≤ t s (slot mask s h) mod 8) → b ≤ least mask t seeds h m).
Proof.
  unfold least. induction seeds as [|s seeds IH]; intros m; cbn [foldl].
  { split_and!; [done| |by intros b ? _]. intros s Hs. by apply elem_of_nil in Hs. }
  destruct (IH (Z.min m (t s (slot mask s h) mod 8))) as (H1 & H2 & H3). split_and!; [lia| |].
  - intros s' [->|Hs]%elem_of_cons; [lia|by apply H2].
  - intros b Hb Hall. apply H3; [|intros s' Hs; apply Hall; by right].
    apply Z.min_glb; [done|]. apply Hall. by left.
Qed.

(** C26: a sketch for 1 to 2^30 counters is built, whatever its seeds, on a machine where the
    undefined [x >> 32] of an [int] gives [x] or 0 ([shift_ok]); after any calls
    that increment no counter beyond its limit the estimate is the least of the rows'
    counters read modulo 8, decay halving and clear zeroing each of them; and as long as
    no counter is hit more than seven times the estimate of a hash lies between its
    number of increments and 7.  No index is out of range and no addition overflows. *)
Theorem countmin_estimate shift_out n generator :
  shift_ok shift_out → 1 ≤ n ≤ 2 ^ 30 →
  ∃ sk0, sketch_new shift_out n generator = Some sk0 ∧
    (∀ cs, (∀ s, s ∈ seed_ sk0 → fits (mask_ sk0) s cs (λ _, 0)) →
      ∃ sk, sketch_run cs sk0 = Some sk ∧
        ∀ h, getCountMin h sk =
          Some (least (mask_ sk0) (λ s, tally (mask_ sk0) s cs (λ _, 0)) (seed_ sk0) h 16)) ∧
    (∀ hs h, (∀ s h', s ∈ seed_ sk0 → hits (mask_ sk0) s hs (slot (mask_ sk0) s h') ≤ 7) →
      ∃ sk m, sketch_run (increments hs) sk0 = Some sk ∧ getCountMin h sk = Some m ∧
        occurrences h hs ≤ m ≤ 7).
Proof.
  intros Hs Hn. destruct (sketch_new_spec shift_out n generator Hs Hn) as (sk0 & Hnew & Hlen & _ & Hsk0).
  set (p := Z.max 3 (Z.log2_up n)) in *.
  assert (∀ cs, (∀ s, s ∈ seed_ sk0 → fits (mask_ sk0) s cs (λ _, 0)) →
    ∃ sk, sketch_run cs sk0 = Some sk ∧
      ∀ h, getCountMin h sk =
        Some (least (mask_ sk0) (λ s, tally (mask_ sk0) s cs (λ _, 0)) (seed_ sk0) h 16)) as Hrefine.
  { intros cs Hfit. destruct (sketch_run_spec p cs _ sk0 Hsk0) as (sk & Hrun & Hseed & Hmask & Hsk).
    { by apply Forall_forall. }
    exists sk. split; [done|]. intros h. by rewrite (getCountMin_spec p _ _ h Hsk), Hseed, Hmask. }
  exists sk0. split_and!; [done|done|]. intros hs h Hhits. destruct (Hrefine (increments hs)) as (sk & Hrun & Hget).
  { intros s Hin. apply fits_increments. intros h'. by apply Hhits. }
  eexists sk, _. split_and!; [done|apply Hget| |]; set (t := λ s, tally (mask_ sk0) s (increments hs) (λ _, 0)).
  all: destruct (least_bounds (mask_ sk0) t (seed_ sk0) h 16) as (_ & Hle & Hge).
  all: assert (∀ s, s ∈ seed_ sk0 →
    occurrences h hs ≤ t s (slot (mask_ sk0) s h) ≤ 7 ∧ 0 ≤ t s (slot (mask_ sk0) s h)) as Ht
    by (intros s Hin; unfold t; rewrite tally_increments; specialize (Hhits s h Hin);
        pose proof (occurrences_hits (mask_ sk0) s h hs); unfold occurrences in *; lia).
  all: destruct (seed_ sk0) as [|s0 seeds] eqn:Hseeds; [done|];
    pose proof (Ht s0 ltac:(by left)) as Ht0.
  - apply Hge; [lia|]. intros s Hin. destruct (Ht s Hin). rewrite Z.mod_small; lia.
  - specialize (Hle s0 ltac:(by left)). rewrite Z.mod_small in Hle; lia.
Qed.

(** ** Beyond the limits *)

(** Eight increments of a hash leave nothing: the field is 4 bits wide and is read as 3. *)
Lemma estimate_wraps p sk h :
  sketch_counts p (λ _ _, 0) sk → seed_ sk ≠ [] →
  (∀ s, s ∈ seed_ sk → slot (mask_ sk) s h mod 8 ≠ 7) →
  ∃ sk', sketch_run (increments (replicate 8 h)) sk = Some sk' ∧ getCountMin h sk' = Some 0.
Proof.
  intros Hsk Hne Htop.
  assert (∀ s k f, s ∈ seed_ sk → f (slot (mask_ sk) s h) + Z.of_nat k ≤ 15 →
    fits (mask_ sk) s (increments (replicate k h)) f) as Hfits.
  { intros s k f Hin. revert f. induction k as [|k IH]; intros f Hf; [done|].
    cbn [replicate increments fmap list_fmap fits]. split.
    - unfold limit. rewrite decide_False by by apply Htop. lia.
    - apply IH. cbn [tally_do]. rewrite decide_True by done. lia. }
  destruct (sketch_run_spec p (increments (replicate 8 h)) _ sk Hsk) as (sk' & Hrun & Hseed & Hmask & Hsk').
  { apply Forall_forall. intros s Hin. by apply Hfits. }
  exists sk'. split; [done|]. rewrite (getCountMin_spec p _ _ h Hsk'), Hseed, Hmask. f_equal.
  set (t := λ s, tally (mask_ sk) s (increments (replicate 8 h)) (λ _, 0)).
  assert (∀ s, t s (slot (mask_ sk) s h) = 8) as Ht.
  { intros s. unfold t. rewrite tally_increments. unfold hits. cbn. by repeat (rewrite decide_True by done; cbn). }
  destruct (least_bounds (mask_ sk) t (seed_ sk) h 16) as (_ & Hle & Hge).
  destruct (seed_ sk) as [|s0 seeds]; [done|].
  specialize (Hle s0 ltac:(by left)). rewrite Ht in Hle. change (8 mod 8) with 0 in Hle.
  apply Z.le_antisymm; [done|]. apply Hge; [lia|]. intros s Hin. by rewrite Ht.
Qed.

(** The eighth increment of the top counter of a word overflows the [int]. *)
Lemma top_counter_overflows n f bits u :
  row_counts n f bits → 0 ≤ u < 8 * Z.of_nat n → u mod 8 = 7 → f u = 7 → row_increment u bits = None.
Proof.
  intros Hrow Hu Htop Hf. destruct (row_word _ _ _ _ Hrow Hu) as (w & Hat & _ & Hq & Hr & Hw & Hn).
  unfold row_increment. rewrite Hat, Hr, Htop. cbn [mbind option_bind].
  rewrite read_nibble by lia. pose proof (Z.div_mod u 8).
  rewrite Hn by lia. replace (8 * (u / 8) + 7) with u by lia. rewrite Hf. cbn [Z.modulo].
  assert (nibble w 7 = 7) as Hn7 by (rewrite Hn by lia; by replace (8 * (u / 8) + 7) with u by lia).
  change ((7 mod 8 <? 15)) with true. cbn iota. rewrite Z.shiftl_1_l, pow16_shift by lia.
  unfold int_plus. rewrite decide_False; [done|]. unfold nibble in Hn7.
  assert (0 ≤ w / 16 ^ 7 < 8) by (split; [apply Z.div_pos|apply Z.div_lt_upper_bound]; lia).
  rewrite Z.mod_small in Hn7 by lia. pose proof (Z.div_mod w (16 ^ 7)). pose proof (Z.mod_pos_bound w (16 ^ 7)). lia.
Qed.

(** A counter hit sixteen times in a word of small ones is carried into its neighbour. *)
Example sixteenth_increment_carries :
  Nat.iter 16 (λ r, r ≫= row_increment 0) (Some (row_new 8)) = Some [16] ∧
  row_get 0 [16] = Some 0 ∧ row_get 1 [16] = Some 1.
Proof. split_and!; reflexivity. Qed.

(** More than 2^30 counters: the [int] overflows, or its sign makes it a sketch of eight. *)
Lemma sketch_too_large shift_out generator :
  shift_ok shift_out →
  sketch_new shift_out (2 ^ 30 + 1) generator = None ∧
  mask_ <$> sketch_new shift_out (2 ^ 31 + 1) generator = Some 7.
Proof.
  intros Hs. unfold sketch_new, next2Power.
  split; [change (wraps 32 (2 ^ 30 + 1)) with (2 ^ 30 + 1)|change (wraps 32 (2 ^ 31 + 1)) with (- 2 ^ 31 + 1)];
    rewrite int_plus_Some by lia; cbn [mbind option_bind]; by rewrite lor_shift_out.
Qed.

Lemma countmin_estimate_witness :
  ∃ sk0, sketch_new (λ x, x) 100 (λ i, 2654435769 * Z.of_nat i) = Some sk0 ∧
    ∃ sk m, sketch_run (increments [5; 5; 77; 5]) sk0 = Some sk ∧ getCountMin 5 sk = Some m ∧
      occurrences 5 [5; 5; 77; 5] ≤ m ≤ 7.
Proof.
  destruct (countmin_estimate (λ x, x) 100 (λ i, 2654435769 * Z.of_nat i)) as (sk0 & Hnew & _ & Hest);
    [intros x; by left|lia|].
  exists sk0. split; [done|]. apply Hest. intros s h' _. unfold hits.
  pose proof (length_filter (λ h, slot (mask_ sk0) s h = slot (mask_ sk0) s h') [5; 5; 77; 5]). cbn [length] in *. lia.
Defined.
