(* ===== verification/Memory.v ===== *)
(** Blocks of memory and binary files, as the vector indexes use them
    (src/hnsw/hnsw_scratch): a block is its bytes, and a read or a write that leaves it is
    undefined behaviour.  A file is its bytes too. *)

From S2P Require Import Prelude Bytes.

(** ** Memory *)
Abbreviation memory := (list byte).

(** Reading and writing through a pointer into a block: undefined outside of it. *)
Definition read_mem (n pos : Z) (mem : memory) : option (list byte) :=
  if decide (0 ≤ pos ∧ 0 ≤ n ∧ pos + n ≤ Z.of_nat (length mem))
  then Some (take (Z.to_nat n) (drop (Z.to_nat pos) mem)) else None.

Definition write_mem (pos : Z) (bs : list byte) (mem : memory) : option memory :=
  if decide (0 ≤ pos ∧ pos + Z.of_nat (length bs) ≤ Z.of_nat (length mem))
  then Some (take (Z.to_nat pos) mem ++ bs ++ drop (Z.to_nat pos + length bs) mem) else None.

(** [size_t] arithmetic. *)
Definition size_mul (a b : Z) : Z := wrapu 64 (a * b).
Definition size_add (a b : Z) : Z := wrapu 64 (a + b).

(** The allocator gives blocks of the size asked for. *)
Definition malloc_ok (malloc : Z → option memory) : Prop :=
  ∀ n block, 0 ≤ n → malloc n = Some block → Z.of_nat (length block) = n.

(** ** Files *)
Definition writeBinaryPOD (n : nat) (z : Z) : list byte := le_bytes n z.

(** [in.read] of [n] bytes over an object that holds [old]: at the end of the file what
    is left is read and the rest of the object stays. *)
Definition read_over (input : list byte) (old : list byte) : list byte * list byte :=
  (take (length old) input ++ drop (length input) old, drop (length old) input).

Definition readBinaryPOD (n : nat) (old : Z) (input : list byte) : Z * list byte :=
  let (bs, rest) := read_over input (le_bytes n old) in (le_val bs, rest).

(** ** Reading back what was written *)

(** The bytes from [pos] on are [bs]. *)
Definition reads (mem : memory) (pos : Z) (bs : list byte) : Prop :=
  0 ≤ pos ∧ pos + Z.of_nat (length bs) ≤ Z.of_nat (length mem) ∧
  ∀ k, (k < length bs)%nat → mem !! (Z.to_nat pos + k)%nat = bs !! k.

Lemma read_mem_reads n pos mem bs :
  read_mem n pos mem = Some bs ↔ n = Z.of_nat (length bs) ∧ reads mem pos bs.
Proof.
  unfold read_mem, reads. split.
  - case_decide as H; [|done]. intros [= <-]. rewrite length_take, length_drop.
    split; [lia|]. split_and!; [lia|lia|]. intros k Hk. rewrite lookup_take_lt by lia. by rewrite lookup_drop.
  - intros (-> & H1 & H2 & Hk). rewrite decide_True by lia. f_equal. apply list_eq_same_length with (length bs).
    + done.
    + rewrite length_take, length_drop. lia.
    + intros k x y Hlt. rewrite lookup_take_lt, lookup_drop, Hk by lia. congruence.
Qed.

Lemma reads_app mem pos x y :
  reads mem pos (x ++ y) ↔ reads mem pos x ∧ reads mem (pos + Z.of_nat (length x)) y.
Proof.
  unfold reads. rewrite length_app. split.
  - intros (H1 & H2 & Hk). split_and!; try lia; intros k Hlt.
    + rewrite Hk by lia. by apply lookup_app_l.
    + replace (Z.to_nat (pos + Z.of_nat (length x)) + k)%nat with (Z.to_nat pos + (length x + k))%nat by lia.
      rewrite Hk by lia. rewrite lookup_app_r by lia. f_equal. lia.
  - intros ((H1 & H2 & Hx) & (H3 & H4 & Hy)). split_and!; [lia|lia|]. intros k Hlt.
    destruct (Nat.lt_ge_cases k (length x)).
    + rewrite Hx by done. by rewrite lookup_app_l.
    + rewrite lookup_app_r, <- Hy by lia. f_equal. lia.
Qed.

Lemma write_mem_lookup pos bs mem mem' k :
  write_mem pos bs mem = Some mem' →
  mem' !! k = if decide (Z.to_nat pos ≤ k < Z.to_nat pos + length bs)%nat then bs !! (k - Z.to_nat pos)%nat else mem !! k.
Proof.
  unfold write_mem. case_decide as H; [|done]. intros [= <-].
  assert (length (take (Z.to_nat pos) mem) = Z.to_nat pos) as Hlen by (rewrite length_take; lia).
  destruct (Nat.lt_ge_cases k (Z.to_nat pos)).
  - rewrite decide_False, lookup_app_l by lia. by apply lookup_take_lt.
  - rewrite lookup_app_r, Hlen by lia. case_decide.
    + by rewrite lookup_app_l by lia.
    + rewrite lookup_app_r, lookup_drop by lia. f_equal. lia.
Qed.

Lemma write_mem_spec pos bs mem :
  0 ≤ pos → pos + Z.of_nat (length bs) ≤ Z.of_nat (length mem) →
  ∃ mem', write_mem pos bs mem = Some mem' ∧ length mem' = length mem ∧ reads mem' pos bs ∧
    ∀ q x, (q + Z.of_nat (length x) ≤ pos ∨ pos + Z.of_nat (length bs) ≤ q) → reads mem q x → reads mem' q x.
Proof.
  intros H1 H2.
  assert (∃ mem', write_mem pos bs mem = Some mem') as [mem' Hw].
  { unfold write_mem. rewrite decide_True by lia. by eexists. }
  assert (length mem' = length mem) as Hlen.
  { unfold write_mem in Hw. rewrite decide_True in Hw by lia. injection Hw as <-.
    rewrite !length_app, length_take, length_drop. lia. }
  exists mem'. split_and!; [done|done| |].
  - unfold reads. rewrite Hlen. split_and!; [lia|lia|]. intros k Hk.
    rewrite (write_mem_lookup _ _ _ _ _ Hw), decide_True by lia. f_equal. lia.
  - intros q x Hdis (H3 & H4 & Hk). unfold reads. rewrite Hlen. split_and!; [lia|lia|]. intros k Hlt.
    rewrite (write_mem_lookup _ _ _ _ _ Hw), decide_False by lia. by apply Hk.
Qed.

Lemma read_over_app old bs rest : length bs = length old → read_over (bs ++ rest) old = (bs, rest).
Proof.
  intros Hl. unfold read_over. rewrite <- Hl, take_app_length, drop_app_length, length_app.
  rewrite drop_ge by lia. by rewrite app_nil_r.
Qed.

Lemma readBinaryPOD_write n old z rest :
  0 ≤ z < 2 ^ (8 * Z.of_nat n) → readBinaryPOD n old (writeBinaryPOD n z ++ rest) = (z, rest).
Proof.
  intros Hz. unfold readBinaryPOD, writeBinaryPOD. rewrite read_over_app by by rewrite !length_le_bytes.
  by rewrite le_val_le_bytes, wrapu_small.
Qed.

(** ** Writing inside of what is read *)
Lemma write_inside pos x y z y' mem :
  reads mem pos (x ++ y ++ z) → length y' = length y →
  ∃ mem', write_mem (pos + Z.of_nat (length x)) y' mem = Some mem' ∧ length mem' = length mem ∧
    reads mem' pos (x ++ y' ++ z) ∧
    ∀ q w, (q + Z.of_nat (length w) ≤ pos ∨ pos + Z.of_nat (length (x ++ y ++ z)) ≤ q) → reads mem q w → reads mem' q w.
Proof.
  intros Hr Hy. pose proof Hr as (Hpos & Hlen & _). rewrite !length_app in Hlen.
  apply reads_app in Hr as [Hx Hr]. apply reads_app in Hr as [_ Hz].
  destruct (write_mem_spec (pos + Z.of_nat (length x)) y' mem) as (mem' & Hw & Hl & Hy' & Hkeep); [lia|lia|].
  exists mem'. split_and!; [done|done| |].
  - apply reads_app. split; [apply Hkeep; [lia|done]|]. apply reads_app. split; [done|].
    rewrite Hy. apply Hkeep; [lia|done].
  - intros q w Hq. rewrite !length_app in Hq. apply Hkeep. lia.
Qed.

(** The parts of a block that is made of parts of the same size. *)
Lemma concat_split {A} (ls : list (list A)) (n k : nat) (x x' : list A) :
  Forall (λ l, length l = n) ls → ls !! k = Some x →
  ∃ before after, length before = (k * n)%nat ∧ concat ls = before ++ x ++ after ∧
    concat (<[k := x']> ls) = before ++ x' ++ after.
Proof.
  revert k. induction ls as [|l ls IH]; intros k Hall Hk; [done|]. apply Forall_cons in Hall as [Hl Hall].
  destruct k as [|k]; csimpl in *; [injection Hk as ->; by exists [], (concat ls)|].
  destruct (IH k Hall Hk) as (before & after & Hlen & -> & ->).
  exists (l ++ before), after. rewrite length_app, <- !app_assoc. by split_and!; [lia| |].
Qed.

Lemma length_concat_same {A} (ls : list (list A)) (n : nat) :
  Forall (λ l, length l = n) ls → length (concat ls) = (length ls * n)%nat.
Proof. induction 1; cbn; [done|]. rewrite length_app. lia. Qed.

(** Writing back what was there. *)
Lemma write_back pos y y' mem mem' :
  reads mem pos y → length y' = length y → write_mem pos y' mem = Some mem' → write_mem pos y mem' = Some mem.
Proof.
  intros (H1 & H2 & Hk) Hy Hw. destruct (write_mem_spec pos y' mem) as (m1 & Hm1 & Hlen & _); [lia|lia|].
  assert (m1 = mem') as -> by congruence. destruct (write_mem_spec pos y mem') as (m2 & Hm2 & Hlen2 & _); [lia|lia|].
  rewrite Hm2. f_equal. apply list_eq. intros k. rewrite (write_mem_lookup _ _ _ _ _ Hm2). case_decide as Hin.
  - rewrite <- Hk by lia. f_equal. lia.
  - by rewrite (write_mem_lookup _ _ _ _ _ Hw), decide_False by lia.
Qed.
