(* ===== verification/NearestQueue.v ===== *)
(** The priority queue of the vector indexes: [std::priority_queue] over pairs of a
    distance and a label (src/hnsw/hnsw_scratch), a container of the C++ standard
    library, with the order of [std::pair] and the greatest element on top.

    Distances are integers here.  For a floating [dist_t] without NaNs read them as
    ranks: the indexes only compare distances. *)

From stdpp Require Import sorting.
From S2P Require Import Prelude.

(** [std::pair<dist_t, label_type>] and its [operator<=]. *)
Abbreviation entry := (Z * Z)%type.

Definition entry_le (p q : entry) : Prop := p.1 < q.1 ∨ (p.1 = q.1 ∧ p.2 ≤ q.2).

#[export] Instance entry_le_dec p q : Decision (entry_le p q).
Proof. unfold entry_le. apply _. Defined.

#[export] Instance entry_le_total : TotalOrder entry_le.
Proof.
  split; [split; [split|]|].
  - intros []. unfold entry_le. cbn. lia.
  - intros [] [] []. unfold entry_le. cbn. lia.
  - intros [d1 l1] [d2 l2]. unfold entry_le. cbn. intros. f_equal; lia.
  - intros [d1 l1] [d2 l2]. unfold strict, entry_le. cbn.
    destruct (Z.lt_trichotomy d1 d2) as [|[->|]]; [left; lia| |right; right; lia].
    destruct (Z.lt_trichotomy l1 l2) as [|[->|]]; [left|right; left; done|right; right]; lia.
Qed.

Lemma entry_le_total_or p q : entry_le p q ∨ entry_le q p.
Proof. unfold entry_le. destruct (Z.lt_trichotomy p.1 q.1); lia. Qed.

(** A queue is the list of its elements, the greatest first. *)
Abbreviation queue := (list entry).

Fixpoint emplace (x : entry) (q : queue) : queue :=
  match q with
  | [] => [x]
  | y :: q' => if decide (entry_le y x) then x :: q else y :: emplace x q'
  end.

(** [top] and [pop]: undefined on an empty queue. *)
Definition top (q : queue) : option entry := head q.
Definition pop (q : queue) : option queue := match q with [] => None | _ :: q' => Some q' end.

(** ** Lemmas *)
Abbreviation descending := (StronglySorted (flip entry_le)).

Lemma length_emplace x q : length (emplace x q) = S (length q).
Proof. induction q as [|y q IH]; cbn; [done|]. case_decide; cbn; lia. Qed.

Lemma emplace_Permutation x q : emplace x q ≡ₚ x :: q.
Proof.
  induction q as [|y q IH]; cbn; [done|]. case_decide; [done|]. rewrite IH. apply Permutation_swap.
Qed.

Lemma emplace_max x q : (∀ y, y ∈ q → entry_le y x) → emplace x q = x :: q.
Proof. destruct q as [|y q]; intros H; cbn; [done|]. rewrite decide_True; [done|]. apply H. by left. Qed.

Lemma emplace_descending x q : descending q → descending (emplace x q).
Proof.
  induction q as [|y q IH]; intros Hq; cbn.
  - by repeat constructor.
  - pose proof Hq as [Hy Hq']%StronglySorted_cons. case_decide as Hle; apply StronglySorted_cons.
    + split; [|done]. constructor; [done|]. eapply Forall_impl; [exact Hy|]. cbn. intros z Hz. by transitivity y.
    + split; [|by apply IH]. rewrite emplace_Permutation. constructor; [|done].
      destruct (entry_le_total_or y x); done.
Qed.

(** *** The [K] least elements *)
Definition sort_queue (l : list entry) : queue := foldl (λ q x, emplace x q) [] l.

(** The [K] least elements of a list. *)
Definition nearest (K : nat) (l : list entry) : queue := drop (length l - K) (sort_queue l).

Definition trim (K : nat) (q : queue) : queue := if (K <? length q)%nat then tail q else q.

Lemma sort_queue_snoc l x : sort_queue (l ++ [x]) = emplace x (sort_queue l).
Proof. unfold sort_queue. by rewrite foldl_app. Qed.

Lemma sort_queue_spec l : descending (sort_queue l) ∧ sort_queue l ≡ₚ l.
Proof.
  induction l as [|x l [Hd Hp]] using rev_ind; [by repeat constructor|].
  rewrite sort_queue_snoc. split; [by apply emplace_descending|].
  rewrite emplace_Permutation, Hp. apply Permutation_cons_append.
Qed.

Lemma length_sort_queue l : length (sort_queue l) = length l.
Proof. apply Permutation_length, sort_queue_spec. Qed.

Lemma drop_emplace n x s : descending s → drop (S n) (emplace x s) = tail (emplace x (drop n s)).
Proof.
  revert s. induction n as [|n IH]; intros s Hs; [rewrite drop_0; by destruct (emplace x s)|].
  destruct s as [|y s]; [done|]. cbn [emplace]. apply StronglySorted_cons in Hs as [Hy Hs].
  case_decide as Hle; cbn [drop]; [|by apply IH].
  rewrite emplace_max; [done|]. intros z Hz. transitivity y; [|done].
  rewrite Forall_forall in Hy. apply Hy. by eapply subseteq_drop.
Qed.

(** Adding an element to the list: put it in, and take the greatest out when there are too many. *)
Lemma nearest_snoc K l x : nearest K (l ++ [x]) = trim K (emplace x (nearest K l)).
Proof.
  unfold nearest, trim. rewrite sort_queue_snoc, length_emplace, length_drop, length_app, length_sort_queue.
  cbn [length]. destruct (Nat.ltb_spec K (S (length l - (length l - K)))).
  - replace (length l + 1 - K)%nat with (S (length l - K)) by lia. apply drop_emplace, sort_queue_spec.
  - by replace (length l + 1 - K)%nat with O by lia; replace (length l - K)%nat with O by lia.
Qed.

Lemma length_nearest K l : length (nearest K l) = Nat.min K (length l).
Proof. unfold nearest. rewrite length_drop, length_sort_queue. lia. Qed.

Lemma nearest_descending K l : descending (nearest K l).
Proof.
  unfold nearest. destruct (sort_queue_spec l) as [Hd _].
  rewrite <- (take_drop (length l - K) (sort_queue l)) in Hd. by apply StronglySorted_app in Hd as (_ & _ & ?).
Qed.

(** The queue is the least elements, the rest is greater. *)
Lemma nearest_spec K l :
  ∃ rest, nearest K l ++ rest ≡ₚ l ∧ length (nearest K l) = Nat.min K (length l) ∧ descending (nearest K l) ∧
    ∀ x y, x ∈ nearest K l → y ∈ rest → entry_le x y.
Proof.
  destruct (sort_queue_spec l) as [Hd Hp]. exists (take (length l - K) (sort_queue l)).
  split_and!; [|apply length_nearest|apply nearest_descending|].
  - unfold nearest. by rewrite Permutation_app_comm, take_drop.
  - intros x y Hx Hy. rewrite <- (take_drop (length l - K) (sort_queue l)) in Hd.
    apply StronglySorted_app in Hd as (Hd & _). by apply Hd.
Qed.

(** Nothing is dropped while there is room. *)
Lemma nearest_all K l : (length l ≤ K)%nat → nearest K l = sort_queue l.
Proof. intros H. unfold nearest. by replace (length l - K)%nat with O by lia. Qed.

(** An element above the greatest of a full queue is dropped at once. *)
Lemma trim_emplace_above K q x t :
  length q = K → head q = Some t → descending q → t.1 < x.1 → trim K (emplace x q) = q.
Proof.
  intros Hlen Ht Hq Hx. destruct q as [|y q]; [done|]. injection Ht as ->.
  rewrite emplace_max; unfold trim; cbn [length] in *.
  - by destruct (Nat.ltb_spec K (S (S (length q)))); [|lia].
  - apply StronglySorted_cons in Hq as [Hy Hq]. intros y [->|Hin]%elem_of_cons; [by left|].
    transitivity t; [|by left]. rewrite Forall_forall in Hy. by apply Hy.
Qed.
