(* ===== verification/MaxQueue.v ===== *)
(** The interface of the graph index to its queues: [std::priority_queue] with
    [CompareByFirst] of src/hnsw/hnsw_scratch/hnsw_core.hpp.

    The comparator only looks at the distance, so the language leaves open which of
    several entries at the same distance is on top.  A queue is therefore anything that
    keeps the laws; the index is proved against them, and [stable_queue] shows that there
    is such a queue. *)

From stdpp Require Import sorting.
From S2P Require Import Prelude NearestQueue.

Class MaxQueue (Q : Type) := {
  q_empty : Q;
  q_emplace : entry → Q → Q;
  q_top : Q → option entry;
  q_pop : Q → Q;
  q_elems : Q → list entry;
}.

Class MaxQueueLaws (Q : Type) `{MaxQueue Q} := {
  elems_empty : q_elems q_empty = [];
  elems_emplace x q : q_elems (q_emplace x q) ≡ₚ x :: q_elems q;
  top_None q : q_top q = None → q_elems q = [];
  top_Some q x : q_top q = Some x → q_elems q ≡ₚ x :: q_elems (q_pop q) ∧ ∀ y, y ∈ q_elems q → y.1 ≤ x.1;
}.

(** From the farthest to the closest. *)
Abbreviation falling := (StronglySorted (λ x y : entry, y.1 ≤ x.1)).

Section Queue.
Context {Q : Type} `{MaxQueueLaws Q}.
Implicit Types (q : Q).

(** [size()]. *)
Definition q_size q : nat := length (q_elems q).

(** Popping the queue empty: its entries, the farthest first. *)
Fixpoint q_drain_from (n : nat) q : list entry :=
  match n with
  | O => []
  | S n' => match q_top q with Some x => x :: q_drain_from n' (q_pop q) | None => [] end
  end.
Definition q_drain q : list entry := q_drain_from (q_size q) q.

Lemma size_empty : q_size q_empty = 0%nat.
Proof. unfold q_size. by rewrite elems_empty. Qed.
Lemma size_emplace x q : q_size (q_emplace x q) = S (q_size q).
Proof. unfold q_size. by rewrite elems_emplace. Qed.

Lemma top_is_Some q : (0 < q_size q)%nat → is_Some (q_top q).
Proof.
  unfold q_size. intros Hs. destruct (q_top q) as [x|] eqn:E; [by eexists|].
  apply top_None in E. rewrite E in Hs. cbn in Hs. lia.
Qed.

Lemma top_size q x : q_top q = Some x → q_size q = S (q_size (q_pop q)).
Proof. intros [Hp _]%top_Some. unfold q_size. by rewrite Hp. Qed.

Lemma top_in q x : q_top q = Some x → x ∈ q_elems q.
Proof. intros [Hp _]%top_Some. rewrite Hp. by left. Qed.

Lemma pop_in q x y : q_top q = Some x → y ∈ q_elems (q_pop q) → y ∈ q_elems q.
Proof. intros [Hp _]%top_Some Hy. rewrite Hp. by right. Qed.

Lemma drain_spec q : q_drain q ≡ₚ q_elems q ∧ falling (q_drain q).
Proof.
  unfold q_drain. remember (q_size q) as n eqn:Hn. revert q Hn.
  induction n as [|n IH]; intros q Hn; cbn [q_drain_from].
  { unfold q_size in Hn. destruct (q_elems q); [|done]. split; [done|constructor]. }
  destruct (top_is_Some q) as [x Hx]; [lia|]. rewrite Hx.
  rewrite (top_size q x Hx) in Hn. destruct (IH (q_pop q)) as [Hp Hs]; [lia|].
  destruct (top_Some q x Hx) as [Hq Hmax]. split; [by rewrite Hp, Hq|].
  constructor; [done|]. apply Forall_forall. intros y Hy. apply Hmax. rewrite Hq, <- Hp. by right.
Qed.

Lemma length_drain q : length (q_drain q) = q_size q.
Proof. unfold q_size. apply Permutation_length, drain_spec. Qed.

(** A queue filled from a list. *)
Definition q_fill (l : list entry) q : Q := foldl (λ q x, q_emplace x q) q l.

Lemma elems_fill l q : q_elems (q_fill l q) ≡ₚ l ++ q_elems q.
Proof.
  unfold q_fill. revert q. induction l as [|x l IH]; intros q; [done|]. cbn.
  rewrite IH, elems_emplace. by rewrite Permutation_middle.
Qed.
End Queue.

(** ** A queue that keeps the laws: a list and its first entry at the greatest distance *)
Fixpoint farthest (l : list entry) : option (entry * list entry) :=
  match l with
  | [] => None
  | x :: l' =>
      match farthest l' with
      | None => Some (x, [])
      | Some (y, rest) => if y.1 <=? x.1 then Some (x, l') else Some (y, x :: rest)
      end
  end.

#[export] Instance list_queue : MaxQueue (list entry) := {
  q_empty := [];
  q_emplace x q := q ++ [x];
  q_top q := fst <$> farthest q;
  q_pop q := match farthest q with Some (_, rest) => rest | None => [] end;
  q_elems q := q;
}.

Lemma farthest_None l : farthest l = None → l = [].
Proof. destruct l as [|x l]; [done|]. cbn. destruct (farthest l) as [[y rest]|]; [|done]. by destruct (_ <=? _). Qed.

Lemma farthest_Some l x rest :
  farthest l = Some (x, rest) → l ≡ₚ x :: rest ∧ ∀ y, y ∈ l → y.1 ≤ x.1.
Proof.
  revert x rest. induction l as [|z l IH]; intros x rest; [done|]. cbn.
  destruct (farthest l) as [[y rest']|] eqn:E.
  - destruct (IH y rest' eq_refl) as [Hp Hmax]. destruct (Z.leb_spec y.1 z.1); intros [= <- <-].
    + split; [done|]. intros w [->|Hw]%elem_of_cons; [done|]. specialize (Hmax w Hw). lia.
    + split; [rewrite Hp; apply Permutation_swap|]. intros w [->|Hw]%elem_of_cons; [lia|by apply Hmax].
  - intros [= <- <-]. apply farthest_None in E as ->. split; [done|].
    by intros w ->%list_elem_of_singleton.
Qed.

#[export] Instance list_queue_laws : MaxQueueLaws (list entry).
Proof.
  split; cbn.
  - done.
  - intros x q. by rewrite Permutation_app_comm.
  - intros q Hq. destruct (farthest q) eqn:E; [done|]. by apply farthest_None.
  - intros q x Hq. destruct (farthest q) as [[y rest]|] eqn:E; [|done]. injection Hq as ->.
    by apply farthest_Some.
Qed.
