(* ===== verification/Bruteforce.v ===== *)
(** The brute-force vector index of src/hnsw/hnsw_scratch/bruteforce.hpp with the
    algorithm interface of hnswlib.hpp.

    [data_] is the block of memory itself: slot [i] is the [data_size_] bytes of a vector
    and the eight of its label, from [element_stride_ * i] on.  [dist_t] and
    [label_type] are not defined by the repository; labels are [size_t], as the comments
    of hnsw_core.hpp say.  The assertion of [SearchKNN] names an undeclared [k] and only
    compiles with assertions off, so it checks nothing. *)

From S2P Require Import Prelude Bytes Memory NearestQueue.

Record BruteforceSearch := mkIndex {
  data_ : memory;
  data_size_ : Z;
  element_count_ : Z;
  element_stride_ : Z;
  capacity_ : Z;
  index_lock : mutex;
  label_to_index_ : gmap Z Z;
}.

#[export] Instance index_has_mutex : HasMutex BruteforceSearch := {
  mtx := index_lock;
  set_mtx m s := mkIndex (data_ s) (data_size_ s) (element_count_ s) (element_stride_ s) (capacity_ s) m (label_to_index_ s);
}.

Definition set_data (d : memory) (s : BruteforceSearch) : BruteforceSearch :=
  mkIndex d (data_size_ s) (element_count_ s) (element_stride_ s) (capacity_ s) (index_lock s) (label_to_index_ s).
Definition set_element_count (n : Z) (s : BruteforceSearch) : BruteforceSearch :=
  mkIndex (data_ s) (data_size_ s) n (element_stride_ s) (capacity_ s) (index_lock s) (label_to_index_ s).
Definition set_labels (m : gmap Z Z) (s : BruteforceSearch) : BruteforceSearch :=
  mkIndex (data_ s) (data_size_ s) (element_count_ s) (element_stride_ s) (capacity_ s) (index_lock s) m.

Definition label_size : Z := 8.

Section Index.
Context {LP : LockPolicy}.
(** The space: the size of a vector and its distance function; [dist_max] is
    [std::numeric_limits<dist_t>::max()].  [malloc] gives a block with some contents or
    nothing.  [stale] is what reading an erased map entry gives, undefined by the
    language: [None], or a value that happens to be there. *)
Context (space_data_size : Z) (distance : list byte → list byte → Z) (dist_max : Z)
        (malloc : Z → option memory) (stale : Z → option Z).
Abbreviation MB := (M BruteforceSearch).

(** The constructor of an index to be loaded, and the one of a new index. *)
Definition index_empty : BruteforceSearch := mkIndex [] 0 0 0 0 [] ∅.

Definition index_new (maxElements : Z) : exn + BruteforceSearch :=
  let stride := size_add space_data_size label_size in
  match malloc (size_mul maxElements stride) with
  | None => inl (runtime_error "Not enough memory: BruteforceSearch failed to allocate data")
  | Some d => inr (mkIndex d space_data_size 0 stride maxElements [] ∅)
  end.

(** Access to [data_], running into undefined behaviour outside. *)
Definition load (n pos : Z) : MB (list byte) := λ s,
  match read_mem n pos (data_ s) with Some bs => Done bs s | None => Undef end.
Definition store (pos : Z) (bs : list byte) : MB unit := λ s,
  match write_mem pos bs (data_ s) with Some d => Done tt (set_data d s) | None => Undef end.

(** The slot of a label, a new one when it has none. *)
Definition find_slot (label : Z) : MB Z :=
  s ← get;
  match label_to_index_ s !! label with
  | Some i => mret (wraps 32 i)
  | None =>
      if capacity_ s <=? element_count_ s
      then throw (runtime_error "The number of elements exceeds the specified limit")
      else
        let idx := wraps 32 (element_count_ s) in
        modify (λ s, set_labels (<[label := wrapu 64 idx]> (label_to_index_ s)) s) ;;
        modify (λ s, set_element_count (size_add (element_count_ s) 1) s) ;;
        mret idx
  end.

Definition addPoint (datapoint : list byte) (label : Z) : MB unit :=
  idx ← guarded Un (find_slot label);
  s ← get;
  let at_ := size_mul (element_stride_ s) (wrapu 64 idx) in
  store (size_add at_ (data_size_ s)) (le_bytes 8 label) ;;
  match read_mem (data_size_ s) 0 datapoint with
  | Some v => store at_ v
  | None => undef
  end.

Definition removePoint (cur_external : Z) : MB unit :=
  guarded Un (
    s ← get;
    match label_to_index_ s !! cur_external with
    | None => mret tt
    | Some second =>
        modify (λ s, set_labels (delete cur_external (label_to_index_ s)) s) ;;
        match stale second with
        | None => undef
        | Some cur_c =>
            let last := size_mul (element_stride_ s) (wrapu 64 (element_count_ s - 1)) in
            lb ← load label_size (size_add last (data_size_ s));
            let label := le_val lb in
            modify (λ s, set_labels (<[label := cur_c]> (label_to_index_ s)) s) ;;
            bs ← load (size_add (data_size_ s) label_size) last;
            store (size_mul (element_stride_ s) cur_c) bs ;;
            modify (λ s, set_element_count (wrapu 64 (element_count_ s - 1)) s)
        end
    end).

(** What the loops read of slot [i]: its distance to the query, and its label. *)
Definition slot_dist (query : list byte) (i : nat) : MB Z :=
  s ← get;
  v ← load (data_size_ s) (size_mul (element_stride_ s) (Z.of_nat i));
  mret (distance query v).

Definition slot_label (i : nat) : MB Z :=
  s ← get;
  lb ← load label_size (size_add (size_mul (element_stride_ s) (Z.of_nat i)) (data_size_ s));
  mret (le_val lb).

Definition allowed (filter : option (Z → bool)) (label : Z) : bool :=
  match filter with None => true | Some f => f label end.

Fixpoint search_first (query : list byte) (filter : option (Z → bool)) (is_ : list nat) (topResults : queue) : MB queue :=
  match is_ with
  | [] => mret topResults
  | i :: is_' =>
      dist ← slot_dist query i;
      label ← slot_label i;
      search_first query filter is_' (if allowed filter label then emplace (dist, label) topResults else topResults)
  end.

Fixpoint search_rest (query : list byte) (K : nat) (filter : option (Z → bool)) (is_ : list nat)
    (topResults : queue) (lastdist : Z) : MB queue :=
  match is_ with
  | [] => mret topResults
  | i :: is_' =>
      dist ← slot_dist query i;
      if dist <=? lastdist then
        label ← slot_label i;
        let q := if allowed filter label then emplace (dist, label) topResults else topResults in
        let q := if (K <? length q)%nat then tail q else q in
        let lastdist := match top q with Some t => t.1 | None => lastdist end in
        search_rest query K filter is_' q lastdist
      else search_rest query K filter is_' topResults lastdist
  end.

Definition SearchKNN (query : list byte) (K : nat) (filter : option (Z → bool)) : MB queue :=
  s ← get;
  if element_count_ s =? 0 then mret []
  else
    topResults ← search_first query filter (seq 0 K) [];
    let lastdist := match top topResults with Some t => t.1 | None => dist_max end in
    search_rest query K filter (seq K (Z.to_nat (element_count_ s) - K)) topResults lastdist.

(** hnswlib.hpp: the same results from the closest to the farthest; [result] is filled
    from its end. *)
Fixpoint fill_back (i : nat) (heap : queue) (result : list entry) : option (list entry) :=
  match i with
  | O => Some result
  | S i' => t ← top heap; heap' ← pop heap; fill_back i' heap' (<[i' := t]> result)
  end.

Definition SearchKNNCloserFirst (query : list byte) (K : nat) (filter : option (Z → bool)) : MB (list entry) :=
  heap ← SearchKNN query K filter;
  match fill_back (length heap) heap (replicate (length heap) (0, 0)) with
  | Some result => mret result
  | None => undef
  end.

(** ** Files *)
Definition saveIndex (s : BruteforceSearch) : option (list byte) :=
  block ← read_mem (size_mul (capacity_ s) (element_stride_ s)) 0 (data_ s);
  Some (writeBinaryPOD 8 (capacity_ s) ++ writeBinaryPOD 8 (element_stride_ s) ++
        writeBinaryPOD 8 (element_count_ s) ++ block).

(** A failed allocation leaves the null pointer and the fields that were read. *)
Definition loadIndex (input : list byte) : MB unit := λ s,
  let (capacity, input) := readBinaryPOD 8 (capacity_ s) input in
  let (_, input) := readBinaryPOD 8 (element_stride_ s) input in
  let (count, input) := readBinaryPOD 8 (element_count_ s) input in
  let stride := size_add space_data_size label_size in
  let loaded d := mkIndex d space_data_size count stride capacity (index_lock s) (label_to_index_ s) in
  match malloc (size_mul capacity stride) with
  | None => Throw (runtime_error "Not enough memory: loadIndex failed to allocate data") (loaded [])
  | Some d => Done tt (loaded (read_over input d).1)
  end.

(** The constructor that loads a saved index. *)
Definition index_open (location : list byte) : outcome BruteforceSearch unit := loadIndex location index_empty.
End Index.

(** ** Slots *)
Abbreviation slot := (list byte * Z)%type.

Section Slots.
Context {LP : LockPolicy} (space_data_size : Z) (distance : list byte → list byte → Z) (dist_max : Z).
Abbreviation stride := (space_data_size + 8).
Implicit Types (s : BruteforceSearch) (slots : list slot).

Definition slot_ok (p : slot) : Prop := Z.of_nat (length p.1) = space_data_size ∧ 0 ≤ p.2 < 2 ^ 64.

(** The block fits the address space and the indices an [int]. *)
Definition dims_ok (cap : Z) : Prop :=
  0 ≤ space_data_size ∧ stride < 2 ^ 64 ∧ 0 ≤ cap < 2 ^ 31 ∧ cap * stride < 2 ^ 64.

(** The block holds the slots. *)
Record stored (cap : Z) slots s : Prop := {
  st_dims : dims_ok cap;
  st_data_size : data_size_ s = space_data_size;
  st_stride : element_stride_ s = stride;
  st_capacity : capacity_ s = cap;
  st_count : element_count_ s = Z.of_nat (length slots);
  st_room : Z.of_nat (length slots) ≤ cap;
  st_mem : Z.of_nat (length (data_ s)) = cap * stride;
  st_slots : ∀ i p, slots !! i = Some p →
    slot_ok p ∧ reads (data_ s) (stride * Z.of_nat i) (p.1 ++ le_bytes 8 p.2);
}.

(** And the map knows them. *)
Record rep (cap : Z) slots s : Prop := {
  rp_stored : stored cap slots s;
  rp_free : index_lock s = [];
  rp_labels : ∀ l i, label_to_index_ s !! l = Some i ↔ 0 ≤ i ∧ ∃ v, slots !! Z.to_nat i = Some (v, l);
}.

Lemma offset_range cap i : dims_ok cap → 0 ≤ i < cap → 0 ≤ stride * i ∧ stride * i + stride ≤ cap * stride < 2 ^ 64.
Proof. intros (H1 & H2 & H3 & H4) Hi. split; [nia|]. split; [nia|done]. Qed.

Lemma offset_small cap i : dims_ok cap → 0 ≤ i < cap → size_mul stride (wrapu 64 i) = stride * i.
Proof.
  intros Hd Hi. pose proof (offset_range cap i Hd Hi). destruct Hd as (H1 & H2 & H3 & H4).
  unfold size_mul. rewrite (wrapu_small 64 i), wrapu_small by lia. done.
Qed.

Lemma offset_small_nat cap i : dims_ok cap → Z.of_nat i < cap → size_mul stride (Z.of_nat i) = stride * Z.of_nat i.
Proof.
  intros Hd Hi. rewrite <- (offset_small cap) by (done || lia). f_equal. destruct Hd as (H1 & H2 & H3 & H4).
  rewrite wrapu_small; lia.
Qed.

Lemma label_offset cap i : dims_ok cap → 0 ≤ i < cap → size_add (stride * i) space_data_size = stride * i + space_data_size.
Proof.
  intros Hd Hi. pose proof (offset_range cap i Hd Hi). destruct Hd as (H1 & H2 & H3 & H4).
  unfold size_add. rewrite wrapu_small; lia.
Qed.

Lemma load_reads n pos bs s : reads (data_ s) pos bs → n = Z.of_nat (length bs) → load n pos s = Done bs s.
Proof.
  intros Hr ->. unfold load. assert (read_mem (Z.of_nat (length bs)) pos (data_ s) = Some bs) as ->; [|done].
  by apply read_mem_reads.
Qed.

(** Filling a slot, label first, as [addPoint] does. *)
Lemma fill_slot cap slots s i p :
  dims_ok cap → Z.of_nat (length (data_ s)) = cap * stride → Z.of_nat i < cap → slot_ok p →
  ∃ mem, (store (stride * Z.of_nat i + space_data_size) (le_bytes 8 p.2) ;; store (stride * Z.of_nat i) p.1) s
      = Done tt (set_data mem s) ∧
    length mem = length (data_ s) ∧ reads mem (stride * Z.of_nat i) (p.1 ++ le_bytes 8 p.2) ∧
    ∀ j q, i ≠ j → slot_ok q → reads (data_ s) (stride * Z.of_nat j) (q.1 ++ le_bytes 8 q.2) →
      reads mem (stride * Z.of_nat j) (q.1 ++ le_bytes 8 q.2).
Proof.
  intros (H1 & H2 & H3 & H4) Hmem Hi [Hlen Hl].
  destruct (write_mem_spec (stride * Z.of_nat i + space_data_size) (le_bytes 8 p.2) (data_ s))
    as (m1 & Hw1 & L1 & R1 & K1); [nia|rewrite length_le_bytes; nia|].
  destruct (write_mem_spec (stride * Z.of_nat i) p.1 m1) as (m2 & Hw2 & L2 & R2 & K2); [nia|nia|].
  rewrite length_le_bytes in K1. exists m2. split_and!.
  - erewrite bind_Done; [|unfold store; by rewrite Hw1]. unfold store. cbn [data_ set_data]. by rewrite Hw2.
  - congruence.
  - apply reads_app. split; [done|]. apply K2; [lia|]. by rewrite Hlen.
  - intros j q Hij [Hlq _] Hr.
    assert (stride * Z.of_nat i + stride ≤ stride * Z.of_nat j ∨
            stride * Z.of_nat j + stride ≤ stride * Z.of_nat i) as Hsep.
    { destruct (Nat.lt_total i j) as [|[|]]; [left; nia|done|right; nia]. }
    apply K2; [|apply K1; [|done]]; rewrite length_app, length_le_bytes; lia.
Qed.
(** *** Adding *)
Definition find_label (l : Z) slots : option nat := fst <$> list_find (λ p : slot, p.2 = l) slots.

(** The slots after a vector is put in under a label. *)
Definition put (v : list byte) (l : Z) slots : list slot :=
  match find_label l slots with
  | Some i => <[i := (v, l)]> slots
  | None => slots ++ [(v, l)]
  end.

Lemma find_label_Some l slots i : find_label l slots = Some i → ∃ v, slots !! i = Some (v, l).
Proof.
  unfold find_label. intros Hf. apply fmap_Some in Hf as ([k [v l']] & Hf & ->).
  apply list_find_Some in Hf as (Hk & Hl & _). cbn in *. subst l'. by exists v.
Qed.

Lemma find_label_None l slots i v : find_label l slots = None → slots !! i ≠ Some (v, l).
Proof.
  unfold find_label. intros Hf%fmap_None Hi. apply list_find_None in Hf.
  rewrite Forall_forall in Hf. by apply (Hf (v, l)); [eapply list_elem_of_lookup_2|].
Qed.

Lemma rep_find cap slots s l : rep cap slots s → label_to_index_ s !! l = Z.of_nat <$> find_label l slots.
Proof.
  intros [_ _ Hlab]. destruct (find_label l slots) as [i|] eqn:Hf; cbn.
  - apply find_label_Some in Hf as [v Hv]. apply Hlab. split; [lia|]. exists v. by rewrite Nat2Z.id.
  - destruct (label_to_index_ s !! l) as [i|] eqn:Hi; [|done]. apply Hlab in Hi as (_ & v & Hv).
    by apply (find_label_None _ _ (Z.to_nat i) v) in Hf.
Qed.

(** Writing slot [i] when the count and the map are already right. *)
Lemma write_slot cap slots slots' s s1 i p :
  stored cap slots s → data_ s1 = data_ s → data_size_ s1 = space_data_size → element_stride_ s1 = stride →
  capacity_ s1 = cap → element_count_ s1 = Z.of_nat (length slots') → (i < length slots')%nat →
  Z.of_nat (length slots') ≤ cap → slot_ok p →
  (∀ j q, slots' !! j = Some q → (j = i ∧ q = p) ∨ (i ≠ j ∧ slots !! j = Some q)) →
  ∃ mem, (store (stride * Z.of_nat i + space_data_size) (le_bytes 8 p.2) ;; store (stride * Z.of_nat i) p.1) s1
      = Done tt (set_data mem s1) ∧ stored cap slots' (set_data mem s1).
Proof.
  intros [Hd _ _ _ _ _ Hmem Hslots] Hdata H1 H2 H3 H4 Hi Hroom Hp Hsub. rewrite <- Hdata in Hmem.
  destruct (fill_slot cap slots s1 i p Hd Hmem) as (mem & Hrun & Hlen & Hr & Hkeep); [lia|done|].
  exists mem. split; [done|]. split; try done; [cbn; lia|]. intros j q Hq.
  destruct (Hsub j q Hq) as [[-> ->]|[Hij Hj]]; [done|].
  destruct (Hslots j q Hj) as [Hok Hrd]. split; [done|]. apply Hkeep; [done|done|]. by rewrite Hdata.
Qed.

Lemma addPoint_at cap s v l i :
  slot_ok (v, l) → dims_ok cap → Z.of_nat i < cap → data_size_ s = space_data_size → element_stride_ s = stride →
  (s0 ← get;
   let at_ := size_mul (element_stride_ s0) (wrapu 64 (wraps 32 (Z.of_nat i))) in
   store (size_add at_ (data_size_ s0)) (le_bytes 8 l) ;;
   match read_mem (data_size_ s0) 0 v with Some v => store at_ v | None => undef end) s =
  (store (stride * Z.of_nat i + space_data_size) (le_bytes 8 l) ;; store (stride * Z.of_nat i) v) s.
Proof.
  intros [Hv _] Hd Hi H1 H2. rewrite bind_get. cbn beta zeta. rewrite H1, H2.
  assert (wraps 32 (Z.of_nat i) = Z.of_nat i) as -> by (apply wraps_small; [lia|]; destruct Hd; lia).
  rewrite (offset_small cap), (label_offset cap) by (done || lia).
  assert (read_mem space_data_size 0 v = Some v) as ->; [|done].
  apply read_mem_reads. split; [done|]. split_and!; [lia|cbn in Hv; lia|]. intros k Hk. done.
Qed.

Lemma put_in_lookup v l slots i j q :
  find_label l slots = Some i → put v l slots !! j = Some q →
  (j = i ∧ q = (v, l)) ∨ (i ≠ j ∧ slots !! j = Some q).
Proof.
  intros Hf. unfold put. rewrite Hf. intros Hj.
  apply list_lookup_insert_Some in Hj as [(<- & <- & _)|[? ?]]; [by left|by right].
Qed.

Lemma put_new_lookup v l slots j q :
  find_label l slots = None → put v l slots !! j = Some q →
  (j = length slots ∧ q = (v, l)) ∨ (length slots ≠ j ∧ slots !! j = Some q).
Proof.
  intros Hf. unfold put. rewrite Hf. intros Hj.
  destruct (Nat.lt_trichotomy j (length slots)) as [Hlt|[->|Hgt]].
  - rewrite lookup_app_l in Hj by done. right. split; [lia|done].
  - rewrite lookup_app_r, Nat.sub_diag in Hj by done. injection Hj as <-. by left.
  - apply lookup_lt_Some in Hj. rewrite length_app in Hj. cbn in Hj. lia.
Qed.
(** [addPoint] of a known label, of a new one, and of a new one to a full index. *)
Lemma addPoint_known cap slots s v l i :
  rep cap slots s → slot_ok (v, l) → find_label l slots = Some i →
  ∃ s', addPoint v l s = Done tt s' ∧ rep cap (put v l slots) s'.
Proof.
  intros Hr Hok Hf. pose proof Hr as [Hst Hfree Hlab]. pose proof (rep_find _ _ _ l Hr) as Hl. rewrite Hf in Hl.
  assert (i < length slots)%nat as Hi by (apply find_label_Some in Hf as [? ?]; by eapply lookup_lt_Some).
  assert (length (put v l slots) = length slots) as Hlen by (unfold put; rewrite Hf; apply length_insert).
  pose proof Hst as [Hd H1 H2 H3 H4 Hroom Hmem _].
  assert (guarded Un (find_slot l) s = Done (wraps 32 (Z.of_nat i)) s) as Hslot.
  { rewrite guarded_free by done. unfold find_slot. rewrite bind_get. cbn. rewrite Hl. cbn.
    destruct s; cbn in *; by subst. }
  destruct (write_slot cap slots (put v l slots) s s i (v, l)) as (mem & Hrun & Hst'); try done;
    [by rewrite Hlen|by rewrite Hlen|by rewrite Hlen|intros j q; by apply put_in_lookup|].
  exists (set_data mem s). split.
  { unfold addPoint. rewrite (bind_Done _ _ _ _ _ Hslot). erewrite addPoint_at; try done. lia. }
  split; [done|done|]. intros l' i'. cbn [label_to_index_ set_data]. rewrite Hlab. unfold put. rewrite Hf.
  apply find_label_Some in Hf as [v0 Hv0]. apply and_iff_compat_l.
  destruct (decide (Z.to_nat i' = i)) as [->|Hne]; [rewrite Hv0, list_lookup_insert_eq by done|by rewrite list_lookup_insert_ne].
  split; intros [w [= ? ?]]; subst; by eexists.
Qed.

Lemma addPoint_new cap slots s v l :
  rep cap slots s → slot_ok (v, l) → find_label l slots = None → Z.of_nat (length slots) < cap →
  ∃ s', addPoint v l s = Done tt s' ∧ rep cap (put v l slots) s'.
Proof.
  intros Hr Hok Hf Hroom. pose proof Hr as [Hst Hfree Hlab]. pose proof (rep_find _ _ _ l Hr) as Hl. rewrite Hf in Hl.
  pose proof Hst as [Hd H1 H2 H3 H4 _ Hmem _]. set (n := length slots) in *.
  assert (length (put v l slots) = S n) as Hlen by (unfold put; rewrite Hf, length_app; cbn; lia).
  assert (0 ≤ Z.of_nat n < 2 ^ 31) as Hn by (destruct Hd; lia).
  set (s1 := set_element_count (Z.of_nat (S n)) (set_labels (<[l := Z.of_nat n]> (label_to_index_ s)) s)).
  assert (guarded Un (find_slot l) s = Done (wraps 32 (Z.of_nat n)) s1) as Hslot.
  { rewrite guarded_free by done. unfold find_slot. rewrite bind_get. cbn. rewrite Hl, H3, H4. cbn.
    destruct (Z.leb_spec cap (Z.of_nat n)); [lia|]. unfold modify, mbind, M_bind, mret, M_ret. cbn.
    rewrite (wraps_small 32 (Z.of_nat n)), (wrapu_small 64 (Z.of_nat n)) by lia. unfold size_add.
    rewrite wrapu_small by lia. replace (Z.of_nat n + 1) with (Z.of_nat (S n)) by lia.
    unfold s1, set_element_count, set_labels. cbn. by rewrite Hfree, H3. }
  destruct (write_slot cap slots (put v l slots) s s1 n (v, l)) as (mem & Hrun & Hst'); try done;
    [by rewrite Hlen|by rewrite Hlen; lia|by rewrite Hlen; lia|intros j q; by apply put_new_lookup|].
  exists (set_data mem s1). split.
  { unfold addPoint. rewrite (bind_Done _ _ _ _ _ Hslot). erewrite addPoint_at; try done. }
  split; [done|done|]. intros l' i'. cbn [label_to_index_ set_data s1 set_element_count set_labels].
  assert (put v l slots = slots ++ [(v, l)]) as -> by (unfold put; by rewrite Hf).
  destruct (decide (l' = l)) as [->|Hne].
  - rewrite lookup_insert_eq. split.
    + intros [= <-]. split; [lia|]. exists v. rewrite Nat2Z.id. by apply list_lookup_middle.
    + intros (Hi' & w & Hw). f_equal. destruct (Nat.lt_trichotomy (Z.to_nat i') n) as [Hlt|[Heq|Hgt]]; [|lia|].
      * rewrite lookup_app_l in Hw by done. by apply (find_label_None _ _ (Z.to_nat i') w) in Hf.
      * apply lookup_lt_Some in Hw. rewrite length_app in Hw. cbn in Hw. lia.
  - rewrite lookup_insert_ne, Hlab by done. apply and_iff_compat_l.
    destruct (Nat.lt_trichotomy (Z.to_nat i') n) as [Hlt|[Heq|Hgt]].
    + by rewrite lookup_app_l.
    + rewrite Heq, list_lookup_middle, (lookup_ge_None_2 slots) by (unfold n; lia).
      split; intros [w Hw]; [done|congruence].
    + rewrite (lookup_ge_None_2 slots), (lookup_ge_None_2 (slots ++ [(v, l)])); [done| |];
        rewrite ?length_app; cbn; unfold n in *; lia.
Qed.

Lemma addPoint_full cap slots s v l :
  rep cap slots s → find_label l slots = None → Z.of_nat (length slots) = cap →
  addPoint v l s = Throw (runtime_error "The number of elements exceeds the specified limit") s.
Proof.
  intros Hr Hf Hroom. pose proof Hr as [Hst Hfree Hlab]. pose proof (rep_find _ _ _ l Hr) as Hl. rewrite Hf in Hl.
  pose proof Hst as [Hd H1 H2 H3 H4 _ Hmem _].
  unfold addPoint. erewrite bind_Throw; [reflexivity|]. rewrite guarded_free by done. unfold find_slot.
  rewrite bind_get. cbn. rewrite Hl, H3, H4. cbn. destruct (Z.leb_spec cap (Z.of_nat (length slots))); [|lia].
  unfold throw. destruct s; cbn in *; by subst.
Qed.
(** *** Searching *)
Definition entry_of (query : list byte) (p : slot) : entry := (distance query p.1, p.2).

Definition allowed_slots (flt : option (Z → bool)) slots : list slot :=
  filter (λ p : slot, allowed flt p.2 = true) slots.

Lemma slot_reads cap slots s i p :
  stored cap slots s → slots !! i = Some p →
  Z.of_nat i < cap ∧ slot_ok p ∧ reads (data_ s) (stride * Z.of_nat i) p.1 ∧
  reads (data_ s) (stride * Z.of_nat i + space_data_size) (le_bytes 8 p.2).
Proof.
  intros [Hd _ _ _ _ Hroom _ Hslots] Hi. destruct (Hslots i p Hi) as [Hok [Hr1 Hr2]%reads_app].
  apply lookup_lt_Some in Hi. split; [lia|]. split; [done|]. split; [done|]. by rewrite (proj1 Hok) in Hr2.
Qed.

Lemma slot_dist_run cap slots s query i p :
  stored cap slots s → slots !! i = Some p → slot_dist distance query i s = Done (distance query p.1) s.
Proof.
  intros Hst Hi. destruct (slot_reads _ _ _ _ _ Hst Hi) as (Hlt & [Hlen _] & Hr & _).
  destruct Hst as [Hd H1 H2 _ _ _ _ _]. unfold slot_dist. rewrite bind_get. cbn beta.
  rewrite H1, H2, (offset_small_nat cap) by done.
  by rewrite (bind_Done _ _ _ _ _ (load_reads _ _ _ _ Hr ltac:(done))).
Qed.

Lemma slot_label_run cap slots s i p :
  stored cap slots s → slots !! i = Some p → slot_label i s = Done p.2 s.
Proof.
  intros Hst Hi. destruct (slot_reads _ _ _ _ _ Hst Hi) as (Hlt & [_ Hl] & _ & Hr).
  destruct Hst as [Hd H1 H2 _ _ _ _ _]. unfold slot_label. rewrite bind_get. cbn beta.
  rewrite H1, H2, (offset_small_nat cap), (label_offset cap) by (done || lia).
  rewrite (bind_Done _ _ _ _ _ (load_reads _ _ _ _ Hr ltac:(by rewrite length_le_bytes))).
  rewrite le_val_le_bytes, wrapu_small by done. done.
Qed.

Lemma search_first_run cap slots s query flt is_ ps : ∀ q,
  stored cap slots s → Forall2 (λ i p, slots !! i = Some p) is_ ps →
  search_first distance query flt is_ q s =
    Done (foldl (λ q x, emplace x q) q (entry_of query <$> allowed_slots flt ps)) s.
Proof.
  intros q Hst Hps. revert q. induction Hps as [|i p is_ ps Hi Hps IH]; intros q; [done|]. cbn [search_first].
  rewrite (bind_Done _ _ _ _ _ (slot_dist_run _ _ _ query _ _ Hst Hi)).
  rewrite (bind_Done _ _ _ _ _ (slot_label_run _ _ _ _ _ Hst Hi)), IH. unfold allowed_slots.
  rewrite filter_cons. destruct (allowed flt p.2) eqn:Ha; [by rewrite decide_True|by rewrite decide_False].
Qed.

Lemma search_rest_run cap slots s query K flt is_ ps : ∀ seen lastdist,
  stored cap slots s → Forall2 (λ i p, slots !! i = Some p) is_ ps → (K ≤ length seen)%nat →
  (∀ t, top (nearest K seen) = Some t → lastdist = t.1) →
  search_rest distance query K flt is_ (nearest K seen) lastdist s =
    Done (nearest K (seen ++ (entry_of query <$> allowed_slots flt ps))) s.
Proof.
  intros seen lastdist Hst Hps. revert seen lastdist. unfold allowed_slots.
  induction Hps as [|i p is_ ps Hi Hps IH]; intros seen lastdist HK Htop; cbn [search_rest].
  { by rewrite app_nil_r. }
  rewrite (bind_Done _ _ _ _ _ (slot_dist_run _ _ _ query _ _ Hst Hi)).
  assert (length (nearest K seen) = K) as Hlen by (rewrite length_nearest; lia).
  rewrite filter_cons.
  destruct (Z.leb_spec (distance query p.1) lastdist) as [Hle|Hgt].
  - rewrite (bind_Done _ _ _ _ _ (slot_label_run _ _ _ _ _ Hst Hi)).
    destruct (allowed flt p.2) eqn:Ha.
    + rewrite decide_True by done. change (distance query p.1, p.2) with (entry_of query p).
      change (if (K <? _)%nat then _ else _) with (trim K (emplace (entry_of query p) (nearest K seen))).
      rewrite <- nearest_snoc, IH; [|rewrite length_app; lia|].
      * rewrite <- app_assoc. done.
      * intros t Ht. by rewrite Ht.
    + rewrite decide_False by done. rewrite Hlen, Nat.ltb_irrefl. rewrite IH; [done|done|].
      intros t Ht. by rewrite Ht.
  - destruct (allowed flt p.2) eqn:Ha; [rewrite decide_True by done|rewrite decide_False by done; by apply IH].
    assert (nearest K (seen ++ [entry_of query p]) = nearest K seen) as Hsame.
    { rewrite nearest_snoc. destruct (nearest K seen) as [|t q] eqn:Hq.
      - cbn in Hlen. subst K. done.
      - rewrite <- Hq. apply (trim_emplace_above K _ _ t); [by rewrite Hq|by rewrite Hq|apply nearest_descending|].
        cbn. specialize (Htop t eq_refl). lia. }
    rewrite <- Hsame, IH; [by rewrite <- app_assoc|rewrite length_app; lia|by rewrite Hsame].
Qed.

Lemma seq_slots slots a n : (a + n ≤ length slots)%nat → Forall2 (λ i p, slots !! i = Some p) (seq a n) (take n (drop a slots)).
Proof.
  intros Hlen. apply Forall2_same_length_lookup. split; [rewrite length_seq, length_take, length_drop; lia|].
  intros j i p Hi Hp. apply lookup_seq in Hi as [-> Hj]. by rewrite lookup_take_lt, lookup_drop in Hp by done.
Qed.

(** When the filter lets the first [K] through, the search finds the [K] nearest allowed ones. *)
Lemma search_run cap slots s query K flt :
  stored cap slots s → (K ≤ length slots)%nat → Forall (λ p : slot, allowed flt p.2 = true) (take K slots) →
  SearchKNN distance dist_max query K flt s =
    Done (nearest K (entry_of query <$> allowed_slots flt slots)) s.
Proof.
  intros Hst HK Hall. unfold SearchKNN. rewrite bind_get. cbn beta. rewrite (st_count _ _ _ Hst).
  destruct (Z.eqb_spec (Z.of_nat (length slots)) 0) as [H0|H0].
  { destruct slots; [|cbn in H0; lia]. by destruct K. }
  assert (allowed_slots flt (take K slots) = take K slots) as Hfirst.
  { unfold allowed_slots. clear -Hall. induction Hall as [|p ps Hp _ IH]; [done|]. by rewrite filter_cons_True, IH. }
  pose proof (search_first_run cap slots s query flt (seq 0 K) (take K slots) []) as Hrun.
  pose proof (seq_slots slots 0 K HK) as Hs0. rewrite drop_0 in Hs0.
  rewrite (bind_Done _ _ _ _ _ (Hrun Hst Hs0)). clear Hrun Hs0.
  change (foldl (λ q x, emplace x q) [] ?l) with (sort_queue l). rewrite Hfirst.
  assert (length (entry_of query <$> take K slots) = K) as Hlen by (rewrite length_fmap, length_take; lia).
  rewrite <- (nearest_all K) by lia. rewrite Nat2Z.id.
  rewrite (search_rest_run cap slots s query K flt (seq K (length slots - K)) (drop K slots)); [|done| | |].
  - f_equal. rewrite <- Hfirst, <- fmap_app. unfold allowed_slots. by rewrite <- filter_app, take_drop.
  - pose proof (seq_slots slots K (length slots - K)) as Hs.
    rewrite <- (firstn_all (drop K slots)), length_drop. apply Hs. lia.
  - lia.
  - intros t Ht. by rewrite Ht.
Qed.
(** *** The vectors of the index as a map *)
Definition holds slots (m : gmap Z (list byte)) : Prop :=
  NoDup slots.*2 ∧ ∀ l v, m !! l = Some v ↔ (v, l) ∈ slots.

Lemma holds_put slots m v l : holds slots m → holds (put v l slots) (<[l := v]> m).
Proof.
  intros [Hd Hm]. unfold put. destruct (find_label l slots) as [i|] eqn:Hf.
  - apply find_label_Some in Hf as [v0 Hi]. split.
    + rewrite list_fmap_insert. cbn. rewrite list_insert_id; [done|]. rewrite list_lookup_fmap, Hi. done.
    + intros l' v'. rewrite list_elem_of_lookup. destruct (decide (l' = l)) as [->|Hne].
      * rewrite lookup_insert_eq. split.
        -- intros [= <-]. exists i. apply list_lookup_insert_eq. by eapply lookup_lt_Some.
        -- intros [j Hj]. apply list_lookup_insert_Some in Hj as [(<- & [= <-] & _)|[Hji Hj]]; [done|].
           exfalso. apply Hji. eapply (NoDup_lookup slots.*2 i j l); [done| |]; rewrite list_lookup_fmap;
             [by rewrite Hi|by rewrite Hj].
      * rewrite lookup_insert_ne, Hm, list_elem_of_lookup by done. split; intros [j Hj]; exists j.
        -- rewrite list_lookup_insert_ne; [done|]. intros ->. congruence.
        -- apply list_lookup_insert_Some in Hj as [(_ & [= _ ?] & _)|[_ Hj]]; congruence.
  - assert (∀ w, (w, l) ∉ slots) as Hnew.
    { intros w [i Hi]%list_elem_of_lookup. by apply (find_label_None _ _ i w) in Hf. }
    split.
    + rewrite fmap_app. apply NoDup_app. split_and!; [done| |apply NoDup_singleton].
      intros l' ([w l''] & -> & Hin)%list_elem_of_fmap Hl%list_elem_of_singleton. cbn in Hl. subst. by eapply Hnew.
    + intros l' v'. rewrite elem_of_app, list_elem_of_singleton. destruct (decide (l' = l)) as [->|Hne].
      * rewrite lookup_insert_eq. split; [intros [= <-]; by right|]. intros [Hin|[= ->]]; [by apply Hnew in Hin|done].
      * rewrite lookup_insert_ne, Hm by done. split; [by left|]. intros [?|[= _ ?]]; [done|congruence].
Qed.

Lemma holds_entries slots m query :
  holds slots m →
  (entry_of query <$> slots) ≡ₚ ((λ p : Z * list byte, (distance query p.2, p.1)) <$> map_to_list m).
Proof.
  intros [Hd Hm]. assert (((λ p : slot, (p.2, p.1)) <$> slots) ≡ₚ map_to_list m) as Hp.
  { apply NoDup_Permutation; [|apply NoDup_map_to_list|].
    - apply (NoDup_fmap_1 fst). by rewrite <- list_fmap_compose.
    - intros [l v]. rewrite elem_of_map_to_list, Hm, list_elem_of_fmap. split.
      + by intros ([w l'] & [= -> ->] & Hin).
      + intros Hin. by exists (v, l). }
  rewrite <- Hp, <- list_fmap_compose. done.
Qed.

Lemma holds_size slots m : holds slots m → size m = length slots.
Proof.
  intros Hh. pose proof (holds_entries slots m [] Hh) as Hp. apply Permutation_length in Hp.
  rewrite !length_fmap in Hp. by rewrite Hp, length_map_to_list.
Qed.

(** Adding a list of points. *)
Fixpoint add_all (adds : list slot) : M BruteforceSearch unit :=
  match adds with
  | [] => mret tt
  | p :: adds' => addPoint p.1 p.2 ;; add_all adds'
  end.

Definition vectors (adds : list slot) (m : gmap Z (list byte)) : gmap Z (list byte) :=
  foldl (λ m p, <[p.2 := p.1]> m) m adds.

Lemma vectors_size adds : ∀ m, (size m ≤ size (vectors adds m))%nat.
Proof.
  unfold vectors. induction adds as [|p adds IH]; intros m; cbn [foldl]; [done|].
  etrans; [|apply IH]. destruct (m !! p.2) eqn:Hp.
  - rewrite map_size_insert_Some; [done|by eexists].
  - rewrite map_size_insert_None by done. lia.
Qed.

Lemma add_all_run cap adds : ∀ slots m s,
  rep cap slots s → holds slots m → Forall slot_ok adds → Z.of_nat (size (vectors adds m)) ≤ cap →
  ∃ slots' s', add_all adds s = Done tt s' ∧ rep cap slots' s' ∧ holds slots' (vectors adds m).
Proof.
  induction adds as [|[v l] adds IH]; intros slots m s Hr Hh Hok Hcap; [by exists slots, s|].
  apply Forall_cons in Hok as [Hp Hok]. cbn [vectors foldl fst snd] in *.
  assert (∃ s1, addPoint v l s = Done tt s1 ∧ rep cap (put v l slots) s1) as (s1 & Hrun & Hr1).
  { destruct (find_label l slots) as [i|] eqn:Hf; [by eapply addPoint_known|]. apply addPoint_new; try done.
    pose proof (vectors_size adds (<[l := v]> m)) as Hmono. pose proof (holds_put _ _ v l Hh) as Hh1.
    rewrite (holds_size _ _ Hh1) in Hmono. unfold put in Hmono. rewrite Hf, length_app in Hmono. cbn in Hmono.
    unfold vectors in *. lia. }
  destruct (IH _ _ s1 Hr1 (holds_put _ _ v l Hh) Hok Hcap) as (slots' & s2 & Hrun2 & Hr2 & Hh2).
  exists slots', s2. cbn [add_all fst snd]. by rewrite (bind_Done _ _ _ _ _ Hrun).
Qed.

Lemma fill_back_run i : ∀ heap result,
  i = length heap → (i ≤ length result)%nat → fill_back i heap result = Some (reverse heap ++ drop i result).
Proof.
  induction i as [|i IH]; intros [|t heap] result Hlen Hres; try done. cbn [fill_back top head pop mbind option_bind].
  cbn in Hlen. rewrite IH by (rewrite ?length_insert; lia). rewrite reverse_cons, <- app_assoc. do 2 f_equal.
  cbn. rewrite (drop_S _ t); [|apply list_lookup_insert_eq; lia]. by rewrite drop_insert_lt by lia.
Qed.
(** *** Removing *)
Lemma removePoint_absent stale s l :
  index_lock s = [] → label_to_index_ s !! l = None → removePoint stale l s = Done tt s.
Proof.
  intros Hfree Hl. unfold removePoint. rewrite guarded_free by done. rewrite bind_get. cbn. rewrite Hl. cbn.
  destruct s; cbn in *; by subst.
Qed.

(** The index is read through an iterator that [erase] has made invalid. *)
Lemma removePoint_undefined stale s l i :
  index_lock s = [] → label_to_index_ s !! l = Some i → stale i = None → removePoint stale l s = Undef.
Proof.
  intros Hfree Hl Hs. unfold removePoint. rewrite guarded_free by done. rewrite bind_get. cbn. rewrite Hl.
  unfold modify, mbind, M_bind. cbn. by rewrite Hs.
Qed.

(** When the erased entry is still there: the last slot is copied over the removed one,
    and its label - which may be the removed one - gets the removed slot. *)
Lemma removePoint_run cap slots s stale l i v q :
  rep cap slots s → slots !! i = Some (v, l) → slots !! (length slots - 1)%nat = Some q →
  stale (Z.of_nat i) = Some (Z.of_nat i) →
  ∃ mem, removePoint stale l s =
      Done tt (set_element_count (Z.of_nat (length slots - 1))
                 (set_data mem (set_labels (<[q.2 := Z.of_nat i]> (delete l (label_to_index_ s))) s))) ∧
    length mem = length (data_ s) ∧ reads mem (stride * Z.of_nat i) (q.1 ++ le_bytes 8 q.2) ∧
    ∀ j p, i ≠ j → slots !! j = Some p → reads mem (stride * Z.of_nat j) (p.1 ++ le_bytes 8 p.2).
Proof.
  intros Hr Hi Hq Hstale. pose proof Hr as [Hst Hfree Hlab].
  assert (label_to_index_ s !! l = Some (Z.of_nat i)) as Hl.
  { apply Hlab. split; [lia|]. exists v. by rewrite Nat2Z.id. }
  assert (i < length slots)%nat as Hlt by by eapply lookup_lt_Some.
  pose proof Hst as [Hd H1 H2 H3 H4 Hroom Hmem Hslots].
  destruct (slot_reads _ _ _ _ _ Hst Hq) as (Hqcap & [Hqlen Hql] & _ & Hqlab).
  destruct (Hslots _ _ Hq) as [_ Hqrd].
  assert (length (q.1 ++ le_bytes 8 q.2) = Z.to_nat stride) as Hlenq.
  { rewrite length_app, length_le_bytes. destruct Hd. lia. }
  pose proof (offset_range cap (Z.of_nat i) Hd ltac:(lia)) as Hoff.
  destruct (write_mem_spec (stride * Z.of_nat i) (q.1 ++ le_bytes 8 q.2) (data_ s)) as (mem & Hw & Lw & Rw & Kw);
    [lia|lia|].
  exists mem. split_and!; [|done|done|].
  - assert (wrapu 64 (Z.of_nat (length slots) - 1) = Z.of_nat (length slots - 1)) as Hlast.
    { rewrite wrapu_small; [lia|]. destruct Hd as (? & ? & ? & ?). lia. }
    assert (size_add space_data_size label_size = stride) as Hstride.
    { unfold size_add, label_size. rewrite wrapu_small; [done|]. destruct Hd. lia. }
    unfold removePoint. rewrite guarded_free by done. rewrite bind_get.
    cbn [label_to_index_ set_mtx index_has_mutex]. rewrite Hl.
    unfold modify at 1. erewrite bind_Done by reflexivity. rewrite Hstale.
    cbn zeta. cbn [element_stride_ element_count_ data_size_ set_mtx index_has_mutex]. rewrite H1, H2, H4, Hlast, Hstride.
    rewrite (offset_small_nat cap (length slots - 1)), (label_offset cap) by (done || lia).
    erewrite bind_Done; [|apply load_reads; [exact Hqlab|by rewrite length_le_bytes]].
    rewrite le_val_le_bytes, (wrapu_small _ q.2) by done. cbn zeta.
    unfold modify at 1. erewrite bind_Done by reflexivity.
    erewrite bind_Done; [|apply load_reads; [exact Hqrd|rewrite Hlenq; destruct Hd; lia]].
    rewrite (offset_small_nat cap i) by (done || lia).
    erewrite bind_Done; [|unfold store; cbn [data_ set_labels]; rewrite Hw; reflexivity].
    unfold modify, set_data, set_labels, set_element_count. cbn. by rewrite Hlast, Hfree, H1, H2.
  - intros j p Hij Hj. destruct (Hslots _ _ Hj) as [[Hpl _] Hrd]. apply Kw; [|done].
    rewrite length_app, length_le_bytes, Hlenq.
    destruct Hd as (Hd0 & _). destruct (Nat.lt_total i j) as [|[|]]; [right; nia|done|left; nia].
Qed.
(** Removing any but the last point works, as far as the erased entry can be read. *)
Lemma removePoint_inner cap slots s stale l i v q :
  rep cap slots s → slots !! i = Some (v, l) → slots !! (length slots - 1)%nat = Some q →
  (i < length slots - 1)%nat → stale (Z.of_nat i) = Some (Z.of_nat i) →
  ∃ s', removePoint stale l s = Done tt s' ∧ rep cap (take (length slots - 1) (<[i := q]> slots)) s'.
Proof.
  intros Hr Hi Hq Hlt Hstale.
  destruct (removePoint_run _ _ _ _ _ _ _ _ Hr Hi Hq Hstale) as (mem & Hrun & Hlen & Hrd & Hkeep).
  pose proof Hr as [Hst Hfree Hlab]. eexists. split; [exact Hrun|].
  assert (length (take (length slots - 1) (<[i := q]> slots)) = (length slots - 1)%nat) as Hlen'
    by (rewrite length_take, length_insert; lia).
  assert (∀ j p, take (length slots - 1) (<[i := q]> slots) !! j = Some p ↔
    (j < length slots - 1)%nat ∧ ((j = i ∧ p = q) ∨ (j ≠ i ∧ slots !! j = Some p))) as Hlook.
  { intros j p. destruct (Nat.lt_ge_cases j (length slots - 1)) as [Hj|Hj].
    - rewrite lookup_take_lt by done. destruct (decide (j = i)) as [->|Hne].
      + rewrite list_lookup_insert_eq by lia. naive_solver.
      + rewrite list_lookup_insert_ne by done. naive_solver.
    - rewrite lookup_ge_None_2 by (rewrite Hlen'; lia). split; [done|]. lia. }
  assert (∀ j w lw, slots !! j = Some (w, lw) → lw = q.2 → j = (length slots - 1)%nat) as Huniq.
  { intros j w lw Hj ->. assert (label_to_index_ s !! q.2 = Some (Z.of_nat j)) as E1.
    { apply Hlab. split; [lia|]. exists w. by rewrite Nat2Z.id. }
    assert (label_to_index_ s !! q.2 = Some (Z.of_nat (length slots - 1))) as E2; [|rewrite E2 in E1; injection E1; lia].
    apply Hlab. split; [lia|]. exists q.1. rewrite Nat2Z.id, Hq. by destruct q. }
  split; [|exact Hfree|].
  - destruct Hst as [Hd H1 H2 H3 H4 Hroom Hmem Hslots]. split; cbn; try done; [by rewrite Hlen'|by rewrite Hlen'; lia|by rewrite Hlen|].
    intros j p [Hj [[-> ->]|[Hne Hp]]]%Hlook.
    + split; [by eapply Hslots|done].
    + split; [by eapply Hslots|]. by apply Hkeep.
  - intros l' i'. cbn. destruct (decide (l' = q.2)) as [->|Hne].
    + rewrite lookup_insert_eq. split.
      * intros [= <-]. split; [lia|]. exists q.1. rewrite Nat2Z.id. apply Hlook. split; [done|]. left. by destruct q.
      * intros (Hi' & w & [Hj [[Hji _]|[Hji Hw]]]%Hlook); [f_equal; lia|]. apply Huniq in Hw; [lia|done].
    + rewrite lookup_insert_ne by done. destruct (decide (l' = l)) as [->|Hnl].
      * rewrite lookup_delete_eq. split; [done|]. intros (Hi' & w & [Hj [[Hji Hw]|[Hji Hw]]]%Hlook).
        -- subst q. done.
        -- exfalso. apply Hji. assert (label_to_index_ s !! l = Some i') as E1 by (apply Hlab; by eauto).
           assert (label_to_index_ s !! l = Some (Z.of_nat i)) as E2; [|rewrite E2 in E1; injection E1; lia].
           apply Hlab. split; [lia|]. exists v. by rewrite Nat2Z.id.
      * rewrite lookup_delete_ne, Hlab by done. apply and_iff_compat_l. split; intros [w Hw]; exists w.
        -- assert (Z.to_nat i' ≠ length slots - 1)%nat by (intros E; rewrite E, Hq in Hw; injection Hw as ->; done).
           apply Hlook. split; [apply lookup_lt_Some in Hw; lia|]. right. split; [|done].
           intros E. rewrite E, Hi in Hw. congruence.
        -- apply Hlook in Hw as [Hj [[Hji Hw]|[Hji Hw]]]; [subst q; done|done].
Qed.

(** The last point is removed and its label put back: it can never be added again. *)
Lemma removePoint_last cap slots s stale v l w :
  rep cap (slots ++ [(v, l)]) s → (∀ i, stale i = Some i) → Z.of_nat (length w) = space_data_size →
  ∃ s' s'', removePoint stale l s = Done tt s' ∧ stored cap slots s' ∧
    label_to_index_ s' !! l = Some (Z.of_nat (length slots)) ∧
    addPoint w l s' = Done tt s'' ∧ stored cap slots s''.
Proof.
  intros Hr Hstale Hw. pose proof Hr as [Hst Hfree Hlab].
  assert ((slots ++ [(v, l)]) !! length slots = Some (v, l)) as Hlast by by apply list_lookup_middle.
  destruct (removePoint_run cap _ s stale l (length slots) v (v, l) Hr Hlast) as (mem & Hrun & Hlen & _ & Hkeep).
  { rewrite length_app. cbn. by replace (length slots + 1 - 1)%nat with (length slots) by lia. }
  { apply Hstale. }
  pose proof Hst as [Hd H1 H2 H3 H4 Hroom Hmem Hslots]. rewrite length_app in Hroom, H4, Hrun. cbn in Hroom, H4.
  replace (length slots + length [(v, l)] - 1)%nat with (length slots) in Hrun by (cbn; lia).
  set (s' := set_element_count _ _) in Hrun.
  assert (label_to_index_ s' !! l = Some (Z.of_nat (length slots))) as Hl' by (cbn; by rewrite lookup_insert_eq).
  assert (stored cap slots s') as Hst'.
  { split; cbn; try done; [lia|by rewrite Hlen|]. intros j p Hj.
    assert ((slots ++ [(v, l)]) !! j = Some p) as Hj' by by apply lookup_app_l_Some.
    split; [by eapply Hslots|]. apply Hkeep; [|done]. apply lookup_lt_Some in Hj. lia. }
  assert (slot_ok (w, l)) as Hok by (split; [done|]; by apply (Hslots _ _ Hlast)).
  destruct (fill_slot cap slots s' (length slots) (w, l) Hd) as (mem' & Hfill & Hlen' & _ & Hkeep');
    [cbn; by rewrite Hlen|lia|done|].
  exists s', (set_data mem' s'). split_and!; [exact Hrun|done|done| |].
  - unfold addPoint. erewrite bind_Done.
    + rewrite (addPoint_at cap s' w l (length slots)); [exact Hfill|done|done|lia|done|done].
    + rewrite guarded_free by done. unfold find_slot. rewrite bind_get. cbn [label_to_index_ set_mtx index_has_mutex].
      rewrite Hl'. cbn. unfold s', set_mtx, set_element_count, set_data, set_labels. cbn. by rewrite Hfree.
  - destruct Hst' as [? ? ? ? ? ? Hm' Hs']. split; cbn; try done; [by rewrite Hlen'|].
    intros j p Hj. destruct (Hs' j p Hj) as [Hp Hrd]. split; [done|]. apply Hkeep'; [|done|done].
    apply lookup_lt_Some in Hj. lia.
Qed.
(** *** Files *)
Lemma block_size cap : dims_ok cap → size_add space_data_size label_size = stride ∧ size_mul cap stride = cap * stride.
Proof.
  intros (H1 & H2 & H3 & H4). unfold size_add, size_mul, label_size. rewrite !wrapu_small; first [lia | nia].
Qed.

Lemma save_run cap slots s :
  stored cap slots s →
  saveIndex s = Some (writeBinaryPOD 8 cap ++ writeBinaryPOD 8 stride ++
                      writeBinaryPOD 8 (Z.of_nat (length slots)) ++ data_ s).
Proof.
  intros [Hd H1 H2 H3 H4 Hroom Hmem _]. unfold saveIndex. rewrite H2, H3, H4.
  destruct (block_size cap Hd) as [_ ->]. unfold read_mem. rewrite decide_True by (destruct Hd; nia).
  cbn [mbind option_bind]. by rewrite drop_0, <- Hmem, Nat2Z.id, take_ge.
Qed.

Lemma load_run cap slots s s0 malloc :
  stored cap slots s → malloc_ok malloc → is_Some (malloc (cap * stride)) →
  ∃ file s', saveIndex s = Some file ∧ loadIndex space_data_size malloc file s0 = Done tt s' ∧
    stored cap slots s' ∧ index_lock s' = index_lock s0 ∧ label_to_index_ s' = label_to_index_ s0.
Proof.
  intros Hst Hm [d Hmal]. eexists. pose proof Hst as [Hd H1 H2 H3 H4 Hroom Hmem Hslots].
  pose proof Hd as (D1 & D2 & D3 & D4).
  exists (mkIndex (data_ s) space_data_size (Z.of_nat (length slots)) stride cap (index_lock s0) (label_to_index_ s0)).
  split; [by apply save_run|]. split; [|by split].
  unfold loadIndex. rewrite readBinaryPOD_write by lia. cbn zeta beta iota.
  rewrite readBinaryPOD_write by lia. cbn zeta beta iota. rewrite readBinaryPOD_write by lia.
  destruct (block_size cap Hd) as [-> ->]. cbn zeta beta iota. rewrite Hmal.
  rewrite <- (app_nil_r (data_ s)), read_over_app; [by rewrite app_nil_r|]. apply Hm in Hmal; nia.
Qed.

Lemma index_rep_new cap malloc :
  dims_ok cap → malloc_ok malloc → is_Some (malloc (cap * stride)) →
  ∃ s, index_new space_data_size malloc cap = inr s ∧ rep cap [] s.
Proof.
  intros Hd Hm [d Hmal]. unfold index_new. destruct (block_size cap Hd) as [-> ->]. rewrite Hmal.
  eexists. split; [reflexivity|]. apply Hm in Hmal; [|destruct Hd; nia]. split; [split; cbn; try done; destruct Hd; lia|done|].
  intros l i. cbn. rewrite lookup_empty. split; [done|]. intros (_ & v & Hv). done.
Qed.

(** C13: an index of any points, added in any order and over one another with at most as
    many labels as the capacity, answers an unfiltered query for [K] points, no more than
    are stored, with exactly the [K] nearest of the last vectors of the labels - ties
    decided by the label - from the farthest to the closest, and [SearchKNNCloserFirst]
    the other way round; no access leaves the block.  (With a filter points are missed,
    [filtered_search_misses], and a larger [K] reads slots nothing was written to.) *)
Theorem bruteforce_finds_nearest malloc cap adds query K :
  dims_ok cap → malloc_ok malloc → is_Some (malloc (cap * stride)) → Forall slot_ok adds →
  Z.of_nat (size (vectors adds ∅)) ≤ cap → (K ≤ size (vectors adds ∅))%nat →
  ∃ s0 s found rest,
    index_new space_data_size malloc cap = inr s0 ∧ add_all adds s0 = Done tt s ∧
    SearchKNN distance dist_max query K None s = Done found s ∧
    SearchKNNCloserFirst distance dist_max query K None s = Done (reverse found) s ∧
    found ++ rest ≡ₚ ((λ p : Z * list byte, (distance query p.2, p.1)) <$> map_to_list (vectors adds ∅)) ∧
    length found = K ∧ descending found ∧
    ∀ x y, x ∈ found → y ∈ rest → entry_le x y.
Proof.
  intros Hd Hm Hblock Hok Hcap HK. destruct (index_rep_new cap malloc Hd Hm Hblock) as (s0 & Hnew & Hr0).
  destruct (add_all_run cap adds [] ∅ s0 Hr0) as (slots & s & Hadd & Hr & Hh); [|done|done|].
  { split; [constructor|]. intros l v. rewrite lookup_empty. split; [done|]. by intros ?%elem_of_nil. }
  rewrite (holds_size _ _ Hh) in HK.
  assert (allowed_slots None slots = slots) as Hall.
  { unfold allowed_slots. clear. induction slots as [|p slots IH]; [done|]. by rewrite filter_cons_True, IH. }
  assert (SearchKNN distance dist_max query K None s = Done (nearest K (entry_of query <$> slots)) s) as Hrun.
  { rewrite (search_run cap slots) by (try apply Hr; try done; by apply Forall_true). by rewrite Hall. }
  destruct (nearest_spec K (entry_of query <$> slots)) as (rest & Hp & Hlen & Hdesc & Hle).
  exists s0, s, (nearest K (entry_of query <$> slots)), rest. split_and!; try done.
  - unfold SearchKNNCloserFirst. rewrite (bind_Done _ _ _ _ _ Hrun).
    rewrite fill_back_run by (rewrite ?length_replicate; lia). by rewrite drop_ge, app_nil_r by by rewrite length_replicate.
  - by rewrite Hp, holds_entries.
  - rewrite Hlen, length_fmap. lia.
Qed.

(** C31: a well-formed index written by [saveIndex] and read back by the loading
    constructor, when there is memory for its block, has the same points and answers every
    unfiltered query for no more points than it has the same way; but the map of labels is
    not in the file, and the loaded index knows no label. *)
Theorem index_roundtrip cap slots s malloc :
  rep cap slots s → malloc_ok malloc → is_Some (malloc (cap * stride)) →
  ∃ file s', saveIndex s = Some file ∧ index_open space_data_size malloc file = Done tt s' ∧
    element_count_ s' = element_count_ s ∧ capacity_ s' = capacity_ s ∧ label_to_index_ s' = ∅ ∧
    ∀ query K, (K ≤ length slots)%nat → ∃ found,
      SearchKNN distance dist_max query K None s = Done found s ∧
      SearchKNN distance dist_max query K None s' = Done found s'.
Proof.
  intros [Hst _ _] Hm Hblock.
  destruct (load_run cap slots s index_empty malloc Hst Hm Hblock) as (file & s' & Hsave & Hload & Hst' & _ & Hlab).
  exists file, s'. split_and!; try done.
  - by rewrite (st_count _ _ _ Hst'), (st_count _ _ _ Hst).
  - by rewrite (st_capacity _ _ _ Hst'), (st_capacity _ _ _ Hst).
  - intros query K HK. eexists. split; apply (search_run cap slots); try done; by apply Forall_true.
Qed.

(** Adding a point again after loading puts it in twice. *)
Lemma loaded_duplicates cap slots s' v l :
  stored cap slots s' → index_lock s' = [] → label_to_index_ s' = ∅ → slot_ok (v, l) → Z.of_nat (length slots) < cap →
  ∃ s'', addPoint v l s' = Done tt s'' ∧ stored cap (slots ++ [(v, l)]) s''.
Proof.
  intros Hst Hfree Hlab Hok Hroom. pose proof Hst as [Hd H1 H2 H3 H4 _ Hmem _]. set (n := length slots) in *.
  assert (0 ≤ Z.of_nat n < 2 ^ 31) as Hn by (destruct Hd; lia).
  set (s1 := set_element_count (Z.of_nat (S n)) (set_labels (<[l := Z.of_nat n]> (label_to_index_ s')) s')).
  assert (guarded Un (find_slot l) s' = Done (wraps 32 (Z.of_nat n)) s1) as Hslot.
  { rewrite guarded_free by done. unfold find_slot. rewrite bind_get. cbn. rewrite Hlab, lookup_empty, H3, H4.
    destruct (Z.leb_spec cap (Z.of_nat n)); [lia|]. unfold modify, mbind, M_bind, mret, M_ret. cbn.
    rewrite (wraps_small 32 (Z.of_nat n)), (wrapu_small 64 (Z.of_nat n)) by lia. unfold size_add.
    rewrite wrapu_small by lia. replace (Z.of_nat n + 1) with (Z.of_nat (S n)) by lia.
    unfold s1, set_element_count, set_labels. cbn. by rewrite Hfree, Hlab, H3. }
  assert (length (slots ++ [(v, l)]) = S n) as Hlen by (rewrite length_app; cbn; lia).
  destruct (write_slot cap slots (slots ++ [(v, l)]) s' s1 n (v, l)) as (mem & Hrun & Hst'); try done;
    [by rewrite Hlen|by rewrite Hlen; lia|by rewrite Hlen; lia| |].
  { intros j q Hj. destruct (Nat.lt_trichotomy j n) as [Hlt|[->|Hgt]].
    - rewrite lookup_app_l in Hj by done. right. split; [lia|done].
    - rewrite list_lookup_middle in Hj by done. injection Hj as <-. by left.
    - apply lookup_lt_Some in Hj. lia. }
  exists (set_data mem s1). split; [|done].
  unfold addPoint. rewrite (bind_Done _ _ _ _ _ Hslot). by rewrite (addPoint_at cap).
Qed.
End Slots.

(** ** A concrete index: one-byte vectors, the distance of [L2SqrI] *)
Section Witness.
#[local] Existing Instance std_shared_mutex.

Definition byte_distance (v w : list byte) : Z :=
  match v, w with
  | [a], [b] => (byte_val a - byte_val b) * (byte_val a - byte_val b)
  | _, _ => 0
  end.

Definition blocks (n : Z) : option memory := Some (replicate (Z.to_nat n) Byte.x00).

Definition five_points : list slot :=
  [([Byte.x0a], 1); ([Byte.x14], 2); ([Byte.x1e], 3); ([Byte.x28], 4); ([Byte.x15], 2)].

Lemma blocks_ok : malloc_ok blocks.
Proof. intros n block Hn [= <-]. rewrite length_replicate. lia. Qed.
Definition small_index : exn + BruteforceSearch := index_new 1 blocks 4.

Lemma bruteforce_finds_nearest_witness :
  ∃ s0 s found, small_index = inr s0 ∧ add_all five_points s0 = Done tt s ∧
    SearchKNN byte_distance 65025 [Byte.x16] 2 None s = Done found s ∧ length found = 2%nat.
Proof.
  destruct (bruteforce_finds_nearest 1 byte_distance 65025 blocks 4 five_points [Byte.x16] 2)
    as (s0 & s & found & rest & Hnew & Hadd & Hsearch & _ & _ & Hlen & _).
  - unfold dims_ok. lia.
  - exact blocks_ok.
  - by eexists.
  - by repeat constructor.
  - by apply (bool_decide_unpack _); vm_compute.
  - by apply (bool_decide_unpack _); vm_compute.
  - by exists s0, s, found.
Defined.

(** The points found: 21 and 30 are nearest to 22. *)
Example small_search :
  match small_index with
  | inr s0 => match add_all five_points s0 with
              | Done _ s => match SearchKNN byte_distance 65025 [Byte.x16] 2 None s with
                            | Done q _ => q = [(64, 3); (1, 2)] | _ => False end
              | _ => False end
  | _ => False end.
Proof. vm_compute. reflexivity. Qed.

(** With a filter that turns one of the first [K] down, a point farther than what was
    kept of them is passed over although the result has room: one point is found where
    two are asked for and three are allowed. *)
Example filtered_search_misses :
  match small_index with
  | inr s0 => match add_all five_points s0 with
              | Done _ s => match SearchKNN byte_distance 65025 [Byte.x0a] 2 (Some (λ l, negb (l =? 2))) s with
                            | Done q _ => q = [(0, 1)] | _ => False end
              | _ => False end
  | _ => False end.
Proof. vm_compute. reflexivity. Qed.

Lemma index_roundtrip_witness :
  ∃ s file s', rep 1 4 [([Byte.x0a], 1)] s ∧ saveIndex s = Some file ∧
    index_open 1 blocks file = Done tt s' ∧ label_to_index_ s' = ∅.
Proof.
  assert (dims_ok 1 4) as Hd by (unfold dims_ok; lia).
  assert (is_Some (blocks (4 * (1 + 8)))) as Hblock by by eexists.
  destruct (index_rep_new 1 4 blocks Hd blocks_ok Hblock) as (s0 & _ & Hr0).
  destruct (addPoint_new 1 4 [] s0 [Byte.x0a] 1 Hr0) as (s & _ & Hr); [done|done|done|].
  destruct (index_roundtrip 1 byte_distance 65025 4 _ s blocks Hr blocks_ok Hblock)
    as (file & s' & Hsave & Hload & _ & _ & Hlab & _).
  by exists s, file, s'.
Defined.
End Witness.
