(* ===== verification/VisitedList.v ===== *)
(** Visited lists and their pool: src/hnsw/hnsw_scratch/visited_list_pool.hpp.

    A [VisitedList] is an object of the store, handed out and taken back by its address.
    An element is visited when its tag is the current one, as [hnsw_core.hpp] tests and
    sets it. *)

From S2P Require Import Prelude.

(** [vl_type], an [unsigned short]. *)
Record VisitedList := mkVisited { currentVisited : Z; visitedAt : list Z; numElements : Z }.

Record VisitedListPool := mkPool {
  pool : list loc;
  poolguard : mutex;
  numelements : Z;
  lists : gmap loc VisitedList;
}.

#[export] Instance pool_has_mutex : HasMutex VisitedListPool := {
  mtx := poolguard;
  set_mtx m s := mkPool (pool s) m (numelements s) (lists s);
}.

Section Pool.
Context {LP : LockPolicy}.
(** What a new array holds. *)
Context (uninit : loc → nat → Z).
Abbreviation MP := (M VisitedListPool).

Definition visited_new (l : loc) (n : Z) : VisitedList :=
  let numElements := wrapu 32 n in
  mkVisited (wrapu 16 (-1)) (uninit l <$> seq 0 (Z.to_nat numElements)) numElements.

Definition reset (v : VisitedList) : VisitedList :=
  let cur := wrapu 16 (currentVisited v + 1) in
  if cur =? 0 then mkVisited (wrapu 16 (cur + 1)) ((λ _, 0) <$> visitedAt v) (numElements v)
  else mkVisited cur (visitedAt v) (numElements v).

(** [new VisitedList(n)] at an address not in use. *)
Definition new_list : MP loc :=
  s ← get;
  let l := fresh (dom (lists s)) in
  modify (λ s, mkPool (pool s) (poolguard s) (numelements s) (<[l := visited_new l (numelements s)]> (lists s))) ;;
  mret l.

Definition set_pool (q : list loc) : MP unit :=
  modify (λ s, mkPool q (poolguard s) (numelements s) (lists s)).

Definition at_list (l : loc) : MP VisitedList := λ s,
  match lists s !! l with Some v => Done v s | None => Undef end.
Definition write_list (l : loc) (v : VisitedList) : MP unit :=
  modify (λ s, mkPool (pool s) (poolguard s) (numelements s) (<[l := v]> (lists s))).

Fixpoint fill_pool (n : nat) : MP unit :=
  match n with
  | O => mret tt
  | S n' => l ← new_list; s ← get; set_pool (l :: pool s) ;; fill_pool n'
  end.

Definition pool_new (initmaxpools numelements1 : Z) : outcome VisitedListPool unit :=
  fill_pool (Z.to_nat initmaxpools) (mkPool [] [] numelements1 ∅).

Definition getFreeVisitedList : MP loc :=
  rez ← guarded Un (
    s ← get;
    match pool s with
    | l :: q => set_pool q ;; mret l
    | [] => new_list
    end);
  v ← at_list rez;
  write_list rez (reset v) ;;
  mret rez.

Definition releaseVisitedList (vl : loc) : MP unit :=
  guarded Un (s ← get; set_pool (vl :: pool s)).

(** [delete rez], and the destructor. *)
Definition delete_list (l : loc) : MP unit :=
  at_list l ;; modify (λ s, mkPool (pool s) (poolguard s) (numelements s) (delete l (lists s))).

Fixpoint pool_delete (fuel : nat) : MP unit :=
  match fuel with
  | O => λ _, NoFuel
  | S fuel' =>
      s ← get;
      match pool s with
      | [] => mret tt
      | rez :: q => set_pool q ;; delete_list rez ;; pool_delete fuel'
      end
  end.

(** [Visited_Array[i] == Visited_Array_Tag] and [Visited_Array[i] = Visited_Array_Tag]. *)
Definition is_visited (vl : loc) (i : nat) : MP bool :=
  v ← at_list vl;
  match visitedAt v !! i with
  | Some t => mret (t =? currentVisited v)
  | None => undef
  end.

Definition mark (vl : loc) (i : nat) : MP unit :=
  v ← at_list vl;
  match visitedAt v !! i with
  | Some _ => write_list vl (mkVisited (currentVisited v) (<[i := currentVisited v]> (visitedAt v)) (numElements v))
  | None => undef
  end.

(** ** What a client sees

    The lists in its hands, each with the elements it has visited. *)
Abbreviation hands := (gmap loc (gset nat)).

Inductive pool_call := CallGet | CallRelease (vl : loc) | CallMark (vl : loc) (i : nat) | CallVisited (vl : loc) (i : nat).
Inductive pool_answer := Got (vl : loc) | Nothing | IsVisited (b : bool).

Definition pool_do (c : pool_call) : MP pool_answer :=
  match c with
  | CallGet => l ← getFreeVisitedList; mret (Got l)
  | CallRelease vl => releaseVisitedList vl ;; mret Nothing
  | CallMark vl i => mark vl i ;; mret Nothing
  | CallVisited vl i => b ← is_visited vl i; mret (IsVisited b)
  end.

(** The client uses what it holds, within the array. *)
Definition call_legal (n : nat) (c : pool_call) (h : hands) : Prop :=
  match c with
  | CallGet => True
  | CallRelease vl => is_Some (h !! vl)
  | CallMark vl i | CallVisited vl i => is_Some (h !! vl) ∧ (i < n)%nat
  end.

(** A list handed out is not in anybody's hands and has nothing visited. *)
Inductive hands_step : pool_call → hands → pool_answer → hands → Prop :=
  | StepGet h vl : h !! vl = None → hands_step CallGet h (Got vl) (<[vl := ∅]> h)
  | StepRelease h vl : hands_step (CallRelease vl) h Nothing (delete vl h)
  | StepMark h vl seen i : h !! vl = Some seen → hands_step (CallMark vl i) h Nothing (<[vl := {[i]} ∪ seen]> h)
  | StepVisited h vl seen i :
      h !! vl = Some seen → hands_step (CallVisited vl i) h (IsVisited (bool_decide (i ∈ seen))) h.

(** ** The invariant *)
Definition list_ok (n : nat) (v : VisitedList) : Prop :=
  length (visitedAt v) = n ∧ 0 ≤ currentVisited v < 2 ^ 16 ∧ Forall (λ t, 0 ≤ t ≤ currentVisited v) (visitedAt v).

(** The elements whose tag is the current one. *)
Definition has_seen (v : VisitedList) (seen : gset nat) : Prop :=
  ∀ i t, visitedAt v !! i = Some t → (t = currentVisited v ↔ i ∈ seen).

Record pool_rep (n : nat) (s : VisitedListPool) (h : hands) : Prop := {
  pr_free : poolguard s = [];
  pr_size : numelements s = Z.of_nat n;
  pr_range : Z.of_nat n < 2 ^ 32;
  pr_nodup : NoDup (pool s);
  pr_apart : ∀ l, l ∈ pool s → h !! l = None;
  pr_pool : ∀ l, l ∈ pool s → ∃ v, lists s !! l = Some v ∧ list_ok n v;
  pr_hands : ∀ l seen, h !! l = Some seen → ∃ v, lists s !! l = Some v ∧ list_ok n v ∧ has_seen v seen;
}.
Hypothesis uninit_range : ∀ l i, 0 ≤ uninit l i < 2 ^ 16.

Lemma new_list_ok n l : Z.of_nat n < 2 ^ 32 → list_ok n (visited_new l (Z.of_nat n)).
Proof.
  intros Hn. unfold visited_new, list_ok. cbn [visitedAt currentVisited]. rewrite wrapu_small by lia.
  rewrite Nat2Z.id, length_fmap, length_seq. change (wrapu 16 (-1)) with (2 ^ 16 - 1).
  split_and!; [done|lia|lia|]. apply Forall_fmap, Forall_forall. intros i _. cbn. pose proof (uninit_range l i). lia.
Qed.

(** [reset] leaves nothing visited, whatever was - also when the tag runs over. *)
Lemma reset_ok n v : list_ok n v → list_ok n (reset v) ∧ has_seen (reset v) ∅.
Proof.
  intros (Hlen & Hcur & Hall). unfold reset. destruct (decide (currentVisited v = 2 ^ 16 - 1)) as [->|Hne].
  - change (wrapu 16 (2 ^ 16 - 1 + 1)) with 0. change (wrapu 16 (0 + 1)) with 1. cbn [Z.eqb].
    unfold list_ok, has_seen. cbn [visitedAt currentVisited]. rewrite length_fmap. split_and!; [done|lia|lia| |].
    + apply Forall_fmap, Forall_forall. intros. cbn. lia.
    + intros i t Hi. apply list_lookup_fmap_Some in Hi as (x & -> & _). set_solver.
  - rewrite wrapu_small by lia. destruct (Z.eqb_spec (currentVisited v + 1) 0); [lia|].
    unfold list_ok, has_seen. cbn [visitedAt currentVisited]. split_and!; [done|lia|lia| |].
    + eapply Forall_impl; [exact Hall|]. cbn. lia.
    + intros i t Hi. rewrite Forall_forall in Hall. apply list_elem_of_lookup_2, Hall in Hi. split; [lia|set_solver].
Qed.

Lemma mark_ok n v seen i :
  list_ok n v → has_seen v seen → (i < n)%nat →
  let v' := mkVisited (currentVisited v) (<[i := currentVisited v]> (visitedAt v)) (numElements v) in
  list_ok n v' ∧ has_seen v' ({[i]} ∪ seen).
Proof.
  clear uninit_range. intros (Hlen & Hcur & Hall) Hseen Hi. split.
  - unfold list_ok. cbn. rewrite length_insert. split_and!; [done|lia|lia|]. apply Forall_insert; [done|lia].
  - intros j t Hj. cbn in *. apply list_lookup_insert_Some in Hj as [(<- & <- & _)|[Hne Hj]]; [set_solver|].
    rewrite (Hseen j t Hj). set_solver.
Qed.

Lemma rep_dom n s h l : pool_rep n s h → l ∉ dom (lists s) → l ∉ pool s ∧ h !! l = None.
Proof.
  intros Hr Hl. apply not_elem_of_dom in Hl. split.
  - intros Hin. destruct (pr_pool _ _ _ Hr l Hin) as (v & Hv & _). congruence.
  - destruct (h !! l) as [seen|] eqn:Hh; [|done]. destruct (pr_hands _ _ _ Hr l seen Hh) as (v & Hv & _). congruence.
Qed.

(** Writing one of the client's lists. *)
Lemma rep_write n s h l v seen :
  pool_rep n s h → l ∉ pool s → list_ok n v → has_seen v seen →
  pool_rep n (mkPool (pool s) (poolguard s) (numelements s) (<[l := v]> (lists s))) (<[l := seen]> h).
Proof.
  clear uninit_range. intros [H1 H2 H3 H4 H5 H6 H7] Hl Hok Hseen. split; cbn; try done.
  - intros l' Hin. rewrite lookup_insert_ne; [by apply H5|]. intros ->. done.
  - intros l' Hin. rewrite lookup_insert_ne; [by apply H6|]. intros ->. done.
  - intros l' seen'. destruct (decide (l' = l)) as [->|Hne].
    + rewrite !lookup_insert_eq. intros [= <-]. by exists v.
    + rewrite !lookup_insert_ne by done. apply H7.
Qed.

Lemma get_run n s h :
  pool_rep n s h →
  ∃ l s', getFreeVisitedList s = Done l s' ∧ h !! l = None ∧ pool_rep n s' (<[l := ∅]> h).
Proof.
  intros Hr. pose proof Hr as [H1 H2 H3 H4 H5 H6 H7]. unfold getFreeVisitedList.
  assert (∃ l s1 v, guarded Un (s ← get; match pool s with l :: q => set_pool q ;; mret l | [] => new_list end) s
      = Done l s1 ∧ pool_rep n s1 h ∧ l ∉ pool s1 ∧ h !! l = None ∧ lists s1 !! l = Some v ∧ list_ok n v)
    as (l & s1 & v & Hrun & Hr1 & Hout & Hh & Hv & Hok).
  { rewrite guarded_free by done. rewrite bind_get. cbn. destruct (pool s) as [|l q] eqn:Hpool.
    - set (l := fresh (dom (lists s))).
      assert (l ∉ dom (lists s)) as Hfresh by apply is_fresh. destruct (rep_dom _ _ _ _ Hr Hfresh) as [_ Hh].
      exists l, (mkPool [] [] (numelements s) (<[l := visited_new l (numelements s)]> (lists s))), (visited_new l (numelements s)).
      split_and!; try done; [|cbn; set_solver|cbn; by rewrite lookup_insert_eq|
        rewrite H2; by apply new_list_ok].
      split; cbn; try done; [intros l' Hl'; by apply elem_of_nil in Hl'|].
      intros l' seen Hl'. destruct (H7 l' seen Hl') as (v & Hv & ?). exists v.
      rewrite lookup_insert_ne; [done|]. intros Heq. rewrite <- Heq in Hl'. congruence.
    - destruct (H6 l) as (v & Hv & Hok); [by left|]. apply NoDup_cons in H4 as [Hlq H4].
      exists l, (mkPool q [] (numelements s) (lists s)), v. split_and!; try done; [|by apply H5; left].
      split; cbn; try done; intros l' Hl'; [apply H5|apply H6]; by right. }
  exists l. destruct (reset_ok n v Hok) as [Hok' Hseen].
  eexists. split_and!; [|done|by apply (rep_write n s1 h l (reset v) ∅)].
  rewrite (bind_Done _ _ _ _ _ Hrun). unfold at_list, write_list, modify, mbind, M_bind. by rewrite Hv.
Qed.
Lemma release_run n s h l seen :
  pool_rep n s h → h !! l = Some seen →
  ∃ s', releaseVisitedList l s = Done tt s' ∧ pool_rep n s' (delete l h).
Proof.
  intros [H1 H2 H3 H4 H5 H6 H7] Hl. unfold releaseVisitedList. rewrite guarded_free by done.
  eexists. split; [reflexivity|]. destruct (H7 l seen Hl) as (v & Hv & Hok & _).
  assert (l ∉ pool s) as Hout by (intros Hin; apply H5 in Hin; congruence).
  split; cbn; try done.
  - by apply NoDup_cons.
  - intros l' [->|Hin]%elem_of_cons; [apply lookup_delete_eq|]. rewrite lookup_delete_None. right. by apply H5.
  - intros l' [->|Hin]%elem_of_cons; [by exists v|by apply H6].
  - intros l' seen' [_ Hl']%lookup_delete_Some. by apply H7.
Qed.

Lemma mark_run n s h l seen i :
  pool_rep n s h → h !! l = Some seen → (i < n)%nat →
  ∃ s', mark l i s = Done tt s' ∧ pool_rep n s' (<[l := {[i]} ∪ seen]> h).
Proof.
  clear uninit_range. intros Hr Hl Hi. destruct (pr_hands _ _ _ Hr l seen Hl) as (v & Hv & Hok & Hseen).
  destruct (mark_ok n v seen i Hok Hseen Hi) as [Hok' Hseen']. eexists. split.
  - unfold mark, at_list, write_list, modify, mbind, M_bind. rewrite Hv.
    destruct (lookup_lt_is_Some_2 (visitedAt v) i) as [t Ht]; [by destruct Hok as [-> _]|]. by rewrite Ht.
  - apply rep_write; [done| |done|done]. intros Hin. apply (pr_apart _ _ _ Hr) in Hin. congruence.
Qed.

Lemma visited_run n s h l seen i :
  pool_rep n s h → h !! l = Some seen → (i < n)%nat → is_visited l i s = Done (bool_decide (i ∈ seen)) s.
Proof.
  clear uninit_range uninit. intros Hr Hl Hi. destruct (pr_hands _ _ _ Hr l seen Hl) as (v & Hv & Hok & Hseen).
  unfold is_visited, at_list, mbind, M_bind. rewrite Hv.
  destruct (lookup_lt_is_Some_2 (visitedAt v) i) as [t Ht]; [by destruct Hok as [-> _]|]. rewrite Ht.
  unfold mret, M_ret. f_equal. f_equal. pose proof (Hseen i t Ht) as Hiff.
  apply eq_bool_prop_intro. rewrite bool_decide_spec. destruct (Z.eqb_spec t (currentVisited v)); naive_solver.
Qed.

(** C25: whatever is called, in any order, by a client that only uses and gives back the
    lists it holds: a list handed out is in nobody's hands and has nothing visited - also
    after 65535 uses, when the tags start over - and an element counts as visited exactly
    when the client marked it since it got the list. *)
Theorem pool_hands_out_clean n c s h :
  pool_rep n s h → call_legal n c h →
  ∃ a s' h', pool_do c s = Done a s' ∧ hands_step c h a h' ∧ pool_rep n s' h'.
Proof.
  intros Hr Hlegal. pose proof Hr as [H1 H2 H3 H4 H5 H6 H7].
  destruct c as [|l|l i|l i]; cbn [pool_do call_legal] in *.
  - destruct (get_run n s h Hr) as (l & s' & Hrun & Hl & Hr').
    exists (Got l), s', (<[l := ∅]> h). rewrite (bind_Done _ _ _ _ _ Hrun). by split_and!; [|constructor|].
  - destruct Hlegal as [seen Hl]. destruct (release_run n s h l seen Hr Hl) as (s' & Hrun & Hr').
    exists Nothing, s', (delete l h). rewrite (bind_Done _ _ _ _ _ Hrun). by split_and!; [|constructor|].
  - destruct Hlegal as [[seen Hl] Hi]. destruct (mark_run n s h l seen i Hr Hl Hi) as (s' & Hrun & Hr').
    exists Nothing, s', (<[l := {[i]} ∪ seen]> h). rewrite (bind_Done _ _ _ _ _ Hrun). by split_and!; [|constructor|].
  - destruct Hlegal as [[seen Hl] Hi]. exists (IsVisited (bool_decide (i ∈ seen))), s, h.
    rewrite (bind_Done _ _ _ _ _ (visited_run n s h l seen i Hr Hl Hi)). by split_and!; [|constructor|].
Qed.

(** The destructor frees each list that was given back, once, and no other. *)
Lemma pool_delete_run q : ∀ fuel s,
  pool s = q → NoDup q → (∀ l, l ∈ q → is_Some (lists s !! l)) → (length q < fuel)%nat →
  ∃ s', pool_delete fuel s = Done tt s' ∧ ∀ l, lists s' !! l = if decide (l ∈ q) then None else lists s !! l.
Proof.
  clear uninit_range. induction q as [|l q IH]; intros [|fuel] s Hq Hnd Hin Hf; cbn in Hf; try lia; cbn [pool_delete]; rewrite bind_get, Hq.
  { exists s. split; [done|]. intros l. by rewrite decide_False by apply not_elem_of_nil. }
  apply NoDup_cons in Hnd as [Hl Hnd]. destruct (Hin l) as [v Hv]; [by left|].
  set (s1 := mkPool q (poolguard s) (numelements s) (delete l (lists s))).
  destruct (IH fuel s1) as (s' & Hrun & Hs'); [done|done| |lia|].
  { intros l' Hl'. cbn. rewrite lookup_delete_ne by congruence. apply Hin. by right. }
  exists s'. split.
  - erewrite bind_Done by done. erewrite (bind_Done (delete_list l) _ _ tt s1); [exact Hrun|].
    unfold delete_list, at_list, set_pool. munfold. cbn. by rewrite Hv.
  - intros l'. rewrite Hs'. cbn. destruct (decide (l' = l)) as [->|Hne].
    + rewrite (decide_True (P := l ∈ l :: q)) by by left. rewrite lookup_delete_eq. by case_decide.
    + rewrite lookup_delete_ne by done. repeat case_decide; set_solver.
Qed.

(** The pool as it is made. *)
Lemma fill_pool_run n k : ∀ s,
  pool_rep n s ∅ → ∃ s', fill_pool k s = Done tt s' ∧ pool_rep n s' ∅.
Proof.
  induction k as [|k IH]; intros s Hr; [by exists s|].
  pose proof Hr as [H1 H2 H3 H4 H5 H6 H7]. set (l := fresh (dom (lists s))).
  assert (l ∉ dom (lists s)) as Hfresh by apply is_fresh. destruct (rep_dom _ _ _ _ Hr Hfresh) as [Hout _].
  set (s1 := mkPool (l :: pool s) (poolguard s) (numelements s) (<[l := visited_new l (numelements s)]> (lists s))).
  destruct (IH s1) as (s' & Hrun & Hr').
  { split; cbn; try done; [by apply NoDup_cons|]. intros l' [->|Hin]%elem_of_cons.
    - rewrite lookup_insert_eq, H2. eexists. split; [done|]. by apply new_list_ok.
    - rewrite lookup_insert_ne; [by apply H6|]. intros Heq. rewrite <- Heq in Hin. done. }
  exists s'. by split; [|exact Hr'].
Qed.

Lemma pool_new_run k n :
  Z.of_nat n < 2 ^ 32 → ∃ s, pool_new k (Z.of_nat n) = Done tt s ∧ pool_rep n s ∅.
Proof.
  intros Hn. apply fill_pool_run. split; cbn; try done; [constructor|]. intros l Hl. by apply elem_of_nil in Hl.
Qed.
End Pool.

Section Witness.
#[local] Existing Instance std_shared_mutex.

(** A pool of one list of eight: it is taken, and so is a second one. *)
Lemma pool_hands_out_clean_witness :
  ∃ s l s' h', pool_rep 8 s ∅ ∧ pool_do (λ _ _, 7) CallGet s = Done (Got l) s' ∧ pool_rep 8 s' h' ∧ h' !! l = Some ∅.
Proof.
  assert (∀ (l : loc) (i : nat), 0 ≤ 7 < 2 ^ 16) as Hu by lia.
  destruct (pool_new_run (λ _ _, 7) Hu 1 8) as (s & _ & Hr); [lia|].
  destruct (pool_hands_out_clean (λ _ _, 7) Hu 8 CallGet s ∅ Hr I) as (a & s' & h' & Hrun & Hstep & Hr').
  inversion Hstep as [h l Hl E1 E2 E3| | |]; subst. exists s, l, s', (<[l := ∅]> ∅).
  by rewrite lookup_insert_eq.
Defined.
End Witness.
