(* ===== verification/Wp.v ===== *)
(** Total correctness of computations: [wp m Φ s] says that [m] returns from [s], with a
    result and a state that satisfy [Φ] - it does not throw, block, run into undefined
    behaviour, fail an assertion or run out of fuel.  The rules follow the structure of
    a computation, from the front; [wp_bind] splits off the first step. *)

From S2P Require Import Prelude.

Definition wp {S A} (m : M S A) (Φ : A → S → Prop) (s : S) : Prop :=
  match m s with Done a s' => Φ a s' | _ => False end.

Section Rules.
Context {S : Type}.
Implicit Types (s : S).

Lemma wp_run {A} (m : M S A) Φ s a s' : m s = Done a s' → Φ a s' → wp m Φ s.
Proof. intros Hm HΦ. unfold wp. by rewrite Hm. Qed.

Lemma wp_elim {A} (m : M S A) Φ s : wp m Φ s → ∃ a s', m s = Done a s' ∧ Φ a s'.
Proof. unfold wp. destruct (m s) as [a s'| | | | |]; try done. by exists a, s'. Qed.

Lemma wp_mono {A} (m : M S A) (Φ Ψ : A → S → Prop) s :
  wp m Φ s → (∀ a s', Φ a s' → Ψ a s') → wp m Ψ s.
Proof. unfold wp. destruct (m s); naive_solver. Qed.

Lemma wp_ret {A} (a : A) (Φ : A → S → Prop) s : Φ a s → wp (mret a) Φ s.
Proof. done. Qed.

Lemma wp_bind {A B} (m : M S A) (f : A → M S B) Φ s :
  wp m (λ a, wp (f a) Φ) s → wp (m ≫= f) Φ s.
Proof. unfold wp, mbind, M_bind. by destruct (m s). Qed.

Lemma wp_assoc {A B C} (m : M S A) (f : A → M S B) (g : B → M S C) Φ s :
  wp ((m ≫= f) ≫= g) Φ s → wp (m ≫= (λ a, f a ≫= g)) Φ s.
Proof. unfold wp. by rewrite bind_assoc. Qed.

Lemma wp_get Φ s : Φ s s → wp get Φ s.
Proof. done. Qed.

Lemma wp_modify f (Φ : unit → S → Prop) s : Φ tt (f s) → wp (modify f) Φ s.
Proof. done. Qed.

Lemma wp_assert b (Φ : unit → S → Prop) s : b = true → Φ tt s → wp (assert_ b) Φ s.
Proof. by intros ->. Qed.

Lemma wp_zoom {T A} (getT : S → T) (setT : T → S → S) (m : M T A) Φ s :
  wp m (λ a t, Φ a (setT t s)) (getT s) → wp (zoom getT setT m) Φ s.
Proof. unfold wp, zoom. by destruct (m (getT s)). Qed.
End Rules.

(** A first step whose run is known. *)
Ltac wp_run_with H := apply wp_bind; eapply wp_run; [exact H|].
