(* ===== verification/Hnsw.v ===== *)
(** The graph index of src/hnsw/hnsw_scratch/hnsw_core.hpp: its state and its operations.

    [level0_data_] and the link blocks are bytes, and every link, count, mark, vector and
    label is read and written at its address; leaving a block is undefined behaviour.
    Labels are [size_t] and internal ids [unsigned int], as the comments of the file say;
    distances are integers, as in [NearestQueue].

    The file is not accepted by a compiler: some members are used under a name they no
    longer have ([linkLists_], [maxM0_], [curlevel], [num_deleted_], [max_elements],
    [link_blocks] for [link_stride_] and the like) and [isMarkedDeleted] is defined twice.
    Such a name is read as the member or the variable it was renamed to, and the second
    definition is taken, the first one using a variable that does not exist.
    [searchBaseLayerST], which the file calls and nobody defines, is a parameter.

    One thread runs the index.  [link_locks_] are modelled, by the ids that are locked, as
    several of them are taken together; the other mutexes are never taken while held.  The
    level [getRandomLevel] draws is an argument, and so is the order in which an
    [unordered_set] is gone through. *)

From S2P Require Import Prelude Bytes Memory CxxLib NearestQueue MaxQueue VisitedList.

(** ** State *)

(** The parameters and the memory layout, set by the constructor and by [loadIndex]. *)
Record Layout := mkLayout {
  M_ : Z;
  max_M_ : Z;
  max_M0_ : Z;
  efConstruction_ : Z;
  efSearch_ : Z;
  element_stride_ : Z;
  link0_offset_ : Z;
  link0_stride_ : Z;
  data_offset_ : Z;
  data_size_ : Z;
  label_offset_ : Z;
  link_stride_ : Z;
}.

(** An entry of [link_blocks_] is [None] when it leads to no block. *)
Record HierarchicalNSW := mkHnsw {
  layout : Layout;
  capacity_ : Z;
  element_count_ : Z;
  deleted_count_ : Z;
  max_level_ : Z;
  entry_id_ : Z;
  element_levels_ : list Z;
  level0_data_ : memory;
  link_blocks_ : list (option memory);
  link_locks_ : gset Z;
  label_map_ : gmap Z Z;
  metric_distance_computations_ : Z;
  metric_hops_ : Z;
  visited_pool_ : VisitedListPool;
  reuse_deleted_ : bool;
  deleted_elements_ : gset Z;
}.

Section Fields.
Implicit Types (s : HierarchicalNSW).
Definition set_layout x s := mkHnsw x (capacity_ s) (element_count_ s) (deleted_count_ s) (max_level_ s) (entry_id_ s) (element_levels_ s) (level0_data_ s) (link_blocks_ s) (link_locks_ s) (label_map_ s) (metric_distance_computations_ s) (metric_hops_ s) (visited_pool_ s) (reuse_deleted_ s) (deleted_elements_ s).
Definition set_capacity x s := mkHnsw (layout s) x (element_count_ s) (deleted_count_ s) (max_level_ s) (entry_id_ s) (element_levels_ s) (level0_data_ s) (link_blocks_ s) (link_locks_ s) (label_map_ s) (metric_distance_computations_ s) (metric_hops_ s) (visited_pool_ s) (reuse_deleted_ s) (deleted_elements_ s).
Definition set_element_count x s := mkHnsw (layout s) (capacity_ s) x (deleted_count_ s) (max_level_ s) (entry_id_ s) (element_levels_ s) (level0_data_ s) (link_blocks_ s) (link_locks_ s) (label_map_ s) (metric_distance_computations_ s) (metric_hops_ s) (visited_pool_ s) (reuse_deleted_ s) (deleted_elements_ s).
Definition set_deleted_count x s := mkHnsw (layout s) (capacity_ s) (element_count_ s) x (max_level_ s) (entry_id_ s) (element_levels_ s) (level0_data_ s) (link_blocks_ s) (link_locks_ s) (label_map_ s) (metric_distance_computations_ s) (metric_hops_ s) (visited_pool_ s) (reuse_deleted_ s) (deleted_elements_ s).
Definition set_max_level x s := mkHnsw (layout s) (capacity_ s) (element_count_ s) (deleted_count_ s) x (entry_id_ s) (element_levels_ s) (level0_data_ s) (link_blocks_ s) (link_locks_ s) (label_map_ s) (metric_distance_computations_ s) (metric_hops_ s) (visited_pool_ s) (reuse_deleted_ s) (deleted_elements_ s).
Definition set_entry_id x s := mkHnsw (layout s) (capacity_ s) (element_count_ s) (deleted_count_ s) (max_level_ s) x (element_levels_ s) (level0_data_ s) (link_blocks_ s) (link_locks_ s) (label_map_ s) (metric_distance_computations_ s) (metric_hops_ s) (visited_pool_ s) (reuse_deleted_ s) (deleted_elements_ s).
Definition set_element_levels x s := mkHnsw (layout s) (capacity_ s) (element_count_ s) (deleted_count_ s) (max_level_ s) (entry_id_ s) x (level0_data_ s) (link_blocks_ s) (link_locks_ s) (label_map_ s) (metric_distance_computations_ s) (metric_hops_ s) (visited_pool_ s) (reuse_deleted_ s) (deleted_elements_ s).
Definition set_level0_data x s := mkHnsw (layout s) (capacity_ s) (element_count_ s) (deleted_count_ s) (max_level_ s) (entry_id_ s) (element_levels_ s) x (link_blocks_ s) (link_locks_ s) (label_map_ s) (metric_distance_computations_ s) (metric_hops_ s) (visited_pool_ s) (reuse_deleted_ s) (deleted_elements_ s).
Definition set_link_blocks x s := mkHnsw (layout s) (capacity_ s) (element_count_ s) (deleted_count_ s) (max_level_ s) (entry_id_ s) (element_levels_ s) (level0_data_ s) x (link_locks_ s) (label_map_ s) (metric_distance_computations_ s) (metric_hops_ s) (visited_pool_ s) (reuse_deleted_ s) (deleted_elements_ s).
Definition set_link_locks x s := mkHnsw (layout s) (capacity_ s) (element_count_ s) (deleted_count_ s) (max_level_ s) (entry_id_ s) (element_levels_ s) (level0_data_ s) (link_blocks_ s) x (label_map_ s) (metric_distance_computations_ s) (metric_hops_ s) (visited_pool_ s) (reuse_deleted_ s) (deleted_elements_ s).
Definition set_label_map x s := mkHnsw (layout s) (capacity_ s) (element_count_ s) (deleted_count_ s) (max_level_ s) (entry_id_ s) (element_levels_ s) (level0_data_ s) (link_blocks_ s) (link_locks_ s) x (metric_distance_computations_ s) (metric_hops_ s) (visited_pool_ s) (reuse_deleted_ s) (deleted_elements_ s).
Definition set_metrics (dists hops : Z) s := mkHnsw (layout s) (capacity_ s) (element_count_ s) (deleted_count_ s) (max_level_ s) (entry_id_ s) (element_levels_ s) (level0_data_ s) (link_blocks_ s) (link_locks_ s) (label_map_ s) dists hops (visited_pool_ s) (reuse_deleted_ s) (deleted_elements_ s).
Definition set_visited_pool x s := mkHnsw (layout s) (capacity_ s) (element_count_ s) (deleted_count_ s) (max_level_ s) (entry_id_ s) (element_levels_ s) (level0_data_ s) (link_blocks_ s) (link_locks_ s) (label_map_ s) (metric_distance_computations_ s) (metric_hops_ s) x (reuse_deleted_ s) (deleted_elements_ s).
Definition set_deleted_elements x s := mkHnsw (layout s) (capacity_ s) (element_count_ s) (deleted_count_ s) (max_level_ s) (entry_id_ s) (element_levels_ s) (level0_data_ s) (link_blocks_ s) (link_locks_ s) (label_map_ s) (metric_distance_computations_ s) (metric_hops_ s) (visited_pool_ s) (reuse_deleted_ s) x.
End Fields.

Abbreviation MH := (M HierarchicalNSW).

Definition gets {A} (f : HierarchicalNSW → A) : MH A := λ s, Done (f s) s.
Definition conf {A} (f : Layout → A) : MH A := gets (f ∘ layout).
Definition no_fuel {A} : MH A := λ _, NoFuel.

(** [link_locks_[i]] for the rest of a scope; the same thread does not get it twice. *)
Definition with_lock {A} (i : Z) (body : MH A) : MH A := λ s,
  if decide (0 ≤ i < capacity_ s) then
    if decide (i ∈ link_locks_ s) then Stuck
    else
      match body (set_link_locks ({[i]} ∪ link_locks_ s) s) with
      | Done a s' => Done a (set_link_locks (link_locks_ s' ∖ {[i]}) s')
      | Throw e s' => Throw e (set_link_locks (link_locks_ s' ∖ {[i]}) s')
      | Stuck => Stuck
      | Undef => Undef
      | AssertFail => AssertFail
      | NoFuel => NoFuel
      end
  else Undef.

(** An element of a vector or an array, by index. *)
Definition at_ {A} (v : list A) (i : Z) : MH A :=
  if decide (0 ≤ i) then match v !! Z.to_nat i with Some x => mret x | None => undef end else undef.
Definition set_at {A} (i : Z) (x : A) (v : list A) : option (list A) :=
  if decide (0 ≤ i < Z.of_nat (length v)) then Some (<[Z.to_nat i := x]> v) else None.

(** ** Addresses *)

(** Into [level0_data_], or into the link block of an element. *)
Inductive pointer : Type := Level0 (off : Z) | Upper (internal_id off : Z).

Definition shift (p : pointer) (n : Z) : pointer :=
  match p with Level0 off => Level0 (off + n) | Upper i off => Upper i (off + n) end.

Definition load (n : Z) (p : pointer) : MH (list byte) := λ s,
  match (match p with
         | Level0 off => read_mem n off (level0_data_ s)
         | Upper i off => if decide (0 ≤ i) then b ← mjoin (link_blocks_ s !! Z.to_nat i); read_mem n off b else None
         end) with
  | Some bs => Done bs s
  | None => Undef
  end.

Definition store (p : pointer) (bs : list byte) : MH unit := λ s,
  match p with
  | Level0 off =>
      match write_mem off bs (level0_data_ s) with Some d => Done tt (set_level0_data d s) | None => Undef end
  | Upper i off =>
      match (if decide (0 ≤ i) then b ← mjoin (link_blocks_ s !! Z.to_nat i); write_mem off bs b else None) with
      | Some b => Done tt (set_link_blocks (<[Z.to_nat i := Some b]> (link_blocks_ s)) s)
      | None => Undef
      end
  end.

Definition load_u32 (p : pointer) : MH Z := bs ← load 4 p; mret (le_val bs).
Definition store_u32 (p : pointer) (z : Z) : MH unit := store p (le_bytes 4 z).

(** The element [j] of the links behind a header. *)
Definition link_at (p : pointer) (j : nat) : pointer := shift p (4 + 4 * Z.of_nat j).

Definition element_at (internal_id : Z) (offset : Layout → Z) : MH pointer :=
  l ← gets layout; mret (Level0 (size_add (size_mul internal_id (element_stride_ l)) (offset l))).

Definition getExternalLabel (internal_id : Z) : MH Z :=
  p ← element_at internal_id label_offset_; bs ← load 8 p; mret (le_val bs).
Definition setExternalLabel (internal_id label : Z) : MH unit :=
  p ← element_at internal_id label_offset_; store p (le_bytes 8 label).
Definition getDataByInternalId (internal_id : Z) : MH pointer := element_at internal_id data_offset_.
Definition get_neighbors_L0 (internal_id : Z) : MH pointer := element_at internal_id link0_offset_.
Definition get_neighbors (internal_id level : Z) : MH pointer :=
  l ← gets layout; mret (Upper internal_id (size_mul (level - 1) (link_stride_ l))).
Definition get_neighbors_at_level (internal_id level : Z) : MH pointer :=
  if level =? 0 then get_neighbors_L0 internal_id else get_neighbors internal_id level.

(** The header of a link list: the count in its lower half, the mark in its third byte. *)
Definition DELETE_MARK : Z := 1.
Definition getListCount (p : pointer) : MH Z := bs ← load 2 p; mret (le_val bs).
Definition setListCount (p : pointer) (size : Z) : MH unit := store p (le_bytes 2 size).

Definition isMarkedDeleted (internal_id : Z) : MH bool :=
  p ← get_neighbors_L0 internal_id; bs ← load 1 (shift p 2); mret (negb (Z.land (le_val bs) DELETE_MARK =? 0)).

(** The bytes of an element's vector. *)
Definition vector_of (internal_id : Z) : MH (list byte) :=
  p ← getDataByInternalId internal_id; n ← conf data_size_; load n p.

Definition setefSearch (efSearch : Z) : MH unit :=
  modify (λ s, let l := layout s in
    set_layout (mkLayout (M_ l) (max_M_ l) (max_M0_ l) (efConstruction_ l) efSearch (element_stride_ l)
      (link0_offset_ l) (link0_stride_ l) (data_offset_ l) (data_size_ l) (label_offset_ l) (link_stride_ l)) s).
Definition getCapacity : MH Z := gets capacity_.
Definition getElementCount : MH Z := gets element_count_.
Definition getDeletedCount : MH Z := gets deleted_count_.

Definition on_pool {A} (m : M VisitedListPool A) : MH A := zoom visited_pool_ set_visited_pool m.

(** ** Construction *)
Section Construct.
Context {LP : LockPolicy}.
Context (uninit : loc → nat → Z) (malloc : Z → option memory).

Definition layout_new (M data_size : Z) : Layout :=
  let M := if M <=? 10000 then M else 10000 in
  let link0_stride := size_add (size_mul (size_mul 2 M) 4) 4 in
  let element_stride := size_add (size_add link0_stride data_size) 8 in
  let data_offset := link0_stride in
  mkLayout M M (size_mul 2 M) 0 10 element_stride 0 link0_stride data_offset data_size
    (size_add data_offset data_size) (size_add (size_mul M 4) 4).

Definition not_enough_memory (n : Z) : exn :=
  runtime_error (string_of_bytes (bytes_of_string "Not enough memory! Requested " ++ to_string n ++ bytes_of_string " bytes.")).

(** The parameter [efConstruction] is raised to [M_] and then not used.  Making the
    visited lists does not fail. *)
Definition hnsw_new (space_data_size capacity M efConstruction : Z) (reuse_deleted : bool) :
    outcome unit HierarchicalNSW :=
  let l := layout_new M space_data_size in
  let efConstruction := Z.max efConstruction (M_ l) in
  match malloc (size_mul capacity (element_stride_ l)) with
  | None => Throw (not_enough_memory (size_mul capacity (element_stride_ l))) tt
  | Some level0 =>
      match pool_new uninit 1 capacity with
      | Done _ pool =>
          match malloc (size_mul 8 capacity) with
          | None => Throw (not_enough_memory (size_mul 8 capacity)) tt
          | Some _ =>
              Done (mkHnsw l capacity 0 0 (-1) (wrapu 32 (-1)) (replicate (Z.to_nat capacity) 0) level0
                     (replicate (Z.to_nat capacity) None) ∅ ∅ 0 0 pool reuse_deleted ∅) tt
          end
      | _ => Stuck
      end
  end.

(** [clear]: the blocks are freed and the count is reset, the label map and the deleted
    elements are not. *)
Definition clear (s : HierarchicalNSW) : HierarchicalNSW :=
  set_visited_pool (mkPool [] [] 0 ∅) (set_element_count 0 (set_link_blocks [] (set_level0_data [] s))).
End Construct.

(** ** Search and insertion *)
Section Index.
Context {LP : LockPolicy} {Q : Type} `{MaxQueue Q}.
(** [distance] is [distance_function_] with its parameters, [dist_max] the greatest
    [dist_t]; [iterate] is the order in which an [unordered_set] is gone through. *)
Context (uninit : loc → nat → Z) (malloc : Z → option memory).
Context (distance : list byte → list byte → Z) (dist_max : Z) (iterate : gset Z → list Z).

Definition distance_to (data_point : list byte) (internal_id : Z) : MH Z :=
  v ← vector_of internal_id; mret (distance data_point v).
Definition distance_between (id1 id2 : Z) : MH Z :=
  v1 ← vector_of id1; v2 ← vector_of id2; mret (distance v1 v2).

(** *** searchBaseLayer *)

(** One neighbour: marked, and kept when it is near enough. *)
Definition consider (vl : loc) (data_point : list byte) (K_id : Z) (st : Q * Q * Z) : MH (Q * Q * Z) :=
  let '(Top_K, K_Set, lower_bound) := st in
  seen ← on_pool (is_visited vl (Z.to_nat K_id));
  if seen : bool then mret st
  else
    on_pool (mark vl (Z.to_nat K_id)) ;;
    dist1 ← distance_to data_point K_id;
    ef ← conf efConstruction_;
    if (Z.of_nat (q_size Top_K) <? ef) || (dist1 <? lower_bound) then
      let K_Set := q_emplace (- dist1, K_id) K_Set in
      deleted ← isMarkedDeleted K_id;
      let Top_K := if deleted : bool then Top_K else q_emplace (dist1, K_id) Top_K in
      let Top_K := if ef <? Z.of_nat (q_size Top_K) then q_pop Top_K else Top_K in
      let lower_bound := match q_top Top_K with Some t => t.1 | None => lower_bound end in
      mret (Top_K, K_Set, lower_bound)
    else mret st.

Fixpoint consider_links (vl : loc) (data_point : list byte) (data : pointer) (js : list nat) (st : Q * Q * Z) :
    MH (Q * Q * Z) :=
  match js with
  | [] => mret st
  | j :: js' => K_id ← load_u32 (link_at data j); st ← consider vl data_point K_id st; consider_links vl data_point data js' st
  end.

Fixpoint search_loop (fuel : nat) (vl : loc) (data_point : list byte) (layer : Z) (st : Q * Q * Z) : MH Q :=
  match fuel with
  | O => no_fuel
  | S fuel =>
      let '(Top_K, K_Set, lower_bound) := st in
      match q_top K_Set with
      | None => mret Top_K
      | Some current_pair =>
          ef ← conf efConstruction_;
          if (lower_bound <? - current_pair.1) && (Z.of_nat (q_size Top_K) =? ef) then mret Top_K
          else
            st ← with_lock current_pair.2 (
              data ← get_neighbors_at_level current_pair.2 layer;
              size ← getListCount data;
              consider_links vl data_point data (seq 0 (Z.to_nat size)) (Top_K, q_pop K_Set, lower_bound));
            search_loop fuel vl data_point layer st
      end
  end.

Definition searchBaseLayer (fuel : nat) (start_id : Z) (data_point : list byte) (layer : Z) : MH Q :=
  Visited_List ← on_pool (getFreeVisitedList uninit);
  deleted ← isMarkedDeleted start_id;
  st ← (if deleted : bool then mret (q_empty, q_emplace (dist_max, start_id) q_empty, dist_max)
        else
          d ← distance_to data_point start_id;
          mret (q_emplace (d, start_id) q_empty, q_emplace (- d, start_id) q_empty, d));
  on_pool (mark Visited_List (Z.to_nat start_id)) ;;
  Top_K ← search_loop fuel Visited_List data_point layer st;
  on_pool (releaseVisitedList Visited_List) ;;
  mret Top_K.

(** *** getNeighborsByHeuristic2 *)

(** Whether no neighbour selected so far is closer to [c] than [distance_to_query]. *)
Fixpoint well_apart (c distance_to_query : Z) (return_list : list entry) : MH bool :=
  match return_list with
  | [] => mret true
  | second_pair :: return_list' =>
      current_distance ← distance_between second_pair.2 c;
      if current_distance <? distance_to_query then mret false else well_apart c distance_to_query return_list'
  end.

Fixpoint select_neighbors (M : Z) (queue_closest : queue) (return_list : list entry) : MH (list entry) :=
  match queue_closest with
  | [] => mret return_list
  | current_pair :: queue_closest' =>
      if M <=? Z.of_nat (length return_list) then mret return_list
      else
        flag ← well_apart current_pair.2 (- current_pair.1) return_list;
        select_neighbors M queue_closest' (if flag : bool then return_list ++ [current_pair] else return_list)
  end.

Definition getNeighborsByHeuristic2 (Top_K : Q) (M : Z) : MH Q :=
  if Z.of_nat (q_size Top_K) <? M then mret Top_K
  else
    let queue_closest := sort_queue ((λ p : entry, (- p.1, p.2)) <$> q_drain Top_K) in
    return_list ← select_neighbors M queue_closest [];
    mret (q_fill ((λ p : entry, (- p.1, p.2)) <$> return_list) q_empty).

(** *** mutuallyConnectNewElement *)
Definition level_of (internal_id : Z) : MH Z := v ← gets element_levels_; at_ v internal_id.

Definition throw_if (b : bool) (what : string) : MH unit := if b then throw (runtime_error what) else mret tt.

(** The links of the new element. *)
Fixpoint write_links (link_current : pointer) (level : Z) (updateFlag : bool) (idx : nat) (selected : list Z) : MH unit :=
  match selected with
  | [] => mret tt
  | n :: selected' =>
      old ← load_u32 (link_at link_current idx);
      throw_if (negb (old =? 0) && negb updateFlag) "Possible memory corruption" ;;
      l ← level_of n;
      throw_if (l <? level) "Trying to make a link on a non-existent level" ;;
      store_u32 (link_at link_current idx) n ;;
      write_links link_current level updateFlag (S idx) selected'
  end.

Definition connect_new (current_c level : Z) (updateFlag : bool) (selected : list Z) : MH unit :=
  link_current ← get_neighbors_at_level current_c level;
  head ← load_u32 link_current;
  throw_if (negb (head =? 0) && negb updateFlag) "The newly inserted element should have a blank neighbor list" ;;
  setListCount link_current (Z.of_nat (length selected)) ;;
  write_links link_current level updateFlag 0 selected.

(** The stored links [js] of a list. *)
Fixpoint load_links (data : pointer) (js : list nat) : MH (list Z) :=
  match js with
  | [] => mret []
  | j :: js' => n ← load_u32 (link_at data j); ns ← load_links data js'; mret (n :: ns)
  end.

Fixpoint store_links (data : pointer) (j : nat) (ns : list Z) : MH unit :=
  match ns with
  | [] => mret tt
  | n :: ns' => store_u32 (link_at data j) n ;; store_links data (S j) ns'
  end.

Fixpoint is_linked (data : pointer) (js : list nat) (c : Z) : MH bool :=
  match js with
  | [] => mret false
  | j :: js' => n ← load_u32 (link_at data j); if n =? c then mret true else is_linked data js' c
  end.

Fixpoint emplace_links (data : pointer) (js : list nat) (other : Z) (K_Set : Q) : MH Q :=
  match js with
  | [] => mret K_Set
  | j :: js' =>
      n ← load_u32 (link_at data j);
      d ← distance_between n other;
      emplace_links data js' other (q_emplace (d, n) K_Set)
  end.

(** The link back from a selected neighbour. *)
Definition connect_back (max_M current_c level : Z) (updateFlag : bool) (other : Z) : MH unit :=
  with_lock other (
    link_other ← get_neighbors_at_level other level;
    size ← getListCount link_other;
    throw_if (max_M <? size) "Bad value of sizeof_link_other" ;;
    throw_if (other =? current_c) "Trying to connect an element to itself" ;;
    l ← level_of other;
    throw_if (l <? level) "Trying to make a link on a non-existent level" ;;
    let js := seq 0 (Z.to_nat size) in
    present ← (if updateFlag then is_linked link_other js current_c else mret false);
    if present : bool then mret tt
    else if size <? max_M then
      store_u32 (link_at link_other (Z.to_nat size)) current_c ;;
      setListCount link_other (size + 1)
    else
      max_distance ← distance_between current_c other;
      K_Set ← emplace_links link_other js other (q_emplace (max_distance, current_c) q_empty);
      K_Set ← getNeighborsByHeuristic2 K_Set max_M;
      let ns := snd <$> q_drain K_Set in
      store_links link_other 0 ns ;;
      setListCount link_other (Z.of_nat (length ns))).

Fixpoint connect_all_back (max_M current_c level : Z) (updateFlag : bool) (selected : list Z) : MH unit :=
  match selected with
  | [] => mret tt
  | n :: selected' => connect_back max_M current_c level updateFlag n ;; connect_all_back max_M current_c level updateFlag selected'
  end.

Definition mutuallyConnectNewElement (current_c : Z) (Top_K : Q) (level : Z) (updateFlag : bool) : MH Z :=
  l ← gets layout;
  let max_M := if level =? 0 then max_M0_ l else max_M_ l in
  Top_K ← getNeighborsByHeuristic2 Top_K (M_ l);
  throw_if (M_ l <? Z.of_nat (q_size Top_K)) "Should not be more than M_ candidates returned by the heuristic" ;;
  let selectedNeighbors := snd <$> q_drain Top_K in
  match last selectedNeighbors with
  | None => undef
  | Some next_closest_entry_point =>
      (if updateFlag then with_lock current_c (connect_new current_c level updateFlag selectedNeighbors)
       else connect_new current_c level updateFlag selectedNeighbors) ;;
      connect_all_back max_M current_c level updateFlag selectedNeighbors ;;
      mret next_closest_entry_point
  end.

(** *** The descent through the upper levels *)

(** One pass over the links of an element; [checked] is the test [addPoint] and
    [searchKnn] make and [repairConnectionsForUpdate] does not. *)
Fixpoint scan_closer (checked : bool) (data_point : list byte) (data : pointer) (js : list nat) (st : Z * Z * bool) :
    MH (Z * Z * bool) :=
  match js with
  | [] => mret st
  | j :: js' =>
      let '(current_obj, current_distance, changed) := st in
      candidate ← load_u32 (link_at data j);
      cap ← gets capacity_;
      throw_if (checked && (cap <? candidate)) "candidate error!" ;;
      d ← distance_to data_point candidate;
      scan_closer checked data_point data js'
        (if d <? current_distance then (candidate, d, true) else (current_obj, current_distance, changed))
  end.

(** [while (changed)] at one level. *)
Fixpoint descend_level (fuel : nat) (checked : bool) (data_point : list byte) (level current_obj current_distance : Z) :
    MH (Z * Z) :=
  match fuel with
  | O => no_fuel
  | S fuel =>
      '(obj, d, changed) ← with_lock current_obj (
        data ← get_neighbors_at_level current_obj level;
        size ← getListCount data;
        scan_closer checked data_point data (seq 0 (Z.to_nat size)) (current_obj, current_distance, false));
      if changed : bool then descend_level fuel checked data_point level obj d else mret (obj, d)
  end.

(** From [max_level] down to the level above [target]. *)
Fixpoint descend (fuel : nat) (checked : bool) (data_point : list byte) (levels : list Z) (current_obj current_distance : Z) :
    MH (Z * Z) :=
  match levels with
  | [] => mret (current_obj, current_distance)
  | level :: levels' =>
      '(obj, d) ← descend_level fuel checked data_point level current_obj current_distance;
      descend fuel checked data_point levels' obj d
  end.

(** The levels from [hi] down to [lo]. *)
Definition levels_down (hi lo : Z) : list Z := (λ i, hi - Z.of_nat i) <$> seq 0 (Z.to_nat (hi - lo + 1)).

(** *** Deletion marks *)
Definition markDeletedInternal (internalId : Z) : MH unit :=
  n ← gets element_count_;
  assert_ (internalId <? n) ;;
  deleted ← isMarkedDeleted internalId;
  if deleted : bool then throw (runtime_error "The requested to delete element is already deleted")
  else
    p ← get_neighbors_L0 internalId;
    b ← load 1 (shift p 2);
    store (shift p 2) (le_bytes 1 (Z.lor (le_val b) DELETE_MARK)) ;;
    modify (λ s, set_deleted_count (size_add (deleted_count_ s) 1) s) ;;
    reuse ← gets reuse_deleted_;
    if reuse : bool then modify (λ s, set_deleted_elements ({[internalId]} ∪ deleted_elements_ s) s) else mret tt.

Definition unmarkDeletedInternal (internalId : Z) : MH unit :=
  n ← gets element_count_;
  assert_ (internalId <? n) ;;
  deleted ← isMarkedDeleted internalId;
  if deleted : bool then
    p ← get_neighbors_L0 internalId;
    b ← load 1 (shift p 2);
    store (shift p 2) (le_bytes 1 (Z.land (le_val b) (Z.lnot DELETE_MARK))) ;;
    modify (λ s, set_deleted_count (size_add (deleted_count_ s) (-1)) s) ;;
    reuse ← gets reuse_deleted_;
    if reuse : bool then modify (λ s, set_deleted_elements (deleted_elements_ s ∖ {[internalId]}) s) else mret tt
  else throw (runtime_error "The requested to undelete element is not deleted").

Definition find_label (label : Z) : MH Z :=
  m ← gets label_map_;
  match m !! label with Some i => mret i | None => throw (runtime_error "Label not found") end.

Definition markDelete (label : Z) : MH unit := i ← find_label label; markDeletedInternal i.
Definition unmarkDelete (label : Z) : MH unit := i ← find_label label; unmarkDeletedInternal i.

(** [data_t] elements of a vector: [n] bytes of it. *)
Definition getDataByLabel (n : Z) (label : Z) : MH (list byte) :=
  i ← find_label label;
  deleted ← isMarkedDeleted i;
  throw_if deleted "Label not found" ;;
  p ← getDataByInternalId i;
  load n p.

(** *** updatePoint *)
Definition getConnectionsWithLock (internalId level : Z) : MH (list Z) :=
  with_lock internalId (
    data ← get_neighbors_at_level internalId level;
    size ← getListCount data;
    load_links data (seq 0 (Z.to_nat size))).

(** The one-hop elements taken as neighbours - those the random number does not skip -
    and the candidates. *)
Fixpoint gather (layer : Z) (skip : Z → Z → bool) (list_one_hop : list Z) (st : gset Z * gset Z) : MH (gset Z * gset Z) :=
  match list_one_hop with
  | [] => mret st
  | e :: es =>
      let '(candidate_set, neighbor_set) := st in
      let candidate_set := {[e]} ∪ candidate_set in
      if skip layer e then gather layer skip es (candidate_set, neighbor_set)
      else
        list_two_hop ← getConnectionsWithLock e layer;
        gather layer skip es (list_to_set list_two_hop ∪ candidate_set, {[e]} ∪ neighbor_set)
  end.

Fixpoint closest_candidates (neighbor elements_to_keep : Z) (cs : list Z) (candidates : Q) : MH Q :=
  match cs with
  | [] => mret candidates
  | c :: cs' =>
      if c =? neighbor then closest_candidates neighbor elements_to_keep cs' candidates
      else
        d ← distance_between neighbor c;
        if Z.of_nat (q_size candidates) <? elements_to_keep then
          closest_candidates neighbor elements_to_keep cs' (q_emplace (d, c) candidates)
        else
          match q_top candidates with
          | None => undef
          | Some t =>
              closest_candidates neighbor elements_to_keep cs'
                (if d <? t.1 then q_emplace (d, c) (q_pop candidates) else candidates)
          end
  end.

Definition relink (layer : Z) (candidate_set : gset Z) (neighbor : Z) : MH unit :=
  l ← gets layout;
  let size := Z.of_nat (if decide (neighbor ∈ candidate_set) then Nat.pred (size candidate_set) else size candidate_set) in
  candidates ← closest_candidates neighbor (Z.min (efConstruction_ l) size) (iterate candidate_set) q_empty;
  candidates ← getNeighborsByHeuristic2 candidates (if layer =? 0 then max_M0_ l else max_M_ l);
  with_lock neighbor (
    link_current ← get_neighbors_at_level neighbor layer;
    setListCount link_current (Z.of_nat (q_size candidates)) ;;
    store_links link_current 0 (snd <$> q_drain candidates)).

Fixpoint relink_all (layer : Z) (candidate_set : gset Z) (ns : list Z) : MH unit :=
  match ns with
  | [] => mret tt
  | n :: ns' => relink layer candidate_set n ;; relink_all layer candidate_set ns'
  end.

Fixpoint update_layers (skip : Z → Z → bool) (internalId : Z) (layers : list Z) : MH unit :=
  match layers with
  | [] => mret tt
  | layer :: layers' =>
      list_one_hop ← getConnectionsWithLock internalId layer;
      (if decide (list_one_hop = []) then mret tt
       else
         '(candidate_set, neighbor_set) ← gather layer skip list_one_hop ({[internalId]}, ∅);
         relink_all layer candidate_set (iterate neighbor_set)) ;;
      update_layers skip internalId layers'
  end.

Fixpoint repair_levels (fuel : nat) (dataPoint : list byte) (entry_point data_point_id : Z) (levels : list Z) (current_obj : Z) : MH unit :=
  match levels with
  | [] => mret tt
  | level :: levels' =>
      Top_K ← searchBaseLayer fuel current_obj dataPoint level;
      let Filtered_Top_K := q_fill (filter (λ p : entry, p.2 ≠ data_point_id) (q_drain Top_K)) q_empty in
      obj ← (if (0 <? q_size Filtered_Top_K)%nat then
               deleted ← isMarkedDeleted entry_point;
               Filtered_Top_K ← (if deleted : bool then
                   d ← distance_to dataPoint entry_point;
                   ef ← conf efConstruction_;
                   let f := q_emplace (d, entry_point) Filtered_Top_K in
                   mret (if ef <? Z.of_nat (q_size f) then q_pop f else f)
                 else mret Filtered_Top_K);
               mutuallyConnectNewElement data_point_id Filtered_Top_K level true
             else mret current_obj);
      repair_levels fuel dataPoint entry_point data_point_id levels' obj
  end.

Definition repairConnectionsForUpdate (fuel : nat) (dataPoint : list byte) (entry_point data_point_id data_point_level max_level : Z) : MH unit :=
  obj ← (if data_point_level <? max_level then
           d ← distance_to dataPoint entry_point;
           '(obj, _) ← descend fuel false dataPoint (levels_down max_level (data_point_level + 1)) entry_point d;
           mret obj
         else mret entry_point);
  throw_if (max_level <? data_point_level) "Level of item to be updated cannot be bigger than max level" ;;
  repair_levels fuel dataPoint entry_point data_point_id (levels_down data_point_level 0) obj.

(** [memcpy] of a vector into its element. *)
Definition copy_vector (internalId : Z) (dataPoint : list byte) : MH unit :=
  n ← conf data_size_;
  match read_mem n 0 dataPoint with
  | Some v => p ← getDataByInternalId internalId; store p v
  | None => undef
  end.

Definition updatePoint (fuel : nat) (dataPoint : list byte) (internalId : Z) (skip : Z → Z → bool) : MH unit :=
  copy_vector internalId dataPoint ;;
  max_levelCopy ← gets max_level_;
  entry_id_copy ← gets entry_id_;
  n ← gets element_count_;
  if (entry_id_copy =? internalId) && (n =? 1) then mret tt
  else
    element_level ← level_of internalId;
    update_layers skip internalId (rev (levels_down element_level 0)) ;;
    repairConnectionsForUpdate fuel dataPoint entry_id_copy internalId element_level max_levelCopy.

(** *** addPoint *)
Fixpoint insert_levels (fuel : nat) (data_point : list byte) (current_c entry_id_copy max_level_copy : Z)
    (entry_id_deleted : bool) (levels : list Z) (current_obj : Z) : MH unit :=
  match levels with
  | [] => mret tt
  | level :: levels' =>
      throw_if ((max_level_copy <? level) || (level <? 0)) "Level error" ;;
      Top_K ← searchBaseLayer fuel current_obj data_point level;
      Top_K ← (if entry_id_deleted then
          d ← distance_to data_point entry_id_copy;
          ef ← conf efConstruction_;
          let t := q_emplace (d, entry_id_copy) Top_K in
          mret (if ef <? Z.of_nat (q_size t) then q_pop t else t)
        else mret Top_K);
      obj ← mutuallyConnectNewElement current_c Top_K level false;
      insert_levels fuel data_point current_c entry_id_copy max_level_copy entry_id_deleted levels' obj
  end.

(** The link block of an element of an upper level, zeroed. *)
Definition make_block (current_c current_level : Z) : MH unit :=
  l ← gets layout;
  let n := size_add (size_mul (link_stride_ l) current_level) 1 in
  blocks ← gets link_blocks_;
  match malloc n with
  | None =>
      match set_at current_c None blocks with
      | Some blocks => modify (set_link_blocks blocks) ;; throw (runtime_error "Not enough memory: addPoint failed to allocate linklist")
      | None => undef
      end
  | Some _ =>
      match set_at current_c (Some (replicate (Z.to_nat n) Byte.x00)) blocks with
      | Some blocks => modify (set_link_blocks blocks)
      | None => undef
      end
  end.

(** The links of the new element into the graph. *)
Definition insert_element (fuel : nat) (data_point : list byte) (current_c current_level max_level_copy entry_id_copy : Z) : MH unit :=
  obj ← (if current_level <? max_level_copy then
           d ← distance_to data_point entry_id_copy;
           '(obj, _) ← descend fuel true data_point (levels_down max_level_copy (current_level + 1)) entry_id_copy d;
           mret obj
         else mret entry_id_copy);
  entry_id_deleted ← isMarkedDeleted entry_id_copy;
  insert_levels fuel data_point current_c entry_id_copy max_level_copy entry_id_deleted
    (levels_down (Z.min current_level max_level_copy) 0) obj.

(** The element's memory: zeroed, then its label, its vector and its link block. *)
Definition place_element (data_point : list byte) (label current_c current_level : Z) : MH unit :=
  p ← get_neighbors_L0 current_c;
  stride ← conf element_stride_;
  store p (replicate (Z.to_nat stride) Byte.x00) ;;
  setExternalLabel current_c label ;;
  copy_vector current_c data_point ;;
  if current_level =? 0 then mret tt else make_block current_c current_level.

(** [drawn] is the random level, [level] the one the caller asks for. *)
Definition addPoint_level (fuel : nat) (data_point : list byte) (label level drawn : Z) : MH Z :=
  m ← gets label_map_;
  match m !! label with
  | Some existingInternalId =>
      reuse ← gets reuse_deleted_;
      deleted ← isMarkedDeleted existingInternalId;
      throw_if (reuse && deleted) "Can't use addPoint to update deleted elements if replacement of deleted elements is enabled." ;;
      (if deleted : bool then unmarkDeletedInternal existingInternalId else mret tt) ;;
      updatePoint fuel data_point existingInternalId (λ _ _, false) ;;
      mret existingInternalId
  | None =>
      n ← gets element_count_;
      cap ← gets capacity_;
      throw_if (cap <=? n) "The number of elements exceeds the specified limit" ;;
      let current_c := wrapu 32 n in
      modify (λ s, set_label_map (<[label := current_c]> (label_map_ s)) (set_element_count (size_add (element_count_ s) 1) s)) ;;
      with_lock current_c (
        let current_level := if 0 <? level then level else drawn in
        levels ← gets element_levels_;
        match set_at current_c current_level levels with
        | None => undef
        | Some levels =>
            modify (set_element_levels levels) ;;
            max_level_copy ← gets max_level_;
            entry_id_copy ← gets entry_id_;
            place_element data_point label current_c current_level ;;
            (if negb (wraps 32 entry_id_copy =? -1) then
               insert_element fuel data_point current_c current_level max_level_copy entry_id_copy
             else modify (λ s, set_max_level current_level (set_entry_id 0 s))) ;;
            (if max_level_copy <? current_level then
               modify (λ s, set_max_level current_level (set_entry_id current_c s))
             else mret tt) ;;
            mret current_c
        end)
  end.

Definition addPoint (fuel : nat) (data_point : list byte) (label : Z) (reuse_deleted : bool) (drawn : Z) : MH unit :=
  reuse ← gets reuse_deleted_;
  throw_if (negb reuse && reuse_deleted) "Replacement of deleted elements is disabled in constructor" ;;
  if negb reuse_deleted then addPoint_level fuel data_point label (-1) drawn ;; mret tt
  else
    deleted ← gets deleted_elements_;
    match iterate deleted with
    | [] => addPoint_level fuel data_point label (-1) drawn ;; mret tt
    | internal_id_replaced :: _ =>
        modify (λ s, set_deleted_elements (deleted_elements_ s ∖ {[internal_id_replaced]}) s) ;;
        label_replaced ← getExternalLabel internal_id_replaced;
        setExternalLabel internal_id_replaced label ;;
        modify (λ s, set_label_map (<[label := internal_id_replaced]> (delete label_replaced (label_map_ s))) s) ;;
        unmarkDeletedInternal internal_id_replaced ;;
        updatePoint fuel data_point internal_id_replaced (λ _ _, false)
    end.


(** *** Searching *)

(** [searchBaseLayerST], called with the filter and the stop condition, and what a stop
    condition makes of a result. *)
Context {stop_condition : Type}.
Context (searchBaseLayerST : bool → Z → list byte → Z → option (Z → bool) → option stop_condition → MH Q).
Context (filter_results : stop_condition → list entry → list entry).

Definition count_hop (size : Z) : MH unit :=
  modify (λ s, set_metrics (wraps 64 (metric_distance_computations_ s + size)) (wraps 64 (metric_hops_ s + 1)) s).

Fixpoint knn_level (fuel : nat) (query_data : list byte) (level current_obj current_distance : Z) : MH (Z * Z) :=
  match fuel with
  | O => no_fuel
  | S fuel =>
      data ← get_neighbors current_obj level;
      size ← getListCount data;
      count_hop size ;;
      '(obj, d, changed) ← scan_closer true query_data data (seq 0 (Z.to_nat size)) (current_obj, current_distance, false);
      if changed : bool then knn_level fuel query_data level obj d else mret (obj, d)
  end.

Fixpoint knn_descend (fuel : nat) (query_data : list byte) (levels : list Z) (current_obj current_distance : Z) : MH Z :=
  match levels with
  | [] => mret current_obj
  | level :: levels' =>
      '(obj, d) ← knn_level fuel query_data level current_obj current_distance;
      knn_descend fuel query_data levels' obj d
  end.

(** Where the search of the lowest level starts. *)
Definition knn_start (fuel : nat) (query_data : list byte) : MH Z :=
  entry_id ← gets entry_id_;
  d ← distance_to query_data entry_id;
  max_level ← gets max_level_;
  knn_descend fuel query_data (levels_down max_level 1) entry_id d.

(** [while (Top_K.size() > k) Top_K.pop()]. *)
Fixpoint pop_to (n : nat) (k : Z) (Top_K : Q) : Q :=
  match n with
  | O => Top_K
  | S n' => if k <? Z.of_nat (q_size Top_K) then pop_to n' k (q_pop Top_K) else Top_K
  end.

Fixpoint push_labels (found : list entry) (result : queue) : MH queue :=
  match found with
  | [] => mret result
  | x :: found' => label ← getExternalLabel x.2; push_labels found' (NearestQueue.emplace (x.1, label) result)
  end.

Definition searchKnn (fuel : nat) (query_data : list byte) (k : Z) (isIdAllowed : option (Z → bool)) : MH queue :=
  n ← gets element_count_;
  if n =? 0 then mret []
  else
    current_obj ← knn_start fuel query_data;
    deleted ← gets deleted_count_;
    ef ← conf efSearch_;
    let bare_bone_search := (deleted =? 0) && negb (bool_decide (is_Some isIdAllowed)) in
    Top_K ← searchBaseLayerST bare_bone_search current_obj query_data (Z.max ef k) isIdAllowed None;
    push_labels (q_drain (pop_to (q_size Top_K) k Top_K)) [].

Definition searchStopConditionClosest (fuel : nat) (query_data : list byte) (stop : stop_condition)
    (isIdAllowed : option (Z → bool)) : MH (list entry) :=
  n ← gets element_count_;
  if n =? 0 then mret []
  else
    current_obj ← knn_start fuel query_data;
    Top_K ← searchBaseLayerST false current_obj query_data 0 isIdAllowed (Some stop);
    mret (filter_results stop (rev (q_drain Top_K))).
End Index.
