(* ===== verification/HnswRep.v ===== *)
(** What the memory of the graph index holds: a list of elements, each with its links,
    its mark, its vector and its label.

    [rep s es] relates the bytes of a state to the elements; every access of [Hnsw] has a
    rule that says what it reads or how it changes the elements.  [holds] adds the locks
    that are taken and the visited lists that are in use, and that nothing else of the
    index has changed since [s0]. *)

From S2P Require Import Prelude Bytes Memory CxxLib NearestQueue MaxQueue VisitedList Wp Hnsw.

(** ** Elements *)

(** A link list: its header and all its slots, those behind the count too. *)
Record linklist := mkLinks { l_count : Z; l_mark : Z; l_pad : Z; l_slots : list Z }.

Record element := mkElem { e_base : linklist; e_vector : list byte; e_label : Z; e_upper : list linklist }.

Definition e_level (e : element) : Z := Z.of_nat (length (e_upper e)).

Definition enc_links (ll : linklist) : list byte :=
  le_bytes 2 (l_count ll) ++ le_bytes 1 (l_mark ll) ++ le_bytes 1 (l_pad ll) ++ concat (le_bytes 4 <$> l_slots ll).
Definition enc_elem (e : element) : list byte := enc_links (e_base e) ++ e_vector e ++ le_bytes 8 (e_label e).
Definition enc_upper (e : element) : list byte := concat (enc_links <$> e_upper e).

Definition list_at (e : element) (l : Z) : option linklist :=
  if l =? 0 then Some (e_base e) else if 0 <? l then e_upper e !! Z.to_nat (l - 1) else None.
Definition set_list (l : Z) (ll : linklist) (e : element) : element :=
  if l =? 0 then mkElem ll (e_vector e) (e_label e) (e_upper e)
  else mkElem (e_base e) (e_vector e) (e_label e) (<[Z.to_nat (l - 1) := ll]> (e_upper e)).

(** The links of an element at a level, and whether it is marked deleted. *)
Definition stored (ll : linklist) : list Z := take (Z.to_nat (l_count ll)) (l_slots ll).
Definition links (e : element) (l : Z) : list Z := match list_at e l with Some ll => stored ll | None => [] end.
Definition deleted (e : element) : bool := negb (Z.land (l_mark (e_base e)) DELETE_MARK =? 0).

Definition has (es : list element) (i : Z) (e : element) : Prop := 0 ≤ i ∧ es !! Z.to_nat i = Some e.

(** ** Well-formed elements and layouts *)
Record layout_ok (l : Layout) (cap : Z) : Prop := {
  lo_M : 1 ≤ M_ l ≤ max_M_ l;
  lo_M0 : M_ l ≤ max_M0_ l;
  lo_max : max_M_ l < 2 ^ 16;
  lo_max0 : max_M0_ l < 2 ^ 16;
  lo_link0 : link0_offset_ l = 0;
  lo_stride0 : link0_stride_ l = 4 * max_M0_ l + 4;
  lo_data : data_offset_ l = link0_stride_ l;
  lo_size : 0 ≤ data_size_ l;
  lo_label : label_offset_ l = data_offset_ l + data_size_ l;
  lo_stride : element_stride_ l = label_offset_ l + 8;
  lo_link : link_stride_ l = 4 * max_M_ l + 4;
  lo_cap : 0 ≤ cap < 2 ^ 32 - 1;
  lo_total : cap * element_stride_ l < 2 ^ 64;
}.

Record links_ok (max : Z) (ll : linklist) : Prop := {
  ll_slots : Z.of_nat (length (l_slots ll)) = max;
  ll_count : 0 ≤ l_count ll ≤ max;
  ll_mark : 0 ≤ l_mark ll < 2 ^ 8;
  ll_pad : 0 ≤ l_pad ll < 2 ^ 8;
  ll_ids : Forall (λ z, 0 ≤ z < 2 ^ 32) (l_slots ll);
}.

Record elem_ok (l : Layout) (e : element) : Prop := {
  eo_base : links_ok (max_M0_ l) (e_base e);
  eo_upper : Forall (links_ok (max_M_ l)) (e_upper e);
  eo_vector : Z.of_nat (length (e_vector e)) = data_size_ l;
  eo_label : 0 ≤ e_label e < 2 ^ 64;
  eo_level : e_level e < 2 ^ 31;
}.

Record elem_mem (s : HierarchicalNSW) (i : nat) (e : element) : Prop := {
  em_level0 : reads (level0_data_ s) (Z.of_nat i * element_stride_ (layout s)) (enc_elem e);
  em_upper : e_upper e ≠ [] → ∃ b, link_blocks_ s !! i = Some (Some b) ∧ reads b 0 (enc_upper e);
  em_level : element_levels_ s !! i = Some (e_level e);
}.

Record rep (s : HierarchicalNSW) (es : list element) : Prop := {
  rep_layout : layout_ok (layout s) (capacity_ s);
  rep_count : element_count_ s = Z.of_nat (length es);
  rep_cap : Z.of_nat (length es) ≤ capacity_ s;
  rep_level0 : Z.of_nat (length (level0_data_ s)) = capacity_ s * element_stride_ (layout s);
  rep_blocks : Z.of_nat (length (link_blocks_ s)) = capacity_ s;
  rep_levels : Z.of_nat (length (element_levels_ s)) = capacity_ s;
  rep_elems : ∀ i e, es !! i = Some e → elem_ok (layout s) e ∧ elem_mem s i e;
}.

(** ** Sizes and parts of encodings *)
Lemma length_enc_slots zs : length (concat (le_bytes 4 <$> zs)) = (4 * length zs)%nat.
Proof.
  rewrite (length_concat_same _ 4), length_fmap; [lia|].
  apply Forall_fmap, Forall_forall. intros z _. apply length_le_bytes.
Qed.

Lemma length_enc_links max ll : links_ok max ll → Z.of_nat (length (enc_links ll)) = 4 * max + 4.
Proof. intros H. unfold enc_links. rewrite !length_app, !length_le_bytes, length_enc_slots. pose proof (ll_slots _ _ H). lia. Qed.

Lemma length_enc_elem l cap e :
  layout_ok l cap → elem_ok l e → Z.of_nat (length (enc_elem e)) = element_stride_ l.
Proof.
  intros Hl He. unfold enc_elem. rewrite !length_app, length_le_bytes.
  pose proof (length_enc_links _ _ (eo_base _ _ He)). pose proof (eo_vector _ _ He). destruct Hl. lia.
Qed.

(** The same, with the place of a part in it. *)
Lemma enc_slot ll j z z' :
  l_slots ll !! j = Some z →
  ∃ x y, length x = (4 + 4 * j)%nat ∧ enc_links ll = x ++ le_bytes 4 z ++ y ∧
    enc_links (mkLinks (l_count ll) (l_mark ll) (l_pad ll) (<[j := z']> (l_slots ll))) = x ++ le_bytes 4 z' ++ y.
Proof.
  intros Hj. unfold enc_links. cbn [l_count l_mark l_pad l_slots]. rewrite list_fmap_insert.
  destruct (concat_split (le_bytes 4 <$> l_slots ll) 4 j (le_bytes 4 z) (le_bytes 4 z')) as (x & y & Hlen & -> & ->).
  { apply Forall_fmap, Forall_forall. intros w _. apply length_le_bytes. }
  { by rewrite list_lookup_fmap, Hj. }
  exists (le_bytes 2 (l_count ll) ++ le_bytes 1 (l_mark ll) ++ le_bytes 1 (l_pad ll) ++ x), y.
  rewrite <- !app_assoc, !length_app, !length_le_bytes. by split_and!; [lia| |].
Qed.

Lemma enc_list max e k ll ll' :
  Forall (links_ok max) (e_upper e) → links_ok max ll' → e_upper e !! k = Some ll →
  ∃ x y, Z.of_nat (length x) = Z.of_nat k * (4 * max + 4) ∧ enc_upper e = x ++ enc_links ll ++ y ∧
    concat (enc_links <$> <[k := ll']> (e_upper e)) = x ++ enc_links ll' ++ y.
Proof.
  intros Hall Hll' Hk. unfold enc_upper. rewrite list_fmap_insert.
  destruct (concat_split (enc_links <$> e_upper e) (Z.to_nat (4 * max + 4)) k (enc_links ll) (enc_links ll'))
    as (x & y & Hlen & -> & ->).
  - apply Forall_fmap. eapply Forall_impl; [exact Hall|]. intros w Hw%length_enc_links. unfold compose. lia.
  - by rewrite list_lookup_fmap, Hk.
  - exists x, y. apply length_enc_links in Hll'. by split_and!; [rewrite Hlen, Nat2Z.inj_mul, Z2Nat.id; lia| |].
Qed.

(** The stored links are those of the slots before the count. *)
Lemma stored_slots max ll : links_ok max ll → omap (λ j, l_slots ll !! j) (seq 0 (Z.to_nat (l_count ll))) = stored ll.
Proof.
  intros [Hs Hc _ _ _]. unfold stored. remember (Z.to_nat (l_count ll)) as n eqn:Hn.
  assert (n ≤ length (l_slots ll))%nat as Hle by lia. clear Hn Hs Hc. revert Hle. generalize (l_slots ll). clear.
  intros zs. revert n. induction zs as [|z zs IH]; intros [|n] Hle; cbn in *; [done|lia|done|].
  f_equal. rewrite <- (IH n) by lia. rewrite <- fmap_S_seq. clear. generalize (seq 0 n). intros ns.
  induction ns as [|j ns IH]; cbn; [done|]. by destruct (zs !! j); rewrite IH.
Qed.

(** ** Addresses *)
Definition where_list (l : Layout) (i level : Z) : pointer :=
  if level =? 0 then Level0 (i * element_stride_ l) else Upper i ((level - 1) * link_stride_ l).

(** The bytes behind a pointer. *)
Definition preads (s : HierarchicalNSW) (p : pointer) (bs : list byte) : Prop :=
  match p with
  | Level0 off => reads (level0_data_ s) off bs
  | Upper i off => 0 ≤ i ∧ ∃ b, link_blocks_ s !! Z.to_nat i = Some (Some b) ∧ reads b off bs
  end.

Lemma preads_app s p x y : preads s p (x ++ y) → preads s p x ∧ preads s (shift p (Z.of_nat (length x))) y.
Proof.
  destruct p as [off|i off]; cbn; [apply reads_app|]. intros (Hi & b & Hb & [Hx Hy]%reads_app). eauto 10.
Qed.

Lemma preads_mid s p x y z : preads s p (x ++ y ++ z) → preads s (shift p (Z.of_nat (length x))) y.
Proof. intros [_ H]%preads_app. by apply preads_app in H as [H _]. Qed.

Lemma load_bytes_run s p bs n : preads s p bs → n = Z.of_nat (length bs) → load n p s = Done bs s.
Proof.
  intros Hp ->. unfold load. destruct p as [off|i off]; cbn in Hp.
  - by rewrite (proj2 (read_mem_reads _ off _ bs)).
  - destruct Hp as (Hi & b & Hb & Hr). rewrite decide_True, Hb by done. cbn.
    by rewrite (proj2 (read_mem_reads _ off _ bs)).
Qed.

Lemma layout_pos l cap : layout_ok l cap → 8 ≤ element_stride_ l.
Proof. intros []. lia. Qed.

Lemma address_bound l cap i off :
  layout_ok l cap → 0 ≤ i < cap → 0 ≤ off ≤ element_stride_ l →
  0 ≤ i * element_stride_ l ∧ i * element_stride_ l + off < 2 ^ 64 ∧ (i + 1) * element_stride_ l ≤ cap * element_stride_ l.
Proof.
  intros Hl Hi Hoff. pose proof (layout_pos _ _ Hl). pose proof (lo_total _ _ Hl).
  assert ((i + 1) * element_stride_ l ≤ cap * element_stride_ l) by (apply Z.mul_le_mono_nonneg_r; lia). nia.
Qed.

Lemma element_at_run s cap i offset :
  layout_ok (layout s) cap → 0 ≤ i < cap → 0 ≤ offset (layout s) ≤ element_stride_ (layout s) →
  element_at i offset s = Done (Level0 (i * element_stride_ (layout s) + offset (layout s))) s.
Proof.
  intros Hl Hi Hoff. destruct (address_bound _ _ i (offset (layout s)) Hl Hi Hoff) as (H1 & H2 & _).
  unfold element_at, gets, mbind, M_bind, mret, M_ret, size_add, size_mul. do 2 f_equal.
  by rewrite (wrapu_small 64 (i * _)), wrapu_small by lia.
Qed.

Section Addresses.
Context (s : HierarchicalNSW) (es : list element) (Hrep : rep s es).

Lemma has_lt i e : has es i e → 0 ≤ i < Z.of_nat (length es) ∧ i < capacity_ s.
Proof. intros [Hi He%lookup_lt_Some]. pose proof (rep_cap _ _ Hrep). lia. Qed.

Lemma has_ok i e : has es i e → elem_ok (layout s) e ∧ elem_mem s (Z.to_nat i) e.
Proof. intros [_ He]. by apply (rep_elems _ _ Hrep). Qed.

Lemma element_run i e offset :
  has es i e → 0 ≤ offset (layout s) ≤ element_stride_ (layout s) →
  element_at i offset s = Done (Level0 (i * element_stride_ (layout s) + offset (layout s))) s.
Proof.
  intros Hhas Hoff. destruct (has_lt i e Hhas) as [Hi Hc]. apply (element_at_run _ (capacity_ s)); [apply Hrep|lia|done].
Qed.

Lemma list_run i e l ll :
  has es i e → list_at e l = Some ll →
  get_neighbors_at_level i l s = Done (where_list (layout s) i l) s ∧
  preads s (where_list (layout s) i l) (enc_links ll).
Proof.
  intros Hhas Hll. destruct (has_lt i e Hhas) as [Hi Hc]. destruct (has_ok i e Hhas) as [He Hm].
  pose proof (rep_layout _ _ Hrep) as Hl. unfold get_neighbors_at_level, where_list, list_at in *.
  destruct (Z.eqb_spec l 0) as [->|Hne].
  - injection Hll as <-. unfold get_neighbors_L0. split.
    + rewrite (element_run i e link0_offset_ Hhas) by (destruct Hl; lia). by rewrite (lo_link0 _ _ Hl), Z.add_0_r.
    + pose proof (em_level0 _ _ _ Hm) as Hr. unfold enc_elem in Hr. apply reads_app in Hr as [Hr _].
      rewrite Z2Nat.id in Hr by lia. done.
  - destruct (Z.ltb_spec 0 l) as [Hpos|]; [|done]. unfold get_neighbors, gets, mbind, M_bind, mret, M_ret.
    destruct (enc_list _ e _ ll ll (eo_upper _ _ He) (Forall_lookup_1 _ _ _ _ (eo_upper _ _ He) Hll) Hll)
      as (x & y & Hx & Henc & _).
    assert (l ≤ e_level e) as Hle by (apply lookup_lt_Some in Hll; unfold e_level; lia).
    pose proof (eo_level _ _ He). destruct (em_upper _ _ _ Hm) as (b & Hb & Hr); [by intros Hnil; rewrite Hnil in Hll|].
    split.
    + do 2 f_equal. unfold size_mul. rewrite wrapu_small; [done|]. destruct Hl. nia.
    + cbn. split; [lia|]. exists b. split; [done|]. rewrite Henc in Hr. apply reads_app in Hr as [_ Hr].
      apply reads_app in Hr as [Hr _]. by rewrite Hx, Z2Nat.id, Z.add_0_l, <- (lo_link _ _ Hl) in Hr by lia.
Qed.
End Addresses.

(** ** Writing *)
Lemma stride_apart i j n : i < j → 0 ≤ n → i * n + n ≤ j * n.
Proof. intros Hij Hn. assert (0 ≤ (j - i - 1) * n) by (apply Z.mul_nonneg_nonneg; lia). lia. Qed.

Lemma store_elem s es i e e' x y y' z :
  rep s es → has es i e → enc_elem e = x ++ y ++ z → enc_elem e' = x ++ y' ++ z → length y' = length y →
  elem_ok (layout s) e' → e_upper e' = e_upper e →
  ∃ d, store (Level0 (i * element_stride_ (layout s) + Z.of_nat (length x))) y' s = Done tt (set_level0_data d s) ∧
    rep (set_level0_data d s) (<[Z.to_nat i := e']> es).
Proof.
  intros Hrep Hhas Hx Hx' Hy He' Hup. destruct (has_lt s es Hrep i e Hhas) as [Hi Hc].
  destruct (has_ok s es Hrep i e Hhas) as [He [Hm0 Hmu Hml]].
  pose proof (length_enc_elem _ _ _ (rep_layout _ _ Hrep) He) as Hlen.
  rewrite Z2Nat.id, Hx in Hm0 by lia. rewrite Hx in Hlen.
  destruct (write_inside _ _ _ _ y' _ Hm0 Hy) as (d & Hw & Hd & Hr & Hkeep). exists d. split.
  - unfold store. by rewrite Hw.
  - pose proof Hrep as [H1 H2 H3 H4 H5 H6 H7]. split; cbn; try done; rewrite ?length_insert, ?Hd; try done.
    intros j f [(<- & <- & _)|[Hne Hf]]%list_lookup_insert_Some.
    + split; [done|]. split.
      * by rewrite Z2Nat.id, Hx' by lia.
      * unfold enc_upper. rewrite Hup. exact Hmu.
      * unfold e_level in *. rewrite Hup. exact Hml.
    + destruct (H7 j f Hf) as [Hf' [Hf0 Hfu Hfl]]. split; [done|]. split; [|done|done].
      apply Hkeep; [|done]. rewrite (length_enc_elem _ _ _ H1 Hf'), Hlen.
      pose proof (layout_pos _ _ H1). destruct (Z.lt_ge_cases (Z.of_nat j) i); [left|right]; apply stride_apart; cbn; lia.
Qed.

Lemma store_upper s es i e e' x y y' z :
  rep s es → has es i e → enc_upper e = x ++ y ++ z → enc_upper e' = x ++ y' ++ z → length y' = length y →
  elem_ok (layout s) e' → e_upper e ≠ [] → e_level e' = e_level e → enc_elem e' = enc_elem e →
  ∃ bl, store (Upper i (Z.of_nat (length x))) y' s = Done tt (set_link_blocks bl s) ∧
    rep (set_link_blocks bl s) (<[Z.to_nat i := e']> es).
Proof.
  intros Hrep Hhas Hx Hx' Hy He' Hnil Hlev Henc. destruct (has_lt s es Hrep i e Hhas) as [Hi Hc].
  destruct (has_ok s es Hrep i e Hhas) as [He [Hm0 Hmu Hml]]. destruct (Hmu Hnil) as (b & Hb & Hr).
  rewrite Hx in Hr. destruct (write_inside _ _ _ _ y' _ Hr Hy) as (d & Hw & Hd & Hr' & _).
  rewrite Z.add_0_l in Hw. exists (<[Z.to_nat i := Some d]> (link_blocks_ s)). split.
  - unfold store. rewrite decide_True, Hb by lia. cbn. by rewrite Hw.
  - pose proof Hrep as [H1 H2 H3 H4 H5 H6 H7]. split; cbn; try done; rewrite ?length_insert; try done.
    intros j f [(<- & <- & _)|[Hne Hf]]%list_lookup_insert_Some.
    + split; [done|]. split; [by rewrite Henc| |by rewrite Hlev].
      intros _. exists d. cbn [link_blocks_ set_link_blocks]. rewrite list_lookup_insert_eq, Hx'; [done|].
      by eapply lookup_lt_Some.
    + destruct (H7 j f Hf) as [Hf' [Hf0 Hfu Hfl]]. split; [done|]. split; [done| |done].
      cbn [link_blocks_ set_link_blocks]. by rewrite list_lookup_insert_ne by done.
Qed.

(** The elements only depend on the memory. *)
Lemma rep_ext s s' es :
  layout s' = layout s → capacity_ s' = capacity_ s → element_count_ s' = element_count_ s →
  element_levels_ s' = element_levels_ s → level0_data_ s' = level0_data_ s → link_blocks_ s' = link_blocks_ s →
  rep s es → rep s' es.
Proof.
  intros E1 E2 E3 E4 E5 E6 [H1 H2 H3 H4 H5 H6 H7]. split; rewrite ?E1, ?E2, ?E3, ?E4, ?E5, ?E6; try done.
  intros i e Hi. destruct (H7 i e Hi) as [He [Hm1 Hm2 Hm3]]. split; [done|].
  by split; rewrite ?E1, ?E4, ?E5, ?E6.
Qed.

(** ** The state but for the memory, the locks, the visited lists and the metrics *)

(** The visited lists in use. *)
Abbreviation hands := (gmap loc (gset nat)).

Definition frame (s0 s : HierarchicalNSW) : Prop :=
  s = set_metrics (metric_distance_computations_ s) (metric_hops_ s)
        (set_visited_pool (visited_pool_ s) (set_link_locks (link_locks_ s)
          (set_link_blocks (link_blocks_ s) (set_level0_data (level0_data_ s) s0)))).

Record holds (s0 : HierarchicalNSW) (es : list element) (L : gset Z) (h : hands) (s : HierarchicalNSW) : Prop := {
  ho_frame : frame s0 s;
  ho_rep : rep s es;
  ho_locks : link_locks_ s = L;
  ho_pool : pool_rep (Z.to_nat (capacity_ s)) (visited_pool_ s) h;
}.

Lemma holds_layout s0 es L h s : holds s0 es L h s → layout s = layout s0 ∧ capacity_ s = capacity_ s0 ∧ element_count_ s = element_count_ s0.
Proof. intros [Hf _ _ _]. rewrite Hf. done. Qed.

Lemma holds_start s es h :
  rep s es → pool_rep (Z.to_nat (capacity_ s)) (visited_pool_ s) h → holds s es (link_locks_ s) h s.
Proof. intros Hrep Hp. split; try done. by destruct s. Qed.

Lemma elem_ok_set_list lay e l ll ll' :
  elem_ok lay e → list_at e l = Some ll →
  links_ok (if l =? 0 then max_M0_ lay else max_M_ lay) ll' → elem_ok lay (set_list l ll' e).
Proof.
  intros [H1 H2 H3 H4 H5] Hll Hll'. unfold set_list, list_at in *. destruct (Z.eqb_spec l 0); [done|].
  split; try done; cbn; [by apply Forall_insert|]. unfold e_level in *. cbn. by rewrite length_insert.
Qed.

(** A store into a link list. *)
Lemma store_list s0 es L h s i e l ll ll' x y y' z (Φ : unit → HierarchicalNSW → Prop) :
  holds s0 es L h s → has es i e → list_at e l = Some ll →
  enc_links ll = x ++ y ++ z → enc_links ll' = x ++ y' ++ z → length y' = length y →
  links_ok (if l =? 0 then max_M0_ (layout s0) else max_M_ (layout s0)) ll' →
  (∀ s', holds s0 (<[Z.to_nat i := set_list l ll' e]> es) L h s' → Φ tt s') →
  wp (store (shift (where_list (layout s0) i l) (Z.of_nat (length x))) y') Φ s.
Proof.
  intros Hh Hhas Hll Hx Hx' Hy Hok HΦ. destruct (holds_layout _ _ _ _ _ Hh) as (Hlay & _ & _).
  destruct Hh as [Hf Hrep Hlk Hp]. rewrite <- Hlay in *.
  destruct (has_ok s es Hrep i e Hhas) as [He Hm]. pose proof (elem_ok_set_list _ _ _ _ _ He Hll Hok) as He'.
  pose proof (rep_layout _ _ Hrep) as Hl. unfold where_list, set_list, list_at in *.
  destruct (Z.eqb_spec l 0) as [->|Hne].
  - injection Hll as <-.
    destruct (store_elem s es i e (mkElem ll' (e_vector e) (e_label e) (e_upper e)) x y y'
      (z ++ e_vector e ++ le_bytes 8 (e_label e)) Hrep Hhas) as (d & Hrun & Hrep'); try done.
    { unfold enc_elem. by rewrite Hx, <- !app_assoc. }
    { unfold enc_elem. cbn [e_base e_vector e_label]. by rewrite Hx', <- !app_assoc. }
    eapply wp_run; [exact Hrun|]. apply HΦ. by split; [rewrite Hf| | |].
  - destruct (Z.ltb_spec 0 l); [|done].
    destruct (enc_list _ e _ ll ll' (eo_upper _ _ He) Hok Hll) as (u & v & Hu & Henc & Henc').
    destruct (store_upper s es i e (mkElem (e_base e) (e_vector e) (e_label e) (<[Z.to_nat (l - 1) := ll']> (e_upper e)))
      (u ++ x) y y' (z ++ v) Hrep Hhas) as (bl & Hrun & Hrep'); try done.
    + by rewrite Henc, Hx, <- !app_assoc.
    + unfold enc_upper. cbn [e_upper]. by rewrite Henc', Hx', <- !app_assoc.
    + by intros Hnil; rewrite Hnil in Hll.
    + unfold e_level. cbn. by rewrite length_insert.
    + rewrite length_app, Nat2Z.inj_add, Hu, Z2Nat.id, <- (lo_link _ _ Hl) in Hrun by lia.
      eapply wp_run; [exact Hrun|]. apply HΦ. by split; [rewrite Hf| | |].
Qed.

(** ** The rules *)
Lemma wp_gets {A} (f : HierarchicalNSW → A) (Φ : A → HierarchicalNSW → Prop) s : Φ (f s) s → wp (gets f) Φ s.
Proof. done. Qed.

Lemma wp_conf {A} (f : Layout → A) (Φ : A → HierarchicalNSW → Prop) s : Φ (f (layout s)) s → wp (conf f) Φ s.
Proof. done. Qed.

Lemma wp_throw_if b what (Φ : unit → HierarchicalNSW → Prop) s : b = false → Φ tt s → wp (throw_if b what) Φ s.
Proof. by intros ->. Qed.

Lemma wp_lock {A} i (body : MH A) (Φ : A → HierarchicalNSW → Prop) s :
  i ∉ link_locks_ s → 0 ≤ i < capacity_ s →
  wp body (λ a s', Φ a (set_link_locks (link_locks_ s' ∖ {[i]}) s')) (set_link_locks ({[i]} ∪ link_locks_ s) s) →
  wp (with_lock i body) Φ s.
Proof.
  intros Hi Hcap. unfold wp, with_lock. rewrite decide_True, decide_False by done. by destruct (body _).
Qed.

Lemma le_val_small n z : 0 ≤ z < 2 ^ (8 * Z.of_nat n) → le_val (le_bytes n z) = z.
Proof. intros Hz. by rewrite le_val_le_bytes, wrapu_small. Qed.

Definition set_count (c : Z) (ll : linklist) : linklist := mkLinks c (l_mark ll) (l_pad ll) (l_slots ll).
Definition set_slot (j : nat) (z : Z) (ll : linklist) : linklist :=
  mkLinks (l_count ll) (l_mark ll) (l_pad ll) (<[j := z]> (l_slots ll)).
Definition set_mark (m : Z) (ll : linklist) : linklist := mkLinks (l_count ll) m (l_pad ll) (l_slots ll).

Definition max_at (l : Layout) (level : Z) : Z := if level =? 0 then max_M0_ l else max_M_ l.

Section Rules.
Context {s0 : HierarchicalNSW} {es : list element} {L : gset Z} {h : hands} {s : HierarchicalNSW}.
Context (Hh : holds s0 es L h s).

Lemma holds_ok i e : has es i e → elem_ok (layout s0) e ∧ elem_mem s (Z.to_nat i) e.
Proof. intros Hhas. destruct (holds_layout _ _ _ _ _ Hh) as (<- & _). apply (has_ok s es (ho_rep _ _ _ _ _ Hh) i e Hhas). Qed.

Lemma holds_list_ok i e l ll : has es i e → list_at e l = Some ll → links_ok (max_at (layout s0) l) ll.
Proof.
  intros [He _]%holds_ok Hll. unfold list_at, max_at in *. destruct (Z.eqb_spec l 0); [injection Hll as <-; apply He|].
  destruct (0 <? l); [|done]. exact (Forall_lookup_1 _ _ _ _ (eo_upper _ _ He) Hll).
Qed.

Lemma holds_reads i e l ll :
  has es i e → list_at e l = Some ll →
  get_neighbors_at_level i l s = Done (where_list (layout s0) i l) s ∧
  preads s (where_list (layout s0) i l) (enc_links ll).
Proof.
  destruct (holds_layout _ _ _ _ _ Hh) as (<- & _). apply list_run, (ho_rep _ _ _ _ _ Hh).
Qed.

Lemma wp_list i e l ll Φ :
  has es i e → list_at e l = Some ll → Φ (where_list (layout s0) i l) s → wp (get_neighbors_at_level i l) Φ s.
Proof. intros Hhas Hll. destruct (holds_reads i e l ll Hhas Hll) as [Hrun _]. by apply wp_run. Qed.

Lemma wp_count i e l ll Φ :
  has es i e → list_at e l = Some ll → Φ (l_count ll) s → wp (getListCount (where_list (layout s0) i l)) Φ s.
Proof.
  intros Hhas Hll HΦ. destruct (holds_reads i e l ll Hhas Hll) as [_ Hr].
  pose proof (holds_list_ok i e l ll Hhas Hll) as [_ Hc _ _ _].
  destruct (holds_layout _ _ _ _ _ Hh) as (Hlay & _). pose proof (rep_layout _ _ (ho_rep _ _ _ _ _ Hh)) as Hl.
  unfold enc_links in Hr. apply preads_app in Hr as [Hr _]. unfold getListCount.
  rewrite Hlay in Hl. wp_run_with (load_bytes_run _ _ _ 2 Hr eq_refl).
  rewrite le_val_small; [by apply wp_ret|]. unfold max_at in Hc. destruct Hl, (l =? 0); lia.
Qed.

Lemma wp_head i e l ll Φ :
  has es i e → list_at e l = Some ll →
  (∀ v, (l_count ll = 0 → l_mark ll = 0 → l_pad ll = 0 → v = 0) → Φ v s) →
  wp (load_u32 (where_list (layout s0) i l)) Φ s.
Proof.
  intros Hhas Hll HΦ. destruct (holds_reads i e l ll Hhas Hll) as [_ Hr].
  unfold enc_links in Hr. rewrite !app_assoc in Hr. apply preads_app in Hr as [Hr _].
  unfold load_u32. wp_run_with (load_bytes_run _ _ _ 4 Hr eq_refl). apply wp_ret, HΦ. by intros -> -> ->.
Qed.

Lemma wp_slot i e l ll j z Φ :
  has es i e → list_at e l = Some ll → l_slots ll !! j = Some z → Φ z s →
  wp (load_u32 (link_at (where_list (layout s0) i l) j)) Φ s.
Proof.
  intros Hhas Hll Hj HΦ. destruct (holds_reads i e l ll Hhas Hll) as [_ Hr].
  pose proof (holds_list_ok i e l ll Hhas Hll) as [_ _ _ _ Hall].
  destruct (enc_slot ll j z z Hj) as (x & y & Hx & Henc & _). rewrite Henc in Hr. apply preads_mid in Hr.
  unfold load_u32, link_at. replace (4 + 4 * Z.of_nat j) with (Z.of_nat (length x)) by lia.
  wp_run_with (load_bytes_run _ _ _ 4 Hr eq_refl). rewrite le_val_small; [by apply wp_ret|].
  exact (Forall_lookup_1 _ _ _ _ Hall Hj).
Qed.

Lemma wp_set_count i e l ll c Φ :
  has es i e → list_at e l = Some ll → 0 ≤ c ≤ max_at (layout s0) l →
  (∀ s', holds s0 (<[Z.to_nat i := set_list l (set_count c ll) e]> es) L h s' → Φ tt s') →
  wp (setListCount (where_list (layout s0) i l) c) Φ s.
Proof.
  intros Hhas Hll Hc HΦ. pose proof (holds_list_ok i e l ll Hhas Hll) as [H1 H2 H3 H4 H5].
  pose proof (store_list s0 es L h s i e l ll (set_count c ll) [] (le_bytes 2 (l_count ll)) (le_bytes 2 c)
    (le_bytes 1 (l_mark ll) ++ le_bytes 1 (l_pad ll) ++ concat (le_bytes 4 <$> l_slots ll)) Φ Hh Hhas Hll) as Hst.
  unfold setListCount. replace (where_list (layout s0) i l) with (shift (where_list (layout s0) i l) 0).
  - by apply Hst.
  - unfold where_list. destruct (l =? 0); cbn; by rewrite Z.add_0_r.
Qed.

Lemma wp_set_slot i e l ll j z Φ :
  has es i e → list_at e l = Some ll → (j < length (l_slots ll))%nat → 0 ≤ z < 2 ^ 32 →
  (∀ s', holds s0 (<[Z.to_nat i := set_list l (set_slot j z ll) e]> es) L h s' → Φ tt s') →
  wp (store_u32 (link_at (where_list (layout s0) i l) j) z) Φ s.
Proof.
  intros Hhas Hll [old Hj]%lookup_lt_is_Some_2 Hz HΦ. pose proof (holds_list_ok i e l ll Hhas Hll) as [H1 H2 H3 H4 H5].
  destruct (enc_slot ll j old z Hj) as (x & y & Hx & Henc & Henc').
  unfold store_u32, link_at. replace (4 + 4 * Z.of_nat j) with (Z.of_nat (length x)) by lia.
  eapply (store_list s0 es L h s i e l ll (set_slot j z ll)); try done.
  split; cbn; try done; [by rewrite length_insert|by apply Forall_insert].
Qed.

Lemma wp_deleted i e (Φ : bool → HierarchicalNSW → Prop) : has es i e → Φ (deleted e) s → wp (isMarkedDeleted i) Φ s.
Proof.
  intros Hhas HΦ. destruct (holds_reads i e 0 (e_base e) Hhas eq_refl) as [Hrun Hr].
  destruct (holds_ok i e Hhas) as [He _]. pose proof (ll_mark _ _ (eo_base _ _ He)).
  unfold enc_links in Hr. apply preads_mid in Hr. unfold isMarkedDeleted. apply wp_bind.
  change (get_neighbors_L0 i) with (get_neighbors_at_level i 0). eapply wp_run; [exact Hrun|]. cbn beta.
  wp_run_with (load_bytes_run _ _ _ 1 Hr eq_refl). rewrite le_val_small; [by apply wp_ret|done].
Qed.

Lemma wp_vector i e (Φ : list byte → HierarchicalNSW → Prop) : has es i e → Φ (e_vector e) s → wp (vector_of i) Φ s.
Proof.
  intros Hhas HΦ. pose proof (ho_rep _ _ _ _ _ Hh) as Hrep. destruct (has_ok s es Hrep i e Hhas) as [He Hm].
  pose proof (rep_layout _ _ Hrep) as Hl. pose proof (em_level0 _ _ _ Hm) as Hr.
  pose proof (length_enc_links _ _ (eo_base _ _ He)) as Hlen. destruct (has_lt s es Hrep i e Hhas) as [Hi _].
  unfold enc_elem in Hr. apply reads_app in Hr as [_ Hr]. apply reads_app in Hr as [Hr _].
  unfold vector_of, getDataByInternalId. apply wp_bind.
  eapply wp_run; [apply (element_run s es Hrep i e _ Hhas); destruct Hl; lia|]. cbn beta. apply wp_bind, wp_conf.
  eapply wp_run; [apply (load_bytes_run s _ (e_vector e))|exact HΦ]; [|by destruct He].
  rewrite Z2Nat.id in Hr by lia. cbn. rewrite (lo_data _ _ Hl), (lo_stride0 _ _ Hl), <- Hlen. done.
Qed.

Lemma wp_label i e (Φ : Z → HierarchicalNSW → Prop) : has es i e → Φ (e_label e) s → wp (getExternalLabel i) Φ s.
Proof.
  intros Hhas HΦ. pose proof (ho_rep _ _ _ _ _ Hh) as Hrep. destruct (has_ok s es Hrep i e Hhas) as [He Hm].
  pose proof (rep_layout _ _ Hrep) as Hl. pose proof (em_level0 _ _ _ Hm) as Hr.
  pose proof (length_enc_links _ _ (eo_base _ _ He)) as Hlen. destruct (has_lt s es Hrep i e Hhas) as [Hi _].
  unfold enc_elem in Hr. rewrite app_assoc in Hr. apply reads_app in Hr as [_ Hr].
  unfold getExternalLabel. apply wp_bind.
  eapply wp_run; [apply (element_run s es Hrep i e _ Hhas); destruct Hl; lia|]. cbn beta. apply wp_bind.
  eapply wp_run; [apply (load_bytes_run s _ (le_bytes 8 (e_label e)))|].
  - rewrite Z2Nat.id, length_app in Hr by lia. cbn. rewrite (lo_label _ _ Hl), (lo_data _ _ Hl), (lo_stride0 _ _ Hl).
    rewrite <- Hlen, <- (eo_vector _ _ He), <- Nat2Z.inj_add. done.
  - by rewrite length_le_bytes.
  - cbn beta. rewrite le_val_small by apply He. done.
Qed.

Lemma wp_level_of i e (Φ : Z → HierarchicalNSW → Prop) : has es i e → Φ (e_level e) s → wp (level_of i) Φ s.
Proof.
  intros Hhas HΦ. destruct (holds_ok i e Hhas) as [_ [_ _ Hl]]. unfold level_of. apply wp_bind, wp_gets.
  unfold at_. rewrite decide_True by apply Hhas. rewrite Hl. by apply wp_ret.
Qed.

(** A lock around a computation. *)
Lemma wp_with_lock {A} i (body : MH A) Φ :
  i ∉ L → 0 ≤ i < capacity_ s0 →
  (∀ s1, holds s0 es ({[i]} ∪ L) h s1 →
    wp body (λ a s2, ∃ es' h', holds s0 es' ({[i]} ∪ L) h' s2 ∧ ∀ s3, holds s0 es' L h' s3 → Φ a s3) s1) →
  wp (with_lock i body) Φ s.
Proof.
  intros Hi Hcap Hbody. destruct Hh as [Hf Hrep Hlk Hp]. destruct (holds_layout _ _ _ _ _ Hh) as (_ & Hc & _).
  apply wp_lock; [by rewrite Hlk|by rewrite Hc|]. eapply wp_mono; [apply Hbody|].
  - split; [by rewrite Hf|by apply (rep_ext s)|by cbn; rewrite Hlk|done].
  - intros a s2 (es' & h' & [Hf2 Hrep2 Hlk2 Hp2] & HΦ).
    apply HΦ. split; [by rewrite Hf2|by apply (rep_ext s2)| |done]. cbn. rewrite Hlk2. set_solver.
Qed.
End Rules.
