(* ===== verification/HnswSearch.v ===== *)
(** The search of one level of the graph index, [searchBaseLayer] of
    src/hnsw/hnsw_scratch/hnsw_core.hpp.

    It is a worklist search with a visited list.  [search_inv] is what holds between two
    elements that are expanded: what was visited is reachable, [Top_K] holds the closest of
    the unmarked elements visited, and everything visited is on the worklist, expanded, or
    too far away.  The length of the worklist and the elements not visited bound the
    number of rounds. *)

From S2P Require Import Prelude Bytes Memory CxxLib NearestQueue MaxQueue VisitedList Wp Hnsw HnswRep.

(** ** The graph *)
Definition linked (es : list element) (l i j : Z) : Prop := ∃ e, has es i e ∧ j ∈ links e l.
Definition reach (es : list element) (l : Z) : Z → Z → Prop := rtc (linked es l).

Section Search.
Context {Q : Type} `{MaxQueueLaws Q}.
Context (distance : list byte → list byte → Z).
Context (es : list element) (l start : Z) (dp : list byte) (ef : Z) (Hef : 0 ≤ ef).

(** What a search finds. *)
Record found (Top : list entry) : Prop := {
  f_nodup : NoDup (snd <$> Top);
  f_elem : ∀ x, x ∈ Top → reach es l start x.2 ∧ ∃ e, has es x.2 e ∧ deleted e = false ∧ x.1 = distance dp (e_vector e);
  f_size : Z.of_nat (length Top) ≤ Z.max 1 ef;
  f_nonempty : ∀ e, has es start e → deleted e = false →
    0 < ef ∨ (∀ j e, reach es l start j → has es j e → deleted e = false) → Top ≠ [];
  f_links : ∀ x e k f, x ∈ Top → has es x.2 e → k ∈ links e l → has es k f → deleted f = false →
    k ∈ snd <$> Top ∨ (ef ≤ Z.of_nat (length Top) ∧ ∀ y, y ∈ Top → y.1 ≤ distance dp (e_vector f));
  f_all : (∀ U, NoDup U → (∀ j, j ∈ U → reach es l start j ∧ ∃ e, has es j e ∧ deleted e = false) → Z.of_nat (length U) ≤ ef) →
    ∀ j e, reach es l start j → has es j e → deleted e = false → j ∈ snd <$> Top;
}.

(** [exempt] is the element that is being expanded. *)
Record search_inv (exempt : option Z) (seen : gset nat) (Top_K K_Set : Q) (lower_bound : Z) : Prop := {
  si_seen : ∀ n, n ∈ seen → reach es l start (Z.of_nat n);
  si_top : ∀ x, x ∈ q_elems Top_K → Z.to_nat x.2 ∈ seen ∧
    ∃ e, has es x.2 e ∧ deleted e = false ∧ x.1 = distance dp (e_vector e) ∧ x.1 ≤ lower_bound;
  si_nodup : NoDup (snd <$> q_elems Top_K);
  si_size : Z.of_nat (q_size Top_K) ≤ Z.max 1 ef;
  si_work : ∀ x, x ∈ q_elems K_Set → Z.to_nat x.2 ∈ seen ∧
    ∃ e, has es x.2 e ∧ (deleted e = false → x.1 = - distance dp (e_vector e));
  si_best : ∀ j e, has es j e → Z.to_nat j ∈ seen → deleted e = false →
    j ∈ snd <$> q_elems Top_K ∨
    (ef ≤ Z.of_nat (q_size Top_K) ∧ (q_elems Top_K = [] ∨ lower_bound ≤ distance dp (e_vector e)));
  si_expanded : ∀ j e, has es j e → Z.to_nat j ∈ seen →
    exempt = Some j ∨ j ∈ snd <$> q_elems K_Set ∨ (∀ k, k ∈ links e l → Z.to_nat k ∈ seen) ∨
    (ef ≤ Z.of_nat (q_size Top_K) ∧ j ∉ snd <$> q_elems Top_K);
  si_nonempty : ∀ e, has es start e → deleted e = false →
    0 < ef ∨ (∀ j e, reach es l start j → has es j e → deleted e = false) → q_elems Top_K ≠ [];
}.

(** What [consider] makes of an element at distance [d]. *)
Definition trimmed (Top_K : Q) : Q := if ef <? Z.of_nat (q_size Top_K) then q_pop Top_K else Top_K.
Definition offer (d k : Z) (del : bool) (st : Q * Q * Z) : Q * Q * Z :=
  let '(Top_K, K_Set, lower_bound) := st in
  if (Z.of_nat (q_size Top_K) <? ef) || (d <? lower_bound) then
    let Top_K := trimmed (if del then Top_K else q_emplace (d, k) Top_K) in
    (Top_K, q_emplace (- d, k) K_Set, match q_top Top_K with Some t => t.1 | None => lower_bound end)
  else st.

Definition bound (Top_K : Q) (lower_bound : Z) : Z := match q_top Top_K with Some t => t.1 | None => lower_bound end.

(** Trimming keeps what is there, or drops one of the farthest. *)
Lemma trimmed_spec Top_K lb :
  (∀ x, x ∈ q_elems (trimmed Top_K) → x ∈ q_elems Top_K) ∧
  (∀ x, x ∈ q_elems Top_K → x ∈ q_elems (trimmed Top_K) ∨
    (ef ≤ Z.of_nat (q_size (trimmed Top_K)) ∧ (q_elems (trimmed Top_K) = [] ∨ bound (trimmed Top_K) lb ≤ x.1))) ∧
  (q_size (trimmed Top_K) = q_size Top_K ∨ q_size Top_K = S (q_size (trimmed Top_K))) ∧
  (NoDup (snd <$> q_elems Top_K) → NoDup (snd <$> q_elems (trimmed Top_K))) ∧
  Z.min ef (Z.of_nat (q_size Top_K)) ≤ Z.of_nat (q_size (trimmed Top_K)) ≤ Z.max ef (Z.of_nat (q_size Top_K) - 1).
Proof.
  unfold trimmed. destruct (Z.ltb_spec ef (Z.of_nat (q_size Top_K))); [|by split_and!; [eauto|eauto|left|done|lia|lia]].
  destruct (top_is_Some Top_K) as [z Hz]; [lia|]. pose proof (top_size _ _ Hz). destruct (top_Some _ _ Hz) as [Hp Hmax].
  split_and!; [intros x; by apply (pop_in _ z)| |by right| |lia|lia].
  - intros x Hx. pose proof (Hmax x Hx) as Hle. rewrite Hp in Hx. apply elem_of_cons in Hx as [->|Hx]; [right|by left].
    split; [lia|]. unfold bound. destruct (q_top (q_pop Top_K)) as [t|] eqn:Et; [right|left; by apply top_None].
    apply Hmax. rewrite Hp. right. by apply top_in.
  - rewrite Hp. by intros [_ Hnd]%NoDup_cons.
Qed.

Lemma bound_spec Top_K lb :
  (∀ y, y ∈ q_elems Top_K → y.1 ≤ bound Top_K lb) ∧ (q_elems Top_K = [] ∨ ∃ t, t ∈ q_elems Top_K ∧ bound Top_K lb = t.1).
Proof.
  unfold bound. destruct (q_top Top_K) as [t|] eqn:Et.
  - split; [by apply top_Some|]. right. exists t. split; [by apply top_in|done].
  - apply top_None in Et as ->. split; [by intros y ?%elem_of_nil|by left].
Qed.

Section Offer.
Context (exempt : option Z) (seen : gset nat) (Top_K K_Set : Q) (lb k : Z) (e : element).
Context (Hinv : search_inv exempt seen Top_K K_Set lb).
Context (Hreach : reach es l start k) (Hk : has es k e) (Hnew : Z.to_nat k ∉ seen).

Lemma seen_reach n : n ∈ {[Z.to_nat k]} ∪ seen → reach es l start (Z.of_nat n).
Proof.
  intros [->%elem_of_singleton|Hn]%elem_of_union; [|by apply (si_seen _ _ _ _ _ Hinv)]. destruct Hk. by rewrite Z2Nat.id.
Qed.

Lemma seen_which j f : has es j f → Z.to_nat j ∈ {[Z.to_nat k]} ∪ seen → (j = k ∧ f = e) ∨ Z.to_nat j ∈ seen.
Proof.
  intros [Hj Hf] [Heq%elem_of_singleton|Hn]%elem_of_union; [left|by right].
  destruct Hk as [Hk0 He]. assert (j = k) as -> by lia. split; [done|congruence].
Qed.

Lemma new_not_top x : x ∈ q_elems Top_K → x.2 ≠ k.
Proof. intros [Hx _]%(si_top _ _ _ _ _ Hinv) Heq. by rewrite Heq in Hx. Qed.

Lemma reject_inv :
  ef ≤ Z.of_nat (q_size Top_K) → lb ≤ distance dp (e_vector e) →
  search_inv exempt ({[Z.to_nat k]} ∪ seen) Top_K K_Set lb.
Proof.
  intros Hfull Hfar. pose proof Hinv as [H1 H2 H3 H4 H5 H6 H7 H8]. split; try done.
  - apply seen_reach.
  - intros x Hx. destruct (H2 x Hx) as (? & f & ?). split; [set_solver|eauto].
  - intros x Hx. destruct (H5 x Hx) as (? & f & ?). split; [set_solver|eauto].
  - intros j f Hf Hj Hdel. destruct (seen_which j f Hf Hj) as [[-> ->]|Hj']; [right; auto|by apply H6].
  - intros j f Hf Hj. destruct (seen_which j f Hf Hj) as [[-> ->]|Hj'].
    + do 3 right. split; [done|]. intros (x & Heq & Hx)%list_elem_of_fmap. by apply (new_not_top x Hx).
    + destruct (H7 j f Hf Hj') as [?|[?|[Hl|?]]]; auto. right; right; left. set_solver.
Qed.

(** A live element that was seen is kept, or no closer than everything that is. *)
Lemma accept_best (Top1 := if deleted e then Top_K else q_emplace (distance dp (e_vector e), k) Top_K) j f :
  Z.of_nat (q_size Top_K) < ef ∨ distance dp (e_vector e) < lb →
  has es j f → Z.to_nat j ∈ {[Z.to_nat k]} ∪ seen → deleted f = false →
  j ∈ snd <$> q_elems (trimmed Top1) ∨ (ef ≤ Z.of_nat (q_size (trimmed Top1)) ∧
    (q_elems (trimmed Top1) = [] ∨ bound (trimmed Top1) lb ≤ distance dp (e_vector f))).
Proof.
  set (d := distance dp (e_vector e)) in *. intros Hor Hf Hj Hdel. pose proof Hinv as [_ H2 _ H4 _ H6 _ _].
  assert (∀ x, x ∈ q_elems Top1 ↔ x ∈ q_elems Top_K ∨ (deleted e = false ∧ x = (d, k))) as Hmem.
  { intros x. unfold Top1. destruct (deleted e); [naive_solver|]. rewrite elems_emplace, elem_of_cons. naive_solver. }
  assert (q_size Top_K ≤ q_size Top1 ≤ S (q_size Top_K))%nat as Hsz.
  { unfold Top1. destruct (deleted e); rewrite ?size_emplace; lia. }
  destruct (trimmed_spec Top1 lb) as (Hsub & Hkept & Htr & Hnd' & Hsize). destruct (bound_spec (trimmed Top1) lb) as [_ Hb2].
  assert (∀ x, x ∈ q_elems Top1 → x.1 = distance dp (e_vector f) → x.2 ∈ snd <$> q_elems (trimmed Top1) ∨
    (ef ≤ Z.of_nat (q_size (trimmed Top1)) ∧
     (q_elems (trimmed Top1) = [] ∨ bound (trimmed Top1) lb ≤ distance dp (e_vector f)))) as Hk1.
  { intros x Hx <-. destruct (Hkept x Hx); [left; by apply list_elem_of_fmap_2|by right]. }
  destruct (seen_which j f Hf Hj) as [[-> ->]|Hj'].
  { apply (Hk1 (d, k)); [|done]. apply Hmem. auto. }
  destruct (H6 j f Hf Hj' Hdel) as [(x & -> & Hx)%list_elem_of_fmap|[Hfull Hbest]].
  { apply Hk1; [apply Hmem; auto|]. destruct (H2 x Hx) as (_ & g & Hg & _ & -> & _).
    destruct Hg, Hf. congruence. }
  right. split; [lia|]. destruct Hb2 as [?|(t & Ht & ->)]; [by left|].
  apply Hsub, Hmem in Ht as [Ht|[_ ->]].
  - destruct Hbest as [Hnil|Hle]; [by rewrite Hnil in Ht; apply elem_of_nil in Ht|].
    right. destruct (H2 t Ht) as (_ & g & _ & _ & _ & ?). lia.
  - destruct Hbest as [Hnil|Hle]; [|right; cbn; lia]. left. apply length_zero_iff_nil.
    unfold q_size in *. rewrite Hnil in *. cbn in *. lia.
Qed.

Lemma accept_inv :
  Z.of_nat (q_size Top_K) < ef ∨ distance dp (e_vector e) < lb →
  let Top1 := if deleted e then Top_K else q_emplace (distance dp (e_vector e), k) Top_K in
  search_inv exempt ({[Z.to_nat k]} ∪ seen) (trimmed Top1) (q_emplace (- distance dp (e_vector e), k) K_Set)
    (bound (trimmed Top1) lb).
Proof.
  intros Hor Top1. set (d := distance dp (e_vector e)) in *. pose proof Hinv as [H1 H2 H3 H4 H5 H6 H7 H8].
  assert (∀ x, x ∈ q_elems Top1 ↔ x ∈ q_elems Top_K ∨ (deleted e = false ∧ x = (d, k))) as Hmem.
  { intros x. unfold Top1. destruct (deleted e); [naive_solver|]. rewrite elems_emplace, elem_of_cons. naive_solver. }
  assert (q_size Top_K ≤ q_size Top1 ≤ S (q_size Top_K))%nat as Hsz.
  { unfold Top1. destruct (deleted e); rewrite ?size_emplace; lia. }
  assert (NoDup (snd <$> q_elems Top1)) as Hnd.
  { unfold Top1. destruct (deleted e); [done|]. rewrite elems_emplace. cbn. apply NoDup_cons. split; [|done].
    intros (x & Heq & Hx)%list_elem_of_fmap. by apply (new_not_top x Hx). }
  destruct (trimmed_spec Top1 lb) as (Hsub & _ & Htr & Hnd' & Hsize). destruct (bound_spec (trimmed Top1) lb) as [Hb1 _].
  split.
  - apply seen_reach.
  - intros x Hx. pose proof (Hb1 x Hx) as Hle. apply Hsub, Hmem in Hx as [Hx|[Hdel ->]].
    + destruct (H2 x Hx) as (? & f & ? & ? & ? & _). split; [set_solver|eauto 6].
    + split; [set_solver|eauto 6].
  - auto.
  - lia.
  - intros x. rewrite elems_emplace, elem_of_cons. intros [->|Hx]; [split; [set_solver|eauto]|].
    destruct (H5 x Hx) as (? & f & ?). split; [set_solver|eauto].
  - intros j f Hf Hj Hdel. by apply accept_best.
  - intros j f Hf Hj. destruct (seen_which j f Hf Hj) as [[-> ->]|Hj'].
    { right; left. rewrite elems_emplace. by left. }
    destruct (H7 j f Hf Hj') as [?|[?|[Hl|[Hfull Hnot]]]]; [by auto| | |].
    + right; left. rewrite elems_emplace. by right.
    + right; right; left. set_solver.
    + do 3 right. split; [lia|]. intros (x & -> & Hx)%list_elem_of_fmap. apply Hsub, Hmem in Hx as [Hx|[_ ->]].
      * apply Hnot. by apply list_elem_of_fmap_2.
      * by apply Hnew.
  - intros f Hf Hdel Hcase. specialize (H8 f Hf Hdel Hcase) as Hne.
    assert (0 < q_size Top_K)%nat as Hpos by (unfold q_size; destruct (q_elems Top_K); [done|cbn; lia]).
    assert (0 < q_size (trimmed Top1))%nat as Hpos'; [|unfold q_size in Hpos'; intros Hnil; rewrite Hnil in Hpos'; cbn in Hpos'; lia].
    destruct Hcase as [?|Hall]; [lia|]. unfold Top1 in *. rewrite (Hall k e Hreach Hk), size_emplace in *. lia.
Qed.

Lemma offer_inv :
  let '(Top_K', K_Set', lb') := offer (distance dp (e_vector e)) k (deleted e) (Top_K, K_Set, lb) in
  search_inv exempt ({[Z.to_nat k]} ∪ seen) Top_K' K_Set' lb' ∧ (q_size K_Set' ≤ S (q_size K_Set))%nat.
Proof.
  unfold offer. destruct (_ || _) eqn:E.
  - split; [|by rewrite size_emplace]. apply accept_inv. apply orb_true_iff in E as [E%Z.ltb_lt|E%Z.ltb_lt]; auto.
  - apply orb_false_iff in E as [E1%Z.ltb_ge E2%Z.ltb_ge]. split; [by apply reject_inv|lia].
Qed.
End Offer.

(** Changing the exempt element. *)
Lemma pop_inv seen Top_K K_Set lb x :
  search_inv None seen Top_K K_Set lb → q_top K_Set = Some x → search_inv (Some x.2) seen Top_K (q_pop K_Set) lb.
Proof.
  intros [H1 H2 H3 H4 H5 H6 H7 H8] Hx. destruct (top_Some _ _ Hx) as [Hp _]. split; try done.
  - intros y Hy. apply H5. by apply (pop_in _ x).
  - intros j e He Hj. destruct (H7 j e He Hj) as [?|[Hin|?]]; [done| |by auto].
    rewrite Hp in Hin. apply elem_of_cons in Hin as [->|?]; auto.
Qed.

Lemma expanded_inv i e seen Top_K K_Set lb :
  search_inv (Some i) seen Top_K K_Set lb → has es i e → (∀ k, k ∈ links e l → Z.to_nat k ∈ seen) →
  search_inv None seen Top_K K_Set lb.
Proof.
  intros [H1 H2 H3 H4 H5 H6 H7 H8] Hi Hall. split; try done. intros j f Hf Hj.
  destruct (H7 j f Hf Hj) as [[= <-]|?]; [|by auto]. right; right; left.
  destruct Hi, Hf. by assert (f = e) as -> by congruence.
Qed.

(** A search that ends has found. *)
Lemma finish_inv seen Top_K K_Set lb :
  search_inv None seen Top_K K_Set lb → Z.to_nat start ∈ seen →
  q_top K_Set = None ∨ (∃ x, q_top K_Set = Some x ∧ lb < - x.1 ∧ Z.of_nat (q_size Top_K) = ef) →
  found (q_elems Top_K).
Proof.
  intros [H1 H2 H3 H4 H5 H6 H7 H8] Hstart Hend. split; try done.
  - intros x Hx. destruct (H2 x Hx) as (Hs & e & He & ? & ? & _). split; [|eauto].
    apply H1 in Hs. destruct He. by rewrite Z2Nat.id in Hs.
  - intros x e k f Hx He Hkl Hf Hdel. destruct (H2 x Hx) as (Hs & g & Hg & Hgdel & Hxd & Hxlb).
    assert (g = e) as -> by (destruct He, Hg; congruence).
    destruct (H7 x.2 e He Hs) as [?|[(y & Heq & Hy)%list_elem_of_fmap|[Hall|[_ Hnot]]]]; [done| | |].
    + exfalso. destruct (H5 y Hy) as (_ & g & Hg' & Hyd). rewrite <- Heq in Hg'.
      assert (g = e) as -> by (destruct He, Hg'; congruence). specialize (Hyd Hgdel).
      destruct Hend as [Hn|(z & Hz & Hfar & _)]; [apply top_None in Hn; rewrite Hn in Hy; by apply elem_of_nil in Hy|].
      destruct (top_Some _ _ Hz) as [_ Hmax]. specialize (Hmax y Hy). lia.
    + destruct (H6 k f Hf (Hall k Hkl) Hdel) as [?|[? [Hnil|?]]]; [by left|by rewrite Hnil in Hx; apply elem_of_nil in Hx|].
      right. split; [done|]. intros y Hy. destruct (H2 y Hy) as (_ & ? & _ & _ & _ & ?). lia.
    + destruct Hnot. by apply list_elem_of_fmap_2.
  - intros Hcount j e Hj He Hdel. destruct (decide (j ∈ snd <$> q_elems Top_K)) as [|Hout]; [done|].
    specialize (Hcount (j :: (snd <$> q_elems Top_K))) as Hlen. cbn in Hlen. rewrite length_fmap in Hlen.
    fold (q_size Top_K) in Hlen.
    assert (Z.of_nat (q_size Top_K) < ef) as Hroom.
    { enough (Z.of_nat (S (q_size Top_K)) ≤ ef) by lia. apply Hlen; [by apply NoDup_cons|].
      intros i [->|(x & -> & Hx)%list_elem_of_fmap]%elem_of_cons; [eauto|].
      destruct (H2 x Hx) as (Hs & f & Hf & ? & _). apply H1 in Hs. destruct (Hf) as [Hx0 _].
      rewrite Z2Nat.id in Hs by done. eauto. }
    destruct Hend as [Hn%top_None|(? & _ & _ & ?)]; [|lia].
    assert (∀ i, reach es l i j → Z.to_nat i ∈ seen → Z.to_nat j ∈ seen) as Hclosed.
    { intros i. apply (rtc_ind_l (λ i, Z.to_nat i ∈ seen → Z.to_nat j ∈ seen)); [done|].
      intros a b (f & Hf & Hb) _ IH Ha. apply IH. destruct (H7 a f Hf Ha) as [?|[Hin|[Hl|[? _]]]]; [done| |by apply Hl|lia].
      rewrite Hn in Hin. by apply elem_of_nil in Hin. }
    destruct (H6 j e He (Hclosed start Hj Hstart) Hdel) as [?|[? _]]; [done|lia].
Qed.

(** ** The code *)
Section Code.
Context {LP : LockPolicy} (uninit : loc → nat → Z) (uninit_range : ∀ a i, 0 ≤ uninit a i < 2 ^ 16).
Context (dist_max : Z) (s0 : HierarchicalNSW) (L : gset Z) (h : hands).
Context (Hl : 0 ≤ l) (Hconf : efConstruction_ (layout s0) = ef).
Context (Hgraph : ∀ j, reach es l start j → j ∉ L ∧ ∃ e, has es j e ∧ l ≤ e_level e).
Implicit Types (s : HierarchicalNSW) (Top_K K_Set : Q).

Lemma reach_has j : reach es l start j → ∃ e ll, has es j e ∧ list_at e l = Some ll.
Proof.
  intros (_ & e & He & Hle)%Hgraph. unfold list_at, e_level in *. destruct (Z.eqb_spec l 0); [eauto|].
  destruct (Z.ltb_spec 0 l); [|lia]. destruct (lookup_lt_is_Some_2 (e_upper e) (Z.to_nat (l - 1))) as [ll Hll]; [lia|eauto].
Qed.

Lemma wp_distance_to L' h' s i e (Φ : Z → HierarchicalNSW → Prop) :
  holds s0 es L' h' s → has es i e → Φ (distance dp (e_vector e)) s → wp (distance_to distance dp i) Φ s.
Proof. intros Hh He HΦ. unfold distance_to. apply wp_bind, (wp_vector Hh i e); [done|]. by apply wp_ret. Qed.

Lemma holds_pool es' L' h1 h2 p s :
  holds s0 es' L' h1 s → pool_rep (Z.to_nat (capacity_ s)) p h2 → holds s0 es' L' h2 (set_visited_pool p s).
Proof. intros [Hf Hrep Hlk Hp] Hp'. split; [by rewrite Hf|by apply (rep_ext s)|done|done]. Qed.

Lemma wp_seen L' h' s vl seen k e Φ :
  holds s0 es L' h' s → h' !! vl = Some seen → has es k e →
  (∀ s', holds s0 es L' h' s' → Φ (bool_decide (Z.to_nat k ∈ seen)) s') →
  wp (on_pool (is_visited vl (Z.to_nat k))) Φ s.
Proof.
  intros Hh Hvl He HΦ. destruct (has_lt s es (ho_rep _ _ _ _ _ Hh) k e He). unfold on_pool. apply wp_zoom.
  eapply wp_run; [apply (visited_run _ _ _ _ _ _ (ho_pool _ _ _ _ _ Hh) Hvl); lia|].
  apply HΦ. apply (holds_pool _ _ h'); [done|apply Hh].
Qed.

Lemma wp_mark L' h' s vl seen k e Φ :
  holds s0 es L' h' s → h' !! vl = Some seen → has es k e →
  (∀ s', holds s0 es L' (<[vl := {[Z.to_nat k]} ∪ seen]> h') s' → Φ tt s') →
  wp (on_pool (mark vl (Z.to_nat k))) Φ s.
Proof.
  intros Hh Hvl He HΦ. destruct (has_lt s es (ho_rep _ _ _ _ _ Hh) k e He). unfold on_pool. apply wp_zoom.
  destruct (mark_run _ _ _ _ _ (Z.to_nat k) (ho_pool _ _ _ _ _ Hh) Hvl) as (p & Hrun & Hp); [lia|].
  eapply wp_run; [exact Hrun|]. apply HΦ. by apply (holds_pool _ _ h').
Qed.

(** What one or more calls of [consider] do. *)
Definition searched (exempt : option Z) (vl : loc) (L' : gset Z) (seen : gset nat) (K_Set : Q) (ids : list Z)
    (st : Q * Q * Z) (s : HierarchicalNSW) : Prop :=
  ∃ seen', search_inv exempt seen' st.1.1 st.1.2 st.2 ∧ holds s0 es L' (<[vl := seen']> h) s ∧ seen ⊆ seen' ∧
    (∀ k, k ∈ ids → Z.to_nat k ∈ seen') ∧ (q_size st.1.2 + size seen ≤ q_size K_Set + size seen')%nat.

Lemma wp_consider exempt vl L' seen Top_K K_Set lb k e s :
  search_inv exempt seen Top_K K_Set lb → holds s0 es L' (<[vl := seen]> h) s → reach es l start k → has es k e →
  wp (consider distance vl dp k (Top_K, K_Set, lb)) (searched exempt vl L' seen K_Set [k]) s.
Proof.
  intros Hinv Hh Hk He. unfold consider. apply wp_bind.
  apply (wp_seen _ _ _ _ seen k e _ Hh); [by rewrite lookup_insert_eq|done|]. intros s1 Hh1. cbn beta.
  destruct (bool_decide_reflect (Z.to_nat k ∈ seen)) as [Hin|Hnew].
  { apply wp_ret. exists seen. split_and!; try done. by intros j ->%list_elem_of_singleton. }
  apply wp_bind, (wp_mark _ _ _ _ seen k e _ Hh1); [by rewrite lookup_insert_eq|done|].
  intros s2 Hh2. rewrite insert_insert_eq in Hh2. cbn beta.
  apply wp_bind, (wp_distance_to _ _ s2 k e _ Hh2); [done|]. cbn beta. apply wp_bind, wp_conf.
  rewrite (proj1 (holds_layout _ _ _ _ _ Hh2)), Hconf.
  pose proof (offer_inv exempt seen Top_K K_Set lb k e Hinv Hk He Hnew) as Hoff. unfold offer in Hoff.
  assert (∀ x, x ∈ [k] → Z.to_nat x ∈ {[Z.to_nat k]} ∪ seen) as Hids by (intros x ->%list_elem_of_singleton; set_solver).
  assert (size ({[Z.to_nat k]} ∪ seen) = S (size seen)) as Hsz by (rewrite size_union, size_singleton; set_solver).
  destruct (_ || _).
  - apply wp_bind, (wp_deleted Hh2 k e); [done|]. apply wp_ret. destruct Hoff as [Hinv' Hsize].
    exists ({[Z.to_nat k]} ∪ seen). split_and!; try done; [set_solver|]. cbn. lia.
  - apply wp_ret. destruct Hoff as [Hinv' Hsize].
    exists ({[Z.to_nat k]} ∪ seen). split_and!; try done; [set_solver|]. cbn. lia.
Qed.

Lemma wp_consider_links exempt vl L' i e ll js :
  has es i e → list_at e l = Some ll → reach es l start i →
  (∀ j, j ∈ js → ∃ k, l_slots ll !! j = Some k ∧ k ∈ links e l) →
  ∀ seen Top_K K_Set lb s, search_inv exempt seen Top_K K_Set lb → holds s0 es L' (<[vl := seen]> h) s →
  wp (consider_links distance vl dp (where_list (layout s0) i l) js (Top_K, K_Set, lb))
    (searched exempt vl L' seen K_Set (omap (λ j, l_slots ll !! j) js)) s.
Proof.
  intros He Hll Hi Hjs. induction js as [|j js IH]; intros seen Top_K K_Set lb s Hinv Hh; cbn [consider_links].
  { apply wp_ret. exists seen. split_and!; try done. by intros k Hk%elem_of_nil. }
  destruct (Hjs j) as (k & Hk & Hkl); [by left|]. apply wp_bind, (wp_slot Hh i e l ll j k); [done|done|done|]. cbn beta.
  assert (reach es l start k) as Hreach by (eapply rtc_r; [exact Hi|by exists e]).
  destruct (reach_has k Hreach) as (f & _ & Hf & _).
  apply wp_bind. eapply wp_mono; [by apply (wp_consider exempt vl L' seen Top_K K_Set lb k f)|].
  intros [[Top' K'] lb'] s1 (seen1 & Hinv1 & Hh1 & Hsub1 & Hk1 & Hsz1). cbn [fst snd] in *.
  eapply wp_mono; [apply IH; [|exact Hinv1|exact Hh1]; intros j' Hj'; apply Hjs; by right|].
  intros st s2 (seen2 & Hinv2 & Hh2 & Hsub2 & Hk2 & Hsz2). exists seen2. split_and!; [done|done|set_solver| |lia].
  intros k'. cbn. rewrite Hk. intros [->|Hin]%elem_of_cons; [|by apply Hk2]. apply Hsub2, Hk1. by left.
Qed.

(** As many are visited as there are. *)
Lemma seen_bound exempt seen Top_K K_Set lb : search_inv exempt seen Top_K K_Set lb → (size seen ≤ length es)%nat.
Proof.
  intros [Hs _ _ _ _ _ _ _]. rewrite <- (length_seq (length es) 0), <- (size_list_to_set (C := gset nat)) by apply NoDup_seq.
  apply subseteq_size. intros n Hn. apply elem_of_list_to_set, elem_of_seq.
  destruct (Hgraph _ (Hs n Hn)) as (_ & e & [_ He] & _). rewrite Nat2Z.id in He. apply lookup_lt_Some in He. lia.
Qed.

Lemma wp_search_loop fuel vl seen Top_K K_Set lb s :
  search_inv None seen Top_K K_Set lb → holds s0 es L (<[vl := seen]> h) s → Z.to_nat start ∈ seen →
  (q_size K_Set + length es < fuel + size seen)%nat →
  wp (search_loop distance fuel vl dp l (Top_K, K_Set, lb))
    (λ Top s', found (q_elems Top) ∧ ∃ seen', holds s0 es L (<[vl := seen']> h) s') s.
Proof.
  revert seen Top_K K_Set lb s. induction fuel as [|fuel IH]; intros seen Top_K K_Set lb s Hinv Hh Hstart Hfuel.
  { apply seen_bound in Hinv. lia. }
  cbn [search_loop]. destruct (q_top K_Set) as [cur|] eqn:Htop.
  2: { apply wp_ret. split; [|by exists seen]. eapply finish_inv; eauto. }
  apply wp_bind, wp_conf. rewrite (proj1 (holds_layout _ _ _ _ _ Hh)), Hconf.
  destruct ((lb <? - cur.1) && _) eqn:Hbreak.
  { apply andb_true_iff in Hbreak as [Hb1%Z.ltb_lt Hb2%Z.eqb_eq]. apply wp_ret. split; [|by exists seen].
    eapply finish_inv; eauto. }
  destruct (si_work _ _ _ _ _ Hinv cur (top_in _ _ Htop)) as (Hcur & e & He & _).
  assert (reach es l start cur.2) as Hreach.
  { apply (si_seen _ _ _ _ _ Hinv) in Hcur. destruct (He) as [Hc0 _]. by rewrite Z2Nat.id in Hcur. }
  destruct (reach_has _ Hreach) as (e' & ll & He' & Hll). assert (e' = e) as -> by (destruct He, He'; congruence).
  destruct (has_lt s es (ho_rep _ _ _ _ _ Hh) _ _ He) as [Hlt Hcap]. destruct (holds_layout _ _ _ _ _ Hh) as (_ & Hc & _).
  pose proof (top_size _ _ Htop) as Hsize.
  apply wp_bind, (wp_with_lock Hh); [by apply Hgraph|lia|]. intros s1 Hh1.
  apply wp_bind, (wp_list Hh1 cur.2 e l ll); [done|done|]. apply wp_bind, (wp_count Hh1 cur.2 e l ll); [done|done|].
  pose proof (holds_list_ok Hh1 _ _ _ _ He Hll) as Hok. pose proof (stored_slots _ _ Hok) as Hst.
  eapply wp_mono; [apply (wp_consider_links (Some cur.2) vl ({[cur.2]} ∪ L) cur.2 e ll); [done|done|done| |by apply pop_inv|exact Hh1]|].
  { intros j [_ Hj]%elem_of_seq. destruct Hok as [Hs Hcnt _ _ _].
    destruct (lookup_lt_is_Some_2 (l_slots ll) j) as [k Hk]; [lia|]. exists k. split; [done|].
    unfold links. rewrite Hll. unfold stored. apply (list_elem_of_lookup_2 _ j). by rewrite lookup_take_lt by lia. }
  intros [[Top' K'] lb'] s2 (seen2 & Hinv2 & Hh2 & Hsub & Hall & Hsz). cbn [fst snd] in *. rewrite Hst in Hall.
  exists es, (<[vl := seen2]> h). split; [done|]. intros s3 Hh3. apply IH with seen2; [|done|by apply Hsub|lia].
  apply (expanded_inv cur.2 e); [done|done|]. unfold links. by rewrite Hll.
Qed.

(** The search as the code starts it. *)
Lemma start_inv e :
  has es start e →
  let d := distance dp (e_vector e) in
  search_inv None {[Z.to_nat start]} (if deleted e then q_empty else q_emplace (d, start) q_empty)
    (q_emplace (if deleted e then dist_max else - d, start) q_empty) (if deleted e then dist_max else d).
Proof.
  intros He d. pose proof He as [Hpos _].
  assert (∀ j f, has es j f → Z.to_nat j ∈ ({[Z.to_nat start]} : gset nat) → j = start ∧ f = e) as Honly.
  { intros j f [Hj Hf] Heq%elem_of_singleton. assert (j = start) as -> by lia. split; [done|]. destruct He. congruence. }
  assert (∀ x, x ∈ q_elems (if deleted e then q_empty else q_emplace (d, start) q_empty) ↔ deleted e = false ∧ x = (d, start)) as Htop.
  { intros x. destruct (deleted e); rewrite ?elems_emplace, elems_empty, ?list_elem_of_singleton, ?elem_of_nil; naive_solver. }
  split.
  - intros n ->%elem_of_singleton. by rewrite Z2Nat.id.
  - intros x [Hdel ->]%Htop. split; [set_solver|]. exists e. rewrite Hdel. by split_and!.
  - destruct (deleted e); rewrite ?elems_emplace, elems_empty; cbn; [constructor|apply NoDup_singleton].
  - destruct (deleted e); rewrite ?size_emplace, size_empty; lia.
  - intros x. rewrite elems_emplace, elems_empty. intros ->%list_elem_of_singleton. split; [set_solver|].
    exists e. split; [done|]. by intros ->.
  - intros j f Hf Hj Hdel. destruct (Honly j f Hf Hj) as [-> ->]. left. rewrite Hdel, elems_emplace. by left.
  - intros j f Hf Hj. destruct (Honly j f Hf Hj) as [-> ->]. right; left. rewrite elems_emplace. by left.
  - intros f Hf Hdel _. destruct (Honly start f Hf) as [_ ->]; [set_solver|]. rewrite Hdel. intros Hnil.
    assert (q_size (q_emplace (d, start) q_empty) = 0%nat) as Hs by (unfold q_size; by rewrite Hnil).
    by rewrite size_emplace in Hs.
Qed.

Lemma wp_searchBaseLayer fuel s (Φ : Q → HierarchicalNSW → Prop) :
  holds s0 es L h s → (length es < fuel)%nat →
  (∀ Top s', found (q_elems Top) → holds s0 es L h s' → Φ Top s') →
  wp (searchBaseLayer uninit distance dist_max fuel start dp l) Φ s.
Proof.
  intros Hh Hfuel HΦ. destruct (Hgraph start) as (_ & e & He & _); [apply rtc_refl|].
  unfold searchBaseLayer. apply wp_bind. unfold on_pool at 1. apply wp_zoom.
  destruct (get_run uninit uninit_range _ _ _ (ho_pool _ _ _ _ _ Hh)) as (vl & p & Hrun & Hvl & Hp).
  eapply wp_run; [exact Hrun|]. pose proof (holds_pool _ _ _ _ _ _ Hh Hp) as Hh1. clear Hh Hrun Hp.
  apply wp_bind, (wp_deleted Hh1 start e); [done|]. cbn beta. pose proof (start_inv e He) as Hinv. cbn zeta in Hinv.
  apply wp_bind.
  assert (∀ s1, holds s0 es L (<[vl := ∅]> h) s1 →
    wp (on_pool (mark vl (Z.to_nat start)) ;;
        Top_K ← search_loop distance fuel vl dp l
          (if deleted e then q_empty else q_emplace (distance dp (e_vector e), start) q_empty,
           q_emplace (if deleted e then dist_max else - distance dp (e_vector e), start) q_empty,
           if deleted e then dist_max else distance dp (e_vector e));
        on_pool (releaseVisitedList vl) ;; mret Top_K) Φ s1) as Hrest.
  { intros s1 Hh2. apply wp_bind, (wp_mark _ _ _ _ ∅ start e _ Hh2); [by rewrite lookup_insert_eq|done|].
    intros s2 Hh3. rewrite insert_insert_eq, union_empty_r_L in Hh3. apply wp_bind.
    eapply wp_mono; [apply (wp_search_loop fuel vl _ _ _ _ _ Hinv Hh3); [set_solver|]|].
    { rewrite size_emplace, size_empty, size_singleton. lia. }
    intros Top s3 (Hfound & seen & Hh4). apply wp_bind. unfold on_pool. apply wp_zoom.
    destruct (release_run _ _ _ vl seen (ho_pool _ _ _ _ _ Hh4)) as (p' & Hrel & Hp'); [by rewrite lookup_insert_eq|].
    eapply wp_run; [exact Hrel|]. apply wp_ret, HΦ; [done|]. apply (holds_pool _ _ _ _ _ _ Hh4).
    by rewrite delete_insert_id in Hp'. }
  destruct (deleted e); [by apply wp_ret, Hrest|].
  apply wp_bind, (wp_distance_to _ _ _ start e _ Hh1); [done|]. by apply wp_ret, Hrest.
Qed.
End Code.
End Search.
