(* ===== verification/HnswHeuristic.v ===== *)
(** The choice of neighbours in the graph index, [getNeighborsByHeuristic2] of
    src/hnsw/hnsw_scratch/hnsw_core.hpp.

    [picked] is what it promises: of the candidates some are kept, in the order of their
    distances; one that is kept is at least as far from each of those kept before it as
    from the query, and one that is not kept has a reason for it. *)

From stdpp Require Import sorting.
From Stdlib Require Import Sorting.Sorted.
From S2P Require Import Prelude Bytes Memory CxxLib NearestQueue MaxQueue VisitedList Wp Hnsw HnswRep.

(** The distance between two elements. *)
Definition gap (distance : list byte → list byte → Z) (es : list element) (i j : Z) : Z :=
  match es !! Z.to_nat i, es !! Z.to_nat j with
  | Some e, Some f => distance (e_vector e) (e_vector f)
  | _, _ => 0
  end.

Section Picked.
Context (gap : Z → Z → Z) (M : Z).

(** [y] may be kept after [x]. *)
Definition apart (x y : entry) : Prop := x.1 ≤ y.1 ∧ y.1 ≤ gap x.2 y.2.

Record picked (cands kept : list entry) : Prop := {
  pi_few : Z.of_nat (length cands) < M → kept ≡ₚ cands;
  pi_size : M ≤ Z.of_nat (length cands) → Z.of_nat (length kept) ≤ M;
  pi_apart : M ≤ Z.of_nat (length cands) → ∃ order, kept ≡ₚ order ∧ StronglySorted apart order;
  pi_rest : ∃ rest, cands ≡ₚ kept ++ rest ∧ ∀ z, z ∈ rest →
    (∃ x, x ∈ kept ∧ x.1 ≤ z.1 ∧ gap x.2 z.2 < z.1) ∨ (Z.of_nat (length kept) = M ∧ ∀ x, x ∈ kept → x.1 ≤ z.1);
}.

(** The loop, without the state. *)
Definition fits (rl : list entry) (c : entry) : bool := forallb (λ p, negb (gap p.2 c.2 <? - c.1)) rl.

Fixpoint select (qc rl : list entry) : list entry :=
  match qc with
  | [] => rl
  | c :: qc' => if M <=? Z.of_nat (length rl) then rl else select qc' (if fits rl c then rl ++ [c] else rl)
  end.

(** The queue of the loop holds the distances negated. *)
Definition apart_neg (x y : entry) : Prop := y.1 ≤ x.1 ∧ - y.1 ≤ gap x.2 y.2.

Lemma sorted_snoc {A} (R : A → A → Prop) l x :
  StronglySorted R l → (∀ y, y ∈ l → R y x) → StronglySorted R (l ++ [x]).
Proof.
  induction 1 as [|y l Hl IH Hy]; intros Hx; cbn; [by repeat constructor|].
  constructor; [apply IH; intros z Hz; apply Hx; by right|]. apply Forall_app. split; [done|].
  constructor; [|done]. apply Hx. by left.
Qed.

Lemma sorted_impl {A} (R R' : A → A → Prop) l :
  (∀ x y, R x y → R' x y) → StronglySorted R l → StronglySorted R' l.
Proof. intros HR. induction 1 as [|x l Hl IH Hx]; constructor; [done|]. eapply Forall_impl; [exact Hx|]. auto. Qed.

Lemma select_spec qc : ∀ rl rj,
  StronglySorted (λ a b : entry, b.1 ≤ a.1) qc → (∀ a b, a ∈ rl → b ∈ qc → b.1 ≤ a.1) →
  StronglySorted apart_neg rl → Z.of_nat (length rl) ≤ M →
  (∀ z, z ∈ rj → ∃ x, x ∈ rl ∧ z.1 ≤ x.1 ∧ gap x.2 z.2 < - z.1) →
  ∃ rest, rl ++ rj ++ qc ≡ₚ select qc rl ++ rest ∧ StronglySorted apart_neg (select qc rl) ∧
    Z.of_nat (length (select qc rl)) ≤ M ∧
    ∀ z, z ∈ rest → (∃ x, x ∈ select qc rl ∧ z.1 ≤ x.1 ∧ gap x.2 z.2 < - z.1) ∨
      (Z.of_nat (length (select qc rl)) = M ∧ ∀ x, x ∈ select qc rl → z.1 ≤ x.1).
Proof.
  induction qc as [|c qc IH]; intros rl rj Hqc Hle Hrl Hlen Hrj; cbn [select].
  { exists rj. rewrite app_nil_r. split_and!; [done|done|done|]. intros z Hz. left. by apply Hrj. }
  apply StronglySorted_inv in Hqc as [Hqc Hc]. rewrite Forall_forall in Hc.
  destruct (Z.leb_spec M (Z.of_nat (length rl))) as [Hfull|Hroom].
  { exists (rj ++ c :: qc). split_and!; [done|done|done|]. intros z [Hz|Hz]%elem_of_app; [left; by apply Hrj|right].
    split; [lia|]. intros x Hx. by apply Hle. }
  destruct (fits rl c) eqn:Ef.
  - destruct (IH (rl ++ [c]) rj) as (rest & Hp & ?); [done| | | | |].
    + intros a b [Ha| ->%list_elem_of_singleton]%elem_of_app Hb; [apply Hle; [done|by right]|by apply Hc].
    + apply sorted_snoc; [done|]. intros y Hy. split; [apply Hle; [done|by left]|].
      unfold fits in Ef. rewrite forallb_forall in Ef. apply list_elem_of_In, Ef in Hy. cbn in Hy.
      apply negb_true_iff, Z.ltb_ge in Hy. lia.
    + rewrite length_app. cbn. lia.
    + intros z Hz. destruct (Hrj z Hz) as (x & ? & ?). exists x. split; [apply elem_of_app; by left|done].
    + exists rest. split; [|done]. rewrite <- Hp, <- app_assoc. cbn. by rewrite <- Permutation_middle.
  - destruct (IH rl (rj ++ [c])) as (rest & Hp & ?); [done| |done|lia| |].
    + intros a b Ha Hb. apply Hle; [done|by right].
    + intros z [Hz| ->%list_elem_of_singleton]%elem_of_app; [by apply Hrj|].
      unfold fits in Ef. apply not_true_iff_false in Ef. rewrite forallb_forall in Ef.
      destruct (decide (Exists (λ p, gap p.2 c.2 < - c.1) rl)) as [Hex|Hno].
      2: { exfalso. apply Ef. intros p Hp%list_elem_of_In. apply negb_true_iff, Z.ltb_ge.
        destruct (Z.lt_ge_cases (gap p.2 c.2) (- c.1)); [|done]. destruct Hno. apply Exists_exists. eauto. }
      apply Exists_exists in Hex as (x & Hx & Hgap). exists x. split_and!; [done| |done]. apply Hle; [done|by left].
    + exists rest. split; [|done]. rewrite <- Hp, <- app_assoc. done.
Qed.

Definition neg (p : entry) : entry := (- p.1, p.2).

Lemma picked_select cands drained kept :
  drained ≡ₚ cands → 0 ≤ M → M ≤ Z.of_nat (length cands) →
  kept ≡ₚ neg <$> select (sort_queue (neg <$> drained)) [] → picked cands kept.
Proof.
  intros Hd HM Hlen Hk. destruct (sort_queue_spec (neg <$> drained)) as [Hs Hp].
  assert (∀ l : list entry, neg <$> (neg <$> l) = l) as Hneg.
  { intros l. rewrite <- list_fmap_compose. rewrite <- (list_fmap_id l) at 2. apply list_fmap_ext.
    intros _ [d i] _. unfold neg, compose. cbn. f_equal. lia. }
  destruct (select_spec (sort_queue (neg <$> drained)) [] []) as (rest & Hperm & Hsort & Hsize & Hrest).
  - eapply sorted_impl; [|exact Hs]. intros x y. unfold flip, entry_le. lia.
  - by intros a b Ha%elem_of_nil.
  - constructor.
  - cbn. lia.
  - by intros z Hz%elem_of_nil.
  - cbn in Hperm. set (sel := select _ _) in *. split.
    + intros. lia.
    + intros _. by rewrite Hk, length_fmap.
    + intros _. exists (neg <$> sel). split; [done|]. clear - Hsort. induction Hsort as [|x l Hl IH Hx]; cbn; constructor; [done|].
      apply Forall_fmap. eapply Forall_impl; [exact Hx|]. intros y. unfold apart_neg, apart, neg, compose. cbn. lia.
    + exists (neg <$> rest). split.
      * rewrite Hk, <- fmap_app, <- Hperm, Hp, Hneg. done.
      * intros z (w & -> & Hw)%list_elem_of_fmap. destruct (Hrest w Hw) as [(x & Hx & Hxw & Hgap)|[Hfull Hall]].
        -- left. exists (neg x). rewrite Hk. split; [by apply list_elem_of_fmap_2|]. unfold neg. cbn. lia.
        -- right. rewrite Hk, length_fmap. split; [done|]. intros x. rewrite Hk.
           intros (y & -> & Hy)%list_elem_of_fmap. specialize (Hall y Hy). unfold neg. cbn. lia.
Qed.

#[export] Instance picked_proper : Proper ((≡ₚ) ==> (≡ₚ) ==> iff) picked.
Proof.
  assert (∀ c1 c2 k1 k2, c1 ≡ₚ c2 → k1 ≡ₚ k2 → picked c1 k1 → picked c2 k2) as Hone.
  { intros c1 c2 k1 k2 Hc Hk [H1 H2 H3 (rest & H4 & H5)]. split; rewrite <- ?Hc, <- ?Hk; try done.
    - intros Hm. destruct (H3 Hm) as (order & ? & ?). exists order. by rewrite <- Hk.
    - exists rest. rewrite <- Hc. split; [by rewrite H4, Hk|]. intros z Hz. rewrite <- Hk.
      destruct (H5 z Hz) as [(x & Hx & ?)|[? Hall]]; [left; exists x; by rewrite <- Hk|right].
      split; [done|]. intros x. rewrite <- Hk. apply Hall. }
  intros c1 c2 Hc k1 k2 Hk. split; [by apply Hone|by apply Hone].
Qed.

(** What is used of it where links are made. *)
Lemma picked_subset cands kept : picked cands kept → kept ⊆+ cands.
Proof. intros [_ _ _ (rest & -> & _)]. by apply submseteq_inserts_r. Qed.

Lemma picked_nonempty cands kept : 0 < M → picked cands kept → cands ≠ [] → kept ≠ [].
Proof.
  intros HM [Hfew Hsize _ (rest & Hp & Hrest)] Hne ->. cbn in *.
  destruct rest as [|z rest]; [by apply Permutation_nil_r in Hp|].
  destruct (Hrest z) as [(x & Hx & _)|[? _]]; [by left|by apply elem_of_nil in Hx|lia].
Qed.

Lemma picked_size cands kept : 0 ≤ M → picked cands kept → Z.of_nat (length kept) ≤ Z.min M (Z.of_nat (length cands)).
Proof.
  intros HM Hpick. pose proof (submseteq_length _ _ (picked_subset _ _ Hpick)).
  destruct Hpick as [Hfew Hsize _ _]. destruct (Z.lt_ge_cases (Z.of_nat (length cands)) M); [|lia]. lia.
Qed.
End Picked.

(** ** The code *)
Section Code.
Context {Q : Type} `{MaxQueueLaws Q}.
Context (distance : list byte → list byte → Z).
Context {s0 : HierarchicalNSW} {es : list element} {L : gset Z} {h : hands} {s : HierarchicalNSW}.
Context (Hh : holds s0 es L h s).

Lemma has_gap i j e f : has es i e → has es j f → gap distance es i j = distance (e_vector e) (e_vector f).
Proof. intros [_ He] [_ Hf]. unfold gap. by rewrite He, Hf. Qed.

Lemma wp_distance_between i j e f (Φ : Z → HierarchicalNSW → Prop) :
  has es i e → has es j f → Φ (gap distance es i j) s → wp (distance_between distance i j) Φ s.
Proof.
  intros He Hf HΦ. rewrite (has_gap i j e f He Hf) in HΦ. unfold distance_between.
  apply wp_bind, (wp_vector Hh i e); [done|]. apply wp_bind, (wp_vector Hh j f); [done|]. by apply wp_ret.
Qed.

Lemma wp_well_apart c f d rl (Φ : bool → HierarchicalNSW → Prop) :
  has es c f → (∀ x, x ∈ rl → ∃ e, has es x.2 e) →
  Φ (forallb (λ p : entry, negb (gap distance es p.2 c <? d)) rl) s → wp (well_apart distance c d rl) Φ s.
Proof.
  intros Hc. induction rl as [|x rl IH]; intros Hall HΦ; cbn [well_apart]; [by apply wp_ret|].
  destruct (Hall x) as [e He]; [by left|]. apply wp_bind, (wp_distance_between _ _ e f); [done|done|].
  cbn in HΦ. destruct (_ <? _); [by apply wp_ret|]. apply IH; [|done]. intros y Hy. apply Hall. by right.
Qed.

Lemma wp_select_neighbors M qc : ∀ rl (Φ : list entry → HierarchicalNSW → Prop),
  (∀ x, x ∈ qc → ∃ e, has es x.2 e) → (∀ x, x ∈ rl → ∃ e, has es x.2 e) →
  Φ (select (gap distance es) M qc rl) s → wp (select_neighbors distance M qc rl) Φ s.
Proof.
  induction qc as [|c qc IH]; intros rl Φ Hqc Hrl HΦ; cbn [select_neighbors select] in *; [by apply wp_ret|].
  destruct (M <=? _); [by apply wp_ret|]. destruct (Hqc c) as [f Hf]; [by left|].
  apply wp_bind, (wp_well_apart _ f); [done|done|]. fold (fits (gap distance es) rl c). apply IH; [|destruct (fits _ _ _)|done].
  - intros x Hx. apply Hqc. by right.
  - intros x [Hx| ->%list_elem_of_singleton]%elem_of_app; [by apply Hrl|by exists f].
  - done.
Qed.

Lemma wp_heuristic Top_K M (Φ : Q → HierarchicalNSW → Prop) :
  0 ≤ M → (∀ x, x ∈ q_elems Top_K → ∃ e, has es x.2 e) →
  (∀ Top', picked (gap distance es) M (q_elems Top_K) (q_elems Top') → Φ Top' s) →
  wp (getNeighborsByHeuristic2 distance Top_K M) Φ s.
Proof.
  intros HM Hall HΦ. unfold getNeighborsByHeuristic2. destruct (Z.ltb_spec (Z.of_nat (q_size Top_K)) M) as [Hlt|Hge].
  - apply wp_ret, HΦ. split; try done; try (unfold q_size in Hlt; lia).
    exists []. rewrite app_nil_r. split; [done|]. by intros z Hz%elem_of_nil.
  - destruct (drain_spec Top_K) as [Hd _]. apply wp_bind, wp_select_neighbors.
    + intros x. rewrite (proj2 (sort_queue_spec _)). intros (y & -> & Hy)%list_elem_of_fmap. apply (Hall y). by rewrite <- Hd.
    + by intros x Hx%elem_of_nil.
    + apply wp_ret, HΦ. eapply picked_select; [exact Hd|done|done|]. rewrite elems_fill, elems_empty, app_nil_r. done.
Qed.
End Code.
