(* ===== verification/HnswGraph.v ===== *)
(** The links of the graph index: what [mutuallyConnectNewElement] of
    src/hnsw/hnsw_scratch/hnsw_core.hpp does to the elements.

    [joined] says it in full: the new links of the element are the candidates that
    [getNeighborsByHeuristic2] picks, each of these neighbours gets a link back - appended,
    or picked among its old links when there is no room - and nothing else changes. *)

From stdpp Require Import sorting.
From S2P Require Import Prelude Bytes Memory CxxLib NearestQueue MaxQueue VisitedList Wp Hnsw HnswRep HnswHeuristic.

(** ** Elements that only differ in their links at one level *)
Section Elements.
Implicit Types (e f : element) (es : list element) (ll : linklist).

Record same_but (l : Z) (e e' : element) : Prop := {
  sb_vector : e_vector e' = e_vector e;
  sb_label : e_label e' = e_label e;
  sb_level : length (e_upper e') = length (e_upper e);
  sb_mark : deleted e' = deleted e;
  sb_lists : ∀ l', l' ≠ l → list_at e' l' = list_at e l';
}.

#[export] Instance same_but_preorder l : PreOrder (same_but l).
Proof.
  split; [by split|]. intros e1 e2 e3 [A1 A2 A3 A4 A5] [B1 B2 B3 B4 B5].
  split; try congruence. intros l' Hl. by rewrite B5, A5.
Qed.

Definition evolves (l : Z) : list element → list element → Prop := Forall2 (same_but l).

#[export] Instance evolves_preorder l : PreOrder (evolves l).
Proof. unfold evolves. apply _. Qed.

Lemma evolves_has l es es' i e : evolves l es es' → has es i e → ∃ e', has es' i e' ∧ same_but l e e'.
Proof. intros Hev [Hi He]. destruct (Forall2_lookup_l _ _ _ _ _ Hev He) as (e' & ? & ?). by exists e'. Qed.

Lemma evolves_has_r l es es' i e' : evolves l es es' → has es' i e' → ∃ e, has es i e ∧ same_but l e e'.
Proof. intros Hev [Hi He]. destruct (Forall2_lookup_r _ _ _ _ _ Hev He) as (e & ? & ?). by exists e. Qed.

Lemma has_fun es i e f : has es i e → has es i f → e = f.
Proof. intros [_ He] [_ Hf]. congruence. Qed.

Lemma has_insert es i e e' j f :
  has es i e → has (<[Z.to_nat i := e']> es) j f ↔ (j = i ∧ f = e') ∨ (j ≠ i ∧ has es j f).
Proof.
  intros [Hi He]. pose proof (lookup_lt_Some _ _ _ He). unfold has. rewrite list_lookup_insert_Some. split.
  - intros [Hj [(Heq & <- & _)|[Hne Hf]]]; [left; split; [lia|done]|right; split; [congruence|done]].
  - intros [[-> ->]|[Hne [Hj Hf]]]; [by split; [|left]|]. split; [done|]. right. split; [lia|done].
Qed.

Lemma evolves_insert l es i e e' : has es i e → same_but l e e' → evolves l es (<[Z.to_nat i := e']> es).
Proof.
  intros [Hi He] Hsb. rewrite <- (list_insert_id es (Z.to_nat i) e) at 1 by done.
  by apply Forall2_insert.
Qed.

Lemma evolves_gap distance l es es' i j : evolves l es es' → gap distance es' i j = gap distance es i j.
Proof.
  intros Hev. unfold gap.
  assert (∀ n, match es !! n, es' !! n with Some e, Some e' => e_vector e' = e_vector e | None, None => True | _, _ => False end) as Hn.
  { intros n. pose proof (proj1 (Forall2_lookup _ _ _) Hev n) as Hopt. inversion Hopt as [e e' [Hv _ _ _ _]|]; done. }
  pose proof (Hn (Z.to_nat i)) as Hni. pose proof (Hn (Z.to_nat j)) as Hnj.
  destruct (es !! Z.to_nat i), (es' !! Z.to_nat i), (es !! Z.to_nat j), (es' !! Z.to_nat j); try done. congruence.
Qed.

(** Setting a list. *)
Lemma list_at_set l ll ll' e : list_at e l = Some ll → list_at (set_list l ll' e) l = Some ll'.
Proof.
  unfold list_at, set_list. destruct (l =? 0); [done|]. destruct (0 <? l); [|done]. cbn. intros Hll.
  apply list_lookup_insert_eq. by eapply lookup_lt_Some.
Qed.

Lemma set_set l ll1 ll2 e : set_list l ll2 (set_list l ll1 e) = set_list l ll2 e.
Proof. unfold set_list. destruct (l =? 0); cbn; [done|]. by rewrite list_insert_insert_eq. Qed.

Lemma set_list_id l ll e : list_at e l = Some ll → set_list l ll e = e.
Proof.
  unfold list_at, set_list. destruct e as [base v lab up]. cbn. destruct (l =? 0); [by intros [= ->]|].
  destruct (0 <? l); [|done]. intros Hll. by rewrite list_insert_id.
Qed.

Lemma set_same_but l ll ll' e :
  list_at e l = Some ll → l_mark ll' = l_mark ll → same_but l e (set_list l ll' e).
Proof.
  unfold list_at, set_list. intros Hll Hmark. destruct (Z.eqb_spec l 0) as [->|Hne].
  - injection Hll as <-. split; try done; [unfold deleted; cbn; by rewrite Hmark|].
    intros l' Hl. unfold list_at. by destruct (Z.eqb_spec l' 0).
  - destruct (Z.ltb_spec 0 l); [|done]. split; cbn; try done; [by rewrite length_insert|].
    intros l' Hl. unfold list_at. cbn. destruct (Z.eqb_spec l' 0); [done|]. destruct (Z.ltb_spec 0 l'); [|done].
    apply list_lookup_insert_ne. lia.
Qed.

Lemma same_but_list l e e' ll : same_but l e e' → list_at e l = Some ll → ∃ ll', list_at e' l = Some ll'.
Proof.
  intros [_ _ Hlev _ _] Hll. unfold list_at in *. destruct (l =? 0); [eauto|]. destruct (0 <? l); [|done].
  apply lookup_lt_Some in Hll. destruct (lookup_lt_is_Some_2 (e_upper e') (Z.to_nat (l - 1))) as [ll' ?]; [lia|eauto].
Qed.

Lemma list_at_level e l : 0 ≤ l ≤ e_level e → ∃ ll, list_at e l = Some ll.
Proof.
  unfold list_at, e_level. intros Hl. destruct (Z.eqb_spec l 0); [eauto|]. destruct (Z.ltb_spec 0 l); [|lia].
  destruct (lookup_lt_is_Some_2 (e_upper e) (Z.to_nat (l - 1))) as [ll ?]; [lia|eauto].
Qed.

(** Writing ids to the front of the slots. *)
Lemma take_inserts (zs slots : list Z) :
  (length zs ≤ length slots)%nat → take (length zs) (list_inserts 0 zs slots) = zs.
Proof.
  intros Hlen. apply list_eq_same_length with (length zs); [done| |].
  - rewrite length_take, length_inserts. lia.
  - intros i x y Hi. rewrite lookup_take_lt, list_lookup_inserts by lia.
    replace (i - 0)%nat with i by lia. congruence.
Qed.

Lemma Forall_inserts (P : Z → Prop) zs slots k : Forall P zs → Forall P slots → Forall P (list_inserts k zs slots).
Proof. intros Hz. revert k. induction Hz as [|z zs Hz Hzs IH]; intros k Hs; cbn; [done|]. apply Forall_insert; [by apply IH|done]. Qed.
End Elements.

(** ** Link lists in memory *)
Section Lists.
Context {Q : Type} `{MaxQueueLaws Q}.
Context (distance : list byte → list byte → Z).
Context {s0 : HierarchicalNSW} {es : list element} {L : gset Z} {h : hands} {s : HierarchicalNSW}.
Context (Hh : holds s0 es L h s) (i : Z) (e : element) (l : Z) (ll : linklist).
Context (He : has es i e) (Hll : list_at e l = Some ll).
Abbreviation data := (where_list (layout s0) i l).

Lemma wp_load_links js (Φ : list Z → HierarchicalNSW → Prop) :
  (∀ j, j ∈ js → (j < length (l_slots ll))%nat) → Φ (omap (λ j, l_slots ll !! j) js) s → wp (load_links data js) Φ s.
Proof.
  revert Φ. induction js as [|j js IH]; intros Φ Hjs HΦ; cbn [load_links]; [by apply wp_ret|].
  destruct (lookup_lt_is_Some_2 (l_slots ll) j) as [z Hz]; [by apply Hjs; left|]. cbn in HΦ. rewrite Hz in HΦ.
  apply wp_bind, (wp_slot Hh i e l ll j z); [done|done|done|]. apply wp_bind, IH; [intros j' Hj'; apply Hjs; by right|].
  by apply wp_ret.
Qed.

Lemma wp_is_linked js c (Φ : bool → HierarchicalNSW → Prop) :
  (∀ j, j ∈ js → (j < length (l_slots ll))%nat) → Φ (bool_decide (c ∈ omap (λ j, l_slots ll !! j) js)) s →
  wp (is_linked data js c) Φ s.
Proof.
  revert Φ. induction js as [|j js IH]; intros Φ Hjs HΦ; cbn [is_linked].
  { apply wp_ret. cbn in HΦ. rewrite bool_decide_eq_false_2 in HΦ; [done|]. by intros ?%elem_of_nil. }
  destruct (lookup_lt_is_Some_2 (l_slots ll) j) as [z Hz]; [by apply Hjs; left|]. cbn in HΦ. rewrite Hz in HΦ.
  apply wp_bind, (wp_slot Hh i e l ll j z); [done|done|done|]. cbn beta. destruct (Z.eqb_spec z c) as [->|Hne].
  - apply wp_ret. rewrite bool_decide_eq_true_2 in HΦ; [done|]. by left.
  - apply IH; [intros j' Hj'; apply Hjs; by right|]. erewrite bool_decide_ext; [exact HΦ|].
    rewrite elem_of_cons. naive_solver.
Qed.

Lemma wp_emplace_links js other fo : ∀ K_Set (Φ : Q → HierarchicalNSW → Prop),
  (∀ j, j ∈ js → ∃ n f, l_slots ll !! j = Some n ∧ has es n f) → has es other fo →
  (∀ K, q_elems K ≡ₚ ((λ n, (gap distance es n other, n)) <$> omap (λ j, l_slots ll !! j) js) ++ q_elems K_Set → Φ K s) →
  wp (emplace_links distance data js other K_Set) Φ s.
Proof.
  induction js as [|j js IH]; intros K_Set Φ Hjs Ho HΦ; cbn [emplace_links]; [by apply wp_ret, HΦ|].
  destruct (Hjs j) as (n & f & Hn & Hf); [by left|]. apply wp_bind, (wp_slot Hh i e l ll j n); [done|done|done|].
  apply wp_bind, (wp_distance_between distance Hh _ _ f fo); [done|done|].
  apply IH; [intros j' Hj'; apply Hjs; by right|done|]. intros K HK. apply HΦ. rewrite HK, elems_emplace. cbn. rewrite Hn. cbn.
  by rewrite <- Permutation_middle.
Qed.
End Lists.

Section Writes.
Context {s0 : HierarchicalNSW} {L : gset Z} {h : hands} (i l : Z).
Abbreviation data := (where_list (layout s0) i l).

Definition put_slots (k : nat) (zs : list Z) (ll : linklist) : linklist :=
  mkLinks (l_count ll) (l_mark ll) (l_pad ll) (list_inserts k zs (l_slots ll)).

Lemma wp_store_links zs : ∀ k es e ll s (Φ : unit → HierarchicalNSW → Prop),
  holds s0 es L h s → has es i e → list_at e l = Some ll → (k + length zs ≤ length (l_slots ll))%nat →
  Forall (λ z, 0 ≤ z < 2 ^ 32) zs →
  (∀ s', holds s0 (<[Z.to_nat i := set_list l (put_slots k zs ll) e]> es) L h s' → Φ tt s') →
  wp (store_links data k zs) Φ s.
Proof.
  induction zs as [|z zs IH]; intros k es e ll s Φ Hh He Hll Hk Hzs HΦ; cbn [store_links length] in *.
  { apply wp_ret, HΦ. replace (put_slots k [] ll) with ll by by destruct ll.
    by rewrite set_list_id, list_insert_id by (done || apply He). }
  apply Forall_cons in Hzs as [Hz Hzs]. apply wp_bind, (wp_set_slot Hh i e l ll); [done|done|lia|done|].
  intros s1 Hh1. apply (IH (S k) _ (set_list l (set_slot k z ll) e) (set_slot k z ll) s1 Φ Hh1).
  - apply (has_insert es i e); [done|by left].
  - by eapply list_at_set.
  - cbn. rewrite length_insert. lia.
  - done.
  - rewrite list_insert_insert_eq, set_set. intros s2 Hh2. apply HΦ. revert Hh2. unfold put_slots. cbn.
    by rewrite list_insert_inserts_lt by lia.
Qed.

(** The links of the new element: [write_links] looks before it writes. *)
Lemma wp_write_links updateFlag zs : ∀ k es e ll s (Φ : unit → HierarchicalNSW → Prop),
  holds s0 es L h s → has es i e → list_at e l = Some ll → (k + length zs ≤ length (l_slots ll))%nat →
  Forall (λ z, 0 ≤ z < 2 ^ 32 ∧ z ≠ i ∧ ∃ f, has es z f ∧ l ≤ e_level f) zs →
  (updateFlag = false → ∀ j z, (k ≤ j)%nat → l_slots ll !! j = Some z → z = 0) →
  (∀ s', holds s0 (<[Z.to_nat i := set_list l (put_slots k zs ll) e]> es) L h s' → Φ tt s') →
  wp (write_links data l updateFlag k zs) Φ s.
Proof.
  induction zs as [|z zs IH]; intros k es e ll s Φ Hh He Hll Hk Hzs Hblank HΦ.
  { apply (wp_store_links [] k es e ll s Φ); try done. }
  cbn [write_links length] in *. apply Forall_cons in Hzs as [(Hz & Hzi & f & Hf & Hlev) Hzs].
  destruct (lookup_lt_is_Some_2 (l_slots ll) k) as [old Hold]; [lia|].
  apply wp_bind, (wp_slot Hh i e l ll k old); [done|done|done|]. apply wp_bind, wp_throw_if.
  { destruct updateFlag; [by rewrite andb_false_r|]. by rewrite (Hblank eq_refl k old). }
  apply wp_bind, (wp_level_of Hh z f); [done|]. apply wp_bind, wp_throw_if; [by apply Z.ltb_ge|].
  apply wp_bind, (wp_set_slot Hh i e l ll); [done|done|lia|done|].
  intros s1 Hh1. apply (IH (S k) _ (set_list l (set_slot k z ll) e) (set_slot k z ll) s1 Φ Hh1).
  - apply (has_insert es i e); [done|by left].
  - by eapply list_at_set.
  - cbn. rewrite length_insert. lia.
  - eapply Forall_impl; [exact Hzs|]. intros w (Hw & Hwi & g & Hg & Hgl). split_and!; [lia|lia|done|].
    exists g. split; [|done]. apply (has_insert es i e); [done|by right].
  - intros Hu j w Hj. cbn. rewrite list_lookup_insert_ne by lia. apply Hblank; [done|lia].
  - rewrite list_insert_insert_eq, set_set. intros s2 Hh2. apply HΦ. revert Hh2. unfold put_slots. cbn.
    by rewrite list_insert_inserts_lt by lia.
Qed.
End Writes.

(** ** Connecting *)

(** The links [new] that an element [other] with the links [old] has after it was given a
    link to [c]. *)
Inductive relinked (gap : Z → Z → Z) (max other c : Z) (old new : list Z) : Prop :=
  | RelinkedPresent : c ∈ old → new = old → relinked gap max other c old new
  | RelinkedAppended : c ∉ old → Z.of_nat (length old) < max → new = old ++ [c] → relinked gap max other c old new
  | RelinkedPicked kept : c ∉ old → Z.of_nat (length old) = max →
      picked gap max ((gap c other, c) :: ((λ n, (gap n other, n)) <$> old)) kept → new ≡ₚ snd <$> kept →
      relinked gap max other c old new.

Lemma NoDup_sub {A} (l k : list A) : l ⊆+ k → NoDup k → NoDup l.
Proof. intros [k' Hk]%submseteq_Permutation. rewrite Hk. by intros [? _]%NoDup_app. Qed.

Lemma relinked_links gap max other c old new :
  0 ≤ max → Z.of_nat (length old) ≤ max → NoDup old → relinked gap max other c old new →
  NoDup new ∧ (∀ j, j ∈ new → j = c ∨ j ∈ old) ∧ Z.of_nat (length new) ≤ max.
Proof.
  intros Hmax Hlen Hnd [Hin ->|Hin Hroom ->|kept Hin Hfull Hp Hnew].
  - split_and!; [done|by right|done].
  - split_and!; [|intros j; rewrite elem_of_app, list_elem_of_singleton; naive_solver|rewrite length_app; cbn; lia].
    apply NoDup_app. split_and!; [done| |apply NoDup_singleton]. by intros j Hj ->%list_elem_of_singleton.
  - pose proof (fmap_submseteq snd _ _ (picked_subset _ _ _ _ Hp)) as Hsub. rewrite fmap_cons, <- list_fmap_compose in Hsub.
    unfold compose in Hsub. cbn [snd] in Hsub. rewrite list_fmap_id in Hsub. rewrite <- Hnew in Hsub.
    assert (NoDup (c :: old)) as Hnd' by by apply NoDup_cons. split_and!.
    + by eapply NoDup_sub.
    + intros j Hj. apply (elem_of_submseteq _ _ _ Hj) in Hsub. by apply elem_of_cons.
    + apply picked_size in Hp; [|done]. rewrite Hnew, length_fmap. lia.
Qed.

(** Only the distances to the element matter. *)
Lemma relinked_gap gap gap' max other c old new :
  (∀ a b, gap' a b = gap a b) → relinked gap' max other c old new → relinked gap max other c old new.
Proof.
  intros Hg [?|?|kept Hin Hfull [H1 H2 H3 (rest & H4 & H5)] Hnew]; [by constructor 1|by constructor 2|].
  assert ((λ n, (gap' n other, n)) <$> old = (λ n, (gap n other, n)) <$> old) as Hmap.
  { apply list_fmap_ext. intros _ n _. by rewrite Hg. }
  constructor 3 with kept; [done|done| |done]. rewrite Hmap, Hg in *. split; [done|done| |].
  - intros Hm. destruct (H3 Hm) as (order & ? & Hs). exists order. split; [done|].
    eapply sorted_impl; [|exact Hs]. intros x y [? ?]. split; [done|]. by rewrite <- Hg.
  - exists rest. split; [done|]. intros z Hz. destruct (H5 z Hz) as [(x & ? & ? & Hx)|?]; [left|by right].
    exists x. by rewrite <- Hg.
Qed.

Section Connect.
Context {Q : Type} `{MaxQueueLaws Q}.
Context (distance : list byte → list byte → Z).
Context {s0 : HierarchicalNSW} {L : gset Z} {h : hands} (l : Z).
Abbreviation max_M := (max_at (layout s0) l).
Implicit Types (s : HierarchicalNSW).

Definition new_links (sel : list Z) (ll : linklist) : linklist :=
  mkLinks (Z.of_nat (length sel)) (l_mark ll) (l_pad ll) (list_inserts 0 sel (l_slots ll)).

Lemma stored_new_links sel ll : (length sel ≤ length (l_slots ll))%nat → stored (new_links sel ll) = sel.
Proof. intros Hlen. unfold stored, new_links. cbn. rewrite Nat2Z.id. by apply take_inserts. Qed.

Lemma max_at_range {L'} es s : holds s0 es L' h s → 0 ≤ max_M < 2 ^ 16 ∧ M_ (layout s0) ≤ max_M.
Proof.
  intros Hh. destruct (holds_layout _ _ _ _ _ Hh) as (Hlay & Hc & _).
  pose proof (rep_layout _ _ (ho_rep _ _ _ _ _ Hh)) as Hlo. rewrite Hlay in Hlo. unfold max_at.
  destruct Hlo, (l =? 0); lia.
Qed.

Lemma has_id L' es s i e : holds s0 es L' h s → has es i e → 0 ≤ i < 2 ^ 32.
Proof.
  intros Hh He. pose proof (ho_rep _ _ _ _ _ Hh) as Hrep. destruct (has_lt s es Hrep i e He).
  destruct (rep_layout _ _ Hrep). lia.
Qed.

Lemma wp_connect_new L' updateFlag sel es s c e ll (Φ : unit → HierarchicalNSW → Prop) :
  holds s0 es L' h s → has es c e → list_at e l = Some ll → Z.of_nat (length sel) ≤ max_M →
  (∀ z, z ∈ sel → z ≠ c ∧ ∃ f, has es z f ∧ l ≤ e_level f) →
  (updateFlag = false → l_count ll = 0 ∧ l_mark ll = 0 ∧ l_pad ll = 0 ∧ Forall (λ z, z = 0) (l_slots ll)) →
  (∀ s', holds s0 (<[Z.to_nat c := set_list l (new_links sel ll) e]> es) L' h s' → Φ tt s') →
  wp (connect_new c l updateFlag sel) Φ s.
Proof.
  intros Hh He Hll Hlen Hsel Hblank HΦ. unfold connect_new.
  pose proof (holds_list_ok Hh _ _ _ _ He Hll) as Hok. pose proof (ll_slots _ _ Hok) as Hslots.
  apply wp_bind, (wp_list Hh c e l ll); [done|done|]. apply wp_bind, (wp_head Hh c e l ll); [done|done|].
  intros v Hv. apply wp_bind, wp_throw_if.
  { destruct updateFlag; [by rewrite andb_false_r|]. destruct (Hblank eq_refl) as (? & ? & ? & _). by rewrite Hv. }
  apply wp_bind, (wp_set_count Hh c e l ll); [done|done|lia|]. intros s1 Hh1.
  apply (wp_write_links c l updateFlag sel 0 _ (set_list l (set_count (Z.of_nat (length sel)) ll) e)
    (set_count (Z.of_nat (length sel)) ll) s1 Φ Hh1).
  - apply (has_insert es c e); [done|by left].
  - by eapply list_at_set.
  - cbn. lia.
  - apply Forall_forall. intros z Hz. destruct (Hsel z Hz) as (Hzc & f & Hf & Hfl).
    split; [exact (has_id _ _ _ _ _ Hh Hf)|]. split; [done|]. exists f. split; [|done]. apply (has_insert es c e); [done|by right].
  - intros Hu j z _ Hj. destruct (Hblank Hu) as (_ & _ & _ & Hz). exact (Forall_lookup_1 _ _ _ _ Hz Hj).
  - by rewrite list_insert_insert_eq, set_set.
Qed.

(** The neighbour has [new] for its list, with [c] in it if there is room or it is close. *)
Definition linked_back es L' other c e ll s' : Prop :=
  ∃ new, holds s0 (<[Z.to_nat other := set_list l new e]> es) L' h s' ∧ l_mark new = l_mark ll ∧
    relinked (gap distance es) max_M other c (stored ll) (stored new).

(** There is room for another link. *)
Lemma wp_link_room L' es s c other ec e ll :
  holds s0 es L' h s → has es c ec → has es other e → list_at e l = Some ll → c ∉ stored ll → l_count ll < max_M →
  wp (store_u32 (link_at (where_list (layout s0) other l) (Z.to_nat (l_count ll))) c ;;
      setListCount (where_list (layout s0) other l) (l_count ll + 1)) (λ _, linked_back es L' other c e ll) s.
Proof.
  intros Hh Hc He Hll Hout Hroom. destruct (holds_list_ok Hh _ _ _ _ He Hll) as [Hslots Hcnt _ _ _].
  apply wp_bind, (wp_set_slot Hh other e l ll); [done|done|lia|exact (has_id _ _ _ _ _ Hh Hc)|]. intros s3 Hh3.
  eapply (wp_set_count Hh3 other); [by apply (has_insert es other e); [|left]|by eapply list_at_set|lia|].
  rewrite list_insert_insert_eq, set_set. intros s4 Hh4. eexists. split; [exact Hh4|]. split; [done|].
  constructor 2; [done|unfold stored; rewrite length_take; lia|]. unfold stored. cbn.
  replace (Z.to_nat (l_count ll + 1)) with (S (Z.to_nat (l_count ll))) by lia.
  erewrite take_S_r by (apply list_lookup_insert_eq; lia). by rewrite take_insert_ge by lia.
Qed.

(** The list is full: the heuristic picks among its links and [c]. *)
Lemma wp_link_full L' es s c other ec e ll :
  holds s0 es L' h s → has es c ec → has es other e → list_at e l = Some ll → c ∉ stored ll → max_M ≤ l_count ll →
  (∀ j, j ∈ stored ll → ∃ f, has es j f) → NoDup (stored ll) →
  wp (max_distance ← distance_between distance c other;
      K_Set ← emplace_links distance (where_list (layout s0) other l) (seq 0 (Z.to_nat (l_count ll))) other (q_emplace (max_distance, c) q_empty);
      K_Set ← getNeighborsByHeuristic2 distance K_Set max_M;
      store_links (where_list (layout s0) other l) 0 (snd <$> q_drain K_Set) ;;
      setListCount (where_list (layout s0) other l) (Z.of_nat (length (snd <$> q_drain K_Set)))) (λ _, linked_back es L' other c e ll) s.
Proof.
  intros Hh Hc He Hll Hout Hfull Hlinks Hnd. pose proof (holds_list_ok Hh _ _ _ _ He Hll) as Hok.
  pose proof (stored_slots _ _ Hok) as Hst. destruct Hok as [Hslots Hcnt _ _ Hids]. destruct (max_at_range es s Hh) as [Hmax _].
  assert (Z.of_nat (length (stored ll)) = l_count ll) as Hlen by (unfold stored; rewrite length_take; lia).
  apply wp_bind, (wp_distance_between distance Hh _ _ ec e); [done|done|].
  apply wp_bind, (wp_emplace_links distance Hh other e l ll He Hll _ other e); [|done|].
  { intros j [_ Hj]%elem_of_seq. destruct (lookup_lt_is_Some_2 (l_slots ll) j) as [n Hn]; [lia|].
    destruct (Hlinks n) as [f Hf]; [|eauto]. unfold stored. apply (list_elem_of_lookup_2 _ j). by rewrite lookup_take_lt by lia. }
  rewrite Hst. intros K HK. rewrite elems_emplace, elems_empty, (Permutation_app_comm _ [_]) in HK. cbn in HK.
  apply wp_bind, (wp_heuristic distance Hh); [lia| |].
  { intros x. rewrite HK. intros [->|(n & -> & Hn)%list_elem_of_fmap]%elem_of_cons; [eauto|by apply Hlinks]. }
  intros Kept Hpick. set (ns := snd <$> q_drain Kept).
  assert (ns ≡ₚ snd <$> q_elems Kept) as Hns by (unfold ns; by rewrite (proj1 (drain_spec Kept))).
  rewrite HK in Hpick. assert (relinked (gap distance es) max_M other c (stored ll) ns) as Hre.
  { constructor 3 with (q_elems Kept); [done|lia|exact Hpick|done]. }
  destruct (relinked_links (gap distance es) max_M other c (stored ll) ns) as (_ & Hsub & Hlen'); [lia|lia|done|done|].
  assert (Forall (λ z, 0 ≤ z < 2 ^ 32) ns) as Hrange.
  { apply Forall_forall. intros n [->|Hn]%Hsub; [exact (has_id _ _ _ _ _ Hh Hc)|].
    destruct (Hlinks n Hn) as [f Hf]. exact (has_id _ _ _ _ _ Hh Hf). }
  apply wp_bind, (wp_store_links other l ns 0 es e ll s _ Hh); [done|done|lia|done|]. intros s3 Hh3.
  apply (wp_set_count Hh3 other (set_list l (put_slots 0 ns ll) e) l (put_slots 0 ns ll));
    [by apply (has_insert es other e); [|left]|by eapply list_at_set|lia|].
  rewrite list_insert_insert_eq, set_set. intros s4 Hh4. eexists. split; [exact Hh4|]. split; [done|].
  change (set_count (Z.of_nat (length ns)) (put_slots 0 ns ll)) with (new_links ns ll). by rewrite stored_new_links by lia.
Qed.

Lemma wp_connect_back updateFlag es s c other ec e (Φ : unit → HierarchicalNSW → Prop) :
  holds s0 es L h s → has es c ec → has es other e → other ≠ c → other ∉ L → 0 ≤ l ≤ e_level e →
  (∀ j, j ∈ links e l → ∃ f, has es j f) → (updateFlag = false → c ∉ links e l) → NoDup (links e l) →
  (∀ ll new s', list_at e l = Some ll → stored new = links (set_list l new e) l → l_mark new = l_mark ll →
    relinked (gap distance es) max_M other c (links e l) (stored new) →
    holds s0 (<[Z.to_nat other := set_list l new e]> es) L h s' → Φ tt s') →
  wp (connect_back distance max_M c l updateFlag other) Φ s.
Proof.
  intros Hh Hc He Hne Hlock Hlev Hlinks Hfresh Hnd HΦ. unfold connect_back.
  destruct (list_at_level e l Hlev) as [ll Hll]. pose proof (holds_list_ok Hh _ _ _ _ He Hll) as Hok.
  pose proof (stored_slots _ _ Hok) as Hst. destruct Hok as [Hslots Hcnt _ _ Hids].
  destruct (holds_layout _ _ _ _ _ Hh) as (_ & Hcap & _). destruct (has_lt s es (ho_rep _ _ _ _ _ Hh) _ _ He) as [Hlt Hlt'].
  assert (links e l = stored ll) as Hlk by (unfold links; by rewrite Hll). rewrite Hlk in *.
  apply (wp_with_lock Hh); [done|lia|]. intros s1 Hh1.
  apply wp_bind, (wp_list Hh1 other e l ll); [done|done|]. apply wp_bind, (wp_count Hh1 other e l ll); [done|done|].
  apply wp_bind, wp_throw_if; [apply Z.ltb_ge; lia|]. apply wp_bind, wp_throw_if; [by apply Z.eqb_neq|].
  apply wp_bind, (wp_level_of Hh1 other e); [done|]. apply wp_bind, wp_throw_if; [apply Z.ltb_ge; lia|].
  assert (∀ new, stored new = links (set_list l new e) l) as Hnew.
  { intros new. unfold links. by rewrite (list_at_set l ll). }
  apply wp_bind. eapply (wp_mono _ (λ b s', holds s0 es ({[other]} ∪ L) h s' ∧ b = bool_decide (c ∈ stored ll))).
  { destruct updateFlag.
    - apply (wp_is_linked Hh1 other e l ll); [done|done| |by rewrite Hst]. intros j [_ Hj]%elem_of_seq. lia.
    - apply wp_ret. split; [done|]. by rewrite bool_decide_eq_false_2 by by apply Hfresh. }
  intros b s2 [Hh2 ->]. destruct (bool_decide_reflect (c ∈ stored ll)) as [Hin|Hout].
  { apply wp_ret. exists es, h. split; [done|]. intros s3 Hh3. apply (HΦ ll ll); try done; [by constructor 1|].
    by rewrite set_list_id, list_insert_id by (done || apply He). }
  eapply (wp_mono _ (λ _, linked_back es ({[other]} ∪ L) other c e ll)).
  - destruct (Z.ltb_spec (l_count ll) max_M); [by eapply wp_link_room|by eapply wp_link_full].
  - intros [] s3 (new & Hh3 & Hmark & Hre). eexists _, h. split; [exact Hh3|]. intros s4 Hh4. by apply (HΦ ll new).
Qed.

(** One link back after the other. *)
Definition back_linked (c : Z) (sel : list Z) (es es' : list element) : Prop :=
  evolves l es es' ∧ ∀ i e e', has es i e → has es' i e' →
    (i ∉ sel → e' = e) ∧ (i ∈ sel → relinked (gap distance es) max_M i c (links e l) (links e' l)).

Lemma wp_connect_all_back updateFlag c sel : ∀ es s ec (Φ : unit → HierarchicalNSW → Prop),
  holds s0 es L h s → has es c ec → 0 ≤ l → NoDup sel →
  (∀ i, i ∈ sel → i ≠ c ∧ i ∉ L ∧ ∃ e, has es i e ∧ l ≤ e_level e ∧ NoDup (links e l) ∧
    (updateFlag = false → c ∉ links e l) ∧ ∀ j, j ∈ links e l → ∃ f, has es j f) →
  (∀ es' s', back_linked c sel es es' → holds s0 es' L h s' → Φ tt s') →
  wp (connect_all_back distance max_M c l updateFlag sel) Φ s.
Proof.
  induction sel as [|i sel IH]; intros es s ec Φ Hh Hc Hl Hnd Hsel HΦ; cbn [connect_all_back].
  { apply wp_ret, (HΦ es s); [|done]. split; [reflexivity|]. intros i e e' He He'. rewrite (has_fun _ _ _ _ He He').
    split; [done|]. by intros ?%elem_of_nil. }
  apply NoDup_cons in Hnd as [Hi Hnd]. destruct (Hsel i) as (Hic & HiL & e & He & Hle & Hnde & Hfresh & Hlinks); [by left|].
  apply wp_bind, (wp_connect_back updateFlag es s c i ec e); try done.
  intros ll new s1 Hll Hst Hmark Hre Hh1.
  assert (same_but l e (set_list l new e)) as Hsb by by eapply set_same_but.
  pose proof (evolves_insert _ _ _ _ _ He Hsb) as Hev.
  apply (IH _ s1 ec _ Hh1); [by apply (has_insert es i e); [|right]|done|done| |].
  - intros j Hj. assert (j ≠ i) as Hji by congruence. destruct (Hsel j) as (Hjc & HjL & f & Hf & ? & ? & ? & Hjl); [by right|].
    split_and!; [done|done|]. exists f. split_and!; try done; [by apply (has_insert es i e); [|right]|].
    intros k Hk. destruct (Hjl k Hk) as [g Hg]. destruct (evolves_has _ _ _ _ _ Hev Hg) as (g' & Hg' & _). by exists g'.
  - intros es2 s2 [Hev2 Hback] Hh2. apply (HΦ es2 s2); [|done]. split; [by etrans|].
    intros j f f' Hf Hf'. destruct (decide (j = i)) as [->|Hji].
    + rewrite <- (has_fun _ _ _ _ He Hf). clear Hf. split; [intros Hnot; destruct Hnot; by left|]. intros _.
      destruct (Hback i (set_list l new e) f') as [Hsame _]; [by apply (has_insert es i e); [|left]|done|].
      rewrite (Hsame Hi). by rewrite <- Hst.
    + destruct (Hback j f f') as [Hsame Hrel]; [by apply (has_insert es i e); [|right]|done|]. split.
      * intros Hnot. apply Hsame. intros Hin. apply Hnot. by right.
      * intros [->|Hin]%elem_of_cons; [done|]. specialize (Hrel Hin).
        assert (∀ a b, gap distance (<[Z.to_nat i:=set_list l new e]> es) a b = gap distance es a b) as Hgap.
        { intros a b. by apply (evolves_gap distance l). }
        by apply (relinked_gap _ _ _ _ _ _ _ Hgap).
Qed.

(** Every link at the level leads to another element of the level, and to each one once. *)
Definition graph_at (es : list element) : Prop :=
  ∀ i e, has es i e → l ≤ e_level e →
    NoDup (links e l) ∧ ∀ j, j ∈ links e l → j ≠ i ∧ ∃ f, has es j f ∧ l ≤ e_level f.

(** The element [c] joined to some of the candidates, [obj] being the closest of them. *)
Definition joined (c : Z) (cands : list entry) (obj : Z) (es es' : list element) : Prop :=
  evolves l es es' ∧ ∃ order,
    picked (gap distance es) (M_ (layout s0)) cands order ∧ falling order ∧ last (snd <$> order) = Some obj ∧
    ∀ i e e', has es i e → has es' i e' →
      (i = c → links e' l = snd <$> order) ∧
      (i ≠ c → i ∉ snd <$> order → e' = e) ∧
      (i ≠ c → i ∈ snd <$> order → relinked (gap distance es) max_M i c (links e l) (links e' l)).

(** The links of [c] itself, under its lock when they are updated. *)
Lemma wp_connect_self (updateFlag : bool) c sel es s ec ll (Φ : unit → HierarchicalNSW → Prop) :
  holds s0 es L h s → has es c ec → list_at ec l = Some ll → Z.of_nat (length sel) ≤ max_M →
  (if updateFlag then c ∉ L else l_count ll = 0 ∧ l_mark ll = 0 ∧ l_pad ll = 0 ∧ Forall (λ z, z = 0) (l_slots ll)) →
  (∀ z, z ∈ sel → z ≠ c ∧ ∃ f, has es z f ∧ l ≤ e_level f) →
  (∀ s', holds s0 (<[Z.to_nat c := set_list l (new_links sel ll) ec]> es) L h s' → Φ tt s') →
  wp (if updateFlag then with_lock c (connect_new c l updateFlag sel) else connect_new c l updateFlag sel) Φ s.
Proof.
  intros Hh Hc Hll Hlen Hflag Hsel HΦ. destruct updateFlag.
  - destruct (holds_layout _ _ _ _ _ Hh) as (_ & Hcap & _). destruct (has_lt s es (ho_rep _ _ _ _ _ Hh) _ _ Hc).
    apply (wp_with_lock Hh); [done|lia|]. intros s1 Hh1. apply (wp_connect_new _ true sel es s1 c ec ll _ Hh1); try done.
    intros s2 Hh2. eauto.
  - by apply (wp_connect_new _ false sel es s c ec ll _ Hh).
Qed.

(** What the heuristic keeps of the candidates can be joined. *)
Lemma picked_joinable c cands order es :
  0 < M_ (layout s0) ≤ max_M → picked (gap distance es) (M_ (layout s0)) cands order → NoDup (snd <$> cands) → cands ≠ [] →
  (∀ x, x ∈ cands → x.2 ≠ c ∧ x.2 ∉ L ∧ ∃ e, has es x.2 e ∧ l ≤ e_level e) →
  let sel := snd <$> order in
  NoDup sel ∧ Z.of_nat (length sel) ≤ max_M ∧ (∃ obj, last sel = Some obj) ∧
  ∀ i, i ∈ sel → i ≠ c ∧ i ∉ L ∧ ∃ e, has es i e ∧ l ≤ e_level e.
Proof.
  intros HM Hpick Hnd Hne Hall sel.
  assert (sel ⊆+ (snd <$> cands)) as Hsub by by apply fmap_submseteq, (picked_subset _ _ _ _ Hpick).
  split_and!; [by eapply NoDup_sub| | |].
  - apply picked_size in Hpick; [|lia]. unfold sel. rewrite length_fmap. lia.
  - destruct (last sel) as [obj|] eqn:Hlast; [by exists obj|]. apply last_None in Hlast.
    apply picked_nonempty in Hpick; [|lia|done]. destruct Hpick. by apply fmap_nil_inv in Hlast.
  - intros i Hi. apply (elem_of_submseteq _ _ _ Hi) in Hsub. apply list_elem_of_fmap in Hsub as (x & -> & Hx). by apply Hall.
Qed.

Lemma wp_mutuallyConnect (updateFlag : bool) c Top_K es s ec ll (Φ : Z → HierarchicalNSW → Prop) :
  holds s0 es L h s → graph_at es → has es c ec → list_at ec l = Some ll → 0 ≤ l ≤ e_level ec →
  (if updateFlag then c ∉ L else
     l_count ll = 0 ∧ l_mark ll = 0 ∧ l_pad ll = 0 ∧ Forall (λ z, z = 0) (l_slots ll) ∧
     ∀ i e, has es i e → i ≠ c → c ∉ links e l) →
  q_elems Top_K ≠ [] → NoDup (snd <$> q_elems Top_K) →
  (∀ x, x ∈ q_elems Top_K → x.2 ≠ c ∧ x.2 ∉ L ∧ ∃ e, has es x.2 e ∧ l ≤ e_level e) →
  (∀ obj es' s', joined c (q_elems Top_K) obj es es' → holds s0 es' L h s' → Φ obj s') →
  wp (mutuallyConnectNewElement distance c Top_K l updateFlag) Φ s.
Proof.
  intros Hh Hg Hc Hll Hlc Hflag Hne Hnd Hall HΦ. unfold mutuallyConnectNewElement.
  destruct (holds_layout _ _ _ _ _ Hh) as (Hlay & _). destruct (max_at_range es s Hh) as [Hmax HM].
  pose proof (rep_layout _ _ (ho_rep _ _ _ _ _ Hh)) as Hlo. rewrite Hlay in Hlo. pose proof (lo_M _ _ Hlo) as HM1.
  apply wp_bind, wp_gets. rewrite Hlay. change (if l =? 0 then max_M0_ (layout s0) else max_M_ (layout s0)) with max_M.
  apply wp_bind, (wp_heuristic distance Hh); [lia|intros x Hx; destruct (Hall x Hx) as (_ & _ & e & ? & _); eauto|].
  intros Top' Hpick. destruct (drain_spec Top') as [Hperm Hfall].
  apply wp_bind, wp_throw_if.
  { apply Z.ltb_ge. apply picked_size in Hpick; [|lia]. unfold q_size. lia. }
  rewrite <- Hperm in Hpick. set (order := q_drain Top') in *. set (sel := snd <$> order).
  destruct (picked_joinable c _ _ es ltac:(lia) Hpick Hnd Hne Hall) as (Hnds & Hlen & [obj Hlast] & Hsel). fold sel in Hnds, Hlen, Hlast, Hsel.
  rewrite Hlast. set (e1 := set_list l (new_links sel ll) ec). pose proof (holds_list_ok Hh _ _ _ _ Hc Hll) as Hok.
  assert (stored (new_links sel ll) = sel) as Hst by (apply stored_new_links; destruct Hok; lia).
  assert (links e1 l = sel) as Hl1 by (unfold links, e1; by rewrite (list_at_set l ll)).
  pose proof (evolves_insert _ _ _ _ _ Hc (set_same_but l ll (new_links sel ll) ec ltac:(done) ltac:(done))) as Hev. fold e1 in Hev.
  apply wp_bind, (wp_connect_self updateFlag c sel es s ec ll); try done; [destruct updateFlag; naive_solver|naive_solver|]. fold e1. intros s1 Hh1.
  apply wp_bind, (wp_connect_all_back updateFlag c sel _ s1 e1 _ Hh1); [by apply (has_insert es c ec); [|left]|lia|done| |].
  { intros i Hi. destruct (Hsel i Hi) as (Hic & HiL & e & He & Hle). destruct (Hg i e He Hle) as [Hnde Hlk].
    split_and!; [done|done|]. exists e. split_and!; [by apply (has_insert es c ec); [|right]|done|done| |].
    - intros ->. destruct Hflag as (_ & _ & _ & _ & Hfresh). by apply (Hfresh i).
    - intros j Hj. destruct (Hlk j Hj) as (_ & f & Hf & _). destruct (evolves_has _ _ _ _ _ Hev Hf) as (f' & ? & _). by exists f'. }
  intros es2 s2 [Hev2 Hback] Hh2. apply wp_ret, (HΦ obj es2 s2); [|done]. split; [by etrans|].
  exists order. split_and!; [done|done|done|]. intros i e e' He He'.
  assert (c ∉ sel) as Hcs by (intros Hin; by destruct (Hsel c Hin)).
  assert (has (<[Z.to_nat c := e1]> es) c e1) as Hc1 by (apply (has_insert es c ec); [done|by left]).
  assert (i ≠ c → has (<[Z.to_nat c := e1]> es) i e) as Hi1 by (intros; apply (has_insert es c ec); [done|by right]).
  split_and!.
  - intros ->. by rewrite (proj1 (Hback c e1 e' Hc1 He') Hcs).
  - intros Hic Hi. exact (proj1 (Hback i e e' (Hi1 Hic) He') Hi).
  - intros Hic Hi. eapply relinked_gap; [|exact (proj2 (Hback i e e' (Hi1 Hic) He') Hi)].
    intros a b. by apply (evolves_gap distance l).
Qed.

(** A join keeps the links of the level in order. *)
Lemma joined_graph c cands obj es es' s ec :
  holds s0 es L h s → graph_at es → has es c ec → 0 ≤ l ≤ e_level ec → NoDup (snd <$> cands) →
  (∀ x, x ∈ cands → x.2 ≠ c ∧ ∃ e, has es x.2 e ∧ l ≤ e_level e) →
  joined c cands obj es es' → graph_at es'.
Proof.
  intros Hh Hg Hc Hlc Hnd Hall (Hev & order & Hpick & _ & _ & Hlinks).
  destruct (max_at_range es s Hh) as [Hmax _].
  pose proof (fmap_submseteq snd _ _ (picked_subset _ _ _ _ Hpick)) as Hsub.
  assert (∀ j, (∃ f, has es j f ∧ l ≤ e_level f) → ∃ f, has es' j f ∧ l ≤ e_level f) as Hhas.
  { intros j (f & Hf & Hle). destruct (evolves_has _ _ _ _ _ Hev Hf) as (f' & Hf' & [_ _ Hlev _ _]).
    exists f'. split; [done|]. unfold e_level in *. by rewrite Hlev. }
  intros i e' He' Hle'. destruct (evolves_has_r _ _ _ _ _ Hev He') as (e & He & [_ _ Hlev _ _]).
  assert (l ≤ e_level e) as Hle by (unfold e_level in *; by rewrite <- Hlev).
  destruct (Hg i e He Hle) as [Hnde Hlk]. destruct (Hlinks i e e' He He') as (Hself & Hout & Hback).
  destruct (decide (i = c)) as [->|Hic].
  - rewrite Hself by done. split; [by eapply NoDup_sub|]. intros j Hj. apply (elem_of_submseteq _ _ _ Hj) in Hsub.
    apply list_elem_of_fmap in Hsub as (x & -> & Hx). destruct (Hall x Hx) as [? ?]. auto.
  - destruct (decide (i ∈ snd <$> order)) as [Hin|Hnot].
    2: { rewrite (Hout Hic Hnot). split; [done|]. intros j Hj. destruct (Hlk j Hj). auto. }
    destruct (list_at_level e l) as [ll Hll]; [lia|].
    pose proof (holds_list_ok Hh _ _ _ _ He Hll) as Hok.
    destruct (relinked_links (gap distance es) max_M i c (links e l) (links e' l)) as (Hnd' & Hin' & _); [lia| |done|by apply Hback|].
    { unfold links. rewrite Hll. unfold stored. rewrite length_take. destruct Hok. lia. }
    split; [done|]. intros j [->|Hj]%Hin'; [split; [congruence|apply Hhas; eexists; split; [exact Hc|lia]]|]. destruct (Hlk j Hj). auto.
Qed.
End Connect.
