(* ===== verification/HnswDescent.v ===== *)
(** The greedy descent of the graph index: the loops of [addPoint],
    [repairConnectionsForUpdate] and [searchKnn] over the upper levels
    (src/hnsw/hnsw_scratch/hnsw_core.hpp).

    At each level the walk goes to a closer neighbour as long as there is one.  It ends, as
    fewer and fewer elements are closer than where it is, and it ends where no neighbour is
    closer. *)

From S2P Require Import Prelude Bytes Memory CxxLib NearestQueue MaxQueue VisitedList Wp Hnsw HnswRep HnswSearch HnswHeuristic HnswGraph.

Section Descent.
Context (distance : list byte → list byte → Z) (es : list element) (dp : list byte).

(** The distance of an element, and the number of the elements that are closer than [d]. *)
Definition away (e : element) : Z := distance dp (e_vector e).
Definition closer (d : Z) : nat := length (filter (λ e, away e < d) es).

Lemma closer_le d : (closer d ≤ length es)%nat.
Proof. apply length_filter. Qed.

Lemma closer_lt i e d : has es i e → away e < d → (closer (away e) < closer d)%nat.
Proof.
  intros [_ He] Hlt. unfold closer. apply list_elem_of_lookup_2 in He. clear i.
  assert (∀ fs, (length (filter (λ f, (away f < away e)%Z) fs) ≤ length (filter (λ f, (away f < d)%Z) fs))%nat) as Hle.
  { intros fs. induction fs as [|g fs IH]; [done|]. rewrite !filter_cons. repeat case_decide; cbn; lia. }
  revert He. generalize es. intros fs He. induction fs as [|f fs IH]; [by apply elem_of_nil in He|].
  rewrite !filter_cons. specialize (Hle fs). apply elem_of_cons in He as [<-|He].
  - rewrite decide_False, decide_True by lia. cbn. lia.
  - specialize (IH He). repeat case_decide; cbn; lia.
Qed.

(** No link at the level leads closer. *)
Definition local_minimum (l i : Z) : Prop := ∀ e j f, has es i e → j ∈ links e l → has es j f → away e ≤ away f.

(** Where a walk over a level may end. *)
Record walked (l start i d : Z) : Prop := {
  wk_reach : reach es l start i;
  wk_has : ∃ e, has es i e ∧ l ≤ e_level e ∧ d = away e;
  wk_start : ∀ e, has es start e → d ≤ away e;
  wk_minimum : local_minimum l i;
}.

Section Code.
Context {s0 : HierarchicalNSW} {L : gset Z} {h : hands}.

(** One pass: it goes to the closest of the links, if that is closer. *)
Lemma wp_scan_closer checked i e l ll js : ∀ cur d changed s (Φ : Z * Z * bool → HierarchicalNSW → Prop),
  holds s0 es L h s → has es i e → list_at e l = Some ll →
  (∀ j, j ∈ js → ∃ k f, l_slots ll !! j = Some k ∧ has es k f) →
  (∀ cur' d' changed',
    (cur' = cur ∧ d' = d ∧ changed' = changed ∨
     changed' = true ∧ d' < d ∧ cur' ∈ omap (λ j, l_slots ll !! j) js ∧ ∃ f, has es cur' f ∧ d' = away f) →
    (∀ k f, k ∈ omap (λ j, l_slots ll !! j) js → has es k f → d' ≤ away f) → Φ (cur', d', changed') s) →
  wp (scan_closer distance checked dp (where_list (layout s0) i l) js (cur, d, changed)) Φ s.
Proof.
  induction js as [|j js IH]; intros cur d changed s Φ Hh He Hll Hjs HΦ; cbn [scan_closer].
  { apply wp_ret, HΦ; [by left|]. by intros k f Hk%elem_of_nil. }
  destruct (Hjs j) as (k & f & Hk & Hf); [by left|]. apply wp_bind, (wp_slot Hh i e l ll j k); [done|done|done|].
  apply wp_bind, wp_gets. destruct (has_lt s es (ho_rep _ _ _ _ _ Hh) _ _ Hf).
  apply wp_bind, wp_throw_if; [apply andb_false_iff; right; apply Z.ltb_ge; lia|].
  unfold distance_to at 1. apply wp_bind, wp_bind, (wp_vector Hh k f); [done|]. apply wp_ret.
  change (distance dp (e_vector f)) with (away f). cbn in HΦ. rewrite Hk in HΦ.
  assert (∀ m g, m ∈ k :: omap (λ j, l_slots ll !! j) js → has es m g →
    away f = away g ∨ m ∈ omap (λ j, l_slots ll !! j) js) as Hcons.
  { intros m g [->|Hin]%elem_of_cons Hg; [left; by rewrite (has_fun _ _ _ _ Hf Hg)|by right]. }
  destruct (Z.ltb_spec (away f) d) as [Hcl|Hfar].
  - apply (IH k (away f) true s); [done|done|done|intros j' Hj'; apply Hjs; by right|].
    intros cur' d' ch' Hcase Hmin. assert (d' ≤ away f) as Hle by (destruct Hcase as [(_ & -> & _)|(_ & ? & _)]; lia).
    apply HΦ; [right|].
    + destruct Hcase as [(-> & -> & ->)|(-> & ? & Hin & Hex)].
      * split_and!; [done|done|by left|eauto].
      * split_and!; [done|lia|by right|done].
    + intros m g Hm Hg. destruct (Hcons m g Hm Hg) as [<-|Hin]; [done|by apply (Hmin m)].
  - apply (IH cur d changed s); [done|done|done|intros j' Hj'; apply Hjs; by right|].
    intros cur' d' ch' Hcase Hmin. assert (d' ≤ d) as Hle by (destruct Hcase as [(_ & -> & _)|(_ & ? & _)]; lia).
    apply HΦ.
    + destruct Hcase as [?|(? & ? & Hin & Hex)]; [by left|right]. split_and!; [done|done|by right|done].
    + intros m g Hm Hg. destruct (Hcons m g Hm Hg) as [<-|Hin]; [lia|by apply (Hmin m)].
Qed.

(** One round of the walk from [i], with the list and its count read. *)
Lemma wp_round checked i e l ll s (Φ : Z * Z * bool → HierarchicalNSW → Prop) :
  holds s0 es L h s → has es i e → list_at e l = Some ll → (∀ j, j ∈ links e l → ∃ f, has es j f) →
  (∀ cur d, cur ∈ links e l → d < away e → (∃ f, has es cur f ∧ d = away f) → Φ (cur, d, true) s) →
  (local_minimum l i → Φ (i, away e, false) s) →
  wp (scan_closer distance checked dp (where_list (layout s0) i l) (seq 0 (Z.to_nat (l_count ll))) (i, away e, false)) Φ s.
Proof.
  intros Hh He Hll Hlinks Hmove Hstay. pose proof (holds_list_ok Hh _ _ _ _ He Hll) as Hok.
  pose proof (stored_slots _ _ Hok) as Hst. assert (links e l = stored ll) as Hlk by (unfold links; by rewrite Hll).
  destruct Hok as [Hs Hc _ _ _]. apply (wp_scan_closer checked i e l ll); [done|done|done| |].
  - intros j Hj. apply elem_of_seq in Hj as [_ Hj]. destruct (lookup_lt_is_Some_2 (l_slots ll) j) as [k Hk]; [lia|].
    destruct (Hlinks k) as [f Hf]; [|eauto]. rewrite Hlk. apply (list_elem_of_lookup_2 _ j). unfold stored.
    by rewrite lookup_take_lt by lia.
  - rewrite Hst, <- Hlk. intros cur d ch [(-> & -> & ->)|(-> & Hlt & Hin & Hex)] Hmin; [|by apply Hmove].
    apply Hstay. intros f j g Hf Hj Hg. rewrite (has_fun _ _ _ _ Hf He) in *. by apply (Hmin j).
Qed.

End Code.

Section Walk.
Context {s0 : HierarchicalNSW} {L : gset Z} {h : hands}.
Context (l start : Z) (Hl : 0 ≤ l).
Context (Hgraph : ∀ j, reach es l start j → j ∉ L ∧ ∃ e, has es j e ∧ l ≤ e_level e).

Lemma reach_next i e j : reach es l start i → has es i e → j ∈ links e l → reach es l start j.
Proof. intros Hi He Hj. eapply rtc_r; [exact Hi|by exists e]. Qed.

Lemma wp_descend_level fuel checked : ∀ i e s (Φ : Z * Z → HierarchicalNSW → Prop),
  holds s0 es L h s → reach es l start i → has es i e → (∀ f, has es start f → away e ≤ away f) →
  (closer (away e) < fuel)%nat → (∀ i' d' s', walked l start i' d' → holds s0 es L h s' → Φ (i', d') s') →
  wp (descend_level distance fuel checked dp l i (away e)) Φ s.
Proof.
  induction fuel as [|fuel IH]; intros i e s Φ Hh Hi He Hstart Hfuel HΦ; [lia|]. cbn [descend_level].
  destruct (Hgraph i Hi) as (HiL & e' & He' & Hle). rewrite (has_fun _ _ _ _ He' He) in Hle. clear e' He'.
  destruct (list_at_level e l) as [ll Hll]; [lia|]. destruct (holds_layout _ _ _ _ _ Hh) as (_ & Hcap & _).
  destruct (has_lt s es (ho_rep _ _ _ _ _ Hh) _ _ He).
  apply wp_bind, (wp_with_lock Hh); [done|lia|]. intros s1 Hh1.
  apply wp_bind, (wp_list Hh1 i e l ll); [done|done|]. apply wp_bind, (wp_count Hh1 i e l ll); [done|done|].
  pose proof (holds_list_ok Hh1 _ _ _ _ He Hll) as Hok.
  apply (wp_round checked i e l ll _ _ Hh1); [done|done| | |].
  - intros j Hj. destruct (Hgraph j (reach_next i e j Hi He Hj)) as (_ & f & Hf & _). eauto.
  - intros j d Hj Hlt (f & Hf & ->). exists es, h. split; [done|]. intros s2 Hh2.
    apply IH; [done|by eapply reach_next|done| | |done].
    + intros g Hg. specialize (Hstart g Hg). lia.
    + pose proof (closer_lt j f (away e) Hf Hlt). lia.
  - intros Hmin. exists es, h. split; [done|]. intros s2 Hh2. apply wp_ret, HΦ; [|done]. split; [done|eauto|done|done].
Qed.
End Walk.

(** *** Through the levels *)

(** No element has a link to [c] at the level. *)
Definition fresh_at (c l : Z) : Prop := ∀ i e, has es i e → c ∉ links e l.

Lemma reach_graph l start e :
  graph_at l es → has es start e → l ≤ e_level e → ∀ j, reach es l start j → ∃ f, has es j f ∧ l ≤ e_level f.
Proof.
  intros Hg He Hle j Hj. revert e He Hle. refine (rtc_ind_l (λ i, ∀ e, has es i e → l ≤ e_level e → ∃ f, has es j f ∧ l ≤ e_level f) j _ _ start Hj);
    [eauto|].
  intros i k (e & He & Hk) _ IH e' He' Hle. rewrite (has_fun _ _ _ _ He' He) in Hle.
  destruct (Hg i e He Hle) as [_ Hlk]. destruct (Hlk k Hk) as (_ & f & Hf & Hfl). by apply (IH f).
Qed.

Lemma reach_fresh c l start j : fresh_at c l → start ≠ c → reach es l start j → j ≠ c.
Proof.
  intros Hfresh Hne Hj. revert Hne. refine (rtc_ind_l (λ i, i ≠ c → j ≠ c) j _ _ start Hj); [done|].
  intros i k (e & He & Hk) _ IH _. apply IH. intros ->. by apply (Hfresh i e).
Qed.

Lemma levels_down_cons hi lo : lo ≤ hi → levels_down hi lo = hi :: levels_down (hi - 1) lo.
Proof.
  intros Hle. unfold levels_down. replace (Z.to_nat (hi - lo + 1)) with (S (Z.to_nat (hi - 1 - lo + 1))) by lia.
  cbn. f_equal; [lia|]. rewrite <- fmap_S_seq, <- list_fmap_compose. apply list_fmap_ext. intros _ i _. unfold compose. lia.
Qed.

Lemma levels_down_nil hi lo : hi < lo → levels_down hi lo = [].
Proof. intros Hlt. unfold levels_down. by replace (Z.to_nat (hi - lo + 1)) with 0%nat by lia. Qed.

Lemma levels_down_ind (P : Z → Prop) lo :
  P (lo - 1) → (∀ hi, lo ≤ hi → P (hi - 1) → P hi) → ∀ hi, lo - 1 ≤ hi → P hi.
Proof.
  intros H0 HS hi Hhi. replace hi with (lo - 1 + Z.of_nat (Z.to_nat (hi - lo + 1))) by lia.
  generalize (Z.to_nat (hi - lo + 1)). intros n. induction n as [|n IH]; [by rewrite Z.add_0_r|].
  apply HS; [lia|]. by replace (lo - 1 + Z.of_nat (S n) - 1) with (lo - 1 + Z.of_nat n) by lia.
Qed.

Section Levels.
Context {s0 : HierarchicalNSW} {L : gset Z} {h : hands}.
Context (fuel : nat) (Hfuel : (length es < fuel)%nat) (checked : bool).

Lemma wp_descend lo hi i e s (Φ : Z * Z → HierarchicalNSW → Prop) :
  0 ≤ lo → lo - 1 ≤ hi → holds s0 es L h s → has es i e → lo ≤ e_level e → hi ≤ e_level e → i ∉ L →
  (∀ l, lo ≤ l ≤ hi → graph_at l es ∧ ∀ c, c ∈ L → fresh_at c l) →
  (∀ i' e' s', has es i' e' → lo ≤ e_level e' → i' ∉ L → away e' ≤ away e → holds s0 es L h s' → Φ (i', away e') s') →
  wp (descend distance fuel checked dp (levels_down hi lo) i (away e)) Φ s.
Proof.
  intros Hlo Hhi. revert i e s. pattern hi. apply (levels_down_ind _ lo); [| |done]; clear hi Hhi.
  { intros i e s Hh He Hle _ HiL _ HΦ. rewrite levels_down_nil by lia. by apply wp_ret, HΦ. }
  intros hi Hle IH i e s Hh He Hlo' Hhi HiL Hg HΦ. rewrite levels_down_cons by done. cbn [descend].
  destruct (Hg hi) as [Hgh Hfresh]; [lia|].
  assert (∀ j, reach es hi i j → j ∉ L ∧ ∃ f, has es j f ∧ hi ≤ e_level f) as Hgraph.
  { intros j Hj. split; [|by eapply reach_graph]. intros HjL.
    by apply (reach_fresh j hi i j (Hfresh j HjL)); [congruence| |]. }
  apply wp_bind, (wp_descend_level hi i ltac:(lia) Hgraph fuel checked i e s _ Hh); [apply rtc_refl|done| | |].
  - intros f Hf. by rewrite (has_fun _ _ _ _ He Hf).
  - pose proof (closer_le (away e)). lia.
  - intros i' d' s1 [Hreach (e' & He' & Hle' & ->) Hstart _] Hh1.
    apply IH; [done|done|lia|lia| |intros l Hl; apply Hg; lia|].
    + intros Hi'. apply (reach_fresh i' hi i i' (Hfresh i' Hi')); [congruence|done|done].
    + intros i'' e'' s2 He'' Hlo'' Hi'' Haway Hh2. apply HΦ; try done. specialize (Hstart e He). lia.
Qed.
End Levels.
End Descent.
