(* ===== verification/HnswIndex.v ===== *)
(** The invariant of the graph index between two calls, and that a new index has it. *)

From S2P Require Import Prelude Bytes Memory CxxLib NearestQueue MaxQueue VisitedList Wp Hnsw HnswRep HnswSearch HnswHeuristic HnswGraph HnswDescent.

(** ** What joining elements keeps *)
Record same_shape (e e' : element) : Prop := {
  sh_vector : e_vector e' = e_vector e;
  sh_label : e_label e' = e_label e;
  sh_level : e_level e' = e_level e;
  sh_mark : deleted e' = deleted e;
}.

#[export] Instance same_shape_preorder : PreOrder same_shape.
Proof. split; [by split|]. intros e1 e2 e3 [] []. split; congruence. Qed.

Definition shapes : list element → list element → Prop := Forall2 same_shape.

#[export] Instance shapes_preorder : PreOrder shapes.
Proof. unfold shapes. apply _. Qed.

Lemma evolves_shapes l es es' : evolves l es es' → shapes es es'.
Proof.
  intros Hev. eapply Forall2_impl; [exact Hev|]. intros e e' [H1 H2 H3 H4 _]. split; try done. unfold e_level. by rewrite H3.
Qed.

Lemma shapes_has es es' i e : shapes es es' → has es i e → ∃ e', has es' i e' ∧ same_shape e e'.
Proof. intros Hs [Hi He]. destruct (Forall2_lookup_l _ _ _ _ _ Hs He) as (e' & ? & ?). by exists e'. Qed.

Lemma shapes_has_r es es' i e' : shapes es es' → has es' i e' → ∃ e, has es i e ∧ same_shape e e'.
Proof. intros Hs [Hi He]. destruct (Forall2_lookup_r _ _ _ _ _ Hs He) as (e & ? & ?). by exists e. Qed.

Definition graph_ok (es : list element) : Prop := ∀ l, 0 ≤ l → graph_at l es.

Lemma evolves_links l l' es es' i e e' : evolves l es es' → l' ≠ l → has es i e → has es' i e' → links e' l' = links e l'.
Proof.
  intros Hev Hne He He'. destruct (evolves_has _ _ _ _ _ Hev He) as (f & Hf & [_ _ _ _ Hl]).
  rewrite <- (has_fun _ _ _ _ He' Hf) in Hl. unfold links. by rewrite Hl.
Qed.

Lemma evolves_graph l l' es es' : evolves l es es' → l' ≠ l → graph_at l' es → graph_at l' es'.
Proof.
  intros Hev Hne Hg i e' He' Hle. destruct (evolves_has_r _ _ _ _ _ Hev He') as (e & He & [_ _ Hlev _ _]).
  rewrite (evolves_links _ _ _ _ _ _ _ Hev Hne He He'). destruct (Hg i e He) as [Hnd Hl]; [unfold e_level in *; lia|].
  split; [done|]. intros j Hj. destruct (Hl j Hj) as (? & f & Hf & Hfl). split; [done|].
  destruct (evolves_has _ _ _ _ _ Hev Hf) as (f' & Hf' & [_ _ Hlev' _ _]). exists f'. split; [done|]. unfold e_level in *. lia.
Qed.

Lemma evolves_fresh l l' c es es' : evolves l es es' → l' ≠ l → fresh_at es c l' → fresh_at es' c l'.
Proof.
  intros Hev Hne Hf i e' He'. destruct (evolves_has_r _ _ _ _ _ Hev He') as (e & He & _).
  rewrite (evolves_links _ _ _ _ _ _ _ Hev Hne He He'). by apply (Hf i e).
Qed.

(** ** The invariant *)
Definition marked (es : list element) : list element := filter (λ e, deleted e = true) es.

(** [entry_id_] when there is no element. *)
Definition no_entry : Z := 2 ^ 32 - 1.

(** The entry is an element of the highest level. *)
Definition entry_ok (es : list element) (entry_id max_level : Z) : Prop :=
  match es with
  | [] => entry_id = no_entry ∧ max_level = -1
  | _ => (∃ e, has es entry_id e ∧ e_level e = max_level) ∧ ∀ i e, has es i e → e_level e ≤ max_level
  end.

Record index_ok (s : HierarchicalNSW) (es : list element) : Prop := {
  ix_rep : rep s es;
  ix_graph : graph_ok es;
  ix_locks : link_locks_ s = ∅;
  ix_pool : pool_rep (Z.to_nat (capacity_ s)) (visited_pool_ s) ∅;
  ix_labels : ∀ a i, label_map_ s !! a = Some i ↔ ∃ e, has es i e ∧ e_label e = a;
  ix_entry : entry_ok es (entry_id_ s) (max_level_ s);
  ix_deleted : deleted_count_ s = Z.of_nat (length (marked es));
  ix_reuse : ∀ i, i ∈ deleted_elements_ s ↔ reuse_deleted_ s = true ∧ ∃ e, has es i e ∧ deleted e = true;
}.

(** Labels are distinct. *)
Lemma label_once s es i j e e' : index_ok s es → has es i e → has es j e' → e_label e = e_label e' → i = j.
Proof.
  intros Hix Hi Hj Hl. assert (label_map_ s !! e_label e = Some i) as H1 by (apply (ix_labels _ _ Hix); eauto).
  assert (label_map_ s !! e_label e = Some j) as H2 by (apply (ix_labels _ _ Hix); eauto). congruence.
Qed.

Lemma entry_ok_has es entry_id max_level :
  es ≠ [] → entry_ok es entry_id max_level →
  (∃ e, has es entry_id e ∧ e_level e = max_level) ∧ ∀ i e, has es i e → e_level e ≤ max_level.
Proof. by destruct es. Qed.

(** The vector does not matter to the rest of the index. *)
Record same_role (e e' : element) : Prop := {
  sr_label : e_label e' = e_label e;
  sr_level : e_level e' = e_level e;
  sr_mark : deleted e' = deleted e;
}.

Definition roles : list element → list element → Prop := Forall2 same_role.

#[export] Instance roles_preorder : PreOrder roles.
Proof.
  unfold roles. assert (PreOrder same_role); [|apply _]. split; [by split|]. intros e1 e2 e3 [] []. split; congruence.
Qed.

Lemma shapes_roles es es' : shapes es es' → roles es es'.
Proof. intros Hs. eapply Forall2_impl; [exact Hs|]. by intros e e' []. Qed.

Lemma roles_has es es' i e : roles es es' → has es i e → ∃ e', has es' i e' ∧ same_role e e'.
Proof. intros Hs [Hi He]. destruct (Forall2_lookup_l _ _ _ _ _ Hs He) as (e' & ? & ?). by exists e'. Qed.

Lemma roles_has_r es es' i e' : roles es es' → has es' i e' → ∃ e, has es i e ∧ same_role e e'.
Proof. intros Hs [Hi He]. destruct (Forall2_lookup_r _ _ _ _ _ Hs He) as (e & ? & ?). by exists e. Qed.

Lemma entry_ok_roles es es' entry_id max_level : roles es es' → entry_ok es entry_id max_level → entry_ok es' entry_id max_level.
Proof.
  intros Hs. destruct es as [|e0 es0]; [by apply Forall2_nil_inv_l in Hs as ->|].
  destruct es' as [|e0' es0']; [by apply Forall2_nil_inv_r in Hs|]. intros [(e & He & Hl) Hmax]. split.
  - destruct (roles_has _ _ _ _ Hs He) as (e' & He' & [_ Hlev _]). exists e'. split; [done|congruence].
  - intros i f Hf. destruct (roles_has_r _ _ _ _ Hs Hf) as (g & Hg & [_ -> _]). by apply (Hmax i).
Qed.

Lemma marked_roles es es' : roles es es' → length (marked es') = length (marked es).
Proof.
  unfold marked. induction 1 as [|e e' es es' [_ _ Hm] _ IH]; [done|]. rewrite !filter_cons, Hm.
  case_decide; cbn; lia.
Qed.

Lemma marked_snoc es e : deleted e = false → marked (es ++ [e]) = marked es.
Proof. intros He. unfold marked. rewrite filter_app, filter_cons, He. cbn. by rewrite app_nil_r. Qed.

Lemma labels_roles es es' (m : gmap Z Z) :
  roles es es' → (∀ a i, m !! a = Some i ↔ ∃ e, has es i e ∧ e_label e = a) →
  ∀ a i, m !! a = Some i ↔ ∃ e, has es' i e ∧ e_label e = a.
Proof.
  intros Hs Hm a i. rewrite Hm. split; intros (e & He & Hl).
  - destruct (roles_has _ _ _ _ Hs He) as (e' & ? & [Hlab _ _]). exists e'. split; [done|congruence].
  - destruct (roles_has_r _ _ _ _ Hs He) as (e' & ? & [Hlab _ _]). exists e'. split; [done|congruence].
Qed.

Lemma reuse_roles es es' (d : gset Z) (b : bool) :
  roles es es' → (∀ i, i ∈ d ↔ b = true ∧ ∃ e, has es i e ∧ deleted e = true) →
  ∀ i, i ∈ d ↔ b = true ∧ ∃ e, has es' i e ∧ deleted e = true.
Proof.
  intros Hs Hd i. rewrite Hd. split; intros [Hb (e & He & Hl)]; (split; [done|]).
  - destruct (roles_has _ _ _ _ Hs He) as (e' & ? & [_ _ Hmk]). exists e'. split; [done|congruence].
  - destruct (roles_has_r _ _ _ _ Hs He) as (e' & ? & [_ _ Hmk]). exists e'. split; [done|congruence].
Qed.

(** A computation that only changes the links and vectors. *)
Lemma index_ok_roles s es es' s' :
  index_ok s es → roles es es' → graph_ok es' → holds s es' ∅ ∅ s' → index_ok s' es'.
Proof.
  intros [H1 H2 H3 H4 H5 H6 H7 H8] Hs Hg [Hf Hrep Hlk Hp]. rewrite Hf in *. split; try done; cbn.
  - by eapply labels_roles.
  - by eapply entry_ok_roles.
  - by rewrite (marked_roles es es').
  - by eapply reuse_roles.
Qed.

(** ** A new index *)
Section New.
Context (uninit : loc → nat → Z) (uninit_range : ∀ a i, 0 ≤ uninit a i < 2 ^ 16).
Context (malloc : Z → option memory) (Hmalloc : malloc_ok malloc).

Lemma layout_new_ok M data_size cap :
  1 ≤ M → 0 ≤ data_size → 0 ≤ cap < 2 ^ 32 - 1 → data_size < 2 ^ 63 →
  cap * (8 * Z.min M 10000 + 4 + data_size + 8) < 2 ^ 64 → layout_ok (layout_new M data_size) cap.
Proof.
  intros HM Hd Hcap Hd' Htotal. unfold layout_new. set (m := if M <=? 10000 then M else 10000).
  assert (m = Z.min M 10000) as Hm by (unfold m; destruct (Z.leb_spec M 10000); lia). rewrite <- Hm in Htotal.
  cbn zeta. unfold size_add, size_mul. rewrite (wrapu_small 64 (2 * m)), (wrapu_small 64 (2 * m * 4)),
    (wrapu_small 64 (2 * m * 4 + 4)), (wrapu_small 64 (2 * m * 4 + 4 + data_size)), (wrapu_small 64 (2 * m * 4 + 4 + data_size + 8)),
    (wrapu_small 64 (m * 4)), (wrapu_small 64 (m * 4 + 4)) by lia.
  split; cbn; lia.
Qed.

(** The constructor makes an empty index, when there is memory for it. *)
Lemma hnsw_new_index {LP : LockPolicy} data_size capacity M efConstruction reuse level0 pointers :
  1 ≤ M → 0 ≤ data_size < 2 ^ 63 → 0 ≤ capacity < 2 ^ 32 - 1 →
  let stride := 8 * Z.min M 10000 + 4 + data_size + 8 in
  capacity * stride < 2 ^ 64 → malloc (capacity * stride) = Some level0 → malloc (8 * capacity) = Some pointers →
  ∃ s, hnsw_new uninit malloc data_size capacity M efConstruction reuse = Done s tt ∧
    index_ok s [] ∧ layout s = layout_new M data_size ∧ capacity_ s = capacity ∧ reuse_deleted_ s = reuse.
Proof.
  intros HM Hd Hcap stride Htotal Hm0 Hm8.
  assert (layout_ok (layout_new M data_size) capacity) as Hl by (apply layout_new_ok; unfold stride in *; lia).
  assert (element_stride_ (layout_new M data_size) = stride) as Hstride.
  { rewrite (lo_stride _ _ Hl), (lo_label _ _ Hl), (lo_data _ _ Hl), (lo_stride0 _ _ Hl). unfold layout_new, stride. cbn.
    unfold size_mul. destruct (Z.leb_spec M 10000); rewrite wrapu_small; lia. }
  assert (0 ≤ capacity * stride) as Hpos by (apply Z.mul_nonneg_nonneg; unfold stride; lia).
  unfold hnsw_new. rewrite Hstride. unfold size_mul. rewrite !wrapu_small by lia. rewrite Hm0.
  destruct (pool_new_run uninit uninit_range 1 (Z.to_nat capacity)) as (p & Hp & Hrep); [lia|].
  rewrite Z2Nat.id in Hp by lia. rewrite Hp, Hm8. eexists. split; [done|]. split; [|done]. split; try done.
  - pose proof (Hmalloc _ _ Hpos Hm0) as Hlen.
    split; cbn; rewrite ?length_replicate; try done; try lia. rewrite Hlen, <- Hstride. done.
  - by intros l _ i e [_ He].
  - intros a i. cbn [label_map_]. rewrite lookup_empty. split; [done|]. by intros (e & [_ He] & _).
  - intros i. split; [by intros ?%elem_of_empty|]. by intros [_ (e & [_ He] & _)].
Qed.
End New.
