(* ===== verification/HnswInsert.v ===== *)
(** Adding an element with a new label: [addPoint] of src/hnsw/hnsw_scratch/hnsw_core.hpp.

    The element's memory is cleared and filled, then the element is joined to the graph
    level by level, from the top, each time to what a search from the last join found. *)

From S2P Require Import Prelude Bytes Memory CxxLib NearestQueue MaxQueue VisitedList Wp Hnsw HnswRep HnswSearch HnswHeuristic HnswGraph HnswDescent HnswIndex.

(** ** The memory of a new element *)
Definition blank_list (max : Z) : linklist := mkLinks 0 0 0 (replicate (Z.to_nat max) 0).
Definition new_element (l : Layout) (dp : list byte) (label level : Z) : element :=
  mkElem (blank_list (max_M0_ l)) (take (Z.to_nat (data_size_ l)) dp) label (replicate (Z.to_nat level) (blank_list (max_M_ l))).

Lemma blank_links_ok max : 0 ≤ max → links_ok max (blank_list max).
Proof.
  intros Hmax. split; cbn; [rewrite length_replicate; lia|lia|lia|lia|]. apply Forall_replicate. lia.
Qed.

Lemma concat_zeros {A} (x : A) n k : concat (replicate n (replicate k x)) = replicate (n * k) x.
Proof. induction n as [|n IH]; cbn; [done|]. by rewrite IH, replicate_add. Qed.

Lemma enc_blank max : 0 ≤ max → enc_links (blank_list max) = replicate (Z.to_nat (4 * max + 4)) Byte.x00.
Proof.
  intros Hmax. unfold enc_links, blank_list. cbn [l_count l_mark l_pad l_slots]. rewrite fmap_replicate.
  change (le_bytes 4 0) with (replicate 4 Byte.x00). rewrite concat_zeros.
  replace (Z.to_nat (4 * max + 4)) with (4 + Z.to_nat max * 4)%nat by lia. by rewrite replicate_add.
Qed.

Lemma new_element_ok l cap dp label level :
  layout_ok l cap → data_size_ l ≤ Z.of_nat (length dp) → 0 ≤ label < 2 ^ 64 → 0 ≤ level < 2 ^ 31 →
  elem_ok l (new_element l dp label level) ∧ e_level (new_element l dp label level) = level.
Proof.
  intros [] Hdp Hlab Hlev.
  assert (e_level (new_element l dp label level) = level) as Hl by (unfold e_level; cbn; rewrite length_replicate; lia).
  split; [|done]. split; [apply blank_links_ok; lia| | |done|lia].
  - cbn. apply Forall_replicate, blank_links_ok. lia.
  - cbn. rewrite length_take. lia.
Qed.

(** There is always something to read. *)
Lemma reads_any pos n mem : 0 ≤ pos → pos + Z.of_nat n ≤ Z.of_nat (length mem) → ∃ bs, length bs = n ∧ reads mem pos bs.
Proof.
  intros H1 H2. destruct (read_mem (Z.of_nat n) pos mem) as [bs|] eqn:E.
  - apply read_mem_reads in E as [Hn Hr]. exists bs. split; [lia|done].
  - unfold read_mem in E. case_decide; [done|lia].
Qed.

(** A region is cleared, and then its end and its middle are written. *)
Lemma fill_region a b c v w mem pos :
  0 ≤ pos → pos + Z.of_nat (length (a ++ b ++ c)) ≤ Z.of_nat (length mem) → length v = length b → length w = length c →
  ∃ d1 d2 d3, write_mem pos (a ++ b ++ c) mem = Some d1 ∧ write_mem (pos + Z.of_nat (length (a ++ b))) w d1 = Some d2 ∧
    write_mem (pos + Z.of_nat (length a)) v d2 = Some d3 ∧ length d3 = length mem ∧ reads d3 pos (a ++ v ++ w) ∧
    ∀ q x, (q + Z.of_nat (length x) ≤ pos ∨ pos + Z.of_nat (length (a ++ b ++ c)) ≤ q) → reads mem q x → reads d3 q x.
Proof.
  intros Hpos Hend Hv Hw. destruct (reads_any pos _ mem Hpos Hend) as (old & Hold & Hr).
  assert (reads mem pos ([] ++ old ++ [])) as Hr0 by by rewrite app_nil_r.
  destruct (write_inside pos [] old [] (a ++ b ++ c) mem Hr0) as (d1 & Hw1 & Hl1 & Hr1 & Hk1); [done|].
  cbn [app length] in *. rewrite Z.add_0_r in Hw1. rewrite app_nil_r in *. rewrite app_assoc, <- (app_nil_r c) in Hr1.
  destruct (write_inside pos (a ++ b) c [] w d1 Hr1 Hw) as (d2 & Hw2 & Hl2 & Hr2 & Hk2). rewrite app_nil_r, <- app_assoc in *.
  destruct (write_inside pos a b w v d2 Hr2 Hv) as (d3 & Hw3 & Hl3 & Hr3 & Hk3).
  exists d1, d2, d3. split_and!; try done; [congruence|]. intros q x Hq Hx.
  apply Hk3; [rewrite !length_app, Hw in *; lia|]. apply Hk2; [rewrite !length_app in *; lia|]. apply Hk1; [|done]. by rewrite Hold.
Qed.

Lemma store_level0_run s off bs d :
  write_mem off bs (level0_data_ s) = Some d → store (Level0 off) bs s = Done tt (set_level0_data d s).
Proof. intros Hw. unfold store. by rewrite Hw. Qed.

Section Place.
Context (malloc : Z → option memory) (dp : list byte) (label cl : Z).
Context (Hlabel : 0 ≤ label < 2 ^ 64) (Hcl : 0 ≤ cl < 2 ^ 31).

(** What holds of the elements but for the number of them. *)
Definition elems_in (s : HierarchicalNSW) (es : list element) : Prop :=
  ∀ i e, es !! i = Some e → elem_ok (layout s) e ∧ elem_mem s i e.

Record room (s : HierarchicalNSW) (es : list element) : Prop := {
  rm_layout : layout_ok (layout s) (capacity_ s);
  rm_cap : Z.of_nat (length es) ≤ capacity_ s;
  rm_level0 : Z.of_nat (length (level0_data_ s)) = capacity_ s * element_stride_ (layout s);
  rm_blocks : Z.of_nat (length (link_blocks_ s)) = capacity_ s;
  rm_levels : Z.of_nat (length (element_levels_ s)) = capacity_ s;
  rm_elems : elems_in s es;
}.

Lemma rep_room s es : rep s es ↔ room s es ∧ element_count_ s = Z.of_nat (length es).
Proof. split; [intros []; by split|intros [[] ?]; by split]. Qed.

(** The part of [place_element] before the link block. *)
Lemma wp_place_level0 s es (k : MH unit) (Φ : unit → HierarchicalNSW → Prop) :
  room s es → Z.of_nat (length es) < capacity_ s → data_size_ (layout s) ≤ Z.of_nat (length dp) →
  let new := new_element (layout s) dp label cl in
  (∀ d, length d = length (level0_data_ s) → elems_in (set_level0_data d s) es →
    reads d (Z.of_nat (length es) * element_stride_ (layout s)) (enc_elem new) → wp k Φ (set_level0_data d s)) →
  wp (p ← get_neighbors_L0 (Z.of_nat (length es));
      stride ← conf element_stride_;
      store p (replicate (Z.to_nat stride) Byte.x00) ;;
      setExternalLabel (Z.of_nat (length es)) label ;;
      copy_vector (Z.of_nat (length es)) dp ;; k) Φ s.
Proof.
  intros [Hl Hcap Hlen0 Hblk Hlev Hes] Hroom Hdp new HΦ. set (n := Z.of_nat (length es)) in *. set (lay := layout s) in *.
  pose proof (new_element_ok lay _ dp label cl Hl Hdp Hlabel Hcl) as [Hnew _]. fold new in Hnew.
  pose proof (length_enc_elem _ _ _ Hl Hnew) as Hsize. pose proof (layout_pos _ _ Hl) as Hpos.
  destruct (address_bound lay _ n 0 Hl ltac:(lia) ltac:(lia)) as (Hb1 & _ & Hb2).
  set (zl := enc_links (blank_list (max_M0_ lay))). set (zv := replicate (Z.to_nat (data_size_ lay)) Byte.x00).
  set (vec := take (Z.to_nat (data_size_ lay)) dp).
  assert (Z.of_nat (length zl) = 4 * max_M0_ lay + 4) as Hzl by (apply length_enc_links, blank_links_ok; destruct Hl; lia).
  assert (length vec = length zv) as Hvec by (unfold vec, zv; rewrite length_take, length_replicate; lia).
  assert (replicate (Z.to_nat (element_stride_ lay)) Byte.x00 = zl ++ zv ++ replicate 8 Byte.x00) as Hzero.
  { unfold zl, zv. rewrite enc_blank by (destruct Hl; lia). rewrite <- !replicate_add. f_equal. destruct Hl. lia. }
  assert (Z.of_nat (length (zl ++ zv ++ replicate 8 Byte.x00)) = element_stride_ lay) as Htotal.
  { rewrite <- Hzero, length_replicate. lia. }
  destruct (fill_region zl zv (replicate 8 Byte.x00) vec (le_bytes 8 label) (level0_data_ s) (n * element_stride_ lay))
    as (d1 & d2 & d3 & Hw1 & Hw2 & Hw3 & Hd3 & Hr & Hkeep); [done|lia|done|done|]. rewrite Htotal in Hkeep.
  assert (∀ off t, 0 ≤ off lay ≤ element_stride_ lay → layout t = lay → element_at n off t = Done (Level0 (n * element_stride_ lay + off lay)) t) as Hat.
  { intros off t Hoff Ht. rewrite <- Ht. apply (element_at_run t (capacity_ s)); [by rewrite Ht|lia|by rewrite Ht]. }
  assert (link0_offset_ lay = 0 ∧ label_offset_ lay = Z.of_nat (length (zl ++ zv)) ∧ data_offset_ lay = Z.of_nat (length zl)) as (Ho1 & Ho2 & Ho3).
  { rewrite length_app, Nat2Z.inj_add, Hzl. unfold zv. rewrite length_replicate. destruct Hl. lia. }
  assert (Z.of_nat (length (zl ++ zv)) ≤ element_stride_ lay ∧ Z.of_nat (length zl) ≤ element_stride_ lay) as [Hle1 Hle2].
  { rewrite <- Htotal, !length_app. lia. }
  unfold get_neighbors_L0, setExternalLabel, copy_vector, getDataByInternalId. apply wp_bind.
  eapply wp_run; [apply Hat; [lia|done]|]. apply wp_bind, wp_conf. fold lay. rewrite Ho1, Z.add_0_r, Hzero.
  apply wp_bind. eapply wp_run; [apply store_level0_run, Hw1|]. do 2 apply wp_bind.
  eapply wp_run; [apply Hat; [lia|done]|]. rewrite Ho2. eapply wp_run; [apply store_level0_run, Hw2|].
  do 2 apply wp_bind. apply wp_conf. change (data_size_ (layout _)) with (data_size_ lay).
  replace (read_mem (data_size_ lay) 0 dp) with (Some vec) by (unfold read_mem; rewrite decide_True by (destruct Hl; lia); done).
  apply wp_bind. eapply wp_run; [apply Hat; [lia|done]|]. rewrite Ho3. eapply wp_run; [apply store_level0_run, Hw3|].
  apply HΦ; [done| |done]. intros i e Hi. destruct (Hes i e Hi) as [He [Hm1 Hm2 Hm3]]. split; [done|]. split; [|done|done].
  apply Hkeep; [|done]. left. rewrite (length_enc_elem _ _ _ Hl He). apply lookup_lt_Some in Hi. apply stride_apart; cbn; lia.
Qed.
Lemma reads_prefix x y : reads (x ++ y) 0 x.
Proof. unfold reads. rewrite length_app. split_and!; [lia|lia|]. intros k Hk. by rewrite lookup_app_l. Qed.

(** One more element. *)
Lemma room_snoc s es new :
  room s es → Z.of_nat (length es) < capacity_ s → elem_ok (layout s) new → elem_mem s (length es) new → room s (es ++ [new]).
Proof.
  intros [H1 H2 H3 H4 H5 H6] Hroom Hok Hmem. split; try done; [rewrite length_app; cbn; lia|].
  intros i e [Hi|[Hi He]]%lookup_app_Some; [by apply H6|]. apply list_lookup_singleton_Some in He as [Hi' <-].
  by replace i with (length es) by lia.
Qed.

Lemma room_level0 s es d : room s es → length d = length (level0_data_ s) → elems_in (set_level0_data d s) es → room (set_level0_data d s) es.
Proof. intros [] Hd Hes. split; try done. cbn. by rewrite Hd. Qed.

Lemma wp_make_block s es new (Φ : unit → HierarchicalNSW → Prop) :
  room s es → Z.of_nat (length es) < capacity_ s → new = new_element (layout s) dp label cl → cl ≠ 0 →
  data_size_ (layout s) ≤ Z.of_nat (length dp) →
  reads (level0_data_ s) (Z.of_nat (length es) * element_stride_ (layout s)) (enc_elem new) →
  element_levels_ s !! length es = Some cl → is_Some (malloc (link_stride_ (layout s) * cl + 1)) →
  (∀ bl, room (set_link_blocks bl s) (es ++ [new]) → Φ tt (set_link_blocks bl s)) →
  wp (make_block malloc (Z.of_nat (length es)) cl) Φ s.
Proof.
  intros Hrm Hroom -> Hcl0 Hdp Hr Hlev [block Hblock] HΦ. pose proof Hrm as [Hl _ _ Hblk _ Hes].
  destruct (new_element_ok _ _ dp label cl Hl Hdp Hlabel Hcl) as [Hnew Hlevel].
  unfold make_block. apply wp_bind, wp_gets. apply wp_bind, wp_gets.
  assert (size_add (size_mul (link_stride_ (layout s)) cl) 1 = link_stride_ (layout s) * cl + 1) as ->.
  { unfold size_add, size_mul. rewrite (wrapu_small 64 (_ * cl)), wrapu_small by (destruct Hl; nia). done. }
  rewrite Hblock. unfold set_at. rewrite decide_True by lia. apply wp_modify, HΦ. rewrite Nat2Z.id.
  apply room_snoc; [|done|done|].
  - destruct Hrm. split; try done; cbn; [by rewrite length_insert|]. intros i e Hi. destruct (Hes i e Hi) as [He [Hm1 Hm2 Hm3]].
    split; [done|]. split; [done| |done]. cbn. apply lookup_lt_Some in Hi. by rewrite list_lookup_insert_ne by lia.
  - split; cbn [level0_data_ set_link_blocks link_blocks_ layout element_levels_]; [done| |by rewrite Hlev, Hlevel].
    intros _. eexists. rewrite list_lookup_insert_eq by lia. split; [done|]. unfold enc_upper, new_element. cbn [e_upper].
    rewrite fmap_replicate, enc_blank, concat_zeros by (destruct Hl; lia). rewrite <- (lo_link _ _ Hl).
    replace (Z.to_nat (link_stride_ (layout s) * cl + 1)) with (Z.to_nat cl * Z.to_nat (link_stride_ (layout s)) + 1)%nat
      by (destruct Hl; nia).
    rewrite replicate_add. apply reads_prefix.
Qed.

Lemma wp_place_element s es (Φ : unit → HierarchicalNSW → Prop) :
  room s es → Z.of_nat (length es) < capacity_ s → data_size_ (layout s) ≤ Z.of_nat (length dp) →
  element_levels_ s !! length es = Some cl → (cl ≠ 0 → is_Some (malloc (link_stride_ (layout s) * cl + 1))) →
  (∀ s', room s' (es ++ [new_element (layout s) dp label cl]) → frame s s' → link_locks_ s' = link_locks_ s →
    visited_pool_ s' = visited_pool_ s → Φ tt s') →
  wp (place_element malloc dp label (Z.of_nat (length es)) cl) Φ s.
Proof.
  intros Hrm Hroom Hdp Hlev Hmem HΦ. unfold place_element. apply wp_place_level0; [done|done|done|].
  intros d Hd Hes Hr. pose proof (room_level0 _ _ _ Hrm Hd Hes) as Hrm'.
  destruct (new_element_ok _ _ dp label cl (rm_layout _ _ Hrm) Hdp Hlabel Hcl) as [Hnew Hlevel].
  destruct (Z.eqb_spec cl 0) as [Hz|Hnz].
  - apply wp_ret, HΦ; [|by destruct s|done|done]. apply room_snoc; [done|done|done|].
    split; cbn [level0_data_ set_level0_data element_levels_]; [done| |by rewrite Hlev, Hlevel]. unfold new_element. cbn [e_upper].
    by rewrite Hz.
  - apply (wp_make_block _ es (new_element (layout s) dp label cl)); try done; [by apply Hmem|].
    intros bl Hrm2. apply HΦ; [done|by destruct s|done|done].
Qed.
End Place.

(** ** Joining the new element to the graph *)
Section Join.
Context {LP : LockPolicy} {Q : Type} `{MaxQueueLaws Q}.
Context (uninit : loc → nat → Z) (uninit_range : ∀ a i, 0 ≤ uninit a i < 2 ^ 16).
Context (distance : list byte → list byte → Z) (dist_max : Z) (fuel : nat) (dp : list byte).
Context {s0 : HierarchicalNSW} (c ep mx : Z).
Implicit Types (es : list element) (s : HierarchicalNSW).
Abbreviation ef := (efConstruction_ (layout s0)).

(** The element [c] at the levels up to [l] is as it was made. *)
Definition blank_at es (l : Z) : Prop :=
  ∀ e ll, has es c e → list_at e l = Some ll → links_ok (max_at (layout s0) l) ll →
    l_count ll = 0 ∧ l_mark ll = 0 ∧ l_pad ll = 0 ∧ Forall (λ z, z = 0) (l_slots ll).

Lemma evolves_blank l l' es es' : evolves l es es' → l' ≠ l → blank_at es l' → blank_at es' l'.
Proof.
  intros Hev Hne Hb e' ll He' Hll Hok. destruct (evolves_has_r _ _ _ _ _ Hev He') as (e & He & [_ _ _ _ Hl]).
  apply (Hb e ll); [done|by rewrite <- Hl|done].
Qed.

(** Either nothing is marked deleted, or the entry is and there is room for it. *)
Definition findable es : Prop :=
  (∀ i e, has es i e → deleted e = false) ∨ (0 < ef ∧ ∃ e, has es ep e ∧ deleted e = true).

Lemma findable_shapes es es' : shapes es es' → findable es → findable es'.
Proof.
  intros Hs [Hall|[Hef (e & He & Hd)]]; [left|right].
  - intros i e' He'. destruct (shapes_has_r _ _ _ _ Hs He') as (e & He & [_ _ _ ->]). by apply (Hall i).
  - split; [done|]. destruct (shapes_has _ _ _ _ Hs He) as (e' & He' & [_ _ _ Hm]). exists e'. split; [done|congruence].
Qed.

(** The candidates: what the search found, and the entry if it is marked deleted. *)
Definition with_entry (d : Z) (Top_K : Q) : Q :=
  let t := q_emplace (d, ep) Top_K in if ef <? Z.of_nat (q_size t) then q_pop t else t.

Lemma with_entry_spec d Top_K :
  0 < ef → Z.of_nat (q_size Top_K) ≤ Z.max 1 ef →
  q_elems (with_entry d Top_K) ≠ [] ∧ q_elems (with_entry d Top_K) ⊆+ (d, ep) :: q_elems Top_K.
Proof.
  intros Hef Hsize. unfold with_entry. pose proof (size_emplace (d, ep) Top_K) as Hs.
  assert (∀ q, (0 < q_size q)%nat → q_elems q ≠ []) as Hne.
  { intros q Hq Hnil. unfold q_size in Hq. rewrite Hnil in Hq. cbn in Hq. lia. }
  destruct (Z.ltb_spec ef (Z.of_nat (q_size (q_emplace (d, ep) Top_K)))).
  - destruct (top_is_Some (q_emplace (d, ep) Top_K)) as [x Hx]; [lia|]. pose proof (top_size _ _ Hx).
    split; [apply Hne; lia|]. destruct (top_Some _ _ Hx) as [Hp _].
    rewrite <- elems_emplace, Hp. apply submseteq_cons. reflexivity.
  - split; [apply Hne; lia|]. rewrite elems_emplace. reflexivity.
Qed.

(** What the loop over the levels has reached at the level [l]. *)
Record joining (l : Z) es (obj : Z) s : Prop := {
  jo_holds : holds s0 es {[c]} ∅ s;
  jo_graph : graph_ok es;
  jo_new : ∃ e, has es c e ∧ l ≤ e_level e;
  jo_blank : ∀ l', 0 ≤ l' ≤ l → blank_at es l' ∧ fresh_at es c l';
  jo_obj : obj ≠ c ∧ ∃ e, has es obj e ∧ l ≤ e_level e;
  jo_entry : ep ≠ c ∧ ∃ e, has es ep e ∧ l ≤ e_level e;
  jo_find : findable es;
}.

(** The candidates at a level. *)
Lemma wp_candidates l es obj s (del : bool) (Φ : Q → HierarchicalNSW → Prop) :
  0 ≤ l → joining l es obj s → (∃ e, has es ep e ∧ deleted e = del) → (length es < fuel)%nat → 0 ≤ ef →
  (∀ Top s', q_elems Top ≠ [] → NoDup (snd <$> q_elems Top) →
    (∀ x, x ∈ q_elems Top → x.2 ≠ c ∧ ∃ e, has es x.2 e ∧ l ≤ e_level e) → joining l es obj s' → Φ Top s') →
  wp (Top_K ← searchBaseLayer uninit distance dist_max fuel obj dp l;
      if del then
        d ← distance_to distance dp ep;
        ef' ← conf efConstruction_;
        let t := q_emplace (d, ep) Top_K in
        mret (if ef' <? Z.of_nat (q_size t) then q_pop t else t)
      else mret Top_K) Φ s.
Proof.
  intros Hl [Hh Hg Hnew Hblank [Hobj (eo & Heo & Hlo)] [Hep (ee & Hee & Hle)] Hfind] Hdel Hfuel Hef HΦ.
  destruct Hdel as (ee' & Hee' & <-). rewrite (has_fun _ _ _ _ Hee' Hee). clear ee' Hee'.
  destruct (Hblank l) as [_ Hfresh]; [lia|].
  assert (∀ j, reach es l obj j → j ≠ c ∧ ∃ f, has es j f ∧ l ≤ e_level f) as Hreach.
  { intros j Hj. split; [exact (reach_fresh es c l obj j Hfresh Hobj Hj)|]. by apply (reach_graph es l obj eo (Hg l Hl) Heo Hlo j). }
  apply wp_bind, (wp_searchBaseLayer distance es l obj dp ef Hef uninit uninit_range dist_max s0 {[c]} ∅); [done|done| |done|done|].
  { intros j Hj. destruct (Hreach j Hj) as [Hjc ?]. split; [by rewrite elem_of_singleton|done]. }
  intros Top s1 Hfound Hh1. assert (∀ x, x ∈ q_elems Top → x.2 ≠ c ∧ ∃ e, has es x.2 e ∧ l ≤ e_level e) as Hin.
  { intros x Hx. destruct (f_elem _ _ _ _ _ _ _ Hfound x Hx) as [Hx' _]. by apply Hreach. }
  assert (joining l es obj s1) as Hj1 by (split; eauto).
  destruct (deleted ee) eqn:Edel.
  - assert (0 < ef) as Hef1. { destruct Hfind as [Hall|[? _]]; [|done]. rewrite (Hall ep ee Hee) in Edel. done. }
    apply wp_bind. eapply wp_mono; [by apply (wp_distance_to distance es dp _ _ _ s1 ep ee (λ d s', s' = s1) Hh1)|].
    intros d s2 ->. apply wp_bind, wp_conf. rewrite (proj1 (holds_layout _ _ _ _ _ Hh1)).
    destruct (with_entry_spec d Top Hef1 (f_size _ _ _ _ _ _ _ Hfound)) as [Hne Hsub].
    apply wp_ret, HΦ; [done| | |done].
    + eapply NoDup_sub; [by apply fmap_submseteq|]. cbn. apply NoDup_cons. split; [|by apply Hfound].
      intros (x & Heq & Hx)%list_elem_of_fmap. destruct (f_elem _ _ _ _ _ _ _ Hfound x Hx) as (_ & e & He & Hd & _).
      rewrite <- Heq in He. rewrite (has_fun _ _ _ _ He Hee) in Hd. congruence.
    + intros x Hx. apply (elem_of_submseteq _ _ _ Hx) in Hsub. apply elem_of_cons in Hsub as [->|Hx']; [by split; eauto|by apply Hin].
  - apply wp_ret, HΦ; [|by apply Hfound|done|done]. destruct Hfind as [Hall|[_ (e & He & Hd)]].
    + apply (f_nonempty _ _ _ _ _ _ _ Hfound eo); [done|by apply (Hall obj)|]. right. intros j e _ He. by apply (Hall j).
    + rewrite (has_fun _ _ _ _ He Hee) in Hd. congruence.
Qed.

(** One level more. *)
Lemma joined_joining l es es' obj obj' cands s s' :
  0 ≤ l → joining l es obj s → NoDup (snd <$> cands) →
  (∀ x, x ∈ cands → x.2 ≠ c ∧ ∃ e, has es x.2 e ∧ l ≤ e_level e) →
  joined distance (s0 := s0) l c cands obj' es es' → holds s0 es' {[c]} ∅ s' →
  joining (l - 1) es' obj' s' ∧ ∀ e', has es' c e' → links e' l ≠ [].
Proof.
  intros Hl [Hh Hg (ec & Hec & Hlc) Hblank [Hobj _] [Hep (ee & Hee & Hle)] Hfind] Hnd Hcands Hjoin Hh'.
  pose proof (joined_graph distance l c cands obj' es es' s ec Hh (Hg l Hl) Hec ltac:(lia) Hnd Hcands Hjoin) as Hgl.
  destruct Hjoin as (Hev & order & Hpick & _ & Hlast & Hlinks). pose proof (evolves_shapes _ _ _ Hev) as Hsh.
  assert (∀ i e, has es i e → l ≤ e_level e → ∃ e', has es' i e' ∧ l - 1 ≤ e_level e') as Hkeep.
  { intros i e He Hi. destruct (shapes_has _ _ _ _ Hsh He) as (e' & ? & [_ _ Hlev _]). exists e'. split; [done|lia]. }
  split; [split; [done| | | | | |]|].
  - intros l' Hl'. destruct (decide (l' = l)) as [->|Hne]; [done|]. by apply (evolves_graph l l' es); [| |apply Hg].
  - by apply (Hkeep c ec).
  - intros l' Hl'. destruct (Hblank l') as [Hb Hf]; [lia|].
    split; [by apply (evolves_blank l l' es); [|lia|]|by apply (evolves_fresh l l' c es); [|lia|]].
  - apply last_Some_elem_of, (elem_of_submseteq _ (snd <$> cands)) in Hlast; [|by apply fmap_submseteq, (picked_subset _ _ _ _ Hpick)].
    apply list_elem_of_fmap in Hlast as (x & -> & Hx). destruct (Hcands x Hx) as (? & e & He & ?). split; [done|by apply (Hkeep x.2 e)].
  - split; [done|]. by apply (Hkeep ep ee).
  - by eapply findable_shapes.
  - intros e' He'. destruct (Hlinks c ec e' Hec He') as [Hself _]. rewrite Hself by done. intros Hnil. by rewrite Hnil in Hlast.
Qed.

Lemma wp_insert_levels del hi : -1 ≤ hi → ∀ es obj s (Φ : unit → HierarchicalNSW → Prop),
  joining hi es obj s → (∃ e, has es ep e ∧ deleted e = del) → hi ≤ mx → (length es < fuel)%nat → 0 ≤ ef →
  (∀ es' s', holds s0 es' {[c]} ∅ s' → graph_ok es' → shapes es es' →
    (∀ l e', 0 ≤ l ≤ hi → has es' c e' → links e' l ≠ []) →
    (∀ l e e', hi < l → has es c e → has es' c e' → links e' l = links e l) → Φ tt s') →
  wp (insert_levels uninit distance dist_max fuel dp c ep mx del (levels_down hi 0) obj) Φ s.
Proof.
  intros Hhi. pattern hi. apply (levels_down_ind _ 0); [| |lia]; clear hi Hhi.
  { intros es obj s Φ Hj _ _ _ _ HΦ. rewrite levels_down_nil by lia. apply wp_ret, (HΦ es); try apply Hj; [reflexivity|lia|].
    intros l e e' _ He He'. by rewrite (has_fun _ _ _ _ He He'). }
  intros hi Hle IH es obj s Φ Hj Hdel Hmx Hfuel Hef HΦ. rewrite levels_down_cons by done. cbn [insert_levels].
  apply wp_bind, wp_throw_if; [apply orb_false_iff; split; apply Z.ltb_ge; lia|].
  apply wp_assoc, wp_bind, wp_candidates with (es := es); [done|done|done|done|done|]. intros Top s1 Hne Hnd Hcands Hj1.
  pose proof Hj1 as [Hh1 Hg (ec & Hec & Hlc) Hblank _ _ _]. destruct (list_at_level ec hi) as [ll Hll]; [lia|].
  destruct (Hblank hi) as [Hb Hf]; [lia|].
  apply wp_bind, (wp_mutuallyConnect distance hi false c Top es s1 ec ll _ Hh1); [by apply Hg|done|done|lia| |done|done| |].
  { destruct (Hb ec ll Hec Hll (holds_list_ok Hh1 _ _ _ _ Hec Hll)) as (? & ? & ? & ?). split_and!; try done. intros i e He _. by apply (Hf i). }
  { intros x Hx. destruct (Hcands x Hx) as [? ?]. by rewrite elem_of_singleton. }
  intros obj' es2 s2 Hjoin Hh2.
  destruct (joined_joining hi es es2 obj obj' (q_elems Top) s1 s2 ltac:(lia) Hj1 Hnd Hcands Hjoin Hh2) as [Hj2 Hnonempty].
  pose proof (proj1 Hjoin) as Hev. pose proof (evolves_shapes _ _ _ Hev) as Hsh.
  apply (IH es2 obj' s2); [done| |lia|by rewrite <- (Forall2_length _ _ _ Hsh)|done|].
  { destruct Hdel as (e & He & Hd). destruct (shapes_has _ _ _ _ Hsh He) as (e' & ? & [_ _ _ Hm]). exists e'. split; [done|congruence]. }
  intros es3 s3 Hh3 Hg3 Hsh3 Hlow Hhigh. apply (HΦ es3); [done|done|by etrans| |].
  - intros l e' Hl He'. destruct (decide (l = hi)) as [->|]; [|by apply Hlow; [lia|]].
    destruct (shapes_has_r _ _ _ _ Hsh3 He') as (e2 & He2 & _). rewrite (Hhigh hi e2 e') by (done || lia). by apply Hnonempty.
  - intros l e e' Hl He He'. destruct (shapes_has_r _ _ _ _ Hsh3 He') as (e2 & He2 & _).
    rewrite (Hhigh l e2 e') by (done || lia). apply (evolves_links hi l es es2 c); [done|lia|done|done].
Qed.

(** The descent, and the levels below. *)
Lemma wp_insert_element es s cl (Φ : unit → HierarchicalNSW → Prop) :
  holds s0 es {[c]} ∅ s → graph_ok es → (∀ l, 0 ≤ l → blank_at es l ∧ fresh_at es c l) → ep ≠ c →
  (∃ e, has es c e ∧ e_level e = cl) → (∃ e, has es ep e ∧ e_level e = mx) → findable es →
  (length es < fuel)%nat → 0 ≤ ef → 0 ≤ cl → 0 ≤ mx →
  (∀ es' s', holds s0 es' {[c]} ∅ s' → graph_ok es' → shapes es es' →
    (∀ l e', 0 ≤ l ≤ Z.min cl mx → has es' c e' → links e' l ≠ []) → Φ tt s') →
  wp (insert_element uninit distance dist_max fuel dp c cl mx ep) Φ s.
Proof.
  intros Hh Hg Hblank Hep (ec & Hec & Hcl) (ee & Hee & Hmx) Hfind Hfuel Hef Hcl0 Hmx0 HΦ. unfold insert_element.
  apply wp_bind. eapply (wp_mono _ (λ obj s', holds s0 es {[c]} ∅ s' ∧ obj ≠ c ∧ ∃ e, has es obj e ∧ Z.min cl mx ≤ e_level e)).
  { destruct (Z.ltb_spec cl mx) as [Hlt|Hge]; [|apply wp_ret; split_and!; [done|done|exists ee; split; [done|lia]]].
    apply wp_bind. eapply wp_mono; [by apply (wp_distance_to distance es dp _ _ _ s ep ee (λ d s', d = away distance dp ee ∧ s' = s) Hh)|].
    intros d s1 [-> ->]. apply wp_bind.
    apply (wp_descend distance es dp fuel Hfuel true (cl + 1) mx ep ee s _ ltac:(lia) ltac:(lia) Hh); [done|lia|lia|by rewrite elem_of_singleton| |].
    - intros l Hl. split; [apply Hg; lia|]. intros c' ->%elem_of_singleton. apply Hblank. lia.
    - intros i e s2 He Hle Hi _ Hh2. apply wp_ret. rewrite elem_of_singleton in Hi. split_and!; [done|done|exists e; split; [done|lia]]. }
  intros obj s1 (Hh1 & Hobj & eo & Heo & Hlo). apply wp_bind, (wp_deleted Hh1 ep ee); [done|].
  apply (wp_insert_levels (deleted ee) (Z.min cl mx) ltac:(lia) es obj s1); [|eauto|lia|done|done|].
  - split; [done|done|exists ec; split; [done|lia]| |split; eauto|split; [done|exists ee; split; [done|lia]]|done].
    intros l' Hl'. apply Hblank. lia.
  - intros es' s' Hh' Hg' Hsh Hlow _. by apply (HΦ es').
Qed.
End Join.

(** ** Adding *)
Section Snoc.
Implicit Types (es : list element).

Lemma has_snoc es new i e : has (es ++ [new]) i e ↔ has es i e ∨ (i = Z.of_nat (length es) ∧ e = new).
Proof.
  unfold has. rewrite lookup_app_Some. split.
  - intros [Hi [He|[Hlen He]]]; [by left|right]. apply list_lookup_singleton_Some in He as [? <-]. split; [lia|done].
  - intros [[Hi He]|[-> ->]]; [by split; [|left]|]. split; [lia|right]. rewrite Nat2Z.id. split; [done|]. by rewrite Nat.sub_diag.
Qed.

Lemma new_links_nil l dp label cl lv : links (new_element l dp label cl) lv = [].
Proof.
  unfold links, list_at, new_element. cbn [e_base e_upper]. destruct (lv =? 0); [done|]. destruct (0 <? lv); [|done].
  destruct (replicate _ _ !! _) as [ll|] eqn:E; [|done]. by apply lookup_replicate in E as [-> _].
Qed.

Lemma new_blank l dp label cl lv ll :
  list_at (new_element l dp label cl) lv = Some ll →
  l_count ll = 0 ∧ l_mark ll = 0 ∧ l_pad ll = 0 ∧ Forall (λ z, z = 0) (l_slots ll).
Proof.
  assert (∀ max, let b := blank_list max in l_count b = 0 ∧ l_mark b = 0 ∧ l_pad b = 0 ∧ Forall (λ z, z = 0) (l_slots b)) as Hb.
  { intros max. split_and!; try done. cbn. by apply Forall_replicate. }
  unfold list_at, new_element. cbn [e_base e_upper]. destruct (lv =? 0); [intros [= <-]; apply Hb|]. destruct (0 <? lv); [|done].
  intros [-> _]%lookup_replicate. apply Hb.
Qed.

Lemma graph_snoc es new : (∀ l, links new l = []) → graph_ok es → graph_ok (es ++ [new]).
Proof.
  intros Hnil Hg l Hl i e [He|[-> ->]]%has_snoc Hle.
  - destruct (Hg l Hl i e He Hle) as [Hnd Hlk]. split; [done|]. intros j Hj. destruct (Hlk j Hj) as (? & f & Hf & ?).
    split; [done|]. exists f. split; [|done]. apply has_snoc. by left.
  - rewrite Hnil. split; [constructor|]. by intros j Hj%elem_of_nil.
Qed.

Lemma fresh_snoc es new l s :
  rep s es → (∀ l, links new l = []) → graph_ok es → 0 ≤ l → fresh_at (es ++ [new]) (Z.of_nat (length es)) l.
Proof.
  intros Hrep Hnil Hg Hl i e [He|[-> ->]]%has_snoc; [|rewrite Hnil; by intros ?%elem_of_nil].
  intros Hin. destruct (Z.le_gt_cases l (e_level e)) as [Hle|Hgt].
  - destruct (Hg l Hl i e He Hle) as [_ Hlk]. destruct (Hlk _ Hin) as (_ & f & Hf & _).
    destruct (has_lt s es Hrep _ _ Hf). lia.
  - unfold links, list_at in Hin. destruct (Z.eqb_spec l 0); [unfold e_level in *; lia|]. destruct (0 <? l); [|by apply elem_of_nil in Hin].
    rewrite lookup_ge_None_2 in Hin by (unfold e_level in *; lia). by apply elem_of_nil in Hin.
Qed.

Lemma labels_snoc es new label (m : gmap Z Z) :
  e_label new = label → m !! label = None → (∀ a i, m !! a = Some i ↔ ∃ e, has es i e ∧ e_label e = a) →
  ∀ a i, <[label := Z.of_nat (length es)]> m !! a = Some i ↔ ∃ e, has (es ++ [new]) i e ∧ e_label e = a.
Proof.
  intros Hnew Hnone Hm a i. rewrite lookup_insert_Some, Hm. split.
  - intros [[<- <-]|[Hne (e & He & Hl)]]; [exists new|exists e]; rewrite has_snoc; auto.
  - intros (e & [He|[-> ->]]%has_snoc & Hl); [right|left; split; [congruence|done]]. split; [|eauto].
    intros <-. assert (m !! label = Some i) by (apply Hm; eauto). congruence.
Qed.

Lemma reuse_snoc es new (d : gset Z) (b : bool) :
  deleted new = false → (∀ i, i ∈ d ↔ b = true ∧ ∃ e, has es i e ∧ deleted e = true) →
  ∀ i, i ∈ d ↔ b = true ∧ ∃ e, has (es ++ [new]) i e ∧ deleted e = true.
Proof.
  intros Hnew Hd i. rewrite Hd. split; intros [Hb (e & He & Hl)]; (split; [done|]).
  - exists e. rewrite has_snoc. auto.
  - apply has_snoc in He as [He|[-> ->]]; [eauto|congruence].
Qed.

Lemma entry_snoc es new entry_id max_level :
  entry_ok es entry_id max_level →
  let n := Z.of_nat (length es) in
  entry_ok (es ++ [new]) (if max_level <? e_level new then n else entry_id) (if max_level <? e_level new then e_level new else max_level).
Proof.
  intros Hent n. assert (∀ e, has es n e → False) as Hno by (intros e [_ He%lookup_lt_Some]; unfold n in *; lia).
  assert (0 ≤ e_level new) by (unfold e_level; lia). enough (
    (∃ e, has (es ++ [new]) (if max_level <? e_level new then n else entry_id) e ∧
       e_level e = (if max_level <? e_level new then e_level new else max_level)) ∧
    ∀ i e, has (es ++ [new]) i e → e_level e ≤ (if max_level <? e_level new then e_level new else max_level)) as He.
  { destruct es; exact He. }
  destruct (decide (es = [])) as [->|Hne].
  - destruct Hent as [-> ->]. destruct (Z.ltb_spec (-1) (e_level new)); [|lia]. split.
    + exists new. rewrite has_snoc. auto.
    + intros i e [[_ He]|[_ ->]]%has_snoc; [done|lia].
  - apply entry_ok_has in Hent as [(e & He & Hl) Hmax]; [|done]. destruct (Z.ltb_spec max_level (e_level new)).
    + split; [exists new; rewrite has_snoc; auto|]. intros i f [Hf|[_ ->]]%has_snoc; [specialize (Hmax i f Hf)|]; lia.
    + split; [exists e; rewrite has_snoc; auto|]. intros i f [Hf|[_ ->]]%has_snoc; [by apply (Hmax i)|lia].
Qed.

Lemma entry_signed s es :
  rep s es → entry_ok es (entry_id_ s) (max_level_ s) → wraps 32 (entry_id_ s) = -1 ↔ es = [].
Proof.
  intros Hrep Hent. destruct (decide (es = [])) as [->|Hne]; [by destruct Hent as [-> _]|].
  apply entry_ok_has in Hent as [(e & He & _) _]; [|done]. destruct (has_lt s es Hrep _ _ He) as [Hi Hc].
  pose proof (lo_cap _ _ (rep_layout _ _ Hrep)) as Hcap. split; [|done]. intros Hw. exfalso. unfold wraps in Hw.
  pose proof (Z.div_mod (entry_id_ s + 2 ^ (32 - 1)) (2 ^ 32) ltac:(lia)) as Hdm. 
  assert ((entry_id_ s + 2 ^ (32 - 1)) mod 2 ^ 32 = 2 ^ 31 - 1) as Heq by lia. rewrite Heq in Hdm. lia.
Qed.
End Snoc.

Section Add.
Context {LP : LockPolicy} {Q : Type} `{MaxQueueLaws Q}.
Context (uninit : loc → nat → Z) (uninit_range : ∀ a i, 0 ≤ uninit a i < 2 ^ 16).
Context (malloc : Z → option memory) (distance : list byte → list byte → Z) (dist_max : Z) (iterate : gset Z → list Z).
Context (fuel : nat) (dp : list byte) (label level drawn : Z).

Definition level_taken : Z := if 0 <? level then level else drawn.

(** The index after an element was added, when the memory holds what it should. *)
Lemma add_finish s s3 s4 es new es' entry_id max_level :
  index_ok s es → label_map_ s !! label = None → e_label new = label → deleted new = false →
  holds s3 es' {[Z.of_nat (length es)]} ∅ s4 → graph_ok es' → shapes (es ++ [new]) es' →
  label_map_ s3 = <[label := Z.of_nat (length es)]> (label_map_ s) → deleted_count_ s3 = deleted_count_ s →
  deleted_elements_ s3 = deleted_elements_ s → reuse_deleted_ s3 = reuse_deleted_ s →
  entry_ok es' entry_id max_level →
  index_ok (set_link_locks (link_locks_ s4 ∖ {[Z.of_nat (length es)]}) (set_max_level max_level (set_entry_id entry_id s4))) es'.
Proof.
  intros [H1 H2 H3 H4 H5 H6 H7 H8] Hnone Hlab Hdel [Hf Hrep Hlk Hp] Hg Hsh Hm3 Hd3 Hde3 Hr3 Hent.
  assert (label_map_ s4 = label_map_ s3 ∧ deleted_count_ s4 = deleted_count_ s3 ∧ deleted_elements_ s4 = deleted_elements_ s3 ∧
    reuse_deleted_ s4 = reuse_deleted_ s3) as (E1 & E2 & E3 & E4) by by rewrite Hf.
  split; cbn; try done.
  - by apply (rep_ext s4).
  - rewrite Hlk. set_solver.
  - rewrite E1, Hm3. eapply labels_roles; [exact (shapes_roles _ _ Hsh)|]. by apply labels_snoc.
  - by rewrite E2, Hd3, H7, (marked_roles _ _ (shapes_roles _ _ Hsh)), marked_snoc.
  - rewrite E3, Hde3, E4, Hr3. eapply reuse_roles; [exact (shapes_roles _ _ Hsh)|]. by apply reuse_snoc.
Qed.

(** What is asked of a call that adds an element at the level [cl]. *)
Record may_add (s : HierarchicalNSW) (es : list element) (cl : Z) : Prop := {
  ma_index : index_ok s es;
  ma_label : label_map_ s !! label = None;
  ma_room : Z.of_nat (length es) < capacity_ s;
  ma_range : 0 ≤ label < 2 ^ 64;
  ma_vector : data_size_ (layout s) ≤ Z.of_nat (length dp);
  ma_level : 0 ≤ cl < 2 ^ 31;
  ma_memory : cl ≠ 0 → is_Some (malloc (link_stride_ (layout s) * cl + 1));
  ma_find : findable (s0 := s) (entry_id_ s) es;
  ma_ef : 0 ≤ efConstruction_ (layout s);
  ma_fuel : (S (length es) < fuel)%nat;
}.

(** What it leaves behind: the old elements and the new one, which has links at every
    level that there was. *)
Record added (s : HierarchicalNSW) (es : list element) (cl : Z) (es' : list element) (s' : HierarchicalNSW) : Prop := {
  ad_index : index_ok s' es';
  ad_shapes : shapes (es ++ [new_element (layout s) dp label cl]) es';
  ad_linked : es ≠ [] → ∀ l e, 0 ≤ l ≤ Z.min cl (max_level_ s) → has es' (Z.of_nat (length es)) e → links e l ≠ [];
  ad_layout : layout s' = layout s ∧ capacity_ s' = capacity_ s ∧ reuse_deleted_ s' = reuse_deleted_ s;
}.

(** The index while the new element is being joined: it is there, without links. *)
Record placed (s : HierarchicalNSW) (es : list element) (cl : Z) (s3 : HierarchicalNSW) : Prop := {
  pl_holds : holds s3 (es ++ [new_element (layout s) dp label cl]) {[Z.of_nat (length es)]} ∅ s3;
  pl_same : layout s3 = layout s ∧ capacity_ s3 = capacity_ s ∧ max_level_ s3 = max_level_ s ∧ entry_id_ s3 = entry_id_ s;
  pl_labels : label_map_ s3 = <[label := Z.of_nat (length es)]> (label_map_ s) ∧ deleted_count_ s3 = deleted_count_ s ∧
    deleted_elements_ s3 = deleted_elements_ s ∧ reuse_deleted_ s3 = reuse_deleted_ s;
}.

(** The label, the level and the memory of the new element. *)
Lemma wp_placed s es cl levels (k : MH Z) (Φ : Z → HierarchicalNSW → Prop) :
  may_add s es cl → levels = <[length es := cl]> (element_levels_ s) →
  (∀ s3, placed s es cl s3 → wp k Φ s3) →
  wp (place_element malloc dp label (Z.of_nat (length es)) cl ;; k) Φ
    (set_element_levels levels (set_link_locks ({[Z.of_nat (length es)]} ∪ link_locks_ s)
      (set_label_map (<[label := Z.of_nat (length es)]> (label_map_ s)) (set_element_count (size_add (element_count_ s) 1) s)))).
Proof.
  intros [Hix Hnone Hroom Hlab Hdp Hlev Hmem _ _ _] -> Hk. pose proof Hix as [Hrep _ Hlk Hpool _ _ _ _].
  pose proof (rep_layout _ _ Hrep) as Hlo. pose proof (lo_cap _ _ Hlo) as Hcap.
  destruct (proj1 (rep_room s es) Hrep) as [Hrm Hcount]. set (n := Z.of_nat (length es)) in *. set (s2 := set_element_levels _ _).
  destruct (new_element_ok _ _ dp label cl Hlo Hdp Hlab Hlev) as [Hnew Hnewl].
  assert (room s2 es) as Hrm2.
  { destruct Hrm as [? ? ? ? Hl He]. split; try done; cbn; [by rewrite length_insert|]. intros i e Hi.
    destruct (He i e Hi) as [? [? ? ?]]. split; [done|]. split; [done|done|]. cbn. apply lookup_lt_Some in Hi.
    by rewrite list_lookup_insert_ne by lia. }
  apply wp_bind, (wp_place_element malloc dp label cl Hlab Hlev s2 es); [done|done|done| |done|].
  { apply list_lookup_insert_eq. pose proof (rm_levels _ _ Hrm). unfold n in Hroom. lia. }
  intros s3 Hrm3 Hf3 Hlk3 Hp3. apply Hk.
  assert (layout s3 = layout s ∧ capacity_ s3 = capacity_ s ∧ element_count_ s3 = size_add (element_count_ s) 1) as (E1 & E2 & E3) by by rewrite Hf3.
  split; [|by rewrite Hf3|by rewrite Hf3].
  replace ({[n]} : gset Z) with (link_locks_ s3) by (rewrite Hlk3; cbn; rewrite Hlk; set_solver). apply holds_start.
  - apply rep_room. split; [done|]. rewrite E3, Hcount, length_app. unfold size_add. rewrite wrapu_small; cbn; lia.
  - rewrite E2, Hp3. exact Hpool.
Qed.

(** The first element becomes the entry; another one is joined to what is there. *)
Lemma wp_join_new s es cl s3 (Φ : Z → HierarchicalNSW → Prop) :
  let n := Z.of_nat (length es) in
  may_add s es cl → placed s es cl s3 →
  (∀ es' s4, added s es cl es' (set_link_locks (link_locks_ s4 ∖ {[n]}) s4) → Φ n s4) →
  wp ((if negb (wraps 32 (entry_id_ s) =? -1) then insert_element uninit distance dist_max fuel dp n cl (max_level_ s) (entry_id_ s)
       else modify (λ s, set_max_level cl (set_entry_id 0 s))) ;;
      (if max_level_ s <? cl then modify (λ s, set_max_level cl (set_entry_id n s)) else mret tt) ;;
      mret n) Φ s3.
Proof.
  intros n [Hix Hnone Hroom Hlab Hdp Hlev _ Hfind Hef Hfuel] [Hh3 (E1 & E2 & E4 & E5) (El & Ed & Ede & Er)] HΦ.
  pose proof Hix as [Hrep Hg _ _ _ Hent _ _]. destruct (new_element_ok _ _ dp label cl (rep_layout _ _ Hrep) Hdp Hlab Hlev) as [_ Hnewl].
  set (new := new_element (layout s) dp label cl) in *. assert (∀ l, links new l = []) as Hnil by (intros l; apply new_links_nil).
  assert (∀ es' s4 ent mx, holds s3 es' {[n]} ∅ s4 → graph_ok es' → shapes (es ++ [new]) es' → entry_ok es' ent mx →
    index_ok (set_link_locks (link_locks_ s4 ∖ {[n]}) (set_max_level mx (set_entry_id ent s4))) es') as Hfin.
  { intros es' s4 ent mx Hh4 Hg4 Hsh4 Hent4. by apply (add_finish s s3 s4 es new). }
  pose proof (entry_snoc es new _ _ Hent) as Hent'. cbn zeta in Hent'. fold n in Hent'. rewrite Hnewl in Hent'.
  destruct (decide (es = [])) as [->|Hne].
  - destruct Hent as [He Hm]. rewrite He, Hm in *. change (wraps 32 no_entry) with (-1). cbn [Z.eqb negb].
    apply wp_bind, wp_modify. destruct (Z.ltb_spec (-1) cl); [|lia]. apply wp_bind, wp_modify. apply wp_ret.
    apply (HΦ [new]). split; [|reflexivity|done|done]. apply (Hfin [new] s3); [done|by apply (graph_snoc [] new)|reflexivity|done].
  - pose proof (proj1 (entry_ok_has _ _ _ Hne Hent)) as (ee & Hee & Hle).
    destruct (Z.eqb_spec (wraps 32 (entry_id_ s)) (-1)) as [Hw|_]; [by apply (entry_signed s es Hrep Hent) in Hw|]. cbn [negb].
    destruct (has_lt s es Hrep _ _ Hee) as [Hei _].
    assert (has (es ++ [new]) n new) as Hcn by (apply has_snoc; by right).
    apply wp_bind, (wp_insert_element uninit uninit_range distance dist_max fuel dp n (entry_id_ s) (max_level_ s) (es ++ [new]) s3 cl _ Hh3);
      [by apply graph_snoc| |unfold n; lia|by exists new|exists ee; split; [apply has_snoc; by left|done]| |rewrite length_app; cbn; lia|by rewrite E1|lia| |].
    { intros l Hl. split; [|by apply (fresh_snoc es new l s)]. intros e ll He Hll _. rewrite (has_fun _ _ _ _ He Hcn) in Hll. by apply (new_blank _ _ _ _ _ _ Hll). }
    { destruct Hfind as [Hall|[Hef0 (e & He & Hd)]]; [left|right; rewrite E1; split; [done|exists e; by rewrite has_snoc; auto]].
      intros i e [He|[_ ->]]%has_snoc; [by apply (Hall i)|done]. }
    { unfold e_level in Hle. lia. }
    intros es' s4 Hh4 Hg4 Hsh4 Hlinked.
    assert (added s es cl es' (set_link_locks (link_locks_ s4 ∖ {[n]}) (set_max_level (if max_level_ s <? cl then cl else max_level_ s)
      (set_entry_id (if max_level_ s <? cl then n else entry_id_ s) s4)))) as Had.
    { split; [|done|done|].
      - apply Hfin; try done. by eapply entry_ok_roles, Hent'; apply shapes_roles.
      - destruct Hh4 as [Hf4 _ _ _]. rewrite Hf4. cbn. by rewrite E1, E2, Er. }
    destruct (Z.ltb_spec (max_level_ s) cl); [by apply wp_bind, wp_modify, wp_ret, (HΦ es')|].
    apply wp_bind, wp_ret, wp_ret, (HΦ es'). replace s4 with (set_max_level (max_level_ s) (set_entry_id (entry_id_ s) s4)) at 1 2; [done|].
    destruct Hh4 as [Hf4 _ _ _]. rewrite <- E4, <- E5, Hf4. by destruct s3.
Qed.

Lemma wp_addPoint_new s es cl (Φ : Z → HierarchicalNSW → Prop) :
  cl = level_taken → may_add s es cl →
  (∀ es' s', added s es cl es' s' → Φ (Z.of_nat (length es)) s') →
  wp (addPoint_level uninit malloc distance dist_max iterate fuel dp label level drawn) Φ s.
Proof.
  intros Hcl Hadd HΦ. pose proof Hadd as [Hix Hnone Hroom _ _ _ _ _ _ _]. pose proof Hix as [Hrep _ Hlk _ _ _ _ _].
  pose proof (lo_cap _ _ (rep_layout _ _ Hrep)) as Hcap. destruct (proj1 (rep_room s es) Hrep) as [_ Hcount].
  unfold addPoint_level. apply wp_bind, wp_gets. rewrite Hnone. apply wp_bind, wp_gets. apply wp_bind, wp_gets.
  apply wp_bind, wp_throw_if; [apply Z.leb_gt; lia|]. set (n := Z.of_nat (length es)) in *. rewrite Hcount, (wrapu_small 32 n) by lia.
  apply wp_bind, wp_modify. fold level_taken. rewrite <- Hcl.
  apply wp_lock; [change (n ∉ link_locks_ s); by rewrite Hlk|cbn; lia|].
  apply wp_bind, wp_gets. unfold set_at. rewrite decide_True by (cbn; rewrite (rep_levels _ _ Hrep); lia).
  apply wp_bind, wp_modify. apply wp_bind, wp_gets. apply wp_bind, wp_gets.
  apply (wp_placed s es cl); [done|unfold n; cbn; by rewrite Nat2Z.id|]. intros s3 Hpl.
  apply (wp_join_new s es cl s3); [done|done|]. intros es' s4 Had. by apply (HΦ es').
Qed.
End Add.
