(* ===== verification/HnswMarks.v ===== *)
(** Deletion marks of the graph index: [markDelete] and [unmarkDelete] of
    src/hnsw/hnsw_scratch/hnsw_core.hpp. *)

From S2P Require Import Prelude Bytes Memory CxxLib NearestQueue MaxQueue VisitedList Wp Hnsw HnswRep HnswSearch HnswHeuristic HnswGraph HnswDescent HnswIndex.

(** ** The mark in its byte *)
Lemma mark_bit m : 0 ≤ m < 2 ^ 8 → 0 ≤ Z.lor m DELETE_MARK < 2 ^ 8 ∧ Z.land (Z.lor m DELETE_MARK) DELETE_MARK = 1.
Proof.
  intros Hm. split.
  - assert (Z.lor m DELETE_MARK = Z.lor m DELETE_MARK mod 2 ^ 8) as ->; [|apply Z.mod_pos_bound; lia].
    rewrite <- Z.land_ones, Z.land_lor_distr_l, !Z.land_ones, !Z.mod_small by (unfold DELETE_MARK; lia). done.
  - rewrite Z.land_lor_distr_l. apply Z.bits_inj'. intros n Hn. unfold DELETE_MARK.
    rewrite Z.lor_spec, !Z.land_spec. change (Z.land 1 1) with 1. destruct (Z.testbit 1 n), (Z.testbit m n); done.
Qed.

Lemma unmark_bit m : 0 ≤ m < 2 ^ 8 →
  0 ≤ Z.land m (Z.lnot DELETE_MARK) < 2 ^ 8 ∧ Z.land (Z.land m (Z.lnot DELETE_MARK)) DELETE_MARK = 0.
Proof.
  intros Hm. split.
  - assert (Z.land m (Z.lnot DELETE_MARK) = Z.land m (Z.lnot DELETE_MARK) mod 2 ^ 8) as ->; [|apply Z.mod_pos_bound; lia].
    rewrite <- Z.land_ones by lia. rewrite <- Z.land_assoc, (Z.land_comm (Z.lnot _)), Z.land_assoc, Z.land_ones, Z.mod_small by lia. done.
  - rewrite <- Z.land_assoc, (Z.land_comm (Z.lnot _)), Z.land_lnot_diag. by rewrite Z.land_0_r.
Qed.

Lemma unmark_mark m : Z.land m DELETE_MARK = 0 → Z.land (Z.lor m DELETE_MARK) (Z.lnot DELETE_MARK) = m.
Proof.
  intros Hm. rewrite Z.land_lor_distr_l, Z.land_lnot_diag, Z.lor_0_r.
  apply Z.bits_inj'. intros n Hn. pose proof (f_equal (λ z, Z.testbit z n) Hm) as Hb. cbn in Hb.
  rewrite Z.land_spec, Z.bits_0 in Hb. rewrite Z.land_spec, Z.lnot_spec by done.
  destruct (Z.testbit m n), (Z.testbit DELETE_MARK n); done.
Qed.

(** ** Marking an element *)
Definition remark (f : Z → Z) (e : element) : element := set_list 0 (set_mark (f (l_mark (e_base e))) (e_base e)) e.
Definition mark_elem : element → element := remark (λ m, Z.lor m DELETE_MARK).
Definition unmark_elem : element → element := remark (λ m, Z.land m (Z.lnot DELETE_MARK)).

Lemma remark_links f e l : links (remark f e) l = links e l.
Proof. unfold links, remark, set_list, list_at. cbn. by destruct (l =? 0). Qed.

Lemma mark_elem_deleted l e : elem_ok l e → deleted (mark_elem e) = true.
Proof. intros He. unfold deleted. cbn. by rewrite (proj2 (mark_bit _ (ll_mark _ _ (eo_base _ _ He)))). Qed.

Lemma unmark_elem_deleted l e : elem_ok l e → deleted (unmark_elem e) = false.
Proof. intros He. unfold deleted. cbn. by rewrite (proj2 (unmark_bit _ (ll_mark _ _ (eo_base _ _ He)))). Qed.

Section Elements.
Implicit Types (es : list element).

Lemma insert_middle es i e e' : has es i e → ∃ xs ys, es = xs ++ e :: ys ∧ <[Z.to_nat i := e']> es = xs ++ e' :: ys.
Proof.
  intros [_ He]. exists (take (Z.to_nat i) es), (drop (S (Z.to_nat i)) es). split; [by rewrite take_drop_middle|].
  by rewrite insert_take_drop by by eapply lookup_lt_Some.
Qed.

Lemma marked_insert es i e e' :
  has es i e →
  (length (marked (<[Z.to_nat i := e']> es)) + Nat.b2n (deleted e) = length (marked es) + Nat.b2n (deleted e'))%nat.
Proof.
  intros (xs & ys & -> & ->)%(insert_middle _ _ _ e'). unfold marked.
  rewrite !filter_app, !filter_cons, !length_app. repeat case_decide; destruct (deleted e), (deleted e'); cbn; try done; lia.
Qed.

Lemma graph_insert es i e e' : has es i e → e_level e' = e_level e → (∀ l, links e' l = links e l) → graph_ok es → graph_ok (<[Z.to_nat i := e']> es).
Proof.
  intros He Hlev Hlk Hg l Hl.
  assert (∀ j, (∃ f, has es j f ∧ l ≤ e_level f) → ∃ f, has (<[Z.to_nat i := e']> es) j f ∧ l ≤ e_level f) as Hat.
  { intros j (f & Hf & Hfl). destruct (decide (j = i)) as [->|Hne].
    - rewrite (has_fun _ _ _ _ Hf He) in Hfl. exists e'. split; [apply (has_insert es i e); [done|by left]|lia].
    - exists f. split; [|done]. apply (has_insert es i e); [done|by right]. }
  intros j f Hf Hle. apply (has_insert es i e) in Hf as [[-> ->]|[Hne Hf]]; [| |done].
  - destruct (Hg l Hl i e He) as [Hnd Hl']; [lia|]. rewrite Hlk. split; [done|]. intros k Hk. destruct (Hl' k Hk). auto.
  - destruct (Hg l Hl j f Hf Hle) as [Hnd Hl']. split; [done|]. intros k Hk. destruct (Hl' k Hk). auto.
Qed.

Lemma entry_insert es i e e' ent mx : has es i e → e_level e' = e_level e → entry_ok es ent mx → entry_ok (<[Z.to_nat i := e']> es) ent mx.
Proof.
  intros He Hlev Hent. assert (es ≠ []) as Hne by (intros ->; by destruct He).
  apply entry_ok_has in Hent as [(f & Hf & Hfl) Hmax]; [|done].
  enough ((∃ e0, has (<[Z.to_nat i := e']> es) ent e0 ∧ e_level e0 = mx) ∧
    ∀ j f, has (<[Z.to_nat i := e']> es) j f → e_level f ≤ mx) as Hgo by (destruct es; [done|by destruct (Z.to_nat i)]).
  split.
  - destruct (decide (ent = i)) as [->|Hne'].
    + exists e'. rewrite (has_fun _ _ _ _ Hf He) in Hfl. split; [apply (has_insert es i e); [done|by left]|lia].
    + exists f. split; [|done]. apply (has_insert es i e); [done|by right].
  - intros j g Hg. apply (has_insert es i e) in Hg as [[-> ->]|[_ Hg]]; [|by apply (Hmax j)|done]. specialize (Hmax i e He). lia.
Qed.

Lemma labels_insert es i e e' (m : gmap Z Z) :
  has es i e → e_label e' = e_label e → (∀ a j, m !! a = Some j ↔ ∃ f, has es j f ∧ e_label f = a) →
  ∀ a j, m !! a = Some j ↔ ∃ f, has (<[Z.to_nat i := e']> es) j f ∧ e_label f = a.
Proof.
  intros He Hlab Hm a j. rewrite Hm. split; intros (f & Hf & Hl).
  - destruct (decide (j = i)) as [->|Hne].
    + exists e'. rewrite (has_fun _ _ _ _ Hf He) in Hl. split; [apply (has_insert es i e); [done|by left]|congruence].
    + exists f. split; [|done]. apply (has_insert es i e); [done|by right].
  - apply (has_insert es i e) in Hf as [[-> ->]|[_ Hf]]; [|eauto|done]. exists e. split; [done|congruence].
Qed.

Lemma reuse_insert es i e e' (d : gset Z) (b : bool) :
  has es i e → (∀ j, j ∈ d ↔ b = true ∧ ∃ f, has es j f ∧ deleted f = true) →
  ∀ j, j ∈ (if b then (if deleted e' then {[i]} ∪ d else d ∖ {[i]}) else d) ↔
    b = true ∧ ∃ f, has (<[Z.to_nat i := e']> es) j f ∧ deleted f = true.
Proof.
  intros He Hd j.
  assert ((∃ f, has (<[Z.to_nat i := e']> es) j f ∧ deleted f = true) ↔
    (j = i ∧ deleted e' = true) ∨ (j ≠ i ∧ ∃ f, has es j f ∧ deleted f = true)) as ->.
  { setoid_rewrite (has_insert es i e e' j _ He). split.
    - intros (f & [[-> ->]|[Hne Hf]] & Hdf); eauto.
    - intros [[-> Hd']|(Hne & f & Hf & Hdf)]; eauto 6. }
  destruct b; [|rewrite Hd; intuition congruence].
  destruct (deleted e') eqn:E; [rewrite elem_of_union, elem_of_singleton, Hd|rewrite elem_of_difference, elem_of_singleton, Hd];
    destruct (decide (j = i)) as [->|Hne]; intuition congruence.
Qed.

Lemma remark_rep s es i e f :
  rep s es → has es i e → 0 ≤ f (l_mark (e_base e)) < 2 ^ 8 →
  ∃ d, write_mem (i * element_stride_ (layout s) + 2) (le_bytes 1 (f (l_mark (e_base e)))) (level0_data_ s) = Some d ∧
    write_mem (i * element_stride_ (layout s) + 2) (le_bytes 1 (l_mark (e_base e))) d = Some (level0_data_ s) ∧
    rep (set_level0_data d s) (<[Z.to_nat i := remark f e]> es) ∧
    ∀ k : MH unit, (p ← get_neighbors_L0 i; b ← load 1 (shift p 2); store (shift p 2) (le_bytes 1 (f (le_val b))) ;; k) s =
      k (set_level0_data d s).
Proof.
  intros Hrep He Hf. destruct (has_ok s es Hrep i e He) as [Hok [Hm0 _ _]].
  destruct (list_run s es Hrep i e 0 (e_base e) He eq_refl) as [Hrun Hr]. pose proof (ll_mark _ _ (eo_base _ _ Hok)) as Hmk.
  assert (elem_ok (layout s) (remark f e)) as Hok'.
  { destruct (eo_base _ _ Hok) as [? ? ? ? ?]. by apply (elem_ok_set_list _ _ _ (e_base e)). }
  set (rest := le_bytes 1 (l_pad (e_base e)) ++ concat (le_bytes 4 <$> l_slots (e_base e))).
  destruct (store_elem s es i e (remark f e) (le_bytes 2 (l_count (e_base e))) (le_bytes 1 (l_mark (e_base e)))
    (le_bytes 1 (f (l_mark (e_base e)))) (rest ++ e_vector e ++ le_bytes 8 (e_label e)) Hrep He) as (d & Hst & Hrep');
    [unfold enc_elem, enc_links, rest; by rewrite <- !app_assoc|unfold enc_elem, enc_links, rest; by rewrite <- !app_assoc|done|done|done|].
  cbn [length le_bytes] in Hst. change (Z.of_nat 2) with 2 in Hst. exists d.
  unfold enc_links in Hr. apply preads_mid in Hr. change (Z.of_nat (length (le_bytes 2 _))) with 2 in Hr.
  assert (write_mem (i * element_stride_ (layout s) + 2) (le_bytes 1 (f (l_mark (e_base e)))) (level0_data_ s) = Some d) as Hw.
  { unfold store in Hst. destruct (write_mem _ _ _); [|done]. by injection Hst as ->. }
  split_and!; [done|by eapply write_back; [exact Hr| |exact Hw]|done|]. intros k.
  erewrite bind_Done by exact Hrun. erewrite bind_Done by exact (load_bytes_run _ _ _ 1 Hr eq_refl).
  rewrite le_val_small by done. by erewrite bind_Done by exact Hst.
Qed.

(** The index after the mark, the count and the set of the deleted elements have changed. *)
Lemma remark_index s es i e e' d c :
  index_ok s es → has es i e → e_label e' = e_label e → e_level e' = e_level e → (∀ l, links e' l = links e l) →
  rep (set_level0_data d s) (<[Z.to_nat i := e']> es) →
  c + Z.of_nat (Nat.b2n (deleted e)) = deleted_count_ s + Z.of_nat (Nat.b2n (deleted e')) →
  index_ok (set_deleted_elements
      (if reuse_deleted_ s then if deleted e' then {[i]} ∪ deleted_elements_ s else deleted_elements_ s ∖ {[i]} else deleted_elements_ s)
    (set_deleted_count c (set_level0_data d s))) (<[Z.to_nat i := e']> es).
Proof.
  intros [H1 H2 H3 H4 H5 H6 H7 H8] He Hlab Hlev Hlk Hrep Hc. split; try done; cbn.
  - by apply (rep_ext (set_level0_data d s)).
  - by apply (graph_insert _ _ e).
  - by apply (labels_insert _ _ e).
  - by apply (entry_insert _ _ e).
  - pose proof (marked_insert es i e e' He). lia.
  - by apply (reuse_insert es i e e').
Qed.

Lemma marked_bound s es : rep s es → Z.of_nat (length (marked es)) < 2 ^ 32.
Proof.
  intros Hrep. unfold marked. pose proof (length_filter (λ e, deleted e = true) es).
  pose proof (rep_cap _ _ Hrep). pose proof (lo_cap _ _ (rep_layout _ _ Hrep)). lia.
Qed.

Lemma index_holds s es : index_ok s es → holds s es ∅ ∅ s.
Proof.
  intros [H1 _ H3 H4 _ _ _ _]. pose proof (holds_start s es ∅ H1 H4) as Hh. by rewrite H3 in Hh.
Qed.

Lemma deleted_run s es i e : index_ok s es → has es i e → isMarkedDeleted i s = Done (deleted e) s.
Proof.
  intros Hix%index_holds He.
  destruct (wp_elim _ _ _ (wp_deleted Hix i e (λ b s', b = deleted e ∧ s' = s) He (conj eq_refl eq_refl))) as (? & ? & Hrun & -> & ->).
  exact Hrun.
Qed.

Lemma checked_run s es i e (k : bool → MH unit) : index_ok s es → has es i e →
  (n ← gets element_count_; assert_ (i <? n) ;; deleted ← isMarkedDeleted i; k deleted) s = k (deleted e) s.
Proof.
  intros Hix He. pose proof (ix_rep _ _ Hix) as Hrep. destruct (has_lt s es Hrep i e He) as [Hi _].
  rewrite <- (rep_count _ _ Hrep) in Hi. erewrite bind_Done by done. erewrite bind_Done.
  - by erewrite bind_Done by by eapply deleted_run.
  - unfold assert_. by rewrite (proj2 (Z.ltb_lt _ _)) by lia.
Qed.

(** What a mark leaves behind, and that writing the old mark undoes it. *)
Definition remarked (s : HierarchicalNSW) (i : Z) (e : element) (f : Z → Z) (c : Z) (D : gset Z) (s' : HierarchicalNSW) : Prop :=
  ∃ d, s' = set_deleted_elements D (set_deleted_count c (set_level0_data d s)) ∧
    write_mem (i * element_stride_ (layout s) + 2) (le_bytes 1 (f (l_mark (e_base e)))) (level0_data_ s) = Some d ∧
    write_mem (i * element_stride_ (layout s) + 2) (le_bytes 1 (l_mark (e_base e))) d = Some (level0_data_ s).

Lemma set_deleted_id s : set_deleted_elements (deleted_elements_ s) s = s.
Proof. by destruct s. Qed.

(** The count and the set of the deleted elements. *)
Lemma count_run s c (F : gset Z → gset Z) :
  0 ≤ deleted_count_ s + c < 2 ^ 64 →
  (modify (λ s, set_deleted_count (size_add (deleted_count_ s) c) s) ;;
   reuse ← gets reuse_deleted_;
   if reuse : bool then modify (λ s, set_deleted_elements (F (deleted_elements_ s)) s) else mret tt) s =
  Done tt (set_deleted_elements (if reuse_deleted_ s then F (deleted_elements_ s) else deleted_elements_ s)
    (set_deleted_count (deleted_count_ s + c) s)).
Proof.
  intros Hc. unfold mbind, M_bind, modify, gets, size_add. rewrite wrapu_small by lia.
  change (reuse_deleted_ (set_deleted_count _ s)) with (reuse_deleted_ s). by destruct (reuse_deleted_ s).
Qed.

Lemma mark_deleted_run s es i e :
  index_ok s es → has es i e → deleted e = false →
  ∃ s', markDeletedInternal i s = Done tt s' ∧ index_ok s' (<[Z.to_nat i := mark_elem e]> es) ∧
    remarked s i e (λ m, Z.lor m DELETE_MARK) (deleted_count_ s + 1)
      (if reuse_deleted_ s then {[i]} ∪ deleted_elements_ s else deleted_elements_ s) s'.
Proof.
  intros Hix He Hd. pose proof (ix_rep _ _ Hix) as Hrep. destruct (has_ok s es Hrep i e He) as [Hok _].
  destruct (remark_rep s es i e (λ m, Z.lor m DELETE_MARK) Hrep He) as (d & Hw & Hback & Hrep' & Hrun).
  { apply mark_bit, (ll_mark _ _ (eo_base _ _ Hok)). }
  eexists. split; [|split; [|by exists d]].
  - unfold markDeletedInternal. rewrite (checked_run s es i e _ Hix He), Hd, Hrun.
    pose proof (marked_bound s es Hrep) as Hb. rewrite <- (ix_deleted _ _ Hix) in Hb. pose proof (ix_deleted _ _ Hix).
    apply (count_run (set_level0_data d s) 1 (λ D, {[i]} ∪ D)). change (0 ≤ deleted_count_ s + 1 < 2 ^ 64). lia.
  - pose proof (mark_elem_deleted _ _ Hok) as Hd'.
    pose proof (remark_index s es i e (mark_elem e) d (deleted_count_ s + 1) Hix He) as Hgo. rewrite Hd, Hd' in Hgo.
    apply Hgo; try done; [intros l; apply remark_links|cbn; lia].
Qed.

Lemma unmark_deleted_run s es i e :
  index_ok s es → has es i e → deleted e = true →
  ∃ s', unmarkDeletedInternal i s = Done tt s' ∧ index_ok s' (<[Z.to_nat i := unmark_elem e]> es) ∧
    remarked s i e (λ m, Z.land m (Z.lnot DELETE_MARK)) (deleted_count_ s - 1)
      (if reuse_deleted_ s then deleted_elements_ s ∖ {[i]} else deleted_elements_ s) s'.
Proof.
  intros Hix He Hd. pose proof (ix_rep _ _ Hix) as Hrep. destruct (has_ok s es Hrep i e He) as [Hok _].
  destruct (remark_rep s es i e (λ m, Z.land m (Z.lnot DELETE_MARK)) Hrep He) as (d & Hw & Hback & Hrep' & Hrun).
  { apply unmark_bit, (ll_mark _ _ (eo_base _ _ Hok)). }
  pose proof (unmark_elem_deleted _ _ Hok) as Hd'.
  eexists. split; [|split; [|by exists d]].
  - unfold unmarkDeletedInternal. rewrite (checked_run s es i e _ Hix He), Hd, Hrun.
    pose proof (marked_bound s es Hrep). pose proof (marked_insert es i e (unmark_elem e) He) as Hcount. rewrite Hd, Hd' in Hcount.
    pose proof (ix_deleted _ _ Hix). apply (count_run (set_level0_data d s) (-1) (λ D, D ∖ {[i]})).
    change (0 ≤ deleted_count_ s + -1 < 2 ^ 64). cbn [Nat.b2n] in Hcount. lia.
  - pose proof (remark_index s es i e (unmark_elem e) d (deleted_count_ s - 1) Hix He) as Hgo. rewrite Hd, Hd' in Hgo.
    apply Hgo; try done; [intros l; apply remark_links|cbn; lia].
Qed.
End Elements.

(** ** By label *)
Section Labels.
Context (s : HierarchicalNSW) (es : list element) (Hix : index_ok s es).

Lemma find_label_run label i e : has es i e → e_label e = label → find_label label s = Done i s.
Proof.
  intros He Hl. assert (label_map_ s !! label = Some i) as Hm by (apply (ix_labels _ _ Hix); eauto).
  unfold find_label. erewrite bind_Done by done. by rewrite Hm.
Qed.

Lemma find_unknown {A} label (k : Z → MH A) :
  label_map_ s !! label = None → (i ← find_label label; k i) s = Throw (runtime_error "Label not found") s.
Proof. intros Hm. apply bind_Throw. unfold find_label. erewrite bind_Done by done. by rewrite Hm. Qed.

Lemma mark_twice i e : has es i e → deleted e = true →
  markDeletedInternal i s = Throw (runtime_error "The requested to delete element is already deleted") s.
Proof. intros He Hd. unfold markDeletedInternal. by rewrite (checked_run s es i e _ Hix He), Hd. Qed.

Lemma unmark_unmarked i e : has es i e → deleted e = false →
  unmarkDeletedInternal i s = Throw (runtime_error "The requested to undelete element is not deleted") s.
Proof. intros He Hd. unfold unmarkDeletedInternal. by rewrite (checked_run s es i e _ Hix He), Hd. Qed.

Lemma data_run label i e : has es i e → e_label e = label →
  getDataByLabel (data_size_ (layout s)) label s =
    if deleted e then Throw (runtime_error "Label not found") s else Done (e_vector e) s.
Proof.
  intros He Hl. unfold getDataByLabel. erewrite bind_Done by by eapply find_label_run.
  erewrite bind_Done by by eapply deleted_run. destruct (deleted e); [done|]. erewrite bind_Done by done.
  destruct (wp_elim _ _ _ (wp_vector (index_holds s es Hix) i e (λ v s', v = e_vector e ∧ s' = s) He (conj eq_refl eq_refl)))
    as (? & ? & Hrun & -> & ->). exact Hrun.
Qed.
End Labels.

Lemma mark_clear e : deleted e = false → Z.land (l_mark (e_base e)) DELETE_MARK = 0.
Proof. unfold deleted. intros H. by apply negb_false_iff, Z.eqb_eq in H. Qed.

(** Unmarking writes back what marking has changed. *)
Lemma remarked_back s i e c c' D D' s' s'' :
  deleted e = false → remarked s i e (λ m, Z.lor m DELETE_MARK) c D s' →
  remarked s' i (mark_elem e) (λ m, Z.land m (Z.lnot DELETE_MARK)) c' D' s'' →
  c' = deleted_count_ s → D' = deleted_elements_ s → s'' = s.
Proof.
  intros Hd (d & -> & _ & Hback) (d' & -> & Hw & _) -> ->. cbn [mark_elem remark set_list Z.eqb e_base set_mark l_mark] in Hw.
  rewrite unmark_mark in Hw by by apply mark_clear. cbn [layout level0_data_ set_deleted_elements set_deleted_count set_level0_data] in Hw.
  rewrite Hback in Hw. injection Hw as <-. by destruct s.
Qed.

(** On a well-formed index [markDelete] of a live label marks its element, counts it and
    keeps the index well formed; the label then has no data and cannot be marked again, and
    [unmarkDelete] gives back the index as it was, byte for byte.  An unknown label throws
    and changes nothing. *)
Theorem unmark_undoes_mark s es label i e :
  index_ok s es → has es i e → e_label e = label → deleted e = false →
  (∃ s', markDelete label s = Done tt s' ∧ index_ok s' (<[Z.to_nat i := mark_elem e]> es) ∧
    deleted_count_ s' = deleted_count_ s + 1 ∧
    getDataByLabel (data_size_ (layout s)) label s = Done (e_vector e) s ∧
    getDataByLabel (data_size_ (layout s)) label s' = Throw (runtime_error "Label not found") s' ∧
    markDelete label s' = Throw (runtime_error "The requested to delete element is already deleted") s' ∧
    unmarkDelete label s' = Done tt s) ∧
  unmarkDelete label s = Throw (runtime_error "The requested to undelete element is not deleted") s ∧
  ∀ other, label_map_ s !! other = None →
    markDelete other s = Throw (runtime_error "Label not found") s ∧
    unmarkDelete other s = Throw (runtime_error "Label not found") s.
Proof.
  intros Hix He Hl Hd. destruct (mark_deleted_run s es i e Hix He Hd) as (s' & Hrun & Hix' & Hs').
  destruct (has_ok s es (ix_rep _ _ Hix) i e He) as [Hok _]. pose proof (mark_elem_deleted _ _ Hok) as Hd'.
  assert (has (<[Z.to_nat i := mark_elem e]> es) i (mark_elem e)) as He' by (apply (has_insert es i e); [done|by left]).
  destruct (unmark_deleted_run s' _ i (mark_elem e) Hix' He' Hd') as (s'' & Hrun' & _ & Hs'').
  pose proof (find_label_run _ _ Hix' label i (mark_elem e) He' Hl) as Hfind'.
  pose proof (find_label_run _ _ Hix label i e He Hl) as Hfind.
  assert (s'' = s) as ->.
  { destruct Hs' as (d & Heq & Hw). apply (remarked_back s i e _ _ _ _ s' s'' Hd ltac:(by exists d) Hs''); rewrite Heq; cbn; [lia|].
    assert (i ∈ deleted_elements_ s → False) as Hno.
    { intros (_ & f & Hf & Hfd)%(ix_reuse _ _ Hix). rewrite (has_fun _ _ _ _ Hf He) in Hfd. congruence. }
    destruct (reuse_deleted_ s); [set_solver|done]. }
  split_and!; [|unfold unmarkDelete; by rewrite (bind_Done _ _ _ _ _ Hfind), (unmark_unmarked s es Hix i e)
    |intros other Ho; by split; apply find_unknown].
  exists s'. unfold markDelete, unmarkDelete.
  rewrite !(bind_Done _ _ _ _ _ Hfind), !(bind_Done _ _ _ _ _ Hfind'), (data_run s es Hix label i e He Hl), Hd.
  assert (data_size_ (layout s) = data_size_ (layout s') ∧ deleted_count_ s' = deleted_count_ s + 1) as [Hlay Hcount]
    by by destruct Hs' as (d & -> & _).
  rewrite Hlay, (data_run s' _ Hix' label i _ He' Hl), Hd'.
  by split_and!; [| | | | |eapply mark_twice|].
Qed.
