(* ===== verification/HnswUpdate.v ===== *)
(** Updating an element in place: [updatePoint] of src/hnsw/hnsw_scratch/hnsw_core.hpp.

    The vector is overwritten, the links of the neighbours are picked anew among the
    elements one and two hops away, and the element is joined again to what searches from
    the entry find.  This needs a list of candidates that holds something, so
    [efConstruction_] must not be 0. *)

From S2P Require Import Prelude Bytes Memory CxxLib NearestQueue MaxQueue VisitedList Wp Hnsw HnswRep HnswSearch HnswHeuristic HnswGraph HnswDescent HnswIndex HnswInsert.

(** The order in which a set is gone through: each of its elements, once. *)
Definition iterate_ok (iterate : gset Z → list Z) : Prop := ∀ X, iterate X ≡ₚ elements X.

Section Update.
Context {LP : LockPolicy} {Q : Type} `{MaxQueueLaws Q}.
Context (uninit : loc → nat → Z) (uninit_range : ∀ a i, 0 ≤ uninit a i < 2 ^ 16).
Context (distance : list byte → list byte → Z) (dist_max : Z) (iterate : gset Z → list Z) (Hiter : iterate_ok iterate).
Context {s0 : HierarchicalNSW}.
Implicit Types (es : list element) (s : HierarchicalNSW).
Abbreviation ef := (efConstruction_ (layout s0)).

(** ** The links of the neighbours *)

(** An element of the level. *)
Definition at_level es (l i : Z) : Prop := ∃ e, has es i e ∧ l ≤ e_level e.

Lemma wp_getConnections es L h s i e l (Φ : list Z → HierarchicalNSW → Prop) :
  holds s0 es L h s → has es i e → 0 ≤ l ≤ e_level e → i ∉ L →
  (∀ s', holds s0 es L h s' → Φ (links e l) s') → wp (getConnectionsWithLock i l) Φ s.
Proof.
  intros Hh He Hl Hi HΦ. destruct (list_at_level e l Hl) as [ll Hll]. destruct (holds_layout _ _ _ _ _ Hh) as (_ & Hc & _).
  destruct (has_lt s es (ho_rep _ _ _ _ _ Hh) _ _ He). unfold getConnectionsWithLock.
  apply (wp_with_lock Hh); [done|lia|]. intros s1 Hh1. pose proof (holds_list_ok Hh1 _ _ _ _ He Hll) as Hok.
  apply wp_bind, (wp_list Hh1 i e l ll); [done|done|]. apply wp_bind, (wp_count Hh1 i e l ll); [done|done|].
  apply (wp_load_links Hh1 i e l ll He Hll).
  - intros j [_ Hj]%elem_of_seq. destruct Hok. lia.
  - rewrite (stored_slots _ _ Hok). exists es, h. split; [done|]. intros s2 Hh2. unfold links in HΦ. rewrite Hll in HΦ. by apply HΦ.
Qed.

Lemma wp_gather es L h l skip hop : ∀ s st (Φ : gset Z * gset Z → HierarchicalNSW → Prop),
  holds s0 es L h s → graph_at l es → 0 ≤ l → (∀ i, i ∈ hop → at_level es l i ∧ i ∉ L) →
  (∀ i, i ∈ st.1 → at_level es l i) →
  (∀ cs ns s', holds s0 es L h s' → (∀ i, i ∈ cs → at_level es l i) → (∀ i, i ∈ ns → i ∈ st.2 ∨ i ∈ hop) → st.1 ⊆ cs →
    (∀ i, i ∈ ns → i ∈ st.2 ∨ i ∈ cs) → Φ (cs, ns) s') →
  wp (gather l skip hop st) Φ s.
Proof.
  induction hop as [|i hop IH]; intros s [cs ns] Φ Hh Hg Hl Hhop Hst HΦ; cbn [gather fst snd] in *.
  { apply wp_ret, HΦ; auto. }
  destruct (Hhop i) as [(e & He & Hle) HiL]; [by left|]. destruct (skip l i).
  - apply IH; [done|done|done|intros j Hj; apply Hhop; by right|cbn; intros j [->%elem_of_singleton|Hj]%elem_of_union; [by exists e|by apply Hst]|].
    cbn. intros cs' ns' s' Hh' Hcs Hns Hsub Hin. apply HΦ; try done; [|set_solver].
    intros j Hj. destruct (Hns j Hj); [by left|right; by right].
  - apply wp_bind, (wp_getConnections es L h s i e l); [done|done|lia|done|]. intros s1 Hh1.
    destruct (Hg i e He Hle) as [_ Hlk].
    apply IH; [done|done|done|intros j Hj; apply Hhop; by right| |].
    + cbn. intros j [Hj%elem_of_list_to_set|[->%elem_of_singleton|Hj]%elem_of_union]%elem_of_union;
        [by destruct (Hlk j Hj)|by exists e|by apply Hst].
    + cbn. intros cs' ns' s' Hh' Hcs Hns Hsub Hin. apply HΦ; try done.
      * intros j Hj. destruct (Hns j Hj) as [[->%elem_of_singleton|]%elem_of_union|]; [right; by left|by left|right; by right].
      * set_solver.
      * intros j Hj. destruct (Hin j Hj) as [[->%elem_of_singleton|]%elem_of_union|]; [right; set_solver|by left|by right].
Qed.

(** The closest candidates: some of them, each once, and never the element itself. *)
Record chosen es (neighbor keep : Z) (cs : list Z) (T : list entry) : Prop := {
  ch_in : ∀ x, x ∈ T → x.2 ∈ cs ∧ x.2 ≠ neighbor ∧ x.1 = gap distance es neighbor x.2;
  ch_nodup : NoDup (snd <$> T);
  ch_size : Z.of_nat (length T) ≤ keep;
}.

Lemma wp_closest_candidates es L h s neighbor en keep (Hh : holds s0 es L h s) (Hn : has es neighbor en) cs : ∀ pre T (Φ : Q → HierarchicalNSW → Prop),
  1 ≤ keep → (∀ c, c ∈ cs → ∃ e, has es c e) → NoDup (pre ++ cs) → chosen es neighbor keep pre (q_elems T) →
  (∀ T', chosen es neighbor keep (pre ++ cs) (q_elems T') → Φ T' s) →
  wp (closest_candidates distance neighbor keep cs T) Φ s.
Proof.
  induction cs as [|c cs IH]; intros pre T Φ Hkeep Hcs Hnd Hch HΦ; cbn [closest_candidates].
  { apply wp_ret, HΦ. by rewrite app_nil_r. }
  assert (pre ++ c :: cs = (pre ++ [c]) ++ cs) as Happ by by rewrite <- app_assoc. rewrite Happ in *.
  assert (c ∉ pre) as Hc by (rewrite NoDup_app, NoDup_app in Hnd; set_solver).
  assert (∀ T', (∀ x, x ∈ q_elems T' → x ∈ q_elems T ∨ (x = (gap distance es neighbor c, c) ∧ c ≠ neighbor)) →
    NoDup (snd <$> q_elems T') → Z.of_nat (q_size T') ≤ keep → wp (closest_candidates distance neighbor keep cs T') Φ s) as Hgo.
  { intros T' Hin Hnd' Hsz. apply (IH (pre ++ [c])); [done|intros c' Hc'; apply Hcs; by right|done| |done]. split; [|done|done].
    intros x Hx. destruct (Hin x Hx) as [Hx'|[-> Hcn]]; [destruct (ch_in _ _ _ _ _ Hch x Hx') as (? & ? & ?)|]; set_solver. }
  assert (∀ x, x ∈ q_elems T → x.2 ≠ c) as Hfresh.
  { intros x Hx Heq. destruct (ch_in _ _ _ _ _ Hch x Hx) as [Hin _]. by rewrite Heq in Hin. }
  destruct (Z.eqb_spec c neighbor) as [->|Hne]; [by apply Hgo; [auto|apply Hch|apply Hch]|].
  destruct (Hcs c) as [e He]; [by left|].
  apply wp_bind, (wp_distance_between distance Hh _ _ en e); [done|done|].
  assert (∀ T0, (∀ x, x ∈ q_elems T0 → x ∈ q_elems T) → NoDup (snd <$> q_elems T0) →
    NoDup (snd <$> q_elems (q_emplace (gap distance es neighbor c, c) T0))) as Hemp.
  { intros T0 Hsub Hnd0. rewrite elems_emplace. cbn. apply NoDup_cons. split; [|done].
    intros (x & Heq & Hx)%list_elem_of_fmap. by apply (Hfresh x (Hsub x Hx)). }
  destruct (Z.ltb_spec (Z.of_nat (q_size T)) keep) as [Hroom|Hfull].
  - apply Hgo; [|by apply Hemp; [|apply Hch]|rewrite size_emplace; lia]. intros x. rewrite elems_emplace, elem_of_cons. naive_solver.
  - destruct (top_is_Some T) as [t Ht]; [lia|]. rewrite Ht. destruct (top_Some _ _ Ht) as [Hp _]. pose proof (top_size _ _ Ht).
    pose proof (ch_size _ _ _ _ _ Hch) as Hsz. fold (q_size T) in Hsz.
    destruct (_ <? _); [|by apply Hgo; [auto|apply Hch|apply Hch]].
    apply Hgo; [|apply Hemp|rewrite size_emplace; lia].
    + intros x. rewrite elems_emplace, elem_of_cons. intros [->|Hx]; [auto|left; by apply (pop_in _ t)].
    + intros x. by apply (pop_in _ t).
    + pose proof (ch_nodup _ _ _ _ _ Hch) as Hndt. rewrite Hp in Hndt. by apply NoDup_cons in Hndt as [_ ?].
Qed.

(** The links of a neighbour are written anew. *)
Lemma wp_relink es L h s l cs neighbor (Φ : unit → HierarchicalNSW → Prop) :
  holds s0 es L h s → 0 < ef → 0 ≤ l → graph_at l es → at_level es l neighbor → neighbor ∉ L →
  (∀ i, i ∈ cs → at_level es l i) → (∃ i, i ∈ cs ∧ i ≠ neighbor) →
  (∀ es' s', holds s0 es' L h s' → evolves l es es' → graph_at l es' → Φ tt s') →
  wp (relink distance iterate l cs neighbor) Φ s.
Proof.
  intros Hh Hef Hl Hg (en & Hn & Hle) HnL Hcs (i0 & Hi0 & Hne0) HΦ. unfold relink.
  destruct (holds_layout _ _ _ _ _ Hh) as (Hlay & Hcap & _). destruct (list_at_level en l) as [ll Hll]; [lia|].
  destruct (max_at_range l es s Hh) as [Hmax HM]. pose proof (rep_layout _ _ (ho_rep _ _ _ _ _ Hh)) as Hlo.
  apply wp_bind, wp_gets. rewrite Hlay. set (keep := Z.min ef _).
  assert (1 ≤ keep) as Hkeep.
  { unfold keep. case_decide as Hin.
    - pose proof (subseteq_size ({[i0]} ∪ {[neighbor]}) cs ltac:(set_solver)) as Hsz.
      rewrite size_union, !size_singleton in Hsz by set_solver. lia.
    - pose proof (subseteq_size {[i0]} cs ltac:(set_solver)) as Hsz. rewrite size_singleton in Hsz. lia. }
  assert (∀ c, c ∈ iterate cs ↔ c ∈ cs) as Hit by (intros c; by rewrite (Hiter cs), elem_of_elements).
  apply wp_bind, (wp_closest_candidates es L h s neighbor en keep Hh Hn (iterate cs) [] q_empty); [done| | |split; rewrite elems_empty; cbn; [by intros x ?%elem_of_nil|constructor|lia]|].
  { intros c Hc%Hit. destruct (Hcs c Hc) as (e & ? & _). by exists e. }
  { cbn. rewrite (Hiter cs). apply NoDup_elements. }
  cbn [app]. intros T HT. change (if l =? 0 then max_M0_ (layout s0) else max_M_ (layout s0)) with (max_at (layout s0) l).
  apply wp_bind, (wp_heuristic distance Hh); [lia| |].
  { intros x Hx. destruct (ch_in _ _ _ _ _ HT x Hx) as [Hx' _]. apply Hit in Hx'. destruct (Hcs _ Hx') as (e & ? & _). by exists e. }
  intros T' Hpick. set (ns := snd <$> q_drain T').
  assert (ns ⊆+ (snd <$> q_elems T)) as Hsub.
  { unfold ns. rewrite (proj1 (drain_spec T')). by apply fmap_submseteq, (picked_subset _ _ _ _ Hpick). }
  assert (Z.of_nat (length ns) = Z.of_nat (q_size T') ∧ Z.of_nat (length ns) ≤ max_at (layout s0) l) as [Hlen Hlenmax].
  { unfold ns. rewrite length_fmap, length_drain. split; [done|]. apply picked_size in Hpick; [unfold q_size; lia|lia]. }
  assert (∀ n, n ∈ ns → n ≠ neighbor ∧ at_level es l n) as Hns.
  { intros n Hin. apply (elem_of_submseteq _ _ _ Hin) in Hsub. apply list_elem_of_fmap in Hsub as (x & -> & Hx).
    destruct (ch_in _ _ _ _ _ HT x Hx) as (Hx' & ? & _). split; [done|]. by apply Hcs, Hit. }
  destruct (has_lt s es (ho_rep _ _ _ _ _ Hh) _ _ Hn).
  apply (wp_with_lock Hh); [done|lia|]. intros s1 Hh1. apply wp_bind, (wp_list Hh1 neighbor en l ll); [done|done|].
  rewrite <- Hlen. apply wp_bind, (wp_set_count Hh1 neighbor en l ll); [done|done|lia|]. intros s2 Hh2.
  pose proof (holds_list_ok Hh1 _ _ _ _ Hn Hll) as Hok.
  apply (wp_store_links neighbor l ns 0 _ (set_list l (set_count (Z.of_nat (length ns)) ll) en) (set_count (Z.of_nat (length ns)) ll) s2 _ Hh2);
    [by apply (has_insert es neighbor en); [|left]|by eapply list_at_set|destruct Hok; cbn; lia| |].
  { apply Forall_forall. intros n Hin. destruct (Hns n Hin) as (_ & e & He & _). by eapply (has_id _ es s). }
  rewrite list_insert_insert_eq, set_set. change (put_slots 0 ns (set_count (Z.of_nat (length ns)) ll)) with (new_links ns ll).
  intros s3 Hh3. eexists _, h. split; [exact Hh3|]. intros s4 Hh4.
  assert (same_but l en (set_list l (new_links ns ll) en)) as Hsb by by apply (set_same_but l ll).
  pose proof (evolves_insert _ _ _ _ _ Hn Hsb) as Hev. apply (HΦ _ s4 Hh4); [done|].
  assert (∀ j, at_level es l j → at_level (<[Z.to_nat neighbor := set_list l (new_links ns ll) en]> es) l j) as Hat.
  { intros j (f & Hf & Hfl). destruct (evolves_has _ _ _ _ _ Hev Hf) as (f' & Hf' & [_ _ Hlev _ _]). exists f'. split; [done|]. unfold e_level in *. lia. }
  intros i e' He' Hle'. apply (has_insert es neighbor en) in He' as [[-> ->]|[Hne He']]; [| |done].
  - unfold links. rewrite (list_at_set l ll), stored_new_links by (done || destruct Hok; lia). split.
    + eapply NoDup_sub; [exact Hsub|]. apply (ch_nodup _ _ _ _ _ HT).
    + intros j Hj. destruct (Hns j Hj). split; [done|by apply Hat].
  - destruct (Hg i e' He' Hle') as [Hnd Hlk]. split; [done|]. intros j Hj. destruct (Hlk j Hj). split; [done|by apply Hat].
Qed.

Lemma at_level_shapes es es' l i : shapes es es' → at_level es l i → at_level es' l i.
Proof. intros Hs (e & He & Hl). destruct (shapes_has _ _ _ _ Hs He) as (e' & ? & [_ _ Hlev _]). exists e'. split; [done|lia]. Qed.

Lemma wp_relink_all L h l cs ns : ∀ es s (Φ : unit → HierarchicalNSW → Prop),
  holds s0 es L h s → 0 < ef → 0 ≤ l → graph_at l es → (∀ i, i ∈ cs → at_level es l i) →
  (∀ n, n ∈ ns → at_level es l n ∧ n ∉ L ∧ ∃ i, i ∈ cs ∧ i ≠ n) →
  (∀ es' s', holds s0 es' L h s' → evolves l es es' → graph_at l es' → Φ tt s') →
  wp (relink_all distance iterate l cs ns) Φ s.
Proof.
  induction ns as [|n ns IH]; intros es s Φ Hh Hef Hl Hg Hcs Hns HΦ; cbn [relink_all]; [by apply wp_ret, (HΦ es)|].
  destruct (Hns n) as (Hn & HnL & Hother); [by left|]. apply wp_bind, (wp_relink es L h s l cs n); try done.
  intros es1 s1 Hh1 Hev1 Hg1. pose proof (evolves_shapes _ _ _ Hev1) as Hsh. apply (IH es1); try done.
  - intros i Hi. by eapply at_level_shapes, Hcs.
  - intros m Hm. destruct (Hns m) as (? & ? & ?); [by right|]. split_and!; [by eapply at_level_shapes|done|done].
  - intros es2 s2 Hh2 Hev2 Hg2. apply (HΦ es2); [done|by etrans|done].
Qed.

Lemma evolves_graph_ok l es es' : evolves l es es' → graph_ok es → graph_at l es' → graph_ok es'.
Proof.
  intros Hev Hg Hgl l' Hl'. destruct (decide (l' = l)) as [->|Hne]; [done|]. by apply (evolves_graph l l' es); [| |apply Hg].
Qed.

Lemma wp_update_layers skip i layers h : ∀ es s (Φ : unit → HierarchicalNSW → Prop),
  holds s0 es ∅ h s → 0 < ef → graph_ok es → (∀ l, l ∈ layers → 0 ≤ l ∧ at_level es l i) →
  (∀ es' s', holds s0 es' ∅ h s' → shapes es es' → graph_ok es' → Φ tt s') →
  wp (update_layers distance iterate skip i layers) Φ s.
Proof.
  induction layers as [|l layers IH]; intros es s Φ Hh Hef Hg Hlay HΦ; cbn [update_layers]; [by apply wp_ret, (HΦ es)|].
  destruct (Hlay l) as (Hl & e & He & Hle); [by left|]. destruct (Hg l Hl i e He Hle) as [_ Hlk].
  apply wp_bind, (wp_getConnections es ∅ h s i e l); [done|done|lia|set_solver|]. intros s1 Hh1.
  assert (∀ es1 s2, holds s0 es1 ∅ h s2 → evolves l es es1 → graph_at l es1 → wp (update_layers distance iterate skip i layers) Φ s2) as Hgo.
  { intros es1 s2 Hh2 Hev Hgl. pose proof (evolves_shapes _ _ _ Hev) as Hsh. apply (IH es1); [done|done|by eapply evolves_graph_ok| |].
    - intros l' Hin. destruct (Hlay l') as (? & ?); [by right|]. split; [done|by eapply at_level_shapes].
    - intros es2 s3 Hh3 Hsh3 Hg3. apply (HΦ es2); [done|by etrans|done]. }
  apply wp_bind. case_decide as Hnil; [by apply wp_ret, (Hgo es); [| |apply Hg]|].
  apply wp_bind, (wp_gather es ∅ h l skip (links e l)); [done|by apply Hg|done| | |].
  - intros j Hj. destruct (Hlk j Hj) as (_ & ?). split; [done|set_solver].
  - cbn. intros j ->%elem_of_singleton. by exists e.
  - cbn. intros cs ns s2 Hh2 Hcs Hns Hsub _. apply (wp_relink_all ∅ h l cs (iterate ns) es); [done|done|done|by apply Hg|done| |done].
    intros n Hn. rewrite (Hiter ns), elem_of_elements in Hn. destruct (Hns n Hn) as [?|Hin]; [set_solver|].
    destruct (Hlk n Hin) as [Hni Hat]. split_and!; [done|set_solver|]. exists i. split; [set_solver|congruence].
Qed.

(** ** Joining the element again *)
Section Repair.
Context (fuel : nat) (dp : list byte) (i ep : Z).

(** The candidates without the element itself, and the entry if it is marked deleted. *)
Lemma filtered_elems (T : Q) : q_elems (q_fill (filter (λ p : entry, p.2 ≠ i) (q_drain T)) q_empty) ≡ₚ filter (λ p : entry, p.2 ≠ i) (q_elems T).
Proof. rewrite elems_fill, elems_empty, app_nil_r. by rewrite (proj1 (drain_spec T)). Qed.

Record repairing (l : Z) es (obj : Z) s : Prop := {
  rp_holds : holds s0 es ∅ ∅ s;
  rp_graph : graph_ok es;
  rp_elem : ∃ e, has es i e ∧ l ≤ e_level e ∧ deleted e = false;
  rp_obj : at_level es l obj;
  rp_entry : at_level es l ep;
}.

Lemma repairing_joined l es es' obj obj' cands s s' :
  0 ≤ l → repairing l es obj s → NoDup (snd <$> cands) → (∀ x, x ∈ cands → x.2 ≠ i ∧ at_level es l x.2) →
  joined distance (s0 := s0) l i cands obj' es es' → holds s0 es' ∅ ∅ s' → repairing (l - 1) es' obj' s' ∧ shapes es es'.
Proof.
  intros Hl [Hh Hg (e & He & Hle & Hd) _ Hep] Hnd Hcands Hjoin Hh'.
  pose proof (joined_graph distance l i cands obj' es es' s e Hh (Hg l Hl) He ltac:(lia) Hnd Hcands Hjoin) as Hgl.
  destruct Hjoin as (Hev & order & Hpick & _ & Hlast & _). pose proof (evolves_shapes _ _ _ Hev) as Hsh.
  assert (∀ j, at_level es l j → at_level es' (l - 1) j) as Hat.
  { intros j Hj. destruct (at_level_shapes _ _ _ _ Hsh Hj) as (f & ? & ?). exists f. split; [done|lia]. }
  split; [|done]. split; [done|by eapply evolves_graph_ok| | |by apply Hat].
  - destruct (shapes_has _ _ _ _ Hsh He) as (e' & He' & [_ _ Hlev Hm]). exists e'. split_and!; [done|lia|congruence].
  - apply last_Some_elem_of, (elem_of_submseteq _ (snd <$> cands)) in Hlast; [|by apply fmap_submseteq, (picked_subset _ _ _ _ Hpick)].
    apply list_elem_of_fmap in Hlast as (x & -> & Hx). by apply Hat, Hcands.
Qed.

Lemma wp_repair_levels hi : -1 ≤ hi → ∀ es obj s (Φ : unit → HierarchicalNSW → Prop),
  repairing hi es obj s → 0 < ef → (length es < fuel)%nat →
  (∀ es' s', holds s0 es' ∅ ∅ s' → shapes es es' → graph_ok es' → Φ tt s') →
  wp (repair_levels uninit distance dist_max fuel dp ep i (levels_down hi 0) obj) Φ s.
Proof.
  intros Hhi. pattern hi. apply (levels_down_ind _ 0); [| |lia]; clear hi Hhi.
  { intros es obj s Φ [] _ _ HΦ. rewrite levels_down_nil by lia. by apply wp_ret, (HΦ es). }
  intros hi Hle IH es obj s Φ Hrp Hef Hfuel HΦ. rewrite levels_down_cons by done. cbn [repair_levels].
  pose proof Hrp as [Hh Hg (e & He & Hlee & Hd) (eo & Heo & Hlo) (ee & Hee & Hlep)].
  apply wp_bind, (wp_searchBaseLayer distance es hi obj dp ef ltac:(lia) uninit uninit_range dist_max s0 ∅ ∅); [done|done| |done|done|].
  { intros j Hj. split; [set_solver|]. by apply (reach_graph es hi obj eo (Hg hi Hle) Heo Hlo j). }
  intros Top s1 Hfound Hh1. set (F := q_fill _ q_empty). pose proof (filtered_elems Top) as HF. fold F in HF.
  assert (∀ x, x ∈ q_elems F → x.2 ≠ i ∧ at_level es hi x.2) as HinF.
  { intros x. rewrite HF, list_elem_of_filter. intros [Hx Hin]. split; [done|].
    destruct (f_elem _ _ _ _ _ _ _ Hfound x Hin) as [Hr _]. by apply (reach_graph es hi obj eo (Hg hi Hle) Heo Hlo). }
  assert (NoDup (snd <$> q_elems F)) as HndF.
  { eapply NoDup_sub; [|apply (f_nodup _ _ _ _ _ _ _ Hfound)]. apply fmap_submseteq. rewrite HF. apply sublist_submseteq, sublist_filter. }
  assert (∀ es' obj' s', repairing (hi - 1) es' obj' s' → shapes es es' →
    wp (repair_levels uninit distance dist_max fuel dp ep i (levels_down (hi - 1) 0) obj') Φ s') as Hgo.
  { intros es' obj' s' Hrp' Hsh. apply (IH es'); [done|done|by rewrite <- (Forall2_length _ _ _ Hsh)|].
    intros es2 s2 Hh2 Hsh2 Hg2. apply (HΦ es2); [done|by etrans|done]. }
  apply wp_bind. destruct (Nat.ltb_spec 0 (q_size F)) as [Hpos|Hnone].
  2: { apply wp_ret, (Hgo es); [|reflexivity]. split; [done|done|exists e; split_and!; [done|lia|done]|exists eo; split; [done|lia]|exists ee; split; [done|lia]]. }
  apply wp_bind, (wp_deleted Hh1 ep ee); [done|]. apply wp_bind.
  assert (∀ F' s2, holds s0 es ∅ ∅ s2 → q_elems F' ≠ [] → NoDup (snd <$> q_elems F') → (∀ x, x ∈ q_elems F' → x.2 ≠ i ∧ at_level es hi x.2) →
    wp (mutuallyConnectNewElement distance i F' hi true)
      (λ a, wp (repair_levels uninit distance dist_max fuel dp ep i (levels_down (hi - 1) 0) a) Φ) s2) as Hconn.
  { intros F' s2 Hh2 Hne Hnd Hin. destruct (list_at_level e hi) as [ll Hll]; [lia|].
    apply (wp_mutuallyConnect distance hi true i F' es s2 e ll _ Hh2); [by apply Hg|done|done|lia|set_solver|done|done| |].
    - intros x Hx. destruct (Hin x Hx). split_and!; [done|set_solver|done].
    - intros obj' es' s3 Hjoin Hh3. destruct (repairing_joined hi es es' obj obj' (q_elems F') s s3) as [Hrp' Hsh]; try done.
      by apply (Hgo es'). }
  destruct (deleted ee) eqn:Edel.
  - apply wp_bind. eapply wp_mono; [by apply (wp_distance_to distance es dp _ _ _ s1 ep ee (λ d s', s' = s1) Hh1)|].
    intros d s2 ->. apply wp_bind, wp_conf. rewrite (proj1 (holds_layout _ _ _ _ _ Hh1)).
    assert (Z.of_nat (q_size F) ≤ Z.max 1 ef) as HszF.
    { pose proof (f_size _ _ _ _ _ _ _ Hfound). unfold q_size. rewrite HF.
      pose proof (length_filter (λ p : entry, p.2 ≠ i) (q_elems Top)). lia. }
    destruct (with_entry_spec (s0 := s0) ep d F Hef HszF) as [Hne Hsub]. unfold with_entry in Hne, Hsub.
    assert (ep ≠ i) as Hepi by (intros ->; rewrite (has_fun _ _ _ _ He Hee) in Hd; congruence).
    apply wp_ret, Hconn; [done|done| |].
    + eapply NoDup_sub; [by apply fmap_submseteq|]. cbn. apply NoDup_cons. split; [|done].
      intros (x & Heq & Hx)%list_elem_of_fmap. rewrite HF in Hx. apply list_elem_of_filter in Hx as [_ Hx].
      destruct (f_elem _ _ _ _ _ _ _ Hfound x Hx) as (_ & f & Hf & Hfd & _). rewrite <- Heq in Hf.
      rewrite (has_fun _ _ _ _ Hf Hee) in Hfd. congruence.
    + intros x Hx. apply (elem_of_submseteq _ _ _ Hx) in Hsub. apply elem_of_cons in Hsub as [->|Hx']; [|by apply HinF].
      split; [done|]. by exists ee.
  - apply wp_ret, Hconn; [done| |done|done]. intros Hnil. unfold q_size in Hpos. rewrite Hnil in Hpos. cbn in Hpos. lia.
Qed.

Lemma wp_repair es s e lv mx (Φ : unit → HierarchicalNSW → Prop) :
  holds s0 es ∅ ∅ s → graph_ok es → has es i e → e_level e = lv → deleted e = false → 0 < ef → (length es < fuel)%nat →
  (∃ ee, has es ep ee ∧ e_level ee = mx) → lv ≤ mx →
  (∀ es' s', holds s0 es' ∅ ∅ s' → shapes es es' → graph_ok es' → Φ tt s') →
  wp (repairConnectionsForUpdate uninit distance dist_max fuel dp ep i lv mx) Φ s.
Proof.
  intros Hh Hg He Hlv Hd Hef Hfuel (ee & Hee & Hmx) Hle HΦ. unfold repairConnectionsForUpdate.
  assert (0 ≤ lv) as Hlv0 by (rewrite <- Hlv; unfold e_level; lia).
  apply wp_bind. eapply (wp_mono _ (λ obj s', holds s0 es ∅ ∅ s' ∧ at_level es lv obj)).
  { destruct (Z.ltb_spec lv mx) as [Hlt|Hge]; [|apply wp_ret; split; [done|exists ee; split; [done|lia]]].
    apply wp_bind. eapply wp_mono; [by apply (wp_distance_to distance es dp _ _ _ s ep ee (λ d s', d = away distance dp ee ∧ s' = s) Hh)|].
    intros d s1 [-> ->]. apply wp_bind.
    apply (wp_descend distance es dp fuel Hfuel false (lv + 1) mx ep ee s _ ltac:(lia) ltac:(lia) Hh); [done|lia|lia|set_solver| |].
    - intros l Hl. split; [apply Hg; lia|]. set_solver.
    - intros j f s2 Hf Hfl _ _ Hh2. apply wp_ret. split; [done|]. exists f. split; [done|lia]. }
  intros obj s1 [Hh1 Hobj]. apply wp_bind, wp_throw_if; [apply Z.ltb_ge; lia|].
  apply (wp_repair_levels lv ltac:(lia) es); [|done|done|done]. split; [done|done|exists e; split_and!; [done|lia|done]|done|].
  exists ee. split; [done|lia].
Qed.
End Repair.

(** ** The whole *)
Definition set_vector (v : list byte) (e : element) : element := mkElem (e_base e) v (e_label e) (e_upper e).

Lemma set_vector_graph es i e v : has es i e → graph_ok es → graph_ok (<[Z.to_nat i := set_vector v e]> es).
Proof.
  intros He Hg l Hl.
  assert (∀ j, at_level es l j → at_level (<[Z.to_nat i := set_vector v e]> es) l j) as Hat.
  { intros j (f & Hf & Hfl). destruct (decide (j = i)) as [->|Hne].
    - rewrite (has_fun _ _ _ _ Hf He) in Hfl. exists (set_vector v e). split; [|done]. apply (has_insert es i e); [done|by left].
    - exists f. split; [|done]. apply (has_insert es i e); [done|by right]. }
  intros j f Hf Hle. apply (has_insert es i e) in Hf as [[-> ->]|[Hne Hf]]; [| |done].
  - destruct (Hg l Hl i e He Hle) as [Hnd Hlk]. split; [done|]. intros k Hk. destruct (Hlk k Hk). split; [done|by apply Hat].
  - destruct (Hg l Hl j f Hf Hle) as [Hnd Hlk]. split; [done|]. intros k Hk. destruct (Hlk k Hk). split; [done|by apply Hat].
Qed.

Lemma wp_copy_vector es s i e dp (Φ : unit → HierarchicalNSW → Prop) :
  holds s0 es ∅ ∅ s → has es i e → data_size_ (layout s0) ≤ Z.of_nat (length dp) →
  let v := take (Z.to_nat (data_size_ (layout s0))) dp in
  (∀ s', holds s0 (<[Z.to_nat i := set_vector v e]> es) ∅ ∅ s' → Φ tt s') → wp (copy_vector i dp) Φ s.
Proof.
  intros Hh He Hdp v HΦ. destruct (holds_layout _ _ _ _ _ Hh) as (Hlay & _). pose proof Hh as [Hf Hrep Hlk Hp].
  pose proof (rep_layout _ _ Hrep) as Hl. rewrite Hlay in Hl. destruct (holds_ok Hh i e He) as [Hok _].
  assert (length v = length (e_vector e)) as Hv by (unfold v; rewrite length_take; pose proof (eo_vector _ _ Hok); lia).
  unfold copy_vector. apply wp_bind, wp_conf. rewrite Hlay.
  replace (read_mem (data_size_ (layout s0)) 0 dp) with (Some v) by (unfold read_mem; rewrite decide_True by (destruct Hl; lia); done).
  unfold getDataByInternalId. apply wp_bind.
  eapply wp_run; [apply (element_run s es Hrep i e _ He); rewrite Hlay; destruct Hl; lia|]. cbn beta.
  destruct (store_elem s es i e (set_vector v e) (enc_links (e_base e)) (e_vector e) v (le_bytes 8 (e_label e)) Hrep He)
    as (d & Hrun & Hrep'); try done.
  { rewrite Hlay. destruct Hok. split; try done. cbn. by rewrite Hv. }
  rewrite (length_enc_links _ _ (eo_base _ _ Hok)) in Hrun. rewrite Hlay in Hrun |- *.
  rewrite (lo_data _ _ Hl), (lo_stride0 _ _ Hl). eapply wp_run; [exact Hrun|]. apply HΦ. by split; [rewrite Hf| | |].
Qed.

Lemma wp_updatePoint es s i e fuel dp skip (Φ : unit → HierarchicalNSW → Prop) :
  holds s0 es ∅ ∅ s → graph_ok es → has es i e → deleted e = false → entry_ok es (entry_id_ s0) (max_level_ s0) →
  0 < ef → data_size_ (layout s0) ≤ Z.of_nat (length dp) → (length es < fuel)%nat →
  let v := take (Z.to_nat (data_size_ (layout s0))) dp in
  (∀ es' s', holds s0 es' ∅ ∅ s' → shapes (<[Z.to_nat i := set_vector v e]> es) es' → graph_ok es' → Φ tt s') →
  wp (updatePoint uninit distance dist_max iterate fuel dp i skip) Φ s.
Proof.
  intros Hh Hg He Hd Hent Hef Hdp Hfuel v HΦ. unfold updatePoint. apply wp_bind, (wp_copy_vector es s i e dp); [done|done|done|].
  fold v. set (e1 := set_vector v e). set (es1 := <[Z.to_nat i := e1]> es). intros s1 Hh1.
  pose proof (set_vector_graph es i e v He Hg) as Hg1. fold e1 es1 in Hg1.
  assert (has es1 i e1) as He1 by (apply (has_insert es i e); [done|by left]).
  apply wp_bind, wp_gets. apply wp_bind, wp_gets. apply wp_bind, wp_gets. rewrite (ho_frame _ _ _ _ _ Hh1). cbn.
  rewrite <- (ho_frame _ _ _ _ _ Hh1).
  destruct (_ && _); [apply wp_ret, (HΦ es1); [done|reflexivity|done]|].
  apply wp_bind, (wp_level_of Hh1 i e1); [done|]. assert (es ≠ []) as Hne by (intros ->; by destruct He).
  apply entry_ok_has in Hent as [(ee & Hee & Hle) Hmax]; [|done].
  apply wp_bind, (wp_update_layers skip i _ ∅ es1 s1); [done|done|done| |].
  { intros l Hl. rewrite list_elem_of_In, <- in_rev, <- list_elem_of_In in Hl. unfold levels_down in Hl. apply list_elem_of_fmap in Hl as (n & -> & Hn%elem_of_seq).
    split; [lia|]. exists e1. split; [done|lia]. }
  intros es2 s2 Hh2 Hsh2 Hg2. destruct (shapes_has _ _ _ _ Hsh2 He1) as (e2 & He2 & [_ _ Hlev2 Hm2]).
  apply (wp_repair fuel dp i (entry_id_ s0) es2 s2 e2); [done|done|done|done|by rewrite Hm2|done| | | |].
  - rewrite <- (Forall2_length _ _ _ Hsh2). unfold es1. by rewrite length_insert.
  - assert (∃ f, has es1 (entry_id_ s0) f ∧ e_level f = max_level_ s0) as (f & Hf & Hfl).
    { destruct (decide (entry_id_ s0 = i)) as [Heq|Hne'].
      - exists e1. rewrite Heq in Hee |- *. rewrite <- (has_fun _ _ _ _ He Hee) in Hle. done.
      - exists ee. split; [|done]. apply (has_insert es i e); [done|by right]. }
    destruct (shapes_has _ _ _ _ Hsh2 Hf) as (f2 & Hf2 & [_ _ Hl2 _]). exists f2. split; [done|congruence].
  - apply (Hmax i e He).
  - intros es3 s3 Hh3 Hsh3 Hg3. apply (HΦ es3); [done|by etrans|done].
Qed.
End Update.
