(* ===== verification/HnswFile.v ===== *)
(** The operations of src/hnsw/hnsw_scratch/hnsw_core.hpp on the index as a whole: its
    growth, the file it is kept in and the check of its links.

    A file is its bytes.  An input stream has a position, which may be behind the end of
    the file, and fails for good when less is read than asked for; [input.clear()] makes
    it good again.  The state a failed load leaves behind is kept, as the caller may
    catch the exception. *)

From S2P Require Import Prelude Bytes Memory CxxLib NearestQueue MaxQueue VisitedList Hnsw.

Section File.
Context {LP : LockPolicy}.
Context (uninit : loc → nat → Z) (malloc : Z → option memory).

(** *** Resizing *)

(** [realloc]: the bytes of the old block, then what the allocator left there. *)
Definition realloc (old : memory) (n : Z) : option memory :=
  b ← malloc n; Some (take (Z.to_nat n) old ++ drop (length old) b).

(** [vector::resize], and an array of [n] made from an old one. *)
Definition resized {A} (n : Z) (x : A) (l : list A) : list A := resize (Z.to_nat n) x l.

Definition make_pool (n : Z) : MH unit := λ s,
  match pool_new uninit 1 n with Done _ p => Done tt (set_visited_pool p s) | _ => Stuck end.

Definition resizeIndex (new_max_elements : Z) : MH unit :=
  n ← gets element_count_;
  throw_if (new_max_elements <? n) "Cannot resize, max element is less than the current number of elements" ;;
  make_pool new_max_elements ;;
  modify (λ s, set_link_locks ∅ (set_element_levels (resized new_max_elements 0 (element_levels_ s)) s)) ;;
  stride ← conf element_stride_;
  level0 ← gets level0_data_;
  match realloc level0 (size_mul new_max_elements stride) with
  | None => throw (runtime_error "Not enough memory: resizeIndex failed to allocate base layer")
  | Some level0 =>
      modify (set_level0_data level0) ;;
      match malloc (size_mul 8 new_max_elements) with
      | None => throw (runtime_error "Not enough memory: resizeIndex failed to allocate other layers")
      | Some _ =>
          modify (λ s, set_capacity new_max_elements (set_link_blocks (resized new_max_elements None (link_blocks_ s)) s))
      end
  end.

(** *** The index file *)

(** The bytes of an element's link block that go to the file: [unsigned int]. *)
Definition list_size (i : nat) : MH Z :=
  level ← level_of (Z.of_nat i);
  stride ← conf link_stride_;
  mret (if 0 <? level then wrapu 32 (size_mul stride level) else 0).

Fixpoint lists_size (ids : list nat) (size : Z) : MH Z :=
  match ids with
  | [] => mret size
  | i :: ids' => n ← list_size i; lists_size ids' (size_add (size_add size 4) n)
  end.

Definition indexFileSize : MH Z :=
  n ← gets element_count_;
  stride ← conf element_stride_;
  lists_size (seq 0 (Z.to_nat n)) (size_add 96 (size_mul n stride)).

Definition index_header (s : HierarchicalNSW) : list byte :=
  let l := layout s in
  writeBinaryPOD 8 (link0_offset_ l) ++ writeBinaryPOD 8 (capacity_ s) ++ writeBinaryPOD 8 (element_count_ s) ++
  writeBinaryPOD 8 (element_stride_ l) ++ writeBinaryPOD 8 (label_offset_ l) ++ writeBinaryPOD 8 (data_offset_ l) ++
  writeBinaryPOD 4 (max_level_ s) ++ writeBinaryPOD 4 (entry_id_ s) ++ writeBinaryPOD 8 (max_M_ l) ++
  writeBinaryPOD 8 (max_M0_ l) ++ writeBinaryPOD 8 (M_ l) ++ writeBinaryPOD 8 (efSearch_ l) ++
  writeBinaryPOD 8 (efConstruction_ l).

Fixpoint save_lists (ids : list nat) : MH (list byte) :=
  match ids with
  | [] => mret []
  | i :: ids' =>
      n ← list_size i;
      bs ← (if n =? 0 then mret [] else load n (Upper (Z.of_nat i) 0));
      rest ← save_lists ids';
      mret (writeBinaryPOD 4 n ++ bs ++ rest)
  end.

(** The bytes of the file. *)
Definition saveIndex : MH (list byte) :=
  header ← gets index_header;
  n ← gets element_count_;
  stride ← conf element_stride_;
  level0 ← load (size_mul n stride) (Level0 0);
  lists ← save_lists (seq 0 (Z.to_nat n));
  mret (header ++ level0 ++ lists).

(** *** Loading *)

Record ifstream := mkIn { contents : list byte; position : Z; good : bool }.

Definition tellg (input : ifstream) : Z := if good input then position input else -1.

(** [seekg(off, cur)]: [off] is signed. *)
Definition seek_cur (off : Z) (input : ifstream) : ifstream :=
  if good input then
    let p := position input + wraps 64 off in
    if 0 <=? p then mkIn (contents input) p true else mkIn (contents input) (position input) false
  else input.

(** [read] over an object that holds [old]: what is left of the file. *)
Definition read_stream (old : list byte) (input : ifstream) : list byte * ifstream :=
  if good input then
    let left := drop (Z.to_nat (position input)) (contents input) in
    (fst (read_over left old),
     mkIn (contents input) (position input + Z.of_nat (Nat.min (length old) (length left)))
       (length old <=? length left)%nat)
  else (old, input).

Definition readPOD (n : nat) (old : Z) (input : ifstream) : Z * ifstream :=
  let (bs, input) := read_stream (le_bytes n old) input in (le_val bs, input).

(** [read] of [n] bytes to the front of a block. *)
Definition read_block (n : Z) (block : memory) (input : ifstream) : MH (memory * ifstream) :=
  if good input then
    let left := drop (Z.to_nat (position input)) (contents input) in
    let bs := take (Z.to_nat n) left in
    match write_mem 0 bs block with
    | Some block =>
        mret (block, mkIn (contents input) (position input + Z.of_nat (length bs)) (length bs =? Z.to_nat n)%nat)
    | None => undef
    end
  else mret (block, input).

(** The members the header of the file sets.  [capacity] is the capacity asked for, or
    the one in the file when that is too small. *)
Definition read_header (data_size capacity_i : Z) (input : ifstream) : MH ifstream :=
  s ← get;
  let l := layout s in
  let '(link0_offset, input) := readPOD 8 (link0_offset_ l) input in
  let '(file_capacity, input) := readPOD 8 (capacity_ s) input in
  let '(element_count, input) := readPOD 8 (element_count_ s) input in
  let capacity := if capacity_i <? element_count then file_capacity else capacity_i in
  let '(element_stride, input) := readPOD 8 (element_stride_ l) input in
  let '(label_offset, input) := readPOD 8 (label_offset_ l) input in
  let '(data_offset, input) := readPOD 8 (data_offset_ l) input in
  let '(max_level, input) := readPOD 4 (max_level_ s) input in
  let '(entry_id, input) := readPOD 4 (entry_id_ s) input in
  let '(max_M, input) := readPOD 8 (max_M_ l) input in
  let '(max_M0, input) := readPOD 8 (max_M0_ l) input in
  let '(M, input) := readPOD 8 (M_ l) input in
  let '(efSearch, input) := readPOD 8 (efSearch_ l) input in
  let '(efConstruction, input) := readPOD 8 (efConstruction_ l) input in
  modify (λ s, set_layout (mkLayout M max_M max_M0 efConstruction efSearch element_stride link0_offset
      (link0_stride_ l) data_offset data_size label_offset (link_stride_ l))
    (set_capacity capacity (set_element_count element_count
      (set_max_level (wraps 32 max_level) (set_entry_id entry_id s))))) ;;
  mret input.

(** The first pass over the link lists: their sizes must lead to the end of the file.  A
    size that could not be read is not used, as the stream has failed. *)
Fixpoint skip_lists (n : nat) (total_filesize : Z) (input : ifstream) : MH ifstream :=
  match n with
  | O => mret input
  | S n' =>
      throw_if ((tellg input <? 0) || (total_filesize <=? tellg input)) "Index seems to be corrupted or unsupported" ;;
      let '(size, input) := readPOD 4 0 input in
      skip_lists n' total_filesize (if size =? 0 then input else seek_cur size input)
  end.

(** An element's link block, and its level from the block's size. *)
Definition load_list (i : nat) (size : Z) (input : ifstream) : MH ifstream :=
  levels ← gets element_levels_;
  blocks ← gets link_blocks_;
  if size =? 0 then
    match set_at (Z.of_nat i) 0 levels, set_at (Z.of_nat i) None blocks with
    | Some levels, Some blocks => modify (λ s, set_link_blocks blocks (set_element_levels levels s)) ;; mret input
    | _, _ => undef
    end
  else
    stride ← conf link_stride_;
    if stride =? 0 then undef
    else
      match set_at (Z.of_nat i) (wraps 32 (size / stride)) levels with
      | None => undef
      | Some levels =>
          modify (set_element_levels levels) ;;
          match malloc size with
          | None =>
              match set_at (Z.of_nat i) None blocks with
              | Some blocks =>
                  modify (set_link_blocks blocks) ;;
                  throw (runtime_error "Not enough memory: loadIndex failed to allocate linklist")
              | None => undef
              end
          | Some block =>
              '(block, input) ← read_block size block input;
              match set_at (Z.of_nat i) (Some block) blocks with
              | Some blocks => modify (set_link_blocks blocks) ;; mret input
              | None => undef
              end
          end
      end.

Fixpoint load_lists (ids : list nat) (input : ifstream) : MH ifstream :=
  match ids with
  | [] => mret input
  | i :: ids' =>
      label ← getExternalLabel (Z.of_nat i);
      modify (λ s, set_label_map (<[label := Z.of_nat i]> (label_map_ s)) s) ;;
      let '(size, input) := readPOD 4 0 input in
      input ← load_list i size input;
      load_lists ids' input
  end.

(** The deleted elements are counted on top of what was counted before. *)
Fixpoint count_deleted (ids : list nat) : MH unit :=
  match ids with
  | [] => mret tt
  | i :: ids' =>
      deleted ← isMarkedDeleted (Z.of_nat i);
      (if deleted : bool then
         modify (λ s, set_deleted_elements
             (if reuse_deleted_ s then {[Z.of_nat i]} ∪ deleted_elements_ s else deleted_elements_ s)
           (set_deleted_count (size_add (deleted_count_ s) 1) s))
       else mret tt) ;;
      count_deleted ids'
  end.

(** The memory of the loaded index. *)
Definition load_blocks (input : ifstream) : MH ifstream :=
  capacity ← gets capacity_;
  n ← gets element_count_;
  stride ← conf element_stride_;
  match malloc (size_mul capacity stride) with
  | None => throw (runtime_error "Not enough memory: loadIndex failed to allocate level0")
  | Some level0 =>
      '(level0, input) ← read_block (size_mul n stride) level0 input;
      modify (λ s, let l := layout s in
        set_link_locks ∅ (set_level0_data level0 (set_layout (mkLayout (M_ l) (max_M_ l) (max_M0_ l)
          (efConstruction_ l) (efSearch_ l) (element_stride_ l) (link0_offset_ l)
          (size_add (size_mul (max_M0_ l) 4) 4) (data_offset_ l) (data_size_ l) (label_offset_ l)
          (size_add (size_mul (max_M_ l) 4) 4)) s))) ;;
      make_pool capacity ;;
      match malloc (size_mul 8 capacity) with
      | None => throw (runtime_error "Not enough memory: loadIndex failed to allocate linklists")
      | Some _ =>
          modify (λ s, set_link_blocks (replicate (Z.to_nat capacity) None)
            (set_element_levels (replicate (Z.to_nat capacity) 0) s)) ;;
          setefSearch 10 ;;
          mret input
      end
  end.

(** [file] is [None] when it does not open. *)
Definition loadIndex (file : option (list byte)) (data_size capacity_i : Z) : MH unit :=
  match file with
  | None => throw (runtime_error "Cannot open file")
  | Some bytes =>
      modify clear ;;
      let total_filesize := Z.of_nat (length bytes) in
      input ← read_header data_size capacity_i (mkIn bytes 0 true);
      let pos := tellg input in
      n ← gets element_count_;
      stride ← conf element_stride_;
      input ← skip_lists (Z.to_nat n) total_filesize (seek_cur (size_mul n stride) input);
      throw_if (negb (tellg input =? total_filesize)) "Index seems to be corrupted or unsupported" ;;
      input ← load_blocks (mkIn bytes pos true);
      _ ← load_lists (seq 0 (Z.to_nat n)) input;
      count_deleted (seq 0 (Z.to_nat n))
  end.

(** The members as they are before a constructor runs, and the constructor from a file. *)
Definition hnsw_unset (reuse_deleted : bool) : HierarchicalNSW :=
  mkHnsw (mkLayout 0 0 0 0 0 0 0 0 0 0 0 0) 0 0 0 0 0 [] [] [] ∅ ∅ 0 0 (mkPool [] [] 0 ∅) reuse_deleted ∅.

Definition hnsw_load (file : option (list byte)) (data_size capacity : Z) (reuse_deleted : bool) :
    outcome HierarchicalNSW unit :=
  loadIndex file data_size capacity (hnsw_unset reuse_deleted).

(** *** checkIntegrity *)

(** One link list: the ids in it and the counts of the links to each element. *)
Fixpoint check_links (i : Z) (data : pointer) (js : list nat) (st : gset Z * list Z) : MH (gset Z * list Z) :=
  match js with
  | [] => mret st
  | j :: js' =>
      let '(this_set, inbound_connections_num) := st in
      n ← gets element_count_;
      K ← load_u32 (link_at data j);
      assert_ (K <? n) ;;
      assert_ (negb (K =? i)) ;;
      c ← at_ inbound_connections_num K;
      match set_at K (c + 1) inbound_connections_num with
      | Some inbound => check_links i data js' ({[K]} ∪ this_set, inbound)
      | None => undef
      end
  end.

Fixpoint check_levels (i : Z) (levels : list Z) (st : Z * list Z) : MH (Z * list Z) :=
  match levels with
  | [] => mret st
  | l :: levels' =>
      let '(connections_checked, inbound) := st in
      link_current ← get_neighbors_at_level i l;
      size ← getListCount link_current;
      '(this_set, inbound) ← check_links i link_current (seq 0 (Z.to_nat size)) (∅, inbound);
      assert_ (Z.of_nat (stdpp.base.size this_set) =? size) ;;
      check_levels i levels' (connections_checked + size, inbound)
  end.

Fixpoint check_elements (ids : list nat) (st : Z * list Z) : MH (Z * list Z) :=
  match ids with
  | [] => mret st
  | i :: ids' =>
      l ← level_of (Z.of_nat i);
      st ← check_levels (Z.of_nat i) (rev (levels_down l 0)) st;
      check_elements ids' st
  end.

(** What is printed: the least and the greatest number of links to an element, when there
    are two elements, and the number of links. *)
Definition checkIntegrity : MH (option (Z * Z) * Z) :=
  n ← gets element_count_;
  '(connections_checked, inbound) ← check_elements (seq 0 (Z.to_nat n)) (0, replicate (Z.to_nat n) 0);
  if 1 <? n then
    assert_ (forallb (λ c, 0 <? c) inbound) ;;
    match inbound with
    | c :: _ => mret (Some (foldl Z.min c inbound, foldl Z.max c inbound), connections_checked)
    | [] => undef
    end
  else mret (None, connections_checked).
End File.
