(* ===== verification/HnswSample.v ===== *)
(** A small graph index, on which the theorems about src/hnsw/hnsw_scratch/hnsw_core.hpp
    are tried: three elements of one byte, two of them also on level 1, room for a fourth. *)

From S2P Require Import Prelude Bytes Memory CxxLib NearestQueue MaxQueue VisitedList Wp Hnsw HnswRep HnswSearch HnswHeuristic HnswGraph HnswDescent HnswIndex HnswInsert.

(** ** An index made of elements *)
Definition block_of (e : element) : option memory :=
  match e_upper e with [] => None | _ => Some (enc_upper e ++ [Byte.x00]) end.

Section Build.
Context {LP : LockPolicy}.

Definition sample_pool : VisitedListPool :=
  match pool_new (λ _ _, 0) 1 4 with Done _ p => p | _ => mkPool [] [] 0 ∅ end.

Definition sample_layout : Layout := mkLayout 2 2 4 3 10 29 0 20 20 1 21 12.

Definition links_to (max : nat) (ids : list Z) : linklist :=
  mkLinks (Z.of_nat (length ids)) 0 0 (ids ++ replicate (max - length ids) 0).

Definition sample_elements : list element := [
  mkElem (links_to 4 [1]) [Byte.x00] 7 [links_to 2 [1]];
  mkElem (links_to 4 [0; 2]) [Byte.x03] 8 [links_to 2 [0]];
  mkElem (links_to 4 [1]) [Byte.x09] 9 []].

Definition sample_index : HierarchicalNSW :=
  mkHnsw sample_layout 4 3 0 1 0 [1; 1; 0; 0] (concat (enc_elem <$> sample_elements) ++ replicate 29 Byte.x00)
    ((block_of <$> sample_elements) ++ [None]) ∅ (list_to_map [(7, 0); (8, 1); (9, 2)]) 0 0 sample_pool true ∅.

Lemma sample_pool_ok : pool_rep 4 sample_pool ∅.
Proof.
  unfold sample_pool. destruct (pool_new_run (λ _ _, 0) ltac:(lia) 1 4) as (p & Hp & Hrep); [lia|].
  change (Z.of_nat 4) with 4 in Hp. by rewrite Hp.
Qed.

Lemma sample_layout_ok : layout_ok sample_layout 4.
Proof. split; cbn; lia. Qed.

Lemma links_to_ok max ids :
  (length ids ≤ max)%nat → Forall (λ z, 0 ≤ z < 2 ^ 32) ids → links_ok (Z.of_nat max) (links_to max ids).
Proof.
  intros Hlen Hids. split; cbn; try lia.
  - rewrite length_app, length_replicate. lia.
  - apply Forall_app. split; [done|]. by apply Forall_replicate.
Qed.

Ltac sample_case He := 
  match type of He with sample_elements !! ?n = Some _ =>
    destruct n as [|[|[|n]]]; [injection He as <-| injection He as <-|injection He as <-|done] end.

Lemma sample_rep : rep sample_index sample_elements.
Proof.
  split; try (cbn; lia); [apply sample_layout_ok|]. intros i e He.
  assert (∀ max ids, (length ids ≤ max)%nat → forallb (λ z, (0 <=? z) && (z <? 2 ^ 32)) ids = true → links_ok (Z.of_nat max) (links_to max ids)) as Hok.
  { intros max ids Hl Hids. apply links_to_ok; [done|]. apply Forall_forall. intros z Hz.
    rewrite forallb_forall in Hids. specialize (Hids z). rewrite <- list_elem_of_In in Hids. specialize (Hids Hz). lia. }
  split.
  - sample_case He; (split; [apply (Hok 4%nat); [cbn; lia|done]|cbn|done|cbn; lia|unfold e_level; cbn; lia]);
      repeat (apply Forall_cons; split; [apply (Hok 2%nat); [cbn; lia|done]|]); by apply Forall_nil.
  - sample_case He; split; try done.
    1,3,5: by apply (proj1 (read_mem_reads 29 _ _ _)).
    all: intros _; eexists; split; [done|]; by apply (proj1 (read_mem_reads 12 _ _ _)).
Qed.

(** The elements by their ids. *)
Definition sample_element (i : Z) : element := default (mkElem (links_to 4 []) [] 0 []) (sample_elements !! Z.to_nat i).

Lemma sample_has i e : has sample_elements i e → (i = 0 ∨ i = 1 ∨ i = 2) ∧ e = sample_element i.
Proof.
  intros [Hi He]. unfold sample_element. split; [|by rewrite He].
  apply lookup_lt_Some in He. cbn in He. lia.
Qed.

Lemma has_sample i : 0 ≤ i < 3 → has sample_elements i (sample_element i).
Proof. intros Hi. split; [lia|]. assert (i = 0 ∨ i = 1 ∨ i = 2) as [-> |[-> | ->]] by lia; done. Qed.

Lemma sample_live i e : has sample_elements i e → deleted e = false.
Proof. by intros [[-> |[-> | ->]] ->]%sample_has. Qed.

Lemma sample_graph : graph_ok sample_elements.
Proof.
  intros l Hl i e [Hi ->]%sample_has Hle.
  assert (l = 0 ∨ l = 1) as Hl01.
  { assert (e_level (sample_element i) ≤ 1) by (by destruct Hi as [-> |[-> | ->]]; vm_compute). lia. }
  enough (NoDup (links (sample_element i) l) ∧ ∀ j, j ∈ links (sample_element i) l → j ≠ i ∧ 0 ≤ j < 3 ∧ l ≤ e_level (sample_element j)) as [Hnd Hlk].
  { split; [done|]. intros j Hj. destruct (Hlk j Hj) as (? & ? & ?). split; [done|]. exists (sample_element j).
    split; [by apply has_sample|done]. }
  destruct Hi as [-> |[-> | ->]], Hl01 as [-> | ->];
    (split; [apply (bool_decide_eq_true_1 _); vm_compute; reflexivity|]); intros j Hj;
    cbv in Hj; set_unfold in Hj; repeat destruct Hj as [Hj|Hj]; try done; subst j; by vm_compute.
Qed.

Lemma sample_index_ok : index_ok sample_index sample_elements.
Proof.
  split; try done.
  - exact sample_rep.
  - exact sample_graph.
  - exact sample_pool_ok.
  - intros a i. cbn [label_map_ sample_index list_to_map foldr curry fst snd uncurry]. rewrite !lookup_insert_Some, lookup_empty. split.
    + intros H. assert ((a = 7 ∧ i = 0) ∨ (a = 8 ∧ i = 1) ∨ (a = 9 ∧ i = 2)) as [[-> ->]|[[-> ->]|[-> ->]]] by naive_solver;
        eexists; (split; [apply has_sample; lia|done]).
    + intros (e & [[-> |[-> | ->]] ->]%sample_has & <-); cbn; naive_solver lia.
  - split; [exists (sample_element 0); split; [by apply has_sample|done]|].
    intros i e [[-> |[-> | ->]] ->]%sample_has; by vm_compute.
  - intros i. split; [by intros ?%elem_of_empty|]. intros [_ (e & He & Hd)]. by rewrite (sample_live i e He) in Hd.
Qed.
End Build.

(** ** The parameters of a run *)
Definition sample_malloc (n : Z) : option memory := Some (replicate (Z.to_nat n) Byte.x00).
Definition sample_distance (x y : list byte) : Z := Z.abs (le_val x - le_val y).
Definition sample_uninit (a : loc) (i : nat) : Z := 0.

Lemma sample_uninit_range : ∀ a i, 0 ≤ sample_uninit a i < 2 ^ 16.
Proof. unfold sample_uninit. lia. Qed.

Lemma sample_malloc_ok : malloc_ok sample_malloc.
Proof. intros n block Hn [= <-]. rewrite length_replicate. lia. Qed.

(** The sample run: an element at level 1, then its vector by its label. *)
#[local] Existing Instance std_shared_mutex.

Example sample_run :
  match (addPoint (Q := list entry) sample_uninit sample_malloc sample_distance 1000 elements 10 [Byte.x05] 12 false 1 ;;
         v ← getDataByLabel 1 12; ns ← getConnectionsWithLock 3 1; n ← getElementCount; mret (v, ns, n)) sample_index with
  | Done r _ => r = ([Byte.x05], [1], 4)
  | _ => False
  end.
Proof. vm_compute. reflexivity. Qed.

(** Elements added one after the other, each with a label, a value and a drawn level. *)
Fixpoint sample_adds (points : list (Z * byte * Z)) : MH unit :=
  match points with
  | [] => mret tt
  | (label, b, drawn) :: points' =>
      addPoint (Q := list entry) sample_uninit sample_malloc sample_distance 1000 elements 10 [b] label false drawn ;;
      sample_adds points'
  end.

(** The constructor leaves [efConstruction_] at 0, whatever it is given: in the index it
    makes, adding a label a second time reads the top of an empty queue as soon as there
    are two elements, where the first calls return. *)
Theorem update_after_constructor :
  match hnsw_new sample_uninit sample_malloc 1 4 2 200 false with
  | Done s tt =>
      (∃ s', sample_adds [(1, Byte.x00, 0); (2, Byte.x03, 0)] s = Done tt s') ∧
      sample_adds [(1, Byte.x00, 0); (2, Byte.x03, 0); (1, Byte.x01, 0)] s = Undef
  | _ => False
  end.
Proof. vm_compute. split; [by eexists|done]. Qed.

(** When the allocation of the links of a new element fails, [addPoint] throws after it has
    counted the element and mapped the label: the index is left ill formed. *)
Lemma failed_links_stay_counted :
  match addPoint (Q := list entry) sample_uninit (λ _, None) sample_distance 1000 elements 10 [Byte.x05] 12 false 1 sample_index with
  | Throw _ s => element_count_ s = element_count_ sample_index + 1 ∧ label_map_ s !! 12 = Some (element_count_ sample_index) ∧
      link_blocks_ s !! 3%nat = Some None
  | _ => False
  end.
Proof. by vm_compute. Qed.
