(* ===== verification/HnswSave.v ===== *)
(** Saving and loading the graph index: [saveIndex] and [loadIndex] of
    src/hnsw/hnsw_scratch/hnsw_core.hpp, and that a saved index is read back. *)

From S2P Require Import Prelude Bytes Memory CxxLib NearestQueue MaxQueue VisitedList Wp Hnsw HnswRep HnswSearch HnswHeuristic HnswGraph HnswDescent HnswIndex HnswInsert HnswMarks HnswFile HnswSample.

(** ** Input streams *)

(** A stream that has read [pre]. *)
Definition inp (pre rest : list byte) : ifstream := mkIn (pre ++ rest) (Z.of_nat (length pre)) true.

Lemma inp_left pre rest : drop (Z.to_nat (position (inp pre rest))) (contents (inp pre rest)) = rest.
Proof. unfold inp. cbn. by rewrite Nat2Z.id, drop_app_length. Qed.

Lemma inp_forward pre x rest :
  mkIn (pre ++ x ++ rest) (Z.of_nat (length pre) + Z.of_nat (length x)) true = inp (pre ++ x) rest.
Proof. unfold inp. rewrite length_app, Nat2Z.inj_add. by rewrite <- app_assoc. Qed.

Lemma readPOD_inp n old z pre rest :
  readPOD n old (inp pre (writeBinaryPOD n z ++ rest)) = (wrapu (8 * Z.of_nat n) z, inp (pre ++ writeBinaryPOD n z) rest).
Proof.
  unfold readPOD, read_stream. rewrite inp_left. cbn [good inp contents position]. unfold writeBinaryPOD in *.
  rewrite read_over_app by by rewrite !length_le_bytes. cbn [fst]. rewrite le_val_le_bytes. f_equal.
  rewrite <- inp_forward, length_app, !length_le_bytes, Nat.min_l by lia. f_equal. apply Nat.leb_le. lia.
Qed.

Lemma tellg_inp pre rest : tellg (inp pre rest) = Z.of_nat (length pre).
Proof. done. Qed.

Lemma seek_inp pre x rest :
  Z.of_nat (length x) < 2 ^ 63 → seek_cur (Z.of_nat (length x)) (inp pre (x ++ rest)) = inp (pre ++ x) rest.
Proof.
  intros Hx. unfold seek_cur. cbn [good inp contents position]. rewrite wraps_small by lia.
  rewrite (proj2 (Z.leb_le _ _)) by lia. apply inp_forward.
Qed.

Lemma read_block_inp x block pre rest (s : HierarchicalNSW) :
  (length x ≤ length block)%nat →
  read_block (Z.of_nat (length x)) block (inp pre (x ++ rest)) s = Done (x ++ drop (length x) block, inp (pre ++ x) rest) s.
Proof.
  intros Hx. unfold read_block. rewrite inp_left. cbn [good inp contents position].
  rewrite Nat2Z.id, take_app_length. unfold write_mem. rewrite decide_True by lia. cbn [Z.to_nat take app Nat.add].
  unfold mret, M_ret. do 3 f_equal. rewrite Nat.eqb_refl. apply inp_forward.
Qed.

(** ** What the file holds *)
Definition enc_record (e : element) : list byte := writeBinaryPOD 4 (Z.of_nat (length (enc_upper e))) ++ enc_upper e.
Definition enc_file (s : HierarchicalNSW) (es : list element) : list byte :=
  index_header s ++ concat (enc_elem <$> es) ++ concat (enc_record <$> es).

Lemma reads_concat mem pos n xs :
  0 ≤ pos ≤ Z.of_nat (length mem) → (∀ i x, xs !! i = Some x → Z.of_nat (length x) = n ∧ reads mem (pos + Z.of_nat i * n) x) →
  reads mem pos (concat xs).
Proof.
  intros Hpos. revert pos Hpos. induction xs as [|x xs IH]; intros pos Hpos Hall; cbn.
  - split; [lia|]. split; [cbn; lia|]. intros k Hk. cbn in Hk. lia.
  - destruct (Hall 0%nat x eq_refl) as [Hlen Hr]. rewrite Z.add_0_r in Hr. apply reads_app. split; [done|].
    apply IH; [destruct Hr as (? & ? & _); lia|]. intros i y Hy. destruct (Hall (S i) y Hy) as [Hl Hr']. split; [done|].
    rewrite Hlen. by replace (pos + n + Z.of_nat i * n) with (pos + Z.of_nat (S i) * n) by lia.
Qed.

Lemma reads_concat_inv mem pos n xs :
  reads mem pos (concat xs) → (∀ x, x ∈ xs → Z.of_nat (length x) = n) → ∀ i x, xs !! i = Some x → reads mem (pos + Z.of_nat i * n) x.
Proof.
  revert pos. induction xs as [|y xs IH]; intros pos Hr Hlen i x Hi; [done|]. cbn [concat] in Hr. apply reads_app in Hr as [Hy Hr].
  rewrite (Hlen y) in Hr by by left. destruct i as [|i]; cbn in Hi; [injection Hi as <-; by rewrite Z.add_0_r|].
  replace (pos + Z.of_nat (S i) * n) with (pos + n + Z.of_nat i * n) by lia. apply IH; [done| |done]. intros z Hz. apply Hlen. by right.
Qed.

Section Save.
Context (s : HierarchicalNSW) (es : list element) (Hrep : rep s es).

Lemma length_enc_upper e : elem_ok (layout s) e → Z.of_nat (length (enc_upper e)) = e_level e * link_stride_ (layout s).
Proof.
  intros He. unfold enc_upper, e_level. rewrite (lo_link _ _ (rep_layout _ _ Hrep)).
  rewrite (length_concat_same _ (Z.to_nat (4 * max_M_ (layout s) + 4))), length_fmap.
  - pose proof (lo_M _ _ (rep_layout _ _ Hrep)). lia.
  - apply Forall_fmap. eapply Forall_impl; [exact (eo_upper _ _ He)|]. intros w Hw%length_enc_links. unfold compose. lia.
Qed.

Lemma level0_concat : reads (level0_data_ s) 0 (concat (enc_elem <$> es)).
Proof.
  apply (reads_concat _ _ (element_stride_ (layout s))); [lia|]. intros i x Hx.
  apply list_lookup_fmap_Some_1 in Hx as (e & -> & He). destruct (rep_elems _ _ Hrep i e He) as [Hok [Hm _ _]].
  split; [exact (length_enc_elem _ _ _ (rep_layout _ _ Hrep) Hok)|done].
Qed.

Lemma length_level0 : Z.of_nat (length (concat (enc_elem <$> es))) = Z.of_nat (length es) * element_stride_ (layout s).
Proof.
  rewrite (length_concat_same _ (Z.to_nat (element_stride_ (layout s)))), length_fmap.
  - pose proof (layout_pos _ _ (rep_layout _ _ Hrep)). lia.
  - apply Forall_fmap, Forall_lookup. intros i e He. destruct (rep_elems _ _ Hrep i e He) as [Hok _].
    pose proof (length_enc_elem _ _ _ (rep_layout _ _ Hrep) Hok). unfold compose. lia.
Qed.

(** The size of a link block fits its four bytes. *)
Definition blocks_fit : Prop := ∀ i e, es !! i = Some e → Z.of_nat (length (enc_upper e)) < 2 ^ 32.
Context (Hfit : blocks_fit).

Lemma list_size_run i e : es !! i = Some e → list_size i s = Done (Z.of_nat (length (enc_upper e))) s.
Proof.
  intros He. destruct (rep_elems _ _ Hrep i e He) as [Hok [_ _ Hl]]. pose proof (Hfit i e He) as Hf.
  unfold list_size. assert (level_of (Z.of_nat i) s = Done (e_level e) s) as Hlev.
  { unfold level_of, at_, gets, mbind, M_bind. rewrite decide_True by lia. by rewrite Nat2Z.id, Hl. }
  erewrite bind_Done by exact Hlev. erewrite bind_Done by done. rewrite (length_enc_upper e Hok) in *.
  unfold mret, M_ret. f_equal. pose proof (lo_link _ _ (rep_layout _ _ Hrep)). pose proof (lo_M _ _ (rep_layout _ _ Hrep)).
  assert (0 ≤ e_level e * link_stride_ (layout s)) by (apply Z.mul_nonneg_nonneg; unfold e_level; lia).
  destruct (Z.ltb_spec 0 (e_level e)) as [Hpos|Hnone].
  - unfold size_mul, compose. rewrite (Z.mul_comm (link_stride_ _)). rewrite !wrapu_small; [done|lia|].
    rewrite wrapu_small; lia.
  - assert (e_level e = 0) as -> by (unfold e_level in *; lia). done.
Qed.

Lemma save_lists_run n : ∀ k, (k + n)%nat = length es →
  save_lists (seq k n) s = Done (concat (enc_record <$> drop k es)) s.
Proof.
  induction n as [|n IH]; intros k Hk; cbn [seq save_lists]; [by rewrite drop_ge by lia|].
  destruct (lookup_lt_is_Some_2 es k) as [e He]; [lia|]. erewrite drop_S by exact He. cbn [fmap list_fmap concat].
  erewrite bind_Done by exact (list_size_run k e He). erewrite (bind_Done _ _ s (enc_upper e) s).
  - erewrite bind_Done by (apply IH; lia). unfold mret, M_ret, enc_record. by rewrite <- !app_assoc.
  - destruct (Z.eqb_spec (Z.of_nat (length (enc_upper e))) 0) as [Hz|Hne].
    + unfold mret, M_ret. f_equal. symmetry. apply length_zero_iff_nil. lia.
    + destruct (rep_elems _ _ Hrep k e He) as [_ [_ Hup _]]. destruct Hup as (b & Hb & Hr).
      { intros Hnil. apply Hne. unfold enc_upper. by rewrite Hnil. }
      apply load_bytes_run; [|done]. cbn. rewrite Nat2Z.id. split; [lia|by exists b].
Qed.

Lemma save_index_run : saveIndex s = Done (enc_file s es) s.
Proof.
  unfold saveIndex. do 3 erewrite bind_Done by done. cbn beta. rewrite (rep_count _ _ Hrep), Nat2Z.id.
  pose proof (lo_total _ _ (rep_layout _ _ Hrep)). pose proof (rep_cap _ _ Hrep). pose proof (layout_pos _ _ (rep_layout _ _ Hrep)).
  assert (Z.of_nat (length es) * element_stride_ (layout s) ≤ capacity_ s * element_stride_ (layout s)) by (apply Z.mul_le_mono_nonneg_r; lia).
  assert (0 ≤ Z.of_nat (length es) * element_stride_ (layout s)) by (apply Z.mul_nonneg_nonneg; lia).
  erewrite bind_Done.
  2: { unfold size_mul, compose. rewrite wrapu_small by lia. apply (load_bytes_run _ _ (concat (enc_elem <$> es))); [exact level0_concat|by rewrite length_level0]. }
  erewrite bind_Done by by apply (save_lists_run (length es) 0). done.
Qed.
End Save.

(** ** Loading *)

(** The values of the header fit their bytes. *)
Record header_fits (s : HierarchicalNSW) : Prop := {
  hf_layout : layout_ok (layout s) (capacity_ s);
  hf_search : 0 ≤ efSearch_ (layout s) < 2 ^ 64;
  hf_construction : 0 ≤ efConstruction_ (layout s) < 2 ^ 64;
  hf_total : 0 ≤ element_stride_ (layout s) < 2 ^ 64;
  hf_count : 0 ≤ element_count_ s ≤ capacity_ s;
  hf_level : - 2 ^ 31 ≤ max_level_ s < 2 ^ 31;
  hf_entry : 0 ≤ entry_id_ s < 2 ^ 32;
}.

(** What [loadIndex] makes of the capacity asked for. *)
Definition capacity_taken (s : HierarchicalNSW) (capacity_i : Z) : Z :=
  if capacity_i <? element_count_ s then capacity_ s else capacity_i.

Definition header_layout (data_size link0_stride link_stride : Z) (l : Layout) : Layout :=
  mkLayout (M_ l) (max_M_ l) (max_M0_ l) (efConstruction_ l) (efSearch_ l) (element_stride_ l) (link0_offset_ l)
    link0_stride (data_offset_ l) data_size (label_offset_ l) link_stride.

Definition with_header (s : HierarchicalNSW) (data_size capacity_i : Z) (t : HierarchicalNSW) : HierarchicalNSW :=
  set_layout (header_layout data_size (link0_stride_ (layout t)) (link_stride_ (layout t)) (layout s))
    (set_capacity (capacity_taken s capacity_i) (set_element_count (element_count_ s)
      (set_max_level (max_level_ s) (set_entry_id (entry_id_ s) t)))).

Lemma wraps_wrapu z : - 2 ^ 31 ≤ z < 2 ^ 31 → wraps 32 (wrapu 32 z) = z.
Proof.
  intros Hz. unfold wraps, wrapu. change (2 ^ (32 - 1)) with (2 ^ 31). rewrite Zplus_mod_idemp_l, Z.mod_small by lia. lia.
Qed.

Lemma read_header_run s t data_size capacity_i rest :
  header_fits s →
  read_header data_size capacity_i (inp [] (index_header s ++ rest)) t =
    Done (inp (index_header s) rest) (with_header s data_size capacity_i t).
Proof.
  intros [[] ? ? ? ? ? ?]. unfold read_header, index_header. rewrite <- !app_assoc. unfold mbind at 1, M_bind at 1, get. cbv zeta.
  do 13 (rewrite readPOD_inp; cbv beta iota zeta). change (8 * Z.of_nat 8) with 64. change (8 * Z.of_nat 4) with 32.
  rewrite wraps_wrapu by done. rewrite !wrapu_small by lia. rewrite <- !app_assoc, app_nil_l. done.
Qed.

Lemma length_header s : length (index_header s) = 96%nat.
Proof. unfold index_header, writeBinaryPOD. by rewrite !length_app, !length_le_bytes. Qed.

Lemma length_record e : length (enc_record e) = (4 + length (enc_upper e))%nat.
Proof. unfold enc_record, writeBinaryPOD. by rewrite length_app, length_le_bytes. Qed.

(** The pass over the link lists that only looks at their sizes. *)
Lemma skip_run es t total : ∀ pre,
  (∀ e, e ∈ es → Z.of_nat (length (enc_upper e)) < 2 ^ 32) →
  total = Z.of_nat (length (pre ++ concat (enc_record <$> es))) →
  skip_lists (length es) total (inp pre (concat (enc_record <$> es))) t = Done (inp (pre ++ concat (enc_record <$> es)) []) t.
Proof.
  induction es as [|e es IH]; intros pre Hfit Htotal; cbn [length skip_lists fmap list_fmap concat].
  { by rewrite app_nil_r. }
  cbn [fmap list_fmap concat] in Htotal. rewrite !length_app, length_record in Htotal.
  rewrite tellg_inp. rewrite (proj2 (Z.ltb_ge _ _)), (proj2 (Z.leb_gt _ _)) by lia. cbn [orb throw_if].
  erewrite bind_Done by done. unfold enc_record at 1. rewrite <- !app_assoc, readPOD_inp. cbv beta iota zeta.
  assert (Z.of_nat (length (enc_upper e)) < 2 ^ 32) as He by (apply Hfit; by left).
  change (8 * Z.of_nat 4) with 32. rewrite wrapu_small by lia.
  replace (if _ =? 0 then _ else _) with (inp ((pre ++ writeBinaryPOD 4 (Z.of_nat (length (enc_upper e)))) ++ enc_upper e) (concat (enc_record <$> es))).
  - rewrite IH; [|intros f Hf; apply Hfit; by right|].
    + unfold enc_record at 2. by rewrite <- !app_assoc.
    + unfold writeBinaryPOD. rewrite !length_app, length_le_bytes. lia.
  - destruct (Z.eqb_spec (Z.of_nat (length (enc_upper e))) 0) as [Hz|_].
    + assert (enc_upper e = []) as -> by (apply length_zero_iff_nil; lia). by rewrite app_nil_r.
    + symmetry. apply seek_inp. lia.
Qed.

(** *** The blocks *)
Definition reloaded (l : Layout) : Layout :=
  mkLayout (M_ l) (max_M_ l) (max_M0_ l) (efConstruction_ l) 10 (element_stride_ l) (link0_offset_ l)
    (link0_stride_ l) (data_offset_ l) (data_size_ l) (label_offset_ l) (link_stride_ l).

Lemma reloaded_ok l cap cap' :
  layout_ok l cap → 0 ≤ cap' < 2 ^ 32 - 1 → cap' * element_stride_ l < 2 ^ 64 → layout_ok (reloaded l) cap'.
Proof. by intros []. Qed.

Lemma reloaded_elem_ok l e : elem_ok l e → elem_ok (reloaded l) e.
Proof. by intros []. Qed.

(** The memory of the index after [load_blocks]: the elements without their upper lists. *)
Record blocks_loaded (s t : HierarchicalNSW) (es : list element) (cap : Z) (s1 : HierarchicalNSW) : Prop := {
  bl_layout : layout s1 = reloaded (layout s);
  bl_capacity : capacity_ s1 = cap;
  bl_count : element_count_ s1 = element_count_ s;
  bl_level : max_level_ s1 = max_level_ s;
  bl_entry : entry_id_ s1 = entry_id_ s;
  bl_level0 : Z.of_nat (length (level0_data_ s1)) = cap * element_stride_ (layout s);
  bl_elems : ∀ i e, es !! i = Some e → reads (level0_data_ s1) (Z.of_nat i * element_stride_ (layout s)) (enc_elem e);
  bl_blocks : link_blocks_ s1 = replicate (Z.to_nat cap) None;
  bl_levels : element_levels_ s1 = replicate (Z.to_nat cap) 0;
  bl_locks : link_locks_ s1 = ∅;
  bl_pool : pool_rep (Z.to_nat cap) (visited_pool_ s1) ∅;
  bl_rest : label_map_ s1 = label_map_ t ∧ deleted_count_ s1 = deleted_count_ t ∧ deleted_elements_ s1 = deleted_elements_ t ∧
    reuse_deleted_ s1 = reuse_deleted_ t;
}.

(** The labels of the elements that are read. *)
Fixpoint loaded_labels (i : nat) (es : list element) (m : gmap Z Z) : gmap Z Z :=
  match es with [] => m | e :: es' => loaded_labels (S i) es' (<[e_label e := Z.of_nat i]> m) end.

Lemma loaded_labels_spec todo : ∀ done_ m,
  (∀ i j e f, has (done_ ++ todo) i e → has (done_ ++ todo) j f → e_label e = e_label f → i = j) →
  (∀ a i, m !! a = Some i ↔ ∃ e, has done_ i e ∧ e_label e = a) →
  ∀ a i, loaded_labels (length done_) todo m !! a = Some i ↔ ∃ e, has (done_ ++ todo) i e ∧ e_label e = a.
Proof.
  induction todo as [|e todo IH]; intros done_ m Huniq Hm; [by rewrite app_nil_r|]. cbn [loaded_labels].
  replace (S (length done_)) with (length (done_ ++ [e])) by (rewrite length_app; cbn; lia).
  rewrite (cons_middle e done_ todo), app_assoc in *. apply IH; [done|]. apply labels_snoc; [done| |done].
  destruct (m !! e_label e) as [i|] eqn:Hi; [|done]. exfalso. apply Hm in Hi as (f & Hf & Hl).
  pose proof (lookup_lt_Some _ _ _ (proj2 Hf)) as Hlt.
  assert (i = Z.of_nat (length done_)) as ->; [|lia]. apply (Huniq _ _ f e); [|split; [lia|]|done].
  - destruct Hf as [Hi0 Hf]. split; [done|]. by do 2 apply lookup_app_l_Some.
  - rewrite Nat2Z.id. apply lookup_app_l_Some. by apply list_lookup_middle.
Qed.

Section Load.
Context {LP : LockPolicy} (uninit : loc → nat → Z) (uninit_range : ∀ a i, 0 ≤ uninit a i < 2 ^ 16).
Context (malloc : Z → option memory) (Hmalloc : malloc_ok malloc).
Context (s : HierarchicalNSW) (es : list element) (Hrep : rep s es) (Hfit : blocks_fit es).
Context (cap : Z) (Hcap : Z.of_nat (length es) ≤ cap < 2 ^ 32 - 1) (Htotal : cap * element_stride_ (layout s) < 2 ^ 64).

(** There is memory for the index. *)
Record enough_memory : Prop := {
  em_blocks : is_Some (malloc (cap * element_stride_ (layout s)));
  em_pointers : is_Some (malloc (8 * cap));
  em_lists : ∀ i e, es !! i = Some e → e_upper e ≠ [] → is_Some (malloc (Z.of_nat (length (enc_upper e))));
}.
Context (Hmem : enough_memory).

Lemma reads_front x mem : reads (x ++ mem) 0 x.
Proof. unfold reads. rewrite length_app. split_and!; [lia|lia|]. intros k Hk. by rewrite lookup_app_l. Qed.

Lemma load_blocks_run pre rest t capacity_i :
  capacity_taken s capacity_i = cap →
  ∃ s1, load_blocks uninit malloc (inp pre (concat (enc_elem <$> es) ++ rest)) (with_header s (data_size_ (layout s)) capacity_i t) =
    Done (inp (pre ++ concat (enc_elem <$> es)) rest) s1 ∧ blocks_loaded s t es cap s1.
Proof.
  intros Hc. destruct (em_blocks Hmem) as [level0 Hm0]. destruct (em_pointers Hmem) as [pointers Hm1].
  pose proof (rep_layout _ _ Hrep) as Hlo. pose proof (layout_pos _ _ Hlo) as Hpos.
  assert (0 ≤ cap * element_stride_ (layout s)) by (apply Z.mul_nonneg_nonneg; lia).
  pose proof (Hmalloc _ _ ltac:(done) Hm0) as Hlen. pose proof (length_level0 s es Hrep) as Hx.
  assert (Z.of_nat (length es) * element_stride_ (layout s) ≤ cap * element_stride_ (layout s)) by (apply Z.mul_le_mono_nonneg_r; lia).
  destruct (pool_new_run uninit uninit_range 1 (Z.to_nat cap)) as (p & Hp & Hpool); [lia|]. rewrite Z2Nat.id in Hp by lia.
  assert (size_mul cap (element_stride_ (layout s)) = cap * element_stride_ (layout s)) as Em by (unfold size_mul; rewrite wrapu_small; lia).
  assert (size_mul (element_count_ s) (element_stride_ (layout s)) = Z.of_nat (length (concat (enc_elem <$> es)))) as Ex.
  { unfold size_mul. rewrite (rep_count _ _ Hrep), <- Hx, wrapu_small; lia. }
  assert (size_mul 8 cap = 8 * cap) as E8 by (unfold size_mul; rewrite wrapu_small; lia).
  unfold load_blocks. do 3 erewrite bind_Done by done.
  cbn [with_header capacity_ set_layout set_capacity element_count_ set_element_count compose layout header_layout element_stride_].
  rewrite Hc, Em, Hm0, Ex, E8. erewrite bind_Done by (apply read_block_inp; lia). cbv beta iota. erewrite bind_Done by done.
  erewrite bind_Done by (unfold make_pool; by rewrite Hp). rewrite Hm1. do 2 erewrite bind_Done by done. eexists. split; [done|].
  set (x := concat _) in *. split; cbn; try done.
  - unfold reloaded, header_layout. cbn. pose proof (lo_M _ _ Hlo). pose proof (lo_M0 _ _ Hlo). pose proof (lo_max _ _ Hlo). pose proof (lo_max0 _ _ Hlo).
    unfold size_add, size_mul. rewrite !wrapu_small; try lia; rewrite ?wrapu_small by lia; try lia.
    by rewrite (lo_stride0 _ _ Hlo), (lo_link _ _ Hlo), !(Z.mul_comm 4).
  - rewrite length_app, length_drop. lia.
  - intros i e He. apply (reads_concat_inv (x ++ drop (length x) level0) 0 (element_stride_ (layout s)) (enc_elem <$> es)); [apply reads_front| |].
    + intros y (f & -> & (j & Hj)%list_elem_of_lookup)%list_elem_of_fmap. destruct (rep_elems _ _ Hrep j f Hj) as [Hok _].
      by apply (length_enc_elem _ (capacity_ s)).
    + by rewrite list_lookup_fmap, He.
Qed.

(** *** The link lists *)
Definition upper_block (e : element) : option memory := match e_upper e with [] => None | _ => Some (enc_upper e) end.

Definition with_lists (m : gmap Z Z) (blocks : list (option memory)) (levels : list Z) (s1 : HierarchicalNSW) : HierarchicalNSW :=
  set_label_map m (set_link_blocks blocks (set_element_levels levels s1)).

Context (t s1 : HierarchicalNSW) (Hs1 : blocks_loaded s t es cap s1).

Lemma upper_sizes i e : es !! i = Some e →
  let n := Z.of_nat (length (enc_upper e)) in
  0 ≤ n < 2 ^ 32 ∧ n = e_level e * link_stride_ (layout s) ∧ 0 < link_stride_ (layout s) ∧ e_level e < 2 ^ 31 ∧ (n = 0 ↔ e_upper e = []).
Proof.
  intros He n. destruct (rep_elems _ _ Hrep i e He) as [Hok _]. pose proof (Hfit i e He). pose proof (length_enc_upper s es Hrep e Hok) as Hn.
  pose proof (eo_level _ _ Hok). pose proof (lo_link _ _ (rep_layout _ _ Hrep)). pose proof (lo_M _ _ (rep_layout _ _ Hrep)).
  split_and!; try (unfold n; lia). fold n in Hn. unfold e_level in *. split.
  - intros Hz. rewrite Hz in Hn. assert (Z.of_nat (length (e_upper e)) = 0) by nia. apply length_zero_iff_nil. lia.
  - intros Hnil. rewrite Hnil in Hn. cbn in Hn. lia.
Qed.

Lemma load_list_run i e m blocks levels pre rest :
  es !! i = Some e → length blocks = Z.to_nat cap → length levels = Z.to_nat cap →
  load_list malloc i (Z.of_nat (length (enc_upper e))) (inp pre (enc_upper e ++ rest)) (with_lists m blocks levels s1) =
    Done (inp (pre ++ enc_upper e) rest) (with_lists m (<[i := upper_block e]> blocks) (<[i := e_level e]> levels) s1).
Proof.
  intros He Hb Hl. destruct (upper_sizes i e He) as (Hn & Heq & Hpos & Hlev & Hnil). pose proof (lookup_lt_Some _ _ _ He) as Hi.
  set (n := Z.of_nat (length (enc_upper e))) in *.
  assert (∀ {A} (l : list A) x, length l = Z.to_nat cap → set_at (Z.of_nat i) x l = Some (<[i := x]> l)) as Hset.
  { intros A l x Hlen. unfold set_at. rewrite decide_True by lia. by rewrite Nat2Z.id. }
  unfold load_list. do 2 erewrite bind_Done by done. cbn [element_levels_ link_blocks_ with_lists set_label_map set_link_blocks set_element_levels].
  rewrite !Hset by done. unfold upper_block. destruct (Z.eqb_spec n 0) as [Hz|Hne].
  - assert (e_upper e = []) as Hu by tauto. assert (enc_upper e = []) as -> by by unfold enc_upper; rewrite Hu.
    erewrite bind_Done by done. rewrite Hu, app_nil_r. unfold e_level. by rewrite Hu.
  - erewrite bind_Done by done. cbn [compose layout with_lists set_label_map set_link_blocks set_element_levels]. rewrite (bl_layout _ _ _ _ _ Hs1).
    cbn [reloaded link_stride_]. destruct (Z.eqb_spec (link_stride_ (layout s)) 0); [lia|].
    rewrite Heq, Z.div_mul, wraps_small, Hset by (try done; unfold e_level in *; lia). rewrite <- Heq.
    erewrite bind_Done by done. destruct (em_lists Hmem i e He) as [block Hblock]; [tauto|]. fold n in Hblock. rewrite Hblock.
    pose proof (Hmalloc _ _ (proj1 Hn) Hblock) as Hlen. unfold n at 1. erewrite bind_Done by (apply read_block_inp; lia).
    cbv beta iota. rewrite Hset by done. erewrite bind_Done by done.
    rewrite drop_ge by lia. rewrite app_nil_r. destruct (e_upper e); [tauto|done].
Qed.

Lemma label_loaded i e m blocks levels :
  es !! i = Some e → getExternalLabel (Z.of_nat i) (with_lists m blocks levels s1) = Done (e_label e) (with_lists m blocks levels s1).
Proof.
  intros He. destruct (rep_elems _ _ Hrep i e He) as [Hok _]. pose proof (rep_layout _ _ Hrep) as Hlo.
  pose proof (lookup_lt_Some _ _ _ He). set (u := with_lists m blocks levels s1).
  assert (layout u = reloaded (layout s)) as Hu by exact (bl_layout _ _ _ _ _ Hs1).
  assert (layout_ok (layout u) cap) as Hlo' by (rewrite Hu; by apply (reloaded_ok _ (capacity_ s)); [|lia|]).
  pose proof (bl_elems _ _ _ _ _ Hs1 i e He) as Hr. unfold enc_elem in Hr. rewrite app_assoc in Hr. apply reads_app in Hr as [_ Hr].
  unfold getExternalLabel. erewrite bind_Done.
  2: { apply (element_at_run u cap (Z.of_nat i) label_offset_ Hlo'); [lia|]. rewrite Hu. cbn. destruct Hlo. lia. }
  erewrite bind_Done.
  2: { apply (load_bytes_run u _ (le_bytes 8 (e_label e))); [|by rewrite length_le_bytes]. cbn [preads]. rewrite Hu. cbn [reloaded element_stride_ label_offset_].
    rewrite length_app, Nat2Z.inj_add, (length_enc_links _ _ (eo_base _ _ Hok)), (eo_vector _ _ Hok) in Hr.
    by rewrite (lo_label _ _ Hlo), (lo_data _ _ Hlo), (lo_stride0 _ _ Hlo). }
  unfold mret, M_ret. by rewrite le_val_small by apply Hok.
Qed.

Lemma load_lists_run todo : ∀ done_ m blocks levels pre,
  es = done_ ++ todo → length blocks = Z.to_nat cap → length levels = Z.to_nat cap →
  load_lists malloc (seq (length done_) (length todo)) (inp pre (concat (enc_record <$> todo))) (with_lists m blocks levels s1) =
    Done (inp (pre ++ concat (enc_record <$> todo)) [])
      (with_lists (loaded_labels (length done_) todo m) (list_inserts (length done_) (upper_block <$> todo) blocks)
        (list_inserts (length done_) (e_level <$> todo) levels) s1).
Proof.
  induction todo as [|e todo IH]; intros done_ m blocks levels pre Hes Hb Hl; cbn [length seq load_lists fmap list_fmap concat]; [by rewrite app_nil_r|].
  assert (es !! length done_ = Some e) as He by by rewrite Hes, list_lookup_middle.
  erewrite bind_Done by by apply label_loaded. erewrite bind_Done by done. unfold enc_record at 1. rewrite <- !app_assoc, readPOD_inp.
  cbv beta iota zeta. destruct (upper_sizes _ e He) as (Hn & _). change (8 * Z.of_nat 4) with 32. rewrite wrapu_small by done.
  erewrite bind_Done.
  2: { apply (load_list_run (length done_) e (<[e_label e := Z.of_nat (length done_)]> m) blocks levels); done. }
  replace (S (length done_)) with (length (done_ ++ [e])) by (rewrite length_app; cbn; lia).
  rewrite IH; [|by rewrite <- app_assoc|by rewrite length_insert|by rewrite length_insert].
  replace (length (done_ ++ [e])) with (S (length done_)) by (rewrite length_app; cbn; lia).
  cbn [list_inserts loaded_labels]. rewrite <- !list_insert_inserts_lt by lia. unfold enc_record at 2. by rewrite <- !app_assoc.
Qed.

(** *** The labels and the deleted elements *)
Definition with_deleted (D : gset Z) (c : Z) (s : HierarchicalNSW) : HierarchicalNSW := set_deleted_elements D (set_deleted_count c s).

Lemma marked_last fs e : length (marked (fs ++ [e])) = (length (marked fs) + Nat.b2n (deleted e))%nat.
Proof. unfold marked. rewrite filter_app, filter_cons, length_app. case_decide as Hd; [by rewrite Hd|]. by destruct (deleted e). Qed.

Lemma count_deleted_run u todo : rep u es → ∀ done_ D,
  es = done_ ++ todo → (∀ i, i ∈ D ↔ reuse_deleted_ u = true ∧ ∃ e, has done_ i e ∧ deleted e = true) →
  ∃ D', count_deleted (seq (length done_) (length todo)) (with_deleted D (Z.of_nat (length (marked done_))) u) =
      Done tt (with_deleted D' (Z.of_nat (length (marked es))) u) ∧
    ∀ i, i ∈ D' ↔ reuse_deleted_ u = true ∧ ∃ e, has es i e ∧ deleted e = true.
Proof.
  intros Hu. induction todo as [|e todo IH]; intros done_ D Hes HD; cbn [length seq count_deleted].
  { rewrite app_nil_r in Hes. subst done_. by exists D. }
  assert (has es (Z.of_nat (length done_)) e) as He by (split; [lia|]; by rewrite Nat2Z.id, Hes, list_lookup_middle).
  set (v := with_deleted D _ u). assert (rep v es) as Hv by by apply (rep_ext u).
  assert (isMarkedDeleted (Z.of_nat (length done_)) v = Done (deleted e) v) as Hrun.
  { destruct (list_run v es Hv _ e 0 (e_base e) He eq_refl) as [Hl Hr]. destruct (has_ok v es Hv _ e He) as [Hok _].
    unfold isMarkedDeleted. change (get_neighbors_L0 ?i) with (get_neighbors_at_level i 0). erewrite bind_Done by exact Hl.
    unfold enc_links in Hr. apply preads_mid in Hr. erewrite bind_Done by exact (load_bytes_run _ _ _ 1 Hr eq_refl).
    by rewrite le_val_small by apply (eo_base _ _ Hok). }
  erewrite bind_Done by exact Hrun.
  destruct (IH (done_ ++ [e]) (if reuse_deleted_ u && deleted e then {[Z.of_nat (length done_)]} ∪ D else D)) as (D' & Hgo & HD').
  - by rewrite <- app_assoc.
  - intros i. destruct (deleted e) eqn:Hd.
    + rewrite andb_true_r. destruct (reuse_deleted_ u) eqn:Hreuse; [|rewrite HD; intuition congruence].
      rewrite elem_of_union, elem_of_singleton, HD. setoid_rewrite has_snoc. split.
      * intros [->|[_ (f & Hf & Hfd)]]; split; eauto 10.
      * intros [_ (f & [Hf|[-> ->]] & Hfd)]; eauto.
    + rewrite andb_false_r. by apply reuse_snoc.
  - exists D'. split; [|done]. rewrite <- Hgo.
    replace (length (done_ ++ [e])) with (S (length done_)) by (rewrite length_app; cbn; lia). rewrite marked_last.
    destruct (deleted e) eqn:Hd.
    + erewrite bind_Done; [reflexivity|]. unfold modify, v, with_deleted. f_equal.
      cbn [deleted_count_ set_deleted_count set_deleted_elements reuse_deleted_ deleted_elements_]. rewrite andb_true_r.
      pose proof (marked_bound u es Hu) as Hb. unfold size_add.
      assert (length (marked done_) ≤ length (marked es))%nat by (rewrite Hes; unfold marked; rewrite filter_app, length_app; lia).
      rewrite wrapu_small by lia. replace (Z.of_nat (length (marked done_) + Nat.b2n true)) with (Z.of_nat (length (marked done_)) + 1) by (cbn; lia).
      by destruct (reuse_deleted_ u).
    + erewrite bind_Done by done. rewrite andb_false_r. unfold v. by rewrite Nat.add_0_r.
Qed.

(** The elements are there once their lists are. *)
Lemma loaded_rep m :
  rep (with_lists m (list_inserts 0 (upper_block <$> es) (link_blocks_ s1)) (list_inserts 0 (e_level <$> es) (element_levels_ s1)) s1) es.
Proof.
  pose proof (rep_layout _ _ Hrep) as Hlo. destruct Hs1 as [E1 E2 E3 E4 E5 E6 E7 E8 E9 E10 E11 _].
  split; cbn; rewrite ?E1, ?E2, ?E3, ?E8, ?E9, ?length_inserts, ?length_replicate; try done; try lia.
  - by apply (reloaded_ok _ (capacity_ s)); [|lia|].
  - by rewrite (rep_count _ _ Hrep).
  - intros i e He. destruct (rep_elems _ _ Hrep i e He) as [Hok _]. split; [by apply reloaded_elem_ok|].
    pose proof (lookup_lt_Some _ _ _ He). split; cbn; rewrite ?E1, ?E8, ?E9.
    + by apply E7.
    + intros Hne. exists (enc_upper e). split; [|].
      * rewrite list_lookup_inserts by (rewrite ?length_fmap, ?length_replicate; lia). rewrite Nat.sub_0_r, list_lookup_fmap, He. cbn. unfold upper_block.
        by destruct (e_upper e).
      * rewrite <- (app_nil_r (enc_upper e)) at 1. apply reads_front.
    + rewrite list_lookup_inserts by (rewrite ?length_fmap, ?length_replicate; lia). by rewrite Nat.sub_0_r, list_lookup_fmap, He.
Qed.
End Load.

(** ** What is saved is loaded *)
Record savable (s : HierarchicalNSW) (es : list element) : Prop := {
  sv_search : 0 ≤ efSearch_ (layout s) < 2 ^ 64;
  sv_construction : 0 ≤ efConstruction_ (layout s) < 2 ^ 64;
  sv_stride : element_stride_ (layout s) < 2 ^ 64;
  sv_blocks : blocks_fit es;
  sv_file : Z.of_nat (length (enc_file s es)) < 2 ^ 63;
}.

Section Roundtrip.
Context {LP : LockPolicy} (uninit : loc → nat → Z) (uninit_range : ∀ a i, 0 ≤ uninit a i < 2 ^ 16).
Context (malloc : Z → option memory) (Hmalloc : malloc_ok malloc).
Context (s : HierarchicalNSW) (es : list element) (Hix : index_ok s es) (Hsave : savable s es).

Lemma header_ok : header_fits s.
Proof.
  pose proof (ix_rep _ _ Hix) as Hrep. pose proof (rep_layout _ _ Hrep) as Hlo. pose proof (layout_pos _ _ Hlo).
  pose proof (lo_cap _ _ Hlo). pose proof (rep_count _ _ Hrep). pose proof (rep_cap _ _ Hrep).
  destruct Hsave. split; try done; try lia.
  all: pose proof (ix_entry _ _ Hix) as Hent; destruct (decide (es = [])) as [Hnil|Hne];
    [rewrite Hnil in Hent; destruct Hent as [He Hm]; rewrite ?He, ?Hm; unfold no_entry; lia|
     apply (entry_ok_has _ _ _ Hne) in Hent as [(e & He & <-) _]].
  - destruct (has_ok s es Hrep _ _ He) as [[_ _ _ _ Hlev] _]. unfold e_level in *. lia.
  - destruct (has_lt s es Hrep _ _ He). lia.
Qed.

Lemma lists_size_run n : ∀ k size, (k + n)%nat = length es → 0 ≤ size →
  size + Z.of_nat (length (concat (enc_record <$> drop k es))) < 2 ^ 63 →
  lists_size (seq k n) size s = Done (size + Z.of_nat (length (concat (enc_record <$> drop k es)))) s.
Proof.
  pose proof (ix_rep _ _ Hix) as Hrep.
  induction n as [|n IH]; intros k size Hk Hs Hlt; cbn [seq lists_size].
  { rewrite drop_ge in * by lia. cbn. by rewrite Z.add_0_r. }
  destruct (lookup_lt_is_Some_2 es k) as [e He]; [lia|]. erewrite drop_S in Hlt |- * by exact He. cbn [fmap list_fmap concat] in *.
  rewrite length_app, length_record in *. erewrite bind_Done by exact (list_size_run s es Hrep (sv_blocks _ _ Hsave) k e He).
  unfold size_add. rewrite (wrapu_small 64 (size + 4)), wrapu_small by lia. rewrite IH by lia. f_equal. lia.
Qed.

Lemma file_size_run : indexFileSize s = Done (Z.of_nat (length (enc_file s es))) s.
Proof.
  pose proof (ix_rep _ _ Hix) as Hrep. pose proof (sv_file _ _ Hsave) as Hf. unfold enc_file in *. rewrite !length_app, length_header in *.
  pose proof (length_level0 s es Hrep) as Hl0. unfold indexFileSize. do 2 erewrite bind_Done by done. cbn beta.
  rewrite (rep_count _ _ Hrep), Nat2Z.id. unfold size_add, size_mul, compose. rewrite <- Hl0.
  rewrite (wrapu_small 64 (Z.of_nat _)), wrapu_small by lia.
  rewrite (lists_size_run (length es) 0); rewrite ?drop_0; [|done|lia|lia]. f_equal. lia.
Qed.

Section Target.
Context (capacity_i : Z) (reuse : bool).
Abbreviation cap := (capacity_taken s capacity_i).
Context (Hcap : Z.of_nat (length es) ≤ cap < 2 ^ 32 - 1) (Htotal : cap * element_stride_ (layout s) < 2 ^ 64).
Context (Hmem : enough_memory malloc s es cap).

Lemma load_run_file :
  ∃ s', hnsw_load uninit malloc (Some (enc_file s es)) (data_size_ (layout s)) capacity_i reuse = Done tt s' ∧ index_ok s' es ∧
    layout s' = reloaded (layout s) ∧ capacity_ s' = cap ∧ reuse_deleted_ s' = reuse.
Proof.
  pose proof (ix_rep _ _ Hix) as Hrep. pose proof (sv_file _ _ Hsave) as Hfile. pose proof (length_level0 s es Hrep) as Hl0.
  set (t := clear (hnsw_unset reuse)).
  assert (∀ e, e ∈ es → Z.of_nat (length (enc_upper e)) < 2 ^ 32) as Hfit'.
  { intros e [i Hi]%list_elem_of_lookup. by apply (sv_blocks _ _ Hsave i). }
  destruct (load_blocks_run uninit uninit_range malloc Hmalloc s es Hrep cap Hcap Htotal Hmem (index_header s)
    (concat (enc_record <$> es)) t capacity_i eq_refl) as (s1 & Hrun & Hs1).
  pose proof (loaded_rep s es Hrep cap Hcap Htotal t s1 Hs1 (loaded_labels 0 es ∅)) as Hrep'.
  set (s2 := with_lists _ _ _ s1) in *. pose proof (bl_rest _ _ _ _ _ Hs1) as (R1 & R2 & R3 & R4).
  assert (with_deleted ∅ (Z.of_nat (length (marked []))) s2 = s2) as Hs2.
  { change (deleted_count_ t) with 0 in R2. change (deleted_elements_ t) with (∅ : gset Z) in R3.
    unfold s2, with_lists. clear - R2 R3. destruct s1. cbn in R2, R3. by subst. }
  destruct (count_deleted_run es cap Hcap s2 es Hrep' [] ∅ eq_refl) as (D' & Hcount & HD').
  { intros i. split; [by intros ?%elem_of_empty|]. by intros [_ (e & [_ He] & _)]. }
  rewrite Hs2 in Hcount. cbn [length] in Hcount.
  assert (hnsw_load uninit malloc (Some (enc_file s es)) (data_size_ (layout s)) capacity_i reuse =
    Done tt (with_deleted D' (Z.of_nat (length (marked es))) s2)) as Hload.
  { unfold hnsw_load, loadIndex, enc_file. erewrite bind_Done by done. cbv zeta.
    erewrite bind_Done by exact (read_header_run s _ _ _ _ header_ok). do 2 erewrite bind_Done by done.
    fold t. set (h := with_header _ _ _ t) in *. change (element_count_ h) with (element_count_ s).
    change ((element_stride_ ∘ layout) h) with (element_stride_ (layout s)). rewrite (rep_count _ _ Hrep), Nat2Z.id.
    unfold size_mul. rewrite <- Hl0. unfold enc_file in Hfile. rewrite !length_app in Hfile. rewrite wrapu_small, seek_inp by lia.
    erewrite bind_Done by (apply skip_run; [done|by rewrite <- app_assoc]). rewrite tellg_inp, <- app_assoc, Z.eqb_refl.
    erewrite bind_Done by done. erewrite bind_Done by exact Hrun.
    assert (with_lists ∅ (link_blocks_ s1) (element_levels_ s1) s1 = s1) as Es1.
    { change (label_map_ t) with (∅ : gmap Z Z) in R1. unfold with_lists. rewrite <- R1. by destruct s1. }
    pose proof (load_lists_run malloc Hmalloc s es Hrep (sv_blocks _ _ Hsave) cap Hcap Htotal Hmem t s1 Hs1 es [] ∅
      (link_blocks_ s1) (element_levels_ s1) (index_header s ++ concat (enc_elem <$> es)) eq_refl) as Hll.
    rewrite (bl_blocks _ _ _ _ _ Hs1), (bl_levels _ _ _ _ _ Hs1), !length_replicate in Hll at 1.
    specialize (Hll eq_refl eq_refl). rewrite Es1 in Hll. erewrite bind_Done by exact Hll. exact Hcount. }
  eexists. split; [exact Hload|].
  assert (∀ i j e f, has es i e → has es j f → e_label e = e_label f → i = j) as Huniq by (intros; by eapply (label_once s es)).
  destruct Hs1 as [E1 E2 E3 E4 E5 _ _ _ _ E10 E11 _]. split; [|split_and!; [exact E1|exact E2|exact R4]].
  split.
  - by apply (rep_ext s2).
  - apply Hix.
  - exact E10.
  - change (pool_rep (Z.to_nat (capacity_ s1)) (visited_pool_ s1) ∅). by rewrite E2.
  - refine (loaded_labels_spec es [] ∅ Huniq _). intros a i. rewrite lookup_empty. split; [done|]. by intros (e & [_ He] & _).
  - change (entry_ok es (entry_id_ s1) (max_level_ s1)). rewrite E4, E5. apply Hix.
  - reflexivity.
  - exact HD'.
Qed.

(** C19: A well-formed index that fits the file format ([savable]) is saved to a file of the
    size [indexFileSize] says, and saving changes nothing.  The loading constructor, for
    the same space, with memory for the blocks, makes of the file an index with the same
    elements, links, marks and labels and the same layout but for [efSearch_], which is 10
    again ([reloaded]); the capacity is the one asked for unless the elements do not fit
    it, and then the saved one ([capacity_taken]).  (Nothing is said of [loadIndex] on an
    index that is in use.) *)
Theorem saved_index_loads :
  ∃ file s', saveIndex s = Done file s ∧ indexFileSize s = Done (Z.of_nat (length file)) s ∧
    hnsw_load uninit malloc (Some file) (data_size_ (layout s)) capacity_i reuse = Done tt s' ∧
    index_ok s' es ∧ layout s' = reloaded (layout s) ∧ capacity_ s' = cap ∧
    label_map_ s' = label_map_ s ∧ deleted_count_ s' = deleted_count_ s.
Proof.
  destruct load_run_file as (s' & Hrun & Hix' & Hlay & Hc & _). exists (enc_file s es), s'.
  split_and!; [apply save_index_run; [apply Hix|apply Hsave]|exact file_size_run|exact Hrun|exact Hix'|exact Hlay|exact Hc| |
    by rewrite (ix_deleted _ _ Hix'), (ix_deleted _ _ Hix)].
  apply map_eq. intros a. destruct (label_map_ s' !! a) as [i|] eqn:E; symmetry.
  - apply (ix_labels _ _ Hix), (ix_labels _ _ Hix'), E.
  - destruct (label_map_ s !! a) as [i|] eqn:E'; [|done]. by rewrite (proj2 (ix_labels _ _ Hix' a i) (proj1 (ix_labels _ _ Hix a i) E')) in E.
Qed.
End Target.

(** ** A file that is cut short *)
Lemma skip_bad n total input t : good input = false → 0 ≤ total →
  skip_lists n total input t = if n is O then Done input t else Throw (runtime_error "Index seems to be corrupted or unsupported") t.
Proof. intros Hbad Ht. destruct n as [|n]; [done|]. cbn [skip_lists]. unfold tellg. by rewrite Hbad. Qed.

(** The stream has failed, or less than [n] bytes are left. *)
Definition short (n : nat) (input : ifstream) : Prop :=
  good input = true → 0 ≤ position input ≤ Z.of_nat (length (contents input)) ∧ Z.of_nat (length (contents input)) - position input < Z.of_nat n.

Lemma readPOD_short k n old input z input' : short (k + n) input → readPOD k old input = (z, input') → short n input'.
Proof.
  unfold readPOD, read_stream. intros Hs. destruct (good input) eqn:Hg.
  - destruct (Hs Hg) as [Hp Hleft]. intros [= _ <-] Hok. cbn [good position contents] in *. rewrite length_drop, length_le_bytes in *.
    apply Nat.leb_le in Hok. lia.
  - intros [= _ <-]. intros Hok. congruence.
Qed.

Lemma read_header_short data_size capacity_i input t : short 96 input →
  ∃ input' t', read_header data_size capacity_i input t = Done input' t' ∧ good input' = false.
Proof.
  intros Hs. unfold read_header. unfold mbind at 1, M_bind at 1, get. cbv zeta.
  do 13 (match goal with Hs : short ?m ?i |- context [readPOD ?k ?o ?i] =>
    let z := fresh "z" in let i' := fresh "i" in let E := fresh "E" in
    destruct (readPOD k o i) as [z i'] eqn:E; apply (readPOD_short k (m - k)) in E; [|exact Hs]; clear Hs; cbn [Nat.sub] in E; rename E into Hs end).
  eexists _, _. split; [done|]. apply not_true_iff_false. intros Hok. destruct (Hs Hok). lia.
Qed.

(** What is left of the records of the elements. *)
Lemma skip_cut es' n t : ∀ pre,
  (∀ e, e ∈ es' → Z.of_nat (length (enc_upper e)) < 2 ^ 32) → (n < length (pre ++ concat (enc_record <$> es')))%nat →
  let file := take n (pre ++ concat (enc_record <$> es')) in
  (∃ t', skip_lists (length es') (Z.of_nat n) (mkIn file (Z.of_nat (length pre)) true) t =
    Throw (runtime_error "Index seems to be corrupted or unsupported") t') ∨
  (∃ input, skip_lists (length es') (Z.of_nat n) (mkIn file (Z.of_nat (length pre)) true) t = Done input t ∧ tellg input ≠ Z.of_nat n).
Proof.
  induction es' as [|e es' IH]; intros pre Hfit Hn file.
  { cbn in Hn. rewrite app_nil_r in Hn. right. eexists. split; [done|]. cbn. lia. }
  set (input0 := mkIn file (Z.of_nat (length pre)) true). cbn [length].
  destruct (Z.leb_spec (Z.of_nat n) (Z.of_nat (length pre))) as [Hbehind|Hin].
  { left. exists t. cbn [skip_lists]. unfold tellg, input0. cbn [good position]. by rewrite (proj2 (Z.leb_le _ _) Hbehind), orb_true_r. }
  assert (skip_lists (S (length es')) (Z.of_nat n) input0 t = (let '(size, input) := readPOD 4 0 input0 in
    skip_lists (length es') (Z.of_nat n) (if size =? 0 then input else seek_cur size input)) t) as ->.
  { cbn [skip_lists]. erewrite bind_Done; [reflexivity|]. unfold tellg, input0. cbn [good position].
    by rewrite (proj2 (Z.ltb_ge _ _)), (proj2 (Z.leb_gt _ _)) by lia. }
  unfold input0. clear input0.
  assert (length file = n) as Hlen by (unfold file; rewrite length_take; lia).
  set (rest := enc_upper e ++ concat (enc_record <$> es')).
  assert (file = pre ++ take (n - length pre) (writeBinaryPOD 4 (Z.of_nat (length (enc_upper e))) ++ rest)) as Hfile.
  { unfold file, rest. cbn [fmap list_fmap concat]. unfold enc_record at 1. rewrite <- app_assoc, take_app, take_ge by lia. done. }
  destruct (decide (n - length pre < 4)%nat) as [Hcut|Hwhole].
  - destruct (readPOD 4 0 (mkIn file (Z.of_nat (length pre)) true)) as [z input] eqn:E.
    assert (good input = false) as Hbad.
    { unfold readPOD, read_stream in E. cbn [good contents position] in E. injection E as _ <-. cbn [good].
      rewrite length_drop, Hlen, Nat2Z.id.
      destruct (n - length pre)%nat as [|[|[|[|k]]]]; [done|done|done|done|lia]. }
    assert ((if z =? 0 then input else seek_cur z input) = input) as ->.
    { destruct (z =? 0); [done|]. unfold seek_cur. by rewrite Hbad. }
    rewrite (skip_bad _ _ _ _ Hbad) by lia. destruct (length es'); [right|left; eauto].
    eexists. split; [done|]. unfold tellg. rewrite Hbad. lia.
  - assert (readPOD 4 0 (mkIn file (Z.of_nat (length pre)) true) =
      (Z.of_nat (length (enc_upper e)), mkIn file (Z.of_nat (length pre + 4)) true)) as ->.
    { pose proof (Hfit e ltac:(by left)) as He. rewrite take_app, take_ge in Hfile by (unfold writeBinaryPOD; rewrite length_le_bytes; lia).
      rewrite Hfile at 1. change (mkIn (pre ++ ?x) _ true) with (inp pre x). rewrite readPOD_inp. unfold inp.
      rewrite <- app_assoc, <- Hfile, length_app. unfold writeBinaryPOD. rewrite length_le_bytes.
      change (8 * Z.of_nat 4) with 32. by rewrite wrapu_small by lia. }
    cbv beta iota zeta.
    replace (if _ =? 0 then _ else _) with (mkIn file (Z.of_nat (length (pre ++ enc_record e))) true).
    + destruct (IH (pre ++ enc_record e)) as [Hth|Hdone].
      * intros f Hf. apply Hfit. by right.
      * by rewrite <- app_assoc.
      * left. rewrite <- app_assoc in Hth. exact Hth.
      * right. rewrite <- app_assoc in Hdone. exact Hdone.
    + rewrite length_app, length_record. destruct (Z.eqb_spec (Z.of_nat (length (enc_upper e))) 0) as [Hz|_]; [f_equal; lia|].
      unfold seek_cur. cbn [good position contents]. pose proof (Hfit e ltac:(by left)) as He.
      rewrite wraps_small by lia. rewrite (proj2 (Z.leb_le _ _)) by lia. f_equal. lia.
Qed.

(** C34: A saved index that is cut short anywhere is rejected: the load throws that the file is
    corrupted. *)
Theorem truncated_file_rejected file n data_size capacity_i reuse :
  saveIndex s = Done file s → (n < length file)%nat →
  ∃ s', hnsw_load uninit malloc (Some (take n file)) data_size capacity_i reuse =
    Throw (runtime_error "Index seems to be corrupted or unsupported") s'.
Proof.
  pose proof (ix_rep _ _ Hix) as Hrep. rewrite (save_index_run s es Hrep (sv_blocks _ _ Hsave)). intros [= <-] Hn.
  pose proof (sv_file _ _ Hsave) as Hfile. pose proof (length_level0 s es Hrep) as Hl0.
  assert (length (take n (enc_file s es)) = n) as Hlen by (rewrite length_take; lia).
  unfold hnsw_load, loadIndex. erewrite bind_Done by done. cbv zeta. rewrite Hlen. set (t := clear _).
  destruct (decide (n < 96)%nat) as [Hshort|Hlong].
  - destruct (read_header_short data_size capacity_i (mkIn (take n (enc_file s es)) 0 true) t) as (input & t' & Hrun & Hbad).
    { intros _. cbn [position contents]. rewrite Hlen. lia. }
    erewrite bind_Done by exact Hrun. do 2 erewrite bind_Done by done.
    replace (seek_cur _ input) with input by (unfold seek_cur; by rewrite Hbad).
    exists t'. destruct (Z.to_nat (element_count_ t')) as [|k] eqn:Ek.
    + erewrite bind_Done by (rewrite (skip_bad _ _ _ _ Hbad) by lia; done). apply bind_Throw.
      unfold tellg. rewrite Hbad. by rewrite (proj2 (Z.eqb_neq _ _)) by lia.
    + apply bind_Throw. by rewrite (skip_bad _ _ _ _ Hbad) by lia.
  - assert (take n (enc_file s es) = index_header s ++ take (n - 96) (concat (enc_elem <$> es) ++ concat (enc_record <$> es))) as Hsplit.
    { unfold enc_file. rewrite take_app, take_ge, length_header by (rewrite length_header; lia). done. }
    assert (read_header data_size capacity_i (mkIn (take n (enc_file s es)) 0 true) t =
      Done (inp (index_header s) (take (n - 96) (concat (enc_elem <$> es) ++ concat (enc_record <$> es)))) (with_header s data_size capacity_i t)) as Hrun.
    { rewrite Hsplit. exact (read_header_run s t data_size capacity_i _ header_ok). }
    erewrite bind_Done by exact Hrun. do 2 erewrite bind_Done by done.
    set (h := with_header _ _ _ t) in *. change (element_count_ h) with (element_count_ s).
    change ((element_stride_ ∘ layout) h) with (element_stride_ (layout s)). rewrite (rep_count _ _ Hrep), Nat2Z.id.
    unfold size_mul. rewrite <- Hl0. unfold enc_file in Hfile. rewrite !length_app in Hfile. rewrite wrapu_small by lia.
    replace (seek_cur _ _) with (mkIn (take n (enc_file s es)) (Z.of_nat (length (index_header s ++ concat (enc_elem <$> es)))) true).
    2: { unfold seek_cur, inp. cbn [good position contents]. rewrite wraps_small, (proj2 (Z.leb_le _ _)) by lia.
      rewrite Hsplit, length_app. f_equal. lia. }
    destruct (skip_cut es n h (index_header s ++ concat (enc_elem <$> es))) as [[t' Hth]|(input & Hdone & Hne)].
    + intros e [i Hi]%list_elem_of_lookup. by apply (sv_blocks _ _ Hsave i).
    + unfold enc_file in Hn. by rewrite <- app_assoc.
    + exists t'. rewrite <- app_assoc in Hth. by apply bind_Throw.
    + exists h. rewrite <- app_assoc in Hdone. erewrite bind_Done by exact Hdone. apply bind_Throw.
      by rewrite (proj2 (Z.eqb_neq _ _) Hne).
Qed.
End Roundtrip.

(** ** On the sample index *)
Section Sample.
#[local] Existing Instance std_shared_mutex.

Lemma sample_savable : savable sample_index sample_elements.
Proof.
  split; try (cbn; lia).
  - intros i e He. assert (has sample_elements (Z.of_nat i) e) as [[Hi|[Hi|Hi]] ->]%sample_has by (split; [lia|by rewrite Nat2Z.id]);
      rewrite Hi; by vm_compute.
Qed.

Lemma sample_memory cap : enough_memory sample_malloc sample_index sample_elements cap.
Proof. split; intros; by eexists. Qed.

Lemma saved_index_loads_witness : ∃ file s', saveIndex sample_index = Done file sample_index ∧ length file = 219%nat ∧
  hnsw_load sample_uninit sample_malloc (Some file) 1 10 true = Done tt s' ∧ index_ok s' sample_elements ∧ capacity_ s' = 10.
Proof.
  destruct (saved_index_loads sample_uninit sample_uninit_range sample_malloc sample_malloc_ok sample_index sample_elements
    sample_index_ok sample_savable 10 true) as (file & s' & Hsave & Hsize & Hload & Hix & _ & Hcap & _);
    [by vm_compute|by vm_compute|apply sample_memory|].
  exists file, s'. split; [exact Hsave|]. split; [|exact (conj Hload (conj Hix Hcap))].
  rewrite (file_size_run sample_index sample_elements sample_index_ok sample_savable) in Hsize. injection Hsize as Hsize.
  apply Nat2Z.inj. rewrite <- Hsize. by vm_compute.
Defined.

Lemma truncated_file_rejected_witness : ∃ file s', saveIndex sample_index = Done file sample_index ∧
  hnsw_load sample_uninit sample_malloc (Some (take 200 file)) 1 10 true =
    Throw (runtime_error "Index seems to be corrupted or unsupported") s'.
Proof.
  exists (enc_file sample_index sample_elements).
  destruct (truncated_file_rejected sample_uninit sample_malloc sample_index sample_elements sample_index_ok sample_savable
    (enc_file sample_index sample_elements) 200 1 10 true) as (s' & Hrun).
  - apply save_index_run; [apply sample_rep|apply sample_savable].
  - apply Nat.ltb_lt. vm_compute. reflexivity.
  - exists s'. split; [apply save_index_run; [apply sample_rep|apply sample_savable]|exact Hrun].
Defined.
End Sample.
