(* ===== verification/HnswSpec.v ===== *)
(** What the operations of src/hnsw/hnsw_scratch/hnsw_core.hpp do with a well-formed
    index, each with a run on the sample index. *)

From S2P Require Import Prelude Bytes Memory CxxLib NearestQueue MaxQueue VisitedList Wp Hnsw HnswRep HnswSearch HnswHeuristic HnswGraph HnswDescent HnswIndex HnswInsert HnswMarks HnswUpdate HnswFile HnswSample.

(** ** Adding an element *)
Section Add.
Context {LP : LockPolicy} {Q : Type} `{MaxQueueLaws Q}.
Context (uninit : loc → nat → Z) (uninit_range : ∀ a i, 0 ≤ uninit a i < 2 ^ 16).
Context (malloc : Z → option memory) (distance : list byte → list byte → Z) (dist_max : Z).
Context (iterate : gset Z → list Z) (Hiter : iterate_ok iterate).
Context (s : HierarchicalNSW) (es : list element).

(** The vector of [dp] is stored under the label, and the other elements keep all but
    their links. *)
Record stored_as (dp : list byte) (label i : Z) (es' : list element) (s' : HierarchicalNSW) : Prop := {
  sa_index : index_ok s' es';
  sa_elem : ∃ e, has es' i e ∧ e_label e = label ∧ e_vector e = take (Z.to_nat (data_size_ (layout s))) dp ∧ deleted e = false;
  sa_rest : ∀ j e, j ≠ i → has es j e → ∃ e', has es' j e' ∧ same_shape e e';
  sa_count : length es' = (if bool_decide (is_Some (label_map_ s !! label)) then length es else S (length es));
  sa_layout : layout s' = layout s ∧ capacity_ s' = capacity_ s ∧ reuse_deleted_ s' = reuse_deleted_ s;
}.

(** What is asked of the call.  An update needs a search for at least one candidate - the
    constructor leaves [efConstruction_] at 0, see [HnswSample.update_after_constructor] -
    and a new label needs memory and neighbours that can be found. *)
Record may_store (dp : list byte) (label cl : Z) (fuel : nat) : Prop := {
  ms_index : index_ok s es;
  ms_range : 0 ≤ label < 2 ^ 64;
  ms_vector : data_size_ (layout s) ≤ Z.of_nat (length dp);
  ms_ef : 0 ≤ efConstruction_ (layout s);
  ms_update : ∀ i e, has es i e → e_label e = label → reuse_deleted_ s && deleted e = false → 0 < efConstruction_ (layout s);
  ms_fuel : (S (length es) < fuel)%nat;
  ms_level : 0 ≤ cl < 2 ^ 31;
  ms_memory : label_map_ s !! label = None → cl ≠ 0 → is_Some (malloc (link_stride_ (layout s) * cl + 1));
  ms_find : label_map_ s !! label = None → element_count_ s < capacity_ s → findable (s0 := s) (entry_id_ s) es;
}.

(** An element that is there is updated. *)
Lemma wp_update_known fuel dp label i e skip :
  index_ok s es → has es i e → e_label e = label → deleted e = false → data_size_ (layout s) ≤ Z.of_nat (length dp) →
  0 < efConstruction_ (layout s) → (length es < fuel)%nat →
  wp (updatePoint uninit distance dist_max iterate fuel dp i skip) (λ _ s', ∃ es', stored_as dp label i es' s') s.
Proof.
  intros Hix He Hl Hd Hdp Hef Hfuel.
  apply (wp_updatePoint (s0 := s) uninit uninit_range distance dist_max iterate Hiter es s i e);
    [by apply index_holds|apply Hix|exact He|exact Hd|apply Hix|done|done|done|].
  cbn zeta. set (v := take _ dp). intros es' s' Hh Hsh Hg. exists es'.
  assert (roles es (<[Z.to_nat i := set_vector v e]> es)) as Hr.
  { apply Forall2_same_length_lookup_2; [by rewrite length_insert|]. intros j f f' Hf Hf'.
    apply list_lookup_insert_Some in Hf' as [(<- & <- & _)|[_ Hf']].
    - destruct He as [_ He]. assert (f = e) as -> by congruence. by split.
    - assert (f' = f) as -> by congruence. by split. }
  split.
  - apply (index_ok_roles s es); [done| |done|done]. etrans; [exact Hr|]. by apply shapes_roles.
  - assert (has (<[Z.to_nat i := set_vector v e]> es) i (set_vector v e)) as He' by (apply (has_insert es i e); [done|by left]).
    destruct (shapes_has _ _ _ _ Hsh He') as (e' & He'' & [Hv Hlab _ Hm]). exists e'. split_and!; [done|by rewrite Hlab|done|by rewrite Hm].
  - intros j f Hne Hf. apply (shapes_has _ _ j f Hsh). apply (has_insert es i e); [done|by right].
  - rewrite bool_decide_true by (exists i; apply (ix_labels _ _ Hix); eauto). by rewrite <- (Forall2_length _ _ _ Hsh), length_insert.
  - destruct Hh as [Hf _ _ _]. rewrite Hf. done.
Qed.
End Add.

(** An element that is marked is unmarked first. *)
Lemma stored_unmarked s es i e s1 dp label es' s' :
  index_ok s es → has es i e → e_label e = label → layout s1 = layout s → capacity_ s1 = capacity_ s →
  reuse_deleted_ s1 = reuse_deleted_ s → label_map_ s1 = label_map_ s →
  stored_as s1 (<[Z.to_nat i := unmark_elem e]> es) dp label i es' s' → stored_as s es dp label i es' s'.
Proof.
  intros Hix He Hl E1 E2 E3 E4 [H1 H2 H3 H4 H5]. rewrite E1, E2, E3, E4, length_insert in *. split; try done.
  intros j f Hne Hf. apply H3; [done|]. apply (has_insert es i e); [done|by right].
Qed.

Section Point.
Context {LP : LockPolicy} {Q : Type} `{MaxQueueLaws Q}.
Context (uninit : loc → nat → Z) (uninit_range : ∀ a i, 0 ≤ uninit a i < 2 ^ 16).
Context (malloc : Z → option memory) (distance : list byte → list byte → Z) (dist_max : Z).
Context (iterate : gset Z → list Z) (Hiter : iterate_ok iterate).
Context (s : HierarchicalNSW) (es : list element).

(** The label is there: the id, and when the call is refused. *)
Lemma point_known fuel dp label level drawn i e :
  may_store malloc s es dp label (level_taken level drawn) fuel → has es i e → e_label e = label →
  reuse_deleted_ s && deleted e = false →
  wp (addPoint_level uninit malloc distance dist_max iterate fuel dp label level drawn)
    (λ j s', j = i ∧ ∃ es', stored_as s es dp label i es' s') s.
Proof.
  intros [Hix Hr Hdp _ Hef Hfuel Hcl _ _] He Hl Hgo. assert (label_map_ s !! label = Some i) as Hm by (apply (ix_labels _ _ Hix); eauto).
  specialize (Hef i e He Hl Hgo).
  unfold addPoint_level. apply wp_bind, wp_gets. rewrite Hm. apply wp_bind, wp_gets.
  apply wp_bind. eapply wp_run; [exact (deleted_run s es i e Hix He)|]. cbn beta. apply wp_bind, wp_throw_if; [done|].
  apply wp_bind. destruct (deleted e) eqn:Hd.
  - destruct (unmark_deleted_run s es i e Hix He Hd) as (s1 & Hrun & Hix1 & d & Hs1 & _). eapply wp_run; [exact Hrun|].
    destruct (has_ok s es (ix_rep _ _ Hix) i e He) as [Hok _].
    apply wp_bind. eapply wp_mono; [apply (wp_update_known uninit uninit_range distance dist_max iterate Hiter s1 _ fuel dp label i (unmark_elem e) _ Hix1)|].
    + apply (has_insert es i e); [done|by left].
    + done.
    + by apply (unmark_elem_deleted (layout s)).
    + by rewrite Hs1.
    + by rewrite Hs1.
    + rewrite length_insert. lia.
    + intros [] s' [es' Hst]. apply wp_ret. split; [done|]. exists es'. 
      apply (stored_unmarked s es i e s1); [done|done|done|by rewrite Hs1|by rewrite Hs1|by rewrite Hs1|by rewrite Hs1|done].
  - apply wp_ret, wp_bind. eapply wp_mono; [apply (wp_update_known uninit uninit_range distance dist_max iterate Hiter s es fuel dp label i e); try done; lia|].
    intros [] s' Hst. by apply wp_ret.
Qed.

(** The label is new and there is room. *)
Lemma point_new fuel dp label level drawn :
  may_store malloc s es dp label (level_taken level drawn) fuel → label_map_ s !! label = None → element_count_ s < capacity_ s →
  wp (addPoint_level uninit malloc distance dist_max iterate fuel dp label level drawn)
    (λ j s', j = element_count_ s ∧ ∃ es', stored_as s es dp label j es' s') s.
Proof.
  intros [Hix Hr Hdp Hef _ Hfuel Hcl Hmem Hfind] Hm Hroom. specialize (Hmem Hm). specialize (Hfind Hm Hroom). rewrite (rep_count _ _ (ix_rep _ _ Hix)) in *.
  apply (wp_addPoint_new uninit uninit_range malloc distance dist_max iterate fuel dp label level drawn s es (level_taken level drawn)); [done| |].
  { by split. }
  intros es' s' [Hix' Hsh _ Hlay]. split; [done|]. exists es'. set (new := new_element _ _ _ _) in *. split; try done.
  - assert (has (es ++ [new]) (Z.of_nat (length es)) new) as Hn by (apply has_snoc; by right).
    destruct (shapes_has _ _ _ _ Hsh Hn) as (e' & He' & [Hv Hl _ Hd]). exists e'. split_and!; [done|by rewrite Hl|by rewrite Hv|by rewrite Hd].
  - intros j e _ He. apply (shapes_has _ _ j e Hsh). apply has_snoc. by left.
  - rewrite bool_decide_false by (rewrite Hm; by intros []). rewrite <- (Forall2_length _ _ _ Hsh), length_app. cbn. lia.
Qed.

(** A new label needs room, and one that waits for reuse is not updated. *)
Definition refused (label : Z) : Prop :=
  match label_map_ s !! label with
  | None => element_count_ s = capacity_ s
  | Some i => reuse_deleted_ s = true ∧ ∃ e, has es i e ∧ deleted e = true
  end.

(** Both cases, and when the call is refused. *)
Lemma addPoint_run fuel dp label level drawn :
  may_store malloc s es dp label (level_taken level drawn) fuel →
  match addPoint_level uninit malloc distance dist_max iterate fuel dp label level drawn s with
  | Done i s' => i = default (element_count_ s) (label_map_ s !! label) ∧
      (∃ es', stored_as s es dp label i es' s') ∧
      getDataByLabel (data_size_ (layout s)) label s' = Done (take (Z.to_nat (data_size_ (layout s))) dp) s' ∧ ¬ refused label
  | Throw _ s' => s' = s ∧ refused label
  | _ => False
  end.
Proof.
  intros Hms. pose proof (ms_index _ _ _ _ _ _ _ Hms) as Hix.
  assert (∀ i es' s', stored_as s es dp label i es' s' →
    getDataByLabel (data_size_ (layout s)) label s' = Done (take (Z.to_nat (data_size_ (layout s))) dp) s') as Hdata.
  { intros i es' s' [Hix' (e & He & Hl & Hv & Hd) _ _ [Hlay _]]. rewrite <- Hv, <- Hlay.
    by rewrite (data_run s' es' Hix' label i e He Hl), Hd. }
  unfold refused. destruct (label_map_ s !! label) as [i|] eqn:Hm; cbn [default].
  - destruct (proj1 (ix_labels _ _ Hix label i) Hm) as (e & He & Hl). destruct (reuse_deleted_ s && deleted e) eqn:Hno.
    + unfold addPoint_level. erewrite bind_Done by done. rewrite Hm. erewrite bind_Done by done.
      erewrite bind_Done by exact (deleted_run s es i e Hix He). rewrite Hno. cbn. apply andb_true_iff in Hno as [? ?]. by split_and!; [| |exists e].
    + destruct (wp_elim _ _ _ (point_known fuel dp label level drawn i e Hms He Hl Hno)) as (j & s' & -> & -> & es' & Hst).
      split_and!; [done|by exists es'|by eapply Hdata|]. intros [Hre (e' & He' & Hd)]. by rewrite Hre, (has_fun _ _ _ _ He He'), Hd in Hno.
  - destruct (Z.leb_spec (capacity_ s) (element_count_ s)) as [Hfull|Hroom].
    + unfold addPoint_level. erewrite bind_Done by done. rewrite Hm. do 2 erewrite bind_Done by done.
      rewrite (proj2 (Z.leb_le _ _) Hfull). cbn. split; [done|]. pose proof (ix_rep _ _ Hix) as Hrep.
      pose proof (rep_cap _ _ Hrep). rewrite (rep_count _ _ Hrep) in *. lia.
    + destruct (wp_elim _ _ _ (point_new fuel dp label level drawn Hms Hm Hroom)) as (j & s' & -> & -> & es' & Hst).
      split_and!; [done|by exists es'|by eapply Hdata|lia].
Qed.

(** [addPoint] returns with the vector stored under the label, in the element of the
    label or, when the label is new, in a new element: the index is well formed, the
    label's data is the vector and the other elements keep theirs.  It throws, and changes
    nothing, exactly when a new label finds the index full or the label's element is
    deleted and waits for reuse. *)
Theorem addPoint_stores fuel dp label level drawn :
  may_store malloc s es dp label (level_taken level drawn) fuel →
  match addPoint_level uninit malloc distance dist_max iterate fuel dp label level drawn s with
  | Done i s' => i = default (element_count_ s) (label_map_ s !! label) ∧
      (∃ es', stored_as s es dp label i es' s') ∧
      getDataByLabel (data_size_ (layout s)) label s' = Done (take (Z.to_nat (data_size_ (layout s))) dp) s' ∧ ¬ refused label
  | Throw _ s' => s' = s ∧ refused label
  | _ => False
  end.
Proof. apply addPoint_run. Qed.
End Point.

(** ** The graph *)
Section Graph.
Context {LP : LockPolicy} {Q : Type} `{MaxQueueLaws Q}.
Context (distance : list byte → list byte → Z).
Context (s : HierarchicalNSW) (es : list element) (Hix : index_ok s es).

Lemma index_after s' : holds s es ∅ ∅ s' → index_ok s' es.
Proof. intros Hh. apply (index_ok_roles s es es); [done|reflexivity|apply Hix|done]. Qed.

(** C10: The search of a layer of a well-formed index, from an element of the layer, ends,
    with fuel for every element: it has found live elements that can be reached over the
    links, each with its distance and at most [max(1, efConstruction_)] of them, and every
    live neighbour of one of them is found too or, when there are [efConstruction_] of
    them, is no closer than any; with room for all that can be reached it finds all.  The
    index is left as it was but for the visited lists. *)
Theorem layer_search_finds uninit dist_max fuel start e dp l :
  (∀ a i, 0 ≤ uninit a i < 2 ^ 16) → has es start e → 0 ≤ l ≤ e_level e → 0 ≤ efConstruction_ (layout s) → (length es < fuel)%nat →
  ∃ Top s', searchBaseLayer uninit distance dist_max fuel start dp l s = Done Top s' ∧ index_ok s' es ∧
    found distance es l start dp (efConstruction_ (layout s)) (q_elems Top).
Proof.
  intros Hun He [Hl Hle] Hef Hfuel. apply wp_elim.
  apply (wp_searchBaseLayer distance es l start dp _ Hef uninit Hun dist_max s ∅ ∅);
    [done|done| |by apply index_holds|done|eauto using index_after].
  intros j Hj. split; [set_solver|]. exact (reach_graph es l start e (ix_graph _ _ Hix l Hl) He Hle j Hj).
Qed.

(** C18: The heuristic keeps all candidates when there are fewer than [M]; otherwise it keeps at
    most [M], the closest first, each at least as far from the ones before it as from the
    query, and a candidate it drops is closer to a kept one than to the query or comes
    after [M] that are no further.  Nothing is changed. *)
Theorem heuristic_picks Top_K M :
  0 ≤ M → (∀ x, x ∈ q_elems Top_K → ∃ e, has es x.2 e) →
  ∃ Top', getNeighborsByHeuristic2 distance Top_K M s = Done Top' s ∧ picked (gap distance es) M (q_elems Top_K) (q_elems Top').
Proof.
  intros HM Hall.
  destruct (wp_elim _ _ _ (wp_heuristic distance (index_holds s es Hix) Top_K M
    (λ Top' s', s' = s ∧ picked (gap distance es) M (q_elems Top_K) (q_elems Top')) HM Hall (λ _ Hp, conj eq_refl Hp))) as (Top' & s' & Hrun & -> & Hp).
  eauto.
Qed.

(** C12: Connecting an element of a well-formed index to candidates of its level, a non-empty
    queue without repetition or the element itself, returns the closest candidate the
    heuristic keeps; unless it is updated the element starts without links at the level,
    and nobody links to it.  The element's links are the kept candidates.  A kept candidate with
    room gets a link back behind its old ones, one that has the link already stays as it
    is, and one whose list is full takes what the heuristic keeps of its old links and the
    new one, so that it may have no link back.  No other element changes, and the index
    stays well formed, with no link to itself, no link twice and no link below its level. *)
Theorem connect_joins (updateFlag : bool) c Top_K l ec ll :
  has es c ec → list_at ec l = Some ll → 0 ≤ l ≤ e_level ec →
  (updateFlag = false → l_count ll = 0 ∧ l_mark ll = 0 ∧ l_pad ll = 0 ∧ Forall (λ z, z = 0) (l_slots ll) ∧
     ∀ i e, has es i e → i ≠ c → c ∉ links e l) →
  q_elems Top_K ≠ [] → NoDup (snd <$> q_elems Top_K) →
  (∀ x, x ∈ q_elems Top_K → x.2 ≠ c ∧ ∃ e, has es x.2 e ∧ l ≤ e_level e) →
  ∃ obj s' es', mutuallyConnectNewElement distance c Top_K l updateFlag s = Done obj s' ∧ index_ok s' es' ∧
    joined distance (s0 := s) l c (q_elems Top_K) obj es es'.
Proof.
  intros Hc Hll Hl Hflag Hne Hnd Hall. pose proof (index_holds s es Hix) as Hh.
  destruct (wp_elim _ _ _ (wp_mutuallyConnect distance l updateFlag c Top_K es s ec ll
    (λ obj s', ∃ es', joined distance (s0 := s) l c (q_elems Top_K) obj es es' ∧ holds s es' ∅ ∅ s') Hh
    (ix_graph _ _ Hix l ltac:(lia)) Hc Hll Hl ltac:(by destruct updateFlag; [set_solver|apply Hflag]) Hne Hnd
    ltac:(intros x Hx; destruct (Hall x Hx) as [? ?]; split_and!; [done|set_solver|done]) (λ _ es' _ Hj Hh', ex_intro _ es' (conj Hj Hh'))))
    as (obj & s' & Hrun & es' & Hjoin & Hh').
  exists obj, s', es'. split_and!; [done| |done].
  apply (index_ok_roles s es); [done| | |done].
  - apply shapes_roles. destruct Hjoin as [Hev _]. exact (evolves_shapes _ _ _ Hev).
  - pose proof (joined_graph distance l c (q_elems Top_K) obj es es' s ec Hh (ix_graph _ _ Hix l ltac:(lia)) Hc Hl Hnd Hall Hjoin) as Hg.
    destruct Hjoin as [Hev _]. by eapply (evolves_graph_ok l es); [|apply Hix|].
Qed.

(** C20: The greedy walk over a level ends, with fuel for every element: it stops at an element
    that can be reached over the links, is no further from the query than the start and has
    no closer neighbour. *)
Theorem descent_ends_at_minimum fuel checked start e dp l :
  has es start e → 0 ≤ l ≤ e_level e → (length es < fuel)%nat →
  ∃ i d s', descend_level distance fuel checked dp l start (away distance dp e) s = Done (i, d) s' ∧ index_ok s' es ∧
    walked distance es dp l start i d.
Proof.
  intros He [Hl Hle] Hfuel.
  assert (∀ j, reach es l start j → j ∉ (∅ : gset Z) ∧ ∃ f, has es j f ∧ l ≤ e_level f) as Hgraph.
  { intros j Hj. split; [set_solver|]. exact (reach_graph es l start e (ix_graph _ _ Hix l Hl) He Hle j Hj). }
  destruct (wp_elim _ _ _ (wp_descend_level distance es dp l start Hl Hgraph fuel checked start e s
    (λ r s', holds s es ∅ ∅ s' ∧ walked distance es dp l start r.1 r.2) (index_holds s es Hix) (rtc_refl _ _) He
    ltac:(intros f Hf; by rewrite (has_fun _ _ _ _ He Hf)) ltac:(pose proof (closer_le distance es dp (away distance dp e)); lia)
    (λ _ _ _ Hw Hh, conj Hh Hw))) as ([i d] & s' & Hrun & Hh & Hw).
  eauto 10 using index_after.
Qed.
End Graph.

(** ** Growing the index *)
Section Resize.
Context {LP : LockPolicy} (uninit : loc → nat → Z) (uninit_range : ∀ a i, 0 ≤ uninit a i < 2 ^ 16).
Context (malloc : Z → option memory) (Hmalloc : malloc_ok malloc).
Context (s : HierarchicalNSW) (es : list element) (Hix : index_ok s es).

Lemma reads_realloc old b n pos bs :
  reads old pos bs → pos + Z.of_nat (length bs) ≤ n → Z.of_nat (length b) = n →
  reads (take (Z.to_nat n) old ++ drop (length old) b) pos bs.
Proof.
  intros (H1 & H2 & Hk) Hn Hb. unfold reads. rewrite length_app, length_take, length_drop. split_and!; [lia|lia|].
  intros k Hlt. rewrite lookup_app_l by (rewrite length_take; lia). rewrite lookup_take_lt by lia. by apply Hk.
Qed.

(** C35: [resizeIndex] keeps the elements, with their links and labels, and sets the capacity -
    the index may be added to up to it - unless it is asked for less room than the elements
    need: then it throws and changes nothing. *)
Theorem resize_keeps_elements n :
  0 ≤ n < 2 ^ 32 - 1 → n * element_stride_ (layout s) < 2 ^ 64 →
  is_Some (malloc (n * element_stride_ (layout s))) → is_Some (malloc (8 * n)) →
  match resizeIndex uninit malloc n s with
  | Done _ s' => element_count_ s ≤ n ∧ index_ok s' es ∧ capacity_ s' = n ∧ layout s' = layout s ∧ label_map_ s' = label_map_ s
  | Throw _ s' => n < element_count_ s ∧ s' = s
  | _ => False
  end.
Proof.
  intros Hn Htotal [b Hb] [ps Hps]. destruct Hix as [Hrep Hg Hlk Hpool Hlabels Hent Hdel Hreuse].
  pose proof (rep_layout _ _ Hrep) as Hlo. pose proof (layout_pos _ _ Hlo) as Hpos.
  unfold resizeIndex. erewrite bind_Done by done. destruct (Z.ltb_spec n (element_count_ s)) as [Hlt|Hle]; [done|].
  assert (0 ≤ n * element_stride_ (layout s)) by (apply Z.mul_nonneg_nonneg; lia).
  pose proof (Hmalloc _ _ ltac:(done) Hb) as Hlen.
  destruct (pool_new_run uninit uninit_range 1 (Z.to_nat n)) as (p & Hp & Hpool'); [lia|]. rewrite Z2Nat.id in Hp by lia.
  erewrite bind_Done by done. erewrite bind_Done by (unfold make_pool; by rewrite Hp). do 3 erewrite bind_Done by done.
  assert (size_mul n (element_stride_ (layout s)) = n * element_stride_ (layout s)) as Em by (unfold size_mul; rewrite wrapu_small; lia).
  assert (size_mul 8 n = 8 * n) as E8 by (unfold size_mul; rewrite wrapu_small; lia).
  cbn [compose layout set_link_locks set_element_levels set_visited_pool level0_data_]. unfold realloc. rewrite Em, Hb, E8. cbn [mbind option_bind].
  erewrite bind_Done by done. rewrite Hps. unfold modify. rewrite (rep_count _ _ Hrep) in *. split; [done|]. split; [|done].
  split; try done. clear Hg Hlk Hpool Hlabels Hent Hdel Hreuse Hpool' Hp.
  split; cbn; unfold resized; rewrite ?length_resize; try lia.
  - by destruct Hlo.
  - apply Hrep.
  - pose proof (rep_level0 _ _ Hrep). rewrite length_app, length_take, length_drop. lia.
  - intros i e He. destruct (rep_elems _ _ Hrep i e He) as [Hok [Hm0 Hmu Hml]]. split; [done|].
    pose proof (lookup_lt_Some _ _ _ He) as Hi. pose proof (rep_cap _ _ Hrep). pose proof (rep_blocks _ _ Hrep). pose proof (rep_levels _ _ Hrep).
    split; [|cbn|cbn].
    + apply (reads_realloc (level0_data_ s) b (n * element_stride_ (layout s))); [done| |lia]. rewrite (length_enc_elem _ _ _ Hlo Hok).
      assert ((Z.of_nat i + 1) * element_stride_ (layout s) ≤ n * element_stride_ (layout s)) by (apply Z.mul_le_mono_nonneg_r; lia).
      rewrite Z.mul_add_distr_r, Z.mul_1_l in *. assumption.
    + intros Hne. rewrite lookup_resize by lia. by apply Hmu.
    + by rewrite lookup_resize by lia.
Qed.
End Resize.

(** ** On the sample index *)
Section Sample.
#[local] Existing Instance std_shared_mutex.

Lemma sample_may_store : may_store sample_malloc sample_index sample_elements [Byte.x05] 12 1 10.
Proof. split; try (cbn; lia); [apply sample_index_ok|by eexists|]. left. apply sample_live. Qed.

Lemma addPoint_stores_witness : ∃ s' es',
  addPoint_level (Q := list entry) sample_uninit sample_malloc sample_distance 1000 elements 10 [Byte.x05] 12 (-1) 1 sample_index = Done 3 s' ∧
  stored_as sample_index sample_elements [Byte.x05] 12 3 es' s' ∧ getDataByLabel 1 12 s' = Done [Byte.x05] s'.
Proof.
  pose proof (addPoint_stores (Q := list entry) sample_uninit sample_uninit_range sample_malloc sample_distance 1000 elements
    ltac:(by intros X) sample_index sample_elements 10 [Byte.x05] 12 (-1) 1 sample_may_store) as Hs.
  destruct (addPoint_level _ _ _ _ _ _ _ _ _ _ _) as [i s'|ex s'| | | |]; try done.
  - destruct Hs as (-> & [es' Hst] & Hdata & _). by exists s', es'.
  - by destruct Hs as [_ Hs].
Defined.

Abbreviation sample_queue l := (foldr (q_emplace (Q := list entry)) q_empty l).

Lemma layer_search_finds_witness : ∃ Top s',
  searchBaseLayer (Q := list entry) sample_uninit sample_distance 1000 4 2 [Byte.x01] 0 sample_index = Done Top s' ∧
  found sample_distance sample_elements 0 2 [Byte.x01] 3 (q_elems Top).
Proof.
  destruct (layer_search_finds (Q := list entry) sample_distance sample_index sample_elements
    sample_index_ok sample_uninit 1000 4 2 (sample_element 2) [Byte.x01] 0) as (Top & s' & Hrun & _ & Hf);
    [exact sample_uninit_range|by apply has_sample|by vm_compute|done|cbn; lia|exists Top, s'; exact (conj Hrun Hf)].
Defined.

Lemma heuristic_picks_witness : ∃ Top',
  getNeighborsByHeuristic2 sample_distance (sample_queue [(1, 0); (2, 1); (8, 2)]) 2 sample_index = Done Top' sample_index ∧
  picked (gap sample_distance sample_elements) 2 (q_elems (sample_queue [(1, 0); (2, 1); (8, 2)])) (q_elems Top').
Proof.
  apply (heuristic_picks (Q := list entry) sample_distance sample_index sample_elements sample_index_ok (sample_queue [(1, 0); (2, 1); (8, 2)]) 2).
  - done.
  - intros x Hx. exists (sample_element x.2). apply has_sample. cbv in Hx. set_unfold in Hx. repeat destruct Hx as [-> |Hx]; cbn; lia.
Defined.

Lemma connect_joins_witness : ∃ obj s' es',
  mutuallyConnectNewElement sample_distance 2 (sample_queue [(9, 0); (6, 1)]) 0 true sample_index = Done obj s' ∧ index_ok s' es' ∧
  joined sample_distance (s0 := sample_index) 0 2 (q_elems (sample_queue [(9, 0); (6, 1)])) obj sample_elements es'.
Proof.
  apply (connect_joins (Q := list entry) sample_distance sample_index sample_elements sample_index_ok true 2 (sample_queue [(9, 0); (6, 1)]) 0
    (sample_element 2) (links_to 4 [1])); [by apply has_sample|done|by vm_compute|done|done| |].
  - apply (bool_decide_eq_true_1 _). by vm_compute.
  - intros x Hx. cbv in Hx. set_unfold in Hx. repeat destruct Hx as [-> |Hx]; try done; cbn [snd].
    all: split; [lia|]. all: eexists; split; [by apply has_sample|by vm_compute].
Defined.

Lemma descent_ends_at_minimum_witness : ∃ i d s',
  descend_level sample_distance 4 true [Byte.x08] 0 0 8 sample_index = Done (i, d) s' ∧
  walked sample_distance sample_elements [Byte.x08] 0 0 i d.
Proof.
  destruct (descent_ends_at_minimum sample_distance sample_index sample_elements sample_index_ok 4 true 0 (sample_element 0) [Byte.x08] 0)
    as (i & d & s' & Hrun & _ & Hw); [by apply has_sample|by vm_compute|cbn; lia|exists i, d, s'; exact (conj Hrun Hw)].
Defined.

Lemma resize_keeps_elements_witness :
  match resizeIndex sample_uninit sample_malloc 8 sample_index with
  | Done _ s' => index_ok s' sample_elements ∧ capacity_ s' = 8
  | _ => False
  end.
Proof.
  pose proof (resize_keeps_elements sample_uninit sample_uninit_range sample_malloc sample_malloc_ok sample_index sample_elements sample_index_ok 8
    ltac:(lia) ltac:(cbn; lia) ltac:(by eexists) ltac:(by eexists)) as Hr.
  destruct (resizeIndex _ _ _ _) as [[] s'|ex s'| | | |]; try done; [exact (conj (proj1 (proj2 Hr)) (proj1 (proj2 (proj2 Hr))))|].
  by destruct Hr as [Hlt _].
Defined.

Lemma unmark_undoes_mark_witness : ∃ s', markDelete 8 sample_index = Done tt s' ∧ unmarkDelete 8 s' = Done tt sample_index.
Proof.
  destruct (unmark_undoes_mark sample_index sample_elements 8 1 (sample_element 1) sample_index_ok) as [(s' & Hm & _ & _ & _ & _ & _ & Hu) _];
    [by apply has_sample|done|done|exists s'; exact (conj Hm Hu)].
Defined.
End Sample.
