(* ===== verification/HnswReplace.v ===== *)
(** The whole of [addPoint] of src/hnsw/hnsw_scratch/hnsw_core.hpp: an addition, an update, or
    the reuse of the place of a deleted element, which takes over another label. *)

From S2P Require Import Prelude Bytes Memory CxxLib NearestQueue MaxQueue VisitedList Wp Hnsw HnswRep HnswSearch HnswHeuristic HnswGraph HnswDescent HnswIndex HnswInsert HnswMarks HnswUpdate HnswFile HnswSample HnswSpec.

(** ** Another label for an element *)
Definition set_label (label : Z) (e : element) : element := mkElem (e_base e) (e_vector e) label (e_upper e).

Lemma label_bytes_run s es i e label :
  rep s es → has es i e → 0 ≤ label < 2 ^ 64 →
  ∃ d, setExternalLabel i label s = Done tt (set_level0_data d s) ∧ rep (set_level0_data d s) (<[Z.to_nat i := set_label label e]> es).
Proof.
  intros Hrep He Hlabel. destruct (has_ok s es Hrep i e He) as [Hok _].
  pose proof (rep_layout _ _ Hrep) as Hl. pose proof (length_enc_links _ _ (eo_base _ _ Hok)) as Hlen.
  destruct (store_elem s es i e (set_label label e) (enc_links (e_base e) ++ e_vector e) (le_bytes 8 (e_label e)) (le_bytes 8 label) []
    Hrep He) as (d & Hrun & Hrep'); [unfold enc_elem; by rewrite <- !app_assoc, app_nil_r|unfold enc_elem; by rewrite <- !app_assoc, app_nil_r
      |by rewrite !length_le_bytes| |done|].
  { destruct Hok. by split. }
  exists d. split; [|done]. unfold setExternalLabel. erewrite bind_Done.
  2: { apply (element_run s es Hrep i e _ He). destruct Hl; lia. }
  rewrite length_app, Nat2Z.inj_add, Hlen, (eo_vector _ _ Hok) in Hrun. rewrite <- Hrun.
  f_equal. f_equal. rewrite (lo_label _ _ Hl), (lo_data _ _ Hl), (lo_stride0 _ _ Hl). lia.
Qed.

(** [unmarkDeletedInternal] does not look at the set it takes the element out of. *)
Lemma unmark_apart s i s' :
  reuse_deleted_ s = true → unmarkDeletedInternal i s = Done tt s' →
  unmarkDeletedInternal i (set_deleted_elements (deleted_elements_ s ∖ {[i]}) s) = Done tt s'.
Proof.
  intros Hre. assert (∀ D : gset Z, D ∖ {[i]} ∖ {[i]} = D ∖ {[i]}) as Htwice by set_solver.
  destruct s as [lay cap n c mx en lv mem bl lk lm m1 m2 vp re D]. cbn in Hre. subst re.
  unfold unmarkDeletedInternal, isMarkedDeleted, get_neighbors_L0, element_at, gets, modify, assert_, throw, store, load.
  unfold mbind, M_bind, mret, M_ret. cbn. destruct (i <? n); [cbn|done].
  destruct (read_mem 1 (size_add (size_mul i (element_stride_ lay)) (link0_offset_ lay) + 2) mem) as [bs|] eqn:Hbs; [cbn|done].
  destruct (Z.land _ _ =? 0); cbn; [done|]. rewrite Hbs. cbn. destruct (write_mem _ _ mem); cbn; [|done].
  intros [= <-]. by rewrite Htwice.
Qed.

(** ** The map of the labels *)

(** An element takes over a label that is its own or nobody's. *)
Lemma labels_relabel s es i e label :
  index_ok s es → has es i e → (∀ j, label_map_ s !! label = Some j → j = i) →
  ∀ a j, (<[label := i]> (delete (e_label e) (label_map_ s))) !! a = Some j ↔
    ∃ f, has (<[Z.to_nat i := set_label label e]> es) j f ∧ e_label f = a.
Proof.
  intros Hix He Hfree a j. setoid_rewrite (has_insert es i e (set_label label e) j _ He).
  rewrite lookup_insert_Some, lookup_delete_Some. split.
  - intros [[<- <-]|(Hne & Hne' & Hm)]; [exists (set_label label e); by split; [left|]|].
    apply (ix_labels _ _ Hix) in Hm as (f & Hf & <-). exists f. split; [|done]. right. split; [|done].
    intros ->. by rewrite (has_fun _ _ _ _ Hf He) in Hne'.
  - intros (f & [[-> ->]|[Hne Hf]] & <-); [by left|]. right.
    assert (label_map_ s !! e_label f = Some j) as Hm by (apply (ix_labels _ _ Hix); eauto). split_and!; [| |done].
    + intros Hl. rewrite <- Hl in Hm. by apply Hne, Hfree.
    + intros Hl. assert (label_map_ s !! e_label e = Some i) as Hi by (apply (ix_labels _ _ Hix); eauto). congruence.
Qed.

(** The index whose element has the other label, still marked. *)
Lemma relabelled s es i e label d :
  index_ok s es → has es i e → (∀ j, label_map_ s !! label = Some j → j = i) →
  rep (set_level0_data d s) (<[Z.to_nat i := set_label label e]> es) →
  index_ok (set_label_map (<[label := i]> (delete (e_label e) (label_map_ s))) (set_level0_data d s)) (<[Z.to_nat i := set_label label e]> es).
Proof.
  intros Hix He Hfree Hrep. pose proof Hix as [H1 H2 H3 H4 H5 H6 H7 H8]. split; try done; cbn.
  - by apply (rep_ext (set_level0_data d s)).
  - by apply (graph_insert _ _ e).
  - by apply labels_relabel.
  - by apply (entry_insert _ _ e).
  - pose proof (marked_insert es i e (set_label label e) He) as Hm. unfold deleted in *. cbn in Hm. lia.
  - intros j. rewrite H8. setoid_rewrite (has_insert es i e (set_label label e) j _ He). split; intros [Hre (f & Hf & Hd)]; (split; [done|]).
    + destruct (decide (j = i)) as [->|Hne]; [|exists f; by split; [right|]].
      rewrite (has_fun _ _ _ _ Hf He) in Hd. exists (set_label label e). by split; [left|].
    + destruct Hf as [[-> ->]|[_ Hf]]; [by exists e|by exists f].
Qed.

(** ** The addition *)
Section Public.
Context {LP : LockPolicy} {Q : Type} `{MaxQueueLaws Q}.
Context (uninit : loc → nat → Z) (uninit_range : ∀ a i, 0 ≤ uninit a i < 2 ^ 16).
Context (malloc : Z → option memory) (distance : list byte → list byte → Z) (dist_max : Z).
Context (iterate : gset Z → list Z) (Hiter : iterate_ok iterate).
Context (s : HierarchicalNSW) (es : list element).

(** The place of a deleted element, when the caller asks for one. *)
Definition vacant (reuse : bool) : option Z := if reuse && reuse_deleted_ s then head (iterate (deleted_elements_ s)) else None.

(** What is asked of the call.  An update and a reuse need a search for at least one
    candidate, memory and neighbours are needed for a new element only, and a place that is
    reused must not leave another element with the label behind. *)
Record may_place (dp : list byte) (label drawn : Z) (reuse : bool) (fuel : nat) : Prop := {
  mp_index : index_ok s es;
  mp_range : 0 ≤ label < 2 ^ 64;
  mp_vector : data_size_ (layout s) ≤ Z.of_nat (length dp);
  mp_ef : 0 ≤ efConstruction_ (layout s);
  mp_reuse : is_Some (vacant reuse) → 0 < efConstruction_ (layout s);
  mp_update : ∀ i e, has es i e → e_label e = label → reuse_deleted_ s && deleted e = false → 0 < efConstruction_ (layout s);
  mp_fuel : (S (length es) < fuel)%nat;
  mp_level : 0 ≤ drawn < 2 ^ 31;
  mp_memory : vacant reuse = None → label_map_ s !! label = None → drawn ≠ 0 → is_Some (malloc (link_stride_ (layout s) * drawn + 1));
  mp_find : vacant reuse = None → label_map_ s !! label = None → element_count_ s < capacity_ s → findable (s0 := s) (entry_id_ s) es;
  mp_free : ∀ i j, vacant reuse = Some i → label_map_ s !! label = Some j → j = i;
}.

(** The vector is stored under the label in the element [i]; the others keep all but their links. *)
Record added_as (reuse : bool) (dp : list byte) (label i : Z) (es' : list element) (s' : HierarchicalNSW) : Prop := {
  aa_index : index_ok s' es';
  aa_elem : ∃ e, has es' i e ∧ e_label e = label ∧ e_vector e = take (Z.to_nat (data_size_ (layout s))) dp ∧ deleted e = false;
  aa_rest : ∀ j e, j ≠ i → has es j e → ∃ e', has es' j e' ∧ same_shape e e';
  aa_count : length es' = (if bool_decide (is_Some (vacant reuse) ∨ is_Some (label_map_ s !! label)) then length es else S (length es));
  aa_layout : layout s' = layout s ∧ capacity_ s' = capacity_ s ∧ reuse_deleted_ s' = reuse_deleted_ s;
}.

Lemma vacant_some reuse i :
  index_ok s es → vacant reuse = Some i →
  reuse = true ∧ reuse_deleted_ s = true ∧ (∃ rest, iterate (deleted_elements_ s) = i :: rest) ∧ ∃ e, has es i e ∧ deleted e = true.
Proof.
  intros Hix. unfold vacant. destruct reuse, (reuse_deleted_ s) eqn:Hre; try done. cbn.
  destruct (iterate _) as [|i' rest] eqn:Hit; [done|]. intros [= ->]. split_and!; [done|done|by exists rest|].
  apply (ix_reuse _ _ Hix i). apply elem_of_elements. rewrite <- (Hiter (deleted_elements_ s)), Hit. by left.
Qed.

(** The label of the place changes, and its mark goes. *)
Lemma place_taken label i e (k : MH unit) (Φ : unit → HierarchicalNSW → Prop) :
  index_ok s es → has es i e → deleted e = true → reuse_deleted_ s = true → 0 ≤ label < 2 ^ 64 →
  (∀ j, label_map_ s !! label = Some j → j = i) →
  (∀ s', index_ok s' (<[Z.to_nat i := unmark_elem (set_label label e)]> (<[Z.to_nat i := set_label label e]> es)) →
    layout s' = layout s ∧ capacity_ s' = capacity_ s ∧ reuse_deleted_ s' = reuse_deleted_ s → wp k Φ s') →
  wp (modify (λ s, set_deleted_elements (deleted_elements_ s ∖ {[i]}) s) ;;
      label_replaced ← getExternalLabel i;
      setExternalLabel i label ;;
      modify (λ s, set_label_map (<[label := i]> (delete label_replaced (label_map_ s))) s) ;;
      unmarkDeletedInternal i ;; k) Φ s.
Proof.
  intros Hix He Hd Hre Hr Hfree Hk. apply wp_bind, wp_modify. set (sa := set_deleted_elements _ s).
  assert (rep sa es) as Hrepa by (apply (rep_ext s); try done; apply Hix).
  assert (holds sa es ∅ ∅ sa) as Hha.
  { pose proof (holds_start sa es ∅ Hrepa (ix_pool _ _ Hix)) as Hh. change (link_locks_ sa) with (link_locks_ s) in Hh. by rewrite (ix_locks _ _ Hix) in Hh. }
  apply wp_bind, (wp_label Hha i e); [done|]. destruct (label_bytes_run sa es i e label Hrepa He Hr) as (d & Hset & Hrep).
  apply wp_bind. eapply wp_run; [exact Hset|]. apply wp_bind, wp_modify.
  assert (rep (set_level0_data d s) (<[Z.to_nat i := set_label label e]> es)) as Hreps by by apply (rep_ext (set_level0_data d sa)).
  pose proof (relabelled s es i e label d Hix He Hfree Hreps) as Hix2. set (s2 := set_label_map _ (set_level0_data d s)) in Hix2.
  assert (has (<[Z.to_nat i := set_label label e]> es) i (set_label label e)) as He2 by (apply (has_insert es i e); [done|by left]).
  destruct (unmark_deleted_run s2 _ i (set_label label e) Hix2 He2 Hd) as (s3 & Hun & Hix3 & d' & Hs3 & _).
  apply wp_bind. eapply wp_run; [exact (unmark_apart s2 i s3 Hre Hun)|]. apply Hk; [done|]. by rewrite Hs3.
Qed.

(** Reusing a place. *)
Lemma place_run fuel dp label drawn reuse i :
  may_place dp label drawn reuse fuel → vacant reuse = Some i →
  wp (addPoint uninit malloc distance dist_max iterate fuel dp label reuse drawn) (λ _ s', ∃ es', added_as reuse dp label i es' s') s.
Proof.
  intros [Hix Hr Hdp _ Hef _ Hfuel _ _ _ Hfree] Hv. specialize (Hfree i). specialize (Hef (ex_intro _ i Hv)).
  destruct (vacant_some reuse i Hix Hv) as (-> & Hre & (rest & Hit) & e & He & Hd).
  unfold addPoint. apply wp_bind, wp_gets. apply wp_bind, wp_throw_if; [by rewrite Hre|]. cbn [negb].
  apply wp_bind, wp_gets. rewrite Hit. apply (place_taken label i e); [done|done|done|done|done|by intros j; apply Hfree|].
  intros s3 Hix3 (E1 & E2 & E3). destruct (has_ok s es (ix_rep _ _ Hix) i e He) as [Hok _].
  set (es3 := <[Z.to_nat i := unmark_elem _]> _) in Hix3. assert (has es3 i (unmark_elem (set_label label e))) as He3.
  { unfold es3. rewrite list_insert_insert_eq. apply (has_insert es i e); [done|by left]. }
  assert (length es3 = length es) as Hlen by (unfold es3; by rewrite !length_insert).
  eapply wp_mono; [apply (wp_update_known uninit uninit_range distance dist_max iterate Hiter s3 es3 fuel dp label i _ _ Hix3 He3)|]; try done.
  - by apply (unmark_elem_deleted (layout s) e).
  - by rewrite E1.
  - by rewrite E1.
  - lia.
  - intros [] s' [es' [H1 H2 H3 H4 (F1 & F2 & F3)]]. exists es'. rewrite E1 in H2. split; [done|done| | |by rewrite F1, F2, F3].
    + intros j f Hne Hf. apply H3; [done|]. unfold es3. rewrite list_insert_insert_eq. apply (has_insert es i e); [done|by right].
    + rewrite bool_decide_true by (left; by eexists). rewrite H4, Hlen, bool_decide_true; [done|]. exists i.
      apply (ix_labels _ _ Hix3). by exists (unmark_elem (set_label label e)).
Qed.

(** The label that is given up is unknown afterwards. *)
Lemma label_given_up dp label i e es' s' reuse :
  index_ok s es → has es i e → e_label e ≠ label → vacant reuse = Some i → added_as reuse dp label i es' s' →
  label_map_ s' !! e_label e = None.
Proof.
  intros Hix He Hne Hv [Hix' (e' & He' & Hl' & _) Hrest Hcount _]. destruct (label_map_ s' !! e_label e) as [j|] eqn:Hj; [|done].
  apply (ix_labels _ _ Hix') in Hj as (f & Hf & Hlf). destruct (decide (j = i)) as [->|Hji].
  { rewrite (has_fun _ _ _ _ Hf He') in Hlf. congruence. }
  rewrite bool_decide_true in Hcount by (left; by eexists). destruct Hf as [Hj0 Hf].
  destruct (lookup_lt_is_Some_2 es (Z.to_nat j)) as [g Hg]; [rewrite <- Hcount; by eapply lookup_lt_Some|].
  destruct (Hrest j g Hji) as (g' & Hg' & [_ Hlg _ _]); [by split|]. rewrite (has_fun _ _ _ _ Hg' (conj Hj0 Hf)) in Hlg.
  destruct Hji. apply (label_once s es j i g e Hix); [by split|done|congruence].
Qed.
(** Without a place to reuse [addPoint] is the addition without a level. *)
Lemma addPoint_plain fuel dp label drawn reuse :
  vacant reuse = None → negb (reuse_deleted_ s) && reuse = false →
  addPoint uninit malloc distance dist_max iterate fuel dp label reuse drawn s =
  (addPoint_level uninit malloc distance dist_max iterate fuel dp label (-1) drawn ;; mret tt) s.
Proof.
  intros Hv Hre. unfold addPoint, throw_if. erewrite bind_Done by done. rewrite Hre. erewrite bind_Done by done.
  destruct reuse; [|done]. cbn [negb]. erewrite bind_Done by done. unfold vacant in Hv.
  destruct (reuse_deleted_ s); [|done]. cbn in Hv. by destruct (iterate _).
Qed.

(** When the call throws. *)
Definition turned_away (reuse : bool) (label : Z) : Prop :=
  reuse = true ∧ reuse_deleted_ s = false ∨ vacant reuse = None ∧ refused s es label.

Lemma plain_run fuel dp label drawn reuse :
  may_place dp label drawn reuse fuel → vacant reuse = None → negb (reuse_deleted_ s) && reuse = false →
  match addPoint uninit malloc distance dist_max iterate fuel dp label reuse drawn s with
  | Done _ s' => (∃ es', added_as reuse dp label (default (element_count_ s) (label_map_ s !! label)) es' s') ∧ ¬ refused s es label
  | Throw _ s' => s' = s ∧ refused s es label
  | _ => False
  end.
Proof.
  intros [Hix Hr Hdp Hef _ Hup Hfuel Hlev Hmem Hfind _] Hv Hre. rewrite (addPoint_plain _ _ _ _ _ Hv Hre).
  assert (may_store malloc s es dp label (level_taken (-1) drawn) fuel) as Hms by (split; auto).
  pose proof (addPoint_run uninit uninit_range malloc distance dist_max iterate Hiter s es fuel dp label (-1) drawn Hms) as Hrun.
  destruct (addPoint_level _ _ _ _ _ _ _ _ _ _ s) as [i s'|ex s'| | | |] eqn:Hadd; try done.
  - erewrite bind_Done by exact Hadd. cbn. destruct Hrun as (<- & (es' & [H1 H2 H3 H4 H5]) & _ & Hno). split; [|done].
    exists es'. split; try done. rewrite H4, Hv.
    rewrite (bool_decide_ext (is_Some None ∨ is_Some (label_map_ s !! label)) (is_Some (label_map_ s !! label))); [done|].
    split; [by intros [[? [=]]|]|by right].
  - destruct Hrun as [-> Hno]. by erewrite bind_Throw by exact Hadd.
Qed.

(** C8: The public [addPoint], called as [may_place] asks, returns with the vector stored
    under the label and the index well formed.  When the caller asks for reuse and an
    element is marked, the first one of the set gives its place: no element is added, and
    the label it had is unknown from then on.  Otherwise the label's element is updated or,
    for a new label, an element added.  It throws, and changes nothing, exactly when reuse
    is asked of an index that was made without it, when a new label finds the index full,
    or when the label's element waits for reuse.  [may_place] asks: a label, level and
    vector in range and fuel beyond the elements; for an update or a reuse
    [efConstruction_] above 0, which an index of the constructor has not
    ([update_after_constructor]); for a reuse a label nobody else has ([duplicate_label]);
    for a new label memory for its links ([failed_links_stay_counted]) and neighbours that
    can be found: nothing is marked, or the entry is and [efConstruction_] is above 0. *)
Theorem addPoint_reuses fuel dp label drawn reuse :
  may_place dp label drawn reuse fuel →
  match addPoint uninit malloc distance dist_max iterate fuel dp label reuse drawn s with
  | Done _ s' =>
      (∃ es', added_as reuse dp label (default (default (element_count_ s) (label_map_ s !! label)) (vacant reuse)) es' s') ∧
      getDataByLabel (data_size_ (layout s)) label s' = Done (take (Z.to_nat (data_size_ (layout s))) dp) s' ∧
      (∀ i e, vacant reuse = Some i → has es i e → e_label e ≠ label → label_map_ s' !! e_label e = None) ∧
      ¬ turned_away reuse label
  | Throw _ s' => s' = s ∧ turned_away reuse label
  | _ => False
  end.
Proof.
  intros Hmp. pose proof (mp_index _ _ _ _ _ Hmp) as Hix. unfold turned_away.
  assert (∀ i es' s', added_as reuse dp label i es' s' →
    getDataByLabel (data_size_ (layout s)) label s' = Done (take (Z.to_nat (data_size_ (layout s))) dp) s') as Hdata.
  { intros i es' s' [Hix' (e & He & Hl & Hv & Hd) _ _ [Hlay _]]. rewrite <- Hv, <- Hlay. by rewrite (data_run s' es' Hix' label i e He Hl), Hd. }
  destruct (vacant reuse) as [i|] eqn:Hv.
  - destruct (wp_elim _ _ _ (place_run fuel dp label drawn reuse i Hmp Hv)) as ([] & s' & -> & es' & Had).
    destruct (vacant_some reuse i Hix Hv) as (_ & Hre & _). split_and!; [by exists es'|by eapply Hdata| |naive_solver congruence].
    intros i' e [= <-] He Hne. by eapply label_given_up.
  - destruct (negb (reuse_deleted_ s) && reuse) eqn:Hre.
    + apply andb_true_iff in Hre as [Hre%negb_true_iff ->]. unfold addPoint. erewrite bind_Done by done. rewrite Hre. erewrite bind_Throw by done. auto.
    + pose proof (plain_run fuel dp label drawn reuse Hmp Hv Hre) as Hrun.
      assert (¬ (reuse = true ∧ reuse_deleted_ s = false)) as Hno by (intros [-> E]; by rewrite E in Hre).
      destruct (addPoint _ _ _ _ _ _ _ _ _ _ s) as [[] s'|ex s'| | | |]; [|naive_solver|done..].
      destruct Hrun as [[es' Had] Href]. split_and!; [by exists es'|by eapply Hdata|by intros ??[=]|naive_solver].
Qed.
End Public.

(** ** On the sample index, with the element of label 8 deleted *)
Section Sample.
#[local] Existing Instance std_shared_mutex.

Definition marked_index : HierarchicalNSW := match markDelete 8 sample_index with Done _ s => s | _ => sample_index end.
Definition marked_elements : list element := <[1%nat := mark_elem (sample_element 1)]> sample_elements.

Lemma marked_index_ok : index_ok marked_index marked_elements.
Proof.
  assert (has sample_elements 1 (sample_element 1)) as He by by apply has_sample.
  destruct (mark_deleted_run sample_index sample_elements 1 (sample_element 1) sample_index_ok He eq_refl) as (s' & Hrun & Hix & _).
  assert (markDelete 8 sample_index = Done tt s') as Hmprk.
  { unfold markDelete. by rewrite (bind_Done _ _ _ _ _ (find_label_run _ _ sample_index_ok 8 1 _ He eq_refl)). }
  unfold marked_index. by rewrite Hmprk.
Qed.

Abbreviation sample_add := (addPoint (Q := list entry) sample_uninit sample_malloc sample_distance 1000 elements 10).

Lemma addPoint_reuses_witness : ∃ s' es',
  sample_add [Byte.x05] 12 true 0 marked_index = Done tt s' ∧ added_as elements marked_index marked_elements true [Byte.x05] 12 1 es' s' ∧
  getDataByLabel 1 12 s' = Done [Byte.x05] s' ∧ label_map_ s' !! 8 = None.
Proof.
  assert (vacant elements marked_index true = Some 1) as Hv by by vm_compute.
  assert (may_place sample_malloc elements marked_index marked_elements [Byte.x05] 12 0 true 10) as Hmp.
  { split; [apply marked_index_ok|cbn; lia|by vm_compute|by vm_compute|by vm_compute|by vm_compute|cbn; lia|lia|by rewrite Hv|by rewrite Hv|].
    intros i j _. by vm_compute. }
  pose proof (addPoint_reuses (Q := list entry) sample_uninit sample_uninit_range sample_malloc sample_distance 1000 elements
    ltac:(by intros X) marked_index marked_elements 10 [Byte.x05] 12 0 true Hmp) as Hs. rewrite Hv in Hs.
  destruct (sample_add _ _ _ _ _) as [[] s'|ex s'| | | |]; try done.
  - destruct Hs as ([es' Had] & Hdata & Hold & _). exists s', es'. split_and!; [done|done|exact Hdata|].
    by apply (Hold 1 (mark_elem (sample_element 1)) eq_refl).
  - destruct Hs as [_ [[_ [=]]|[[=] _]]].
Defined.

(** A label that another element has: both carry it from then on, and both are live. *)
Lemma duplicate_label :
  match sample_add [Byte.x05] 7 true 0 marked_index with
  | Done _ s' =>
      (a ← getExternalLabel 0; b ← getExternalLabel 1; c ← isMarkedDeleted 0; d ← isMarkedDeleted 1; mret (a, b, c, d)) s' =
        Done (7, 7, false, false) s' ∧
      label_map_ s' !! 7 = Some 1
  | _ => False
  end.
Proof. by vm_compute. Qed.
End Sample.
