(* ===== verification/HnswStore.v ===== *)
(** The graph index of src/hnsw/hnsw_scratch/hnsw_core.hpp as a store of vectors: sequences
    of calls on a well-formed index behave as on a finite map from labels to vectors with a
    deletion mark.

    A call that throws is caught by the caller, who goes on. *)

From S2P Require Import Prelude Bytes Memory CxxLib NearestQueue MaxQueue VisitedList Wp Hnsw HnswRep HnswSearch HnswHeuristic HnswGraph HnswDescent HnswIndex HnswInsert HnswMarks HnswUpdate HnswFile HnswSample HnswSpec HnswReplace.

(** ** The store *)

(** A vector, and whether it is marked deleted. *)
Abbreviation vectors := (gmap Z (list byte * bool)).

Inductive index_call : Type :=
| AddPoint (data_point : list byte) (label drawn : Z)
| MarkDelete (label : Z)
| UnmarkDelete (label : Z)
| GetData (label : Z)
| GetCount.

Inductive index_reply : Type := Ok | Thrown | Data (v : list byte) | Elements (n : Z).

(** The reply, and the store after the call.  None for a new label while a vector is marked
    deleted, when the search for its neighbours may find nothing, and for an update when the
    index searches for no candidates ([ef] is 0, as the constructor leaves it). *)
Definition store_call (data_size ef capacity : Z) (reuse_deleted : bool) (c : index_call) (f : vectors) : option (index_reply * vectors) :=
  match c with
  | AddPoint dp label _ =>
      match f !! label with
      | Some (_, deleted) =>
          if reuse_deleted && deleted then Some (Thrown, f)
          else if ef <=? 0 then None
          else Some (Ok, <[label := (take (Z.to_nat data_size) dp, false)]> f)
      | None =>
          if capacity <=? Z.of_nat (size f) then Some (Thrown, f)
          else if decide (map_Forall (λ _ x, x.2 = false) f) then Some (Ok, <[label := (take (Z.to_nat data_size) dp, false)]> f)
          else None
      end
  | MarkDelete label =>
      Some (match f !! label with Some (v, false) => (Ok, <[label := (v, true)]> f) | _ => (Thrown, f) end)
  | UnmarkDelete label =>
      Some (match f !! label with Some (v, true) => (Ok, <[label := (v, false)]> f) | _ => (Thrown, f) end)
  | GetData label =>
      Some (match f !! label with Some (v, false) => Data v | _ => Thrown end, f)
  | GetCount => Some (Elements (Z.of_nat (size f)), f)
  end.

Fixpoint store_calls (data_size ef capacity : Z) (reuse_deleted : bool) (cs : list index_call) (f : vectors)
  : option (list index_reply * vectors) :=
  match cs with
  | [] => Some ([], f)
  | c :: cs' =>
      '(r, f') ← store_call data_size ef capacity reuse_deleted c f;
      '(rs, f'') ← store_calls data_size ef capacity reuse_deleted cs' f';
      Some (r :: rs, f'')
  end.

(** ** The calls on the index *)
Section Calls.
Context {LP : LockPolicy} {Q : Type} `{MaxQueue Q}.
Context (uninit : loc → nat → Z) (malloc : Z → option memory) (distance : list byte → list byte → Z) (dist_max : Z).
Context (iterate : gset Z → list Z).

Definition caught {A} (c : MH A) (reply : A → index_reply) : MH index_reply := λ s,
  match c s with
  | Done a s' => Done (reply a) s'
  | Throw _ s' => Done Thrown s'
  | Stuck => Stuck
  | Undef => Undef
  | AssertFail => AssertFail
  | NoFuel => NoFuel
  end.

Definition index_call_run (fuel : nat) (c : index_call) : MH index_reply :=
  match c with
  | AddPoint dp label drawn => caught (addPoint uninit malloc distance dist_max iterate fuel dp label false drawn) (λ _, Ok)
  | MarkDelete label => caught (markDelete label) (λ _, Ok)
  | UnmarkDelete label => caught (unmarkDelete label) (λ _, Ok)
  | GetData label => caught (n ← conf data_size_; getDataByLabel n label) Data
  | GetCount => caught (gets element_count_) Elements
  end.

Fixpoint index_calls (fuel : nat) (cs : list index_call) : MH (list index_reply) :=
  match cs with
  | [] => mret []
  | c :: cs' => r ← index_call_run fuel c; rs ← index_calls fuel cs'; mret (r :: rs)
  end.
End Calls.

(** ** Representation *)
Section Store.
Implicit Types (s : HierarchicalNSW) (es : list element) (f : vectors).

(** The elements hold the vectors of the store. *)
Definition holding es f : Prop :=
  ∀ label v d, f !! label = Some (v, d) ↔ ∃ i e, has es i e ∧ e_label e = label ∧ e_vector e = v ∧ deleted e = d.

Definition stores s f : Prop := ∃ es, index_ok s es ∧ holding es f.

Lemma holding_size s es f : index_ok s es → holding es f → size f = length es.
Proof.
  intros Hix Hf. rewrite <- size_dom, <- (length_fmap e_label es), <- (size_list_to_set (C := gset Z) (e_label <$> es)).
  - f_equal. apply set_eq. intros label. rewrite elem_of_dom, elem_of_list_to_set, list_elem_of_fmap. split.
    + intros [[v d] Hv]. apply Hf in Hv as (i & e & [_ He] & <- & _). exists e. split; [done|by eapply list_elem_of_lookup_2].
    + intros (e & -> & [n He]%list_elem_of_lookup). exists (e_vector e, deleted e). apply Hf. exists (Z.of_nat n), e.
      split_and!; [|done..]. split; [lia|]. by rewrite Nat2Z.id.
  - apply NoDup_fmap_2_strong; [|apply NoDup_alt]; cycle 1.
    + intros n m e Hn Hm. assert (Z.of_nat n = Z.of_nat m); [|lia].
      apply (label_once s es _ _ e e Hix); [split; [lia|by rewrite Nat2Z.id]..|done].
    + intros e e' [n Hn]%list_elem_of_lookup [m Hm]%list_elem_of_lookup Hl.
      assert (Z.of_nat n = Z.of_nat m) by (apply (label_once s es _ _ e e' Hix); [split; [lia|by rewrite Nat2Z.id]..|done]).
      assert (n = m) as -> by lia. congruence.
Qed.

Lemma holding_some es f label v d :
  holding es f → f !! label = Some (v, d) → ∃ i e, has es i e ∧ e_label e = label ∧ e_vector e = v ∧ deleted e = d.
Proof. intros Hf. apply Hf. Qed.

Lemma holding_none s es f label : index_ok s es → holding es f → f !! label = None → label_map_ s !! label = None.
Proof.
  intros Hix Hf Hn. destruct (label_map_ s !! label) as [i|] eqn:Hm; [|done].
  apply (ix_labels _ _ Hix) in Hm as (e & He & Hl). assert (f !! label = Some (e_vector e, deleted e)) by (apply Hf; by exists i, e). congruence.
Qed.

(** One element has another vector or mark. *)
Lemma holding_update s es es' f i label v d :
  index_ok s es → holding es f → (∃ e, has es i e ∧ e_label e = label) ∨ (i = Z.of_nat (length es) ∧ f !! label = None) →
  (∃ e, has es' i e ∧ e_label e = label ∧ e_vector e = v ∧ deleted e = d) →
  (∀ j e, j ≠ i → has es j e → ∃ e', has es' j e' ∧ same_shape e e') →
  (∀ j e', j ≠ i → has es' j e' → ∃ e, has es j e ∧ same_shape e e') →
  holding es' (<[label := (v, d)]> f).
Proof.
  intros Hix Hf Hi (e0 & He0 & Hl0 & Hv0 & Hd0) Hto Hfrom label' v' d'. 
  assert (∀ j e, j ≠ i → has es j e → e_label e ≠ label) as Hother.
  { intros j e Hj He Hl. destruct Hi as [(e1 & He1 & Hl1)|[-> Hn]]; [by apply Hj, (label_once s es _ _ e e1 Hix); [..|congruence]|].
    assert (f !! label = Some (e_vector e, deleted e)) by (apply Hf; by eexists _, e). congruence. }
  rewrite lookup_insert_Some. split.
  - intros [(<- & [= <- <-])|[Hne Hl]]; [by exists i, e0|]. apply Hf in Hl as (j & e & He & <- & <- & <-).
    assert (j ≠ i) as Hji.
    { intros ->. destruct Hi as [(e1 & He1 & Hl1)|[-> _]]; [by rewrite (has_fun _ _ _ _ He He1) in Hne|].
      destruct He as [_ He%lookup_lt_Some]. lia. }
    destruct (Hto j e Hji He) as (e' & He' & [Hv Hl _ Hm]). by exists j, e'.
  - intros (j & e' & He' & <- & <- & <-). destruct (decide (j = i)) as [->|Hji].
    + rewrite (has_fun _ _ _ _ He' He0). left. by rewrite Hl0, Hv0, Hd0.
    + destruct (Hfrom j e' Hji He') as (e & He & [Hv Hl _ Hm]). right. rewrite Hl, Hv, Hm. split.
      * intros Heq. by apply (Hother j e).
      * apply Hf. by exists j, e.
Qed.
End Store.

(** ** One call *)
Section Run.
Context {LP : LockPolicy} {Q : Type} `{MaxQueueLaws Q}.
Context (uninit : loc → nat → Z) (uninit_range : ∀ a i, 0 ≤ uninit a i < 2 ^ 16).
Context (malloc : Z → option memory) (distance : list byte → list byte → Z) (dist_max : Z).
Context (iterate : gset Z → list Z) (Hiter : iterate_ok iterate).
Implicit Types (s : HierarchicalNSW) (es : list element) (f : vectors).

(** What the caller and the allocator owe an addition. *)
Definition call_fits (l : Layout) (c : index_call) : Prop :=
  match c with
  | AddPoint dp label drawn =>
      0 ≤ label < 2 ^ 64 ∧ data_size_ l ≤ Z.of_nat (length dp) ∧ 0 ≤ drawn < 2 ^ 31 ∧
      (drawn ≠ 0 → is_Some (malloc (link_stride_ l * drawn + 1)))
  | _ => True
  end.

(** An index of this layout and capacity, which holds the store. *)
Definition keeps (l : Layout) (capacity : Z) (reuse_deleted : bool) s f : Prop :=
  stores s f ∧ layout s = l ∧ capacity_ s = capacity ∧ reuse_deleted_ s = reuse_deleted.

Lemma stored_holding s es dp label i es' s' f :
  index_ok s es → holding es f → i = default (element_count_ s) (label_map_ s !! label) →
  (label_map_ s !! label = None → f !! label = None) →
  stored_as s es dp label i es' s' → holding es' (<[label := (take (Z.to_nat (data_size_ (layout s))) dp, false)]> f).
Proof.
  intros Hix Hf Hi Hnone [_ Helem Hrest Hcount _]. apply (holding_update s es es' f i); [done|done| |done|done|].
  - destruct (label_map_ s !! label) as [i'|] eqn:Hm; cbn in Hi; subst i.
    + left. by apply (ix_labels _ _ Hix).
    + right. split; [apply (rep_count _ _ (ix_rep _ _ Hix))|by apply Hnone].
  - intros j e' Hne He'. assert (j < Z.of_nat (length es)) as Hlt.
    { destruct He' as [Hj He'%lookup_lt_Some]. rewrite Hcount in He'. case_bool_decide as Hm; [lia|].
      destruct (label_map_ s !! label); [by destruct Hm; eexists|]. cbn in Hi. rewrite (rep_count _ _ (ix_rep _ _ Hix)) in Hi. lia. }
    destruct (lookup_lt_is_Some_2 es (Z.to_nat j)) as [e He]; [destruct He'; lia|].
    exists e. assert (has es j e) as Hhas by (destruct He'; by split). split; [done|].
    destruct (Hrest j e Hne Hhas) as (e'' & He'' & Hsh). by rewrite (has_fun _ _ _ _ He' He'').
Qed.

(** When the index refuses an addition. *)
Lemma refused_thrown s es f label :
  index_ok s es → holding es f →
  refused s es label ↔ match f !! label with
    | Some (_, deleted) => reuse_deleted_ s && deleted
    | None => capacity_ s <=? Z.of_nat (size f)
    end = true.
Proof.
  intros Hix Hf. unfold refused. rewrite (holding_size s es f Hix Hf), (rep_count _ _ (ix_rep _ _ Hix)).
  pose proof (rep_cap _ _ (ix_rep _ _ Hix)). destruct (f !! label) as [[v d]|] eqn:Hl.
  - apply Hf in Hl as (i & e & He & Hl & _ & <-). rewrite (proj2 (ix_labels _ _ Hix label i)), andb_true_iff by eauto.
    split; [intros [? (e' & He' & ?)]; by rewrite (has_fun _ _ _ _ He He')|]. intros [? ?]. split; [done|]. by exists e.
  - rewrite (holding_none s es f label Hix Hf Hl), Z.leb_le. lia.
Qed.

Lemma caught_done {A} (c : MH A) reply s a s' : c s = Done a s' → caught c reply s = Done (reply a) s'.
Proof. intros Hc. unfold caught. by rewrite Hc. Qed.

Lemma caught_throw {A} (c : MH A) reply s e s' : c s = Throw e s' → caught c reply s = Done Thrown s'.
Proof. intros Hc. unfold caught. by rewrite Hc. Qed.

Lemma add_call_run fuel dp label drawn l capacity reuse_deleted s f r f' :
  keeps l capacity reuse_deleted s f → call_fits l (AddPoint dp label drawn) → 0 ≤ efConstruction_ l → capacity + 1 < Z.of_nat fuel →
  store_call (data_size_ l) (efConstruction_ l) capacity reuse_deleted (AddPoint dp label drawn) f = Some (r, f') →
  ∃ s', index_call_run uninit malloc distance dist_max iterate fuel (AddPoint dp label drawn) s = Done r s' ∧ keeps l capacity reuse_deleted s' f'.
Proof.
  intros ((es & Hix & Hf) & <- & <- & <-) (Hlabel & Hdp & Hdrawn & Hmem) Hef Hfuel Hcall. cbn [store_call] in *.
  pose proof (rep_cap _ _ (ix_rep _ _ Hix)) as Hcap. pose proof (holding_size s es f Hix Hf) as Hsize.
  assert (label_map_ s !! label = None → f !! label = None) as Hnone.
  { intros Hm. destruct (f !! label) as [[v d]|] eqn:Hl; [|done]. apply Hf in Hl as (i & e & He & Hl & _).
    rewrite (proj2 (ix_labels _ _ Hix label i)) in Hm by eauto. done. }
  assert (may_store malloc s es dp label (level_taken (-1) drawn) fuel) as Hms.
  { split; try done.
    { intros i e He Hl Hgo. assert (f !! label = Some (e_vector e, deleted e)) as Hv by (apply Hf; by exists i, e).
      rewrite Hv, Hgo in Hcall. destruct (Z.leb_spec (efConstruction_ (layout s)) 0); [done|lia]. }
    { lia. }
    intros Hm Hroom. specialize (Hnone Hm). rewrite Hnone in Hcall. rewrite (rep_count _ _ (ix_rep _ _ Hix)) in Hroom.
      rewrite (proj2 (Z.leb_gt _ _)) in Hcall by lia.
      case_decide as Hlive; [|done]. left. intros i e He. 
      assert (f !! e_label e = Some (e_vector e, deleted e)) as Hl by (apply Hf; by exists i, e). exact (Hlive _ _ Hl). }
  pose proof (addPoint_run uninit uninit_range malloc distance dist_max iterate Hiter s es fuel dp label (-1) drawn Hms) as Hrun.
  destruct (addPoint_level _ _ _ _ _ _ _ _ _ _ s) as [i s'|ex s'| | | |] eqn:Hadd; try done.
  - destruct Hrun as (Hi & (es' & Hst) & _ & Hno). exists s'. pose proof (sa_layout _ _ _ _ _ _ _ Hst) as (E1 & E2 & E3).
    assert (index_call_run uninit malloc distance dist_max iterate fuel (AddPoint dp label drawn) s = Done Ok s') as ->.
    { cbn [index_call_run]. eapply (caught_done _ (λ _, Ok)). rewrite addPoint_plain by (done || apply andb_false_r). by erewrite bind_Done by exact Hadd. }
    rewrite (refused_thrown s es f label Hix Hf) in Hno.
    assert (Some (r, f') = Some (Ok, <[label := (take (Z.to_nat (data_size_ (layout s))) dp, false)]> f)) as [= -> ->].
    { rewrite <- Hcall. destruct (f !! label) as [[v d]|]; [destruct (reuse_deleted_ s && d); [done|]; by destruct (_ <=? 0)|].
      destruct (capacity_ s <=? _); [done|]. by case_decide. }
    split; [done|]. split; [|done]. exists es'. split; [apply Hst|]. by eapply stored_holding.
  - destruct Hrun as [-> Hno]. exists s. rewrite (refused_thrown s es f label Hix Hf) in Hno.
    assert (Some (r, f') = Some (Thrown, f)) as [= -> ->].
    { rewrite <- Hcall. destruct (f !! label) as [[v d]|]; by rewrite Hno. }
    split; [|by split; [exists es|]]. cbn [index_call_run]. eapply (caught_throw _ (λ _, Ok)). rewrite addPoint_plain by (done || apply andb_false_r). by apply bind_Throw.
Qed.

(** A label of the store has its element, and another label none. *)
Lemma find_stored s es f label :
  index_ok s es → holding es f →
  match f !! label with
  | Some (v, d) => ∃ i e, has es i e ∧ e_label e = label ∧ e_vector e = v ∧ deleted e = d
  | None => label_map_ s !! label = None
  end.
Proof.
  intros Hix Hf. destruct (f !! label) as [[v d]|] eqn:Hl; [by apply Hf|by eapply holding_none].
Qed.

(** Changing the mark of an element. *)
Lemma remark_keeps s es f i e g c D s' d l capacity reuse_deleted :
  keeps l capacity reuse_deleted s f → index_ok s es → holding es f → has es i e →
  index_ok s' (<[Z.to_nat i := remark g e]> es) → deleted (remark g e) = d → remarked s i e g c D s' →
  keeps l capacity reuse_deleted s' (<[e_label e := (e_vector e, d)]> f).
Proof.
  intros (_ & E1 & E2 & E3) Hix Hf He Hix' Hd (m & -> & _). split; [|done]. eexists. split; [exact Hix'|].
  assert (has (<[Z.to_nat i := remark g e]> es) i (remark g e)) as He' by (apply (has_insert es i e); [done|by left]).
  apply (holding_update s es _ f i); [done|done|left; by exists e|by exists (remark g e)| |].
  - intros j e' Hne Hj. exists e'. split; [|done]. apply (has_insert es i e); [done|by right].
  - intros j e' Hne Hj. apply (has_insert es i e) in Hj as [[? _]|[_ Hj]]; [done| |done]. by exists e'.
Qed.

Lemma mark_call_run label l capacity reuse_deleted s f r f' :
  keeps l capacity reuse_deleted s f → store_call (data_size_ l) (efConstruction_ l) capacity reuse_deleted (MarkDelete label) f = Some (r, f') →
  ∃ s', caught (markDelete label) (λ _, Ok) s = Done r s' ∧ keeps l capacity reuse_deleted s' f'.
Proof.
  intros Hk. pose proof Hk as ((es & Hix & Hf) & _). cbn [store_call]. pose proof (find_stored s es f label Hix Hf) as Hlab.
  destruct (f !! label) as [[v d]|].
  2: { intros [= <- <-]. exists s. split; [|done]. eapply caught_throw, find_unknown, Hlab. }
  destruct Hlab as (i & e & He & <- & <- & Hd). pose proof (find_label_run s es Hix _ i e He eq_refl) as Hfind.
  destruct d; intros [= <- <-].
  - exists s. split; [|done]. eapply caught_throw. unfold markDelete. rewrite (bind_Done _ _ _ _ _ Hfind). by eapply mark_twice.
  - destruct (mark_deleted_run s es i e Hix He Hd) as (s' & Hrun & Hix' & Hs'). exists s'. split.
    + eapply (caught_done _ (λ _, Ok)). unfold markDelete. by rewrite (bind_Done _ _ _ _ _ Hfind).
    + destruct (has_ok s es (ix_rep _ _ Hix) i e He) as [Hok _]. eapply remark_keeps; try done. by eapply mark_elem_deleted.
Qed.

Lemma unmark_call_run label l capacity reuse_deleted s f r f' :
  keeps l capacity reuse_deleted s f → store_call (data_size_ l) (efConstruction_ l) capacity reuse_deleted (UnmarkDelete label) f = Some (r, f') →
  ∃ s', caught (unmarkDelete label) (λ _, Ok) s = Done r s' ∧ keeps l capacity reuse_deleted s' f'.
Proof.
  intros Hk. pose proof Hk as ((es & Hix & Hf) & _). cbn [store_call]. pose proof (find_stored s es f label Hix Hf) as Hlab.
  destruct (f !! label) as [[v d]|].
  2: { intros [= <- <-]. exists s. split; [|done]. eapply caught_throw, find_unknown, Hlab. }
  destruct Hlab as (i & e & He & <- & <- & Hd). pose proof (find_label_run s es Hix _ i e He eq_refl) as Hfind.
  destruct d; intros [= <- <-].
  - destruct (unmark_deleted_run s es i e Hix He Hd) as (s' & Hrun & Hix' & Hs'). exists s'. split.
    + eapply (caught_done _ (λ _, Ok)). unfold unmarkDelete. by rewrite (bind_Done _ _ _ _ _ Hfind).
    + destruct (has_ok s es (ix_rep _ _ Hix) i e He) as [Hok _]. eapply remark_keeps; try done. by eapply unmark_elem_deleted.
  - exists s. split; [|done]. eapply caught_throw. unfold unmarkDelete. rewrite (bind_Done _ _ _ _ _ Hfind). by eapply unmark_unmarked.
Qed.

Lemma data_call_run label l capacity reuse_deleted s f r f' :
  keeps l capacity reuse_deleted s f → store_call (data_size_ l) (efConstruction_ l) capacity reuse_deleted (GetData label) f = Some (r, f') →
  ∃ s', caught (n ← conf data_size_; getDataByLabel n label) Data s = Done r s' ∧ keeps l capacity reuse_deleted s' f'.
Proof.
  intros Hk. pose proof Hk as ((es & Hix & Hf) & _). cbn [store_call]. pose proof (find_stored s es f label Hix Hf) as Hlab.
  assert ((n ← conf data_size_; getDataByLabel n label) s = getDataByLabel (data_size_ (layout s)) label s) as Hconf
    by by erewrite bind_Done by done.
  intros [= <- <-]. exists s. split; [|done]. destruct (f !! label) as [[v d]|].
  - destruct Hlab as (i & e & He & <- & <- & Hd). pose proof (data_run s es Hix _ i e He eq_refl) as Hdata. rewrite Hd in Hdata.
    destruct d; [eapply caught_throw|eapply caught_done]; rewrite Hconf; exact Hdata.
  - eapply caught_throw. rewrite Hconf. unfold getDataByLabel. by apply find_unknown.
Qed.

(** Any call. *)
Lemma index_call_keeps fuel c l capacity reuse_deleted s f r f' :
  keeps l capacity reuse_deleted s f → call_fits l c → 0 ≤ efConstruction_ l → capacity + 1 < Z.of_nat fuel →
  store_call (data_size_ l) (efConstruction_ l) capacity reuse_deleted c f = Some (r, f') →
  ∃ s', index_call_run uninit malloc distance dist_max iterate fuel c s = Done r s' ∧ keeps l capacity reuse_deleted s' f'.
Proof.
  intros Hk Hfits Hef Hfuel Hcall. destruct c as [dp label drawn|label|label|label|]; cbn [index_call_run].
  - by eapply (add_call_run fuel dp label drawn).
  - by eapply mark_call_run.
  - by eapply unmark_call_run.
  - by eapply data_call_run.
  - injection Hcall as <- <-. exists s. split; [|done]. pose proof Hk as ((es & Hix & Hf) & _).
    rewrite (holding_size s es f Hix Hf), <- (rep_count _ _ (ix_rep _ _ Hix)). by eapply caught_done.
Qed.

(** The constructor's index keeps the empty store. *)
Lemma new_index_keeps data_size capacity M efConstruction reuse level0 pointers :
  malloc_ok malloc → 1 ≤ M → 0 ≤ data_size < 2 ^ 63 → 0 ≤ capacity < 2 ^ 32 - 1 →
  let stride := 8 * Z.min M 10000 + 4 + data_size + 8 in
  capacity * stride < 2 ^ 64 → malloc (capacity * stride) = Some level0 → malloc (8 * capacity) = Some pointers →
  ∃ s, hnsw_new uninit malloc data_size capacity M efConstruction reuse = Done s tt ∧
    keeps (layout_new M data_size) capacity reuse s ∅ ∧ efConstruction_ (layout_new M data_size) = 0.
Proof.
  intros Hm HM Hd Hcap stride Htotal Hm0 Hm8.
  destruct (hnsw_new_index uninit uninit_range malloc Hm data_size capacity M efConstruction reuse level0 pointers)
    as (s & Hrun & Hix & Hl & Hc & Hr); [done..|].
  exists s. split; [done|]. split; [|done]. split; [|done]. exists []. split; [done|].
  intros label v d. rewrite lookup_empty. split; [done|]. by intros (i & e & [_ He] & _).
Qed.

(** C9: The graph index is a store of vectors.  Every sequence of additions, updates, deletion
    marks, their removal, look-ups of data and counts (no reuse of places) on a well-formed
    index - one the constructor makes is, see [new_index_keeps] - answers as a finite map
    from labels to vectors with a mark, calls that throw included, and leaves a well-formed
    index that holds the map.  The sequence must keep to what [store_call] and [call_fits]
    ask: a new label is added only while no vector is marked; a vector is updated only in
    an index with [efConstruction_] above 0, which the constructor does not make; labels and
    levels are in range, vectors have the size of the space, and [malloc] succeeds for the
    links of a new element.  Fuel beyond the capacity is enough for every call. *)
Theorem index_refines_store fuel cs l capacity reuse_deleted s f rs f' :
  keeps l capacity reuse_deleted s f → Forall (call_fits l) cs → 0 ≤ efConstruction_ l → capacity + 1 < Z.of_nat fuel →
  store_calls (data_size_ l) (efConstruction_ l) capacity reuse_deleted cs f = Some (rs, f') →
  ∃ s', index_calls uninit malloc distance dist_max iterate fuel cs s = Done rs s' ∧ keeps l capacity reuse_deleted s' f'.
Proof.
  intros Hk Hfits Hef Hfuel. revert s f rs Hk. induction Hfits as [|c cs Hc Hfits IH]; intros s f rs Hk; cbn [store_calls index_calls].
  { intros [= <- <-]. by exists s. }
  destruct (store_call _ _ _ _ c f) as [[r f1]|] eqn:Hcall; [|done]. cbn.
  destruct (store_calls _ _ _ _ cs f1) as [[rs1 f2]|] eqn:Hcalls; [|done]. cbn. intros [= <- <-].
  destruct (index_call_keeps fuel c l capacity reuse_deleted s f r f1 Hk Hc Hef Hfuel Hcall) as (s1 & Hrun & Hk1).
  destruct (IH s1 f1 rs1 Hk1 Hcalls) as (s' & Hrun' & Hk'). exists s'. split; [|done].
  by rewrite (bind_Done _ _ _ _ _ Hrun), (bind_Done _ _ _ _ _ Hrun').
Qed.
End Run.

(** ** A run on the sample index *)
Section Sample.
#[local] Existing Instance std_shared_mutex.

Definition sample_store : vectors := list_to_map [(7, ([Byte.x00], false)); (8, ([Byte.x03], false)); (9, ([Byte.x09], false))].

Lemma sample_holding : holding sample_elements sample_store.
Proof.
  intros label v d. unfold sample_store. cbn [list_to_map foldr curry fst snd uncurry]. rewrite !lookup_insert_Some, lookup_empty. split.
  - intros Hl. assert (label = 7 ∧ (v, d) = ([Byte.x00], false) ∨ label = 8 ∧ (v, d) = ([Byte.x03], false) ∨
      label = 9 ∧ (v, d) = ([Byte.x09], false)) as [[-> [= -> ->]]|[[-> [= -> ->]]|[-> [= -> ->]]]] by naive_solver.
    + exists 0, (sample_element 0). by split; [apply has_sample|].
    + exists 1, (sample_element 1). by split; [apply has_sample|].
    + exists 2, (sample_element 2). by split; [apply has_sample|].
  - intros (i & e & [[-> |[-> | ->]] ->]%sample_has & <- & <- & <-); cbn; naive_solver lia.
Qed.

(** A new label, an update, a label too many, and a vector that is marked and unmarked. *)
Definition sample_calls : list index_call :=
  [AddPoint [Byte.x05] 12 1; AddPoint [Byte.x04] 8 0; AddPoint [Byte.x06] 13 0; MarkDelete 8; AddPoint [Byte.x01] 8 0; GetData 8;
   UnmarkDelete 8; GetData 8; MarkDelete 11; GetCount].

Lemma index_refines_store_witness : ∃ s',
  index_calls (Q := list entry) sample_uninit sample_malloc sample_distance 1000 elements 10 sample_calls sample_index =
    Done [Ok; Ok; Thrown; Ok; Thrown; Thrown; Ok; Data [Byte.x04]; Thrown; Elements 4] s' ∧
  keeps sample_layout 4 true s' (<[8 := ([Byte.x04], false)]> (<[12 := ([Byte.x05], false)]> sample_store)).
Proof.
  apply (index_refines_store (Q := list entry) sample_uninit sample_uninit_range sample_malloc sample_distance 1000 elements
    ltac:(by intros X) 10 sample_calls sample_layout 4 true sample_index sample_store).
  - split; [|done]. exists sample_elements. exact (conj sample_index_ok sample_holding).
  - unfold sample_calls. repeat constructor; cbn; try lia; by eexists.
  - done.
  - done.
  - vm_compute. reflexivity.
Defined.
End Sample.
