(* ===== verification/HnswKnn.v ===== *)
(** [searchKnn] of src/hnsw/hnsw_scratch/hnsw_core.hpp: the walk down to the lowest level
    and what it makes of the search it leaves to [searchBaseLayerST]. *)

From S2P Require Import Prelude Bytes Memory CxxLib NearestQueue MaxQueue VisitedList Wp Hnsw HnswRep HnswSearch HnswHeuristic HnswGraph HnswDescent HnswIndex HnswInsert HnswMarks HnswSample HnswSpec.

(** ** The walk *)
Lemma holds_metrics s0 es L h s dists hops : holds s0 es L h s → holds s0 es L h (set_metrics dists hops s).
Proof. intros [Hf Hrep Hlk Hp]. split; [|by apply (rep_ext s)|done|done]. unfold frame in *. rewrite Hf. done. Qed.

Section Walk.
Context (distance : list byte → list byte → Z) (es : list element) (dp : list byte).
Context {s0 : HierarchicalNSW} {h : hands}.

Lemma wp_knn_level fuel l start : 1 ≤ l →
  (∀ j, reach es l start j → ∃ e, has es j e ∧ l ≤ e_level e) →
  ∀ i e s (Φ : Z * Z → HierarchicalNSW → Prop),
  holds s0 es ∅ h s → reach es l start i → has es i e → (∀ f, has es start f → away distance dp e ≤ away distance dp f) →
  (closer distance es dp (away distance dp e) < fuel)%nat →
  (∀ i' d' s', walked distance es dp l start i' d' → holds s0 es ∅ h s' → Φ (i', d') s') →
  wp (knn_level distance fuel dp l i (away distance dp e)) Φ s.
Proof.
  intros Hl Hgraph. induction fuel as [|fuel IH]; intros i e s Φ Hh Hi He Hstart Hfuel HΦ; [lia|]. cbn [knn_level].
  destruct (Hgraph i Hi) as (e' & He' & Hle). rewrite (has_fun _ _ _ _ He' He) in Hle. clear e' He'.
  destruct (list_at_level e l) as [ll Hll]; [lia|].
  assert (get_neighbors i l = get_neighbors_at_level i l) as -> by (unfold get_neighbors_at_level; by rewrite (proj2 (Z.eqb_neq l 0)) by lia).
  apply wp_bind, (wp_list Hh i e l ll); [done|done|]. apply wp_bind, (wp_count Hh i e l ll); [done|done|].
  apply wp_bind, wp_modify. pose proof (holds_metrics _ _ _ _ _ (wraps 64 (metric_distance_computations_ s + l_count ll)) (wraps 64 (metric_hops_ s + 1)) Hh) as Hh1.
  apply wp_bind, (wp_round distance es dp true i e l ll _ _ Hh1); [done|done| | |].
  - intros j Hj. destruct (Hgraph j (reach_next es l start i e j Hi He Hj)) as (f & Hf & _). eauto.
  - intros j d Hj Hlt (f & Hf & ->). apply IH; [done|by eapply reach_next|done| | |done].
    + intros g Hg. specialize (Hstart g Hg). lia.
    + pose proof (closer_lt distance es dp j f (away distance dp e) Hf Hlt). lia.
  - intros Hmin. apply wp_ret, HΦ; [|done]. split; [done|eauto|done|done].
Qed.

Lemma wp_knn_descend fuel hi i e s (Φ : Z → HierarchicalNSW → Prop) :
  0 ≤ hi → (length es < fuel)%nat → holds s0 es ∅ h s → graph_ok es → has es i e → hi ≤ e_level e →
  (∀ i' e' s', has es i' e' → away distance dp e' ≤ away distance dp e → holds s0 es ∅ h s' → Φ i' s') →
  wp (knn_descend distance fuel dp (levels_down hi 1) i (away distance dp e)) Φ s.
Proof.
  intros Hhi Hfuel. revert i e s. pattern hi. apply (levels_down_ind _ 1); [| |lia]; clear hi Hhi.
  { intros i e s Hh Hg He _ HΦ. rewrite levels_down_nil by lia. by apply wp_ret, (HΦ i e). }
  intros hi Hle IH i e s Hh Hg He Hhi HΦ. rewrite levels_down_cons by done. cbn [knn_descend].
  assert (∀ j, reach es hi i j → ∃ f, has es j f ∧ hi ≤ e_level f) as Hgraph.
  { intros j Hj. apply (reach_graph es hi i e); [apply Hg; lia|done|done|done]. }
  apply wp_bind, (wp_knn_level fuel hi i Hle Hgraph i e s _ Hh); [apply rtc_refl|done| | |].
  - intros f Hf. by rewrite (has_fun _ _ _ _ He Hf).
  - pose proof (closer_le distance es dp (away distance dp e)). lia.
  - intros i' d' s1 [_ (e' & He' & Hle' & ->) Hstart _] Hh1. apply IH; [done|done|done|lia|].
    intros i'' e'' s2 He'' Haway Hh2. apply (HΦ i'' e''); [done| |done]. specialize (Hstart e He). lia.
Qed.
End Walk.

(** ** The results *)
Section Results.
Context {Q : Type} `{MaxQueueLaws Q}.

(** The [k] nearest are left. *)
Lemma pop_to_spec k n : 0 ≤ k → ∀ q : Q, (q_size q ≤ n)%nat →
  ∃ rest, q_elems q ≡ₚ q_elems (pop_to n k q) ++ rest ∧ Z.of_nat (q_size (pop_to n k q)) = Z.min k (Z.of_nat (q_size q)) ∧
    ∀ x y, x ∈ q_elems (pop_to n k q) → y ∈ rest → x.1 ≤ y.1.
Proof.
  intros Hk. induction n as [|n IH]; intros q Hn; cbn [pop_to].
  - exists []. rewrite app_nil_r. split_and!; [done|lia|]. by intros x y _ Hy%elem_of_nil.
  - destruct (Z.ltb_spec k (Z.of_nat (q_size q))) as [Hlt|Hle].
    2: { exists []. rewrite app_nil_r. split_and!; [done|lia|]. by intros x y _ Hy%elem_of_nil. }
    destruct (top_is_Some q) as [t Ht]; [lia|]. destruct (top_Some _ _ Ht) as [Hp Hmax]. pose proof (top_size _ _ Ht).
    destruct (IH (q_pop q)) as (rest & Hr & Hs & Hle); [lia|]. exists (t :: rest). split_and!.
    + rewrite Hp, Hr. by rewrite Permutation_middle.
    + lia.
    + intros x y Hx [->|Hy]%elem_of_cons; [|by apply Hle]. apply Hmax. apply (pop_in _ _ _ Ht). rewrite Hr. apply elem_of_app. by left.
Qed.

Context {s0 : HierarchicalNSW} {es : list element} {L : gset Z} {h : hands} {s : HierarchicalNSW} (Hh : holds s0 es L h s).

Definition label_of (i : Z) : Z := default 0 (e_label <$> es !! Z.to_nat i).
Definition labelled (x : entry) : entry := (x.1, label_of x.2).

Lemma wp_push_labels xs : ∀ res (Φ : queue → HierarchicalNSW → Prop),
  (∀ x, x ∈ xs → ∃ e, has es x.2 e) → descending res →
  (∀ res', descending res' → res' ≡ₚ (labelled <$> xs) ++ res → Φ res' s) → wp (push_labels xs res) Φ s.
Proof.
  induction xs as [|x xs IH]; intros res Φ Hall Hd HΦ; cbn [push_labels]; [by apply wp_ret, HΦ|].
  destruct (Hall x) as [e He]; [by left|]. apply wp_bind, (wp_label Hh x.2 e); [done|].
  assert (label_of x.2 = e_label e) as Hl by (destruct He as [_ He]; unfold label_of; by rewrite He).
  apply IH; [intros y Hy; apply Hall; by right|by apply emplace_descending|].
  intros res' Hd' Hp. apply HΦ; [done|]. rewrite Hp, emplace_Permutation, <- Hl. symmetry. apply Permutation_middle.
Qed.
End Results.

(** ** searchKnn *)
Section Knn.
Context {Q : Type} `{MaxQueueLaws Q} {stop_condition : Type}.
Context (distance : list byte → list byte → Z).
Context (searchBaseLayerST : bool → Z → list byte → Z → option (Z → bool) → option stop_condition → MH Q).
Context (s : HierarchicalNSW) (es : list element) (Hix : index_ok s es) (fuel : nat) (Hfuel : (length es < fuel)%nat).
Context (query_data : list byte) (k : Z) (Hk : 0 ≤ k) (isIdAllowed : option (Z → bool)).

Lemma wp_knn_start (Φ : Z → HierarchicalNSW → Prop) :
  es ≠ [] →
  (∀ i e ee s', has es i e → has es (entry_id_ s) ee → away distance query_data e ≤ away distance query_data ee →
    holds s es ∅ ∅ s' → Φ i s') →
  wp (knn_start distance fuel query_data) Φ s.
Proof.
  intros Hne HΦ. destruct (entry_ok_has _ _ _ Hne (ix_entry _ _ Hix)) as [(ee & Hee & Hlev) _].
  pose proof (index_holds s es Hix) as Hh. unfold knn_start. apply wp_bind, wp_gets.
  apply wp_bind, wp_bind, (wp_vector Hh (entry_id_ s) ee); [done|]. apply wp_ret. apply wp_bind, wp_gets.
  apply (wp_knn_descend (s0 := s) (h := ∅) distance es query_data fuel (max_level_ s) (entry_id_ s) ee s); [unfold e_level in Hlev; lia|done|done|apply Hix|done|lia|].
  intros i e s' He Haway Hh'. by apply (HΦ i e ee).
Qed.

(** The [k] nearest of [Top], with labels for ids, the farthest first. *)
Definition nearest_of (Top : Q) (res : queue) : Prop :=
  ∃ kept rest, q_elems Top ≡ₚ kept ++ rest ∧ Z.of_nat (length kept) = Z.min k (Z.of_nat (length (q_elems Top))) ∧
    (∀ x y, x ∈ kept → y ∈ rest → x.1 ≤ y.1) ∧ descending res ∧ res ≡ₚ labelled (es := es) <$> kept.

(** What is made of a result of the base search. *)
Lemma finish_run Top s2 :
  index_ok s2 es → (∀ x, x ∈ q_elems Top → ∃ f, has es x.2 f) →
  ∃ res, push_labels (q_drain (pop_to (q_size Top) k Top)) [] s2 = Done res s2 ∧ nearest_of Top res.
Proof.
  intros Hix2 Hall. destruct (pop_to_spec k (q_size Top) Hk Top) as (rest & Hp & Hsize & Hle); [lia|].
  destruct (drain_spec (pop_to (q_size Top) k Top)) as [Hd _].
  assert (wp (push_labels (q_drain (pop_to (q_size Top) k Top)) []) (λ res s', s' = s2 ∧ nearest_of Top res) s2) as Hwp.
  { apply (wp_push_labels (index_holds s2 es Hix2)); [|constructor|].
    - intros x. rewrite Hd. intros Hx. apply Hall. rewrite Hp. apply elem_of_app. by left.
    - intros res Hdesc Hres. rewrite app_nil_r, Hd in Hres. split; [done|].
      exists (q_elems (pop_to (q_size Top) k Top)), rest. by split_and!. }
  destruct (wp_elim _ _ _ Hwp) as (res & s' & Hrun & -> & Hres). by exists res.
Qed.

(** C11: [searchKnn] of a well-formed index, with fuel for every element.  The source calls
    [searchBaseLayerST] without defining it, so it is any function here, with nothing
    assumed of it.  On an empty index [searchKnn] returns nothing.  Otherwise the walk down
    to the lowest level ends at an element no further from the query than the entry, from
    where [searchBaseLayerST] is called with [max(efSearch_, k)], without a filter and
    marks to look at just when there are none; [searchKnn] then throws or fails as that
    call does.  When the call returns elements of the index, with the index left well
    formed, [searchKnn] returns the labels and distances of the [k] nearest of them, or of
    all of them when they are fewer, the farthest on top, and changes nothing more. *)
Theorem knn_returns_nearest :
  (es = [] → searchKnn distance searchBaseLayerST fuel query_data k isIdAllowed s = Done [] s) ∧
  (es ≠ [] → ∃ start e ee s1,
    has es start e ∧ has es (entry_id_ s) ee ∧ away distance query_data e ≤ away distance query_data ee ∧ index_ok s1 es ∧ layout s1 = layout s ∧
    let bare := (deleted_count_ s =? 0) && negb (bool_decide (is_Some isIdAllowed)) in
    let ends := searchKnn distance searchBaseLayerST fuel query_data k isIdAllowed s in
    match searchBaseLayerST bare start query_data (Z.max (efSearch_ (layout s)) k) isIdAllowed None s1 with
    | Done Top s2 =>
        index_ok s2 es → (∀ x, x ∈ q_elems Top → ∃ f, has es x.2 f) → ∃ res, ends = Done res s2 ∧ nearest_of Top res
    | Throw ex s2 => ends = Throw ex s2
    | Stuck => ends = Stuck
    | Undef => ends = Undef
    | AssertFail => ends = AssertFail
    | NoFuel => ends = NoFuel
    end).
Proof.
  split.
  { intros ->. unfold searchKnn. rewrite (bind_Done _ _ _ (element_count_ s) s) by done.
    by rewrite (rep_count _ _ (ix_rep _ _ Hix)). }
  intros Hne. assert (wp (knn_start distance fuel query_data) (λ i s', ∃ e ee, has es i e ∧ has es (entry_id_ s) ee ∧
    away distance query_data e ≤ away distance query_data ee ∧ holds s es ∅ ∅ s') s) as Hwp.
  { apply (wp_knn_start _ Hne). intros i e ee s' He Hee Haway Hh. exists e, ee. exact (conj He (conj Hee (conj Haway Hh))). }
  destruct (wp_elim _ _ _ Hwp) as (start & s1 & Hstart & e & ee & He & Hee & Haway & Hh1). clear Hwp.
  pose proof (index_after _ _ Hix s1 Hh1) as Hix1.
  exists start, e, ee, s1. split_and!; [done..|by apply (holds_layout _ _ _ _ _ Hh1)|]. cbv zeta.
  assert (deleted_count_ s1 = deleted_count_ s) as Hdel by by rewrite (ix_deleted _ _ Hix1), (ix_deleted _ _ Hix).
  unfold searchKnn. rewrite (bind_Done _ _ _ (element_count_ s) s) by done. rewrite (rep_count _ _ (ix_rep _ _ Hix)).
  rewrite (proj2 (Z.eqb_neq (Z.of_nat (length es)) 0)) by (intros Hz; apply Hne, length_zero_iff_nil; lia).
  rewrite (bind_Done _ _ _ _ _ Hstart), (bind_Done _ _ _ (deleted_count_ s) s1) by (by rewrite <- Hdel).
  rewrite (bind_Done _ _ _ (efSearch_ (layout s)) s1) by (unfold conf, gets; cbn; by rewrite (proj1 (holds_layout _ _ _ _ _ Hh1))).
  cbv zeta. destruct (searchBaseLayerST _ _ _ _ _ _ s1) as [Top s2|ex s2| | | |] eqn:Hrun;
    [|by unfold mbind, M_bind; rewrite Hrun..].
  intros Hix2 Hall. rewrite (bind_Done _ _ _ _ _ Hrun). by apply finish_run.
Qed.
End Knn.

(** ** On the sample index: the base layer is searched with [searchBaseLayer] *)
Section Sample.
#[local] Existing Instance std_shared_mutex.

Definition sample_search (bare : bool) (start : Z) (query_data : list byte) (ef : Z) (allowed : option (Z → bool)) (stop : option unit) :
    MH (list entry) :=
  searchBaseLayer sample_uninit sample_distance 1000 4 start query_data 0.

Lemma sample_search_returns bare start e q ef allowed s1 :
  index_ok s1 sample_elements → has sample_elements start e → layout s1 = sample_layout →
  ∃ Top s2, sample_search bare start q ef allowed None s1 = Done Top s2 ∧ index_ok s2 sample_elements ∧
    ∀ x, x ∈ Top → ∃ f, has sample_elements x.2 f.
Proof.
  intros Hix1 He Hl.
  destruct (layer_search_finds (Q := list entry) sample_distance s1 sample_elements Hix1 sample_uninit 1000 4 start e q 0)
    as (Top & s2 & Hrun & Hix2 & Hfound); [exact sample_uninit_range|done|unfold e_level; lia|by rewrite Hl|cbn; lia|].
  exists Top, s2. split_and!; [exact Hrun|done|]. intros x Hx. destruct (f_elem _ _ _ _ _ _ _ Hfound x Hx) as [_ (f & Hf & _)]. eauto.
Qed.

Lemma knn_returns_nearest_witness : ∃ res s' Top,
  searchKnn sample_distance sample_search 4 [Byte.x04] 2 None sample_index = Done res s' ∧
  index_ok s' sample_elements ∧ nearest_of (Q := list entry) sample_elements 2 Top res.
Proof.
  destruct (knn_returns_nearest (Q := list entry) sample_distance sample_search sample_index sample_elements sample_index_ok 4
    ltac:(cbn; lia) [Byte.x04] 2 ltac:(lia) None) as [_ Hrun].
  destruct (Hrun ltac:(done)) as (start & e & ee & s1 & He & _ & _ & Hix1 & Hl & Hst). cbv zeta in Hst.
  destruct (sample_search_returns ((deleted_count_ sample_index =? 0) && negb (bool_decide (is_Some (None : option (Z → bool)))))
    start e [Byte.x04] (Z.max (efSearch_ (layout sample_index)) 2) None s1 Hix1 He Hl) as (Top & s2 & Hs & Hix2 & Hall).
  rewrite Hs in Hst. destruct (Hst Hix2 Hall) as (res & Hres & Hnear).
  exists res, s2, Top. exact (conj Hres (conj Hix2 Hnear)).
Defined.

(** Put together: the sample index returns the labels of the two nearest elements. *)
Lemma sample_knn :
  match searchKnn sample_distance sample_search 4 [Byte.x04] 2 None sample_index with
  | Done res _ => res.*2 = [7; 8]
  | _ => False
  end.
Proof. by vm_compute. Qed.
End Sample.
