(* ===== verification/HnswCheck.v ===== *)
(** [checkIntegrity] of src/hnsw/hnsw_scratch/hnsw_core.hpp: what it finds in a
    well-formed index. *)

From S2P Require Import Prelude Bytes Memory CxxLib NearestQueue MaxQueue VisitedList Wp Hnsw HnswRep HnswSearch HnswHeuristic HnswGraph HnswDescent HnswIndex HnswInsert HnswMarks HnswFile HnswSample.

(** ** The links, and how many lead to each element *)
Definition levels_of (e : element) : list Z := rev (levels_down (e_level e) 0).
Definition links_of (e : element) (ls : list Z) : list Z := concat (links e <$> ls).
Definition all_links (es : list element) : list Z := concat ((λ e, links_of e (levels_of e)) <$> es).

Definition inbound (n : nat) (ks : list Z) : list Z := (λ i, Z.of_nat (length (filter (λ k, k = Z.of_nat i) ks))) <$> seq 0 n.

Lemma inbound_nil n : inbound n [] = replicate n 0.
Proof.
  unfold inbound. apply list_eq. intros i. rewrite list_lookup_fmap. destruct (decide (i < n)%nat).
  - by rewrite lookup_seq_lt, lookup_replicate_2 by lia.
  - rewrite lookup_seq_ge, lookup_ge_None_2 by (rewrite ?length_replicate; lia). done.
Qed.

Lemma inbound_lookup n ks k : 0 ≤ k < Z.of_nat n →
  inbound n ks !! Z.to_nat k = Some (Z.of_nat (length (filter (λ j, j = k) ks))).
Proof. intros Hk. unfold inbound. rewrite list_lookup_fmap, lookup_seq_lt by lia. cbn. by rewrite Z2Nat.id by lia. Qed.

Lemma inbound_snoc n ks k : 0 ≤ k < Z.of_nat n →
  <[Z.to_nat k := Z.of_nat (length (filter (λ j, j = k) ks)) + 1]> (inbound n ks) = inbound n (ks ++ [k]).
Proof.
  intros Hk. apply list_eq. intros i. unfold inbound. rewrite list_lookup_fmap.
  destruct (decide (i < n)%nat) as [Hi|Hi].
  2: { rewrite lookup_seq_ge by lia. apply lookup_ge_None_2. rewrite length_insert, length_fmap, length_seq. lia. }
  rewrite lookup_seq_lt by lia. cbn. rewrite filter_app, filter_cons, length_app. destruct (decide (i = Z.to_nat k)) as [->|Hne].
  - rewrite list_lookup_insert_eq by (rewrite length_fmap, length_seq; lia). rewrite Z2Nat.id, decide_True by lia. cbn. f_equal. lia.
  - rewrite list_lookup_insert_ne, list_lookup_fmap, lookup_seq_lt by lia. cbn. rewrite decide_False by lia. cbn. f_equal. lia.
Qed.

Section Check.
Context (s : HierarchicalNSW) (es : list element) (Hix : index_ok s es).
Abbreviation n := (length es).

Lemma wp_check_links i e l ll js : ∀ ks st (Φ : gset Z * list Z → HierarchicalNSW → Prop),
  has es i e → list_at e l = Some ll →
  (∀ j, j ∈ js → ∃ k, l_slots ll !! j = Some k ∧ k ≠ i ∧ 0 ≤ k < Z.of_nat n) →
  Φ (list_to_set (omap (λ j, l_slots ll !! j) js) ∪ st, inbound n (ks ++ omap (λ j, l_slots ll !! j) js)) s →
  wp (check_links i (where_list (layout s) i l) js (st, inbound n ks)) Φ s.
Proof.
  pose proof (index_holds s es Hix) as Hh.
  induction js as [|j js IH]; intros ks st Φ He Hll Hjs HΦ; cbn [check_links].
  { apply wp_ret. cbn in HΦ. by rewrite union_empty_l_L, app_nil_r in HΦ. }
  destruct (Hjs j) as (k & Hk & Hne & Hrange); [by left|]. cbn in HΦ. rewrite Hk in HΦ. cbn in HΦ.
  apply wp_bind, wp_gets. apply wp_bind, (wp_slot Hh i e l ll j k); [done|done|done|].
  rewrite (rep_count _ _ (ix_rep _ _ Hix)). apply wp_bind, wp_assert; [apply Z.ltb_lt; lia|].
  apply wp_bind, wp_assert; [by apply negb_true_iff, Z.eqb_neq|].
  apply wp_bind. unfold at_. rewrite decide_True, inbound_lookup by lia. apply wp_ret.
  unfold set_at. rewrite decide_True by (unfold inbound; rewrite length_fmap, length_seq; lia). rewrite inbound_snoc by done.
  apply IH; [done|done|intros j' Hj'; apply Hjs; by right|]. rewrite <- app_assoc. cbn [app].
  replace (list_to_set (omap (λ j, l_slots ll !! j) js) ∪ ({[k]} ∪ st)) with
    ({[k]} ∪ list_to_set (omap (λ j, l_slots ll !! j) js) ∪ st) by (apply leibniz_equiv; clear; set_solver). done.
Qed.

Lemma wp_check_levels i e ls : ∀ ks c (Φ : Z * list Z → HierarchicalNSW → Prop),
  has es i e → (∀ l, l ∈ ls → 0 ≤ l ≤ e_level e) →
  Φ (c + Z.of_nat (length (links_of e ls)), inbound n (ks ++ links_of e ls)) s →
  wp (check_levels i ls (c, inbound n ks)) Φ s.
Proof.
  pose proof (index_holds s es Hix) as Hh.
  induction ls as [|l ls IH]; intros ks c Φ He Hls HΦ; cbn [check_levels].
  { apply wp_ret. cbn in HΦ. by rewrite Z.add_0_r, app_nil_r in HΦ. }
  destruct (Hls l) as [Hl Hle]; [by left|]. destruct (list_at_level e l) as [ll Hll]; [lia|].
  pose proof (holds_list_ok Hh _ _ _ _ He Hll) as Hok. pose proof (stored_slots _ _ Hok) as Hst.
  assert (links e l = stored ll) as Hlk by (unfold links; by rewrite Hll).
  destruct (ix_graph _ _ Hix l Hl i e He Hle) as [Hnd Hlinks]. rewrite Hlk in Hnd, Hlinks.
  apply wp_bind, (wp_list Hh i e l ll); [done|done|]. apply wp_bind, (wp_count Hh i e l ll); [done|done|].
  apply wp_bind, (wp_check_links i e l ll); [done|done| |].
  - intros j Hj. apply elem_of_seq in Hj as [_ Hj]. destruct Hok as [Hs Hc _ _ _].
    destruct (lookup_lt_is_Some_2 (l_slots ll) j) as [k Hk]; [lia|]. exists k.
    destruct (Hlinks k) as [Hne (f & Hf & _)].
    { apply (list_elem_of_lookup_2 _ j). unfold stored. by rewrite lookup_take_lt by lia. }
    destruct (has_lt s es (ix_rep _ _ Hix) _ _ Hf). done.
  - rewrite Hst, union_empty_r_L. apply wp_bind, wp_assert.
    { apply Z.eqb_eq. rewrite size_list_to_set by done. unfold stored. rewrite length_take. destruct Hok. lia. }
    apply IH; [done|intros l' Hl'; apply Hls; by right|].
    assert (Z.of_nat (length (links e l)) = l_count ll) as Hlen.
    { rewrite Hlk. unfold stored. rewrite length_take. destruct Hok. lia. }
    unfold links_of in *. cbn in HΦ. rewrite length_app, Hlk in HΦ. rewrite Hlk in Hlen. rewrite <- app_assoc, <- Hlen.
    by rewrite Nat2Z.inj_add, Z.add_assoc in HΦ.
Qed.

Lemma wp_check_elements todo : ∀ done_ c (Φ : Z * list Z → HierarchicalNSW → Prop),
  es = done_ ++ todo → Φ (c + Z.of_nat (length (all_links todo)), inbound n (all_links es)) s →
  wp (check_elements (seq (length done_) (length todo)) (c, inbound n (all_links done_))) Φ s.
Proof.
  pose proof (index_holds s es Hix) as Hh.
  induction todo as [|e todo IH]; intros done_ c Φ Hes HΦ; cbn [length seq check_elements].
  { apply wp_ret. rewrite app_nil_r in Hes. cbn in HΦ. rewrite Z.add_0_r in HΦ. by rewrite <- Hes. }
  assert (has es (Z.of_nat (length done_)) e) as He by (split; [lia|]; by rewrite Nat2Z.id, Hes, list_lookup_middle).
  apply wp_bind, (wp_level_of Hh _ e); [done|]. apply wp_bind, (wp_check_levels _ e (levels_of e)); [done| |].
  { intros l Hl. unfold levels_of in Hl. rewrite list_elem_of_In, <- in_rev, <- list_elem_of_In in Hl.
    unfold levels_down in Hl. apply list_elem_of_fmap in Hl as (m & -> & Hm%elem_of_seq). lia. }
  assert (all_links (done_ ++ [e]) = all_links done_ ++ links_of e (levels_of e)) as <-.
  { unfold all_links. rewrite fmap_app, concat_app. cbn. by rewrite app_nil_r. }
  replace (S (length done_)) with (length (done_ ++ [e])) by (rewrite length_app; cbn; lia).
  apply IH; [by rewrite <- app_assoc|]. unfold all_links at 1 in HΦ. cbn in HΦ. rewrite length_app, Nat2Z.inj_add, Z.add_assoc in HΦ. exact HΦ.
Qed.

(** C33: On a well-formed index no assertion about a link fails: [checkIntegrity] reports the
    number of all links and the least and the greatest number of links to an element, and
    fails an assertion exactly when there are two elements and no link leads to one. *)
Theorem integrity_checked :
  checkIntegrity s =
    if 1 <? Z.of_nat n then
      match inbound n (all_links es) with
      | c :: cs => if forallb (λ c, 0 <? c) (c :: cs)
          then Done (Some (foldl Z.min c (c :: cs), foldl Z.max c (c :: cs)), Z.of_nat (length (all_links es))) s
          else AssertFail
      | [] => Undef
      end
    else Done (None, Z.of_nat (length (all_links es))) s.
Proof.
  unfold checkIntegrity. erewrite bind_Done by done. rewrite (rep_count _ _ (ix_rep _ _ Hix)), Nat2Z.id, <- inbound_nil.
  destruct (wp_elim _ _ _ (wp_check_elements es [] 0 (λ r s', r = (Z.of_nat (length (all_links es)), inbound n (all_links es)) ∧ s' = s)
    eq_refl (conj eq_refl eq_refl))) as (r & s' & Hrun & -> & ->).
  erewrite bind_Done by exact Hrun. cbv beta iota. destruct (Z.ltb_spec 1 (Z.of_nat n)); [|done].
  destruct (inbound n (all_links es)) as [|c cs] eqn:E.
  - exfalso. apply (f_equal length) in E. unfold inbound in E. rewrite length_fmap, length_seq in E. cbn in E. lia.
  - unfold assert_. by destruct (forallb _ _).
Qed.
End Check.

Lemma integrity_checked_witness : checkIntegrity sample_index = Done (Some (1, 3), 6) sample_index.
Proof. rewrite (integrity_checked sample_index sample_elements sample_index_ok). reflexivity. Defined.
