(* ===== verification/SkipList.v ===== *)
(** The skip list of src/dsa/skiplist.hpp, as one thread runs it.

    Nodes are objects of the store; a null pointer is [None], and following it - or the
    address of a deleted node - is undefined behaviour.  [Key] is an integer type whose
    largest value is [key_max].  The level [randomLevel] draws is an argument of [add].
    With one thread validation never fails; the retry loops are there all the same. *)

From stdpp Require Import sorting.
From S2P Require Import Prelude.

Record Node (V : Type) := mkNode {
  key : Z;
  value : V;
  next : list (option loc);
  marked : bool;
  node_lock : bool;
}.
Arguments mkNode {V}. Arguments key {V}. Arguments value {V}. Arguments next {V}.
Arguments marked {V}. Arguments node_lock {V}.

Record SkipList (V : Type) := mkSkip {
  head : loc;
  tail : loc;
  currentLevel : nat;
  node_objs : gmap loc (Node V);
}.
Arguments mkSkip {V}. Arguments head {V}. Arguments tail {V}. Arguments currentLevel {V}. Arguments node_objs {V}.

Section Skip.
Context {V : Type} (key_min key_max : Z).
Abbreviation MS := (M (SkipList V)).
Abbreviation pointers := (list (option loc)).

Definition MAX_LEVEL : nat := 16.

Definition node_at (l : loc) : MS (Node V) := λ s,
  match node_objs s !! l with Some n => Done n s | None => Undef end.
Definition write_node (l : loc) (n : Node V) : MS unit :=
  modify (λ s, mkSkip (head s) (tail s) (currentLevel s) (<[l := n]> (node_objs s))).

(** [l->next[level]]. *)
Definition next_at (l : loc) (level : nat) : MS (option loc) :=
  n ← node_at l;
  match next n !! level with Some p => mret p | None => undef end.
Definition store_next (l : loc) (level : nat) (p : option loc) : MS unit :=
  n ← node_at l;
  match next n !! level with
  | Some _ => write_node l (mkNode (key n) (value n) (<[level := p]> (next n)) (marked n) (node_lock n))
  | None => undef
  end.

(** Following a pointer. *)
Definition deref (p : option loc) : MS loc := match p with Some l => mret l | None => undef end.

(** [preds[level]] of the local vectors. *)
Definition at_level (ps : pointers) (level : nat) : MS (option loc) :=
  match ps !! level with Some p => mret p | None => undef end.

(** A node's mutex: locking it again from the same thread never returns. *)
Definition lock (p : option loc) : MS unit :=
  l ← deref p;
  n ← node_at l;
  if node_lock n then stuck
  else write_node l (mkNode (key n) (value n) (next n) (marked n) true).
Definition unlock (p : option loc) : MS unit :=
  l ← deref p;
  n ← node_at l;
  write_node l (mkNode (key n) (value n) (next n) (marked n) false).

Fixpoint for_each (levels : list nat) (body : nat → MS unit) : MS unit :=
  match levels with
  | [] => mret tt
  | level :: levels' => body level ;; for_each levels' body
  end.

(** [draws i] is whether the number [dist] makes of the [i]-th state of [gen] is below
    [PROBABILITY]; the result has the state [gen] is left in. *)
Fixpoint draw_level (fuel : nat) (draws : nat → bool) (gen lvl : nat) : option (nat * nat) :=
  match fuel with
  | O => None
  | S fuel' =>
      if draws gen && (lvl <? MAX_LEVEL)%nat then draw_level fuel' draws (S gen) (S lvl) else Some (lvl, S gen)
  end.

Definition randomLevel (draws : nat → bool) (gen : nat) : option (nat * nat) := draw_level MAX_LEVEL draws gen 1.

(** The constructor, over two new nodes. *)
Definition skip_new (h t : loc) (v : V) : SkipList V :=
  mkSkip h t 1
    (<[h := mkNode key_min v (replicate MAX_LEVEL (Some t)) false false]>
       (<[t := mkNode key_max v (replicate MAX_LEVEL None) false false]> ∅)).

(** The [while (true)] of [find] on one level. *)
Fixpoint find_level (fuel : nat) (k : Z) (level : nat) (pred : loc) (curr : option loc) : MS (loc * loc) :=
  match fuel with
  | O => λ _, NoFuel
  | S fuel' =>
      c ← deref curr;
      n ← node_at c;
      if marked n then
        nxt ← next_at c level;
        find_level fuel' k level pred nxt
      else if key n <? k then
        nxt ← next_at c level;
        find_level fuel' k level c nxt
      else mret (pred, c)
  end.

Fixpoint find_levels (fuel : nat) (k : Z) (levels : nat) (pred : loc) (preds succs : pointers) : MS (pointers * pointers) :=
  match levels with
  | O => mret (preds, succs)
  | S level =>
      curr ← next_at pred level;
      '(pred', curr') ← find_level fuel k level pred curr;
      find_levels fuel k level pred' (<[level := Some pred']> preds) (<[level := Some curr']> succs)
  end.

Definition find (fuel : nat) (k : Z) (preds succs : pointers) : MS (pointers * pointers) :=
  s ← get; find_levels fuel k (currentLevel s) (head s) preds succs.

Fixpoint contains_level (fuel : nat) (k : Z) (level : nat) (curr : loc) : MS loc :=
  match fuel with
  | O => λ _, NoFuel
  | S fuel' =>
      nxt ← next_at curr level;
      match nxt with
      | None => mret curr
      | Some c => n ← node_at c; if key n <? k then contains_level fuel' k level c else mret curr
      end
  end.

Fixpoint contains_levels (fuel : nat) (k : Z) (levels : nat) (curr : loc) : MS loc :=
  match levels with
  | O => mret curr
  | S level => curr' ← contains_level fuel k level curr; contains_levels fuel k level curr'
  end.

Definition contains (fuel : nat) (k : Z) : MS bool :=
  s ← get;
  curr ← contains_levels fuel k (currentLevel s) (head s);
  nxt ← next_at curr 0;
  match nxt with
  | None => mret false
  | Some c => n ← node_at c; mret ((key n =? k) && negb (marked n))
  end.

(** [pred->next[level] == expected], level by level. *)
Fixpoint validate (levels : list nat) (preds : pointers) (expected : nat → MS (option loc)) : MS bool :=
  match levels with
  | [] => mret true
  | level :: levels' =>
      p ← at_level preds level;
      l ← deref p;
      nxt ← next_at l level;
      e ← expected level;
      if bool_decide (nxt = e) then validate levels' preds expected else mret false
  end.

Definition new_node (k : Z) (v : V) (level : nat) : MS loc :=
  s ← get;
  let l := fresh (dom (node_objs s)) in
  write_node l (mkNode k v (replicate level None) false false) ;;
  mret l.

Definition delete_node (l : loc) : MS unit :=
  n ← node_at l;
  modify (λ s, mkSkip (head s) (tail s) (currentLevel s) (delete l (node_objs s))).

Fixpoint add_loop (fuel : nat) (k : Z) (v : V) (topLevel : nat) (preds succs : pointers) (retries : nat) : MS bool :=
  match retries with
  | O => λ _, NoFuel
  | S retries' =>
      '(preds, succs) ← find fuel k preds succs;
      f ← at_level succs 0;
      found ← deref f;
      n ← node_at found;
      if (key n =? k) && negb (marked n) then mret false
      else
        newNode ← new_node k v topLevel;
        for_each (seq 0 topLevel) (λ level, p ← at_level succs level; store_next newNode level p) ;;
        for_each (seq 0 topLevel) (λ level, p ← at_level preds level; lock p) ;;
        valid ← validate (seq 0 topLevel) preds (at_level succs);
        if negb valid then
          delete_node newNode ;;
          for_each (seq 0 topLevel) (λ level, p ← at_level preds level; unlock p) ;;
          add_loop fuel k v topLevel preds succs retries'
        else
          for_each (seq 0 topLevel) (λ level, p ← at_level preds level; l ← deref p; store_next l level (Some newNode)) ;;
          modify (λ s, mkSkip (head s) (tail s) (Nat.max (currentLevel s) topLevel) (node_objs s)) ;;
          for_each (seq 0 topLevel) (λ level, p ← at_level preds level; unlock p) ;;
          mret true
  end.

Definition add (fuel : nat) (k : Z) (v : V) (topLevel : nat) : MS bool :=
  add_loop fuel k v topLevel (replicate MAX_LEVEL None) (replicate MAX_LEVEL None) fuel.

Fixpoint remove_loop (fuel : nat) (k : Z) (preds succs : pointers) (isMarked : bool) (retries : nat) : MS bool :=
  match retries with
  | O => λ _, NoFuel
  | S retries' =>
      '(preds, succs) ← find fuel k preds succs;
      f ← at_level succs 0;
      victim ← deref f;
      n ← node_at victim;
      if negb (key n =? k) then mret false
      else
        already ← (if isMarked then mret false
                   else
                     lock (Some victim) ;;
                     n ← node_at victim;
                     (if marked n then mret tt
                      else write_node victim (mkNode (key n) (value n) (next n) true (node_lock n))) ;;
                     unlock (Some victim) ;;
                     mret (marked n));
        if (already : bool) then mret false
        else
          n ← node_at victim;
          let size := length (next n) in
          for_each (seq 0 size) (λ level, p ← at_level preds level; lock p) ;;
          valid ← validate (seq 0 size) preds (λ _, mret (Some victim));
          if negb valid then
            for_each (seq 0 size) (λ level, p ← at_level preds level; unlock p) ;;
            remove_loop fuel k preds succs true retries'
          else
            for_each (rev (seq 0 size)) (λ level,
              p ← at_level preds level; l ← deref p;
              nxt ← next_at victim level;
              store_next l level nxt) ;;
            delete_node victim ;;
            for_each (seq 0 size) (λ level, p ← at_level preds level; unlock p) ;;
            mret true
  end.

Definition remove (fuel : nat) (k : Z) : MS bool :=
  remove_loop fuel k (replicate MAX_LEVEL None) (replicate MAX_LEVEL None) false fuel.

(** The destructor: the nodes between head and tail, then the two it owns. *)
Fixpoint delete_nodes (fuel : nat) (node : option loc) : MS unit :=
  match fuel with
  | O => λ _, NoFuel
  | S fuel' =>
      s ← get;
      match node with
      | None => mret tt
      | Some l =>
          if decide (l = tail s) then mret tt
          else nxt ← next_at l 0; delete_node l ;; delete_nodes fuel' nxt
      end
  end.

Definition skip_delete (fuel : nat) : MS unit :=
  s ← get;
  node ← next_at (head s) 0;
  delete_nodes fuel node ;;
  delete_node (tail s) ;;
  delete_node (head s).
End Skip.

(** ** The list on the lowest level *)
Section Paths.
Context {V : Type}.
Implicit Types (objs : gmap loc (Node V)) (xs : list loc) (a b : loc).

Definition nx objs a : option loc := n ← objs !! a; mjoin (next n !! 0%nat).

Fixpoint path objs a xs b : Prop :=
  match xs with
  | [] => nx objs a = Some b
  | x :: xs' => nx objs a = Some x ∧ path objs x xs' b
  end.

(** Where a path ends before its target, and where it begins. *)
Fixpoint ends a xs : loc := match xs with [] => a | x :: xs' => ends x xs' end.
Definition first_of b xs : loc := match xs with [] => b | x :: _ => x end.

Lemma path_app objs xs ys : ∀ a b,
  path objs a (xs ++ ys) b ↔ path objs a xs (first_of b ys) ∧ path objs (ends a xs) ys b.
Proof.
  induction xs as [|x xs IH]; intros a b; cbn.
  - destruct ys; cbn; tauto.
  - rewrite IH. tauto.
Qed.

Lemma path_first objs xs a b : path objs a xs b → nx objs a = Some (first_of b xs).
Proof. destruct xs; cbn; tauto. Qed.

Lemma path_last objs xs : ∀ a b, path objs a xs b → nx objs (ends a xs) = Some b.
Proof. induction xs as [|x xs IH]; intros a b; cbn; [done|]. intros [_ H]. by apply IH. Qed.

Lemma ends_in xs : ∀ a, ends a xs ∈ a :: xs.
Proof. induction xs as [|x xs IH]; intros a; cbn; [by left|]. right. apply IH. Qed.

(** A path stays when the nodes it leaves from do. *)
Lemma path_mono objs objs' xs : ∀ a b,
  (∀ x, x ∈ a :: xs → nx objs' x = nx objs x) → path objs a xs b → path objs' a xs b.
Proof.
  induction xs as [|x xs IH]; intros a b Hsame; cbn.
  - by rewrite Hsame by (by left).
  - intros [Hx Hp]. split; [by rewrite Hsame by (by left)|]. apply IH; [|done]. intros y Hy. apply Hsame. by right.
Qed.

(** The same nodes from another start. *)
Lemma path_restart objs objs' xs a a' b :
  (∀ x, x ∈ xs → nx objs' x = nx objs x) → nx objs' a' = Some (first_of b xs) → path objs a xs b → path objs' a' xs b.
Proof.
  destruct xs as [|x xs]; cbn; [done|]. intros Hsame Ha' [_ Hp]. split; [done|]. by eapply path_mono.
Qed.

(** Turning the last pointer of a path elsewhere. *)
Lemma path_retarget objs objs' xs : ∀ a b c,
  NoDup (a :: xs) → (∀ x, x ∈ a :: xs → x ≠ ends a xs → nx objs' x = nx objs x) →
  nx objs' (ends a xs) = Some c → path objs a xs b → path objs' a xs c.
Proof.
  induction xs as [|x xs IH]; intros a b c Hd Hsame Hc; cbn in *; [done|].
  apply NoDup_cons in Hd as [Ha Hd]. intros [Hx Hp]. split.
  - rewrite Hsame; [done|by left|]. intros Heq. apply Ha. rewrite Heq. apply ends_in.
  - eapply IH; [done| |done|done]. intros y Hy. apply Hsame. by right.
Qed.
End Paths.

(** ** The keys of a skip list *)
Section Rep.
Context {V : Type} (key_min key_max : Z).
Implicit Types (s : SkipList V) (xs : list (loc * Z)) (k : Z).

(** A node nobody has marked or locked. *)
Definition idle (n : Node V) (k : Z) (levels : nat) : Prop :=
  key n = k ∧ marked n = false ∧ node_lock n = false ∧ length (next n) = levels.

(** Every node is on the lowest level only, between the head and the tail, in order. *)
Record skip_rep s xs : Prop := {
  sr_level : currentLevel s = 1%nat;
  sr_nodup : NoDup (head s :: xs.*1 ++ [tail s]);
  sr_path : path (node_objs s) (head s) xs.*1 (tail s);
  sr_head : ∃ n, node_objs s !! head s = Some n ∧ idle n (key n) MAX_LEVEL;
  sr_tail : ∃ n, node_objs s !! tail s = Some n ∧ idle n key_max MAX_LEVEL;
  sr_nodes : ∀ x k, (x, k) ∈ xs → ∃ n, node_objs s !! x = Some n ∧ idle n k 1;
  sr_sorted : StronglySorted Z.lt (xs.*2 ++ [key_max]);
}.

(** The nodes of a list. *)
Definition nodes_of s xs : gset loc := list_to_set (head s :: xs.*1 ++ [tail s]).

Lemma node_at_run s l n : node_objs s !! l = Some n → node_at l s = Done n s.
Proof. intros H. unfold node_at. by rewrite H. Qed.

Lemma next_at_run s l n level p :
  node_objs s !! l = Some n → next n !! level = Some p → next_at l level s = Done p s.
Proof. intros H Hp. unfold next_at. rewrite (bind_Done _ _ _ _ _ (node_at_run _ _ _ H)). by rewrite Hp. Qed.

Lemma nx_next s l n c : node_objs s !! l = Some n → nx (node_objs s) l = Some c → next n !! 0%nat = Some (Some c).
Proof.
  intros H Hc. unfold nx in Hc. rewrite H in Hc. cbn in Hc. by destruct (next n !! 0%nat) as [[]|]; simplify_eq/=.
Qed.

(** [find] and [contains] walk past the smaller keys. *)
Lemma find_level_run s xs : ∀ a k fuel,
  path (node_objs s) a xs.*1 (tail s) → (∀ x kx, (x, kx) ∈ xs → ∃ n, node_objs s !! x = Some n ∧ idle n kx 1) →
  (∃ n, node_objs s !! tail s = Some n ∧ idle n key_max MAX_LEVEL) →
  StronglySorted Z.lt (xs.*2 ++ [key_max]) → k ≤ key_max → (length xs < fuel)%nat →
  ∃ l1 l2, xs = l1 ++ l2 ∧ Forall (λ q, q.2 < k) l1 ∧ Forall (λ q, k ≤ q.2) l2 ∧
    find_level fuel k 0 a (Some (first_of (tail s) xs.*1)) s = Done (ends a l1.*1, first_of (tail s) l2.*1) s.
Proof.
  induction xs as [|[x kx] xs IH]; intros a k [|fuel] Hp Hn Ht Hs Hk Hf; cbn in Hf; try lia; cbn [find_level deref].
  - exists [], []. split_and!; [done|constructor|constructor|]. cbn [first_of fmap list_fmap].
    destruct Ht as (n & Hn' & Hkey & Hm & _ & _). rewrite bind_ret, (bind_Done _ _ _ _ _ (node_at_run _ _ _ Hn')).
    rewrite Hm, Hkey. by destruct (Z.ltb_spec key_max k); [lia|].
  - cbn [first_of fmap list_fmap fst snd app] in *. destruct Hp as [Hax Hp]. destruct (Hn x kx) as (n & Hn' & Hkey & Hm & Hl & Hlen); [by left|].
    rewrite bind_ret, (bind_Done _ _ _ _ _ (node_at_run _ _ _ Hn')), Hm, Hkey.
    apply StronglySorted_inv in Hs as [Hs Hall].
    destruct (Z.ltb_spec kx k) as [Hlt|Hge].
    + pose proof (path_first _ _ _ _ Hp) as Hnx. pose proof (nx_next _ _ _ _ Hn' Hnx) as H0.
      rewrite (bind_Done _ _ _ _ _ (next_at_run _ _ _ _ _ Hn' H0)).
      destruct (IH x k fuel Hp) as (l1 & l2 & -> & H1 & H2 & Hrun); try done; [|lia|].
      * intros y ky Hy. apply Hn. by right.
      * exists ((x, kx) :: l1), l2. split_and!; try done. by constructor.
    + exists [], ((x, kx) :: xs). split_and!; try done. constructor; [done|].
      apply Forall_forall. intros [y ky] Hy. cbn. assert (kx < ky); [|lia].
      rewrite Forall_forall in Hall. apply Hall. apply elem_of_app. left. apply list_elem_of_fmap. by exists (y, ky).
Qed.
Lemma find_run s xs k fuel preds succs :
  skip_rep s xs → k ≤ key_max → (length xs < fuel)%nat →
  ∃ l1 l2, xs = l1 ++ l2 ∧ Forall (λ q, q.2 < k) l1 ∧ Forall (λ q, k ≤ q.2) l2 ∧
    find fuel k preds succs s =
      Done (<[0%nat := Some (ends (head s) l1.*1)]> preds, <[0%nat := Some (first_of (tail s) l2.*1)]> succs) s.
Proof.
  intros [Hlev Hd Hp Hh Ht Hn Hs] Hk Hf.
  destruct (find_level_run s xs (head s) k fuel Hp Hn Ht Hs Hk Hf) as (l1 & l2 & -> & H1 & H2 & Hrun).
  exists l1, l2. split_and!; try done. unfold find. rewrite bind_get, Hlev. cbn [find_levels].
  destruct Hh as (nh & Hh & _ & _ & _ & Hlen).
  pose proof (nx_next _ _ _ _ Hh (path_first _ _ _ _ Hp)) as H0.
  rewrite (bind_Done _ _ _ _ _ (next_at_run _ _ _ _ _ Hh H0)). by rewrite (bind_Done _ _ _ _ _ Hrun).
Qed.

(** The nodes on both sides of a place in the list. *)
Lemma before_node s l1 l2 :
  skip_rep s (l1 ++ l2) →
  ∃ n, node_objs s !! (ends (head s) l1.*1) = Some n ∧ marked n = false ∧ node_lock n = false ∧
    next n !! 0%nat = Some (Some (first_of (tail s) l2.*1)).
Proof.
  intros [Hlev Hd Hp Hh Ht Hn Hs].
  assert (∃ n, node_objs s !! (ends (head s) l1.*1) = Some n ∧ marked n = false ∧ node_lock n = false) as (n & Hn' & Hm & Hl).
  { pose proof (ends_in l1.*1 (head s)) as Hin. apply elem_of_cons in Hin as [->|([x kx] & -> & Hin)%list_elem_of_fmap].
    - destruct Hh as (n & Hn' & _ & Hm & Hl & _). by exists n.
    - destruct (Hn x kx) as (n & Hn' & _ & Hm & Hl & _); [by apply elem_of_app; left|]. by exists n. }
  exists n. split_and!; try done. rewrite fmap_app in Hp. apply path_app in Hp as [Hp _].
  apply path_last in Hp. by apply (nx_next _ _ _ _ Hn' Hp).
Qed.

Lemma after_node s l1 l2 :
  skip_rep s (l1 ++ l2) →
  ∃ n m, node_objs s !! first_of (tail s) l2.*1 = Some n ∧ idle n (List.hd key_max l2.*2) m.
Proof.
  intros [Hlev Hd Hp Hh Ht Hn Hs]. destruct l2 as [|[x kx] l2]; cbn.
  - destruct Ht as (n & Hn' & Hidle). by exists n, MAX_LEVEL.
  - destruct (Hn x kx) as (n & Hn' & Hidle); [by apply elem_of_app; right; left|]. by exists n, 1%nat.
Qed.

(** The key is in the list exactly when it is the one after the smaller ones. *)
Lemma key_here l1 l2 k :
  Forall (λ q : loc * Z, q.2 < k) l1 → Forall (λ q : loc * Z, k ≤ q.2) l2 →
  StronglySorted Z.lt ((l1 ++ l2).*2 ++ [key_max]) → k < key_max →
  List.hd key_max l2.*2 = k ↔ k ∈ (l1 ++ l2).*2.
Proof.
  intros H1 H2 Hs Hk. rewrite fmap_app, elem_of_app. split.
  - destruct l2 as [|[x kx] l2]; cbn; [lia|]. intros ->. right. by left.
  - intros [([x kx] & -> & Hin)%list_elem_of_fmap|Hin].
    + rewrite Forall_forall in H1. apply H1 in Hin. cbn in Hin. lia.
    + destruct l2 as [|[y ky] l2]; [by apply elem_of_nil in Hin|]. cbn in *.
      apply elem_of_cons in Hin as [->|Hin]; [done|]. exfalso.
      apply Forall_cons in H2 as [Hky H2]. cbn in Hky.
      rewrite fmap_app, <- app_assoc in Hs. apply StronglySorted_app in Hs as (_ & _ & Hs). cbn in Hs.
      apply StronglySorted_inv in Hs as [_ Hall]. rewrite Forall_forall in Hall.
      assert (ky < k); [|lia]. apply Hall. apply elem_of_app. by left.
Qed.

Lemma contains_level_run s xs : ∀ a k fuel,
  path (node_objs s) a xs.*1 (tail s) → (∀ x kx, (x, kx) ∈ xs → ∃ n, node_objs s !! x = Some n ∧ idle n kx 1) →
  (∃ n, node_objs s !! tail s = Some n ∧ idle n key_max MAX_LEVEL) → is_Some (node_objs s !! a) →
  StronglySorted Z.lt (xs.*2 ++ [key_max]) → k ≤ key_max → (length xs < fuel)%nat →
  ∃ l1 l2, xs = l1 ++ l2 ∧ Forall (λ q, q.2 < k) l1 ∧ Forall (λ q, k ≤ q.2) l2 ∧
    contains_level fuel k 0 a s = Done (ends a l1.*1) s.
Proof.
  induction xs as [|[x kx] xs IH]; intros a k [|fuel] Hp Hn Ht [na Ha] Hs Hk Hf; cbn in Hf; try lia; cbn [contains_level];
    rewrite (bind_Done _ _ _ _ _ (next_at_run _ _ _ _ _ Ha (nx_next _ _ _ _ Ha (path_first _ _ _ _ Hp)))).
  - exists [], []. split_and!; [done|constructor|constructor|]. cbn [first_of fmap list_fmap].
    destruct Ht as (n & Hn' & Hkey & _). rewrite (bind_Done _ _ _ _ _ (node_at_run _ _ _ Hn')), Hkey.
    by destruct (Z.ltb_spec key_max k); [lia|].
  - cbn [first_of fmap list_fmap fst snd app] in *. destruct Hp as [Hax Hp]. destruct (Hn x kx) as (n & Hn' & Hkey & _); [by left|].
    rewrite (bind_Done _ _ _ _ _ (node_at_run _ _ _ Hn')), Hkey.
    apply StronglySorted_inv in Hs as [Hs Hall].
    destruct (Z.ltb_spec kx k) as [Hlt|Hge].
    + destruct (IH x k fuel Hp) as (l1 & l2 & -> & H1 & H2 & Hrun); try (done || lia).
      * intros y ky Hy. apply Hn. by right.
      * exists ((x, kx) :: l1), l2. split_and!; try done. by constructor.
    + exists [], ((x, kx) :: xs). split_and!; try done. constructor; [done|].
      apply Forall_forall. intros [y ky] Hy. cbn. assert (kx < ky); [|lia].
      rewrite Forall_forall in Hall. apply Hall. apply elem_of_app. left. apply list_elem_of_fmap. by exists (y, ky).
Qed.

Lemma contains_run s xs k fuel :
  skip_rep s xs → k < key_max → (length xs < fuel)%nat →
  contains fuel k s = Done (bool_decide (k ∈ xs.*2)) s.
Proof.
  intros Hr Hk Hf. pose proof Hr as [Hlev Hd Hp Hh Ht Hn Hs].
  destruct (contains_level_run s xs (head s) k fuel Hp Hn Ht) as (l1 & l2 & -> & H1 & H2 & Hrun); try (done || lia).
  { destruct Hh as (n & Hn' & _). by exists n. }
  unfold contains. rewrite bind_get, Hlev. cbn [contains_levels]. rewrite bind_assoc, (bind_Done _ _ _ _ _ Hrun), bind_ret.
  destruct (before_node _ _ _ Hr) as (n & Hn' & _ & _ & H0). destruct (after_node _ _ _ Hr) as (c & m & Hc & Hkey & Hm & _).
  rewrite (bind_Done _ _ _ _ _ (next_at_run _ _ _ _ _ Hn' H0)), (bind_Done _ _ _ _ _ (node_at_run _ _ _ Hc)), Hkey, Hm.
  rewrite andb_true_r. unfold mret, M_ret. f_equal. pose proof (key_here l1 l2 k H1 H2 Hs Hk).
  apply eq_bool_prop_intro. rewrite bool_decide_spec. destruct (Z.eqb_spec (List.hd key_max l2.*2) k); naive_solver.
Qed.
(** *** Single steps *)
Definition upd s l (n : Node V) : SkipList V := mkSkip (head s) (tail s) (currentLevel s) (<[l := n]> (node_objs s)).
Definition with_next (n : Node V) (level : nat) (p : option loc) : Node V :=
  mkNode (key n) (value n) (<[level := p]> (next n)) (marked n) (node_lock n).
Definition with_lock (n : Node V) (b : bool) : Node V := mkNode (key n) (value n) (next n) (marked n) b.
Definition with_mark (n : Node V) : Node V := mkNode (key n) (value n) (next n) true (node_lock n).

Lemma upd_here s l n : node_objs (upd s l n) !! l = Some n.
Proof. apply lookup_insert_eq. Qed.
Lemma upd_there s l l' n : l ≠ l' → node_objs (upd s l n) !! l' = node_objs s !! l'.
Proof. apply lookup_insert_ne. Qed.

Lemma store_next_run s l n level p :
  node_objs s !! l = Some n → (level < length (next n))%nat → store_next l level p s = Done tt (upd s l (with_next n level p)).
Proof.
  intros H Hl. unfold store_next. rewrite (bind_Done _ _ _ _ _ (node_at_run _ _ _ H)).
  destruct (lookup_lt_is_Some_2 _ _ Hl) as [q ->]. done.
Qed.

Lemma lock_run s l n : node_objs s !! l = Some n → node_lock n = false → lock (Some l) s = Done tt (upd s l (with_lock n true)).
Proof. intros H Hl. unfold lock, deref. rewrite bind_ret, (bind_Done _ _ _ _ _ (node_at_run _ _ _ H)), Hl. done. Qed.

Lemma unlock_run s l n : node_objs s !! l = Some n → unlock (Some l) s = Done tt (upd s l (with_lock n false)).
Proof. intros H. unfold unlock, deref. by rewrite bind_ret, (bind_Done _ _ _ _ _ (node_at_run _ _ _ H)). Qed.

Lemma for_one (body : nat → M (SkipList V) unit) s s' : body 0%nat s = Done tt s' → for_each (seq 0 1) body s = Done tt s'.
Proof. intros H. cbn. by rewrite (bind_Done _ _ _ _ _ H). Qed.

Lemma rep_distinct s xs l1 x k l2 :
  skip_rep s xs → xs = l1 ++ (x, k) :: l2 → ends (head s) l1.*1 ≠ x.
Proof.
  intros [_ Hd _ _ _ _ _] ->. rewrite fmap_app in Hd. cbn in Hd. rewrite <- app_assoc in Hd.
  rewrite app_comm_cons in Hd. apply NoDup_app in Hd as (_ & Hdis & _). intros Heq.
  apply (Hdis x); [rewrite <- Heq; apply ends_in|by left].
Qed.

(** Adding a key that is not there, on the lowest level. *)
Lemma add_effect s xs k v fuel :
  skip_rep s xs → k < key_max → (length xs < fuel)%nat → k ∉ xs.*2 →
  ∃ l1 l2 l np s', xs = l1 ++ l2 ∧ Forall (λ q, q.2 < k) l1 ∧ Forall (λ q, k ≤ q.2) l2 ∧
    l ∉ dom (node_objs s) ∧ node_objs s !! (ends (head s) l1.*1) = Some np ∧ node_lock np = false ∧
    add fuel k v 1 s = Done true s' ∧ head s' = head s ∧ tail s' = tail s ∧ currentLevel s' = 1%nat ∧
    node_objs s' = <[ends (head s) l1.*1 := with_next np 0 (Some l)]>
                     (<[l := mkNode k v [Some (first_of (tail s) l2.*1)] false false]> (node_objs s)).
Proof.
  intros Hr Hk Hf Hout. destruct fuel as [|fuel]; [lia|].
  destruct (find_run s xs k (S fuel) (replicate MAX_LEVEL None) (replicate MAX_LEVEL None) Hr) as (l1 & l2 & -> & H1 & H2 & Hfind);
    [lia|done|].
  destruct (before_node _ _ _ Hr) as (np & Hp & _ & Hlock & Hnext).
  destruct (after_node _ _ _ Hr) as (nc & m & Hc & Hkey & _).
  pose proof Hr as [Hlev _ _ _ _ _ Hs]. pose proof (key_here l1 l2 k H1 H2 Hs Hk) as Hhere.
  set (p := ends (head s) l1.*1) in *. set (c := first_of (tail s) l2.*1) in *.
  set (l := fresh (dom (node_objs s))). assert (l ∉ dom (node_objs s)) as Hfresh by apply is_fresh.
  assert (l ≠ p) as Hlp by (intros ->; apply Hfresh; by apply elem_of_dom_2 in Hp).
  set (s1 := upd s l (mkNode k v [None] false false)).
  set (s2 := upd s1 l (with_next (mkNode k v [None] false false) 0 (Some c))).
  set (s3 := upd s2 p (with_lock np true)).
  set (s4 := upd s3 p (with_next (with_lock np true) 0 (Some l))).
  set (s5 := mkSkip (head s) (tail s) 1 (node_objs s4) : SkipList V).
  exists l1, l2, l, np, (upd s5 p (with_lock (with_next (with_lock np true) 0 (Some l)) false)).
  assert (0 < length (next np))%nat as Hlen by by eapply lookup_lt_Some.
  assert (node_objs s2 !! p = Some np) as Hp2 by (unfold s2, s1; by rewrite !upd_there).
  split_and!; try done.
  - unfold add. cbn [add_loop]. rewrite (bind_Done _ _ _ _ _ Hfind). cbn zeta beta iota.
    erewrite bind_Done by reflexivity. cbn [deref]. rewrite bind_ret, (bind_Done _ _ _ _ _ (node_at_run _ _ _ Hc)), Hkey.
    destruct (Z.eqb_spec (List.hd key_max l2.*2) k) as [Heq|_]; [by apply Hhere in Heq|]. cbn [andb].
    erewrite (bind_Done (new_node k v 1) _ s l s1) by reflexivity.
    erewrite (bind_Done _ _ s1 tt s2); [|apply for_one; exact (store_next_run s1 l _ 0 (Some c) (upd_here _ _ _) ltac:(cbn; lia))].
    erewrite (bind_Done _ _ s2 tt s3); [|apply for_one; exact (lock_run s2 p np Hp2 Hlock)].
    assert (validate (seq 0 1) (<[0%nat := Some p]> (replicate MAX_LEVEL None))
      (at_level (<[0%nat := Some c]> (replicate MAX_LEVEL None))) s3 = Done true s3) as Hval.
    { cbn [seq validate]. erewrite bind_Done by reflexivity. cbn [deref]. rewrite bind_ret.
      erewrite bind_Done; [|apply (next_at_run s3 p (with_lock np true) 0 (Some c)); [apply upd_here|exact Hnext]].
      erewrite bind_Done by reflexivity. by rewrite bool_decide_eq_true_2. }
    rewrite (bind_Done _ _ _ _ _ Hval). cbn [negb].
    erewrite (bind_Done _ _ s3 tt s4); [|apply for_one; exact (store_next_run s3 p (with_lock np true) 0 (Some l) (upd_here _ _ _) Hlen)].
    assert (modify (λ s, mkSkip (head s) (tail s) (Nat.max (currentLevel s) 1) (node_objs s)) s4 = Done tt s5) as Hmod.
    { unfold modify, s5. cbn. by rewrite Hlev. }
    rewrite (bind_Done _ _ _ _ _ Hmod).
    erewrite bind_Done; [|apply for_one; apply (unlock_run s5 p (with_next (with_lock np true) 0 (Some l))); apply (upd_here s3)].
    done.
  - cbn. rewrite !insert_insert_eq. destruct np; cbn in *. by subst.
Qed.
(** Everything but two nodes as it was. *)
Lemma nx_same (objs objs' : gmap loc (Node V)) y : objs' !! y = objs !! y → nx objs' y = nx objs y.
Proof. unfold nx. by intros ->. Qed.

Lemma nx_with_next (objs : gmap loc (Node V)) l n q :
  objs !! l = Some (with_next n 0 (Some q)) → (0 < length (next n))%nat → nx objs l = Some q.
Proof. intros H Hl. unfold nx. rewrite H. cbn. by rewrite list_lookup_insert_eq. Qed.

Lemma sorted_insert (A B : list Z) k :
  StronglySorted Z.lt (A ++ B) → Forall (λ x, x < k) A → Forall (λ x, k < x) B → StronglySorted Z.lt (A ++ k :: B).
Proof.
  intros (Hdis & HA & HB)%StronglySorted_app H1 H2. apply StronglySorted_app. split_and!; [|done|by constructor].
  intros x y Hx [->|Hy]%elem_of_cons; [|by apply Hdis]. rewrite Forall_forall in H1. by apply H1.
Qed.

Lemma sorted_delete (A B : list Z) k : StronglySorted Z.lt (A ++ k :: B) → StronglySorted Z.lt (A ++ B).
Proof.
  intros (Hdis & HA & HB)%StronglySorted_app. apply StronglySorted_inv in HB as [HB _]. apply StronglySorted_app.
  split_and!; [|done|done]. intros x y Hx Hy. apply Hdis; [done|by right].
Qed.

Lemma idle_with_next n kk m q : idle n kk m → idle (with_next n 0 q) kk m.
Proof. intros (H1 & H2 & H3 & H4). unfold idle, with_next. cbn. by rewrite length_insert. Qed.

Lemma rep_in s xs y : skip_rep s xs → y ∈ head s :: xs.*1 ++ [tail s] → is_Some (node_objs s !! y).
Proof.
  intros [_ _ _ Hh Ht Hn _] Hy. apply elem_of_cons in Hy as [->|[Hy|Hy]%elem_of_app].
  - destruct Hh as (n & ? & _). by exists n.
  - apply list_elem_of_fmap in Hy as ([z kz] & -> & Hz). destruct (Hn z kz Hz) as (n & ? & _). by exists n.
  - apply list_elem_of_singleton in Hy as ->. destruct Ht as (n & ? & _). by exists n.
Qed.

(** Turning a pointer of one node and touching one other keeps the rest idle. *)
Lemma idle_kept (objs objs' : gmap loc (Node V)) p x np q :
  objs !! p = Some np → objs' !! p = Some (with_next np 0 q) → (∀ y, y ≠ p → y ≠ x → objs' !! y = objs !! y) →
  ∀ y n kk m, y ≠ x → objs !! y = Some n → idle n kk m → ∃ n', objs' !! y = Some n' ∧ idle n' kk m.
Proof.
  intros Hp Hp' Hsame y n kk m Hyx Hy Hidle. destruct (decide (y = p)) as [->|Hyp].
  - eexists. split; [done|]. assert (n = np) as -> by congruence. by apply idle_with_next.
  - exists n. split; [|done]. by rewrite Hsame.
Qed.

(** The part before a place and the part after it have no node in common. *)
Lemma rep_apart s l1 l2 :
  skip_rep s (l1 ++ l2) →
  NoDup (head s :: l1.*1) ∧ (∀ y, y ∈ l2.*1 ++ [tail s] → y ≠ ends (head s) l1.*1) ∧
  path (node_objs s) (head s) l1.*1 (first_of (tail s) l2.*1) ∧ path (node_objs s) (ends (head s) l1.*1) l2.*1 (tail s).
Proof.
  intros [_ Hd Hp _ _ _ _]. rewrite fmap_app in Hp, Hd. apply path_app in Hp as [Hp1 Hp2].
  rewrite <- app_assoc in Hd. apply (NoDup_app (head s :: l1.*1)) in Hd as (Hd1 & Hdis & _). split_and!; try done.
  intros y Hy ->. by apply (Hdis (ends (head s) l1.*1)); [apply ends_in|].
Qed.

Lemma add_run s xs k v fuel :
  skip_rep s xs → k < key_max → (length xs < fuel)%nat → k ∉ xs.*2 →
  ∃ l1 l2 l s', xs = l1 ++ l2 ∧ add fuel k v 1 s = Done true s' ∧ skip_rep s' (l1 ++ (l, k) :: l2) ∧
    (dom (node_objs s) = nodes_of s xs → dom (node_objs s') = nodes_of s' (l1 ++ (l, k) :: l2)).
Proof.
  intros Hr Hk Hf Hout.
  destruct (add_effect s xs k v fuel Hr Hk Hf Hout)
    as (l1 & l2 & l & np & s' & -> & H1 & H2 & Hfresh & Hnp & Hlock & Hrun & Hh' & Ht' & Hlev' & Hobjs).
  exists l1, l2, l, s'. split_and!; [done|done| |].
  2: { intros Hdom. unfold nodes_of in *. rewrite Hobjs, !dom_insert_L, Hdom, Hh', Ht'. apply elem_of_dom_2 in Hnp.
       rewrite Hdom in Hnp. rewrite !fmap_app in *. cbn in *. rewrite !list_to_set_app_L in *. cbn in *. set_solver. }
  pose proof Hr as [Hlev Hd Hp Hh Ht Hn Hs].
  destruct (rep_apart _ _ _ Hr) as (Hd1 & Hd2 & Hp1 & Hp2). destruct (before_node _ _ _ Hr) as (n0 & Hn0 & _ & _ & Hx).
  set (p := ends (head s) l1.*1) in *. rewrite Hnp in Hn0. injection Hn0 as <-. apply lookup_lt_Some in Hx as Hlen.
  assert (∀ y, y ∈ head s :: (l1 ++ l2).*1 ++ [tail s] → y ≠ l) as Hnew.
  { intros y Hy ->. apply Hfresh, elem_of_dom. by eapply rep_in. }
  assert (p ≠ l) as Hpl by (intros Heq; apply Hfresh; rewrite <- Heq; by apply elem_of_dom_2 in Hnp).
  assert (∀ y, y ≠ p → y ≠ l → node_objs s' !! y = node_objs s !! y) as Hsame.
  { intros y Hyp Hyl. rewrite Hobjs. by rewrite !lookup_insert_ne. }
  assert (node_objs s' !! p = Some (with_next np 0 (Some l))) as Hp' by (rewrite Hobjs; apply lookup_insert_eq).
  pose proof (idle_kept _ _ p l np _ Hnp Hp' Hsame) as Hkeep.
  split; [done|..].
  - rewrite Hh', Ht', fmap_app. cbn. rewrite <- app_assoc. cbn.
    assert (NoDup ((head s :: l1.*1) ++ l :: (l2.*1 ++ [tail s]))) as Hd'; [|exact Hd'].
    rewrite <- Permutation_middle. apply NoDup_cons. cbn. rewrite app_assoc, <- fmap_app. split; [|done].
    intros Hin. by apply (Hnew l).
  - rewrite Hh', Ht', fmap_app. apply path_app. cbn [fmap list_fmap fst first_of path]. split.
    + eapply path_retarget; [exact Hd1| |by apply (nx_with_next _ _ np)|exact Hp1].
      intros y Hy Hyp. apply nx_same, Hsame; [done|]. apply Hnew. rewrite fmap_app. set_solver.
    + split; [by apply (nx_with_next _ _ np)|]. eapply path_restart; [| |exact Hp2].
      * intros y Hy. apply nx_same, Hsame; [apply Hd2; set_solver|]. apply Hnew. rewrite fmap_app. set_solver.
      * unfold nx. by rewrite Hobjs, lookup_insert_ne, lookup_insert_eq by done.
  - rewrite Hh'. destruct Hh as (n & Hy & Hidle). destruct (Hkeep (head s) _ _ _ ltac:(apply Hnew; by left) Hy Hidle) as (n' & Hy' & Hidle').
    exists n'. split; [done|]. pose proof Hidle' as (-> & _). done.
  - rewrite Ht'. destruct Ht as (n & Hy & Hidle). eapply Hkeep; [apply Hnew; set_solver|done|done].
  - assert (∀ y kk, (y, kk) ∈ l1 ++ l2 → ∃ n, node_objs s' !! y = Some n ∧ idle n kk 1) as Hold.
    { intros y kk Hin. destruct (Hn y kk Hin) as (n & Hy & Hidle). eapply Hkeep; [|done|done]. apply Hnew.
      right. apply elem_of_app. left. apply list_elem_of_fmap. by exists (y, kk). }
    intros y kk Hin. apply elem_of_app in Hin as [Hin|[Hin|Hin]%elem_of_cons]; [apply Hold; set_solver| |apply Hold; set_solver].
    injection Hin as -> ->. rewrite Hobjs, lookup_insert_ne, lookup_insert_eq by done. by eexists.
  - rewrite fmap_app in *. cbn. rewrite <- app_assoc in *. apply sorted_insert; [done|by apply Forall_fmap|].
    apply Forall_app. split; [|by constructor]. apply Forall_fmap. apply Forall_forall. intros [y ky] Hy. cbn.
    rewrite Forall_forall in H2. specialize (H2 _ Hy). cbn in H2. assert (ky ≠ k); [|lia]. intros ->. apply Hout.
    apply elem_of_app. right. apply list_elem_of_fmap. by exists (y, k).
Qed.
(** What is left of the nodes. *)
Lemma removed_nodes s s' l1 l2 x k :
  dom (node_objs s) = nodes_of s (l1 ++ (x, k) :: l2) → x ∉ head s :: (l1 ++ l2).*1 ++ [tail s] →
  head s' = head s → tail s' = tail s → node_objs s' !! x = None → is_Some (node_objs s' !! ends (head s) l1.*1) →
  (∀ y, y ≠ ends (head s) l1.*1 → y ≠ x → node_objs s' !! y = node_objs s !! y) →
  dom (node_objs s') = nodes_of s' (l1 ++ l2).
Proof.
  intros Hdom Hx Hh Ht Hgone Hp Hsame. assert (dom (node_objs s') = dom (node_objs s) ∖ {[x]}) as ->.
  - apply set_eq. intros y. rewrite elem_of_difference, elem_of_singleton.
    destruct (decide (y = x)) as [->|Hyx]; [rewrite elem_of_dom, Hgone; split; [by intros []|by intros []]|].
    destruct (decide (y = ends (head s) l1.*1)) as [->|Hyp]; [|rewrite !elem_of_dom, Hsame by done; tauto].
    rewrite elem_of_dom, Hdom. split; [|done]. intros _. split; [|done]. unfold nodes_of. apply elem_of_list_to_set.
    pose proof (ends_in l1.*1 (head s)) as Hin. rewrite fmap_app. set_solver.
  - unfold nodes_of in *. rewrite Hdom, Hh, Ht. rewrite !fmap_app in *. cbn in *. rewrite !list_to_set_app_L in *. cbn in *. set_solver.
Qed.

(** Marking the victim, under its lock. *)
Lemma victim_marked s x nv :
  node_objs s !! x = Some nv → marked nv = false → node_lock nv = false →
  (lock (Some x) ;;
   n ← node_at x;
   (if marked n then mret tt else write_node x (mkNode (key n) (value n) (next n) true (node_lock n))) ;;
   unlock (Some x) ;; mret (marked n)) s =
  Done false (upd (upd (upd s x (with_lock nv true)) x (with_mark (with_lock nv true))) x (with_lock (with_mark (with_lock nv true)) false)).
Proof.
  intros Hv Hm Hl. set (s1 := upd s x (with_lock nv true)). set (s2 := upd s1 x (with_mark (with_lock nv true))).
  rewrite (bind_Done _ _ _ _ _ (lock_run s x nv Hv Hl)), (bind_Done _ _ _ _ _ (node_at_run s1 x _ (upd_here _ _ _))).
  cbn [marked with_lock]. rewrite Hm. erewrite (bind_Done (write_node x _) _ s1 tt s2) by reflexivity.
  by rewrite (bind_Done _ _ _ _ _ (unlock_run s2 x _ (upd_here _ _ _))).
Qed.

(** The list without the victim: its predecessor [p] goes on to what comes after it. *)
Definition unlinked s p x np c : SkipList V :=
  let s4 := upd s p (with_lock np true) in
  let s5 := upd s4 p (with_next (with_lock np true) 0 (Some c)) in
  let s6 := mkSkip (head s) (tail s) (currentLevel s) (delete x (node_objs s5)) in
  upd s6 p (with_lock (with_next (with_lock np true) 0 (Some c)) false).

Lemma unlink_victim s p x np nv c (retry : M (SkipList V) bool) :
  let preds := <[0%nat := Some p]> (replicate MAX_LEVEL None) in
  node_objs s !! p = Some np → node_objs s !! x = Some nv → p ≠ x → node_lock np = false →
  next np !! 0%nat = Some (Some x) → next nv !! 0%nat = Some (Some c) →
  (for_each (seq 0 1) (λ level, p ← at_level preds level; lock p) ;;
   valid ← validate (seq 0 1) preds (λ _, mret (Some x));
   if negb valid then retry
   else
     for_each (rev (seq 0 1)) (λ level,
       p ← at_level preds level; l ← deref p;
       nxt ← next_at x level;
       store_next l level nxt) ;;
     delete_node x ;;
     for_each (seq 0 1) (λ level, p ← at_level preds level; unlock p) ;;
     mret true) s = Done true (unlinked s p x np c).
Proof.
  intros preds Hp Hx Hpx Hlock Hnext Hvn. unfold unlinked.
  set (s4 := upd s p (with_lock np true)). set (s5 := upd s4 p (with_next (with_lock np true) 0 (Some c))).
  set (s6 := mkSkip (head s) (tail s) (currentLevel s) (delete x (node_objs s5)) : SkipList V).
  assert (0 < length (next np))%nat as Hlnp by by eapply lookup_lt_Some.
  assert (node_objs s4 !! x = Some nv) as Hx4 by (unfold s4; by rewrite upd_there).
  assert (node_objs s5 !! x = Some nv) as Hx5 by (unfold s5; by rewrite upd_there).
  erewrite (bind_Done _ _ s tt s4); [|apply for_one; exact (lock_run s p np Hp Hlock)].
  assert (validate (seq 0 1) preds (λ _, mret (Some x)) s4 = Done true s4) as Hval.
  { cbn [seq validate]. erewrite bind_Done by reflexivity. cbn [deref]. rewrite bind_ret.
    erewrite bind_Done; [|apply (next_at_run s4 p (with_lock np true) 0 (Some x)); [apply upd_here|exact Hnext]].
    rewrite bind_ret. by rewrite bool_decide_eq_true_2. }
  rewrite (bind_Done _ _ _ _ _ Hval). cbn [negb rev seq app].
  erewrite (bind_Done _ _ s4 tt s5).
  2:{ cbn [for_each]. erewrite bind_Done; [reflexivity|]. erewrite bind_Done by reflexivity. cbn [deref]. rewrite bind_ret.
      erewrite bind_Done; [|apply (next_at_run s4 x _ 0 (Some c) Hx4); exact Hvn].
      exact (store_next_run s4 p (with_lock np true) 0 (Some c) (upd_here _ _ _) Hlnp). }
  assert (delete_node x s5 = Done tt s6) as Hdel.
  { unfold delete_node. by rewrite (bind_Done _ _ _ _ _ (node_at_run _ _ _ Hx5)). }
  rewrite (bind_Done _ _ _ _ _ Hdel).
  erewrite bind_Done; [|apply for_one; apply (unlock_run s6 p (with_next (with_lock np true) 0 (Some c)))]; [done|].
  cbn. rewrite lookup_delete_ne by done. apply lookup_insert_eq.
Qed.

(** Removing a key that is there. *)
Lemma remove_effect s xs k fuel :
  skip_rep s xs → k < key_max → (length xs < fuel)%nat → k ∈ xs.*2 →
  ∃ l1 x l2 np s', xs = l1 ++ (x, k) :: l2 ∧ node_objs s !! (ends (head s) l1.*1) = Some np ∧
    remove fuel k s = Done true s' ∧ head s' = head s ∧ tail s' = tail s ∧ currentLevel s' = 1%nat ∧
    node_objs s' !! (ends (head s) l1.*1) = Some (with_next np 0 (Some (first_of (tail s) l2.*1))) ∧
    node_objs s' !! x = None ∧ ∀ y, y ≠ ends (head s) l1.*1 → y ≠ x → node_objs s' !! y = node_objs s !! y.
Proof.
  intros Hr Hk Hf Hin. destruct fuel as [|fuel]; [lia|].
  destruct (find_run s xs k (S fuel) (replicate MAX_LEVEL None) (replicate MAX_LEVEL None) Hr) as (l1 & l2 & -> & H1 & H2 & Hfind);
    [lia|done|].
  destruct (before_node _ _ _ Hr) as (np & Hp & _ & Hlock & Hnext). pose proof Hr as [Hlev _ _ _ _ Hnodes Hs].
  apply (key_here l1 l2 k H1 H2 Hs Hk) in Hin.
  destruct l2 as [|[x kx] l2]; cbn in Hin; [lia|]. subst kx. cbn [first_of fmap list_fmap fst] in *.
  pose proof (rep_distinct _ _ _ _ _ _ Hr eq_refl) as Hpx. set (p := ends (head s) l1.*1) in *.
  destruct (Hnodes x k) as (nv & Hv & Hkey & Hm & Hvl & Hlen); [by apply elem_of_app; right; left|].
  assert (next nv !! 0%nat = Some (Some (first_of (tail s) l2.*1))) as Hvn.
  { apply (nx_next _ _ _ _ Hv). destruct (rep_apart s (l1 ++ [(x, k)]) l2) as (_ & _ & Hp2 & _); [by rewrite <- app_assoc|].
    rewrite fmap_app in Hp2. apply path_app in Hp2 as [_ [_ Hp2]]. by apply path_last in Hp2. }
  set (c := first_of (tail s) l2.*1) in *. set (marked_victim := with_lock (with_mark (with_lock nv true)) false).
  set (s3 := upd (upd (upd s x (with_lock nv true)) x (with_mark (with_lock nv true))) x marked_victim).
  assert (node_objs s3 !! p = Some np) as Hp3 by (unfold s3; by rewrite !upd_there).
  exists l1, x, l2, np, (unlinked s3 p x np c). split_and!; try done.
  - unfold remove. cbn [remove_loop]. rewrite (bind_Done _ _ _ _ _ Hfind). cbn zeta beta iota.
    erewrite bind_Done by reflexivity. cbn [deref]. rewrite bind_ret, (bind_Done _ _ _ _ _ (node_at_run _ _ _ Hv)), Hkey, Z.eqb_refl.
    cbn [negb]. rewrite (bind_Done _ _ _ _ _ (victim_marked s x nv Hv Hm Hvl)).
    rewrite (bind_Done _ _ _ _ _ (node_at_run s3 x _ (upd_here _ _ _))). cbn [next with_lock with_mark marked_victim]. rewrite Hlen. cbn zeta.
    by apply (unlink_victim s3 p x np marked_victim c); [|apply upd_here|..].
  - unfold unlinked. rewrite upd_here. destruct np; cbn in *. by subst.
  - unfold unlinked. rewrite upd_there by done. apply lookup_delete_eq.
  - intros y Hyp Hyx. unfold unlinked, s3. cbn. rewrite lookup_insert_ne, lookup_delete_ne by done.
    by rewrite !lookup_insert_ne.
Qed.
Lemma remove_run s xs k fuel :
  skip_rep s xs → k < key_max → (length xs < fuel)%nat → k ∈ xs.*2 →
  ∃ l1 x l2 s', xs = l1 ++ (x, k) :: l2 ∧ remove fuel k s = Done true s' ∧ skip_rep s' (l1 ++ l2) ∧
    (dom (node_objs s) = nodes_of s xs → dom (node_objs s') = nodes_of s' (l1 ++ l2)).
Proof.
  intros Hr Hk Hf Hin.
  destruct (remove_effect s xs k fuel Hr Hk Hf Hin)
    as (l1 & x & l2 & np & s' & -> & Hnp & Hrun & Hh' & Ht' & Hlev' & Hp' & Hgone & Hsame).
  exists l1, x, l2, s'. split; [done|]. split; [done|]. pose proof Hr as [Hlev Hd Hp Hh Ht Hn Hs].
  destruct (rep_apart _ _ _ Hr) as (Hd1 & Hd2 & Hp1 & Hp2). destruct (before_node _ _ _ Hr) as (n0 & Hn0 & _ & _ & Hx).
  destruct (rep_apart s (l1 ++ [(x, k)]) l2) as (_ & _ & _ & Hp3); [by rewrite <- app_assoc|].
  set (p := ends (head s) l1.*1) in *. rewrite Hnp in Hn0. injection Hn0 as <-. apply lookup_lt_Some in Hx as Hlen.
  pose proof (idle_kept _ _ p x np _ Hnp Hp' Hsame) as Hkeep.
  assert (NoDup (head s :: (l1 ++ l2).*1 ++ [tail s]) ∧ x ∉ head s :: (l1 ++ l2).*1 ++ [tail s]) as [Hd' Hnx].
  { assert (head s :: (l1 ++ (x, k) :: l2).*1 ++ [tail s] ≡ₚ x :: head s :: (l1 ++ l2).*1 ++ [tail s]) as Hperm.
    { rewrite fmap_app. cbn. rewrite <- app_assoc. cbn.
      rewrite fmap_app, <- app_assoc. change (head s :: l1.*1 ++ x :: l2.*1 ++ [tail s]) with ((head s :: l1.*1) ++ x :: (l2.*1 ++ [tail s])).
      by rewrite <- Permutation_middle. }
    rewrite Hperm in Hd. by apply NoDup_cons in Hd as [??]. }
  assert (∀ y, y ∈ head s :: (l1 ++ l2).*1 ++ [tail s] → y ≠ x) as Hnew by (intros y Hy ->; done).
  split.
  2: { intros Hdom. by apply (removed_nodes s s' l1 l2 x k). }
  split; [done|by rewrite Hh', Ht'|..].
  - rewrite Hh', Ht', fmap_app. apply path_app. split.
    + eapply path_retarget; [exact Hd1| |by apply (nx_with_next _ _ np)|exact Hp1].
      intros y Hy Hyp. apply nx_same, Hsame; [done|]. apply Hnew. rewrite fmap_app. set_solver.
    + eapply path_restart; [|by apply (nx_with_next _ _ np)|exact Hp3].
      intros y Hy. apply nx_same, Hsame; [apply Hd2; set_solver|]. apply Hnew. rewrite fmap_app. set_solver.
  - rewrite Hh'. destruct Hh as (n & Hy & Hidle).
    destruct (Hkeep (head s) _ _ _ ltac:(apply Hnew; by left) Hy Hidle) as (n' & Hy' & Hidle').
    exists n'. split; [done|]. pose proof Hidle' as (-> & _). done.
  - rewrite Ht'. destruct Ht as (n & Hy & Hidle). eapply Hkeep; [apply Hnew; set_solver|done|done].
  - intros y kk Hin'. destruct (Hn y kk) as (n & Hy & Hidle); [set_solver|]. eapply Hkeep; [|done|done]. apply Hnew.
    right. apply elem_of_app. left. apply list_elem_of_fmap. by exists (y, kk).
  - rewrite fmap_app in *. cbn in Hs. rewrite <- app_assoc in *. by eapply sorted_delete.
Qed.

(** Keys that are not there cannot be removed, and those that are not added again. *)
Lemma skip_remove_absent s xs k fuel :
  skip_rep s xs → k < key_max → (length xs < fuel)%nat → k ∉ xs.*2 → remove fuel k s = Done false s.
Proof.
  intros Hr Hk Hf Hout. destruct fuel as [|fuel]; [lia|].
  destruct (find_run s xs k (S fuel) (replicate MAX_LEVEL None) (replicate MAX_LEVEL None) Hr) as (l1 & l2 & -> & H1 & H2 & Hfind);
    [lia|done|].
  destruct (after_node _ _ _ Hr) as (nc & m & Hc & Hkey & _). pose proof Hr as [_ _ _ _ _ _ Hs].
  pose proof (key_here l1 l2 k H1 H2 Hs Hk) as Hhere.
  unfold remove. cbn [remove_loop]. rewrite (bind_Done _ _ _ _ _ Hfind). cbn zeta beta iota.
  erewrite bind_Done by reflexivity. cbn [deref]. rewrite bind_ret, (bind_Done _ _ _ _ _ (node_at_run _ _ _ Hc)), Hkey.
  destruct (Z.eqb_spec (List.hd key_max l2.*2) k) as [Heq|_]; [by apply Hhere in Heq|done].
Qed.

Lemma add_present s xs k v topLevel fuel :
  skip_rep s xs → k < key_max → (length xs < fuel)%nat → k ∈ xs.*2 → add fuel k v topLevel s = Done false s.
Proof.
  intros Hr Hk Hf Hin. destruct fuel as [|fuel]; [lia|].
  destruct (find_run s xs k (S fuel) (replicate MAX_LEVEL None) (replicate MAX_LEVEL None) Hr) as (l1 & l2 & -> & H1 & H2 & Hfind);
    [lia|done|].
  destruct (after_node _ _ _ Hr) as (nc & m & Hc & Hkey & Hm & _). pose proof Hr as [_ _ _ _ _ _ Hs].
  apply (key_here l1 l2 k H1 H2 Hs Hk) in Hin.
  unfold add. cbn [add_loop]. rewrite (bind_Done _ _ _ _ _ Hfind). cbn zeta beta iota.
  erewrite bind_Done by reflexivity. cbn [deref].
  by rewrite bind_ret, (bind_Done _ _ _ _ _ (node_at_run _ _ _ Hc)), Hkey, Hm, Hin, Z.eqb_refl.
Qed.

(** ** The skip list as a set of keys *)
Inductive skip_call := CallAdd (k : Z) (v : V) (topLevel : nat) | CallRemove (k : Z) | CallContains (k : Z).

Definition skip_do (fuel : nat) (c : skip_call) : M (SkipList V) bool :=
  match c with
  | CallAdd k v topLevel => add fuel k v topLevel
  | CallRemove k => remove fuel k
  | CallContains k => contains fuel k
  end.

Definition keys_do (c : skip_call) (ks : gset Z) : bool * gset Z :=
  match c with
  | CallAdd k _ _ => (bool_decide (k ∉ ks), {[k]} ∪ ks)
  | CallRemove k => (bool_decide (k ∈ ks), ks ∖ {[k]})
  | CallContains k => (bool_decide (k ∈ ks), ks)
  end.

(** Keys below the greatest of their type; level 1 for the new ones. *)
Definition call_ok (c : skip_call) (ks : gset Z) : Prop :=
  match c with
  | CallAdd k _ topLevel => k < key_max ∧ (k ∈ ks ∨ topLevel = 1%nat)
  | CallRemove k | CallContains k => k < key_max
  end.

Definition skip_keys s (ks : gset Z) : Prop := 
  ∃ xs, skip_rep s xs ∧ dom (node_objs s) = nodes_of s xs ∧ ks = list_to_set xs.*2.

Lemma skip_keys_size s xs (ks : gset Z) : skip_rep s xs → ks = list_to_set xs.*2 → size ks = length xs.
Proof.
  intros [_ _ _ _ _ _ Hs] ->. rewrite size_list_to_set, length_fmap; [done|].
  apply StronglySorted_app in Hs as (_ & Hs & _). clear -Hs. induction Hs as [|x l Hs IH Hall]; constructor; [|done].
  intros Hin. rewrite Forall_forall in Hall. specialize (Hall _ Hin). lia.
Qed.

Lemma skip_step s ks c fuel :
  skip_keys s ks → call_ok c ks → (size ks < fuel)%nat →
  ∃ s', skip_do fuel c s = Done (keys_do c ks).1 s' ∧ skip_keys s' (keys_do c ks).2.
Proof.
  intros (xs & Hr & Hdom & Hks) Hok Hf. rewrite (skip_keys_size _ _ _ Hr Hks) in Hf.
  assert (∀ k, k ∈ ks ↔ k ∈ xs.*2) as Hin by (intros k; by rewrite Hks, elem_of_list_to_set).
  destruct c as [k v topLevel|k|k]; cbn [skip_do keys_do call_ok fst snd] in *.
  - destruct Hok as [Hk Hlev]. destruct (decide (k ∈ ks)) as [Hks'|Hks'].
    + exists s. rewrite bool_decide_eq_false_2 by (intros ?; done). split; [apply (add_present s xs); [done..|by apply Hin]|].
      exists xs. split_and!; [done|done|]. set_solver.
    + destruct Hlev as [?| ->]; [done|].
      destruct (add_run s xs k v fuel Hr Hk Hf) as (l1 & l2 & l & s' & -> & Hrun & Hr' & Hd'); [by rewrite <- Hin|].
      exists s'. rewrite bool_decide_eq_true_2 by done. split; [done|]. eexists. split; [exact Hr'|].
      split; [by apply Hd'|]. rewrite Hks, !fmap_app. cbn. set_solver.
  - destruct (decide (k ∈ ks)) as [Hks'|Hks'].
    + destruct (remove_run s xs k fuel Hr Hok Hf) as (l1 & x & l2 & s' & -> & Hrun & Hr' & Hd'); [by apply Hin|].
      exists s'. rewrite bool_decide_eq_true_2 by done. split; [done|]. eexists. split; [exact Hr'|].
      split; [by apply Hd'|]. destruct Hr as [_ _ _ _ _ _ Hs]. rewrite Hks. rewrite !fmap_app in *. cbn in *. rewrite <- app_assoc in Hs. cbn in Hs.
      apply StronglySorted_app in Hs as (Hdis & _ & Hs). apply StronglySorted_inv in Hs as [_ Hall].
      rewrite Forall_forall in Hall. assert (k ∉ l1.*2 ∧ k ∉ l2.*2); [|set_solver]. split; intros Hi.
      * assert (k < k); [|lia]. apply Hdis; [done|by left].
      * assert (k < k); [|lia]. apply Hall. apply elem_of_app. by left.
    + exists s. rewrite bool_decide_eq_false_2 by done. split; [apply (skip_remove_absent s xs); [done..|by rewrite <- Hin]|].
      exists xs. split_and!; [done|done|]. set_solver.
  - exists s. rewrite (contains_run s xs) by done. split; [|by exists xs]. f_equal. by apply bool_decide_ext.
Qed.

Fixpoint skip_run (fuel : nat) (cs : list skip_call) : M (SkipList V) (list bool) :=
  match cs with
  | [] => mret []
  | c :: cs' => b ← skip_do fuel c; bs ← skip_run fuel cs'; mret (b :: bs)
  end.

Fixpoint keys_run (cs : list skip_call) (ks : gset Z) : list bool * gset Z :=
  match cs with
  | [] => ([], ks)
  | c :: cs' => let (b, ks1) := keys_do c ks in let (bs, ks2) := keys_run cs' ks1 in (b :: bs, ks2)
  end.

Fixpoint calls_ok (cs : list skip_call) (ks : gset Z) : Prop :=
  match cs with
  | [] => True
  | c :: cs' => call_ok c ks ∧ calls_ok cs' (keys_do c ks).2
  end.

Lemma keys_do_size c ks : (size (keys_do c ks).2 ≤ S (size ks))%nat.
Proof.
  destruct c as [k v t|k|k]; cbn [keys_do snd]; [|transitivity (size ks); [apply subseteq_size; set_solver|lia]|lia].
  destruct (decide (k ∈ ks)); [rewrite (subseteq_union_1_L {[k]} ks) by set_solver; lia|].
  rewrite size_union by set_solver. rewrite size_singleton. lia.
Qed.
(** The empty list. *)
Lemma skip_new_keys h t (v : V) : h ≠ t → skip_keys (skip_new key_min key_max h t v) ∅.
Proof.
  intros Hne. exists []. split; [|split; [cbn; rewrite !dom_insert_L; set_solver|done]]. split; cbn; try done.
  - apply NoDup_cons. split; [|apply NoDup_singleton]. by intros ?%list_elem_of_singleton.
  - unfold nx. by rewrite lookup_insert_eq.
  - rewrite lookup_insert_eq. by eexists.
  - rewrite lookup_insert_ne, lookup_insert_eq by done. by eexists.
  - intros x k Hin. by apply elem_of_nil in Hin.
  - by repeat constructor.
Qed.

(** *** The destructor *)
Definition without_nodes s (xs : list loc) : SkipList V :=
  mkSkip (head s) (tail s) (currentLevel s) (foldl (λ objs x, delete x objs) (node_objs s) xs).

Lemma without_lookup (xs : list loc) : ∀ (objs : gmap loc (Node V)) y,
  foldl (λ objs x, delete x objs) objs xs !! y = if decide (y ∈ xs) then None else objs !! y.
Proof.
  induction xs as [|x xs IH]; intros objs y; cbn [foldl]; [by rewrite decide_False by set_solver|].
  rewrite IH. destruct (decide (y ∈ xs)); [by rewrite decide_True by set_solver|].
  destruct (decide (y = x)) as [->|]; [by rewrite lookup_delete_eq, decide_True by set_solver|].
  by rewrite lookup_delete_ne, decide_False by set_solver.
Qed.

Lemma delete_node_run s l n : node_objs s !! l = Some n → delete_node l s = Done tt (without_nodes s [l]).
Proof. intros Hl. unfold delete_node. by rewrite (bind_Done _ _ _ _ _ (node_at_run _ _ _ Hl)). Qed.

Lemma delete_nodes_run (ls : list loc) : ∀ s fuel,
  NoDup (ls ++ [tail s]) → match ls with [] => True | x :: ls' => path (node_objs s) x ls' (tail s) end →
  (∀ x, x ∈ ls → is_Some (node_objs s !! x)) → (length ls < fuel)%nat →
  delete_nodes fuel (Some (first_of (tail s) ls)) s = Done tt (without_nodes s ls).
Proof.
  induction ls as [|x ls IH]; intros s [|fuel] Hd Hp Hin Hf; cbn [length] in Hf; try lia; cbn [delete_nodes first_of]; rewrite bind_get.
  { rewrite decide_True by done. by destruct s. }
  cbn [app] in Hd. apply NoDup_cons in Hd as [Hx Hd]. rewrite decide_False by set_solver.
  destruct (Hin x) as [n Hn]; [by left|]. pose proof (nx_next _ _ _ _ Hn (path_first _ _ _ _ Hp)) as Hnext.
  rewrite (bind_Done _ _ _ _ _ (next_at_run _ _ _ _ _ Hn Hnext)), (bind_Done _ _ _ _ _ (delete_node_run _ _ _ Hn)).
  assert (∀ y, y ∈ ls → delete x (node_objs s) !! y = node_objs s !! y) as Hsame.
  { intros y Hy. apply lookup_delete_ne. intros ->. set_solver. }
  apply (IH (without_nodes s [x])); [done| | |lia].
  - destruct ls as [|y ls]; [done|]. destruct Hp as [_ Hp]. eapply path_mono; [|exact Hp]. intros z Hz. by apply nx_same, Hsame.
  - intros y Hy. cbn. rewrite Hsame by done. apply Hin. by right.
Qed.

Lemma skip_delete_run s ks fuel :
  skip_keys s ks → (size ks < fuel)%nat → ∃ s', skip_delete fuel s = Done tt s' ∧ node_objs s' = ∅.
Proof.
  intros (xs & Hr & Hdom & Hks) Hf. rewrite (skip_keys_size _ _ _ Hr Hks) in Hf. pose proof Hr as [_ Hd Hp Hh Ht Hn _].
  apply NoDup_cons in Hd as [Hh' Hd]. destruct Hh as (nh & Hnh & _), Ht as (nt & Hnt & _).
  set (s1 := without_nodes s xs.*1).
  assert (delete_nodes fuel (Some (first_of (tail s) xs.*1)) s = Done tt s1) as Hrun.
  { apply delete_nodes_run; [done| | |by rewrite length_fmap].
    - destruct xs.*1 as [|x ls]; [done|]. apply Hp.
    - intros x Hx. apply (rep_in s xs); [done|]. set_solver. }
  assert (node_objs s1 !! tail s = Some nt) as Ht1.
  { unfold s1. cbn. rewrite without_lookup, decide_False; [done|]. apply NoDup_app in Hd as (_ & Hdis & _). intros Hin. apply (Hdis _ Hin). by left. }
  set (s2 := without_nodes s1 [tail s]).
  assert (node_objs s2 !! head s = Some nh) as Hh2.
  { cbn. rewrite lookup_delete_ne, without_lookup, decide_False by set_solver. done. }
  exists (without_nodes s2 [head s]). split.
  - unfold skip_delete. rewrite bind_get. pose proof (nx_next _ _ _ _ Hnh (path_first _ _ _ _ Hp)) as Hnext.
    rewrite (bind_Done _ _ _ _ _ (next_at_run _ _ _ _ _ Hnh Hnext)), (bind_Done _ _ _ _ _ Hrun).
    rewrite (bind_Done _ _ _ _ _ (delete_node_run _ _ _ Ht1)). exact (delete_node_run s2 (head s) nh Hh2).
  - apply map_empty. intros y. cbn. destruct (decide (y = head s)) as [->|Hyh]; [apply lookup_delete_eq|].
    rewrite lookup_delete_ne by done. destruct (decide (y = tail s)) as [->|Hyt]; [apply lookup_delete_eq|].
    rewrite lookup_delete_ne, without_lookup by done. destruct (decide (y ∈ xs.*1)); [done|].
    apply not_elem_of_dom. rewrite Hdom. unfold nodes_of. rewrite elem_of_list_to_set. set_solver.
Qed.

(** C22: as long as every new node is drawn level 1 and all keys are below the greatest of
    their type ([greatest_key_found]), every sequence of add, remove and contains of one
    thread answers as the same calls on a finite set of keys; every loop ends, with fuel
    for the keys there may be.  The destructor then frees every node, each once. *)
Theorem skiplist_refines_set cs s ks fuel :
  skip_keys s ks → calls_ok cs ks → (size ks + length cs < fuel)%nat →
  ∃ s' s'', skip_run fuel cs s = Done (keys_run cs ks).1 s' ∧ skip_keys s' (keys_run cs ks).2 ∧
    skip_delete fuel s' = Done tt s'' ∧ node_objs s'' = ∅.
Proof.
  revert s ks. induction cs as [|c cs IH]; intros s ks Hs Hok Hf; cbn in *.
  { destruct (skip_delete_run s ks fuel Hs) as (s' & Hdel & Hnone); [lia|]. by exists s, s'. }
  destruct Hok as [Hc Hok]. destruct (skip_step s ks c fuel Hs Hc) as (s1 & Hrun & Hs1); [lia|].
  pose proof (keys_do_size c ks). destruct (IH s1 (keys_do c ks).2 Hs1 Hok) as (s2 & s3 & Hrun2 & Hs2 & Hdel); [lia|].
  exists s2, s3. rewrite (bind_Done _ _ _ _ _ Hrun), (bind_Done _ _ _ _ _ Hrun2).
  destruct (keys_do c ks) as [b ks1]. cbn in *. by destruct (keys_run cs ks1).
Qed.

(** *** The level of a new node *)
Lemma draw_level_run draws fuel : ∀ gen lvl, (lvl ≤ MAX_LEVEL < lvl + fuel)%nat →
  ∃ lvl', draw_level fuel draws gen lvl = Some (lvl', gen + S (lvl' - lvl))%nat ∧ (lvl ≤ lvl' ≤ MAX_LEVEL)%nat ∧
    (∀ i, (i < lvl' - lvl)%nat → draws (gen + i)%nat = true) ∧ ((lvl' < MAX_LEVEL)%nat → draws (gen + (lvl' - lvl))%nat = false).
Proof.
  induction fuel as [|fuel IH]; intros gen lvl Hlvl; [lia|]. cbn [draw_level].
  destruct (draws gen) eqn:Hdraw; cbn [andb]; [destruct (Nat.ltb_spec lvl MAX_LEVEL)|].
  - destruct (IH (S gen) (S lvl)) as (lvl' & -> & Hle & Htrue & Hfalse); [lia|]. exists lvl'. split_and!; [do 2 f_equal; lia|lia|lia| |].
    + intros [|i] Hi; [by rewrite Nat.add_0_r|]. rewrite <- Nat.add_succ_comm. apply Htrue. lia.
    + intros Hlt. replace (gen + (lvl' - lvl))%nat with (S gen + (lvl' - S lvl))%nat by lia. by apply Hfalse.
  - exists lvl. split_and!; [do 2 f_equal; lia|lia|lia| |]; intros; lia.
  - exists lvl. split_and!; [do 2 f_equal; lia|lia|lia|intros; lia|]. by rewrite Nat.sub_diag, Nat.add_0_r.
Qed.

(** [randomLevel] draws at most 16 numbers and counts those below [PROBABILITY]. *)
Lemma randomLevel_run draws gen :
  ∃ lvl, randomLevel draws gen = Some (lvl, gen + lvl)%nat ∧ (1 ≤ lvl ≤ MAX_LEVEL)%nat ∧
    (∀ i, (i < lvl - 1)%nat → draws (gen + i)%nat = true) ∧ ((lvl < MAX_LEVEL)%nat → draws (gen + (lvl - 1))%nat = false).
Proof.
  destruct (draw_level_run draws MAX_LEVEL gen 1) as (lvl & Hrun & H); [unfold MAX_LEVEL; lia|].
  exists lvl. split; [|done]. unfold randomLevel. rewrite Hrun. do 2 f_equal. lia.
Qed.

(** A new node of level 2 or more - every second one - is linked through the null
    pointers that [find] leaves above the current level. *)
Lemma store_new_levels s l n succs levels :
  node_objs s !! l = Some n → (∀ i, i ∈ levels → i < length (next n) ∧ i < length succs)%nat →
  ∃ s', for_each levels (λ level, p ← at_level succs level; store_next l level p) s = Done tt s' ∧
    ∀ y, y ≠ l → node_objs s' !! y = node_objs s !! y.
Proof.
  revert s n. induction levels as [|i levels IH]; intros s n Hn Hlev; [by exists s|].
  destruct (Hlev i) as [Hi His]; [by left|]. cbn [for_each].
  destruct (lookup_lt_is_Some_2 succs i His) as [p Hp].
  assert (at_level succs i s = Done p s) as Hat by (unfold at_level; by rewrite Hp).
  destruct (IH (upd s l (with_next n i p)) (with_next n i p)) as (s' & Hrun & Hsame).
  - apply upd_here.
  - intros j Hj. cbn. rewrite length_insert. apply Hlev. by right.
  - exists s'. rewrite bind_assoc, (bind_Done _ _ _ _ _ Hat), (bind_Done _ _ _ _ _ (store_next_run s l n i p Hn Hi)).
    split; [done|]. intros y Hy. by rewrite Hsame, upd_there.
Qed.

Lemma tall_node_crashes s xs k v topLevel fuel :
  skip_rep s xs → k < key_max → (length xs < fuel)%nat → k ∉ xs.*2 → (2 ≤ topLevel ≤ MAX_LEVEL)%nat →
  add fuel k v topLevel s = Undef.
Proof.
  intros Hr Hk Hf Hout Htop. destruct fuel as [|fuel]; [lia|].
  destruct (find_run s xs k (S fuel) (replicate MAX_LEVEL None) (replicate MAX_LEVEL None) Hr) as (l1 & l2 & -> & H1 & H2 & Hfind);
    [lia|done|].
  destruct (before_node _ _ _ Hr) as (np & Hp & _ & Hlock & _). destruct (after_node _ _ _ Hr) as (nc & m & Hc & Hkey & _).
  pose proof Hr as [_ _ _ _ _ _ Hs]. pose proof (key_here l1 l2 k H1 H2 Hs Hk) as Hhere.
  set (p := ends (head s) l1.*1) in *. set (c := first_of (tail s) l2.*1) in *.
  set (l := fresh (dom (node_objs s))). assert (l ∉ dom (node_objs s)) as Hfresh by apply is_fresh.
  assert (p ≠ l) as Hpl by (intros Heq; apply Hfresh; rewrite <- Heq; by apply elem_of_dom_2 in Hp).
  set (s1 := upd s l (mkNode k v (replicate topLevel None) false false)).
  destruct (store_new_levels s1 l _ (<[0%nat := Some c]> (replicate MAX_LEVEL None)) (seq 0 topLevel) (upd_here _ _ _))
    as (s2 & Hrun & Hsame).
  { intros i Hi%elem_of_seq. cbn [next]. rewrite length_insert, !length_replicate. unfold MAX_LEVEL in *. lia. }
  unfold add. cbn [add_loop]. rewrite (bind_Done _ _ _ _ _ Hfind). cbn zeta beta iota.
  erewrite bind_Done by reflexivity. cbn [deref]. rewrite bind_ret, (bind_Done _ _ _ _ _ (node_at_run _ _ _ Hc)), Hkey.
  destruct (Z.eqb_spec (List.hd key_max l2.*2) k) as [Heq|_]; [by apply Hhere in Heq|]. cbn [andb].
  erewrite (bind_Done (new_node k v topLevel) _ s l s1) by reflexivity. rewrite (bind_Done _ _ _ _ _ Hrun).
  unfold mbind at 1. unfold M_bind at 1.
  assert (for_each (seq 0 topLevel) (λ level, q ← at_level (<[0%nat := Some p]> (replicate MAX_LEVEL None)) level; lock q) s2 = Undef)
    as Hcrash; [|by rewrite Hcrash].
  destruct topLevel as [|[|top]]; [lia|lia|]. cbn [seq for_each].
  assert (node_objs s2 !! p = Some np) as Hp2 by (rewrite Hsame by done; unfold s1; by rewrite upd_there).
  erewrite bind_Done; [|erewrite bind_Done by reflexivity; exact (lock_run s2 p np Hp2 Hlock)]. reflexivity.
Qed.

(** With the level [randomLevel] draws: a new key is added when the first number is not below
    [PROBABILITY], and otherwise [add] follows a null pointer. *)
Lemma drawn_node s xs k v draws gen fuel :
  skip_rep s xs → k < key_max → (length xs < fuel)%nat → k ∉ xs.*2 →
  ∃ lvl, randomLevel draws gen = Some (lvl, gen + lvl)%nat ∧
    if draws gen then add fuel k v lvl s = Undef
    else ∃ l1 l2 l s', xs = l1 ++ l2 ∧ add fuel k v lvl s = Done true s' ∧ skip_rep s' (l1 ++ (l, k) :: l2).
Proof.
  intros Hr Hk Hf Hout. destruct (randomLevel_run draws gen) as (lvl & Hrun & Hle & Htrue & Hfalse). exists lvl. split; [done|].
  destruct (decide (lvl = 1%nat)) as [->|Hne].
  - replace (draws gen) with false by (rewrite <- (Nat.add_0_r gen); symmetry; apply Hfalse; unfold MAX_LEVEL; lia).
    destruct (add_run s xs k v fuel Hr Hk Hf Hout) as (l1 & l2 & l & s' & ? & ? & ? & _). by exists l1, l2, l, s'.
  - replace (draws gen) with true by (rewrite <- (Nat.add_0_r gen); symmetry; apply Htrue; lia).
    apply (tall_node_crashes s xs); [done..|lia].
Qed.

(** The key of the tail counts as a member without having been added. *)
Lemma greatest_key_found s xs fuel :
  skip_rep s xs → (length xs < fuel)%nat → contains fuel key_max s = Done true s.
Proof.
  intros Hr Hf. pose proof Hr as [Hlev Hd Hp Hh Ht Hn Hs].
  destruct (contains_level_run s xs (head s) key_max fuel Hp Hn Ht) as (l1 & l2 & -> & H1 & H2 & Hrun); try (done || lia).
  { destruct Hh as (n & Hn' & _). by exists n. }
  assert (l2 = []) as ->.
  { destruct l2 as [|[x kx] l2]; [done|]. exfalso. apply Forall_cons in H2 as [Hx _]. cbn in Hx.
    rewrite fmap_app in Hs. apply StronglySorted_app in Hs as (Hdis & _). assert (kx < key_max); [|lia].
    apply Hdis; [apply elem_of_app; right; by left|by left]. }
  destruct (before_node _ _ _ Hr) as (n & Hn' & _ & _ & H0). destruct Ht as (nt & Hnt & Hkey & Hm & _).
  unfold contains. rewrite bind_get, Hlev. cbn [contains_levels]. rewrite bind_assoc, (bind_Done _ _ _ _ _ Hrun), bind_ret.
  rewrite (bind_Done _ _ _ _ _ (next_at_run _ _ _ _ _ Hn' H0)). cbn [first_of fmap list_fmap].
  by rewrite (bind_Done _ _ _ _ _ (node_at_run _ _ _ Hnt)), Hkey, Hm, Z.eqb_refl.
Qed.
End Rep.

(** ** Three keys, one of them removed *)
Definition three_keys : list (skip_call (V := Z)) :=
  [CallAdd 5 50 1; CallAdd 3 30 1; CallAdd 5 51 7; CallContains 3; CallRemove 5; CallContains 5; CallRemove 5].

Lemma skiplist_refines_set_witness :
  ∃ s' s'', skip_run 8 three_keys (skip_new (- 2 ^ 31) (2 ^ 31 - 1) 1%positive 2%positive 0) =
      Done [true; true; false; true; true; false; false] s' ∧
    skip_keys (2 ^ 31 - 1) s' (keys_run three_keys ∅).2 ∧ skip_delete 8 s' = Done tt s'' ∧ node_objs s'' = ∅.
Proof.
  destruct (skiplist_refines_set (2 ^ 31 - 1) three_keys (skip_new (- 2 ^ 31) (2 ^ 31 - 1) 1%positive 2%positive 0) ∅ 8)
    as (s' & s'' & Hrun & Hs).
  - by apply skip_new_keys.
  - cbn. split_and!; try lia; set_solver.
  - cbn. rewrite size_empty. lia.
  - exists s', s''. split; [rewrite Hrun; vm_compute; reflexivity|exact Hs].
Defined.
