(* ===== verification/ThreadPool.v ===== *)
(** The thread pool of src/dsa/thread_pool.hpp as a step relation over its threads.

    A step is one critical section of one thread, or the part of a thread's work between
    two of them.  [condition_.wait(lock, pred)] is modelled with its notifications: a
    thread that finds its predicate false keeps the mutex (state [Blocking]) until it is
    put to sleep, which releases the mutex ([Asleep]); it goes on only when a
    [notify_all] or [notify_one] of another thread wakes it, or by a spurious wake-up, and
    then takes the mutex and looks at its predicate again.  A notification that finds
    nobody asleep is lost.  Stores to [active_workers_] and notifications take no mutex,
    so they may fall between another thread's look at its predicate and its sleep.

    As written the file is not accepted by a compiler - [std::deque] has no [pop] and
    [std::condition_variable] does not wait on a [lock_guard]; the model reads them as
    [pop_front] and as a lock that can be waited on.  Any number of calls may run at once,
    also two that join the same thread; thread creation that fails half-way is left out. *)

From S2P Require Import Prelude.

(** The task made of a call [enqueue(f, args)], named by a number. *)
Abbreviation task := nat.

(** Who holds the mutex: a worker of the pool or the thread of a call. *)
Inductive thread_id := Worker (i : nat) | Caller (j : nat).

(** What the threads share. *)
Record shared := mkShared {
  tasks_ : list task;
  active_workers_ : Z;
  stop : bool;
  mutex_ : option thread_id;
}.

(** Where a worker is. *)
Inductive worker_pc :=
  | AtWait              (* before the mutex of its wait: started, back in its loop or woken *)
  | Blocking            (* found the predicate false, still has the mutex *)
  | Asleep              (* in condition_.wait, the mutex released *)
  | Running (t : task)  (* has taken t *)
  | Executed (t : task) (* has executed it *)
  | Notifying           (* not active any more, about to notify *)
  | Exited.

#[export] Instance worker_pc_eq_dec : EqDecision worker_pc.
Proof. solve_decision. Defined.

(** Where a call of the pool is. *)
Inductive call_pc :=
  | Enqueue (t : task)          (* called, the mutex not taken yet *)
  | EnqueueBlocking (t : task)  (* found the predicate of its wait false, has the mutex *)
  | EnqueueAsleep (t : task)    (* in condition_.wait *)
  | EnqueueWoken (t : task)     (* woken, before the mutex *)
  | EnqueueNotify (t : task)    (* out of the locked block, about to notify one *)
  | EnqueueReturned (t : task)  (* has returned the future of its task *)
  | EnqueueThrew                (* the pool was stopped *)
  | Shutdown                    (* called *)
  | ShutdownNotify              (* has set stop, about to notify *)
  | ShutdownJoining             (* joining the workers *)
  | WaitForTasks                (* wait_for_tasks, before the mutex: called or woken *)
  | WaitBlocking                (* found its predicate false, has the mutex *)
  | WaitAsleep                  (* in condition_.wait *)
  | Destroy                     (* the destructor, called *)
  | DestroyNotify
  | DestroyJoining
  | Returned.

(** What a step does to the threads that sleep in [condition_]. *)
Inductive notification := NoNotify | NotifyOne | NotifyAll.

Record ThreadPool := mkThreads {
  sh : shared;
  workers : list worker_pc;
  calls : list call_pc;
  executed : list task;         (* the tasks that have been executed *)
}.

(** The constructor: every thread starts in [worker]. *)
Definition pool_new (num_threads : nat) (cs : list call_pc) : exn + ThreadPool :=
  if bool_decide (num_threads = 0%nat) then inl (invalid_argument "Thread pool size must be positive")
  else inr (mkThreads (mkShared [] 0 false None) (replicate num_threads AtWait) cs []).

(** [!tasks_.empty() || stop.load()] and the predicate of [wait_for_tasks]. *)
Definition work_or_stop (s : shared) : bool := negb (bool_decide (tasks_ s = [])) || stop s.
Definition tasks_done (s : shared) : bool := bool_decide (tasks_ s = []) && (active_workers_ s =? 0).

Definition set_mutex (o : option thread_id) (s : shared) : shared :=
  mkShared (tasks_ s) (active_workers_ s) (stop s) o.
Definition set_stop (s : shared) : shared := mkShared (tasks_ s) (active_workers_ s) true (mutex_ s).

(** A block under [lock(mutex_)] runs only when nobody has the mutex. *)
Definition locked {A} (s : shared) (block : option A) : option A :=
  match mutex_ s with None => block | Some _ => None end.

(** The locked block of [worker]. *)
Definition worker_block (me : thread_id) (s : shared) : option (worker_pc * shared) :=
  if negb (work_or_stop s) then Some (Blocking, set_mutex (Some me) s)
  else if stop s && bool_decide (tasks_ s = []) then Some (Exited, s)
  else
    match tasks_ s with
    | t :: q => Some (Running t, mkShared q (wrapu 64 (active_workers_ s + 1)) (stop s) (mutex_ s))
    | [] => None
    end.

(** One step of a worker, with the task it executes and its notification. *)
Definition worker_step (me : thread_id) (w : worker_pc) (s : shared) :
    option (worker_pc * shared * list task * notification) :=
  match w with
  | AtWait => '(w', s') ← locked s (worker_block me s); Some (w', s', [], NoNotify)
  | Blocking => Some (Asleep, set_mutex None s, [], NoNotify)
  | Running t => Some (Executed t, s, [t], NoNotify)
  | Executed _ =>
      Some (Notifying, mkShared (tasks_ s) (wrapu 64 (active_workers_ s - 1)) (stop s) (mutex_ s), [], NoNotify)
  | Notifying => Some (AtWait, s, [], NotifyAll)
  | Asleep | Exited => None
  end.

Definition all_exited (ws : list worker_pc) : bool := bool_decide (Forall (λ w, w = Exited) ws).

(** The wait of [enqueue], its predicate read under the mutex. *)
Definition enqueue_wait (me : thread_id) (t : task) (s : shared) : call_pc * shared :=
  if work_or_stop s then (EnqueueNotify t, s) else (EnqueueBlocking t, set_mutex (Some me) s).

(** One step of a call.  [enqueue] makes the task, waits for the queue to have one,
    notifies one thread and returns the future; the task is not put into the queue. *)
Definition call_step (me : thread_id) (c : call_pc) (s : shared) (ws : list worker_pc) :
    option (call_pc * shared * notification) :=
  match c with
  | Enqueue t => locked s (Some (if stop s then (EnqueueThrew, s, NoNotify) else (enqueue_wait me t s, NoNotify)))
  | EnqueueBlocking t => Some (EnqueueAsleep t, set_mutex None s, NoNotify)
  | EnqueueWoken t => locked s (Some (enqueue_wait me t s, NoNotify))
  | EnqueueNotify t => Some (EnqueueReturned t, s, NotifyOne)
  | Shutdown => locked s (Some (ShutdownNotify, set_stop s, NoNotify))
  | ShutdownNotify => Some (ShutdownJoining, s, NotifyAll)
  | ShutdownJoining => if all_exited ws then Some (WaitForTasks, s, NoNotify) else None
  | WaitForTasks =>
      locked s (Some (if tasks_done s then (Returned, s, NoNotify) else (WaitBlocking, set_mutex (Some me) s, NoNotify)))
  | WaitBlocking => Some (WaitAsleep, set_mutex None s, NoNotify)
  | Destroy => locked s (Some (DestroyNotify, set_stop s, NoNotify))
  | DestroyNotify => Some (DestroyJoining, s, NotifyAll)
  | DestroyJoining => if all_exited ws then Some (Returned, s, NoNotify) else None
  | EnqueueAsleep _ | WaitAsleep | EnqueueReturned _ | EnqueueThrew | Returned => None
  end.

(** [thread_count] and [queue_size]. *)
Definition thread_count (p : ThreadPool) : nat := length (workers p).
Definition queue_size (p : ThreadPool) : nat := length (tasks_ (sh p)).

(** ** Notifications *)
Definition wake_worker (w : worker_pc) : worker_pc := match w with Asleep => AtWait | _ => w end.
Definition wake_call (c : call_pc) : call_pc :=
  match c with EnqueueAsleep t => EnqueueWoken t | WaitAsleep => WaitForTasks | _ => c end.
Definition call_asleep (c : call_pc) : bool := match c with EnqueueAsleep _ | WaitAsleep => true | _ => false end.

(** [notify_all] wakes every thread that sleeps, [notify_one] one of them, whichever. *)
Inductive notified : notification → list worker_pc → list call_pc → list worker_pc → list call_pc → Prop :=
  | NotifiedNone ws cs : notified NoNotify ws cs ws cs
  | NotifiedAll ws cs : notified NotifyAll ws cs (wake_worker <$> ws) (wake_call <$> cs)
  | NotifiedWorker ws cs i : ws !! i = Some Asleep → notified NotifyOne ws cs (<[i := AtWait]> ws) cs
  | NotifiedCall ws cs j c :
      cs !! j = Some c → call_asleep c = true → notified NotifyOne ws cs ws (<[j := wake_call c]> cs)
  | NotifiedNobody ws cs :
      Asleep ∉ ws → Forall (λ c, call_asleep c = false) cs → notified NotifyOne ws cs ws cs.

(** A step of a worker or of a call that is there. *)
Inductive thread_step (p : ThreadPool) : ThreadPool → Prop :=
  | StepWorker i w w' s' ts e ws cs :
      workers p !! i = Some w → worker_step (Worker i) w (sh p) = Some (w', s', ts, e) →
      notified e (<[i := w']> (workers p)) (calls p) ws cs →
      thread_step p (mkThreads s' ws cs (executed p ++ ts))
  | StepCall j c c' s' e ws cs :
      calls p !! j = Some c → call_step (Caller j) c (sh p) (workers p) = Some (c', s', e) →
      notified e (workers p) (<[j := c']> (calls p)) ws cs →
      thread_step p (mkThreads s' ws cs (executed p)).

(** A thread wakes without having been notified. *)
Inductive spurious_wakeup (p : ThreadPool) : ThreadPool → Prop :=
  | SpuriousWorker i :
      workers p !! i = Some Asleep →
      spurious_wakeup p (mkThreads (sh p) (<[i := AtWait]> (workers p)) (calls p) (executed p))
  | SpuriousCall j c :
      calls p !! j = Some c → call_asleep c = true →
      spurious_wakeup p (mkThreads (sh p) (workers p) (<[j := wake_call c]> (calls p)) (executed p)).

Definition internal_step (p p' : ThreadPool) : Prop := thread_step p p' ∨ spurious_wakeup p p'.

(** A client calls the pool. *)
Inductive arrival (p : ThreadPool) : ThreadPool → Prop :=
  | Arrive c :
      (∃ t, c = Enqueue t) ∨ c = Shutdown ∨ c = Destroy ∨ c = WaitForTasks →
      arrival p (mkThreads (sh p) (workers p) (calls p ++ [c]) (executed p)).

Inductive reachable (n : nat) : ThreadPool → Prop :=
  | ReachNew p : pool_new n [] = inr p → reachable n p
  | ReachStep p p' : reachable n p → internal_step p p' → reachable n p'
  | ReachCall p p' : reachable n p → arrival p p' → reachable n p'.

(** ** What holds of every reachable pool *)
Definition worker_ok (i : nat) (s : shared) (w : worker_pc) : Prop :=
  match w with
  | AtWait | Asleep => True
  | Blocking => mutex_ s = Some (Worker i) ∧ stop s = false
  | Exited => stop s = true
  | Running _ | Executed _ | Notifying => False
  end.
Definition call_ok (j : nat) (s : shared) (c : call_pc) : Prop :=
  match c with
  | EnqueueBlocking _ => mutex_ s = Some (Caller j) ∧ stop s = false
  | EnqueueNotify _ | EnqueueReturned _ | EnqueueThrew | ShutdownNotify | ShutdownJoining
  | DestroyNotify | DestroyJoining => stop s = true
  | WaitBlocking | WaitAsleep => False
  | _ => True
  end.
Definition shared_ok (s : shared) : Prop :=
  tasks_ s = [] ∧ active_workers_ s = 0 ∧ (stop s = true → mutex_ s = None).

(** A [notify_all] that follows the store to [stop] is still to come. *)
Definition will_notify (c : call_pc) : bool :=
  match c with ShutdownNotify | DestroyNotify => true | _ => false end.
Definition nobody_asleep (ws : list worker_pc) (cs : list call_pc) : Prop :=
  (∀ i, ws !! i ≠ Some Asleep) ∧ (∀ j c, cs !! j = Some c → call_asleep c = false).

Record idle_pool (n : nat) (p : ThreadPool) : Prop := {
  ip_threads : length (workers p) = n;
  ip_shared : shared_ok (sh p);
  ip_workers : ∀ i w, workers p !! i = Some w → worker_ok i (sh p) w;
  ip_calls : ∀ j c, calls p !! j = Some c → call_ok j (sh p) c;
  ip_notify : stop (sh p) = true →
    (∃ j c, calls p !! j = Some c ∧ will_notify c = true) ∨ nobody_asleep (workers p) (calls p);
  ip_executed : executed p = [];
}.

(** What a thread can do to the shared state of such a pool. *)
Definition moves (me : thread_id) (s s' : shared) : Prop :=
  s' = s ∨ (mutex_ s = None ∧ stop s = false ∧ s' = set_mutex (Some me) s) ∨
  (mutex_ s = Some me ∧ stop s = false ∧ s' = set_mutex None s) ∨ (mutex_ s = None ∧ s' = set_stop s).

Ltac moves_cases H := destruct H as [->|[(?&?& ->)|[(?&?& ->)|(?& ->)]]].

Lemma moves_shared_ok me s s' : moves me s s' → shared_ok s → shared_ok s'.
Proof. intros Hm (Ht & Ha & Hs). moves_cases Hm; split_and!; cbn; try done; congruence. Qed.

Lemma worker_ok_moves me i s s' w : moves me s s' → me ≠ Worker i → worker_ok i s w → worker_ok i s' w.
Proof.
  intros Hm Hne. destruct w; cbn; try done; [intros [Hl Hs]|intros Hs]; moves_cases Hm; cbn; split_and?; congruence.
Qed.

Lemma call_ok_moves me j s s' c : moves me s s' → me ≠ Caller j → call_ok j s c → call_ok j s' c.
Proof.
  intros Hm Hne. destruct c; cbn; try done; try (intros [Hl Hs]); try intros Hs; moves_cases Hm; cbn; split_and?; congruence.
Qed.

Lemma worker_block_idle me s :
  shared_ok s → worker_block me s = if stop s then Some (Exited, s) else Some (Blocking, set_mutex (Some me) s).
Proof. intros (H & _). unfold worker_block, work_or_stop. rewrite H. cbn. by destruct (stop s). Qed.

Lemma worker_step_ok i w s w' s' ts e :
  shared_ok s → worker_ok i s w → worker_step (Worker i) w s = Some (w', s', ts, e) →
  moves (Worker i) s s' ∧ worker_ok i s' w' ∧ ts = [] ∧ e = NoNotify ∧ stop s' = stop s ∧
  (stop s = true → w' ≠ Asleep).
Proof.
  intros Hok Hw Hstep. destruct w; cbn in Hw, Hstep; try done.
  - unfold locked in Hstep. destruct (mutex_ s) eqn:Hm; [done|]. rewrite worker_block_idle in Hstep by done.
    destruct (stop s) eqn:Hs; cbn in Hstep; injection Hstep as <- <- <- <-; unfold moves; cbn; split_and!; auto 6.
  - injection Hstep as <- <- <- <-. destruct Hw as [Hm Hs]. unfold moves; cbn. split_and!; auto 6. congruence.
Qed.

Lemma call_step_ok j c s ws c' s' e :
  shared_ok s → call_ok j s c → call_step (Caller j) c s ws = Some (c', s', e) →
  moves (Caller j) s s' ∧ call_ok j s' c' ∧ (stop s' = true → call_asleep c' = false) ∧
  (will_notify c = true → e = NotifyAll) ∧ (stop s = false → stop s' = true → will_notify c' = true).
Proof.
  intros (Ht & Ha & Hsm) Hc Hstep.
  assert (work_or_stop s = stop s) as Hwork by (unfold work_or_stop; by rewrite Ht).
  assert (tasks_done s = true) as Hdone by (unfold tasks_done; by rewrite Ht, Ha).
  unfold moves. destruct (mutex_ s) eqn:Hm, (stop s) eqn:Hs; destruct c; cbn in Hc, Hstep;
    unfold locked, enqueue_wait in Hstep; rewrite ?Hm, ?Hs, ?Hwork, ?Hdone in Hstep;
    repeat (case_match; try done); try done; injection Hstep as <- <- <-; cbn; split_and!;
    try match goal with H : _ ∧ _ |- _ => destruct H end; try done; try congruence; auto 8; right; right; left; split_and!; congruence.
Qed.

(** *** What a notification does to the threads *)
Lemma notified_shape e ws cs ws' cs' :
  notified e ws cs ws' cs' →
  length ws' = length ws ∧
  (∀ i, ws' !! i = ws !! i ∨ ws' !! i = wake_worker <$> ws !! i) ∧
  (∀ j, cs' !! j = cs !! j ∨ cs' !! j = wake_call <$> cs !! j) ∧
  (e = NotifyAll → nobody_asleep ws' cs').
Proof.
  intros [ws0 cs0|ws0 cs0|ws0 cs0 i Hi|ws0 cs0 j c Hj Hc|ws0 cs0 Hn Hf].
  - split_and!; auto. done.
  - split_and!; [by rewrite length_fmap|intros i; right; apply list_lookup_fmap|intros j; right; apply list_lookup_fmap|].
    intros _. split.
    + intros i Hi. rewrite list_lookup_fmap in Hi. by destruct (ws0 !! i) as [[]|].
    + intros j c Hj. rewrite list_lookup_fmap in Hj. destruct (cs0 !! j) as [[]|]; by simplify_eq/=.
  - split_and!; [by rewrite length_insert| |auto|done].
    intros i'. destruct (decide (i' = i)) as [->|]; [right|left; by rewrite list_lookup_insert_ne].
    rewrite list_lookup_insert_eq by (by eapply lookup_lt_Some). by rewrite Hi.
  - split_and!; [done|auto| |done].
    intros j'. destruct (decide (j' = j)) as [->|]; [right|left; by rewrite list_lookup_insert_ne].
    rewrite list_lookup_insert_eq by (by eapply lookup_lt_Some). by rewrite Hj.
  - split_and!; auto. done.
Qed.

Lemma worker_ok_wake i s w : worker_ok i s (wake_worker w) ↔ worker_ok i s w.
Proof. by destruct w. Qed.
Lemma call_ok_wake j s c : call_ok j s c → call_ok j s (wake_call c).
Proof. by destruct c. Qed.
Lemma will_notify_wake c : will_notify (wake_call c) = will_notify c.
Proof. by destruct c. Qed.

Lemma notified_ok e ws cs ws' cs' s :
  notified e ws cs ws' cs' →
  (∀ i w, ws !! i = Some w → worker_ok i s w) → (∀ j c, cs !! j = Some c → call_ok j s c) →
  (∀ i w, ws' !! i = Some w → worker_ok i s w) ∧ (∀ j c, cs' !! j = Some c → call_ok j s c).
Proof.
  intros (_ & Hw & Hc & _)%notified_shape Hws Hcs. split.
  - intros i w Hi. destruct (Hw i) as [Heq|Heq]; rewrite Heq in Hi; [by apply Hws|].
    destruct (ws !! i) as [w0|] eqn:H0; [|done]. simplify_eq/=. apply worker_ok_wake. by apply Hws.
  - intros j c Hj. destruct (Hc j) as [Heq|Heq]; rewrite Heq in Hj; [by apply Hcs|].
    destruct (cs !! j) as [c0|] eqn:H0; [|done]. simplify_eq/=. apply call_ok_wake. by apply Hcs.
Qed.

(** Notifications still to come stay, and nobody is put to sleep by one. *)
Lemma notified_will e ws cs ws' cs' j c :
  notified e ws cs ws' cs' → cs !! j = Some c → will_notify c = true →
  ∃ c', cs' !! j = Some c' ∧ will_notify c' = true.
Proof.
  intros (_ & _ & Hc & _)%notified_shape Hj Hn. destruct (Hc j) as [Heq|Heq]; rewrite Hj in Heq; [by eauto|].
  eexists. split; [done|]. by rewrite will_notify_wake.
Qed.

Lemma notified_nobody e ws cs ws' cs' :
  notified e ws cs ws' cs' → nobody_asleep ws cs → nobody_asleep ws' cs'.
Proof.
  intros (_ & Hw & Hc & _)%notified_shape [Hnw Hnc]. split.
  - intros i Hi. destruct (Hw i) as [Heq|Heq]; rewrite Heq in Hi; [by eapply Hnw|].
    destruct (ws !! i) as [[]|]; done.
  - intros j c Hj. destruct (Hc j) as [Heq|Heq]; rewrite Heq in Hj; [by eapply Hnc|].
    destruct (cs !! j) as [[]|]; by simplify_eq/=.
Qed.

Lemma nobody_asleep_worker ws cs i w : nobody_asleep ws cs → w ≠ Asleep → nobody_asleep (<[i := w]> ws) cs.
Proof.
  intros [Hw Hc] Hne. split; [|done]. intros i' [(_ & Heq & _)|[_ Hi]]%list_lookup_insert_Some; [done|]. by eapply Hw.
Qed.
Lemma nobody_asleep_call ws cs j c : nobody_asleep ws cs → call_asleep c = false → nobody_asleep ws (<[j := c]> cs).
Proof.
  intros [Hw Hc] Hne. split; [done|]. intros j' c' [(-> & <- & _)|[_ Hj]]%list_lookup_insert_Some; [done|]. by eapply Hc.
Qed.

(** *** The invariant is kept *)
Lemma idle_worker n p i w w' s' ts e ws cs :
  idle_pool n p → workers p !! i = Some w → worker_step (Worker i) w (sh p) = Some (w', s', ts, e) →
  notified e (<[i := w']> (workers p)) (calls p) ws cs → idle_pool n (mkThreads s' ws cs (executed p ++ ts)).
Proof.
  intros [H1 H2 H3 H4 H5 H6] Hi Hstep Hn.
  destruct (worker_step_ok _ _ _ _ _ _ _ H2 (H3 _ _ Hi) Hstep) as (Hm & Hw' & -> & -> & Hst & Hns).
  destruct (notified_ok _ _ _ _ _ s' Hn) as [Hws Hcs].
  { intros i' w0 [(-> & <- & _)|[Hne Hi']]%list_lookup_insert_Some; [done|]. eapply worker_ok_moves; [done|congruence|by apply H3]. }
  { intros j c Hj. by eapply call_ok_moves, H4. }
  split; cbn; try done.
  - destruct (notified_shape _ _ _ _ _ Hn) as [-> _]. by rewrite length_insert.
  - by eapply moves_shared_ok.
  - rewrite Hst. intros Hs. destruct (H5 Hs) as [(j & c & Hj & Hc)|Hnb].
    + left. exists j. by eapply notified_will.
    + right. eapply notified_nobody, nobody_asleep_worker; [done|done|]. by apply Hns.
  - by rewrite H6.
Qed.

Lemma idle_call n p j c c' s' e ws cs :
  idle_pool n p → calls p !! j = Some c → call_step (Caller j) c (sh p) (workers p) = Some (c', s', e) →
  notified e (workers p) (<[j := c']> (calls p)) ws cs → idle_pool n (mkThreads s' ws cs (executed p)).
Proof.
  intros [H1 H2 H3 H4 H5 H6] Hj Hstep Hn.
  destruct (call_step_ok _ _ _ _ _ _ _ H2 (H4 _ _ Hj) Hstep) as (Hm & Hc' & Hns & Hall & Hset).
  destruct (notified_ok _ _ _ _ _ s' Hn) as [Hws Hcs].
  { intros i w Hi. by eapply worker_ok_moves, H3. }
  { intros j' c0 [(-> & <- & _)|[Hne Hj']]%list_lookup_insert_Some; [done|]. eapply call_ok_moves; [done|congruence|by apply H4]. }
  destruct (notified_shape _ _ _ _ _ Hn) as (Hlen & _ & _ & Hna).
  split; cbn; try done; [by rewrite Hlen|by eapply moves_shared_ok|].
  intros Hs'. destruct (stop (sh p)) eqn:Hs.
  - destruct (H5 eq_refl) as [(j0 & c0 & Hj0 & Hc0)|Hnb].
    + destruct (decide (j0 = j)) as [->|Hne]; [right; simplify_eq; by apply Hna, Hall|].
      left. exists j0. eapply notified_will; [done| |done]. by rewrite list_lookup_insert_ne.
    + right. eapply notified_nobody, nobody_asleep_call; [done|done|]. by apply Hns.
  - left. exists j. eapply notified_will; [done| |by apply Hset].
    apply list_lookup_insert_eq. by eapply lookup_lt_Some.
Qed.

Lemma idle_spurious n p p' : idle_pool n p → spurious_wakeup p p' → idle_pool n p'.
Proof.
  intros [H1 H2 H3 H4 H5 H6] Hsp.
  assert (∃ ws cs, notified NotifyOne (workers p) (calls p) ws cs ∧ p' = mkThreads (sh p) ws cs (executed p)) as (ws & cs & Hn & ->).
  { destruct Hsp as [i Hi|j c Hj Hc]; do 2 eexists; (split; [|done]); by econstructor. }
  destruct (notified_ok _ _ _ _ _ (sh p) Hn H3 H4) as [Hws Hcs].
  destruct (notified_shape _ _ _ _ _ Hn) as (Hlen & _). split; cbn; try done; [by rewrite Hlen|].
  intros Hs. destruct (H5 Hs) as [(j & c & Hj & Hc)|Hnb]; [left; exists j; by eapply notified_will|right; by eapply notified_nobody].
Qed.

Lemma idle_internal n p p' : idle_pool n p → internal_step p p' → idle_pool n p'.
Proof.
  intros Hp [[i w w' s' ts e ws cs|j c c' s' e ws cs]|Hsp];
    [by eapply idle_worker|by eapply idle_call|by eapply idle_spurious].
Qed.

Lemma idle_arrival n p p' : idle_pool n p → arrival p p' → idle_pool n p'.
Proof.
  intros [H1 H2 H3 H4 H5 H6] [c Hc].
  assert (call_asleep c = false ∧ ∀ j s, call_ok j s c) as [Hca Hcok] by (by destruct Hc as [[t ->]|[->|[-> | ->]]]).
  split; cbn; try done.
  - intros j c0 [Hj|[_ [_ <-]%list_lookup_singleton_Some]]%lookup_app_Some; [by apply H4|by apply Hcok].
  - intros Hs. destruct (H5 Hs) as [(j & c0 & Hj & Hc0)|[Hnw Hnc]].
    + left. exists j, c0. by rewrite lookup_app_l by (by eapply lookup_lt_Some).
    + right. split; [done|]. intros j c0 [Hj|[_ [_ <-]%list_lookup_singleton_Some]]%lookup_app_Some; [by eapply Hnc|done].
Qed.

Lemma idle_reachable n p : reachable n p → idle_pool n p.
Proof.
  induction 1 as [p Hnew|p p' _ IH Hstep|p p' _ IH Hstep]; [|by eapply idle_internal|by eapply idle_arrival].
  unfold pool_new in Hnew. case_bool_decide as Hn; [done|]. injection Hnew as <-.
  split; cbn; try done; [by apply length_replicate|]. by intros i w [-> _]%lookup_replicate.
Qed.

(** ** After the stop *)
Definition call_done (c : call_pc) : Prop :=
  match c with EnqueueReturned _ | EnqueueThrew | Returned => True | _ => False end.

(** All threads are gone and all calls over. *)
Definition finished (p : ThreadPool) : Prop := Forall (λ w, w = Exited) (workers p) ∧ Forall call_done (calls p).

(** What is left to do once [stop] is set. *)
Definition worker_rank (w : worker_pc) : nat :=
  match w with Exited => 0 | AtWait => 1 | Asleep => 2 | _ => 3 end.
Definition call_rank (c : call_pc) : nat :=
  match c with
  | EnqueueReturned _ | EnqueueThrew | Returned => 0
  | EnqueueNotify _ | WaitForTasks | DestroyJoining => 1
  | Enqueue _ | EnqueueWoken _ | WaitAsleep | ShutdownJoining | DestroyNotify => 2
  | EnqueueAsleep _ | ShutdownNotify | Destroy | WaitBlocking => 3
  | EnqueueBlocking _ | Shutdown => 4
  end.
Definition rank_of (ws : list worker_pc) (cs : list call_pc) : nat :=
  (sum_list (worker_rank <$> ws) + sum_list (call_rank <$> cs))%nat.
Definition rank (p : ThreadPool) : nat := rank_of (workers p) (calls p).

Lemma sum_list_insert {A} (f : A → nat) l i x y :
  l !! i = Some x → (f y < f x)%nat → (sum_list (f <$> <[i := y]> l) < sum_list (f <$> l))%nat.
Proof.
  revert i. induction l as [|z l IH]; intros [|i] Hi Hf; simplify_eq/=; [lia|]. specialize (IH i Hi Hf). lia.
Qed.

Lemma sum_list_wake {A} (f : A → nat) (g : A → A) l :
  (∀ x, f (g x) ≤ f x)%nat → (sum_list (f <$> (g <$> l)) ≤ sum_list (f <$> l))%nat.
Proof. intros Hf. induction l as [|x l IH]; cbn; [lia|]. specialize (Hf x). lia. Qed.

Lemma call_rank_wake c : call_asleep c = true → (call_rank (wake_call c) < call_rank c)%nat.
Proof. destruct c; cbn; try done; lia. Qed.

Lemma notified_rank e ws cs ws' cs' : notified e ws cs ws' cs' → (rank_of ws' cs' ≤ rank_of ws cs)%nat.
Proof.
  intros [ws0 cs0|ws0 cs0|ws0 cs0 i Hi|ws0 cs0 j c Hj Hc|ws0 cs0 Hn Hf]; unfold rank_of; [lia| | | |lia].
  - apply Nat.add_le_mono; apply sum_list_wake; intros []; cbn; lia.
  - apply Nat.add_le_mono_r, Nat.lt_le_incl. eapply sum_list_insert; [done|]. cbn. lia.
  - apply Nat.add_le_mono_l, Nat.lt_le_incl. eapply sum_list_insert; [done|]. by apply call_rank_wake.
Qed.

Lemma worker_step_rank i w s w' s' ts e :
  shared_ok s → stop s = true → worker_ok i s w → worker_step (Worker i) w s = Some (w', s', ts, e) →
  (worker_rank w' < worker_rank w)%nat.
Proof.
  intros Hok Hs Hw Hstep. destruct w; cbn in Hw, Hstep; try done; [|destruct Hw; congruence].
  unfold locked in Hstep. destruct Hok as (Ht & Ha & Hm). rewrite Hm, worker_block_idle, Hs in Hstep by (split_and?; done).
  injection Hstep as <- _ _ _. cbn. lia.
Qed.

Lemma call_step_rank j c s ws c' s' e :
  shared_ok s → stop s = true → call_ok j s c → call_step (Caller j) c s ws = Some (c', s', e) →
  (call_rank c' < call_rank c)%nat ∧ stop s' = true.
Proof.
  intros (Ht & Ha & Hm) Hs Hc Hstep. specialize (Hm Hs).
  assert (work_or_stop s = true) as Hwork by (unfold work_or_stop; by rewrite Ht, Hs).
  assert (tasks_done s = true) as Hdone by (unfold tasks_done; by rewrite Ht, Ha).
  destruct c; cbn in Hc, Hstep; unfold locked, enqueue_wait in Hstep; rewrite ?Hm, ?Hs, ?Hwork, ?Hdone in Hstep;
    try done; try (destruct Hc; congruence); repeat (case_match; try done);
    injection Hstep as <- <- _; cbn; (split; [lia|done]).
Qed.

Lemma internal_rank n p p' :
  idle_pool n p → stop (sh p) = true → internal_step p p' → (rank p' < rank p)%nat ∧ stop (sh p') = true.
Proof.
  intros Hp Hs [[i w w' s' ts e ws cs Hi Hstep Hn|j c c' s' e ws cs Hj Hstep Hn]|[i Hi|j c Hj Hc]];
    unfold rank; cbn; (split; [|try done]).
  - eapply Nat.le_lt_trans; [by eapply notified_rank|]. apply Nat.add_lt_mono_r. eapply sum_list_insert; [done|].
    eapply worker_step_rank; [apply Hp|done|by apply Hp|done].
  - destruct (worker_step_ok _ _ _ _ _ _ _ (ip_shared _ _ Hp) (ip_workers _ _ Hp _ _ Hi) Hstep) as (_&_&_&_&-> &_). done.
  - eapply Nat.le_lt_trans; [by eapply notified_rank|]. apply Nat.add_lt_mono_l. eapply sum_list_insert; [done|].
    eapply (call_step_rank j); [apply Hp|done|by apply Hp|done].
  - eapply (call_step_rank j); [apply Hp|done|by apply Hp|done].
  - apply Nat.add_lt_mono_r. eapply sum_list_insert; [done|]. cbn. lia.
  - apply Nat.add_lt_mono_l. eapply sum_list_insert; [done|]. by apply call_rank_wake.
Qed.

(** *** No thread sleeps for good *)
Lemma notified_total e ws cs : ∃ ws' cs', notified e ws cs ws' cs'.
Proof.
  destruct e; [by do 2 eexists; constructor| |by do 2 eexists; constructor].
  destruct (decide (Asleep ∈ ws)) as [Hin|Hn].
  { apply list_elem_of_lookup in Hin as [i Hi]. do 2 eexists. by apply NotifiedWorker. }
  destruct (decide (Exists (λ c, call_asleep c = true) cs)) as [Hex|Hne].
  - apply Exists_exists in Hex as (c & Hin & Hc). apply list_elem_of_lookup in Hin as [j Hj].
    do 2 eexists. by eapply NotifiedCall.
  - do 2 eexists. apply NotifiedNobody; [done|]. apply not_Exists_Forall in Hne; [|solve_decision].
    eapply Forall_impl; [done|]. intros c Hc. by apply not_true_iff_false.
Qed.

(** When no thread can take a step of its own, none is asleep either. *)
Lemma stuck_worker n p i w :
  idle_pool n p → stop (sh p) = true → (∀ p', ¬ thread_step p p') → workers p !! i = Some w → w = Exited ∨ w = Asleep.
Proof.
  intros Hp Hs Hstuck Hi. pose proof (ip_workers _ _ Hp i w Hi) as Hw. destruct w; cbn in Hw; try done; auto.
  - exfalso. destruct (notified_total NoNotify (<[i := Exited]> (workers p)) (calls p)) as (ws & cs & Hn).
    eapply Hstuck, (StepWorker p i AtWait Exited (sh p) [] NoNotify); [done| |done]. cbn. unfold locked.
    destruct (ip_shared _ _ Hp) as (Ht & Ha & Hm). by rewrite Hm, worker_block_idle, Hs by (split_and?; done).
  - destruct Hw. congruence.
Qed.

Lemma stuck_call n p j c :
  idle_pool n p → stop (sh p) = true → (∀ p', ¬ thread_step p p') → calls p !! j = Some c →
  call_done c ∨ (call_asleep c = true) ∨ ((c = ShutdownJoining ∨ c = DestroyJoining) ∧ all_exited (workers p) = false).
Proof.
  intros Hp Hs Hstuck Hj. pose proof (ip_calls _ _ Hp j c Hj) as Hc.
  destruct (ip_shared _ _ Hp) as (Ht & Ha & Hm). specialize (Hm Hs).
  assert (∀ c' s' e, call_step (Caller j) c (sh p) (workers p) ≠ Some (c', s', e)) as Hno.
  { intros c' s' e Hstep. destruct (notified_total e (workers p) (<[j := c']> (calls p))) as (ws & cs & Hn).
    by eapply Hstuck, (StepCall p j). }
  destruct c; cbn in Hc, Hno |- *; unfold locked in Hno; rewrite ?Hm in Hno; auto;
    try (exfalso; by eapply Hno); try (destruct Hc; congruence);
    try (destruct (all_exited (workers p)) eqn:Hall; [exfalso; by eapply Hno|auto]).
  - exfalso. rewrite Hs in Hno. by eapply Hno.
  - exfalso. destruct (enqueue_wait (Caller j) t (sh p)) as [c' s'] eqn:E. by eapply Hno.
  - exfalso. destruct (tasks_done (sh p)); by eapply Hno.
Qed.

Lemma stuck_finished n p :
  idle_pool n p → stop (sh p) = true → (∀ p', ¬ thread_step p p') → finished p.
Proof.
  intros Hp Hs Hstuck.
  assert (nobody_asleep (workers p) (calls p)) as [Hnw Hnc].
  { destruct (ip_notify _ _ Hp Hs) as [(j & c & Hj & Hc)|Hnb]; [|done].
    destruct (stuck_call n p j c Hp Hs Hstuck Hj) as [Hd|[Hd|[[Hd|Hd] _]]]; by destruct c. }
  assert (Forall (λ w, w = Exited) (workers p)) as Hw.
  { apply Forall_lookup. intros i w Hi. destruct (stuck_worker n p i w Hp Hs Hstuck Hi) as [->| ->]; [done|].
    by destruct (Hnw i). }
  split; [done|]. apply Forall_lookup. intros j c Hj.
  destruct (stuck_call n p j c Hp Hs Hstuck Hj) as [|[Hc|[_ Hall]]]; [done| |].
  - rewrite (Hnc j c Hj) in Hc. done.
  - by apply bool_decide_eq_false in Hall.
Qed.

(** Whatever threads call, in any interleaving: no task is ever in the queue and none
    is ever executed - [enqueue] makes a task, but does not put it in - and as long as
    nobody stops the pool no [enqueue] returns. *)
Theorem no_task_is_executed n p :
  reachable n p →
  executed p = [] ∧ queue_size p = 0%nat ∧ thread_count p = n ∧ (∀ t, Running t ∉ workers p) ∧
  (stop (sh p) = false → ∀ t, EnqueueReturned t ∉ calls p).
Proof.
  intros Hr%idle_reachable. split_and!; [apply Hr|unfold queue_size; by destruct (ip_shared _ _ Hr) as [-> _]|apply Hr| |].
  - intros t [i Hi]%list_elem_of_lookup. by apply (ip_workers _ _ Hr) in Hi.
  - intros Hs t [j Hj]%list_elem_of_lookup. apply (ip_calls _ _ Hr) in Hj. cbn in Hj. congruence.
Qed.

(** C27: once the pool is stopped everything comes to an end: in every interleaving, with
    lost notifications and spurious wake-ups, the threads and the calls there are take
    finitely many more steps; and when none of them can take a step of its own - a
    sleeping thread takes one only after a [notify] - every worker has exited and every
    call - shutdown, destructor, waiting [enqueue]s and [wait_for_tasks] - has returned or
    thrown, so that no thread sleeps for good.  ([enqueue] never queues its task, so no
    task is running when the pool is stopped: [no_task_is_executed].) *)
Theorem stop_completes n p :
  reachable n p → stop (sh p) = true →
  Acc (flip internal_step) p ∧
  ∀ p', rtc internal_step p p' → (∀ p'', ¬ thread_step p' p'') → finished p'.
Proof.
  intros Hr%idle_reachable Hs. split.
  - remember (rank p) as m eqn:Hm. revert p Hm Hr Hs. induction (lt_wf m) as [m _ IH]. intros p -> Hr Hs.
    constructor. intros p' Hstep. destruct (internal_rank _ _ _ Hr Hs Hstep) as [Hlt Hs'].
    eapply IH; [done|done|by eapply idle_internal|done].
  - intros p' Hrun. induction Hrun as [p|p p1 p' Hstep _ IH]; intros Hstuck; [by eapply stuck_finished|].
    apply IH; [by eapply idle_internal|by eapply internal_rank|done].
Qed.

(** ** A worker asleep, an [enqueue] asleep, and a shutdown that is about to notify them *)
Definition one_with (w : worker_pc) (cs : list call_pc) (b : bool) (o : option thread_id) : ThreadPool :=
  mkThreads (mkShared [] 0 b o) [w] cs [].
Definition sleepers : ThreadPool := one_with Asleep [EnqueueAsleep 7; ShutdownNotify] true None.

Lemma sleepers_reachable : reachable 1 sleepers.
Proof.
  assert (∀ p p', reachable 1 p → thread_step p p' → reachable 1 p') as step1 by (intros; eapply ReachStep; [done|by left]).
  apply (step1 (one_with Asleep [EnqueueAsleep 7; Shutdown] false None));
    [|by eapply (StepCall (one_with Asleep [EnqueueAsleep 7; Shutdown] false None) 1); [done|done|constructor]].
  apply (step1 (one_with Asleep [EnqueueBlocking 7; Shutdown] false (Some (Caller 0))));
    [|by eapply (StepCall (one_with Asleep [EnqueueBlocking 7; Shutdown] false (Some (Caller 0))) 0); [done|done|constructor]].
  apply (step1 (one_with Asleep [Enqueue 7; Shutdown] false None));
    [|by eapply (StepCall (one_with Asleep [Enqueue 7; Shutdown] false None) 0); [done|done|constructor]].
  apply (ReachCall 1 (one_with Asleep [Enqueue 7] false None)); [|apply (Arrive (one_with Asleep [Enqueue 7] false None)); eauto 6].
  apply (ReachCall 1 (one_with Asleep [] false None)); [|apply (Arrive (one_with Asleep [] false None)); eauto 6].
  apply (step1 (one_with Blocking [] false (Some (Worker 0))));
    [|by eapply (StepWorker (one_with Blocking [] false (Some (Worker 0))) 0); [done|done|constructor]].
  apply (step1 (one_with AtWait [] false None));
    [|by eapply (StepWorker (one_with AtWait [] false None) 0); [done|done|constructor]].
  by apply ReachNew.
Qed.

Lemma no_task_is_executed_witness : executed sleepers = [] ∧ queue_size sleepers = 0%nat.
Proof. by destruct (no_task_is_executed 1 sleepers sleepers_reachable) as (? & ? & _). Defined.

Lemma stop_completes_witness : Acc (flip internal_step) sleepers.
Proof. by apply (stop_completes 1 sleepers sleepers_reachable). Defined.
