(* ===== verification/LockFreeAVL.v ===== *)
(** The lock-free AVL tree of src/dsa/avl_lockfree.hpp, and one thread alone with it.

    A call is a program over atomic actions on shared memory ([prog]): the loads, stores
    and compare-and-swaps of the source, one [Act] each.  [run] executes a program alone;
    [lf_step] interleaves the programs of several threads, and lets any
    [compare_exchange_weak] fail spuriously.  Actions are sequentially consistent here, which
    is stronger than the acquire and release orders of the source, and [key], which is
    not atomic, is read and written in one action; what goes wrong in such an execution
    goes wrong in the source as well, and [LockFreeCoherent] has the theorem on threads
    side by side for values that are only coherent.

    A [shared_ptr] is the address of a node or null; the store keeps the nodes nobody
    refers to any more, which no program can reach.  Functions that come in a left and a
    right version are one definition over the [side].  Recursion and retry loops have
    fuel. *)

From stdpp Require Import sorting.
From Stdlib Require Import Sorting.Sorted.
From S2P Require Import Prelude AVL.

(** ** Memory *)
Inductive side : Type := Left | Right.
Definition opposite (d : side) : side := match d with Left => Right | Right => Left end.

Record AVLNode (K V : Type) := mkNode {
  key : K;
  value : V;
  depth : Z;
  weight : Z;
  left : option loc;
  right : option loc;
}.
Arguments mkNode {K V}. Arguments key {K V}. Arguments value {K V}. Arguments depth {K V}.
Arguments weight {K V}. Arguments left {K V}. Arguments right {K V}.

Record memory (K V : Type) := mkMemory {
  root_ : option loc;
  nodes : gmap loc (AVLNode K V);
  next_addr : loc;
}.
Arguments mkMemory {K V}. Arguments root_ {K V}. Arguments nodes {K V}. Arguments next_addr {K V}.

(** The atomic pointers: the root and the children of a node. *)
Inductive place : Type := Root | Child (d : side) (a : loc).

Section Memory.
Context {K V : Type} `{!EqDecision V}.
Implicit Types (n : AVLNode K V) (m : memory K V).

Definition child (d : side) n : option loc := match d with Left => left n | Right => right n end.

Definition set_child (d : side) (p : option loc) n : AVLNode K V :=
  match d with
  | Left => mkNode (key n) (value n) (depth n) (weight n) p (right n)
  | Right => mkNode (key n) (value n) (depth n) (weight n) (left n) p
  end.
Definition set_key (k : K) n : AVLNode K V := mkNode k (value n) (depth n) (weight n) (left n) (right n).
Definition set_value (v : V) n : AVLNode K V := mkNode (key n) v (depth n) (weight n) (left n) (right n).
Definition set_depth (x : Z) n : AVLNode K V := mkNode (key n) (value n) x (weight n) (left n) (right n).
Definition set_weight (x : Z) n : AVLNode K V := mkNode (key n) (value n) (depth n) x (left n) (right n).

(** [AVLNode(k, v)]. *)
Definition node_new (k : K) (v : V) : AVLNode K V := mkNode k v 1 1 None None.

Definition write (a : loc) n m : memory K V := mkMemory (root_ m) (<[a := n]> (nodes m)) (next_addr m).

(** ** Atomic actions *)
Inductive action : Type :=
| Load (p : place)
| Cas (p : place) (expected desired : option loc)
| ReadKey (a : loc)
| WriteKey (a : loc) (k : K)
| LoadValue (a : loc)
| StoreValue (a : loc) (v : V)
| CasValue (a : loc) (expected desired : V)
| LoadDepth (a : loc)
| StoreDepth (a : loc) (x : Z)
| LoadWeight (a : loc)
| StoreWeight (a : loc) (x : Z)
| Make (k : K) (v : V).

(** A [compare_exchange_weak] answers whether it succeeded and the new [expected]. *)
Definition result (e : action) : Type :=
  match e with
  | Load _ => option loc
  | Cas _ _ _ => bool * option loc
  | ReadKey _ => K
  | LoadValue _ => V
  | CasValue _ _ _ => bool * V
  | LoadDepth _ | LoadWeight _ => Z
  | Make _ _ => loc
  | WriteKey _ _ | StoreValue _ _ | StoreDepth _ _ | StoreWeight _ _ => unit
  end.

Definition pointer_at (p : place) m : option (option loc) :=
  match p with
  | Root => Some (root_ m)
  | Child d a => child d <$> nodes m !! a
  end.

Definition set_pointer (p : place) (q : option loc) m : memory K V :=
  match p with
  | Root => mkMemory q (nodes m) (next_addr m)
  | Child d a => mkMemory (root_ m) (alter (set_child d q) a (nodes m)) (next_addr m)
  end.

(** The answer of an action and the memory it leaves; [weak] makes a compare-and-swap
    fail spuriously. *)
Definition exec (weak : bool) (e : action) m : option (result e * memory K V) :=
  let on (a : loc) {A} (f : AVLNode K V → A * AVLNode K V) : option (A * memory K V) :=
    n ← nodes m !! a; let '(r, n') := f n in Some (r, write a n' m) in
  match e return option (result e * memory K V) with
  | Load p => q ← pointer_at p m; Some (q, m)
  | Cas p expected desired =>
      q ← pointer_at p m;
      Some (if negb weak && bool_decide (q = expected) then ((true, expected), set_pointer p desired m)
            else ((false, q), m))
  | ReadKey a => n ← nodes m !! a; Some (key n, m)
  | WriteKey a k => on a (λ n, (tt, set_key k n))
  | LoadValue a => n ← nodes m !! a; Some (value n, m)
  | StoreValue a v => on a (λ n, (tt, set_value v n))
  | CasValue a expected desired =>
      n ← nodes m !! a;
      Some (if negb weak && bool_decide (value n = expected)
            then ((true, expected), write a (set_value desired n) m) else ((false, value n), m))
  | LoadDepth a => n ← nodes m !! a; Some (depth n, m)
  | StoreDepth a x => on a (λ n, (tt, set_depth x n))
  | LoadWeight a => n ← nodes m !! a; Some (weight n, m)
  | StoreWeight a x => on a (λ n, (tt, set_weight x n))
  | Make k v =>
      let a := next_addr m in
      Some (a, mkMemory (root_ m) (<[a := node_new k v]> (nodes m)) (Pos.succ a))
  end.

(** ** Programs *)
Inductive prog (A : Type) : Type :=
| Ret (a : A)
| Act (e : action) (k : result e → prog A)
| Crash
| OutOfFuel.
Arguments Ret {A}. Arguments Act {A}. Arguments Crash {A}. Arguments OutOfFuel {A}.

#[export] Instance prog_ret : MRet prog := λ A, Ret.
#[export] Instance prog_bind : MBind prog := λ A B f,
  fix go p :=
    match p with
    | Ret a => f a
    | Act e k => Act e (λ r, go (k r))
    | Crash => Crash
    | OutOfFuel => OutOfFuel
    end.

Definition load (p : place) : prog (option loc) := Act (Load p) Ret.
Definition compare_exchange_weak (p : place) (expected desired : option loc) : prog (bool * option loc) :=
  Act (Cas p expected desired) Ret.
Definition read_key (a : loc) : prog K := Act (ReadKey a) Ret.
Definition write_key (a : loc) (k : K) : prog unit := Act (WriteKey a k) Ret.
Definition load_value (a : loc) : prog V := Act (LoadValue a) Ret.
Definition store_value (a : loc) (v : V) : prog unit := Act (StoreValue a v) Ret.
Definition exchange_value (a : loc) (expected desired : V) : prog (bool * V) :=
  Act (CasValue a expected desired) Ret.
Definition make_shared (k : K) (v : V) : prog loc := Act (Make k v) Ret.

(** [p->], undefined when [p] is null. *)
Definition deref (p : option loc) : prog loc := match p with Some a => Ret a | None => Crash end.

(** A program alone, on a machine whose compare-and-swaps do not fail spuriously. *)
Fixpoint run {A} (p : prog A) : M (memory K V) A := λ m,
  match p with
  | Ret a => Done a m
  | Act e k => match exec false e m with Some (r, m') => run (k r) m' | None => Undef end
  | Crash => Undef
  | OutOfFuel => NoFuel
  end.

(** Threads side by side: a step is one action of one of them. *)
Inductive lf_step {A} : list (prog A) * memory K V → list (prog A) * memory K V → Prop :=
| lf_act ps1 e k ps2 m weak r m' :
    exec weak e m = Some (r, m') → lf_step (ps1 ++ Act e k :: ps2, m) (ps1 ++ k r :: ps2, m').

(** The same, computed: each entry of a schedule lets a thread take one action. *)
Definition lf_turn {A} (turn : nat * bool) (c : list (prog A) * memory K V) : list (prog A) * memory K V :=
  match c.1 !! turn.1 with
  | Some (Act e k) =>
      match exec turn.2 e c.2 with
      | Some (r, m') => (<[turn.1 := k r]> c.1, m')
      | None => c
      end
  | _ => c
  end.
Definition lf_turns {A} (sch : list (nat * bool)) (c : list (prog A) * memory K V) :=
  foldl (λ c turn, lf_turn turn c) c sch.
End Memory.
Arguments action : clear implicits. Arguments prog : clear implicits.
Arguments Ret {K V A}. Arguments Act {K V A}. Arguments Crash {K V A}. Arguments OutOfFuel {K V A}.

(** ** The tree *)
Section Tree.
Context {K V : Type} `{!EqDecision K} `{!EqDecision V} `{!KeyOrder K}.
Abbreviation P := (prog K V).
Implicit Types (node : option loc).

Definition getDepth node : P Z := match node with Some a => Act (LoadDepth a) Ret | None => Ret 0 end.
Definition getWeight node : P Z := match node with Some a => Act (LoadWeight a) Ret | None => Ret 0 end.

Definition update (a : loc) : P unit :=
  leftNode ← load (Child Left a);
  rightNode ← load (Child Right a);
  leftDepth ← getDepth leftNode;
  rightDepth ← getDepth rightNode;
  (Act (StoreDepth a (wrapu 32 (1 + Z.max leftDepth rightDepth))) Ret : P unit) ;;
  leftWeight ← getWeight leftNode;
  rightWeight ← getWeight rightNode;
  Act (StoreWeight a (wrapu 32 (1 + leftWeight + rightWeight))) Ret.

(** The two loops of a rotation.  The first takes [newRoot] from under [node] and hands
    the subtree between them over, and gives up when [node] has lost its child. *)
Fixpoint detach (d : side) (fuel : nat) (node newRoot : loc) (inner : option loc) : P (option (loc * option loc)) :=
  match fuel with
  | O => OutOfFuel
  | S fuel =>
      '(ok, _) ← compare_exchange_weak (Child (opposite d) node) (Some newRoot) inner;
      if ok : bool then mret (Some (newRoot, inner))
      else
        newRoot ← load (Child (opposite d) node);
        match newRoot with
        | None => mret None
        | Some newRoot => inner ← load (Child d newRoot); detach d fuel node newRoot inner
        end
  end.

Fixpoint attach (d : side) (fuel : nat) (node newRoot : loc) (inner : option loc) : P unit :=
  match fuel with
  | O => OutOfFuel
  | S fuel =>
      '(ok, _) ← compare_exchange_weak (Child d newRoot) inner (Some node);
      if ok : bool then mret tt
      else inner ← load (Child d newRoot); attach d fuel node newRoot inner
  end.

(** [rotateLeft] for [Left], [rotateRight] for [Right]. *)
Definition rotate (d : side) (fuel : nat) node : P (option loc) :=
  match node with
  | None => mret None
  | Some n =>
      newRoot ← load (Child (opposite d) n);
      match newRoot with
      | None => mret (Some n)
      | Some newRoot =>
          inner ← load (Child d newRoot);
          o ← detach d fuel n newRoot inner;
          match o with
          | None => mret (Some n)
          | Some (newRoot, inner) =>
              attach d fuel n newRoot inner ;;
              update n ;;
              update newRoot ;;
              mret (Some newRoot)
          end
      end
  end.

(** [getDepth(leftRight) >= getDepth(leftLeft)] for [Left], mirrored for [Right]. *)
Definition leans_inward (d : side) (heavy : loc) : P bool :=
  inner ← load (Child (opposite d) heavy);
  outer ← load (Child d heavy);
  innerDepth ← getDepth inner;
  outerDepth ← getDepth outer;
  mret (outerDepth <=? innerDepth).

(** Putting the rotated child under [node]; [false] when [node] has lost its child. *)
Fixpoint replace_child (d : side) (fuel : nat) (node heavy : loc) (newChild : option loc) : P bool :=
  match fuel with
  | O => OutOfFuel
  | S fuel =>
      '(ok, _) ← compare_exchange_weak (Child d node) (Some heavy) newChild;
      if ok : bool then mret true
      else
        heavy ← load (Child d node);
        match heavy with
        | None => mret false
        | Some heavy =>
            b ← leans_inward d heavy;
            if b : bool then newChild ← rotate d fuel (Some heavy); replace_child d fuel node heavy newChild
            else mret true
        end
  end.

(** [fixLeft] for [Left], [fixRight] for [Right]. *)
Definition fix_side (d : side) (fuel : nat) node : P (option loc) :=
  match node with
  | None => mret None
  | Some n =>
      heavy ← load (Child d n);
      match heavy with
      | None => mret (Some n)
      | Some heavy =>
          b ← leans_inward d heavy;
          go_on ← (if b : bool then newChild ← rotate d fuel (Some heavy); replace_child d fuel n heavy newChild
                   else mret true);
          if go_on : bool then rotate (opposite d) fuel (Some n) else mret (Some n)
      end
  end.

Definition fix_ (fuel : nat) node : P (option loc) :=
  match node with
  | None => mret None
  | Some n =>
      update n ;;
      l ← load (Child Left n);
      leftDepth ← getDepth l;
      r ← load (Child Right n);
      rightDepth ← getDepth r;
      if wrapu 32 (rightDepth + 1) <? leftDepth then fix_side Left fuel (Some n)
      else if wrapu 32 (leftDepth + 1) <? rightDepth then fix_side Right fuel (Some n)
      else mret (Some n)
  end.

(** [while (!p.compare_exchange_weak(current, next)) next = again(current);] *)
Fixpoint exchange_loop (fuel : nat) (p : place) (current next : option loc)
    (again : option loc → P (option loc)) : P unit :=
  match fuel with
  | O => OutOfFuel
  | S fuel =>
      '(ok, current) ← compare_exchange_weak p current next;
      if ok : bool then mret tt else next ← again current; exchange_loop fuel p current next again
  end.

(** [while (!atomic_compare_exchange_weak(&node->value, &expected, value)) {}] *)
Fixpoint value_loop (fuel : nat) (a : loc) (expected v : V) : P unit :=
  match fuel with
  | O => OutOfFuel
  | S fuel =>
      '(ok, expected) ← exchange_value a expected v;
      if ok : bool then mret tt else value_loop fuel a expected v
  end.

Fixpoint insert (fuel : nat) node (k : K) (v : V) : P (option loc) :=
  match fuel with
  | O => OutOfFuel
  | S fuel =>
      match node with
      | None => new_node ← make_shared k v; mret (Some new_node)
      | Some n =>
          let descend d :=
            current ← load (Child d n);
            next ← insert fuel current k v;
            exchange_loop fuel (Child d n) current next (λ current, insert fuel current k v) ;;
            fix_ fuel (Some n) in
          nk ← read_key n;
          if key_ltb k nk then descend Left
          else
            nk ← read_key n;
            if key_ltb nk k then descend Right
            else expected ← load_value n; value_loop fuel n expected v ;; mret (Some n)
      end
  end.

(** The successor and its parent, from the right child on. *)
Fixpoint find_successor (fuel : nat) (successor successor_parent : loc) : P (loc * loc) :=
  match fuel with
  | O => OutOfFuel
  | S fuel =>
      successor_left ← load (Child Left successor);
      match successor_left with
      | None => mret (successor, successor_parent)
      | Some l => find_successor fuel l successor
      end
  end.

(** Unlinking a successor that is not the right child; [false] when the source starts
    the removal again. *)
Fixpoint unlink_left (fuel : nat) (parent : loc) (successor successor_right : option loc) : P bool :=
  match fuel with
  | O => OutOfFuel
  | S fuel =>
      '(ok, successor) ← compare_exchange_weak (Child Left parent) successor successor_right;
      if ok : bool then mret true
      else
        now ← load (Child Left parent);
        if decide (now = successor) then unlink_left fuel parent successor successor_right else mret false
  end.

Fixpoint unlink_right (fuel : nat) (n : loc) (successor successor_right : option loc) : P unit :=
  match fuel with
  | O => OutOfFuel
  | S fuel =>
      '(ok, _) ← compare_exchange_weak (Child Right n) successor successor_right;
      if ok : bool then mret tt
      else
        successor ← load (Child Right n);
        s ← deref successor;
        successor_right ← load (Child Right s);
        unlink_right fuel n successor successor_right
  end.

Fixpoint remove (fuel : nat) node (k : K) : P (option loc) :=
  match fuel with
  | O => OutOfFuel
  | S fuel =>
      match node with
      | None => mret None
      | Some n =>
          let descend d :=
            current ← load (Child d n);
            next ← remove fuel current k;
            exchange_loop fuel (Child d n) current next (λ current, remove fuel current k) ;;
            fix_ fuel (Some n) in
          nk ← read_key n;
          if key_ltb k nk then descend Left
          else
            nk ← read_key n;
            if key_ltb nk k then descend Right
            else
              left_child ← load (Child Left n);
              right_child ← load (Child Right n);
              match left_child, right_child with
              | None, _ => mret right_child
              | _, None => mret left_child
              | Some _, Some rc =>
                  '(successor, successor_parent) ← find_successor fuel rc n;
                  sk ← read_key successor;
                  write_key n sk ;;
                  sv ← load_value successor;
                  store_value n sv ;;
                  successor_right ← load (Child Right successor);
                  if decide (successor_parent = n) then
                    unlink_right fuel n (Some successor) successor_right ;;
                    fix_ fuel (Some n)
                  else
                    unlinked ← unlink_left fuel successor_parent (Some successor) successor_right;
                    if unlinked : bool then fix_ fuel (Some n) else remove fuel (Some n) k
              end
      end
  end.

Fixpoint search_from (fuel : nat) node (k : K) : P (option loc) :=
  match fuel with
  | O => OutOfFuel
  | S fuel =>
      match node with
      | None => mret None
      | Some n =>
          nk ← read_key n;
          if decide (k = nk) then mret (Some n)
          else
            nk ← read_key n;
            next ← load (Child (if key_ltb k nk then Left else Right) n);
            search_from fuel next k
      end
  end.

Definition search (fuel : nat) (k : K) : P (option loc) := root ← load Root; search_from fuel root k.

Fixpoint insert_root (fuel : nat) (k : K) (v : V) : P unit :=
  match fuel with
  | O => OutOfFuel
  | S fuel' =>
      current_root ← load Root;
      new_root ← insert fuel current_root k v;
      '(ok, _) ← compare_exchange_weak Root current_root new_root;
      if ok : bool then mret tt else insert_root fuel' k v
  end.

Definition set (fuel : nat) (k : K) (v : V) : P unit :=
  node ← search fuel k;
  match node with
  | Some n => expected ← load_value n; value_loop fuel n expected v
  | None => insert_root fuel k v
  end.

Definition get_ (fuel : nat) (k : K) : P (option V) :=
  node ← search fuel k;
  match node with Some n => v ← load_value n; mret (Some v) | None => mret None end.

Fixpoint del (fuel : nat) (k : K) : P unit :=
  match fuel with
  | O => OutOfFuel
  | S fuel' =>
      current_root ← load Root;
      match current_root with
      | None => mret tt
      | Some _ =>
          new_root ← remove fuel current_root k;
          '(ok, _) ← compare_exchange_weak Root current_root new_root;
          if ok : bool then mret tt else del fuel' k
      end
  end.

Definition exists_ (fuel : nat) (k : K) : P bool :=
  node ← search fuel k; mret (bool_decide (is_Some node)).

(** The calls of a client, one after the other. *)
Definition lf_call (fuel : nat) (c : tree_call K V) : P (tree_reply V) :=
  match c with
  | CallSet k v => set fuel k v ;; mret Void
  | CallGet k => r ← get_ fuel k; mret (Value r)
  | CallDel k => del fuel k ;; mret Void
  | CallExists k => b ← exists_ fuel k; mret (Found b)
  end.

Fixpoint lf_calls (fuel : nat) (cs : list (tree_call K V)) : P (list (tree_reply V)) :=
  match cs with
  | [] => mret []
  | c :: cs' => r ← lf_call fuel c; rs ← lf_calls fuel cs'; mret (r :: rs)
  end.

Definition tree_new : memory K V := mkMemory None ∅ 1%positive.
End Tree.

(** ** Reasoning about a program alone *)
Section Wp.
Context {K V : Type} `{!EqDecision V}.
Abbreviation P := (prog K V).
Implicit Types (m : memory K V) (n : AVLNode K V).

(** The program returns, and [Q] holds of its answer and the memory it leaves. *)
Definition wp {A} (p : P A) m (Q : A → memory K V → Prop) : Prop :=
  match run p m with Done a m' => Q a m' | _ => False end.

Lemma run_bind {A B} (p : P A) (f : A → P B) m : run (p ≫= f) m = (run p ≫= λ a, run (f a)) m.
Proof.
  revert m. induction p as [a|e k IH| |]; intros m; [done| |done|done].
  cbn. unfold mbind, M_bind. cbn. destruct (exec false e m) as [[r m']|]; [|done]. apply IH.
Qed.

Lemma wp_tree_bind {A B} (p : P A) (f : A → P B) m Q :
  wp p m (λ a m', wp (f a) m' Q) → wp (p ≫= f) m Q.
Proof.
  unfold wp. rewrite run_bind. unfold mbind, M_bind. by destruct (run p m).
Qed.

Lemma wp_tree_mono {A} (p : P A) m (Q Q' : A → memory K V → Prop) :
  wp p m Q → (∀ a m', Q a m' → Q' a m') → wp p m Q'.
Proof. unfold wp. destruct (run p m); auto. Qed.

Lemma wp_Done {A} (p : P A) m Q : wp p m Q → ∃ a m', run p m = Done a m' ∧ Q a m'.
Proof. unfold wp. destruct (run p m) as [a m'| | | | |]; try done. by exists a, m'. Qed.

(** A pointer that is null or leads to a node. *)
Definition valid m (p : option loc) : Prop := ∀ a, p = Some a → is_Some (nodes m !! a).

Lemma wp_load {A} d a n m (f : option loc → P A) Q :
  nodes m !! a = Some n → wp (f (child d n)) m Q → wp (load (Child d a) ≫= f) m Q.
Proof. intros Hn. unfold wp. cbn. by rewrite Hn. Qed.

Lemma set_pointer_write d a n q m :
  nodes m !! a = Some n → set_pointer (Child d a) q m = write a (set_child d q n) m.
Proof.
  intros Hn. unfold set_pointer, write. f_equal. apply map_eq. intros b.
  destruct (decide (a = b)) as [<-|Hab]; [by rewrite lookup_alter_eq, lookup_insert_eq, Hn|].
  by rewrite lookup_alter_ne, lookup_insert_ne.
Qed.

Lemma wp_cas {A} d a n m desired (f : bool * option loc → P A) Q :
  nodes m !! a = Some n → wp (f (true, child d n)) (write a (set_child d desired n) m) Q →
  wp (compare_exchange_weak (Child d a) (child d n) desired ≫= f) m Q.
Proof.
  intros Hn. unfold wp. cbn. rewrite Hn. cbn. rewrite bool_decide_eq_true_2 by done.
  by rewrite <- (set_pointer_write d a n desired m Hn).
Qed.

Lemma wp_getDepth {A} p m (f : Z → P A) Q :
  valid m p → (∀ x, wp (f x) m Q) → wp (getDepth p ≫= f) m Q.
Proof.
  intros Hv Hf. destruct p as [a|]; [|apply Hf]. destruct (Hv a eq_refl) as [n Hn].
  specialize (Hf (depth n)). unfold wp in *. cbn. by rewrite Hn.
Qed.
Lemma wp_getWeight {A} p m (f : Z → P A) Q :
  valid m p → (∀ x, wp (f x) m Q) → wp (getWeight p ≫= f) m Q.
Proof.
  intros Hv Hf. destruct p as [a|]; [|apply Hf]. destruct (Hv a eq_refl) as [n Hn].
  specialize (Hf (weight n)). unfold wp in *. cbn. by rewrite Hn.
Qed.

Lemma valid_write m a n p : valid m p → valid (write a n m) p.
Proof. intros Hv b Hb. unfold write. cbn. apply lookup_insert_is_Some'. right. by apply Hv. Qed.

(** [update] only changes the depth and the weight of its node. *)
Lemma wp_update a n m (Q : unit → memory K V → Prop) :
  nodes m !! a = Some n → valid m (left n) → valid m (right n) →
  (∀ x y, Q tt (write a (set_weight y (set_depth x n)) m)) → wp (update a) m Q.
Proof.
  intros Hn Hl Hr HQ. unfold update.
  apply (wp_load Left a n); [done|]. apply (wp_load Right a n); [done|]. cbn [child].
  apply wp_getDepth; [done|]. intros dl. apply wp_getDepth; [done|]. intros dr.
  set (x := wrapu 32 (1 + Z.max dl dr)).
  apply wp_tree_bind. unfold wp at 1. cbn [run exec]. rewrite Hn. cbn.
  apply wp_getWeight; [by apply valid_write|]. intros wl.
  apply wp_getWeight; [by apply valid_write|]. intros wr.
  unfold wp. cbn. rewrite lookup_insert_eq. cbn. unfold write. cbn. rewrite insert_insert_eq. apply HQ.
Qed.
End Wp.

(** ** The tree in memory *)
Section Shape.
Context {K V : Type} `{!EqDecision V}.
Abbreviation P := (prog K V).
Implicit Types (m : memory K V) (n : AVLNode K V) (ns : gmap loc (AVLNode K V)).

Inductive tree : Type :=
| Leaf
| Br (a : loc) (k : K) (v : V) (l r : tree).
Implicit Types (t l r x y z : tree).

Fixpoint inorder t : list (K * V) :=
  match t with Leaf => [] | Br _ k v l r => inorder l ++ (k, v) :: inorder r end.
Fixpoint addrs t : list loc :=
  match t with Leaf => [] | Br a _ _ l r => addrs l ++ a :: addrs r end.

Fixpoint shape ns (p : option loc) t : Prop :=
  match t with
  | Leaf => p = None
  | Br a k v l r =>
      p = Some a ∧ ∃ n, ns !! a = Some n ∧ key n = k ∧ value n = v ∧ shape ns (left n) l ∧ shape ns (right n) r
  end.

(** A node by its child on one side, [x], and the other, [y]. *)
Definition br (d : side) (a : loc) (k : K) (v : V) x y : tree :=
  match d with Left => Br a k v x y | Right => Br a k v y x end.

Lemma br_cases d t : t = Leaf ∨ ∃ a k v x y, t = br d a k v x y.
Proof. destruct t as [|a k v l r]; [by left|right]. destruct d; eauto 10. Qed.

Lemma shape_br ns p d a k v x y :
  shape ns p (br d a k v x y) ↔ p = Some a ∧ ∃ n, ns !! a = Some n ∧ key n = k ∧ value n = v ∧
    shape ns (child d n) x ∧ shape ns (child (opposite d) n) y.
Proof. destruct d; cbn; naive_solver. Qed.

Lemma addrs_br d a k v x y : addrs (br d a k v x y) ≡ₚ a :: addrs x ++ addrs y.
Proof. destruct d; cbn; solve_Permutation. Qed.

Lemma nodup_br d a k v x y :
  NoDup (addrs (br d a k v x y)) ↔
  a ∉ addrs x ∧ a ∉ addrs y ∧ NoDup (addrs x) ∧ NoDup (addrs y) ∧ addrs x ## addrs y.
Proof.
  rewrite addrs_br, NoDup_cons, NoDup_app, not_elem_of_app. unfold disjoint, set_disjoint_instance. naive_solver.
Qed.

Lemma disjoint_br ls d a k v x y : ls ## addrs (br d a k v x y) → ls ## a :: addrs x ++ addrs y.
Proof. intros Hd c Hc Hc'. apply (Hd c Hc). by rewrite addrs_br. Qed.

(** The walk does not change when the tree turns about an edge. *)
Lemma inorder_rotate d a k v b k' v' x y z :
  inorder (br d b k' v' (br d a k v x y) z) = inorder (br d a k v x (br (opposite d) b k' v' z y)).
Proof. destruct d; cbn; by rewrite <- !app_assoc. Qed.

Lemma inorder_child d a k v x x' y :
  inorder x' = inorder x → inorder (br d a k v x' y) = inorder (br d a k v x y).
Proof. destruct d; cbn; by intros ->. Qed.

Lemma shape_frame ns ns' p t :
  shape ns p t → (∀ a, a ∈ addrs t → ns' !! a = ns !! a) → shape ns' p t.
Proof.
  revert p. induction t as [|a k v l IHl r IHr]; intros p; [done|].
  cbn. intros (-> & n & Hn & Hk & Hv & Hl & Hr) Hsame. split; [done|]. exists n.
  split_and!; [by rewrite Hsame by set_solver|done|done| |].
  - apply IHl; [done|]. intros b Hb. apply Hsame. set_solver.
  - apply IHr; [done|]. intros b Hb. apply Hsame. set_solver.
Qed.

Lemma shape_valid m p t : shape (nodes m) p t → valid m p.
Proof. intros Hs a ->. destruct t; [done|]. destruct Hs as (? & n & Hn & _). simplify_eq. by exists n. Qed.

(** What a call leaves alone: the root, the nodes outside [S]; addresses only grow. *)
Record effect (S : list loc) m m' : Prop := {
  ef_root : root_ m' = root_ m;
  ef_next : (next_addr m <= next_addr m')%positive;
  ef_same : ∀ a, a ∉ S → nodes m' !! a = nodes m !! a;
}.

Lemma touched_refl S m : effect S m m.
Proof. by split. Qed.
Lemma touched_trans S m1 m2 m3 : effect S m1 m2 → effect S m2 m3 → effect S m1 m3.
Proof. intros [? ? H1] [? ? H2]. split; [congruence|lia|]. intros a Ha. by rewrite H2, H1. Qed.
Lemma touched_mono S S' m m' : effect S m m' → S ⊆ S' → effect S' m m'.
Proof. intros [? ? H1] Hsub. split; [done..|]. intros a Ha. apply H1. set_solver. Qed.
Lemma effect_write S m a n : a ∈ S → effect S m (write a n m).
Proof. intros Ha. split; [done..|]. intros b Hb. cbn. apply lookup_insert_ne. set_solver. Qed.

Lemma shape_effect m m' S p t : effect S m m' → shape (nodes m) p t → addrs t ## S → shape (nodes m') p t.
Proof. intros He Hs Hd. apply (shape_frame (nodes m)); [done|]. intros a Ha. apply (ef_same _ _ _ He). set_solver. Qed.
End Shape.
Arguments tree : clear implicits.

(** ** Rotations and [fix] keep the walk *)
Section Balance.
Context {K V : Type} `{!EqDecision K} `{!EqDecision V} `{!KeyOrder K}.
Implicit Types (m : memory K V) (n : AVLNode K V) (t x y z : tree K V).

(** [p'] is the tree [t] of [m], turned about some edges. *)
Definition rearranged t m (p' : option loc) m' : Prop :=
  ∃ t', shape (nodes m') p' t' ∧ inorder t' = inorder t ∧ addrs t' ≡ₚ addrs t ∧ effect (addrs t) m m'.

Lemma rearranged_refl t m p : shape (nodes m) p t → rearranged t m p m.
Proof. intros Hs. exists t. split_and!; [done..|]. apply touched_refl. Qed.

Lemma rearranged_trans t t1 m m1 p m2 :
  inorder t1 = inorder t → addrs t1 ≡ₚ addrs t → effect (addrs t) m m1 →
  rearranged t1 m1 p m2 → rearranged t m p m2.
Proof.
  intros Hi Ha He (t2 & Hs & Hi2 & Ha2 & He2). exists t2.
  split_and!; [done|congruence|by rewrite Ha2|]. eapply touched_trans; [done|].
  eapply touched_mono; [done|]. intros a. by rewrite Ha.
Qed.

Lemma wp_detach {A} d fuel a b n inner m (f : option (loc * option loc) → prog K V A) Q :
  (0 < fuel)%nat → nodes m !! a = Some n → child (opposite d) n = Some b →
  wp (f (Some (b, inner))) (write a (set_child (opposite d) inner n) m) Q →
  wp (detach d fuel a b inner ≫= f) m Q.
Proof.
  intros Hf Hn Hc Hk. destruct fuel as [|fuel]; [lia|]. cbn [detach]. apply wp_tree_bind. rewrite <- Hc.
  apply wp_cas; [done|]. by apply Hk.
Qed.

Lemma wp_attach {A} d fuel a b n m (f : unit → prog K V A) Q :
  (0 < fuel)%nat → nodes m !! b = Some n →
  wp (f tt) (write b (set_child d (Some a) n) m) Q → wp (attach d fuel a b (child d n) ≫= f) m Q.
Proof.
  intros Hf Hn Hk. destruct fuel as [|fuel]; [lia|]. cbn [attach]. apply wp_tree_bind.
  apply wp_cas; [done|]. by apply Hk.
Qed.

(** The same, for [update] in front of a program. *)
Lemma wp_update_bind {A} a n m (f : unit → prog K V A) Q :
  nodes m !! a = Some n → valid m (left n) → valid m (right n) →
  (∀ dp wt, wp (f tt) (write a (set_weight wt (set_depth dp n)) m) Q) → wp (update a ≫= f) m Q.
Proof. intros. apply wp_tree_bind. by eapply wp_update. Qed.

Lemma child_set_same d p n : child d (set_child d p n) = p.
Proof. by destruct d. Qed.
Lemma child_set_other d p n : child d (set_child (opposite d) p n) = child d n.
Proof. by destruct d. Qed.
Lemma child_set_opposite d p n : child (opposite d) (set_child d p n) = child (opposite d) n.
Proof. by destruct d. Qed.
Lemma child_balance d dp wt n : child d (set_weight wt (set_depth dp n)) = child d n.
Proof. by destruct d. Qed.
Lemma key_set_child d p n : key (set_child d p n) = key n.
Proof. by destruct d. Qed.
Lemma value_set_child d p n : value (set_child d p n) = value n.
Proof. by destruct d. Qed.

Create Rewrite HintDb lf.
Hint Rewrite child_set_same child_set_other child_set_opposite child_balance key_set_child
  value_set_child : lf.

Lemma valid_sides d m n : valid m (child d n) → valid m (child (opposite d) n) → valid m (left n) ∧ valid m (right n).
Proof. by destruct d. Qed.

Lemma rotate_spec d fuel t p m :
  (0 < fuel)%nat → shape (nodes m) p t → NoDup (addrs t) →
  wp (rotate d fuel p) m (rearranged t m).
Proof.
  intros Hf Hs Hnd. destruct (br_cases d t) as [->|(a & k & v & x & s & ->)].
  { cbn in Hs. subst p. by apply rearranged_refl. }
  pose proof Hs as Hs0. apply shape_br in Hs as (-> & n & Hn & Hk & Hv & Hx & Hs). cbn [rotate].
  apply (wp_load _ a n); [done|].
  destruct (br_cases (opposite d) s) as [->|(b & k' & v' & z & y & ->)].
  { cbn in Hs. rewrite Hs. by apply rearranged_refl. }
  apply shape_br in Hs as (Hb & nb & Hnb & Hkb & Hvb & Hz & Hy). rewrite Hb.
  replace (opposite (opposite d)) with d in * by by destruct d.
  apply nodup_br in Hnd as (Hax & Has & Hndx & Hnds & Hxs). rewrite addrs_br in Has. apply disjoint_br in Hxs.
  apply nodup_br in Hnds as (Hbz & Hby & Hndz & Hndy & Hyz).
  assert (a ≠ b) as Hab by set_solver.
  apply (wp_load _ b nb); [done|]. eapply wp_detach; [done..|].
  eapply wp_attach; [done|by cbn; rewrite lookup_insert_ne|].
  set (m2 := write b _ _).
  assert (∀ q, valid m q → valid m2 q) as Hval by (intros q Hq; by do 2 apply valid_write).
  eapply (wp_update_bind a (set_child (opposite d) (child d nb) n)).
  { cbn. by rewrite lookup_insert_ne, lookup_insert_eq by done. }
  1,2: eapply (valid_sides d); autorewrite with lf; apply Hval; by eapply shape_valid.
  intros x1 y1. eapply (wp_update_bind b (set_child d (Some a) nb)).
  { cbn. by rewrite lookup_insert_ne, lookup_insert_eq by done. }
  1,2: eapply (valid_sides d); autorewrite with lf; apply valid_write.
  1,3: intros ? [= <-]; cbn; rewrite lookup_insert_ne, lookup_insert_eq by done; by eexists.
  1,2: apply Hval; by eapply shape_valid.
  intros x2 y2. set (m4 := write b _ _). unfold wp. cbn [run mret prog_ret].
  assert (∀ c, c ≠ a → c ≠ b → nodes m4 !! c = nodes m !! c) as Hout.
  { intros c Hca Hcb. cbn. by rewrite !lookup_insert_ne. }
  exists (br d b k' v' (br d a k v x y) z). split_and!.
  - apply shape_br. split; [done|]. eexists. split; [cbn; by rewrite lookup_insert_eq|].
    cbn [key value set_weight set_depth]. autorewrite with lf. split_and!; [done|done| |].
    + apply shape_br. split; [done|]. eexists.
      split; [cbn; by rewrite lookup_insert_ne, lookup_insert_eq by done|].
      cbn [key value set_weight set_depth]. autorewrite with lf. split_and!; [done|done| |].
      * apply (shape_frame (nodes m)); [done|]. intros c Hc. apply Hout; set_solver.
      * apply (shape_frame (nodes m)); [done|]. intros c Hc. apply Hout; set_solver.
    + apply (shape_frame (nodes m)); [done|]. intros c Hc. apply Hout; set_solver.
  - apply inorder_rotate.
  - rewrite !addrs_br. solve_Permutation.
  - split; [done..|]. intros c Hc. rewrite !addrs_br in Hc. apply Hout; set_solver.
Qed.

Lemma wp_leans_inward {A} d a n m (f : bool → prog K V A) Q :
  nodes m !! a = Some n → valid m (left n) → valid m (right n) → (∀ b, wp (f b) m Q) →
  wp (leans_inward d a ≫= f) m Q.
Proof.
  intros Hn Hl Hr Hf. unfold leans_inward. apply wp_tree_bind.
  apply (wp_load _ a n); [done|]. apply (wp_load _ a n); [done|].
  apply wp_getDepth; [by destruct d|]. intros d1. apply wp_getDepth; [by destruct d|]. intros d2. apply Hf.
Qed.

Lemma shape_children ns p d a k v x y :
  shape ns p (br d a k v x y) → ∃ n, ns !! a = Some n ∧ shape ns (child d n) x ∧ shape ns (child (opposite d) n) y.
Proof. intros (_ & n & ? & _ & _ & ? & ?)%shape_br. by exists n. Qed.

Lemma shape_pointers m p d a k v x y n :
  shape (nodes m) p (br d a k v x y) → nodes m !! a = Some n → valid m (left n) ∧ valid m (right n).
Proof.
  intros (n' & Hn & Hx & Hy)%shape_children Hn'. simplify_eq.
  apply (valid_sides d); by eapply shape_valid.
Qed.

(** A child is replaced by what a call has made of it. *)
Lemma hang_child d a k v x y x' n m m1 q (S : list loc) :
  a ∉ S → a ∉ addrs y → S ## addrs y → shape (nodes m) (Some a) (br d a k v x y) → nodes m !! a = Some n →
  shape (nodes m1) q x' → addrs x' ⊆ S → effect S m m1 →
  let m2 := write a (set_child d q n) m1 in
  shape (nodes m2) (Some a) (br d a k v x' y) ∧ effect (a :: S) m m2.
Proof.
  intros HaS Hay HSy (_ & n' & Hn' & Hk & Hv & Hx & Hy)%shape_br Hn Hx' Hsub He m2.
  assert (n' = n) as -> by congruence. split.
  - apply shape_br. split; [done|]. exists (set_child d q n). rewrite child_set_same, child_set_opposite.
    split_and!; [cbn; by rewrite lookup_insert_eq|by destruct d|by destruct d| |].
    + apply (shape_frame (nodes m1)); [done|]. intros c Hc. cbn. apply lookup_insert_ne. set_solver.
    + apply (shape_frame (nodes m)); [done|]. intros c Hc. cbn. rewrite lookup_insert_ne by set_solver.
      apply (ef_same _ _ _ He). set_solver.
  - split; [apply He..|]. intros c Hc. cbn. rewrite lookup_insert_ne by set_solver.
    apply (ef_same _ _ _ He). set_solver.
Qed.

Lemma fix_side_spec d fuel t p m :
  (0 < fuel)%nat → shape (nodes m) p t → NoDup (addrs t) → wp (fix_side d fuel p) m (rearranged t m).
Proof.
  intros Hf Hs Hnd. destruct (br_cases d t) as [->|(a & k & v & x & y & ->)].
  { cbn in Hs. subst p. by apply rearranged_refl. }
  pose proof Hs as Hs0. apply shape_br in Hs as (-> & n & Hn & Hk & Hv & Hx & Hy). cbn [fix_side].
  apply (wp_load _ a n); [done|]. destruct (child d n) as [h|] eqn:Eh; [|by apply rearranged_refl].
  destruct (br_cases d x) as [->|(b & k' & v' & x1 & x2 & Ex)]; [done|].
  assert (h = b) as -> by (rewrite Ex in Hx; apply shape_br in Hx as [[= ->] _]; done).
  destruct (shape_children (nodes m) (Some b) d b k' v' x1 x2) as (nb & Hnb & _); [by rewrite <- Ex|].
  destruct (shape_pointers m (Some b) d b k' v' x1 x2 nb) as [Hl Hr]; [by rewrite <- Ex|done|].
  apply (wp_leans_inward _ b nb); [done..|]. intros [|]; [|by apply rotate_spec].
  pose proof Hnd as (Hax & Hay & Hndx & Hndy & Hxy)%nodup_br.
  do 2 apply wp_tree_bind. eapply wp_tree_mono; [by apply rotate_spec|].
  intros q m1 (x' & Hx' & Hi & Ha & He).
  destruct (hang_child d a k v x y x' n m m1 q (addrs x)) as [Hs2 He2]; [done..|intros c; by rewrite Ha|done|].
  destruct fuel as [|fuel]; [lia|]. cbn [replace_child]. rewrite <- Eh.
  apply wp_cas; [by rewrite (ef_same _ _ _ He)|]. unfold wp at 1. cbn [run mret prog_ret].
  eapply wp_tree_mono; [apply (rotate_spec (opposite d) (S fuel) (br d a k v x' y)); [lia|exact Hs2|]|].
  { by rewrite addrs_br, Ha, <- (addrs_br d a k v). }
  intros p' m' Hp. eapply rearranged_trans; [| | |exact Hp].
  - by apply inorder_child.
  - by rewrite !addrs_br, Ha.
  - eapply touched_mono; [exact He2|]. intros c. rewrite addrs_br. set_solver.
Qed.

Lemma fix_spec fuel t p m :
  (0 < fuel)%nat → shape (nodes m) p t → NoDup (addrs t) → wp (fix_ fuel p) m (rearranged t m).
Proof.
  intros Hf Hs Hnd. destruct t as [|a k v l r]; [cbn in Hs; subst p; by apply rearranged_refl|].
  pose proof Hs as (-> & n & Hn & Hk & Hv & Hl & Hr). cbn [fix_].
  apply (wp_update_bind a n); [done|by eapply shape_valid..|]. intros dp wt.
  set (n' := set_weight wt (set_depth dp n)). set (m1 := write a n' m).
  change (Br a k v l r) with (br Left a k v l r) in *. pose proof Hnd as (Hal & Har & _)%nodup_br.
  assert (shape (nodes m1) (Some a) (br Left a k v l r)) as Hs1.
  { split; [done|]. exists n'. split_and!; [cbn; by rewrite lookup_insert_eq|done|done| |].
    all: (apply (shape_frame (nodes m)); [done|]); intros c Hc; cbn; apply lookup_insert_ne; set_solver. }
  assert (effect (addrs (br Left a k v l r)) m m1) as He1 by (apply effect_write; set_solver).
  assert (nodes m1 !! a = Some n') as Hn1 by (cbn; by rewrite lookup_insert_eq).
  destruct (shape_pointers m1 (Some a) Left a k v l r n') as [Hvl Hvr]; [done..|].
  apply (wp_load _ a n'); [done|]. apply wp_getDepth; [done|]. intros d1.
  apply (wp_load _ a n'); [done|]. apply wp_getDepth; [done|]. intros d2.
  assert (∀ q m2, rearranged (br Left a k v l r) m1 q m2 → rearranged (br Left a k v l r) m q m2) as Hre.
  { intros q m2 Hq. by eapply rearranged_trans; [| |exact He1|exact Hq]. }
  repeat case_match.
  - eapply wp_tree_mono; [by apply fix_side_spec|]. apply Hre.
  - eapply wp_tree_mono; [by apply fix_side_spec|]. apply Hre.
  - apply Hre. by apply rearranged_refl.
Qed.

Lemma wp_exchange_loop {A} d fuel a n q m again (f : unit → prog K V A) Q :
  (0 < fuel)%nat → nodes m !! a = Some n → wp (f tt) (write a (set_child d q n) m) Q →
  wp (exchange_loop fuel (Child d a) (child d n) q again ≫= f) m Q.
Proof.
  intros Hf Hn Hk. destruct fuel as [|fuel]; [lia|]. cbn [exchange_loop]. apply wp_tree_bind.
  apply wp_cas; [done|]. by apply Hk.
Qed.
End Balance.

(** ** The operations on a search tree, alone *)
Section Alone.
Context {K V : Type} `{!EqDecision K} `{!EqDecision V} `{!KeyOrder K} `{!KeyOrderLaws K}.
Implicit Types (m : memory K V) (n : AVLNode K V) (t x y z : tree K V).

Lemma wp_read_key {A} a n m (f : K → prog K V A) Q :
  nodes m !! a = Some n → wp (f (key n)) m Q → wp (read_key a ≫= f) m Q.
Proof. intros Hn. unfold wp. cbn. by rewrite Hn. Qed.
Lemma wp_load_value {A} a n m (f : V → prog K V A) Q :
  nodes m !! a = Some n → wp (f (value n)) m Q → wp (load_value a ≫= f) m Q.
Proof. intros Hn. unfold wp. cbn. by rewrite Hn. Qed.
Lemma wp_write_key {A} a n k m (f : unit → prog K V A) Q :
  nodes m !! a = Some n → wp (f tt) (write a (set_key k n) m) Q → wp (write_key a k ≫= f) m Q.
Proof. intros Hn. unfold wp. cbn. by rewrite Hn. Qed.
Lemma wp_store_value {A} a n v m (f : unit → prog K V A) Q :
  nodes m !! a = Some n → wp (f tt) (write a (set_value v n) m) Q → wp (store_value a v ≫= f) m Q.
Proof. intros Hn. unfold wp. cbn. by rewrite Hn. Qed.

Lemma wp_value_loop fuel a n v m (Q : unit → memory K V → Prop) :
  (0 < fuel)%nat → nodes m !! a = Some n → Q tt (write a (set_value v n) m) →
  wp (value_loop fuel a (value n) v) m Q.
Proof.
  intros Hf Hn HQ. destruct fuel as [|fuel]; [lia|]. unfold wp. cbn. rewrite Hn. cbn.
  by rewrite bool_decide_eq_true_2.
Qed.

(** A subtree does not notice a write outside it. *)
Lemma shape_insert_ne (ns : gmap loc (AVLNode K V)) p t a n :
  a ∉ addrs t → shape ns p t → shape (<[a := n]> ns) p t.
Proof. intros Ha Hs. apply (shape_frame ns); [done|]. intros b Hb. apply lookup_insert_ne. set_solver. Qed.

(** A key goes to a child: what lies around that child's walk is below and above it. *)
Definition goes (d : side) (k0 k : K) : bool := match d with Left => key_ltb k0 k | Right => key_ltb k k0 end.

Lemma walk_around d a k v x y k0 :
  sorted (inorder (br d a k v x y)) → goes d k0 k = true →
  ∃ pre post, (∀ x', inorder (br d a k v x' y) = pre ++ inorder x' ++ post) ∧
    below pre k0 ∧ above post k0 ∧ sorted (inorder x).
Proof.
  intros Hs Hk. destruct d; cbn in *; apply sorted_split in Hs as (Hsl & Hsr & Hb & Ha).
  - exists [], ((k, v) :: inorder y). split_and!; [done| |by apply above_cons|done].
    intros z Hz. by apply elem_of_nil in Hz.
  - exists (inorder y ++ [(k, v)]), []. split_and!; [|by apply below_snoc| |done].
    + intros x'. by rewrite app_nil_r, <- app_assoc.
    + intros z Hz. by apply elem_of_nil in Hz.
Qed.

Lemma key_sides k0 k : k0 ≠ k → key_ltb k0 k = false → key_ltb k k0 = true.
Proof. intros Hne E. destruct (key_ltb k k0) eqn:E'; [done|]. by destruct Hne; apply key_neither. Qed.

Lemma size_br d a k v (x y : tree K V) :
  length (inorder (br d a k v x y)) = S (length (inorder x) + length (inorder y)).
Proof. destruct d; cbn; rewrite length_app; cbn; lia. Qed.

(** What a search finds: the node of the key, whose value can be set. *)
Definition found ns p t k (r : option loc) : Prop :=
  match r with
  | None => ∀ w, (k, w) ∉ inorder t
  | Some a => ∃ n xs1 xs2, ns !! a = Some n ∧ a ∈ addrs t ∧ inorder t = xs1 ++ (k, value n) :: xs2 ∧
      ∀ w, ∃ t', shape (<[a := set_value w n]> ns) p t' ∧ inorder t' = xs1 ++ (k, w) :: xs2 ∧ addrs t' = addrs t
  end.

Lemma search_from_spec fuel p t m k :
  shape (nodes m) p t → sorted (inorder t) → NoDup (addrs t) → (length (inorder t) < fuel)%nat →
  wp (search_from fuel p k) m (λ r m', m' = m ∧ found (nodes m) p t k r).
Proof.
  revert p t. induction fuel as [|fuel IH]; intros p t Hs Hsort Hnd Hf; [lia|]. cbn [search_from].
  destruct t as [|a k' v l r].
  { cbn in Hs. subst p. split; [done|]. intros w Hw. by apply elem_of_nil in Hw. }
  pose proof Hs as (-> & n & Hn & Hk & Hv & Hl & Hr). apply (wp_read_key a n); [done|]. rewrite Hk.
  change (Br a k' v l r) with (br Left a k' v l r) in *.
  case_decide as Hkk.
  - subst k'. split; [done|]. exists n, (inorder l), (inorder r). split_and!; [done|cbn; set_solver|by subst v k|].
    intros w. apply nodup_br in Hnd as (Hal & Har & _). exists (Br a k w l r). split_and!; [|done|done].
    split; [done|]. exists (set_value w n). split_and!; [by rewrite lookup_insert_eq|done|done| |];
      by apply shape_insert_ne.
  - apply (wp_read_key a n); [done|]. rewrite Hk.
    assert (∃ d x y, br Left a k' v l r = br d a k' v x y ∧ goes d k k' = true ∧
      (if key_ltb k k' then Left else Right) = d) as (d & x & y & Et & Hgo & ->).
    { destruct (key_ltb k k') eqn:E; [by exists Left, l, r|]. exists Right, r, l. split_and!; [done| |done].
      by apply key_sides. }
    rewrite Et in *. apply (wp_load _ a n); [done|].
    pose proof Hs as (n' & Hn' & Hx & Hy)%shape_children. simplify_eq.
    destruct (walk_around d a (key n) (value n) x y k Hsort Hgo) as (pre & post & Hw & Hb & Ha & Hsx).
    pose proof Hnd as (Hax & Hay & Hndx & _ & Hxy)%nodup_br.
    eapply wp_tree_mono; [apply (IH _ x); [done..|rewrite size_br in Hf; lia]|].
    intros res m' [-> Hres]. split; [done|]. destruct res as [b|]; cbn [found] in *.
    + destruct Hres as (nb & xs1 & xs2 & Hnb & Hb' & Hi & Hset). exists nb, (pre ++ xs1), (xs2 ++ post).
      split_and!; [done|rewrite addrs_br; set_solver|rewrite Hw, Hi; by rewrite <- !app_assoc|].
      intros w. destruct (Hset w) as (x' & Hx' & Hi' & Ha'). exists (br d a (key n) (value n) x' y).
      split_and!.
      * apply shape_br. split; [done|]. exists n. rewrite lookup_insert_ne by set_solver.
        split_and!; [done..|]. apply shape_insert_ne; [|done]. intros Hby. by apply (Hxy b).
      * by rewrite Hw, Hi', <- !app_assoc.
      * destruct d; cbn; by rewrite Ha'.
    + intros w Hin. rewrite Hw in Hin. apply elem_of_app in Hin as [Hin|[Hin|Hin]%elem_of_app].
      * by apply below_not_elem in Hin.
      * by apply (Hres w).
      * by apply above_not_elem in Hin.
Qed.

(** An absent key gets a node of its own, at its place in the walk. *)
Definition inserted t k v m (p' : option loc) m' : Prop :=
  ∃ t' xs1 xs2, shape (nodes m') p' t' ∧ inorder t = xs1 ++ xs2 ∧ inorder t' = xs1 ++ (k, v) :: xs2 ∧
    below xs1 k ∧ above xs2 k ∧ addrs t' ≡ₚ next_addr m :: addrs t ∧
    effect (next_addr m :: addrs t) m m' ∧ (next_addr m < next_addr m')%positive.

Lemma inserted_fix fuel t t1 xs1 xs2 k v m m1 p :
  (0 < fuel)%nat → shape (nodes m1) p t1 → inorder t = xs1 ++ xs2 → inorder t1 = xs1 ++ (k, v) :: xs2 →
  below xs1 k → above xs2 k → addrs t1 ≡ₚ next_addr m :: addrs t → NoDup (addrs t1) →
  effect (next_addr m :: addrs t) m m1 → (next_addr m < next_addr m1)%positive →
  wp (fix_ fuel p) m1 (inserted t k v m).
Proof.
  intros Hf Hs Hi Hi1 Hb Ha Had Hnd He Hnx. eapply wp_tree_mono; [by apply fix_spec|].
  intros p' m' (t' & Hs' & Hi' & Ha' & He'). exists t', xs1, xs2.
  split_and!; [done|done|by rewrite Hi'|done|done|by rewrite Ha'| |].
  - eapply touched_trans; [done|]. eapply touched_mono; [done|]. intros c. by rewrite Had.
  - pose proof (ef_next _ _ _ He'). lia.
Qed.

Lemma insert_alone fuel p t m k v :
  shape (nodes m) p t → sorted (inorder t) → (∀ w, (k, w) ∉ inorder t) →
  NoDup (addrs t) → next_addr m ∉ addrs t → (length (inorder t) + 1 < fuel)%nat →
  wp (insert fuel p k v) m (inserted t k v m).
Proof.
  revert p t m. induction fuel as [|fuel IH]; intros p t m Hs Hsort Habs Hnd Hnx Hf; [lia|].
  destruct t as [|a k' v' l r].
  { cbn in Hs. subst p. unfold wp. cbn. exists (Br (next_addr m) k v Leaf Leaf), [], []. cbn.
    split_and!; [done|eexists; by split; [apply lookup_insert_eq|]|done|done|..|done| |lia].
    1,2: intros z Hz; by apply elem_of_nil in Hz.
    split; [done|cbn; lia|]. intros b Hb. cbn. apply lookup_insert_ne. set_solver. }
  pose proof Hs as (-> & n & Hn & Hk & Hv & _). cbn [insert].
  change (Br a k' v' l r) with (br Left a k' v' l r) in *.
  assert (∀ d x y, br Left a k' v' l r = br d a k' v' x y → goes d k k' = true →
    wp (current ← load (Child d a); next ← insert fuel current k v;
        exchange_loop fuel (Child d a) current next (λ current, insert fuel current k v) ;;
        fix_ fuel (Some a)) m (inserted (br Left a k' v' l r) k v m)) as Hdown.
  { intros d x y Et Hgo. rewrite Et in *. rewrite addrs_br in Hnx.
    pose proof Hs as (n' & Hn' & Hx & Hy)%shape_children. simplify_eq.
    destruct (walk_around d a (key n) (value n) x y k Hsort Hgo) as (pre & post & Hw & Hb & Ha & Hsx).
    pose proof Hnd as (Hax & Hay & Hndx & _ & Hxy)%nodup_br.
    apply (wp_load _ a n); [done|]. apply wp_tree_bind. eapply wp_tree_mono.
    { apply (IH _ x); [done|done| |done|set_solver|rewrite size_br in Hf; lia].
      intros w Hin. apply (Habs w). rewrite Hw. set_solver. }
    intros q m1 (x' & xs1 & xs2 & Hs1 & Hi & Hi' & Hb1 & Ha2 & Had & He & Hn1).
    apply wp_exchange_loop; [lia|by rewrite (ef_same _ _ _ He) by set_solver|].
    destruct (hang_child d a (key n) (value n) x y x' n m m1 q (next_addr m :: addrs x)) as [Hs2 He2];
      [set_solver|done|set_solver|done|done|done|intros c; by rewrite Had|done|].
    assert (addrs (br d a (key n) (value n) x' y) ≡ₚ next_addr m :: addrs (br d a (key n) (value n) x y)) as Hperm
      by (rewrite !addrs_br, Had; solve_Permutation).
    eapply (inserted_fix fuel _ _ (pre ++ xs1) (xs2 ++ post)); [lia|exact Hs2| | | | | | | |done].
    - by rewrite Hw, Hi, <- !app_assoc.
    - by rewrite Hw, Hi', <- !app_assoc.
    - by apply below_app.
    - by apply above_app.
    - exact Hperm.
    - rewrite Hperm. apply NoDup_cons. split; [by rewrite addrs_br|done].
    - eapply touched_mono; [exact He2|]. intros c. rewrite addrs_br. set_solver. }
  apply (wp_read_key a n); [done|]. rewrite Hk. destruct (key_ltb k k') eqn:E; [by apply (Hdown Left l r)|].
  apply (wp_read_key a n); [done|]. rewrite Hk. destruct (key_ltb k' k) eqn:E'; [by apply (Hdown Right r l)|].
  exfalso. apply (Habs v'). rewrite (key_neither k k') by done. cbn. set_solver.
Qed.

(** The leftmost node [b] of the tree at [c]: it is the root, or the left child of a node
    whose pointer can be set to what is under [b]. *)
Definition leftmost_at ns (c par : loc) t (res : loc * loc) : Prop :=
  let '(b, par') := res in
  ∃ nb xs t', ns !! b = Some nb ∧ b ∈ addrs t ∧ inorder t = (key nb, value nb) :: xs ∧
    inorder t' = xs ∧ addrs t ≡ₚ b :: addrs t' ∧
    ((par' = par ∧ b = c ∧ shape ns (right nb) t') ∨
     (par' ∈ addrs t ∧ ∃ np, ns !! par' = Some np ∧ left np = Some b ∧
        shape (<[par' := set_child Left (right nb) np]> ns) (Some c) t')).

Lemma find_successor_spec fuel c par t m :
  shape (nodes m) (Some c) t → NoDup (addrs t) → (length (inorder t) < fuel)%nat →
  wp (find_successor fuel c par) m (λ res m', m' = m ∧ leftmost_at (nodes m) c par t res).
Proof.
  revert c par t. induction fuel as [|fuel IH]; intros c par t Hs Hnd Hf; [lia|].
  destruct t as [|c' k v l r]; [done|]. destruct Hs as ([= <-] & n & Hn & Hk & Hv & Hl & Hr).
  cbn [find_successor]. apply (wp_load Left c n); [done|]. cbn [child].
  change (Br c k v l r) with (br Left c k v l r) in *.
  pose proof Hnd as (Hcl & Hcr & Hndl & _ & Hlr)%nodup_br.
  destruct l as [|c1 k1 v1 l1 r1].
  { cbn in Hl. rewrite Hl. split; [done|]. exists n, (inorder r), r.
    split_and!; [done|cbn; set_solver|cbn; by rewrite Hk, Hv|done|done|]. by left. }
  set (l := Br c1 k1 v1 l1 r1) in *. pose proof Hl as [Hlp _]. rewrite Hlp in *.
  eapply wp_tree_mono; [apply (IH c1 c l); [done|done|]|].
  { rewrite size_br in Hf. lia. }
  intros [b par'] m' [-> (nb & xs & t' & Hnb & Hb & Hi & Hi' & Ha & Hcase)]. split; [done|].
  exists nb, (xs ++ (k, v) :: inorder r), (br Left c k v t' r). split_and!.
  - done.
  - rewrite addrs_br. set_solver.
  - change (inorder (br Left c k v l r)) with (inorder l ++ (k, v) :: inorder r). by rewrite Hi.
  - cbn. by rewrite Hi'.
  - rewrite !addrs_br, Ha. solve_Permutation.
  - right. destruct Hcase as [(-> & -> & Hs')|(Hp & np & Hnp & Hleft & Hs')].
    + split; [rewrite addrs_br; set_solver|]. exists n. split_and!; [done|done|].
      split; [done|]. exists (set_child Left (right nb) n). rewrite lookup_insert_eq.
      split_and!; [done|done|done| |by apply shape_insert_ne].
      apply shape_insert_ne; [|done]. rewrite Ha in Hcl. set_solver.
    + split; [rewrite addrs_br; set_solver|]. exists np. split_and!; [done|done|].
      split; [done|]. exists n. rewrite lookup_insert_ne by set_solver.
      split_and!; [done|done|done|by rewrite Hlp|]. apply shape_insert_ne; [|done]. intros ?. by apply (Hlr par').
Qed.

(** A key leaves the walk, or the walk stays. *)
Definition removed t k m (p' : option loc) m' : Prop :=
  ∃ t', shape (nodes m') p' t' ∧ NoDup (addrs t') ∧ addrs t' ⊆ addrs t ∧ effect (addrs t) m m' ∧
    ((∃ v xs1 xs2, inorder t = xs1 ++ (k, v) :: xs2 ∧ inorder t' = xs1 ++ xs2) ∨
     (∀ v, (k, v) ∉ inorder t) ∧ inorder t' = inorder t).

Lemma removed_fix fuel t t1 k m m1 p :
  (0 < fuel)%nat → shape (nodes m1) p t1 → NoDup (addrs t1) → addrs t1 ⊆ addrs t → effect (addrs t) m m1 →
  ((∃ v xs1 xs2, inorder t = xs1 ++ (k, v) :: xs2 ∧ inorder t1 = xs1 ++ xs2) ∨
   (∀ v, (k, v) ∉ inorder t) ∧ inorder t1 = inorder t) →
  wp (fix_ fuel p) m1 (removed t k m).
Proof.
  intros Hf Hs Hnd Hsub He Hcase. eapply wp_tree_mono; [by apply fix_spec|].
  intros p' m' (t' & Hs' & Hi' & Ha' & He'). exists t'. rewrite Hi'. split_and!; [done|by rewrite Ha'| | |done].
  - intros c. rewrite Ha'. apply Hsub.
  - eapply touched_trans; [done|]. by eapply touched_mono.
Qed.

Lemma wp_unlink_right {A} fuel a n q m (f : unit → prog K V A) Q :
  (0 < fuel)%nat → nodes m !! a = Some n → wp (f tt) (write a (set_child Right q n) m) Q →
  wp (unlink_right fuel a (right n) q ≫= f) m Q.
Proof.
  intros Hf Hn Hk. destruct fuel as [|fuel]; [lia|]. cbn [unlink_right]. apply wp_tree_bind.
  apply (wp_cas Right); [done|]. by apply Hk.
Qed.
Lemma wp_unlink_left {A} fuel a n q m (f : bool → prog K V A) Q :
  (0 < fuel)%nat → nodes m !! a = Some n → wp (f true) (write a (set_child Left q n) m) Q →
  wp (unlink_left fuel a (left n) q ≫= f) m Q.
Proof.
  intros Hf Hn Hk. destruct fuel as [|fuel]; [lia|]. cbn [unlink_left]. apply wp_tree_bind.
  apply (wp_cas Left); [done|]. by apply Hk.
Qed.

(** The node of the key is overwritten with its successor, which is unlinked. *)
Lemma remove_between fuel a k v l r n rc m :
  let t := Br a k v l r in
  (length (inorder r) < fuel)%nat → shape (nodes m) (Some a) t → NoDup (addrs t) →
  nodes m !! a = Some n → right n = Some rc →
  wp ('(successor, successor_parent) ← find_successor fuel rc a;
      sk ← read_key successor; write_key a sk ;;
      sv ← load_value successor; store_value a sv ;;
      successor_right ← load (Child Right successor);
      if decide (successor_parent = a) then unlink_right fuel a (Some successor) successor_right ;; fix_ fuel (Some a)
      else unlinked ← unlink_left fuel successor_parent (Some successor) successor_right;
           if unlinked : bool then fix_ fuel (Some a) else remove fuel (Some a) k) m (removed t k m).
Proof.
  intros t Hf Hs Hnd Hn Hrc. pose proof Hs as (_ & n' & Hn' & Hk & Hv & Hl & Hr).
  assert (n' = n) as -> by congruence. rewrite Hrc in Hr.
  pose proof (proj1 (nodup_br Left a k v l r) Hnd) as (Hal & Har & Hndl & Hndr & Hlr).
  apply wp_tree_bind. eapply wp_tree_mono; [by apply find_successor_spec|].
  intros [b par] m' [-> (nb & xs & t' & Hnb & Hb & Hi & Hi' & Ha & Hcase)].
  assert (b ≠ a) as Hba by set_solver.
  apply (wp_read_key b nb); [done|]. apply (wp_write_key a n); [done|].
  apply (wp_load_value b nb); [cbn; by rewrite lookup_insert_ne|].
  apply (wp_store_value a (set_key (key nb) n)); [cbn; by rewrite lookup_insert_eq|].
  set (n2 := set_value _ _). set (m2 := write a n2 _).
  assert (nodes m2 = <[a := n2]> (nodes m)) as Hm2 by (cbn; by rewrite insert_insert_eq).
  apply (wp_load Right b nb); [rewrite Hm2; by rewrite lookup_insert_ne|]. cbn [child].
  assert (a ∉ addrs t') as Hat' by (rewrite Ha in Har; set_solver).
  assert (∀ m3 p3, shape (nodes m3) p3 t' → (∀ c, c ∉ a :: addrs r → nodes m3 !! c = nodes m !! c) →
    root_ m3 = root_ m → next_addr m3 = next_addr m →
    (∃ n3, nodes m3 !! a = Some n3 ∧ key n3 = key nb ∧ value n3 = value nb ∧ left n3 = left n ∧ right n3 = p3) →
    wp (fix_ fuel (Some a)) m3 (removed t k m)) as Hend.
  { intros m3 p3 Hs3 Hsame Hroot Hnext (n3 & Hn3 & Hk3 & Hv3 & Hl3 & Hr3).
    apply (removed_fix fuel t (Br a (key nb) (value nb) l t')); [lia| | | | |].
    - split; [done|]. exists n3. rewrite Hl3, Hr3. split_and!; [done..| |done].
      apply (shape_frame (nodes m)); [done|]. intros c Hc. apply Hsame. intros [->|Hcr]%elem_of_cons; [done|].
      by apply (Hlr c).
    - change (Br a ?k ?v l t') with (br Left a k v l t'). apply nodup_br. rewrite Ha in Hndr.
      apply NoDup_cons in Hndr as [_ Hndr]. split_and!; [done..|].
      intros c Hc Hc'. apply (Hlr c Hc). rewrite Ha. by right.
    - intros c. cbn. rewrite !elem_of_app, !elem_of_cons, Ha, elem_of_cons. tauto.
    - split; [done|by rewrite Hnext|]. intros c Hc. apply Hsame. cbn in Hc. set_solver.
    - left. exists v, (inorder l), (inorder r). split; [done|]. cbn. by rewrite Hi', Hi. }
  destruct Hcase as [(-> & -> & Hs')|(Hp & np & Hnp & Hleft & Hs')].
  - rewrite decide_True by done. replace (Some rc) with (right n2) by done.
    apply wp_unlink_right; [lia|by rewrite Hm2, lookup_insert_eq|].
    eapply (Hend _ (right nb)); [| |done|done|].
    + cbn -[m2]. rewrite Hm2, insert_insert_eq. by apply shape_insert_ne.
    + intros c [Hca _]%not_elem_of_cons. cbn -[m2]. rewrite Hm2, insert_insert_eq. by apply lookup_insert_ne.
    + eexists. cbn -[m2]. split; [apply lookup_insert_eq|]. done.
  - assert (par ≠ a) as Hpa by congruence. rewrite decide_False by done. rewrite <- Hleft.
    apply wp_unlink_left; [lia|rewrite Hm2; by rewrite lookup_insert_ne|].
    eapply (Hend _ (Some rc)); [| |done|done|].
    + cbn -[m2]. rewrite Hm2, insert_insert_ne by done. by apply shape_insert_ne.
    + intros c [Hca Hcr]%not_elem_of_cons. cbn -[m2]. by rewrite Hm2, !lookup_insert_ne by congruence.
    + exists n2. cbn -[m2]. rewrite Hm2, lookup_insert_ne, lookup_insert_eq by done. done.
Qed.

(** [remove] goes down into the subtree where the key would be. *)
Lemma remove_down fuel d a n x y m k :
  (∀ p t m, shape (nodes m) p t → sorted (inorder t) → NoDup (addrs t) → (length (inorder t) + 1 < fuel)%nat →
    wp (remove fuel p k) m (removed t k m)) →
  let t := br d a (key n) (value n) x y in
  shape (nodes m) (Some a) t → nodes m !! a = Some n → sorted (inorder t) → NoDup (addrs t) → (length (inorder t) + 1 < S fuel)%nat →
  goes d k (key n) = true →
  wp (current ← load (Child d a); next ← remove fuel current k;
      exchange_loop fuel (Child d a) current next (λ current, remove fuel current k) ;;
      fix_ fuel (Some a)) m (removed t k m).
Proof.
  intros IH t Hs Hn Hsort Hnd Hf Hgo. unfold t in *. pose proof Hs as (n' & Hn' & Hx & Hy)%shape_children. simplify_eq.
  destruct (walk_around d a (key n) (value n) x y k Hsort Hgo) as (pre & post & Hw & Hb & Ha & Hsx).
  pose proof Hnd as (Hax & Hay & Hndx & Hndy & Hxy)%nodup_br.
  apply (wp_load _ a n); [done|]. apply wp_tree_bind. eapply wp_tree_mono.
  { apply (IH _ x); [done|done|done|rewrite size_br in Hf; lia]. }
  intros q m1 (x' & Hs1 & Hnd1 & Hsub & He & Hcase).
  apply wp_exchange_loop; [lia|by rewrite (ef_same _ _ _ He) by set_solver|].
  destruct (hang_child d a (key n) (value n) x y x' n m m1 q (addrs x)) as [Hs2 He2]; [done..|].
  eapply removed_fix; [lia|exact Hs2| | | |].
  - apply nodup_br. split_and!; [set_solver|done..|]. intros c Hc. apply Hxy. by apply Hsub.
  - intros c. rewrite !addrs_br. set_solver.
  - eapply touched_mono; [exact He2|]. intros c. rewrite addrs_br. set_solver.
  - rewrite !Hw. destruct Hcase as [(w & xs1 & xs2 & -> & ->)|[Habs ->]]; [left|right].
    + exists w, (pre ++ xs1), (xs2 ++ post). by rewrite <- !app_assoc.
    + split; [|done]. intros w [Hin|[Hin|Hin]%elem_of_app]%elem_of_app.
      * by apply below_not_elem in Hin.
      * by apply (Habs w).
      * by apply above_not_elem in Hin.
Qed.

Lemma remove_alone fuel p t m k :
  shape (nodes m) p t → sorted (inorder t) → NoDup (addrs t) → (length (inorder t) + 1 < fuel)%nat →
  wp (remove fuel p k) m (removed t k m).
Proof.
  revert p t m. induction fuel as [|fuel IH]; intros p t m Hs Hsort Hnd Hf; [lia|].
  destruct t as [|a k' v' l r].
  { cbn in Hs. subst p. exists Leaf. split_and!; [done|done|done|apply touched_refl|].
    right. split; [|done]. intros v Hv. by apply elem_of_nil in Hv. }
  pose proof Hs as (-> & n & Hn & Hk & Hv & Hl & Hr). cbn [remove]. subst k' v'.
  apply (wp_read_key a n); [done|]. destruct (key_ltb k (key n)) eqn:E; [by apply (remove_down fuel Left a n l r m k IH)|].
  apply (wp_read_key a n); [done|]. destruct (key_ltb (key n) k) eqn:E'; [by apply (remove_down fuel Right a n r l m k IH)|].
  assert (key n = k) as Ek by (symmetry; by apply key_neither). rewrite Ek in *. clear E E'.
  change (Br a k (value n) l r) with (br Left a k (value n) l r) in *.
  pose proof Hnd as (Hal & Har & Hndl & Hndr & _)%nodup_br.
  assert (∀ p t', shape (nodes m) p t' → NoDup (addrs t') → addrs t' ⊆ addrs (br Left a k (value n) l r) →
    inorder t' = inorder l ++ inorder r → removed (br Left a k (value n) l r) k m p m) as Hsplice.
  { intros p t' Hs' Hnd' Hsub Hi. exists t'. split_and!; [done..|apply touched_refl|]. left.
    exists (value n), (inorder l), (inorder r). by rewrite Hi. }
  apply (wp_load Left a n); [done|]. apply (wp_load Right a n); [done|]. cbn [child].
  destruct l as [|la lk lv ll lr].
  { cbn in Hl. rewrite Hl. apply (Hsplice _ r); [done..|intros c; rewrite addrs_br; set_solver|done]. }
  destruct r as [|ra rk rv rl rr].
  { pose proof Hl as [Hlp _]. cbn in Hr. rewrite Hlp, Hr. rewrite <- Hlp.
    apply (Hsplice _ (Br la lk lv ll lr)); [done..|intros c; rewrite addrs_br; set_solver|by rewrite app_nil_r]. }
  pose proof Hl as [Hlp _]. pose proof Hr as [Hrp _]. rewrite Hlp, Hrp.
  apply (remove_between fuel a k (value n) _ _ n ra m); [rewrite size_br in Hf; lia|done..].
Qed.
End Alone.

(** ** A client alone: the tree is a map *)
Section Map.
Context {K V : Type} `{Countable K} `{!EqDecision V} `{!KeyOrder K} `{!KeyOrderLaws K}.
Implicit Types (m : memory K V) (t : tree K V) (f : gmap K V).

Record lf_tree m t f : Prop := {
  lt_shape : shape (nodes m) (root_ m) t;
  lt_sorted : sorted (inorder t);
  lt_nodup : NoDup (addrs t);
  lt_addrs : ∀ a, a ∈ addrs t → (a < next_addr m)%positive;
  lt_map : inorder t ≡ₚ map_to_list f;
}.
Definition lf_rep m f : Prop := ∃ t, lf_tree m t f.

Lemma lf_rep_new : lf_rep tree_new ∅.
Proof.
  exists Leaf. split; cbn; [done|constructor|constructor| |by rewrite map_to_list_empty].
  intros a Ha. by apply elem_of_nil in Ha.
Qed.

Lemma lf_size m t f : lf_tree m t f → length (inorder t) = size f.
Proof. intros Ht. by rewrite (lt_map _ _ _ Ht), length_map_to_list. Qed.

Lemma lf_elem m t f k v : lf_tree m t f → (k, v) ∈ inorder t ↔ f !! k = Some v.
Proof. intros Ht. by rewrite (lt_map _ _ _ Ht), elem_of_map_to_list. Qed.

Lemma lf_absent m t f k : lf_tree m t f → (∀ v, (k, v) ∉ inorder t) → f !! k = None.
Proof. intros Ht Hn. apply eq_None_not_Some. intros [v Hv]. apply (Hn v). by apply (lf_elem m t f k v Ht). Qed.

(** The walk and the map lose, change and gain a key together. *)
Lemma walk_split xs1 xs2 k (v : V) f :
  xs1 ++ (k, v) :: xs2 ≡ₚ map_to_list f → f !! k = Some v ∧ xs1 ++ xs2 ≡ₚ map_to_list (delete k f).
Proof.
  intros Hp. assert (f !! k = Some v) as Hk by (apply elem_of_map_to_list; rewrite <- Hp; set_solver).
  split; [done|]. rewrite <- (insert_delete_id f k v) in Hp by done.
  rewrite map_to_list_insert in Hp by apply lookup_delete_eq.
  rewrite <- Permutation_middle in Hp. by apply Permutation_cons_inv in Hp.
Qed.

Lemma walk_join xs1 xs2 k (v : V) f :
  f !! k = None → xs1 ++ xs2 ≡ₚ map_to_list f → xs1 ++ (k, v) :: xs2 ≡ₚ map_to_list (<[k := v]> f).
Proof. intros Hk Hp. by rewrite map_to_list_insert, <- Permutation_middle, Hp. Qed.

Lemma walk_set xs1 xs2 k (v w : V) f :
  xs1 ++ (k, v) :: xs2 ≡ₚ map_to_list f → xs1 ++ (k, w) :: xs2 ≡ₚ map_to_list (<[k := w]> f).
Proof.
  intros [Hk Hp]%walk_split. rewrite <- insert_delete_eq. apply walk_join; [apply lookup_delete_eq|done].
Qed.

Lemma sorted_app_inv xs1 xs2 (k : K) (v : V) : sorted (xs1 ++ (k, v) :: xs2) → sorted (xs1 ++ xs2).
Proof.
  unfold sorted. rewrite !StronglySorted_app, StronglySorted_cons. intros (Hc & H1 & _ & H2).
  split_and!; [|done|done]. intros x y Hx Hy. apply Hc; [done|by right].
Qed.

Lemma wp_search {A} fuel k t m f (g : option loc → prog K V A) Q :
  lf_tree m t f → (size f < fuel)%nat →
  (∀ r, found (nodes m) (root_ m) t k r → wp (g r) m Q) → wp (search fuel k ≫= g) m Q.
Proof.
  intros Ht Hf Hg. unfold search. apply wp_tree_bind. unfold wp at 1. cbn. fold (wp (search_from fuel (root_ m) k) m (λ r m', wp (g r) m' Q)).
  eapply wp_tree_mono; [eapply search_from_spec; [apply Ht..|by rewrite (lf_size m t f)]|].
  intros r m' [-> Hr]. by apply Hg.
Qed.

Lemma lf_set_value m t f k a w :
  lf_tree m t f → found (nodes m) (root_ m) t k (Some a) →
  ∃ n, nodes m !! a = Some n ∧ f !! k = Some (value n) ∧ ∃ t', lf_tree (write a (set_value w n) m) t' (<[k := w]> f) ∧ addrs t' = addrs t.
Proof.
  intros [Hs Hsort Hnd Had Hm] (n & xs1 & xs2 & Hn & Ha & Hi & Hset). exists n. split; [done|].
  rewrite Hi in Hm. split; [by apply (walk_split xs1 xs2)|].
  destruct (Hset w) as (t' & Hs' & Hi' & Ha'). exists t'. split; [|done]. split; cbn; rewrite ?Ha'; [done| |done|done|].
  - rewrite Hi'. rewrite Hi in Hsort. apply sorted_split in Hsort. by apply sorted_split.
  - rewrite Hi'. by eapply walk_set.
Qed.

Lemma set_alone fuel m f k v :
  lf_rep m f → (size f + 1 < fuel)%nat → wp (set fuel k v) m (λ _ m', lf_rep m' (<[k := v]> f)).
Proof.
  intros [t Ht] Hf. unfold set. eapply wp_search; [exact Ht|lia|]. intros [a|] Hr.
  - destruct (lf_set_value m t f k a v Ht Hr) as (n & Hn & _ & t' & Ht' & _).
    apply (wp_load_value a n); [done|]. apply wp_value_loop; [lia|done|]. by exists t'.
  - destruct fuel as [|fuel]; [lia|]. cbn [insert_root].
    change (wp (insert (S fuel) (root_ m) k v ≫= λ new_root, '(ok, _) ← compare_exchange_weak Root (root_ m) new_root;
      if ok : bool then mret tt else insert_root fuel k v) m (λ _ m', lf_rep m' (<[k := v]> f))).
    pose proof Ht as [Hs Hsort Hnd Had Hm]. apply wp_tree_bind. eapply wp_tree_mono.
    { apply (insert_alone (S fuel) _ t); [done..| |by rewrite (lf_size m t f)].
      intros Hx. specialize (Had _ Hx). lia. }
    intros p m' (t' & xs1 & xs2 & Hs' & Hi & Hi' & Hb & Ha & Hads & He & Hnx).
    rewrite <- (ef_root _ _ _ He). unfold wp. cbn. rewrite bool_decide_eq_true_2 by done. cbn.
    exists t'. split; cbn; [done| | | |].
    + rewrite Hi'. rewrite Hi in Hsort. apply StronglySorted_app in Hsort as (_ & ? & ?). by apply sorted_split.
    + rewrite Hads. apply NoDup_cons. split; [|done]. intros Hx. specialize (Had _ Hx). lia.
    + intros a. rewrite Hads. intros [->|Hx]%elem_of_cons; [done|]. specialize (Had _ Hx). lia.
    + rewrite Hi'. apply walk_join; [by eapply lf_absent|by rewrite <- Hi].
Qed.

Lemma del_alone fuel m f k :
  lf_rep m f → (size f + 1 < fuel)%nat → wp (del fuel k) m (λ _ m', lf_rep m' (delete k f)).
Proof.
  intros [t Ht] Hf. destruct fuel as [|fuel]; [lia|]. pose proof Ht as [Hs Hsort Hnd Had Hm].
  change (wp (match root_ m with None => mret tt | Some _ => new_root ← remove (S fuel) (root_ m) k;
    '(ok, _) ← compare_exchange_weak Root (root_ m) new_root; if ok : bool then mret tt else del fuel k end) m
    (λ _ m', lf_rep m' (delete k f))).
  destruct (root_ m) as [a|] eqn:Er; cycle 1.
  { destruct t as [|? ? ? ? ?]; [|by destruct Hs]. exists Leaf.
    assert (f = ∅) as -> by (cbn in Hm; by apply map_to_list_empty_iff, Permutation_nil_r).
    rewrite delete_empty. split; [by rewrite Er|done..]. }
  apply wp_tree_bind. eapply wp_tree_mono; [apply (remove_alone (S fuel) _ t); [done..|by rewrite (lf_size m t f)]|].
  intros p m' (t' & Hs' & Hnd' & Hsub & He & Hcase).
  rewrite <- Er, <- (ef_root _ _ _ He). unfold wp. cbn. rewrite bool_decide_eq_true_2 by done. cbn.
  exists t'. split; cbn; [done| |done| |].
  - destruct Hcase as [(v & xs1 & xs2 & Hi & ->)|[_ ->]]; [|done]. rewrite Hi in Hsort. by eapply sorted_app_inv.
  - intros b Hb. pose proof (ef_next _ _ _ He). specialize (Had b (Hsub b Hb)). lia.
  - destruct Hcase as [(v & xs1 & xs2 & Hi & ->)|[Habs ->]].
    + rewrite Hi in Hm. by apply walk_split in Hm as [_ ?].
    + by rewrite delete_id by (by eapply lf_absent).
Qed.

Lemma get_alone fuel m f k : lf_rep m f → (size f < fuel)%nat → wp (get_ fuel k) m (λ v m', m' = m ∧ v = f !! k).
Proof.
  intros [t Ht] Hf. unfold get_. eapply wp_search; [exact Ht|lia|]. intros [a|] Hr.
  - pose proof (λ w, lf_set_value m t f k a w Ht Hr) as Hset. destruct Hr as (n & _ & _ & Hn & _).
    apply (wp_load_value a n); [done|]. destruct (Hset (value n)) as (n' & Hn' & Hk & _). by simplify_eq.
  - split; [done|]. symmetry. by eapply lf_absent.
Qed.

Lemma exists_alone fuel m f k :
  lf_rep m f → (size f < fuel)%nat → wp (exists_ fuel k) m (λ b m', m' = m ∧ b = bool_decide (is_Some (f !! k))).
Proof.
  intros [t Ht] Hf. unfold exists_. eapply wp_search; [exact Ht|lia|]. intros r Hr. split; [done|].
  apply bool_decide_ext. destruct r as [a|].
  - destruct Hr as (n & xs1 & xs2 & _ & _ & Hi & _). split; intros _; [|by eexists].
    exists (value n). apply (lf_elem m t f k _ Ht). rewrite Hi. set_solver.
  - rewrite (lf_absent m t f k Ht Hr). split; by intros [].
Qed.
End Map.

(** ** Properties *)
Section Properties.
Context {K V : Type} `{Countable K} `{!EqDecision V} `{!KeyOrder K} `{!KeyOrderLaws K}.
Implicit Types (m : memory K V) (f : gmap K V).

Lemma map_run_size (c : tree_call K V) f : (size (map_run c f).2 ≤ S (size f))%nat.
Proof.
  destruct c as [k v|k|k|k]; cbn; [|lia| |lia].
  - destruct (f !! k) as [w|] eqn:E; [rewrite map_size_insert_Some by (by eexists); lia|].
    by rewrite map_size_insert_None.
  - destruct (f !! k) as [w|] eqn:E; [rewrite map_size_delete_Some by (by eexists); lia|].
    rewrite delete_id by done. lia.
Qed.

Lemma call_alone fuel c m f :
  lf_rep m f → (size f + 1 < fuel)%nat →
  wp (lf_call fuel c) m (λ r m', r = (map_run c f).1 ∧ lf_rep m' (map_run c f).2).
Proof.
  intros Hr Hf. destruct c as [k v|k|k|k]; cbv beta iota delta [lf_call]; apply wp_tree_bind.
  - eapply wp_tree_mono; [by apply set_alone|]. by intros [] m' Hm.
  - eapply wp_tree_mono; [apply (get_alone fuel m f); [done|lia]|]. by intros v m' [-> ->].
  - eapply wp_tree_mono; [by apply del_alone|]. by intros [] m' Hm.
  - eapply wp_tree_mono; [apply (exists_alone fuel m f); [done|lia]|]. by intros b m' [-> ->].
Qed.

Lemma calls_alone fuel cs m f :
  lf_rep m f → (size f + length cs + 1 < fuel)%nat →
  wp (lf_calls fuel cs) m (λ rs m', rs = (map_runs cs f).1 ∧ lf_rep m' (map_runs cs f).2).
Proof.
  revert m f. induction cs as [|c cs IH]; intros m f Hr Hf; [by split|]. cbn [lf_calls length] in *.
  apply wp_tree_bind. eapply wp_tree_mono; [apply call_alone; [done|lia]|]. intros r m1 [-> Hr1].
  pose proof (map_run_size c f) as Hsz. apply wp_tree_bind. eapply wp_tree_mono; [apply (IH m1); [done|lia]|].
  intros rs m2 [-> Hr2]. cbn. destruct (map_run c f) as [r f1]; cbn in *. by destruct (map_runs cs f1).
Qed.

(** C23: One thread alone, on a machine whose compare-and-swaps do not fail spuriously,
    uses the lock-free tree as a finite map: every sequence of [set], [get], [del] and
    [exists] returns, with the replies of the map, whatever the tree's balance. *)
Theorem lockfree_refines_map fuel cs m f :
  lf_rep m f → (size f + length cs + 1 < fuel)%nat →
  ∃ m', run (lf_calls fuel cs) m = Done (map_runs cs f).1 m' ∧ lf_rep m' (map_runs cs f).2.
Proof.
  intros Hr Hf. destruct (wp_Done _ _ _ (calls_alone fuel cs m f Hr Hf)) as (rs & m' & Hrun & -> & Hr').
  by exists m'.
Qed.

End Properties.

(** The depths of the stored nodes, by the walk: key, stored depth, true height. *)
Fixpoint depths (fuel : nat) (m : memory Z Z) (p : option loc) : list (Z * Z * Z) * Z :=
  match fuel, p with
  | S fuel, Some a =>
      match nodes m !! a with
      | Some n =>
          let '(xs, hl) := depths fuel m (left n) in let '(ys, hr) := depths fuel m (right n) in
          (xs ++ (key n, depth n, 1 + Z.max hl hr) :: ys, 1 + Z.max hl hr)
      | None => ([], 0)
      end
  | _, _ => ([], 0)
  end.

(** [remove] fixes the node it overwrites and its ancestors, not the nodes above the
    successor it unlinks: here 60 is left with no left child and a right one of height 2. *)
Lemma del_leaves_imbalance :
  match run (lf_calls 20 (((λ k, CallSet k k) <$> [40; 20; 60; 10; 50; 70; 80]) ++ [CallDel 40])) tree_new with
  | Done _ m => (depths 20 m (root_ m)).1 = [(10, 1, 1); (20, 2, 2); (50, 4, 4); (60, 3, 3); (70, 2, 2); (80, 1, 1)]
  | _ => False
  end.
Proof. by vm_compute. Qed.

(** *** Witnesses *)
Lemma lockfree_refines_map_witness :
  lf_rep (K := Z) (V := Z) tree_new ∅ ∧ (size (∅ : gmap Z Z) + 3 + 1 < 5)%nat ∧
  ∃ m', run (lf_calls 5 [CallSet 1 10; CallGet 1; CallExists 2]) tree_new =
    Done [Void; Value (Some 10); Found false] m' ∧ lf_rep m' {[1 := 10]}.
Proof.
  assert (lf_rep (K := Z) (V := Z) tree_new ∅) as Hr by apply lf_rep_new.
  assert (size (∅ : gmap Z Z) + 3 + 1 < 5)%nat as Hf by (vm_compute; lia). split; [done|]. split; [done|].
  destruct (lockfree_refines_map 5 [CallSet 1 10; CallGet 1; CallExists 2] tree_new ∅ Hr Hf) as (m' & Hrun & Hm).
  assert (map_runs [CallSet 1 10; CallGet 1; CallExists 2] ∅ =
    ([Void; Value (Some 10); Found false], {[1 := 10]} : gmap Z Z)) as E by by vm_compute.
  rewrite E in Hrun, Hm. by exists m'.
Defined.
