(* ===== verification/LockFreeClients.v ===== *)
(** Threads side by side in the lock-free AVL tree (src/dsa/avl_lockfree.hpp) under sequential
    consistency: clients that neither insert nor delete are refined by an atomic map, and
    two executions that lose a key once a rotation takes part.  [LockFreeCoherent] is about
    the same clients on a weaker memory. *)

From stdpp Require Import sorting.
From S2P Require Import Prelude AVL LockFreeAVL.

(** ** Clients side by side that insert and delete nothing *)
Section Concurrent.
Context {K V : Type} `{Countable K} `{!EqDecision V} `{!KeyOrder K} `{!KeyOrderLaws K}.
Implicit Types (m : memory K V) (t : tree K V) (s sk : tree K unit) (f : gmap K V).

(** The atomic map: a step performs the next call of a client at once. *)
Inductive atomic_step :
    list (list (tree_call K V) * list (tree_reply V)) * gmap K V →
    list (list (tree_call K V) * list (tree_reply V)) * gmap K V → Prop :=
| atomic_call as1 c cs rs as2 f :
    atomic_step (as1 ++ (c :: cs, rs) :: as2, f)
      (as1 ++ (cs, rs ++ [(map_run c f).1]) :: as2, (map_run c f).2).

(** The calls that leave the nodes and the pointers alone. *)
Definition quiet f (c : tree_call K V) : Prop :=
  match c with
  | CallSet k _ => is_Some (f !! k)
  | CallGet _ | CallExists _ => True
  | CallDel _ => False
  end.

(** What does not change: the tree without its values. *)
Fixpoint skel t : tree K unit :=
  match t with Leaf => Leaf | Br a k _ l r => Br a k tt (skel l) (skel r) end.
Definition ptr s : option loc := match s with Leaf => None | Br a _ _ _ _ => Some a end.
Fixpoint look s (k : K) : option loc :=
  match s with
  | Leaf => None
  | Br a k' _ l r => if decide (k = k') then Some a else if key_ltb k k' then look l k else look r k
  end.
Fixpoint sub s sk : Prop :=
  s = sk ∨ match sk with Leaf => False | Br _ _ _ l r => sub s l ∨ sub s r end.

Lemma sub_refl s : sub s s.
Proof. destruct s; by left. Qed.

Lemma sub_child a k u l r sk : sub (Br a k u l r) sk → sub l sk ∧ sub r sk.
Proof.
  induction sk as [|b k' u' l' IHl r' IHr]; [by intros [|]|]. cbn. intros [[= -> -> -> -> ->]|[Hs|Hs]].
  - split; right; [left|right]; apply sub_refl.
  - destruct (IHl Hs). split; right; by left.
  - destruct (IHr Hs). split; right; by right.
Qed.

Lemma ptr_shape ns p t : shape ns p t → p = ptr (skel t).
Proof. destruct t; cbn; [done|]. by intros [-> _]. Qed.

Lemma sub_node ns p t a k u l r :
  shape ns p t → sub (Br a k u l r) (skel t) →
  ∃ n, ns !! a = Some n ∧ key n = k ∧ left n = ptr l ∧ right n = ptr r.
Proof.
  revert p. induction t as [|b k' v' l' IHl r' IHr]; intros p; [by intros _ [|]|].
  intros (-> & n & Hn & Hk & Hv & Hl & Hr). cbn. intros [[= -> -> _ -> ->]|[Hs|Hs]].
  - exists n. split_and!; [done|done|by eapply ptr_shape..].
  - by apply (IHl (left n)).
  - by apply (IHr (right n)).
Qed.

Section Fixed.
Context (sk : tree K unit).

Definition inv m f : Prop := ∃ t, lf_tree m t f ∧ skel t = sk.

(** A program that only reads, whatever the others write meanwhile. *)
Fixpoint silent {A} (p : prog K V A) (Q : A → Prop) : Prop :=
  match p with
  | Ret a => Q a
  | Act e k => ∀ weak m f, inv m f → ∃ r, exec weak e m = Some (r, m) ∧ silent (k r) Q
  | Crash | OutOfFuel => False
  end.

Lemma silent_alone {A} (p : prog K V A) Q m f : silent p Q → inv m f → wp p m (λ a m', m' = m ∧ Q a).
Proof.
  intros Hp Hi. induction p as [a|e k IH| |]; [done| |done|done].
  destruct (Hp false m f Hi) as (r & He & Hr). specialize (IH r Hr). unfold wp in *. cbn. by rewrite He.
Qed.

Lemma search_from_silent fuel s k :
  sub s sk → (length (inorder s) < fuel)%nat → silent (search_from fuel (ptr s) k) (λ r, r = look s k).
Proof.
  revert s. induction fuel as [|fuel IH]; intros s Hs Hf; [lia|].
  destruct s as [|a k' u l r]; [done|]. cbn [search_from ptr].
  assert (∀ m f, inv m f → ∃ n, nodes m !! a = Some n ∧ key n = k' ∧ left n = ptr l ∧ right n = ptr r) as Hnode.
  { intros m f (t & Ht & Et). eapply sub_node; [apply Ht|by rewrite Et]. }
  assert (length (inorder (Br a k' u l r)) = S (length (inorder l) + length (inorder r))) as Hlen
    by (cbn; rewrite length_app; cbn; lia).
  destruct (sub_child a k' u l r sk Hs) as [Hl Hr].
  intros weak m f (n & Hn & Hk & _)%Hnode. exists k'. cbn. rewrite Hn. cbn. split; [by rewrite Hk|].
  cbn [look]. case_decide; [done|]. intros weak1 m1 f1 (n1 & Hn1 & Hk1 & _)%Hnode. exists k'. cbn.
  rewrite Hn1. cbn. split; [by rewrite Hk1|]. intros weak2 m2 f2 (n2 & Hn2 & Hk2 & Hl2 & Hr2)%Hnode.
  exists (ptr (if key_ltb k k' then l else r)). cbn. rewrite Hn2. cbn.
  rewrite <- Hk in *. destruct (key_ltb k (key n)); cbn; rewrite ?Hl2, ?Hr2; (split; [done|]); apply IH; auto; lia.
Qed.

(** A program that performs the calls [cs], the replies so far being [rs]: each action
    leaves the map alone or performs the next call.  It runs out of fuel only in the retry
    loop of a [set]. *)
Fixpoint serves (p : prog K V (list (tree_reply V))) (cs : list (tree_call K V)) (rs : list (tree_reply V)) : Prop :=
  match p with
  | Ret rs' => cs = [] ∧ rs' = rs
  | Act e k => ∀ weak m f, inv m f → ∃ r m', exec weak e m = Some (r, m') ∧
      ((inv m' f ∧ serves (k r) cs rs) ∨
       ∃ c cs', cs = c :: cs' ∧ inv m' (map_run c f).2 ∧ serves (k r) cs' (rs ++ [(map_run c f).1]))
  | Crash => False
  | OutOfFuel => ∃ k v cs', cs = CallSet k v :: cs'
  end.

Lemma serves_silent {A} (p : prog K V A) Q g cs rs :
  silent p Q → (∀ a, Q a → serves (g a) cs rs) → serves (p ≫= g) cs rs.
Proof.
  intros Hp Hg. induction p as [a|e k IH| |]; [by apply Hg| |done|done].
  intros weak m f Hi. destruct (Hp weak m f Hi) as (r & He & Hr). exists r, m. split; [done|]. left.
  split; [done|]. by apply IH.
Qed.

Lemma serves_assoc {A B} (p : prog K V A) (f : A → prog K V B) g cs rs :
  serves (p ≫= λ a, f a ≫= g) cs rs → serves ((p ≫= f) ≫= g) cs rs.
Proof.
  revert cs rs. induction p as [a|e k IH| |]; intros cs rs; [done| |done|done].
  intros Hp weak m f' Hi. destruct (Hp weak m f' Hi) as (r & m' & He & Hr). exists r, m'. split; [done|].
  destruct Hr as [[Hi' Hr]|(c & cs' & Hc & Hi' & Hr)]; [left|right; exists c, cs'].
  - split; [done|]. by apply (IH r).
  - split_and!; [done|done|]. by apply (IH r).
Qed.

Lemma serves_ret p cs rs : serves (p ≫= Ret) cs rs → serves p cs rs.
Proof.
  revert cs rs. induction p as [a|e k IH| |]; intros cs rs; [done| |done|done].
  intros Hp weak m f' Hi. destruct (Hp weak m f' Hi) as (r & m' & He & Hr). exists r, m'. split; [done|].
  destruct Hr as [[Hi' Hr]|(c & cs' & Hc & Hi' & Hr)]; [left|right; exists c, cs'].
  - split; [done|]. by apply (IH r).
  - split_and!; [done|done|]. by apply (IH r).
Qed.

Lemma skel_size t : length (inorder (skel t)) = length (inorder t).
Proof. induction t as [|a k v l IHl r IHr]; cbn; [done|]. rewrite !length_app. cbn. by rewrite IHl, IHr. Qed.

Lemma look_found m t f k : lf_tree m t f → skel t = sk → found (nodes m) (root_ m) t k (look sk k).
Proof.
  intros Ht Et. assert (inv m f) as Hi by by exists t.
  pose proof (search_from_spec (S (length (inorder t))) (root_ m) t m k (lt_shape _ _ _ Ht)
    (lt_sorted _ _ _ Ht) (lt_nodup _ _ _ Ht) ltac:(lia)) as Hw.
  pose proof (search_from_silent (S (length (inorder t))) sk k (sub_refl sk)) as Hs.
  assert (length (inorder sk) < S (length (inorder t)))%nat as Hlt by (rewrite <- Et, skel_size; lia).
  specialize (Hs Hlt). apply (silent_alone _ _ m f) in Hs; [|done]. rewrite <- Et, <- (ptr_shape _ _ _ (lt_shape _ _ _ Ht)) in Hs.
  unfold wp in *. destruct (run _ m) as [r m'| | | | |]; try done. destruct Hw as [_ Hw], Hs as [_ ->].
  by rewrite <- Et.
Qed.

Lemma skel_unique ns ns' p t t' :
  shape ns p t → shape ns' p t' →
  (∀ a n, ns !! a = Some n → ∃ n', ns' !! a = Some n' ∧ key n' = key n ∧ left n' = left n ∧ right n' = right n) →
  skel t' = skel t.
Proof.
  intros Hs Hs' Hsame. revert p t' Hs Hs'. induction t as [|a k v l IHl r IHr]; intros p t'.
  { cbn. intros ->. by destruct t'; [|intros [? _]]. }
  intros (-> & n & Hn & Hk & Hv & Hl & Hr). destruct t' as [|a' k' v' l' r']; [done|].
  intros ([= <-] & n' & Hn' & Hk' & Hv' & Hl' & Hr'). destruct (Hsame a n Hn) as (n1 & Hn1 & Ek & El & Er).
  simplify_eq. cbn. rewrite El in Hl'. rewrite Er in Hr'.
  by rewrite Ek, (IHl _ _ Hl Hl'), (IHr _ _ Hr Hr').
Qed.

Lemma look_some m f k a :
  inv m f → look sk k = Some a → ∃ n, nodes m !! a = Some n ∧ f !! k = Some (value n) ∧
    ∀ v, inv (write a (set_value v n) m) (<[k := v]> f).
Proof.
  intros (t & Ht & Et) Hl. pose proof (look_found m t f k Ht Et) as Hf. rewrite Hl in Hf.
  pose proof Hf as (n & _ & _ & Hn & _). exists n. split; [done|].
  destruct (lf_set_value m t f k a (value n) Ht Hf) as (n0 & Hn0 & Hk & _). simplify_eq. split; [done|].
  intros v. destruct (lf_set_value m t f k a v Ht Hf) as (n' & Hn' & _ & t' & Ht' & _). simplify_eq.
  exists t'. split; [done|]. rewrite <- Et. eapply skel_unique; [apply Ht|apply Ht'|]. intros b nb Hb. cbn.
  destruct (decide (a = b)) as [<-|Hab]; [|exists nb; by rewrite lookup_insert_ne].
  simplify_eq. eexists. by rewrite lookup_insert_eq.
Qed.

Lemma look_none m f k : inv m f → look sk k = None → f !! k = None.
Proof.
  intros (t & Ht & Et) Hl. pose proof (look_found m t f k Ht Et) as Hf. rewrite Hl in Hf. by eapply lf_absent.
Qed.

Lemma inv_root m f : inv m f → root_ m = ptr sk.
Proof. intros (t & Ht & <-). apply (ptr_shape (nodes m)). apply Ht. Qed.

(** ** Each call performs itself once *)
Context (fuel : nat) (enough : (length (inorder sk) < fuel)%nat).

Lemma search_serves {A} k (g : option loc → prog K V A) h cs rs :
  serves (g (look sk k) ≫= h) cs rs → serves ((search fuel k ≫= g) ≫= h) cs rs.
Proof.
  intros Hg. apply serves_assoc. intros weak m f Hi. exists (root_ m), m. split; [done|]. left. split; [done|].
  rewrite (inv_root m f Hi). eapply serves_silent; [by apply search_from_silent, enough; apply sub_refl|].
  by intros r ->.
Qed.

(** A search that performs the call when it reads the root. *)
Lemma search_performs {A} k c cs rs (g : option loc → prog K V A) h :
  (∀ m f, inv m f → inv m (map_run c f).2 ∧ serves (g (look sk k) ≫= h) cs (rs ++ [(map_run c f).1])) →
  serves ((search fuel k ≫= g) ≫= h) (c :: cs) rs.
Proof.
  intros Hg. apply serves_assoc. intros weak m f Hi. exists (root_ m), m. split; [done|]. right. exists c, cs.
  destruct (Hg m f Hi) as [Hi' Hr]. split_and!; [done|done|]. rewrite (inv_root m f Hi).
  eapply serves_silent; [by apply search_from_silent, enough; apply sub_refl|]. by intros r ->.
Qed.

Lemma value_loop_serves n k a v e cs rs h :
  look sk k = Some a → serves (h tt) cs (rs ++ [Void]) →
  serves (value_loop n a e v ≫= h) (CallSet k v :: cs) rs.
Proof.
  intros Hl Hh. revert e. induction n as [|n IH]; intros e; [by eexists _, _, _|].
  intros weak m f Hi. destruct (look_some m f k a Hi Hl) as (nd & Hnd & Hk & Hset). cbn. rewrite Hnd. cbn.
  destruct (_ && _); eexists _, _; (split; [done|]).
  - right. exists (CallSet k v), cs. split_and!; [done|apply Hset|done].
  - left. split; [done|]. apply IH.
Qed.

Lemma call_serves m0 f0 c cs rs h :
  inv m0 f0 → quiet f0 c → (∀ r, serves (h r) cs (rs ++ [r])) → serves (lf_call fuel c ≫= h) (c :: cs) rs.
Proof.
  intros Hi0 Hq Hh. destruct c as [k v|k|k|k]; cbv beta iota delta [lf_call]; [| |done|].
  - unfold set. apply serves_assoc, search_serves. destruct (look sk k) as [a|] eqn:El; cycle 1.
    { apply (look_none m0 f0) in El; [|done]. cbn in Hq. rewrite El in Hq. by destruct Hq. }
    intros weak m f Hi. destruct (look_some m f k a Hi El) as (n & Hn & _). exists (value n), m. cbn. rewrite Hn.
    split; [done|]. left. split; [done|]. by apply value_loop_serves.
  - unfold get_. apply serves_assoc. destruct (look sk k) as [a|] eqn:El.
    + apply search_serves. rewrite El. intros weak m f Hi. destruct (look_some m f k a Hi El) as (n & Hn & Hk & _).
      exists (value n), m. cbn. rewrite Hn. split; [done|]. right. exists (CallGet k), cs. cbn. rewrite Hk. by split_and!.
    + apply search_performs. intros m f Hi. split; [done|]. rewrite El. cbn. rewrite (look_none m f k) by done. apply Hh.
  - unfold exists_. apply serves_assoc, search_performs. intros m f Hi. split; [done|]. cbn.
    rewrite (bool_decide_ext (is_Some (f !! k)) (is_Some (look sk k))); [apply Hh|].
    destruct (look sk k) as [a|] eqn:El.
    + destruct (look_some m f k a Hi El) as (n & _ & -> & _). split; intros _; by eexists.
    + rewrite (look_none m f k) by done. split; by intros [].
Qed.

Lemma calls_serve m0 f0 cs rs h :
  inv m0 f0 → Forall (quiet f0) cs → (∀ rs', h rs' = Ret (rs ++ rs')) → serves (lf_calls fuel cs ≫= h) cs rs.
Proof.
  intros Hi Hq. revert rs h. induction Hq as [|c cs Hc Hcs IH]; intros rs h Hh.
  { cbn. rewrite Hh. by rewrite app_nil_r. }
  cbn. apply serves_assoc. eapply call_serves; [done|done|]. intros r. apply serves_assoc. apply IH.
  intros rs'. cbn. by rewrite Hh, <- app_assoc.
Qed.

(** ** The simulation *)
Definition tracks (p : prog K V (list (tree_reply V))) (a : list (tree_call K V) * list (tree_reply V)) : Prop :=
  serves p a.1 a.2.

Lemma lf_step_tracks ps m ps' m' ats f :
  lf_step (ps, m) (ps', m') → Forall2 tracks ps ats → inv m f →
  ∃ ats' f', rtc atomic_step (ats, f) (ats', f') ∧ Forall2 tracks ps' ats' ∧ inv m' f'.
Proof.
  inversion 1 as [ps1 e k ps2 ? weak r ? He]. subst. intros Hall Hi.
  apply Forall2_app_inv_l in Hall as (as1 & as2' & H1 & H2 & ->).
  apply Forall2_cons_inv_l in H2 as ([cs rs] & as2 & Ht & H2 & ->).
  destruct (Ht weak m f Hi) as (r' & m1 & He' & Hcase). rewrite He in He'. simplify_eq.
  destruct Hcase as [[Hi' Hs]|(c & cs' & Hc & Hi' & Hs)].
  - exists (as1 ++ (cs, rs) :: as2), f. split; [done|]. split; [|done]. apply Forall2_app; [done|]. by constructor.
  - cbn in Hc. subst cs. eexists _, _. split; [apply rtc_once, atomic_call|]. split; [|done].
    apply Forall2_app; [done|]. by constructor.
Qed.

Lemma lf_steps_track c c' ats f :
  rtc lf_step c c' → Forall2 tracks c.1 ats → inv c.2 f →
  ∃ ats' f', rtc atomic_step (ats, f) (ats', f') ∧ Forall2 tracks c'.1 ats' ∧ inv c'.2 f'.
Proof.
  intros Hr. revert ats f. induction Hr as [c|[ps m] [ps1 m1] c' Hs Hr IH]; intros ats f Hall Hi.
  { by exists ats, f. }
  destruct (lf_step_tracks ps m ps1 m1 ats f Hs Hall Hi) as (ats1 & f1 & Ha & Hall1 & Hi1).
  destruct (IH ats1 f1 Hall1 Hi1) as (ats2 & f2 & Ha2 & ? & ?). exists ats2, f2. split; [by etrans|done].
Qed.
End Fixed.
End Concurrent.

(** ** Properties *)
Section Properties.
Context {K V : Type} `{Countable K} `{!EqDecision V} `{!KeyOrder K} `{!KeyOrderLaws K}.
Implicit Types (m : memory K V) (f : gmap K V).

(** Under sequential consistency - a step of a thread reads and writes one shared memory;
    the source's acquire and release orders allow more, as two threads that each set one
    key and then both miss the other's value - threads side by side that look up any key
    and set keys that are present cannot tell the lock-free tree from an atomic map,
    whatever the interleaving and however often compare-and-swaps fail spuriously: every
    execution is one of the atomic map, with the same replies; no thread crashes, and none
    but a [set] can be kept retrying. *)
Theorem quiet_clients_atomic fuel css m f ps m' :
  lf_rep m f → (size f < fuel)%nat → Forall (Forall (quiet f)) css →
  rtc lf_step (lf_calls fuel <$> css, m) (ps, m') →
  ∃ ats f', rtc atomic_step ((λ cs, (cs, [])) <$> css, f) (ats, f') ∧ lf_rep m' f' ∧
    Forall2 (λ p '(cs, rs),
      match p with
      | Ret rs' => cs = [] ∧ rs' = rs
      | Act _ _ => True
      | Crash => False
      | OutOfFuel => ∃ k v cs', cs = CallSet k v :: cs'
      end) ps ats.
Proof.
  intros [t Ht] Hf Hq Hsteps. assert (inv (skel t) m f) as Hi by by exists t.
  edestruct (lf_steps_track (skel t) _ _ ((λ cs, (cs, [])) <$> css) f Hsteps) as (ats & f' & Ha & Hall & Hi').
  - cbn. apply Forall2_fmap, Forall_Forall2_diag. eapply Forall_impl; [exact Hq|]. intros cs Hcs.
    unfold tracks. cbn. apply serves_ret.
    eapply calls_serve; [by rewrite skel_size, (lf_size m t f)|exact Hi|done|done].
  - done.
  - exists ats, f'. split; [done|]. split; [destruct Hi' as (t' & Ht' & _); by exists t'|].
    eapply Forall2_impl; [exact Hall|]. intros p [cs rs]. unfold tracks. cbn. by destruct p.
Qed.
End Properties.

Lemma lf_turn_step {K V A} `{!EqDecision V} turn (c : list (prog K V A) * memory K V) :
  rtc lf_step c (lf_turn turn c).
Proof.
  destruct c as [ps m]. unfold lf_turn. cbn. destruct (ps !! turn.1) as [[a|e k| |]|] eqn:E; try done.
  destruct (exec turn.2 e m) as [[r m']|] eqn:Ee; [|done].
  apply rtc_once. rewrite <- (take_drop_middle ps turn.1 (Act e k)) at 1 by done.
  rewrite insert_take_drop by (by eapply lookup_lt_Some). by eapply lf_act.
Qed.

Lemma lf_turns_steps {K V A} `{!EqDecision V} sch (c : list (prog K V A) * memory K V) :
  rtc lf_step c (lf_turns sch c).
Proof.
  revert c. induction sch as [|turn sch IH]; intros c; [done|]. cbn. etrans; [apply lf_turn_step|apply IH].
Qed.

(** *** What rotations break *)
Definition four_keys : list (tree_call Z Z) := (λ k, CallSet k k) <$> [100; 10; 200; 20].

Definition four_keys_tree : memory Z Z := Eval vm_compute in
  match run (lf_calls 9 four_keys) tree_new with Done _ m => m | _ => tree_new end.

Lemma turns_return (sch : list (nat * bool)) (ps : list (prog Z Z (list (tree_reply Z)))) m rss :
  (lf_turns sch (ps, m)).1 = Ret <$> rss →
  rtc lf_step (ps, m) (Ret <$> rss, (lf_turns sch (ps, m)).2).
Proof. intros <-. rewrite <- surjective_pairing. apply lf_turns_steps. Qed.

(** The second thread inserts 15 between the first thread's reading of the inner subtree
    and its rotation. *)
Definition rotation_schedule : list (nat * bool) :=
  (λ i, (i, false)) <$> replicate 46 0%nat ++ replicate 33 1%nat ++ [0%nat] ++ replicate 20 1%nat ++ replicate 29 0%nat.

(** Two threads that set different keys can lose one: a rotation in the one overwrites
    the pointer under which the other has put its node.  Both calls return, the key is gone. *)
Theorem rotation_loses_set :
  ∃ m0 m : memory Z Z,
    run (lf_calls 9 four_keys) tree_new = Done [Void; Void; Void; Void] m0 ∧
    rtc lf_step ([lf_calls 9 [CallSet 30 30]; lf_calls 9 [CallSet 15 15]], m0) ([Ret [Void]; Ret [Void]], m) ∧
    run (get_ 9 15) m = Done None m.
Proof.
  eexists four_keys_tree, _. split; [by vm_compute|]. split.
  - apply (turns_return rotation_schedule _ _ [[Void]; [Void]]). by vm_compute.
  - by vm_compute.
Qed.

(** A spurious failure of a compare-and-swap is enough, with a single thread: the
    insertion is retried from a node that a rotation has moved down, and the nodes above
    it are dropped. *)
Definition spurious_schedule : list (nat * bool) :=
  (λ weak, (0%nat, weak)) <$> replicate 60 false ++ [true] ++ replicate 28 false.

Lemma spurious_failure_loses_key :
  ∃ m0 m : memory Z Z,
    run (lf_calls 9 four_keys) tree_new = Done [Void; Void; Void; Void] m0 ∧
    run (get_ 9 20) m0 = Done (Some 20) m0 ∧
    rtc lf_step ([lf_calls 9 [CallSet 30 30]], m0) ([Ret [Void]], m) ∧
    run (get_ 9 20) m = Done None m.
Proof.
  eexists four_keys_tree, _. split; [by vm_compute|]. split; [by vm_compute|]. split.
  - apply (turns_return spurious_schedule _ _ [[Void]]). by vm_compute.
  - by vm_compute.
Qed.

(** *** Witnesses *)
Lemma one_node_rep :
  lf_rep (K := Z) (V := Z) (mkMemory (Some 1%positive) {[1%positive := node_new 1 10]} 2%positive) {[1 := 10]}.
Proof.
  exists (Br 1%positive 1 10 Leaf Leaf). split; cbn.
  - split; [done|]. eexists. by split; [apply lookup_insert_eq|].
  - repeat constructor.
  - apply NoDup_singleton.
  - intros a ->%list_elem_of_singleton. lia.
  - by rewrite map_to_list_singleton.
Qed.

Definition one_node_tree : memory Z Z :=
  mkMemory (Some 1%positive) {[1%positive := node_new 1 10]} 2%positive.
Definition two_clients : list (list (tree_call Z Z)) := [[CallSet 1 11]; [CallGet 1; CallGet 2]].
Definition one_by_one : list (nat * bool) := replicate 20 (0%nat, false) ++ replicate 20 (1%nat, true).

Lemma quiet_clients_atomic_witness :
  Forall (Forall (quiet {[1 := 10]})) two_clients ∧
  ∃ f', rtc atomic_step ((λ cs, (cs, [])) <$> two_clients, {[1 := 10]})
          ([([], [Void]); ([], [Value (Some 11); Value None])], f') ∧
    lf_rep (lf_turns one_by_one (lf_calls 3 <$> two_clients, one_node_tree)).2 f'.
Proof.
  assert (Forall (Forall (quiet ({[1 := 10]} : gmap Z Z))) two_clients) as Hq.
  { repeat constructor. by exists 10. }
  assert (rtc lf_step (lf_calls 3 <$> two_clients, one_node_tree)
    (Ret <$> [[Void]; [Value (Some 11); Value None]], (lf_turns one_by_one (lf_calls 3 <$> two_clients, one_node_tree)).2))
    as Hsteps by (apply turns_return; by vm_compute).
  assert (size ({[1%Z := 10%Z]} : gmap Z Z) < 3)%nat as Hf by (vm_compute; lia).
  split; [done|].
  destruct (quiet_clients_atomic 3 two_clients one_node_tree {[1 := 10]} _ _ one_node_rep Hf Hq Hsteps)
    as (ats & f' & Ha & Hr & Hall).
  exists f'. split; [|done]. cbn [fmap list_fmap] in Hall.
  apply Forall2_cons_inv_l in Hall as ([cs1 rs1] & ats1 & [-> <-] & Hall & ->).
  apply Forall2_cons_inv_l in Hall as ([cs2 rs2] & ats2 & [-> <-] & Hall & ->).
  by apply Forall2_nil_inv_l in Hall as ->.
Defined.
