(* ===== verification/LockFreeCoherent.v ===== *)
(** Threads side by side in the lock-free AVL tree (src/dsa/avl_lockfree.hpp) when memory is
    not sequentially consistent.

    The source loads the value of a node with acquire order and exchanges it with release
    order, relaxed when the exchange fails.  What these orders leave to a single atomic
    location is coherence: its values have one order, a thread never reads an older one
    than it has read or written, and a compare-and-swap that succeeds has read the newest.
    The machine here gives values just that, so that different threads can see different
    values of a node at once, and two threads that each set one key can then both miss the
    other's value; what acquire and release say about two locations together would only
    exclude executions and is not used.  A load reads a value that has been written before
    it, as in the C++ memory model without reads out of thin air.  Pointers and keys are
    read at their newest: clients that insert and delete nothing never change them, so
    that they have one value each.  The tree has been built before the threads start. *)

From stdpp Require Import sorting.
From S2P Require Import Prelude AVL LockFreeAVL LockFreeClients.

(** ** The machine *)

(** What a thread has seen: the position of the newest value it knows of each location. *)
Definition seen `{Countable L} (w : gmap L nat) (x : L) : nat := default 0%nat (w !! x).

Lemma seen_insert `{Countable L} (w : gmap L nat) x y i : seen (<[x := i]> w) y = if decide (y = x) then i else seen w y.
Proof.
  unfold seen. case_decide as Hd; [subst; by rewrite lookup_insert_eq|by rewrite lookup_insert_ne by done].
Qed.

Section Machine.
Context {K V : Type} `{!EqDecision V}.
Implicit Types (m : memory K V) (w : gmap loc nat) (e : action K V).

(** The values every node has had, the oldest first. *)
Abbreviation histories := (gmap loc (list V)).

(** The answer of an action, what its thread has seen then, and the memory it leaves: [i] is
    the value that is read, [weak] makes a compare-and-swap fail spuriously. *)
Definition coherent_exec (weak : bool) (i : nat) e w (c : memory K V * histories) :
    option (result e * gmap loc nat * (memory K V * histories)) :=
  let m := c.1 in let hist := c.2 in
  let alone {A} (o : option (A * memory K V)) : option (A * gmap loc nat * (memory K V * histories)) :=
    match o with Some (r, m') => Some (r, w, (m', hist)) | None => None end in
  let reads {A} (a : loc) (f : V → A) : option (A * gmap loc nat * (memory K V * histories)) :=
    match hist !! a ≫= (λ vs, vs !! i) with
    | Some v => if decide (seen w a ≤ i)%nat then Some (f v, <[a := i]> w, c) else None
    | None => None
    end in
  let writes {A} (a : loc) (r : A) (v : V) : option (A * gmap loc nat * (memory K V * histories)) :=
    match nodes m !! a, hist !! a with
    | Some n, Some vs => Some (r, <[a := length vs]> w, (write a (set_value v n) m, <[a := vs ++ [v]]> hist))
    | _, _ => None
    end in
  match e as e return option (result e * gmap loc nat * (memory K V * histories)) with
  | LoadValue a => reads a (λ v, v)
  | StoreValue a v => writes a tt v
  | CasValue a expected desired =>
      match nodes m !! a with
      | Some n =>
          if negb weak && bool_decide (value n = expected) then writes a (true, expected) desired
          else reads a (λ v, (false, v))
      | None => None
      end
  | Make k v =>
      match exec weak (Make k v) m with
      | Some (a, m') => Some (a, w, (m', <[a := [v]]> hist))
      | None => None
      end
  | Load p => alone (exec weak (Load p) m)
  | Cas p expected desired => alone (exec weak (Cas p expected desired) m)
  | ReadKey a => alone (exec weak (ReadKey a) m)
  | WriteKey a k => alone (exec weak (WriteKey a k) m)
  | LoadDepth a => alone (exec weak (LoadDepth a) m)
  | StoreDepth a x => alone (exec weak (StoreDepth a x) m)
  | LoadWeight a => alone (exec weak (LoadWeight a) m)
  | StoreWeight a x => alone (exec weak (StoreWeight a x) m)
  end.

(** A step is one action of one thread. *)
Inductive coherent_step {A} :
    list (prog K V A * gmap loc nat) * (memory K V * histories) →
    list (prog K V A * gmap loc nat) * (memory K V * histories) → Prop :=
| coherent_act ps1 e k w ps2 c weak i r w' c' :
    coherent_exec weak i e w c = Some (r, w', c') →
    coherent_step (ps1 ++ (Act e k, w) :: ps2, c) (ps1 ++ (k r, w') :: ps2, c').

(** The same, computed: a turn is the thread, whether its compare-and-swap fails spuriously,
    and the value a load reads. *)
Definition coherent_turn {A} (turn : nat * bool * nat) (s : list (prog K V A * gmap loc nat) * (memory K V * histories)) :
    list (prog K V A * gmap loc nat) * (memory K V * histories) :=
  match s.1 !! turn.1.1 with
  | Some (Act e k, w) =>
      match coherent_exec turn.1.2 turn.2 e w s.2 with
      | Some (r, w', c') => (<[turn.1.1 := (k r, w')]> s.1, c')
      | None => s
      end
  | _ => s
  end.
Definition coherent_turns {A} sch (s : list (prog K V A * gmap loc nat) * (memory K V * histories)) :=
  foldl (λ s turn, coherent_turn turn s) s sch.

Lemma coherent_turns_steps {A} sch (s : list (prog K V A * gmap loc nat) * (memory K V * histories)) :
  rtc coherent_step s (coherent_turns sch s).
Proof.
  revert s. induction sch as [|turn sch IH]; intros s; [done|]. cbn. etrans; [|apply IH]. clear.
  destruct s as [ps c]. unfold coherent_turn. cbn. destruct (ps !! turn.1.1) as [[[a|e k| |] w]|] eqn:E; try done.
  destruct (coherent_exec turn.1.2 turn.2 e w c) as [[[r w'] c']|] eqn:Ee; [|done].
  apply rtc_once. rewrite <- (take_drop_middle ps turn.1.1 (Act e k, w)) at 1 by done.
  rewrite insert_take_drop by (by eapply lookup_lt_Some). by eapply coherent_act.
Qed.

(** Every node has had the value it has. *)
Definition histories_of m : histories := (λ n, [value n]) <$> nodes m.
End Machine.

(** ** The coherent map *)
Section Spec.
Context {K V : Type} `{Countable K}.
Abbreviation versions := (gmap K (list V)).

(** One call at once: a [get] answers with a version of the key, none older than the client
    has seen, and a [set] adds the newest. *)
Inductive map_call : tree_call K V → gmap K nat * versions → tree_reply V → gmap K nat * versions → Prop :=
| get_version k u h vs i v :
    h !! k = Some vs → (seen u k ≤ i)%nat → vs !! i = Some v →
    map_call (CallGet k) (u, h) (Value (Some v)) (<[k := i]> u, h)
| get_absent k u h : h !! k = None → map_call (CallGet k) (u, h) (Value None) (u, h)
| exists_key k u h : map_call (CallExists k) (u, h) (Found (bool_decide (is_Some (h !! k)))) (u, h)
| set_version k v u h vs :
    h !! k = Some vs → map_call (CallSet k v) (u, h) Void (<[k := length vs]> u, <[k := vs ++ [v]]> h).

(** A client: its calls to come, its replies, and what it has seen. *)
Abbreviation client := (list (tree_call K V) * list (tree_reply V) * gmap K nat)%type.

Inductive map_step : list client * versions → list client * versions → Prop :=
| map_client as1 c cs rs u as2 h r u' h' :
    map_call c (u, h) r (u', h') →
    map_step (as1 ++ (c :: cs, rs, u) :: as2, h) (as1 ++ (cs, rs ++ [r], u') :: as2, h').

Definition versions_of (f : gmap K V) : versions := (λ v, [v]) <$> f.
Definition newest_of (h : versions) (f : gmap K V) : Prop := ∀ k, f !! k = h !! k ≫= last.
End Spec.

(** ** Every client of the tree is one of the coherent map *)
Section Coherent.
Context {K V : Type} `{Countable K} `{!EqDecision V} `{!KeyOrder K} `{!KeyOrderLaws K}.
Implicit Types (m : memory K V) (w : gmap loc nat) (u : gmap K nat) (h : gmap K (list V)) (f : gmap K V).
Implicit Types (c : memory K V * gmap loc (list V)).

Section Fixed.
Context (sk : tree K unit).

(** The node of a key has had the versions of the key. *)
Definition coherent c h : Prop :=
  ∃ f, inv sk c.1 f ∧ newest_of h f ∧ (∀ k vs, h !! k = Some vs → vs ≠ []) ∧
    ∀ k a, look sk k = Some a → c.2 !! a = h !! k.

(** The thread has seen at least what the client has. *)
Definition sees w u : Prop := ∀ k a, look sk k = Some a → (seen u k ≤ seen w a)%nat.

Lemma coherent_inv c h : coherent c h → ∃ f, inv sk c.1 f.
Proof. intros (f & Hi & _). by exists f. Qed.

(** Two keys have two nodes. *)
Lemma look_node (s : tree K unit) k a : look s k = Some a → ∃ x l r, sub (Br a k x l r) s.
Proof.
  induction s as [|b k' x l IHl r IHr]; [done|]. cbn. case_decide as Hk.
  - intros [= ->]. subst k'. exists x, l, r. by left.
  - destruct (key_ltb k k'); [intros (x' & l' & r' & Hs)%IHl|intros (x' & l' & r' & Hs)%IHr]; exists x', l', r'; right; auto.
Qed.

Lemma look_inj m f k1 k2 a : inv sk m f → look sk k1 = Some a → look sk k2 = Some a → k1 = k2.
Proof.
  intros (t & Ht & Et) (x1 & l1 & r1 & H1)%look_node (x2 & l2 & r2 & H2)%look_node. rewrite <- Et in H1, H2.
  destruct (sub_node _ _ _ _ _ _ _ _ (lt_shape _ _ _ Ht) H1) as (n1 & Hn1 & <- & _).
  destruct (sub_node _ _ _ _ _ _ _ _ (lt_shape _ _ _ Ht) H2) as (n2 & Hn2 & <- & _). congruence.
Qed.

Lemma coherent_look c h k a :
  coherent c h → look sk k = Some a →
  ∃ n vs, nodes c.1 !! a = Some n ∧ c.2 !! a = Some vs ∧ h !! k = Some vs ∧
    ∀ v, coherent (write a (set_value v n) c.1, <[a := vs ++ [v]]> c.2) (<[k := vs ++ [v]]> h).
Proof.
  intros (f & Hi & Hnew & Hne & Hc) Hl. destruct (look_some sk c.1 f k a Hi Hl) as (n & Hn & Hk & Hset).
  pose proof (Hnew k) as Hlast. rewrite Hk in Hlast. destruct (h !! k) as [vs|] eqn:Hv; [|done].
  exists n, vs. split_and!; [done|by rewrite (Hc k a Hl)|done|]. intros v. exists (<[k := v]> f). split_and!; [apply Hset| | |].
  - intros k'. destruct (decide (k' = k)) as [->|Hd].
    + rewrite !lookup_insert_eq. cbn. by rewrite last_snoc.
    + by rewrite !lookup_insert_ne by done.
  - intros k' vs' [[_ <-]|[_ Hv']]%lookup_insert_Some; [by destruct vs|by eapply Hne].
  - intros k' a' Hl'. cbn. destruct (decide (k' = k)) as [->|Hd].
    + assert (a' = a) as -> by congruence. by rewrite !lookup_insert_eq.
    + rewrite !lookup_insert_ne; [by apply Hc|done|]. intros <-. apply Hd. by eapply look_inj.
Qed.

Lemma coherent_absent c h k : coherent c h → look sk k = None → h !! k = None.
Proof.
  intros (f & Hi & Hnew & Hne & _) Hl. pose proof (Hnew k) as Hlast. rewrite (look_none sk c.1 f k Hi Hl) in Hlast.
  destruct (h !! k) as [vs|] eqn:Hv; [|done]. symmetry in Hlast. apply last_None in Hlast. by edestruct Hne.
Qed.

Lemma sees_more w u a i : sees w u → (seen w a ≤ i)%nat → sees (<[a := i]> w) u.
Proof. intros Hs Hi k a' Hl. rewrite seen_insert. specialize (Hs k a' Hl). case_decide; [subst; lia|done]. Qed.

Lemma sees_both c h w u k a i : coherent c h → sees w u → look sk k = Some a → sees (<[a := i]> w) (<[k := i]> u).
Proof.
  intros (f & Hi & _) Hs Hl k' a' Hl'. rewrite !seen_insert. destruct (decide (k' = k)) as [->|Hd].
  - assert (a' = a) as -> by congruence. by rewrite decide_True.
  - rewrite decide_False; [by apply Hs|]. intros ->. apply Hd. by eapply look_inj.
Qed.

(** ** Programs of a client *)

(** A program that performs the calls [cs], the replies so far being [rs]: each action finds
    its node, and leaves the map alone or performs the next call.  It runs out of fuel only
    in the retry loop of a [set]. *)
Fixpoint plays (p : prog K V (list (tree_reply V))) w (cs : list (tree_call K V)) (rs : list (tree_reply V)) u : Prop :=
  match p with
  | Ret rs' => cs = [] ∧ rs' = rs
  | Act e k => ∀ c h, coherent c h → is_Some (exec false e c.1) ∧
      ∀ weak i r w' c', coherent_exec weak i e w c = Some (r, w', c') →
        (coherent c' h ∧ plays (k r) w' cs rs u) ∨
        ∃ call cs' reply u' h', cs = call :: cs' ∧ map_call call (u, h) reply (u', h') ∧
          coherent c' h' ∧ plays (k r) w' cs' (rs ++ [reply]) u'
  | Crash => False
  | OutOfFuel => ∃ k v cs', cs = CallSet k v :: cs'
  end.

(** A search only reads pointers and keys. *)
Fixpoint searching {A} (p : prog K V A) : Prop :=
  match p with
  | Act (Load _) k => ∀ r, searching (k r)
  | Act (ReadKey _) k => ∀ r, searching (k r)
  | Act _ _ => False
  | _ => True
  end.

Lemma search_from_searching fuel node k : searching (search_from fuel node k).
Proof.
  revert node. induction fuel as [|fuel IH]; intros node; [done|]. destruct node as [a|]; [|done]. cbn.
  intros nk. case_decide; [done|]. intros nk'. cbn. by destruct (key_ltb k nk').
Qed.

Lemma plays_silent {A} (p : prog K V A) Q g w cs rs u :
  silent sk p Q → searching p → (∀ a, Q a → plays (g a) w cs rs u) → plays (p ≫= g) w cs rs u.
Proof.
  intros Hp Hs Hg. induction p as [a|e k IH| |]; [by apply Hg| |done|done].
  intros c h Hc. destruct (coherent_inv c h Hc) as [f Hi]. destruct c as [m hist]. cbn [fst] in Hi |- *.
  split; [destruct (Hp false m f Hi) as (r & -> & _); by eexists|]. intros weak i r w' c' Hex. left.
  destruct (Hp weak m f Hi) as (r0 & He & Hr). destruct e; try done;
    unfold coherent_exec in Hex; cbn [fst snd] in Hex; rewrite He in Hex; injection Hex as <- <- <-.
  - split; [exact Hc|]. apply IH; [exact Hr|apply Hs].
  - split; [exact Hc|]. apply IH; [exact Hr|apply Hs].
Qed.

Lemma plays_assoc {A B} (p : prog K V A) (f : A → prog K V B) g w cs rs u :
  plays (p ≫= λ a, f a ≫= g) w cs rs u → plays ((p ≫= f) ≫= g) w cs rs u.
Proof.
  revert w cs rs u. induction p as [a|e k IH| |]; intros w cs rs u; [done| |done|done].
  intros Hp c h Hc. destruct (Hp c h Hc) as [Hsome Hstep]. split; [done|]. intros weak i r w' c' Hex.
  destruct (Hstep weak i r w' c' Hex) as [[Hc' Hr]|(call & cs' & reply & u' & h' & Hcs & Hm & Hc' & Hr)].
  - left. split; [done|]. by apply (IH r).
  - right. exists call, cs', reply, u', h'. split_and!; [done..|]. by apply (IH r).
Qed.

Lemma plays_ret p w cs rs u : plays (p ≫= Ret) w cs rs u → plays p w cs rs u.
Proof.
  revert w cs rs u. induction p as [a|e k IH| |]; intros w cs rs u; [done| |done|done].
  intros Hp c h Hc. destruct (Hp c h Hc) as [Hsome Hstep]. split; [done|]. intros weak i r w' c' Hex.
  destruct (Hstep weak i r w' c' Hex) as [[Hc' Hr]|(call & cs' & reply & u' & h' & Hcs & Hm & Hc' & Hr)].
  - left. split; [done|]. by apply (IH r).
  - right. exists call, cs', reply, u', h'. split_and!; [done..|]. by apply (IH r).
Qed.

(** ** Each call performs itself once *)
Context (fuel : nat) (enough : (length (inorder sk) < fuel)%nat).

(** Reading the root changes nothing. *)
Lemma load_root weak i w c h r w' c' :
  coherent c h → coherent_exec weak i (Load Root) w c = Some (r, w', c') → r = ptr sk ∧ w' = w ∧ c' = c.
Proof.
  intros Hc Hex. destruct (coherent_inv c h Hc) as [f Hi]. destruct c as [m hist]. unfold coherent_exec in Hex. cbn in Hex.
  injection Hex as <- <- <-. by rewrite (inv_root sk m f Hi).
Qed.

Lemma search_plays {A} k (g : option loc → prog K V A) (g' : A → prog K V (list (tree_reply V))) w cs rs u :
  plays (g (look sk k) ≫= g') w cs rs u → plays ((search fuel k ≫= g) ≫= g') w cs rs u.
Proof.
  intros Hg. apply plays_assoc. intros c h Hc. split; [by eexists|]. intros weak i r w' c' Hex.
  destruct (load_root weak i w c h r w' c' Hc Hex) as (-> & -> & ->). left. split; [done|].
  eapply plays_silent; [apply search_from_silent; [apply sub_refl|apply enough]|apply search_from_searching|]. by intros r ->.
Qed.

(** A search that performs the call when it reads the root. *)
Lemma search_performs_call {A} k call cs rs w u (g : option loc → prog K V A) (g' : A → prog K V (list (tree_reply V))) :
  (∀ c h, coherent c h → ∃ reply, map_call call (u, h) reply (u, h) ∧ plays (g (look sk k) ≫= g') w cs (rs ++ [reply]) u) →
  plays ((search fuel k ≫= g) ≫= g') w (call :: cs) rs u.
Proof.
  intros Hg. apply plays_assoc. intros c h Hc. split; [by eexists|]. intros weak i r w' c' Hex.
  destruct (load_root weak i w c h r w' c' Hc Hex) as (-> & -> & ->). destruct (Hg c h Hc) as (reply & Hm & Hp). right.
  exists call, cs, reply, u, h. split_and!; [done..|].
  eapply plays_silent; [apply search_from_silent; [apply sub_refl|apply enough]|apply search_from_searching|]. by intros r ->.
Qed.

(** A thread reads a version of the key that is no older than it has seen. *)
Lemma reads_version {A} c h w u k a i (g : V → A) r w' c' :
  coherent c h → sees w u → look sk k = Some a →
  match c.2 !! a ≫= (λ vs, vs !! i) with
  | Some v => if decide (seen w a ≤ i)%nat then Some (g v, <[a := i]> w, c) else None
  | None => None
  end = Some (r, w', c') →
  ∃ vs v, h !! k = Some vs ∧ vs !! i = Some v ∧ (seen u k ≤ i)%nat ∧ r = g v ∧ c' = c ∧ w' = <[a := i]> w ∧
    sees w' u ∧ sees w' (<[k := i]> u).
Proof.
  intros Hc Hs Hl. destruct (coherent_look c h k a Hc Hl) as (n & vs & _ & -> & Hv & _). cbn.
  destruct (vs !! i) as [v|] eqn:Hi; [|done]. case_decide as Hd; [|done]. intros [= <- <- <-]. exists vs, v.
  pose proof (Hs k a Hl). split_and!; [done|done|lia|done..|by apply sees_more|by eapply sees_both].
Qed.
(** Reading the value of a node of the tree. *)
Lemma load_value_plays k a (g : V → prog K V (list (tree_reply V))) w cs rs u :
  sees w u → look sk k = Some a → (∀ v i, sees (<[a := i]> w) u → plays (g v) (<[a := i]> w) cs rs u) →
  plays (load_value a ≫= g) w cs rs u.
Proof.
  intros Hs Hl Hg c h Hc. destruct (coherent_look c h k a Hc Hl) as (n & _ & Hn & _).
  split; [cbn; rewrite Hn; by eexists|]. intros weak i r w' c' Hex.
  destruct (reads_version c h w u k a i _ r w' c' Hc Hs Hl Hex) as (vs & v & _ & _ & _ & -> & -> & -> & Hs' & _).
  left. split; [done|]. by apply Hg.
Qed.

Lemma value_loop_plays n k a v e cs rs w u (g : () → prog K V (list (tree_reply V))) :
  look sk k = Some a → sees w u → (∀ w' u', sees w' u' → plays (g tt) w' cs (rs ++ [Void]) u') →
  plays (value_loop n a e v ≫= g) w (CallSet k v :: cs) rs u.
Proof.
  intros Hl Hs Hg. revert e w Hs. induction n as [|n IH]; intros e w Hs; [by eexists _, _, _|].
  intros c h Hc. destruct (coherent_look c h k a Hc Hl) as (nd & vs & Hnd & Hvs & Hv & Hset).
  split; [cbn; rewrite Hnd; by eexists|]. intros weak i r w' c' Hex.
  unfold coherent_exec in Hex. rewrite Hnd in Hex. destruct (_ && _).
  - rewrite Hvs in Hex. injection Hex as <- <- <-. right. eexists (CallSet k v), cs, Void, _, _.
    split_and!; [done|by apply set_version|apply Hset|]. apply Hg. by eapply sees_both.
  - destruct (reads_version c h w u k a i _ r w' c' Hc Hs Hl Hex) as (vs' & v' & _ & _ & _ & -> & -> & -> & Hs' & _).
    left. split; [done|]. by apply IH.
Qed.

Lemma get_plays k a cs rs w u (g : tree_reply V → prog K V (list (tree_reply V))) :
  look sk k = Some a → sees w u → (∀ r w' u', sees w' u' → plays (g r) w' cs (rs ++ [r]) u') →
  plays ((v ← load_value a; g (Value (Some v)))) w (CallGet k :: cs) rs u.
Proof.
  intros Hl Hs Hg c h Hc. destruct (coherent_look c h k a Hc Hl) as (n & _ & Hn & _).
  split; [cbn; rewrite Hn; by eexists|]. intros weak i r w' c' Hex.
  destruct (reads_version c h w u k a i _ r w' c' Hc Hs Hl Hex) as (vs & v & Hv & Hi & Hu & -> & -> & -> & _ & Hs').
  right. eexists (CallGet k), cs, _, _, _. split_and!; [done|by eapply get_version|done|by apply Hg].
Qed.

Lemma call_plays m0 f0 call cs rs w u (g : tree_reply V → prog K V (list (tree_reply V))) :
  inv sk m0 f0 → quiet f0 call → sees w u → (∀ r w' u', sees w' u' → plays (g r) w' cs (rs ++ [r]) u') →
  plays (lf_call fuel call ≫= g) w (call :: cs) rs u.
Proof.
  intros Hi0 Hq Hs Hg. destruct call as [k v|k|k|k]; cbv beta iota delta [lf_call]; [| |done|].
  - unfold set. apply plays_assoc, search_plays. destruct (look sk k) as [a|] eqn:El; cycle 1.
    { apply (look_none sk m0 f0) in El; [|done]. cbn in Hq. rewrite El in Hq. by destruct Hq. }
    apply plays_assoc. eapply load_value_plays; [done|exact El|]. intros e i Hs'. apply value_loop_plays; [done|done|]. intros w' u'. apply Hg.
  - unfold get_. apply plays_assoc. destruct (look sk k) as [a|] eqn:El.
    + apply search_plays. rewrite El. apply plays_assoc. by eapply get_plays.
    + apply search_performs_call. intros c h Hc. rewrite El. eexists. split; [by eapply get_absent, coherent_absent|by apply Hg].
  - unfold exists_. apply plays_assoc, search_performs_call. intros c h Hc. eexists. split; [apply exists_key|]. cbn.
    rewrite (bool_decide_ext (is_Some (h !! k)) (is_Some (look sk k))); [by apply Hg|].
    destruct (look sk k) as [a|] eqn:El.
    + destruct (coherent_look c h k a Hc El) as (n & vs & _ & _ & -> & _). split; intros _; by eexists.
    + rewrite (coherent_absent c h k) by done. split; by intros [].
Qed.

Lemma calls_play m0 f0 cs rs w u g :
  inv sk m0 f0 → Forall (quiet f0) cs → sees w u → (∀ rs', g rs' = Ret (rs ++ rs')) →
  plays (lf_calls fuel cs ≫= g) w cs rs u.
Proof.
  intros Hi Hq. revert rs w u g. induction Hq as [|c cs Hc Hcs IH]; intros rs w u g Hs Hg.
  { cbn. rewrite Hg. by rewrite app_nil_r. }
  cbn. apply plays_assoc. eapply call_plays; [done|done|done|]. intros r w' u' Hs'. apply plays_assoc.
  apply IH; [done|]. intros rs'. cbn. by rewrite Hg, <- app_assoc.
Qed.
(** ** The simulation *)
Definition tracked (p : prog K V (list (tree_reply V)) * gmap loc nat)
    (a : list (tree_call K V) * list (tree_reply V) * gmap K nat) : Prop :=
  plays p.1 p.2 a.1.1 a.1.2 a.2.

Lemma coherent_step_tracked ps c ps' c' ats h :
  coherent_step (ps, c) (ps', c') → Forall2 tracked ps ats → coherent c h →
  ∃ ats' h', rtc map_step (ats, h) (ats', h') ∧ Forall2 tracked ps' ats' ∧ coherent c' h'.
Proof.
  inversion 1 as [ps1 e k w ps2 ? weak i r w' ? He]. subst. intros Hall Hc.
  apply Forall2_app_inv_l in Hall as (as1 & as2' & H1 & H2 & ->).
  apply Forall2_cons_inv_l in H2 as ([[cs rs] u] & as2 & Ht & H2 & ->).
  destruct (Ht c h Hc) as [_ Hstep]. destruct (Hstep weak i r w' c' He) as [[Hc' Hp]|(call & cs' & reply & u' & h' & Hcs & Hm & Hc' & Hp)].
  - exists (as1 ++ (cs, rs, u) :: as2), h. split; [done|]. split; [|done]. apply Forall2_app; [done|]. by constructor.
  - cbn in Hcs, Hm. subst cs. eexists _, _. split; [by apply rtc_once, map_client|]. split; [|done].
    apply Forall2_app; [done|]. by constructor.
Qed.

Lemma coherent_steps_tracked x y ats h :
  rtc coherent_step x y → Forall2 tracked x.1 ats → coherent x.2 h →
  ∃ ats' h', rtc map_step (ats, h) (ats', h') ∧ Forall2 tracked y.1 ats' ∧ coherent y.2 h'.
Proof.
  intros Hr. revert ats h. induction Hr as [x|[ps c] [ps1 c1] y Hs Hr IH]; intros ats h Hall Hc.
  { by exists ats, h. }
  destruct (coherent_step_tracked ps c ps1 c1 ats h Hs Hall Hc) as (ats1 & h1 & Ha & Hall1 & Hc1).
  destruct (IH ats1 h1 Hall1 Hc1) as (ats2 & h2 & Ha2 & ? & ?). exists ats2, h2. split; [by etrans|done].
Qed.

(** At first every value is the only one its node has had. *)
Lemma histories_coherent m f : inv sk m f → coherent (m, histories_of m) (versions_of f).
Proof.
  intros Hi. exists f. split_and!; [done| | |].
  - intros k. unfold versions_of. rewrite lookup_fmap. by destruct (f !! k).
  - intros k vs. unfold versions_of. rewrite lookup_fmap. destruct (f !! k); [by intros [= <-]|done].
  - intros k a Hl. destruct (look_some sk m f k a Hi Hl) as (n & Hn & Hk & _).
    unfold histories_of, versions_of. cbn. by rewrite !lookup_fmap, Hn, Hk.
Qed.
End Fixed.
End Coherent.

(** ** Properties *)
Section Properties.
Context {K V : Type} `{Countable K} `{!EqDecision V} `{!KeyOrder K} `{!KeyOrderLaws K}.
Implicit Types (m : memory K V) (f : gmap K V).

(** C24: Threads side by side that look up any key and set keys that are present cannot tell
    the lock-free tree from a coherent map, whatever the interleaving, whichever of the
    values that coherence allows a load reads, and however often compare-and-swaps fail
    spuriously.  In the coherent map each call happens at once: a [get] answers with a value
    its key has had, never older than the client has set or got before, [exists] answers
    exactly, and a [set] adds the newest value.  No thread crashes, and none but a [set]
    can be kept retrying. *)
Theorem quiet_clients_coherent fuel css m f ps c' :
  lf_rep m f → (size f < fuel)%nat → Forall (Forall (quiet f)) css →
  rtc coherent_step ((λ cs, (lf_calls fuel cs, ∅)) <$> css, (m, histories_of m)) (ps, c') →
  ∃ ats h' f', rtc map_step ((λ cs, (cs, [], ∅)) <$> css, versions_of f) (ats, h') ∧
    lf_rep c'.1 f' ∧ newest_of h' f' ∧
    Forall2 (λ '(p, _) '(cs, rs, _),
      match p with
      | Ret rs' => cs = [] ∧ rs' = rs
      | Act e _ => is_Some (exec false e c'.1)
      | Crash => False
      | OutOfFuel => ∃ k v cs', cs = CallSet k v :: cs'
      end) ps ats.
Proof.
  intros [t Ht] Hf Hq Hsteps. assert (inv (skel t) m f) as Hi by by exists t.
  edestruct (coherent_steps_tracked (skel t) _ _ ((λ cs, (cs, [], ∅)) <$> css) (versions_of f) Hsteps)
    as (ats & h' & Ha & Hall & Hc').
  - cbn. apply Forall2_fmap, Forall_Forall2_diag. eapply Forall_impl; [exact Hq|]. intros cs Hcs.
    unfold tracked. cbn. apply plays_ret.
    eapply calls_play; [by rewrite skel_size, (lf_size m t f)|exact Hi|done| |done]. by intros k a _.
  - by apply histories_coherent.
  - pose proof Hc' as (f' & (t' & Ht' & _) & Hnew & _). exists ats, h', f'. split; [done|]. split; [by exists t'|].
    split; [done|]. eapply Forall2_impl; [exact Hall|]. intros [p w] [[cs rs] u]. unfold tracked. cbn.
    destruct p; [done| |done|done]. intros Hp. by destruct (Hp c' h' Hc').
Qed.
End Properties.

(** *** Witness *)

(** The first client has set the key when the second one still reads the old value. *)
Definition stale_schedule : list (nat * bool * nat) := replicate 20 (0%nat, false, 0%nat) ++ replicate 20 (1%nat, false, 0%nat).
Definition stale_start := ((λ cs, (lf_calls 3 cs, ∅ : gmap loc nat)) <$> two_clients, (one_node_tree, histories_of one_node_tree)).
Definition stale_end := Eval vm_compute in (coherent_turns stale_schedule stale_start).1.*2.
Definition stale_memory := Eval vm_compute in (coherent_turns stale_schedule stale_start).2.

Lemma stale_steps :
  rtc coherent_step stale_start (zip (Ret <$> [[Void]; [Value (Some 10); Value None]]) stale_end, stale_memory).
Proof. exact (coherent_turns_steps stale_schedule stale_start). Qed.

Lemma quiet_clients_coherent_witness :
  Forall (Forall (quiet {[1 := 10]})) two_clients ∧
  ∃ u1 u2 h' f', rtc map_step ((λ cs, (cs, [], ∅)) <$> two_clients, versions_of {[1 := 10]})
      ([([], [Void], u1); ([], [Value (Some 10); Value None], u2)], h') ∧
    lf_rep stale_memory.1 f' ∧ newest_of h' f'.
Proof.
  assert (Forall (Forall (quiet ({[1 := 10]} : gmap Z Z))) two_clients) as Hq.
  { repeat constructor. by exists 10. }
  assert (size ({[1%Z := 10%Z]} : gmap Z Z) < 3)%nat as Hf by (vm_compute; lia).
  split; [exact Hq|].
  destruct (quiet_clients_coherent 3 two_clients one_node_tree {[1 := 10]} _ _ one_node_rep Hf Hq stale_steps)
    as (ats & h' & f' & Ha & Hr & Hnew & Hall).
  apply Forall2_cons_inv_l in Hall as ([[cs1 rs1] u1] & ats1 & [E1 F1] & Hall & ->).
  apply Forall2_cons_inv_l in Hall as ([[cs2 rs2] u2] & ats2 & [E2 F2] & Hall & ->).
  apply Forall2_nil_inv_l in Hall as ->. rewrite E1, <- F1, E2, <- F2 in Ha. exists u1, u2, h', f'. exact (conj Ha (conj Hr Hnew)).
Defined.
