(* ===== verification/Spaces.v ===== *)
(** The vector spaces of src/hnsw/hnsw_scratch/space_l2.hpp and space_ip.hpp.

    A vector is a list, and reading behind its end is undefined behaviour ([None]).  The
    templates take their scalar's arithmetic as a parameter: for [float] it is the
    rounding arithmetic of the platform, which the theorems say nothing about.  The
    distances of byte vectors are computed in [int]; leaving its range is undefined.

    [L2Sqr4x] begins with [d >>= 2], where [d] is not declared, and so is not accepted by a
    compiler; its loop runs to [*dim].  The model has both readings of the statement as a
    parameter ([shifted]): that [d] is some variable the loop does not look at, or that it
    is the bound of the loop.  [L2SpaceI] names the function [L2SqrI4x]. *)

From S2P Require Import Prelude Bytes.

(** ** Loops over indices *)
Fixpoint accumulate {A} (step : A → nat → option A) (is_ : list nat) (acc : A) : option A :=
  match is_ with
  | [] => Some acc
  | i :: is_' => acc ← step acc i; accumulate step is_' acc
  end.

Lemma accumulate_app {A} (step : A → nat → option A) xs ys acc :
  accumulate step (xs ++ ys) acc = accumulate step xs acc ≫= accumulate step ys.
Proof.
  revert acc. induction xs as [|i xs IH]; intros acc; [done|]. cbn. destruct (step acc i); [apply IH|done].
Qed.

(** ** The templates *)
Section Templates.
Context {Scalar : Type} (zero one : Scalar) (add sub mul : Scalar → Scalar → Scalar).
Definition InnerProduct (vec1 vec2 : list Scalar) (dim : nat) : option Scalar :=
  accumulate (λ dot_product i, a ← vec1 !! i; b ← vec2 !! i; Some (add dot_product (mul a b))) (seq 0 dim) zero.

Definition InnerProductDistance (vec1 vec2 : list Scalar) (dim : nat) : option Scalar :=
  sub one <$> InnerProduct vec1 vec2 dim.

Definition L2Sqr (vec1 vec2 : list Scalar) (dim : nat) : option Scalar :=
  accumulate (λ result i,
    a ← vec1 !! i; b ← vec2 !! i; let diff := sub a b in Some (add result (mul diff diff))) (seq 0 dim) zero.

(** What both compute: the terms added up from the left, starting with zero. *)
Definition sum_left (terms : list Scalar) : Scalar := foldl add zero terms.

Lemma accumulate_terms (term : Scalar → Scalar → Scalar) (vec1 vec2 : list Scalar) dim :
  (dim ≤ length vec1)%nat → (dim ≤ length vec2)%nat →
  accumulate (λ acc i, a ← vec1 !! i; b ← vec2 !! i; Some (add acc (term a b))) (seq 0 dim) zero =
    Some (sum_left (zip_with term (take dim vec1) (take dim vec2))).
Proof.
  unfold sum_left. induction dim as [|dim IH]; intros H1 H2; [done|].
  rewrite seq_S, accumulate_app, IH by lia. cbn.
  destruct (lookup_lt_is_Some_2 vec1 dim) as [a Ha]; [lia|].
  destruct (lookup_lt_is_Some_2 vec2 dim) as [b Hb]; [lia|]. rewrite Ha, Hb. cbn.
  rewrite (take_S_r vec1 dim a), (take_S_r vec2 dim b) by done.
  rewrite zip_with_app by (rewrite !length_take; lia). by rewrite foldl_app.
Qed.

Lemma InnerProduct_sum (vec1 vec2 : list Scalar) :
  length vec1 = length vec2 →
  InnerProduct vec1 vec2 (length vec1) = Some (sum_left (zip_with mul vec1 vec2)).
Proof. intros Hlen. unfold InnerProduct. rewrite accumulate_terms by lia. by rewrite firstn_all, Hlen, firstn_all. Qed.

Lemma L2Sqr_sum (vec1 vec2 : list Scalar) :
  length vec1 = length vec2 →
  L2Sqr vec1 vec2 (length vec1) = Some (sum_left (zip_with (λ a b, mul (sub a b) (sub a b)) vec1 vec2)).
Proof.
  intros Hlen. unfold L2Sqr. rewrite (accumulate_terms (λ a b, mul (sub a b) (sub a b))) by lia.
  by rewrite firstn_all, Hlen, firstn_all.
Qed.
End Templates.

(** ** Byte vectors *)
Definition INT_MAX : Z := 2 ^ 31 - 1.

(** [result += (a - b) * (a - b)] in [int]; the operands are promoted bytes. *)
Definition add_square (result : Z) (a b : byte) : option Z :=
  let d := byte_val a - byte_val b in
  let s := result + d * d in
  if s <=? INT_MAX then Some s else None.

Definition add_at (vec1 vec2 : list byte) (result : Z) (i : nat) : option Z :=
  a ← vec1 !! i; b ← vec2 !! i; add_square result a b.

Definition L2SqrI (vec1 vec2 : list byte) (dim : nat) : option Z :=
  accumulate (add_at vec1 vec2) (seq 0 dim) 0.

(** What the undeclared [d] of [d >>= 2] stands for. *)
Inductive shifted := OtherVariable | LoopBound.

Definition L2Sqr4x (d : shifted) (vec1 vec2 : list byte) (dim : nat) : option Z :=
  let bound := match d with OtherVariable => dim | LoopBound => Nat.shiftr dim 2 end in
  accumulate (λ result i,
    result ← add_at vec1 vec2 result (4 * i);
    result ← add_at vec1 vec2 result (4 * i + 1);
    result ← add_at vec1 vec2 result (4 * i + 2);
    add_at vec1 vec2 result (4 * i + 3)) (seq 0 bound) 0.

(** [L2SpaceI(dim)]: the distance function it picks and [data_size_]. *)
Definition space_distance (d : shifted) (dim : nat) : list byte → list byte → option Z :=
  if (dim mod 4 =? 0)%nat then λ v w, L2Sqr4x d v w dim else λ v w, L2SqrI v w dim.
Definition space_data_size (dim : nat) : Z := Z.of_nat dim.

(** The squared Euclidean distance. *)
Definition squares (vec1 vec2 : list byte) : list Z :=
  zip_with (λ a b, (byte_val a - byte_val b) * (byte_val a - byte_val b)) vec1 vec2.
Definition euclid2 (vec1 vec2 : list byte) : Z := foldr Z.add 0 (squares vec1 vec2).

Lemma square_bound a b : 0 ≤ (byte_val a - byte_val b) * (byte_val a - byte_val b) ≤ 65025.
Proof.
  pose proof (byte_val_range a) as Ha. pose proof (byte_val_range b) as Hb. revert Ha Hb.
  generalize (byte_val a), (byte_val b). intros x y Hx Hy.
  assert (0 ≤ (255 - (x - y)) * (255 + (x - y))) by (apply Z.mul_nonneg_nonneg; lia). pose proof (Z.square_nonneg (x - y)). lia.
Qed.

Lemma foldr_add_app xs ys : foldr Z.add 0 (xs ++ ys) = foldr Z.add 0 xs + foldr Z.add 0 ys.
Proof. induction xs as [|x xs IH]; cbn; [lia|]. rewrite IH. lia. Qed.

Lemma euclid2_bound v w : 0 ≤ euclid2 v w ≤ 65025 * Z.of_nat (length v).
Proof.
  unfold euclid2, squares. revert w. induction v as [|a v IH]; intros [|b w]; cbn [zip_with foldr length]; [lia..|].
  pose proof (square_bound a b). specialize (IH w). lia.
Qed.

Lemma euclid2_sym v w : euclid2 v w = euclid2 w v.
Proof.
  unfold euclid2, squares. revert w. induction v as [|a v IH]; intros [|b w]; cbn; [done..|].
  specialize (IH w). cbn in IH. rewrite IH. lia.
Qed.

Lemma euclid2_zero v w : length v = length w → euclid2 v w = 0 ↔ v = w.
Proof.
  revert w. induction v as [|a v IH]; intros [|b w] Hlen; try done. injection Hlen as Hlen.
  pose proof (euclid2_bound v w). pose proof (square_bound a b).
  change (euclid2 (a :: v) (b :: w)) with ((byte_val a - byte_val b) * (byte_val a - byte_val b) + euclid2 v w).
  split.
  - intros Hz. assert (byte_val a = byte_val b) as Hab by nia. f_equal; [by apply byte_val_inj|].
    apply (IH w Hlen). lia.
  - intros [= -> ->]. rewrite (proj2 (IH w Hlen)) by done. lia.
Qed.

Lemma L2SqrI_prefix v w dim :
  (dim ≤ length v)%nat → (dim ≤ length w)%nat →
  euclid2 (take dim v) (take dim w) ≤ INT_MAX → L2SqrI v w dim = Some (euclid2 (take dim v) (take dim w)).
Proof.
  unfold L2SqrI. induction dim as [|dim IH]; intros Hv Hw Hmax; [done|].
  destruct (lookup_lt_is_Some_2 v dim) as [a Ha]; [lia|].
  destruct (lookup_lt_is_Some_2 w dim) as [b Hb]; [lia|].
  assert (euclid2 (take (S dim) v) (take (S dim) w) = euclid2 (take dim v) (take dim w) +
    (byte_val a - byte_val b) * (byte_val a - byte_val b)) as E.
  { unfold euclid2, squares. rewrite (take_S_r v dim a), (take_S_r w dim b) by done.
    rewrite zip_with_app by (rewrite !length_take; lia). rewrite foldr_add_app. cbn. lia. }
  pose proof (square_bound a b). rewrite seq_S, accumulate_app, IH by lia. cbn. unfold add_at. cbn.
  rewrite Ha, Hb. cbn. unfold add_square. rewrite <- E. destruct (Z.leb_spec (euclid2 (take (S dim) v) (take (S dim) w)) INT_MAX); [done|lia].
Qed.

Lemma L2Sqr4x_unrolled v w dim : L2Sqr4x OtherVariable v w dim = L2SqrI v w (4 * dim).
Proof.
  unfold L2Sqr4x, L2SqrI. cbn zeta. generalize 0. induction dim as [|dim IH]; intros z; [done|].
  replace (4 * S dim)%nat with (4 * dim + 4)%nat by lia. rewrite seq_S, seq_app, !accumulate_app, IH.
  destruct (accumulate _ (seq 0 (4 * dim)) z) as [r|]; [|done].
  cbn [accumulate seq Nat.add mbind option_bind]. rewrite !Nat.add_1_r, <- !Nat.add_succ_comm, !Nat.add_0_r.
  repeat (destruct (add_at _ _ _ _); cbn; [|done]). done.
Qed.

(** With the bound shifted the loop covers the whole fours of the dimension. *)
Lemma L2Sqr4x_shifted v w dim : L2Sqr4x LoopBound v w dim = L2SqrI v w (4 * (dim / 4)).
Proof.
  rewrite <- L2Sqr4x_unrolled. unfold L2Sqr4x. cbn zeta. by rewrite Nat.shiftr_div_pow2.
Qed.

Lemma add_at_behind v w z i : (length v ≤ i)%nat → add_at v w z i = None.
Proof. intros Hi. unfold add_at. rewrite (lookup_ge_None_2 v i) by done. done. Qed.

(** The index that is four times as far as the vector reaches. *)
Lemma L2SqrI_behind v w dim : (length v < dim)%nat → L2SqrI v w dim = None.
Proof.
  intros Hd. unfold L2SqrI. replace dim with (length v + S (dim - S (length v)))%nat by lia.
  rewrite seq_app, accumulate_app. destruct (accumulate _ (seq 0 _) _) as [z|]; [|done]. cbn.
  by rewrite add_at_behind.
Qed.

(** C32: On byte vectors of one length, up to 33025 dimensions (then the [int] sum cannot
    overflow), [L2SqrI] is the squared Euclidean distance, which is zero just for equal
    vectors.  If the [d] that [L2Sqr4x] shifts is its loop bound, the distance function the
    space chooses is the squared Euclidean distance for every dimension; if it is another
    variable, that function is right when four does not divide the dimension, and otherwise
    reads behind the vectors unless they are empty. *)
Theorem byte_distance v w :
  length v = length w → Z.of_nat (length v) ≤ 33025 →
  L2SqrI v w (length v) = Some (euclid2 v w) ∧
  (euclid2 v w = 0 ↔ v = w) ∧
  space_distance LoopBound (length v) v w = Some (euclid2 v w) ∧
  space_distance OtherVariable (length v) v w =
    (if bool_decide ((length v mod 4)%nat = 0%nat ∧ v ≠ []) then None else Some (euclid2 v w)).
Proof.
  intros Hlen Hmax. assert (L2SqrI v w (length v) = Some (euclid2 v w)) as Hi.
  { pose proof (euclid2_bound v w). pose proof (L2SqrI_prefix v w (length v) ltac:(lia) ltac:(lia)) as Hp.
    rewrite firstn_all in Hp. rewrite Hlen, firstn_all in Hp. rewrite Hlen. apply Hp. unfold INT_MAX. lia. }
  split; [done|]. split; [by apply euclid2_zero|]. unfold space_distance.
  destruct (Nat.eqb_spec (length v mod 4) 0) as [Hmod|Hmod]; [|rewrite bool_decide_eq_false_2 by tauto; by split].
  assert (length v = 4 * (length v / 4))%nat as Hfour by (pose proof (Nat.div_mod_eq (length v) 4); lia).
  split; [by rewrite L2Sqr4x_shifted, <- Hfour|]. rewrite L2Sqr4x_unrolled.
  destruct (decide (v = [])) as [->|Hne].
  { rewrite bool_decide_eq_false_2 by tauto. exact Hi. }
  rewrite bool_decide_eq_true_2 by done. apply L2SqrI_behind. destruct v; [done|cbn; lia].
Qed.

Definition corner : list byte := [Byte.x00; Byte.xff; Byte.x02; Byte.x03].
Definition origin : list byte := replicate 4 Byte.x00.

Lemma byte_distance_witness :
  L2SqrI corner origin 4 = Some 65038 ∧ space_distance LoopBound 4 corner origin = Some 65038 ∧
  space_distance OtherVariable 4 corner origin = None.
Proof.
  destruct (byte_distance corner origin eq_refl ltac:(cbn; lia)) as (Hi & _ & Hu & Ho).
  exact (conj Hi (conj Hu Ho)).
Defined.
